(* ===== verification/_CoqProject ===== *)
-Q . S2P
Prelude.v
Core.v
Position.v
Backoff.v
Multistream.v
Taker.v
Coordinator.v
Leader.v
Cleanup.v
Lineage.v
Scheduler.v
InMem.v
LeaseTable.v
DynamoDb.v
LeaseRefine.v
LeaseHistory.v
DynamoSim.v
Interfaces.v
Metrics.v
CoreTests.v
ChangeRecord.v
Worker.v
Fakes.v
WorkerAws.v
LeaderElection.v
LeaderDemo.v
CkptDefer.v
Tasks.v
Stable.v
StreamsSource.v
StreamsReads.v
StreamsDemo.v
FleetState.v
ShardPass.v
PassCalls.v
Pool.v
FleetSync.v
Fleet.v
CycleCalls.v
Film.v
WorkerCalls.v
FleetLive.v
PoolBound.v
FleetBeat.v
Otel.v
Telemetry.v
FleetFakes.v
FleetProbes.v
FleetDemo.v
FleetDrain.v
FleetTests.v
TelemetryDemo.v
ServiceTests.v
LiveFleet.v
LiveDemo.v
LiveLeases.v
LiveLeasesDemo.v
LiveCheckpoints.v
Together.v
LiveCheckpointsDemo.v
Protocol.v
Ipc.v
Sidecar.v
RustClient.v
LiveWorker.v
LiveWorkerDemo.v
Handover.v
Failover.v
FailoverDemo.v
ClientDemo.v
ClientTests.v
