(* ===== verification/Prelude.v ===== *)
(** * A verified model of the DynamoDB Streams consumer

    The repository is a Kinesis-Client-Library style consumer for DynamoDB Streams:
    workers share a lease table, each claims its share of the shards of a stream,
    polls them, delivers records to the application's processors and checkpoints in
    the leases.  This library translates the Rust crates into Rocq and proves what
    makes them correct.  This file is the prelude; the rest, in dependency order:

    - [core/src]: [Core] (records, batches, metadata), [Position] (start positions
      in the checkpoint column, the seed of a reshard child), [Backoff],
      [Multistream] (lease keys), [Taker] (which leases to take), [Coordinator]
      (liveness from heartbeat rows; [tick]), [Leader] (the shard graph read off the
      leases), [Cleanup] (which leases may be deleted), [Scheduler] with [InMem]
      (the synchronous scheduler and the in-memory stream it is run on), [Metrics]
      (the sink and the clock).
    - [core/src/record.rs], [source-ddbstreams/src]: [Lineage], the shard graph from
      DescribeStream; [ChangeRecord], the typed change record; [StreamsSource], the
      live source with its iterator per shard; [StreamsReads], what polling it
      delivers, on [StreamsDemo], a concrete service.
    - [lease-dynamodb/src]: [LeaseTable], the abstract table of leases under
      optimistic locking; [DynamoDb], every operation of the store over a client;
      [LeaseRefine], the store refines the table; [LeaseHistory], what calls of the
      store, one after the other, make of a row; [DynamoSim], a concrete client.
    - [worker/src/lib.rs] and [aws.rs]: [Interfaces] (the async traits), [Worker],
      [Fakes] (the stream and table of its tests), [WorkerAws] (the live store
      behind the lease interface).
    - [worker/src/fleet.rs]: [LeaderElection] ([Leadership]), [CkptDefer], [Tasks]
      (spawned tasks and their interleavings) with [Stable], its rely-guarantee
      rule, [FleetState] (what is behind the mutexes of [Fleet]), [ShardPass]
      ([process_shard]), [PassCalls] (what its calls keep, it keeps), [Pool]
      ([run_bounded_pool]), [FleetSync] (shard sync, cleanup, release), [Fleet]
      ([run_cycle], [run_until_complete]), [CycleCalls] (what the calls of a cycle's
      passes keep, the passes keep), [Film] (the worlds that the calls of a run
      left, one after the other), [WorkerCalls] (the same for a whole cycle and the
      release), [FleetLive] (cycles return), [FleetBeat] (heartbeats), [PoolBound]
      (how many passes at once); [LiveFleet], concurrent passes over the live
      source, [LiveLeases], over the live lease store, and [LiveCheckpoints], over
      both, with [Together], two services in one world. [LeaderDemo], [FleetFakes],
      [FleetProbes], [FleetDemo], [FleetDrain], [LiveDemo], [LiveLeasesDemo] and
      [LiveCheckpointsDemo] run them on concrete worlds.
    - The programmers' own unit tests, run on the model: [CoreTests], [ServiceTests]
      (source, lease store, worker), [FleetTests] and [ClientTests] (sidecar,
      client); those that count calls in progress at once are left to [PoolBound].
    - [protocol/src/lib.rs], [sidecar/src] and [clients/rust/src/lib.rs]:
      [Protocol], the messages and their lines; [Ipc] ([ipc.rs]), the waiters, the
      reader and the deliveries as a step relation over their interleavings;
      [Sidecar] ([main.rs]), the configuration, the main loop and the handoff;
      [Otel] ([otel.rs]), the telemetry sink and its signing transport, with
      [Telemetry], what it counts, and [TelemetryDemo]; [RustClient], the in-process
      client: records, JSON views, adapters, builder, run loop; [LiveWorker], what
      it leaves of the live lease table from start to stop, with [LiveWorkerDemo];
      [Handover] and [Failover], many workers over one table, what the checkpoint of
      each tells the next, with [FailoverDemo]; [ClientDemo], concrete codecs and
      runs.

    How the code is read.  Structs are records and enums inductive types; [u64] is
    [N] with its wrap-around or saturation written out; strings are byte strings.
    An [async fn] over the outside world is a function on a world type [W] that
    returns its result and the world it leaves ([M]); traits are type classes over
    [W], so a theorem about a client holds for every implementation and every
    answer.  [Result] is a sum, [?] is [bind_ok].  What is behind a mutex is an
    explicit memory beside the world ([FleetMem]).  Spawned tasks are sequences of
    atomic actions ([Task]) run under a schedule, and what is proved of them holds
    for every schedule.  Iteration over a hash map or set is in an order given by
    [HashOrder], any permutation of the entries.

    Observation.  To say what a component does, its code is run in a world that also
    keeps a log ([logged]): the calls to its collaborators append events, and the
    theorems relate the log to an automaton or a trace.  Logging is an instance of
    the interfaces, so the code that runs is the code.  In the same way [Film] keeps the
    world that each call left, and [process_erases] shows that keeping it changes no
    run: the theorems about the live tables are about every moment of a run.

    What is shown.  Decisions: the taker's share, the coordinator's expiry, the
    deletable leases, the shard graph and the backoffs meet closed-form
    specifications.  Leases: every store operation is one atomic step of the
    optimistic-lock table, a call that goes through fences out every later call
    conditioned on an older counter, and what each call may make of a row is listed.
    Source: who polls the live source gets every record that is left, in order and
    once, whatever iterators expire.  Processing: the scheduler, the worker and
    every fleet pass follow a consumer protocol (resume after the last delivery,
    checkpoint what was acked, complete after everything is saved), whatever is
    interleaved; the pool passes each due shard once and never more at a time than
    its limit; a cycle touches exactly the shards that are ready; source and passes
    together lose no record; store and passes together let no overtaken pass write
    its lease, from any moment on at which the row shows another owner or a newer
    counter; over both, at every moment, the checkpoint in the row names no record
    past those that the consumer was handed by then; a whole worker, from start to
    stop, writes the progress of the leases it owns and of no other; and as long as
    the other workers keep every checkpoint true, so does it: what lies up to one
    was handed to a consumer, by some worker, or was trimmed, so none of it is lost
    in a takeover ([Cluster] says what is relied on; scans of the table may be
    stale, consumers ack records of the batch they were handed, and the initial
    position is TRIM_HORIZON); the telemetry counts every delivery once.
    Leadership: one winner per scan. Clients: a sidecar delivery is checkpointed by
    the client's own ack and by no other, a handoff tells the client before it
    releases, records, items and messages survive their encodings. Termination: the
    scheduler drains acyclic streams, retries are bounded, and a cycle returns while
    the backlog is finite. Several theorems state what the code does where a comment
    promises something else.

    Bounds.  Loops that poll take a number of polls, and [InMem], [Fakes] and
    [FleetLive] prove how many are enough; running out is a separate result, never
    an answer.  A pool worker may claim once more than there are queued items, which
    is all a shrinking queue allows.  Retry and paging loops take the bound of the
    code or the number of pages.

    Not modelled: the AWS and OpenTelemetry SDKs, sockets, process start-up, signal
    handling, and the bindings for other languages.  The metrics sink is an interface;
    only [Telemetry] says what arrives in it.  Mutex poisoning and task
    cancellation do not happen in the model. *)

From Stdlib Require Import NArith Lia.
From Stdlib Require Import DecimalString DecimalN DecimalNat.
From Stdlib Require Ascii String.
Export (notations) Ascii.
From stdpp Require Import base gmap sets list strings sorting numbers.

#[global] Set Default Goal Selector "!".
#[global] Open Scope stdpp_scope.

Declare Scope ddb_scope.
Delimit Scope ddb_scope with ddb.
#[global] Open Scope ddb_scope.

(** ** Rust results and the state-passing reading of [async fn]

    A Rust [Result<A, E>] is [Result A E].  A method that talks to the outside
    world (a service call, a callback into the application, a clock read) is a
    function on a world of type [W]: [M W A] is what it returns and the world it
    leaves behind.  The world is never inspected by the code; only the
    interfaces of the components (type classes over [W]) touch it. *)

Inductive Result (A E : Type) : Type :=
| Ok (a : A)
| Err (e : E).
Arguments Ok {A E} a.
Arguments Err {A E} e.

Definition is_ok {A E} (r : Result A E) : bool :=
  match r with Ok _ => true | Err _ => false end.

(** [Box<dyn std::error::Error>]: only its rendered message is observable. *)
Definition WorkerError : Type := string.

Definition M (W A : Type) : Type := W → A * W.

Definition ret {W A} (a : A) : M W A := λ w, (a, w).
Definition bind {W A B} (m : M W A) (k : A → M W B) : M W B :=
  λ w, let '(a, w') := m w in k a w'.

Notation "x <- m ;; k" := (bind m (λ x, k))
  (at level 100, m at next level, right associativity) : ddb_scope.
Notation "m ;;; k" := (bind m (λ _, k))
  (at level 100, right associativity) : ddb_scope.

(** The [?] operator: continue on [Ok], return the error otherwise. *)
Definition bind_ok {W A B E} (m : M W (Result A E)) (k : A → M W (Result B E))
  : M W (Result B E) :=
  r <- m ;; match r with Ok a => k a | Err e => ret (Err e) end.

Notation "x <-? m ;; k" := (bind_ok m (λ x, k))
  (at level 100, m at next level, right associativity) : ddb_scope.

(** [for x in l { body }] with no early exit. *)
Fixpoint for_each {W A} (body : A → M W unit) (l : list A) : M W unit :=
  match l with
  | [] => ret tt
  | x :: l' => body x ;;; for_each body l'
  end.

(** [iter().all(|x| f(x))]: stops at the first [false]. *)
Fixpoint all_m {W A} (f : A → M W bool) (l : list A) : M W bool :=
  match l with
  | [] => ret true
  | x :: l' => b <- f x ;; if b then all_m f l' else ret false
  end.

(** Hoare triples for the state-passing code: from a world satisfying [P], the
    result and the world left behind satisfy [Q]. *)
Definition triple {W A} (P : W → Prop) (m : M W A) (Q : A → W → Prop) : Prop :=
  ∀ w, P w → Q (m w).1 (m w).2.

(** Observing a computation: the same code run in a world that also carries a
    log, to which the event computed from the result is appended. *)
Definition logged {W A Ev} (m : M W A) (ev : A → list Ev) : M (W * list Ev) A :=
  λ wl, let '(a, w') := m wl.1 in (a, (w', wl.2 ++ ev a)).

(** ** Machine integers

    [u64] values are [N]; arithmetic that can overflow is written out. *)

Definition u64_max : N := (2 ^ 64 - 1)%N.
Definition u64_add (a b : N) : N := ((a + b) mod 2 ^ 64)%N.
Definition u64_mul (a b : N) : N := ((a * b) mod 2 ^ 64)%N.
Definition saturating_sub (a b : N) : N := (a - b)%N.
Definition saturating_mul (a b : N) : N := N.min (a * b) u64_max.

(** [i64] arithmetic wraps as in a release build. *)
Definition i64_wrap (z : Z) : Z := ((z + 2 ^ 63) mod 2 ^ 64 - 2 ^ 63)%Z.

(** ** Strings: the standard-library methods the code calls *)

(** [str::starts_with]. *)
Definition starts_with (s p : string) : bool := String.prefix p s.

(** [str::to_ascii_uppercase] and [str::to_ascii_lowercase] (bytes outside the
    ASCII letters are left alone). *)
Definition ascii_shift (lo hi : N) (d : Z) (a : Ascii.ascii) : Ascii.ascii :=
  let n := Ascii.N_of_ascii a in
  if (lo <=? n)%N && (n <=? hi)%N then Ascii.ascii_of_N (Z.to_N (Z.of_N n + d)) else a.

Fixpoint str_map (f : Ascii.ascii → Ascii.ascii) (s : string) : string :=
  match s with
  | EmptyString => EmptyString
  | String a s' => String (f a) (str_map f s')
  end.

Definition to_ascii_uppercase : string → string := str_map (ascii_shift 97 122 (-32)).
Definition to_ascii_lowercase : string → string := str_map (ascii_shift 65 90 32).

(** [str::trim]: strip the code points with the Unicode [White_Space] property
    at both ends.  Strings are UTF-8 byte sequences. *)
Definition str_of_bytes (l : list N) : string :=
  foldr (λ b s, String (Ascii.ascii_of_N b) s) EmptyString l.

Definition whitespace_utf8 : list string :=
  str_of_bytes <$>
    ([[9]; [10]; [11]; [12]; [13]; [32]; [194; 133]; [194; 160]; [225; 154; 128]]
     ++ ((λ b, [226; 128; b]) <$> [128; 129; 130; 131; 132; 133; 134; 135; 136; 137; 138;
                                     168; 169; 175])
     ++ [[226; 129; 159]; [227; 128; 128]])%N.

Fixpoint strip_prefix (p s : string) : option string :=
  match p, s with
  | EmptyString, _ => Some s
  | String a p', String b s' => if decide (a = b) then strip_prefix p' s' else None
  | String _ _, EmptyString => None
  end.

Fixpoint strip_while (fuel : nat) (seqs : list string) (s : string) : string :=
  match fuel with
  | O => s
  | S fuel =>
      match omap (λ p, strip_prefix p s) seqs with
      | s' :: _ => strip_while fuel seqs s'
      | [] => s
      end
  end.

Definition trim_start (s : string) : string :=
  strip_while (String.length s) whitespace_utf8 s.
Definition trim_end (s : string) : string :=
  String.rev (strip_while (String.length s) (String.rev <$> whitespace_utf8) (String.rev s)).
Definition trim (s : string) : string := trim_end (trim_start s).

(** [str::rsplit_once(':')]: split at the last occurrence of a character. *)
Fixpoint rsplit_once (c : Ascii.ascii) (s : string) : option (string * string) :=
  match s with
  | EmptyString => None
  | String a s' =>
      match rsplit_once c s' with
      | Some (l, r) => Some (String a l, r)
      | None => if decide (a = c) then Some (EmptyString, s') else None
      end
  end.

(** Does the character occur in the string? *)
Fixpoint str_contains (c : Ascii.ascii) (s : string) : bool :=
  match s with
  | EmptyString => false
  | String a s' => bool_decide (a = c) || str_contains c s'
  end.

(** [str::contains] of a string. *)
Fixpoint contains (s p : string) : bool :=
  starts_with s p || match s with EmptyString => false | String _ s' => contains s' p end.

(** [u64::to_string] and [str::parse::<u64>] (an optional leading [+], then one
    or more digits, rejected when the value does not fit). *)
Definition u64_to_string (n : N) : string :=
  NilZero.string_of_uint (N.to_uint n).

Definition parse_u64 (s : string) : option N :=
  let digits :=
    match s with
    | String "+"%char s' => s'
    | _ => s
    end in
  match NilZero.uint_of_string digits with
  | Some d => let n := N.of_uint d in if (n <=? u64_max)%N then Some n else None
  | None => None
  end.

(** ** Stable sorting by a string key: [Vec::sort_by(|a, b| a.key.cmp(&b.key))] *)

Fixpoint insert_by {A} (key : A → string) (x : A) (l : list A) : list A :=
  match l with
  | [] => [x]
  | y :: l' => if String.leb (key x) (key y) then x :: l else y :: insert_by key x l'
  end.

Definition sort_by_key {A} (key : A → string) (l : list A) : list A :=
  foldr (insert_by key) [] l.

(** The order the sort establishes. *)
Definition key_le {A} (key : A → string) (x y : A) : Prop :=
  String.le (key x) (key y).

(** ** Hash-map iteration

    [HashMap] and [HashSet] iterate in an order the language leaves unspecified
    (and randomises per process).  Definitions that iterate over one take the
    order as a parameter; the only thing that may be assumed of it is that it
    enumerates the entries of the map. *)
Class HashOrder := {
  hash_order : ∀ {V : Type}, gmap string V → list (string * V);
  hash_order_perm : ∀ {V} (m : gmap string V), hash_order m ≡ₚ map_to_list m;
}.

#[export] Program Instance sorted_hash_order : HashOrder | 100 := {|
  hash_order := λ V m, map_to_list m;
|}.
Next Obligation. done. Qed.

Definition hash_set_order `{HashOrder} (s : gset string) : list string :=
  (hash_order (gset_to_gmap tt s)).*1.

(** ** Generic lemmas *)

Lemma bind_run {W A B} (m : M W A) (k : A → M W B) w a w' :
  m w = (a, w') → bind m k w = k a w'.
Proof. unfold bind. by intros ->. Qed.

Section triple_lemmas.
Context {W : Type}.

Lemma triple_ret {A} (P : W → Prop) (a : A) (Q : A → W → Prop) :
  (∀ w, P w → Q a w) → triple P (ret a) Q.
Proof. intros H w. apply H. Qed.

Lemma triple_bind {A B} (P : W → Prop) (m : M W A) (k : A → M W B) R Q :
  triple P m R → (∀ a, triple (R a) (k a) Q) → triple P (bind m k) Q.
Proof.
  intros Hm Hk w HP. unfold bind. specialize (Hm w HP). destruct (m w) as [a w'].
  by apply Hk.
Qed.

Lemma triple_conseq {A} (P P' : W → Prop) (m : M W A) (Q Q' : A → W → Prop) :
  triple P' m Q' → (∀ w, P w → P' w) → (∀ a w, Q' a w → Q a w) → triple P m Q.
Proof. intros Hm HP HQ w ?. apply HQ, Hm. by apply HP. Qed.

Lemma triple_ex {A X} (P : X → W → Prop) (m : M W A) Q :
  (∀ x, triple (P x) m Q) → triple (λ w, ∃ x, P x w) m Q.
Proof. intros Hm w [x HP]. by apply (Hm x). Qed.

Lemma triple_pure {A} (φ : Prop) (P : W → Prop) (m : M W A) Q :
  (φ → triple P m Q) → triple (λ w, P w ∧ φ) m Q.
Proof. intros Hm w [HP Hφ]. by apply Hm. Qed.

(** Name a value that depends on the world before the call. *)
Lemma triple_ghost {A G} (f : W → G) (P : W → Prop) (m : M W A) Q :
  (∀ g, triple (λ w, P w ∧ f w = g) m Q) → triple P m Q.
Proof. intros Hm w HP. by apply (Hm (f w)). Qed.

Lemma triple_bind_ok {A B E} (P : W → Prop) (m : M W (Result A E))
    (k : A → M W (Result B E)) R Q :
  triple P m (λ r w, match r with Ok a => R a w | Err e => Q (Err e) w end) →
  (∀ a, triple (R a) (k a) Q) → triple P (bind_ok m k) Q.
Proof.
  intros Hm Hk. eapply triple_bind; [exact Hm|]. intros [a|e]; [apply Hk|].
  by apply triple_ret.
Qed.

Lemma triple_for_each {A} (I : W → Prop) (body : A → M W unit) l :
  (∀ x, x ∈ l → triple I (body x) (λ _, I)) → triple I (for_each body l) (λ _, I).
Proof.
  induction l as [|x l IH]; intros Hb; simpl; [by apply triple_ret|].
  eapply triple_bind; [apply Hb; set_solver|]. intros []. apply IH. set_solver.
Qed.

Lemma triple_all_m {A} (I : W → Prop) (f : A → M W bool) (P : A → Prop) l :
  (∀ x, x ∈ l → triple I (f x) (λ b w, I w ∧ (b = true → P x))) →
  triple I (all_m f l) (λ b w, I w ∧ (b = true → Forall P l)).
Proof.
  induction l as [|x l IH]; intros Hf; simpl; [by apply triple_ret; auto|].
  eapply triple_bind; [apply Hf; set_solver|]. intros [].
  - intros w [HI HP].
    destruct (IH ltac:(set_solver) w HI) as [HI' Hall]. split; [done|].
    intros Hb. constructor; auto.
  - by apply triple_ret; intros w [? _].
Qed.
End triple_lemmas.

Section sorting_lemmas.
Context {A : Type} (key : A → string).
Implicit Types (x y : A) (l : list A).

Lemma insert_by_perm x l : insert_by key x l ≡ₚ x :: l.
Proof.
  induction l as [|y l IH]; simpl; [done|].
  destruct (String.leb _ _); [done|]. rewrite IH. by constructor.
Qed.

Lemma sort_by_key_perm l : sort_by_key key l ≡ₚ l.
Proof. induction l as [|x l IH]; simpl; [done|]. by rewrite insert_by_perm, IH. Qed.

Lemma insert_by_sorted x l :
  StronglySorted (key_le key) l → StronglySorted (key_le key) (insert_by key x l).
Proof.
  induction 1 as [|y l Hs IH Hall]; simpl; [repeat constructor|].
  destruct (String.leb (key x) (key y)) eqn:Hle.
  - constructor; [by constructor|].
    constructor; [unfold key_le, String.le; by rewrite Hle|].
    eapply Forall_impl; [|exact Hall]. intros z Hz. unfold key_le in *.
    etrans; [|exact Hz]. unfold String.le. by rewrite Hle.
  - constructor; [done|]. rewrite insert_by_perm. constructor; [|done].
    unfold key_le, String.le.
    destruct (String.leb_total (key x) (key y)) as [E|E]; [congruence|by rewrite E].
Qed.

Lemma sort_by_key_sorted l : StronglySorted (key_le key) (sort_by_key key l).
Proof. induction l; simpl; [constructor|by apply insert_by_sorted]. Qed.

Lemma sort_by_key_elem x l : x ∈ sort_by_key key l ↔ x ∈ l.
Proof. by rewrite sort_by_key_perm. Qed.

Lemma sort_by_key_length l : length (sort_by_key key l) = length l.
Proof. by rewrite sort_by_key_perm. Qed.
End sorting_lemmas.

Section list_lemmas.
Context {A : Type}.
Implicit Types l : list A.

Lemma forallb_True_elem (f : A → bool) l :
  forallb f l = true ↔ ∀ x, x ∈ l → f x = true.
Proof.
  rewrite forallb_forall. setoid_rewrite list_elem_of_In. done.
Qed.

Lemma filter_none (P : A → Prop) `{∀ x, Decision (P x)} l :
  (∀ x, x ∈ l → ¬ P x) → filter P l = [].
Proof.
  induction l as [|x l IH]; intros Hall; [done|].
  rewrite filter_cons_False by (apply Hall; set_solver).
  apply IH. set_solver.
Qed.

Lemma filter_all (P : A → Prop) `{∀ x, Decision (P x)} l :
  (∀ x, x ∈ l → P x) → filter P l = l.
Proof.
  induction l as [|x l IH]; intros Hall; [done|].
  rewrite filter_cons_True by (apply Hall; set_solver).
  f_equal. apply IH. set_solver.
Qed.

Lemma NoDup_submseteq_sub (l k : list A) : l ⊆+ k → NoDup k → NoDup l.
Proof. intros [r Hr]%submseteq_Permutation Hk. rewrite Hr in Hk. by apply list.NoDup_app in Hk as [? _]. Qed.

(** A key determines the element of a list with distinct keys. *)
Lemma NoDup_key_inj {K} (key : A → K) l x y :
  NoDup (key <$> l) → x ∈ l → y ∈ l → key x = key y → x = y.
Proof.
  induction l as [|z l IH]; intros Hnd Hx Hy Hk; [set_solver|].
  inversion_clear Hnd as [|? ? Hn Hnd']. rename Hnd' into Hnd.
  apply elem_of_cons in Hx as [->|Hx]; apply elem_of_cons in Hy as [->|Hy]; try done.
  - destruct Hn. rewrite Hk. by apply list_elem_of_fmap_2.
  - destruct Hn. rewrite <- Hk. by apply list_elem_of_fmap_2.
  - by apply IH.
Qed.

Lemma existsb_True_elem (f : A → bool) l :
  existsb f l = true ↔ ∃ x, x ∈ l ∧ f x = true.
Proof. rewrite existsb_exists. setoid_rewrite list_elem_of_In. done. Qed.
End list_lemmas.

Section string_lemmas.
Implicit Types s : string.

Lemma rsplit_once_None c s : str_contains c s = false → rsplit_once c s = None.
Proof.
  induction s as [|a s IH]; simpl; [done|].
  intros [Ha Hs]%orb_false_iff. rewrite IH by done.
  apply bool_decide_eq_false in Ha. by rewrite decide_False.
Qed.

Lemma rsplit_once_app c s1 s2 :
  str_contains c s2 = false →
  rsplit_once c (s1 +:+ String c s2) = Some (s1, s2).
Proof.
  intros H2. induction s1 as [|a s1 IH]; simpl.
  - rewrite rsplit_once_None by done. by rewrite decide_True.
  - change (String.append (String a s1) (String c s2))
      with (String a (s1 +:+ String c s2)). simpl. by rewrite IH.
Qed.

Lemma starts_with_app p s : starts_with (p +:+ s) p = true.
Proof.
  unfold starts_with. induction p as [|a p IH]; simpl.
  - by destruct s.
  - change (String.append (String a p) s) with (String a (p +:+ s)). simpl.
    by destruct (Ascii.ascii_dec a a).
Qed.
End string_lemmas.

Section u64_lemmas.
Local Open Scope N_scope.

Lemma u64_add_small a b : a + b <= u64_max → u64_add a b = a + b.
Proof. unfold u64_add, u64_max. intros. apply N.mod_small. lia. Qed.

Lemma u64_to_string_not_plus n s : u64_to_string n ≠ String "+"%char s.
Proof.
  intros E. unfold u64_to_string, NilZero.string_of_uint in E.
  destruct (N.to_uint n); simplify_eq/=.
Qed.

Lemma uint_of_u64_string n : NilZero.uint_of_string (u64_to_string n) = Some (N.to_uint n).
Proof.
  unfold u64_to_string. apply NilZero.usu. intros E.
  pose proof (DecimalN.Unsigned.of_to n) as Ho. rewrite E in Ho. simpl in Ho. by subst n.
Qed.

Lemma u64_to_string_inj n m : u64_to_string n = u64_to_string m → n = m.
Proof.
  intros E. apply DecimalN.Unsigned.to_uint_inj.
  pose proof (uint_of_u64_string n) as Hn. rewrite E, uint_of_u64_string in Hn. congruence.
Qed.

Lemma parse_u64_to_string n : n <= u64_max → parse_u64 (u64_to_string n) = Some n.
Proof.
  intros Hn. unfold parse_u64.
  assert ((match u64_to_string n with
           | String "+"%char s' => s' | _ => u64_to_string n end)
          = u64_to_string n) as ->.
  { pose proof (u64_to_string_not_plus n) as Hp.
    destruct (u64_to_string n) as [|a s]; [done|].
    repeat (destruct a as [[] [] [] [] [] [] [] []]; try done).
    by destruct (Hp s). }
  rewrite uint_of_u64_string, DecimalN.Unsigned.of_to.
  by destruct (N.leb_spec n u64_max); [|lia].
Qed.
End u64_lemmas.

(** A map collected from a list by inserting: with distinct keys, what each element
    says. *)
Section collect.
Context {X V : Type} (key : X → string) (val : X → V).

Lemma NoDup_key_filter (P : X → Prop) `{∀ x, Decision (P x)} l :
  NoDup (key <$> l) → NoDup (key <$> filter P l).
Proof.
  intros Hnd. eapply NoDup_submseteq_sub; [|exact Hnd].
  apply sublist_submseteq, fmap_sublist, sublist_filter.
Qed.

Definition collect (l : list X) : gmap string V := foldl (λ m x, <[key x := val x]> m) ∅ l.

Lemma collect_lookup l k v :
  NoDup (key <$> l) →
  collect l !! k = Some v ↔ ∃ x, x ∈ l ∧ key x = k ∧ v = val x.
Proof.
  intros Hnd. unfold collect.
  assert (∀ m : gmap string V,
    foldl (λ m x, <[key x := val x]> m) m l !! k = Some v ↔
    (∃ x, x ∈ l ∧ key x = k ∧ v = val x) ∨ ((k ∉ key <$> l) ∧ m !! k = Some v)) as Hgen.
  { induction l as [|x l IH]; intros m; cbn [foldl]; [set_solver|].
    rewrite fmap_cons in Hnd |- *. apply list.NoDup_cons in Hnd as [Hnin Hnd].
    rewrite (IH Hnd). clear IH.
    setoid_rewrite elem_of_cons. destruct (decide (key x = k)) as [<-|Hne].
    - rewrite lookup_insert_eq. split.
      + intros [(y & Hy & Hk & ->)|[_ [= <-]]]; left; eauto.
      + intros [(y & [->|Hy] & Hk & ->)|[Hn _]]; [by right|left; by eauto|]. by destruct Hn; left.
    - rewrite lookup_insert_ne by done. naive_solver. }
  rewrite Hgen, lookup_empty. naive_solver.
Qed.

(** Without the premise on keys, what is found is of some element. *)
Lemma collect_elem l k v : collect l !! k = Some v → ∃ x, x ∈ l ∧ key x = k ∧ v = val x.
Proof.
  unfold collect. assert (∀ m : gmap string V,
    foldl (λ m x, <[key x := val x]> m) m l !! k = Some v →
    (∃ x, x ∈ l ∧ key x = k ∧ v = val x) ∨ m !! k = Some v) as Hgen.
  { induction l as [|x l IH]; intros m; cbn [foldl]; [by right|]. intros Hk.
    destruct (IH _ Hk) as [(y & Hy & ?)|Hm]; [left; exists y; split; [by right|done]|].
    apply lookup_insert_Some in Hm as [[<- <-]|[_ Hm]]; [left; exists x; split; [left|done]|by right]. }
  intros Hk. destruct (Hgen ∅ Hk) as [?|?%lookup_empty_Some]; [done|by exfalso].
Qed.
End collect.

(** ** Automation *)

Create HintDb ddb.
#[export] Hint Resolve sort_by_key_perm sort_by_key_sorted starts_with_app : ddb.
Create Rewrite HintDb ddb.
#[export] Hint Rewrite @sort_by_key_elem @sort_by_key_length @list_elem_of_fmap
  @list_elem_of_filter : ddb.

(** Case analysis on every boolean or optional scrutinee in sight. *)
Ltac case_all :=
  repeat (case_match || simplify_option_eq || simplify_eq/=).

(** Run one bind of the state monad. *)
Ltac step_bind :=
  match goal with
  | |- context [bind ?m ?k ?w] =>
      unfold bind at 1; let r := fresh "r" in let w' := fresh "w" in
      destruct (m w) as [r w'] eqn:?
  end.
