(* ===== verification/Core.v ===== *)
(** * Core data: shards, records, batches ([core/src/lib.rs])

    The identifiers and records every other component passes around; a field
    [f] of the Rust struct is the projection [rec_f], [sm_f] or [rb_f].  Sequence
    numbers are opaque tokens: nothing below compares or parses them. *)

From Stdlib Require Strings.Byte.
From stdpp Require Import base gmap list strings.
From S2P Require Import Prelude.

Definition ShardId : Type := string.
Definition SequenceNumber : Type := string.

Record Record_ := {
  rec_shard : ShardId;
  rec_seq : SequenceNumber;
  rec_data : list Init.Byte.byte;
}.

(** A shard has up to two parents: one for a split child, two for a merge child. *)
Record ShardMeta := {
  sm_id : ShardId;
  sm_parents : list ShardId;
}.

Record RecordBatch := {
  rb_records : list Record_;
  rb_shard_end : bool;
  rb_millis_behind_latest : option Z;
}.

#[export] Instance byte_eq_dec : EqDecision Init.Byte.byte := Strings.Byte.byte_eq_dec.
#[export] Instance Record_eq_dec : EqDecision Record_.
Proof. solve_decision. Defined.
#[export] Instance ShardMeta_eq_dec : EqDecision ShardMeta.
Proof. solve_decision. Defined.
#[export] Instance RecordBatch_eq_dec : EqDecision RecordBatch.
Proof. solve_decision. Defined.

(** [batch.records.last().unwrap().seq.clone()], guarded by non-emptiness at
    every call site. *)
Definition last_seq (rs : list Record_) : option SequenceNumber := rec_seq <$> last rs.

Lemma last_seq_None rs : last_seq rs = None ↔ rs = [].
Proof. unfold last_seq. rewrite fmap_None. apply last_None. Qed.

Lemma last_seq_is_Some rs : rs ≠ [] → is_Some (last_seq rs).
Proof.
  intros Hne. destruct (last_seq rs) eqn:E; [done|]. by apply last_seq_None in E.
Qed.
