(* ===== verification/Position.v ===== *)
(** * Start positions and checkpoint seeding ([core/src/lib.rs])

    A lease's [checkpoint] column holds either nothing (read from the oldest
    record), a start-mode sentinel, or the last processed sequence number.  This
    file models the encoding and the rule that picks the checkpoint a child
    shard starts from after a reshard. *)

From stdpp Require Import base gmap list strings.
From S2P Require Import Prelude Core.

Definition SENTINEL_LATEST : string := "LATEST".

Inductive InitialPosition := InitialTrimHorizon | InitialLatest.

(** [#[default] TrimHorizon]. *)
Definition InitialPosition_default : InitialPosition := InitialTrimHorizon.

Inductive StartPosition :=
| TrimHorizon
| Latest
| After (s : SequenceNumber).

#[export] Instance InitialPosition_eq_dec : EqDecision InitialPosition.
Proof. solve_decision. Defined.
#[export] Instance StartPosition_eq_dec : EqDecision StartPosition.
Proof. solve_decision. Defined.

(** [impl From<InitialPosition> for StartPosition]. *)
Definition StartPosition_from (p : InitialPosition) : StartPosition :=
  match p with
  | InitialTrimHorizon => TrimHorizon
  | InitialLatest => Latest
  end.

Definition from_checkpoint (checkpoint : option string) : StartPosition :=
  match checkpoint with
  | None => TrimHorizon
  | Some s => if decide (s = SENTINEL_LATEST) then Latest else After s
  end.

Definition as_checkpoint (p : StartPosition) : option string :=
  match p with
  | TrimHorizon => None
  | Latest => Some SENTINEL_LATEST
  | After s => Some s
  end.

Definition is_start_mode (p : StartPosition) : bool :=
  match p with After _ => false | _ => true end.

Definition seed_checkpoint (p : InitialPosition) : option string :=
  as_checkpoint (StartPosition_from p).

Definition parse (name : string) : option InitialPosition :=
  let n := to_ascii_uppercase (trim name) in
  if bool_decide (n = "TRIM_HORIZON") || bool_decide (n = "TRIM-HORIZON")
     || bool_decide (n = "TRIMHORIZON")
  then Some InitialTrimHorizon
  else if bool_decide (n = "LATEST") then Some InitialLatest
  else None.

(** The loop of [child_seed_checkpoint]: [inherited] is the mode seen so far.
    The early [return None]s are the [None] results. *)
Fixpoint child_seed_loop (inherited : option StartPosition)
    (cps : list (option string)) : option string :=
  match cps with
  | [] => inherited ≫= as_checkpoint
  | cp :: cps' =>
      match from_checkpoint cp with
      | TrimHorizon | After _ => None
      | mode =>
          match inherited with
          | None => child_seed_loop (Some mode) cps'
          | Some cur =>
              if decide (cur = mode) then child_seed_loop inherited cps' else None
          end
      end
  end.

Definition child_seed_checkpoint (parent_checkpoints : list (option string))
  : option string :=
  match parent_checkpoints with
  | [] => None
  | _ => child_seed_loop None parent_checkpoints
  end.

(** ** Lemmas *)

Lemma from_checkpoint_latest : from_checkpoint (Some SENTINEL_LATEST) = Latest.
Proof. reflexivity. Qed.

Lemma from_checkpoint_is_latest cp :
  from_checkpoint cp = Latest ↔ cp = Some SENTINEL_LATEST.
Proof.
  destruct cp as [s|]; simpl; [|done].
  destruct (decide (s = SENTINEL_LATEST)); split; congruence.
Qed.

Lemma child_seed_loop_spec inh cps cp :
  inh = None ∨ inh = Some Latest →
  child_seed_loop inh cps = Some cp ↔
  (inh = None → cps ≠ []) ∧ cp = SENTINEL_LATEST ∧
  ∀ c, c ∈ cps → c = Some SENTINEL_LATEST.
Proof.
  revert inh. induction cps as [|c cps IH]; intros inh Hinh.
  - destruct Hinh as [->| ->]; simpl; [naive_solver|]. split; [|naive_solver].
    intros [= <-]. split_and!; [done|done|]. intros c. by rewrite elem_of_nil.
  - simpl. destruct (from_checkpoint c) eqn:Hc.
    + split; [done|]. intros (_ & _ & Hall).
      rewrite (Hall c) in Hc by set_solver. discriminate.
    + apply from_checkpoint_is_latest in Hc as ->.
      assert (match inh with
              | None => child_seed_loop (Some Latest) cps
              | Some cur => if decide (cur = Latest) then child_seed_loop inh cps else None
              end = child_seed_loop (Some Latest) cps) as ->
        by (by destruct Hinh as [->| ->]).
      rewrite IH by by right.
      set_solver.
    + split; [done|]. intros (_ & _ & Hall).
      rewrite (Hall c) in Hc by set_solver. discriminate.
Qed.

Lemma child_seed_not_real cps s :
  child_seed_checkpoint cps = Some s → s = SENTINEL_LATEST.
Proof.
  destruct cps; [done|]. unfold child_seed_checkpoint.
  rewrite child_seed_loop_spec by by left. naive_solver.
Qed.

(** ** Properties *)

(** the checkpoint column is a faithful encoding of a start position.
    Decoding then re-encoding any persisted checkpoint gives it back unchanged,
    and encoding then decoding gives back every position except the one the
    sentinel shadows, a sequence number spelled LATEST (real sequence numbers
    are decimal strings). *)
Theorem checkpoint_encoding_roundtrip :
  (∀ cp, as_checkpoint (from_checkpoint cp) = cp) ∧
  (∀ p, from_checkpoint (as_checkpoint p) =
        if decide (p = After SENTINEL_LATEST) then Latest else p).
Proof.
  split.
  - intros [s|]; simpl; [|done]. by destruct (decide (s = SENTINEL_LATEST)) as [->|].
  - intros [| |s]; simpl; [done..|].
    repeat case_decide; congruence.
Qed.

(** a reshard child inherits a start mode only when it has parents and all
    of them still carry that start mode, so no record a parent processed is
    followed by a skipped child history; in every other case it starts from its
    own beginning. *)
Theorem child_seed_inherits_iff cps cp :
  child_seed_checkpoint cps = Some cp ↔
  cps ≠ [] ∧ cp = SENTINEL_LATEST ∧ ∀ c, c ∈ cps → c = Some SENTINEL_LATEST.
Proof.
  destruct cps as [|c cps]; [naive_solver|].
  unfold child_seed_checkpoint. rewrite child_seed_loop_spec by by left.
  naive_solver.
Qed.

Example parse_latest : parse "latest" = Some InitialLatest.
Proof. vm_compute. reflexivity. Qed.
Example parse_trim_horizon : parse "  TRIM_HORIZON " = Some InitialTrimHorizon.
Proof. vm_compute. reflexivity. Qed.
Example parse_tip : parse "tip" = None.
Proof. vm_compute. reflexivity. Qed.
