(* ===== verification/Backoff.v ===== *)
(** * Adaptive poll backoff ([core/src/backoff.rs])

    The sleep controller of one shard's poll loop: a floor while records keep
    coming, exponential growth toward a cap while the shard is idle. *)

From Stdlib Require Import NArith Lia.
From stdpp Require Import base numbers list strings.
From S2P Require Import Prelude.

Local Open Scope N_scope.

Record PollBackoff := {
  min_interval_ms : N;
  idle_base_ms : N;
  max_ms : N;
  current_idle_ms : N;
}.

Definition PollBackoff_new (min_interval idle_base max : N) : PollBackoff :=
  {| min_interval_ms := min_interval; idle_base_ms := idle_base;
     max_ms := max; current_idle_ms := idle_base |}.

Definition ddb_defaults : PollBackoff := PollBackoff_new 250 1000 5000.

Definition set_idle (b : PollBackoff) (idle : N) : PollBackoff :=
  {| min_interval_ms := min_interval_ms b; idle_base_ms := idle_base_ms b;
     max_ms := max_ms b; current_idle_ms := idle |}.

(** [next_sleep_ms(&mut self, got_records)]: the sleep and the updated state. *)
Definition next_sleep_ms (b : PollBackoff) (got_records : bool) : N * PollBackoff :=
  if got_records then
    (min_interval_ms b, set_idle b (idle_base_ms b))
  else
    (current_idle_ms b,
     set_idle b (N.min (saturating_mul (current_idle_ms b) 2) (max_ms b))).

(** The sleeps a poll loop takes over a history of poll outcomes. *)
Fixpoint sleeps (b : PollBackoff) (history : list bool) : list N * PollBackoff :=
  match history with
  | [] => ([], b)
  | got :: history' =>
      let '(s, b1) := next_sleep_ms b got in
      let '(ss, b2) := sleeps b1 history' in (s :: ss, b2)
  end.

(** ** Lemmas *)

(** Everything but the idle sleep is fixed at construction. *)
Definition same_config (b b' : PollBackoff) : Prop :=
  min_interval_ms b = min_interval_ms b' ∧ idle_base_ms b = idle_base_ms b' ∧
  max_ms b = max_ms b'.

Lemma next_sleep_same_config b got : same_config b (next_sleep_ms b got).2.
Proof. by destruct got. Qed.

Lemma sleeps_app b h1 h2 :
  sleeps b (h1 ++ h2) =
  let '(s1, b1) := sleeps b h1 in
  let '(s2, b2) := sleeps b1 h2 in (s1 ++ s2, b2).
Proof.
  revert b. induction h1 as [|got h1 IH]; intros b; simpl.
  - by destruct (sleeps b h2).
  - destruct (next_sleep_ms b got) as [s b1]. rewrite IH.
    destruct (sleeps b1 h1) as [s1 b2]. by destruct (sleeps b2 h2).
Qed.

Lemma sleeps_same_config b h : same_config b (sleeps b h).2.
Proof.
  revert b. induction h as [|got h IH]; intros b; simpl; [done|].
  pose proof (next_sleep_same_config b got) as Hn.
  destruct (next_sleep_ms b got) as [s b1]. specialize (IH b1).
  destruct (sleeps b1 h) as [ss b2]. unfold same_config in *; simpl in *.
  by destruct Hn as (-> & -> & ->).
Qed.

Lemma saturating_double_min x m :
  m <= u64_max → N.min (saturating_mul x 2) m = N.min (2 * x) m.
Proof. unfold saturating_mul. lia. Qed.

(** The closed form of the idle sleep after [k] empty polls in a row. *)
Definition idle_after (base max : N) (k : nat) : N :=
  match k with O => base | _ => N.min (base * 2 ^ N.of_nat k) max end.

Lemma idle_after_step base max k :
  max <= u64_max →
  N.min (saturating_mul (idle_after base max k) 2) max = idle_after base max (S k).
Proof.
  intros Hm. rewrite saturating_double_min by done. unfold idle_after.
  rewrite (Nat2N.inj_succ k), N.pow_succ_r'. destruct k as [|k]; [simpl; f_equal; lia|].
  nia.
Qed.

Lemma sleeps_idle b k :
  max_ms b <= u64_max →
  current_idle_ms b = idle_base_ms b →
  sleeps b (replicate k false) =
    (idle_after (idle_base_ms b) (max_ms b) <$> seq 0 k,
     set_idle b (idle_after (idle_base_ms b) (max_ms b) k)).
Proof.
  intros Hm Hc.
  assert (∀ j, sleeps (set_idle b (idle_after (idle_base_ms b) (max_ms b) j))
                 (replicate k false) =
    (idle_after (idle_base_ms b) (max_ms b) <$> seq j k,
     set_idle b (idle_after (idle_base_ms b) (max_ms b) (j + k)))) as Hgen.
  { induction k as [|k IH]; intros j; simpl; [by rewrite Nat.add_0_r|].
    unfold set_idle in *; simpl in *. rewrite idle_after_step by done.
    rewrite IH. by replace (S j + k)%nat with (j + S k)%nat by lia. }
  specialize (Hgen 0%nat). simpl in Hgen. rewrite <- Hgen.
  f_equal. destruct b; simpl in *. by subst.
Qed.

(** ** Properties *)

(** C26: whatever the poll history, the first empty poll after data (or at the
    start) sleeps the idle base, and the [k]-th empty poll in a row after it
    sleeps [base * 2^k] capped at the configured maximum, with no overflow for
    any 64-bit configuration; a poll that returned records sleeps exactly the
    throttle floor. *)
Theorem backoff_closed_form (floor base max : N) (h : list bool) (k : nat) :
  max <= u64_max →
  let b := PollBackoff_new floor base max in
  (h = [] ∨ last h = Some true) →
  last (sleeps b (h ++ replicate (S k) false)).1 =
    Some (match k with O => base | _ => N.min (base * 2 ^ N.of_nat k) max end)
  ∧ last (sleeps b (h ++ [true])).1 = Some floor.
Proof.
  intros Hm b Hh. rewrite !sleeps_app.
  pose proof (sleeps_same_config b h) as Hcfg.
  assert (current_idle_ms (sleeps b h).2 = idle_base_ms (sleeps b h).2) as Hc.
  { destruct Hh as [->|[h' ->]%last_Some]; [done|]. rewrite sleeps_app.
    destruct (sleeps b h') as [s1 b1]. done. }
  destruct (sleeps b h) as [s1 b1]; simpl in Hcfg, Hc.
  destruct Hcfg as (H1 & H2 & H3); subst b; simpl in H1, H2, H3. subst. split.
  - rewrite sleeps_idle by done.
    rewrite seq_S, fmap_app; simpl.
    rewrite app_assoc, last_snoc. by destruct k.
  - simpl. by rewrite last_snoc.
Qed.

Lemma backoff_closed_form_witness :
  last (sleeps (PollBackoff_new 250 1000 5000) ([false; true] ++ replicate 3 false)).1
    = Some 4000.
Proof.
  pose proof (backoff_closed_form 250 1000 5000 [false; true] 2
                ltac:(unfold u64_max; lia) (or_intror eq_refl)) as [H _].
  exact H.
Defined.
