(* ===== verification/Multistream.v ===== *)
(** * Multi-stream lease keys ([core/src/multistream.rs],
      [lease-dynamodb/src/lib.rs])

    When one fleet consumes several streams, the lease key is the stream
    identity and the shard id joined by a colon.  Stream ARNs contain colons, so
    the key is split at the last one. *)

From stdpp Require Import base list strings.
From S2P Require Import Prelude Core.

(** [format!("{stream}:{shard}")]. *)
Definition multi_stream_lease_key (stream shard : string) : string :=
  stream +:+ String ":"%char shard.

Definition single_stream_lease_key (shard : string) : string := shard.

Definition parse_lease_key (key : string) : option (string * string) :=
  rsplit_once ":"%char key.

Definition shard_of (key : string) : ShardId :=
  match parse_lease_key key with
  | Some (_, shard) => shard
  | None => key
  end.

(** ** Properties *)

(** a multi-stream lease key is reversible.  For any stream identity, colons
    included, and any shard id without one, splitting the key gives back exactly
    that pair; so distinct pairs never share a key, and [shard_of] recovers the
    shard id from both key formats. *)
Theorem lease_key_roundtrip (stream shard : string) :
  str_contains ":"%char shard = false →
  parse_lease_key (multi_stream_lease_key stream shard) = Some (stream, shard) ∧
  shard_of (multi_stream_lease_key stream shard) = shard ∧
  shard_of (single_stream_lease_key shard) = shard ∧
  ∀ stream' shard', str_contains ":"%char shard' = false →
    multi_stream_lease_key stream shard = multi_stream_lease_key stream' shard' →
    stream = stream' ∧ shard = shard'.
Proof.
  intros Hs. unfold shard_of, parse_lease_key, single_stream_lease_key.
  assert (∀ st sh, str_contains ":"%char sh = false →
            rsplit_once ":"%char (multi_stream_lease_key st sh) = Some (st, sh)) as Hp.
  { intros. by apply rsplit_once_app. }
  split_and!.
  - by apply Hp.
  - by rewrite Hp.
  - by rewrite rsplit_once_None.
  - intros stream' shard' Hs' E. pose proof (Hp stream shard Hs) as H1.
    rewrite E, Hp in H1 by done. by simplify_eq.
Qed.

Lemma lease_key_roundtrip_witness :
  parse_lease_key "arn:aws:dynamodb:stream/2026-07-01T21:52:30.123:shardId-1"
  = Some ("arn:aws:dynamodb:stream/2026-07-01T21:52:30.123", "shardId-1").
Proof.
  exact (proj1 (lease_key_roundtrip "arn:aws:dynamodb:stream/2026-07-01T21:52:30.123"
                  "shardId-1" eq_refl)).
Defined.
