(* ===== verification/Taker.v ===== *)
(** * Lease balancing ([core/src/taker.rs])

    Which leases a worker should try to take to move toward an even share:
    available leases first, then a bounded steal from the most loaded worker. *)

From Stdlib Require Import Lia.
From stdpp Require Import base gmap sets numbers list strings sorting.
From S2P Require Import Prelude.

Record LeaseSnapshot := {
  ls_lease_key : string;
  ls_owner : option string;
  ls_expired : bool;
  ls_completed : bool;
}.

#[export] Instance LeaseSnapshot_eq_dec : EqDecision LeaseSnapshot.
Proof. solve_decision. Defined.

(** [usize::div_ceil]. *)
Definition div_ceil (a b : nat) : nat :=
  a / b + (if a `mod` b =? 0 then 0 else 1).

(** Leases still needing processing. *)
Definition active_leases (leases : list LeaseSnapshot) : list LeaseSnapshot :=
  filter (λ l, ls_completed l = false) leases.

(** Owners of non-expired owned leases, plus [me]. *)
Definition live_workers (active : list LeaseSnapshot) (me : string) : gset string :=
  list_to_set (omap ls_owner (filter (λ l, ls_expired l = false) active)) ∪ {[me]}.

Definition fair_share (active : list LeaseSnapshot) (me : string) : nat :=
  div_ceil (length active) (size (live_workers active me)).

(** The non-expired leases of one worker. *)
Definition live_leases (active : list LeaseSnapshot) (w : string) : list LeaseSnapshot :=
  filter (λ l, ls_expired l = false ∧ ls_owner l = Some w) active.

(** Unowned or expired, and not mine. *)
Definition available_leases (active : list LeaseSnapshot) (me : string)
  : list LeaseSnapshot :=
  filter (λ l, ls_owner l = None ∨ ls_expired l = true)
    (filter (λ l, ls_owner l ≠ Some me) active).

(** The two [for l in .. { if need == 0 || take.len() == max_to_take { break } .. }]
    loops: the remaining need and the keys taken so far. *)
Fixpoint take_loop (max_to_take : nat) (cands : list LeaseSnapshot)
    (need : nat) (take : list string) : nat * list string :=
  match cands with
  | [] => (need, take)
  | l :: cands' =>
      if (need =? 0) || (length take =? max_to_take) then (need, take)
      else take_loop max_to_take cands' (need - 1) (take ++ [ls_lease_key l])
  end.

(** The per-worker lease counts of the other live workers. *)
Definition bump_count (me : string) (counts : gmap string nat) (l : LeaseSnapshot)
  : gmap string nat :=
  match ls_owner l with
  | Some o =>
      if decide (o = me) then counts
      else <[o := S (default 0 (counts !! o))]> counts
  | None => counts
  end.

Definition owner_counts (active : list LeaseSnapshot) (me : string) : gmap string nat :=
  foldl (bump_count me) ∅ (filter (λ l, ls_expired l = false) active).

(** [Iterator::max_by_key]: the last element among the maximal ones. *)
Definition max_step (best : option (string * nat)) (x : string * nat)
  : option (string * nat) :=
  match best with
  | None => Some x
  | Some b => if x.2 <? b.2 then Some b else Some x
  end.

Definition max_by_count (l : list (string * nat)) : option (string * nat) :=
  foldl max_step None l.

Section taker.
Context `{HashOrder}.

(** The steal phase: from the most loaded other worker, never below target. *)
Definition steal_phase (active : list LeaseSnapshot) (me : string)
    (max_to_take target need : nat) (take : list string) : list string :=
  if (0 <? need) && (length take <? max_to_take) then
    match max_by_count (hash_order (owner_counts active me)) with
    | Some (victim, count) =>
        if target <? count then
          let stealable := count - target in
          let victim_leases := sort_by_key ls_lease_key (live_leases active victim) in
          (take_loop max_to_take (firstn stealable victim_leases) need take).2
        else take
    | None => take
    end
  else take.

Definition compute_leases_to_take (leases : list LeaseSnapshot) (me : string)
    (max_to_take : nat) : list string :=
  let active := active_leases leases in
  if bool_decide (active = []) || (max_to_take =? 0) then []
  else
    let target := fair_share active me in
    let my_current := length (live_leases active me) in
    if target <=? my_current then []
    else
      let available := sort_by_key ls_lease_key (available_leases active me) in
      let '(need, take) := take_loop max_to_take available (target - my_current) [] in
      steal_phase active me max_to_take target need take.

End taker.

(** ** Lemmas *)

Lemma take_loop_spec max cands need take :
  length take ≤ max →
  let n := (need `min` (max - length take)) `min` length cands in
  take_loop max cands need take =
    (need - n, take ++ (ls_lease_key <$> firstn n cands)).
Proof.
  revert need take. induction cands as [|l cands IH]; intros need take Hlen; simpl.
  - rewrite !Nat.min_0_r, Nat.sub_0_r, app_nil_r. done.
  - destruct (need =? 0) eqn:Hn; simpl.
    { apply Nat.eqb_eq in Hn as ->. simpl. by rewrite app_nil_r. }
    apply Nat.eqb_neq in Hn.
    destruct (length take =? max) eqn:Hm.
    { apply Nat.eqb_eq in Hm as ->. rewrite Nat.sub_diag, Nat.min_0_r. simpl.
      by rewrite app_nil_r, Nat.sub_0_r. }
    apply Nat.eqb_neq in Hm. rewrite IH by (rewrite length_app; simpl; lia).
    rewrite length_app; simpl.
    replace ((need `min` (max - length take)) `min` S (length cands))
      with (S (((need - 1) `min` (max - (length take + 1))) `min` length cands)) by lia.
    simpl. rewrite <- app_assoc. simpl. f_equal. lia.
Qed.

Lemma max_by_count_in l x : max_by_count l = Some x → x ∈ l.
Proof.
  unfold max_by_count.
  assert (∀ best, foldl max_step best l = Some x → best = Some x ∨ x ∈ l) as Hgen.
  { induction l as [|y l IH]; intros best; simpl; [by left|].
    intros [E|E]%IH; [|by right; right].
    destruct best as [b|]; simpl in E; [destruct (y.2 <? b.2)|];
      simplify_eq; by eauto using list_elem_of_here. }
  intros [|]%Hgen; done.
Qed.

Lemma max_by_count_max l v c : max_by_count l = Some (v, c) → ∀ x, x ∈ l → x.2 ≤ c.
Proof.
  unfold max_by_count.
  assert (∀ best b, foldl max_step best l = Some b →
            (∀ x, x ∈ l → x.2 ≤ b.2) ∧ (∀ y, best = Some y → y.2 ≤ b.2)) as Hgen.
  { induction l as [|y l IH]; intros best b; simpl.
    - intros ->. split; [set_solver|]. by intros ? [= ->].
    - intros [E1 E2]%IH.
      assert (y.2 ≤ b.2 ∧ ∀ z, best = Some z → z.2 ≤ b.2) as [Hy Hz].
      { destruct best as [z|]; simpl in E2; [|split; [by apply E2|done]].
        destruct (Nat.ltb_spec y.2 z.2); specialize (E2 _ eq_refl);
          split; try intros ? [= <-]; lia. }
      split; [|done]. intros x [->|]%elem_of_cons; auto. }
  intros E x Hx. apply (proj1 (Hgen _ _ E) x Hx).
Qed.

Lemma max_by_count_None l : max_by_count l = None ↔ l = [].
Proof.
  split; [|by intros ->]. unfold max_by_count. destruct l as [|x l]; [done|]. simpl.
  assert (∀ z, foldl max_step (Some z) l ≠ None) as Hne; [|intros E; by destruct (Hne x)].
  induction l as [|y l IH]; intros z; simpl; [done|]. destruct (y.2 <? z.2); apply IH.
Qed.

Lemma owner_counts_lookup active me w :
  owner_counts active me !! w =
  if decide (w = me ∨ live_leases active w = []) then None
  else Some (length (live_leases active w)).
Proof.
  unfold owner_counts, live_leases.
  assert (∀ ls (m : gmap string nat),
    foldl (bump_count me) m ls !! w =
    if decide (w = me) then m !! w
    else match length (filter (λ l, ls_owner l = Some w) ls) with
         | O => m !! w
         | n => Some (default 0 (m !! w) + n)
         end) as Hgen.
  { induction ls as [|l ls IH]; intros m; simpl; [by case_decide|].
    rewrite IH. unfold bump_count. rewrite filter_cons.
    destruct (decide (w = me)) as [->|Hw].
    - destruct (ls_owner l) as [o|]; [|done].
      destruct (decide (o = me)) as [->|]; [done|]. by rewrite lookup_insert_ne.
    - destruct (decide (ls_owner l = Some w)) as [E|E].
      + rewrite E. rewrite decide_False by done. rewrite lookup_insert_eq. simpl.
        destruct (length _) as [|n]; simpl; f_equal; lia.
      + destruct (ls_owner l) as [o|]; [|done].
        destruct (decide (o = me)); [done|].
        rewrite lookup_insert_ne by congruence. done. }
  rewrite Hgen, lookup_empty, list_filter_filter. simpl.
  rewrite (list_filter_iff (λ x : LeaseSnapshot, ls_owner x = Some w ∧ ls_expired x = false)
    (λ l, ls_expired l = false ∧ ls_owner l = Some w)) by tauto.
  destruct (decide (w = me)) as [->|Hw].
  - by rewrite decide_True by tauto.
  - destruct (filter _ active) as [|l ls] eqn:E; simpl.
    + by rewrite decide_True by tauto.
    + rewrite decide_False; [done|]. intros [|]; done.
Qed.

Lemma elem_of_live_leases active w l :
  l ∈ live_leases active w ↔ ls_expired l = false ∧ ls_owner l = Some w ∧ l ∈ active.
Proof. unfold live_leases. rewrite list_elem_of_filter. tauto. Qed.

Lemma elem_of_available active me l :
  l ∈ available_leases active me ↔
  (ls_owner l = None ∨ ls_expired l = true) ∧ ls_owner l ≠ Some me ∧ l ∈ active.
Proof. unfold available_leases. rewrite !list_elem_of_filter. tauto. Qed.

Lemma elem_of_active leases l :
  l ∈ active_leases leases ↔ ls_completed l = false ∧ l ∈ leases.
Proof. unfold active_leases. by rewrite list_elem_of_filter. Qed.

Lemma elem_of_live_workers active me w :
  w ∈ live_workers active me ↔ w = me ∨ live_leases active w ≠ [].
Proof.
  unfold live_workers. rewrite elem_of_union, elem_of_list_to_set, elem_of_singleton.
  rewrite list_elem_of_omap. split.
  - intros [(l & Hl & Ho)|]; [right|by left]. apply list_elem_of_filter in Hl as [He Hl].
    intros E. assert (l ∈ live_leases active w) as Hin by by apply elem_of_live_leases.
    rewrite E in Hin. set_solver.
  - intros [|Hne]; [by right|left].
    destruct (live_leases active w) as [|l ls] eqn:E; [done|].
    assert (l ∈ live_leases active w) as Hin by (rewrite E; set_solver).
    apply elem_of_live_leases in Hin as (? & ? & ?). exists l.
    rewrite list_elem_of_filter. done.
Qed.

Lemma elem_of_firstn {A} (x : A) n l : x ∈ firstn n l → x ∈ l.
Proof. intros Hx. rewrite <- (firstn_skipn n l). set_solver. Qed.
#[export] Hint Resolve elem_of_firstn : ddb.
#[export] Hint Rewrite elem_of_live_leases elem_of_available elem_of_active : ddb.

Section taker_lemmas.
Context `{HashOrder}.
Implicit Types (active leases : list LeaseSnapshot) (me w : string).

Lemma hash_order_counts active me v c :
  (v, c) ∈ hash_order (owner_counts active me) ↔
  v ≠ me ∧ c = length (live_leases active v) ∧ 0 < c.
Proof.
  rewrite hash_order_perm, elem_of_map_to_list, owner_counts_lookup.
  destruct (live_leases active v) as [|l ls] eqn:E; simpl.
  - rewrite decide_True by tauto. split; [done|lia].
  - destruct (decide (v = me)) as [->|Hne].
    + rewrite decide_True by tauto. naive_solver.
    + rewrite decide_False by naive_solver. split; [intros [= <-]; split_and!; [done..|lia]|].
      by intros (_ & -> & _).
Qed.

(** The number of available leases taken: as many as needed, allowed and present. *)
Definition take_available leases me max : nat :=
  let active := active_leases leases in
  ((fair_share active me - length (live_leases active me)) `min` max)
    `min` length (available_leases active me).

Definition taken_available leases me max : list LeaseSnapshot :=
  firstn (take_available leases me max)
    (sort_by_key ls_lease_key (available_leases (active_leases leases) me)).

(** The steal phase takes a prefix of the sorted leases of a most loaded victim. *)
Definition steals leases me max victim (n2 : nat) : Prop :=
  let active := active_leases leases in
  let target := fair_share active me in
  let n1 := take_available leases me max in
  victim ≠ me ∧
  (∀ w, w ≠ me → length (live_leases active w) ≤ length (live_leases active victim)) ∧
  n2 = ((target - length (live_leases active me) - n1) `min` (max - n1))
         `min` (length (live_leases active victim) - target) ∧
  n1 = length (available_leases active me).

Definition stolen leases victim (n2 : nat) : list LeaseSnapshot :=
  firstn n2 (sort_by_key ls_lease_key (live_leases (active_leases leases) victim)).

Lemma length_taken_available leases me max :
  length (taken_available leases me max) = take_available leases me max.
Proof.
  unfold taken_available. rewrite length_firstn, sort_by_key_length.
  unfold take_available. lia.
Qed.

Lemma steal_phase_shape leases me max :
  let active := active_leases leases in
  let target := fair_share active me in
  let need := target - length (live_leases active me) - take_available leases me max in
  let take := ls_lease_key <$> taken_available leases me max in
  steal_phase active me max target need take = take ∧
    (0 < need → take_available leases me max < max →
     ∀ w, w ≠ me → length (live_leases active w) ≤ target)
  ∨ ∃ victim n2, 0 < n2 ∧ steals leases me max victim n2 ∧
    steal_phase active me max target need take
      = take ++ (ls_lease_key <$> stolen leases victim n2).
Proof.
  intros active target need take.
  assert (length take = take_available leases me max) as Hlen
    by (unfold take; by rewrite length_fmap, length_taken_available).
  unfold steal_phase. rewrite Hlen.
  destruct (Nat.ltb_spec 0 need); [|left; split; [done|lia]].
  destruct (Nat.ltb_spec (take_available leases me max) max); [|left; split; [done|lia]].
  simpl.
  assert (∀ w, w ≠ me → ∀ c, c < length (live_leases active w) →
    ∃ x, x ∈ hash_order (owner_counts active me) ∧ c < x.2) as Hcount.
  { intros w Hw c Hc. exists (w, length (live_leases active w)); simpl.
    rewrite hash_order_counts. split_and!; [done..|lia|done]. }
  destruct (max_by_count _) as [[victim count]|] eqn:Hmax.
  - pose proof (max_by_count_max _ _ _ Hmax) as Hle.
    apply max_by_count_in, hash_order_counts in Hmax as (Hv & -> & Hpos).
    assert (∀ w, w ≠ me → length (live_leases active w) ≤ length (live_leases active victim))
      as Hall.
    { intros w Hw. destruct (decide (length (live_leases active w) ≤
        length (live_leases active victim))); [done|].
      destruct (Hcount w Hw (length (live_leases active victim))) as (x & Hx & Hlt); [lia|].
      apply Hle in Hx. lia. }
    destruct (Nat.ltb_spec target (length (live_leases active victim))).
    + right. exists victim, ((need `min` (max - take_available leases me max))
        `min` (length (live_leases active victim) - target)).
      split; [lia|]. split.
      * unfold steals. fold active target. split_and!; [done..|].
        subst need target active. unfold take_available in *. cbv zeta in *. lia.
      * rewrite take_loop_spec by lia. simpl.
        rewrite Hlen, firstn_firstn, length_firstn, sort_by_key_length.
        unfold stolen. fold active. do 3 f_equal. lia.
    + left. split; [done|]. intros _ _ w Hw. specialize (Hall w Hw). lia.
  - left. split; [done|]. intros _ _ w Hw. apply max_by_count_None in Hmax.
    destruct (decide (length (live_leases active w) ≤ target)); [done|].
    destruct (Hcount w Hw target) as (x & Hx & _); [lia|]. rewrite Hmax in Hx. set_solver.
Qed.

Lemma compute_shape leases me max :
  let active := active_leases leases in
  compute_leases_to_take leases me max =
    steal_phase active me max (fair_share active me)
      (fair_share active me - length (live_leases active me)
         - take_available leases me max)
      (ls_lease_key <$> taken_available leases me max).
Proof.
  intros active. unfold compute_leases_to_take. fold active.
  set (target := fair_share active me). set (mine := length (live_leases active me)).
  assert (∀ t, take_available leases me max = 0 → (0 <? target - mine - 0) && (0 <? max) = false →
    [] = steal_phase active me max t (target - mine - take_available leases me max)
           (ls_lease_key <$> taken_available leases me max)) as Hnil.
  { intros t Hz Hb. unfold taken_available, steal_phase. rewrite Hz. simpl. by rewrite Hb. }
  destruct (bool_decide (active = []) || (max =? 0)) eqn:E0.
  - apply Hnil; [unfold take_available; cbv zeta; fold active target mine|];
      apply orb_true_iff in E0 as [E0%bool_decide_eq_true|E0%Nat.eqb_eq]; try lia.
    + unfold target, available_leases. rewrite E0. simpl. lia.
    + assert (target = 0) as ->; [|done]. unfold target, fair_share. rewrite E0.
      unfold div_ceil. by rewrite Nat.Div0.div_0_l, Nat.Div0.mod_0_l.
    + subst max. by rewrite andb_false_r.
  - destruct (Nat.leb_spec target mine).
    + apply Hnil; [unfold take_available; cbv zeta; fold active target mine; lia|].
      replace (target - mine - 0) with 0 by lia. done.
    + rewrite take_loop_spec by (simpl; lia). simpl.
      rewrite Nat.sub_0_r, sort_by_key_length. done.
Qed.

(** Case analysis on a decision: the available prefix, then maybe a steal. *)
Lemma compute_cases leases me max :
  let active := active_leases leases in
  (compute_leases_to_take leases me max = ls_lease_key <$> taken_available leases me max ∧
   (take_available leases me max
      < (fair_share active me - length (live_leases active me)) `min` max →
    ∀ w, w ≠ me → length (live_leases active w) ≤ fair_share active me))
  ∨ ∃ victim n2, 0 < n2 ∧ steals leases me max victim n2 ∧
    compute_leases_to_take leases me max =
      ls_lease_key <$> (taken_available leases me max ++ stolen leases victim n2).
Proof.
  intros active. rewrite compute_shape.
  destruct (steal_phase_shape leases me max) as [[E Hle]|(v & n2 & ? & ? & E)].
  - left. split; [exact E|]. subst active. intros Hlt. cbv zeta in Hle. apply Hle; lia.
  - right. exists v, n2. rewrite fmap_app. done.
Qed.

(** What is taken, as snapshots rather than keys. *)
Lemma elem_of_taken_available leases me max l :
  l ∈ taken_available leases me max →
  (ls_owner l = None ∨ ls_expired l = true) ∧ ls_owner l ≠ Some me ∧
  ls_completed l = false ∧ l ∈ leases.
Proof.
  intros Hl%elem_of_firstn. by autorewrite with ddb in Hl.
Qed.

Lemma elem_of_stolen leases victim n2 l :
  l ∈ stolen leases victim n2 →
  ls_expired l = false ∧ ls_owner l = Some victim ∧ ls_completed l = false ∧ l ∈ leases.
Proof.
  intros Hl%elem_of_firstn. by autorewrite with ddb in Hl.
Qed.

Lemma NoDup_keys_firstn_sorted (n : nat) (l : list LeaseSnapshot) :
  NoDup (ls_lease_key <$> l) →
  NoDup (ls_lease_key <$> firstn n (sort_by_key ls_lease_key l)).
Proof.
  intros Hl. rewrite <- (sort_by_key_perm ls_lease_key l) in Hl.
  rewrite <- (firstn_skipn n (sort_by_key _ _)), fmap_app in Hl.
  by apply NoDup_app in Hl as [? _].
Qed.

Lemma NoDup_keys_filter (P : LeaseSnapshot → Prop) `{∀ l, Decision (P l)} ls :
  NoDup (ls_lease_key <$> ls) → NoDup (ls_lease_key <$> filter P ls).
Proof.
  induction ls as [|l ls IH]; simpl; [done|]. rewrite NoDup_cons. intros [Hn Hd].
  rewrite filter_cons. destruct (decide (P l)); [|by apply IH].
  simpl. apply NoDup_cons. split; [|by apply IH]. intros Hin. apply Hn.
  apply list_elem_of_fmap in Hin as (y & -> & [_ Hy]%list_elem_of_filter).
  by apply list_elem_of_fmap_2.
Qed.

Lemma NoDup_taken_available leases me max :
  NoDup (ls_lease_key <$> leases) →
  NoDup (ls_lease_key <$> taken_available leases me max).
Proof. intros. by apply NoDup_keys_firstn_sorted, NoDup_keys_filter, NoDup_keys_filter, NoDup_keys_filter. Qed.

Lemma NoDup_stolen leases victim n2 :
  NoDup (ls_lease_key <$> leases) → NoDup (ls_lease_key <$> stolen leases victim n2).
Proof. intros. by apply NoDup_keys_firstn_sorted, NoDup_keys_filter, NoDup_keys_filter. Qed.

Lemma key_inj_of_NoDup leases l l' :
  NoDup (ls_lease_key <$> leases) → l ∈ leases → l' ∈ leases →
  ls_lease_key l = ls_lease_key l' → l = l'.
Proof.
  induction leases as [|x leases IH]; simpl; [set_solver|].
  rewrite NoDup_cons. intros [Hn Hd] [->|Hl]%elem_of_cons [->|Hl']%elem_of_cons E;
    [done|..|by apply IH]; destruct Hn; [rewrite E|rewrite <- E]; by apply list_elem_of_fmap_2.
Qed.

End taker_lemmas.

(** ** Properties *)

(** C27: a decision claims at most [max_to_take] distinct leases, each an
    incomplete lease of the table that is not already ours, and never more than
    it takes to bring this worker to the fair share of the live workers. *)
Theorem taker_within_fair_share `{HashOrder} leases me max :
  NoDup (ls_lease_key <$> leases) →
  let active := active_leases leases in
  let take := compute_leases_to_take leases me max in
  NoDup take ∧ length take ≤ max ∧
  (∀ k, k ∈ take → ∃ l, l ∈ leases ∧ ls_lease_key l = k ∧ ls_completed l = false ∧
     ls_owner l ≠ Some me) ∧
  (take ≠ [] → length (live_leases active me) + length take ≤ fair_share active me).
Proof.
  intros Hnd active take.
  assert (∀ l, l ∈ taken_available leases me max → ∃ l', l' ∈ leases ∧
    ls_lease_key l' = ls_lease_key l ∧ ls_completed l' = false ∧
    ls_owner l' ≠ Some me) as Hav.
  { intros l (? & ? & ? & ?)%elem_of_taken_available. eauto 10. }
  pose proof (length_taken_available leases me max) as Hl1.
  destruct (compute_cases leases me max) as [[E _]|(v & n2 & Hn2 & (Hv & _ & Hn & Hn1) & E)];
    subst take; rewrite E; rewrite ?fmap_app.
  - split_and!; [by apply NoDup_taken_available|..].
    + rewrite length_fmap, Hl1. unfold take_available. lia.
    + intros k (l & -> & Hl)%list_elem_of_fmap. auto.
    + rewrite length_fmap, Hl1. intros Hne.
      assert (take_available leases me max ≠ 0).
      { rewrite <- Hl1. by destruct (taken_available leases me max). }
      subst active. unfold take_available in *; cbv zeta in *. lia.
  - assert (length (stolen leases v n2) = n2) as Hl2.
    { unfold stolen. rewrite length_firstn, sort_by_key_length. cbv zeta in Hn. lia. }
    split_and!.
    + apply NoDup_app. split_and!;
        [by apply NoDup_taken_available|..|by apply NoDup_stolen].
      intros k (l & -> & Hl)%list_elem_of_fmap (l' & El & Hl')%list_elem_of_fmap.
      apply elem_of_taken_available in Hl as (Hl & Hm & _ & Hin).
      apply elem_of_stolen in Hl' as (? & ? & _ & Hin').
      rewrite (key_inj_of_NoDup leases l l') in Hl by done. destruct Hl; congruence.
    + rewrite length_app, !length_fmap, Hl1, Hl2. cbv zeta in *.
      unfold take_available in *; cbv zeta in *. lia.
    + intros k Hk. rewrite <- fmap_app in Hk.
      apply list_elem_of_fmap in Hk as (l & -> & [Hl|Hl]%elem_of_app); [auto|].
      apply elem_of_stolen in Hl as (? & Ho & ? & ?). exists l. rewrite Ho.
      split_and!; [done..|congruence].
    + intros _. rewrite length_app, !length_fmap, Hl1, Hl2. cbv zeta in *.
      subst active. unfold take_available in *; cbv zeta in *. lia.
Qed.

(** stealing is the last resort and never starves the victim.  If a lease of
    a live worker is taken, then every available lease is taken too, the victim
    is a most loaded other worker and the only one stolen from, and it keeps at
    least the fair share. *)
Theorem taker_steal_keeps_victim_at_target `{HashOrder} leases me max l v :
  NoDup (ls_lease_key <$> leases) →
  let active := active_leases leases in
  let take := compute_leases_to_take leases me max in
  l ∈ leases → ls_lease_key l ∈ take → ls_expired l = false → ls_owner l = Some v →
  (∀ a, a ∈ available_leases active me → ls_lease_key a ∈ take) ∧
  (∀ w, w ≠ me → length (live_leases active w) ≤ length (live_leases active v)) ∧
  (∀ l' w, l' ∈ leases → ls_lease_key l' ∈ take → ls_expired l' = false →
     ls_owner l' = Some w → w = v) ∧
  fair_share active me
    + length (filter (λ k, k ∈ ls_lease_key <$> live_leases active v) take)
    ≤ length (live_leases active v).
Proof.
  intros Hnd active take Hl Hk He Ho.
  (* a taken lease of a live worker is one of the stolen ones *)
  assert (∀ x w, x ∈ leases → ls_expired x = false → ls_owner x = Some w →
            ls_lease_key x ∉ ls_lease_key <$> taken_available leases me max) as Hnot.
  { intros x w Hx Hxe Hxo (y & E & Hy)%list_elem_of_fmap.
    apply elem_of_taken_available in Hy as (Hy & _ & _ & Hin).
    assert (x = y) as -> by by apply (key_inj_of_NoDup leases). destruct Hy; congruence. }
  destruct (compute_cases leases me max) as [[E _]|(v' & n2 & Hn2 & (Hv & Hmax & Hn & Hn1) & E)];
    subst take; rewrite E in *; [by destruct (Hnot l v)|].
  assert (∀ x w, x ∈ leases → ls_expired x = false → ls_owner x = Some w →
     ls_lease_key x ∈ ls_lease_key <$> taken_available leases me max ++ stolen leases v' n2 →
     w = v') as Hv'.
  { intros x w Hx Hxe Hxo. rewrite fmap_app, elem_of_app. intros [Hc|Hc].
    - by destruct (Hnot x w).
    - apply list_elem_of_fmap in Hc as (y & Ey & (_ & Hyo & _ & Hy)%elem_of_stolen).
      assert (x = y) as -> by by apply (key_inj_of_NoDup leases). congruence. }
  assert (v = v') as -> by eauto. split_and!.
  - intros a Ha. rewrite fmap_app, elem_of_app. left. apply list_elem_of_fmap_2.
    unfold taken_available. rewrite firstn_all2.
    + by rewrite sort_by_key_elem.
    + rewrite sort_by_key_length. cbv zeta in Hn1. rewrite Hn1. done.
  - exact Hmax.
  - intros l' w Hl' Hk' He' Ho'. by apply (Hv' l').
  - rewrite fmap_app, filter_app, length_app.
    rewrite (filter_none _ (ls_lease_key <$> taken_available _ _ _)).
    + simpl. pose proof (length_filter (λ k, k ∈ ls_lease_key <$> live_leases active v')
        (ls_lease_key <$> stolen leases v' n2)) as Hlf.
      rewrite length_fmap in Hlf.
      assert (length (stolen leases v' n2) ≤ n2) as Hst
        by (unfold stolen; rewrite length_firstn; lia).
      subst active. cbv zeta in *. lia.
    + intros k Hka (x & -> & Hx)%list_elem_of_fmap.
      apply elem_of_live_leases in Hx as (? & ? & [_ ?]%elem_of_active).
      by destruct (Hnot x v').
Qed.

(** progress.  A worker takes nothing exactly when it may not take (cap
    zero), or already holds its fair share, or there is nothing left to move:
    no lease is available and no other worker is above the fair share. *)
Theorem taker_takes_nothing_iff `{HashOrder} leases me max :
  let active := active_leases leases in
  compute_leases_to_take leases me max = [] ↔
  max = 0 ∨ fair_share active me ≤ length (live_leases active me) ∨
  (available_leases active me = [] ∧
   ∀ w, w ≠ me → length (live_leases active w) ≤ fair_share active me).
Proof.
  cbv zeta.
  pose proof (length_taken_available leases me max) as Hl1.
  assert (∀ n, take_available leases me max = n →
    n = ((fair_share (active_leases leases) me
          - length (live_leases (active_leases leases) me)) `min` max)
          `min` length (available_leases (active_leases leases) me)) as Hn1 by (by intros ? <-).
  specialize (Hn1 _ eq_refl).
  destruct (compute_cases leases me max) as [[E Hle]|(v & n2 & Hn2 & (Hv & Hmax & Hn & Hn1') & E)];
    rewrite E; cbv zeta in *.
  - split.
    + intros Hnil. apply fmap_nil_inv in Hnil. rewrite Hnil in Hl1. simpl in Hl1.
      destruct (decide (max = 0)); [by left|].
      destruct (decide (fair_share (active_leases leases) me
        ≤ length (live_leases (active_leases leases) me))); [by right; left|].
      right; right. split.
      * apply length_zero_iff_nil. lia.
      * apply Hle. lia.
    + intros Hc. assert (take_available leases me max = 0) as Hz.
      { destruct Hc as [|[|[Ha _]]]; [lia..|]. rewrite Ha in Hn1. simpl in Hn1. lia. }
      rewrite Hz in Hl1. apply length_zero_iff_nil in Hl1. by rewrite Hl1.
  - split.
    + intros Hnil. apply (f_equal length) in Hnil.
      rewrite length_fmap, length_app in Hnil. unfold stolen in Hnil.
      rewrite length_firstn, sort_by_key_length in Hnil.
      simpl in Hnil. lia.
    + intros [|[|[_ Hall]]]; [lia..|]. specialize (Hall v Hv). lia.
Qed.

(** Another legal iteration order: the same entries, reversed. *)
Program Definition reversed_hash_order : HashOrder := {|
  hash_order := λ V m, reverse (map_to_list m);
|}.
Next Obligation. intros. by rewrite reverse_Permutation. Qed.

(** Two workers tied for the most leases, a third one idle. *)
Definition tied_leases : list LeaseSnapshot :=
  (λ '(k, w), Build_LeaseSnapshot k (Some w) false false) <$>
    [("a", "w2"); ("b", "w2"); ("c", "w2"); ("d", "w3"); ("e", "w3"); ("f", "w3")].

(** the decision depends on hash-map iteration order through ties only.  If
    at most one other worker is most loaded, every iteration order gives the
    same leases; with two workers tied for most loaded, two legal iteration
    orders take different leases from the same table. *)
Theorem taker_hash_order_matters_only_on_ties :
  (∀ (h1 h2 : HashOrder) leases me max,
     let active := active_leases leases in
     let most_loaded v := v ≠ me ∧ ∀ w, w ≠ me →
       length (live_leases active w) ≤ length (live_leases active v) in
     (∀ v1 v2, most_loaded v1 → most_loaded v2 →
        fair_share active me < length (live_leases active v1) → v1 = v2) →
     @compute_leases_to_take h1 leases me max = @compute_leases_to_take h2 leases me max) ∧
  @compute_leases_to_take sorted_hash_order tied_leases "w1" 10
    ≠ @compute_leases_to_take reversed_hash_order tied_leases "w1" 10.
Proof.
  split.
  - intros h1 h2 leases me max active most Huniq.
    assert (∀ v n, 0 < n → steals leases me max v n → most v ∧
      fair_share active me < length (live_leases active v) ∧
      take_available leases me max
        < (fair_share active me - length (live_leases active me)) `min` max) as Hs.
    { intros v n Hn (Hv & Hm & En & En1). cbv zeta in *. split; [by split|].
      subst active. split; lia. }
    destruct (@compute_cases h1 leases me max) as [[E1 L1]|(v1 & n1 & P1 & S1 & E1)],
      (@compute_cases h2 leases me max) as [[E2 L2]|(v2 & n2 & P2 & S2 & E2)];
      rewrite E1, E2; [done|exfalso..|].
    + destruct (Hs _ _ P2 S2) as ([Hv _] & Hlt & Ha). specialize (L1 Ha _ Hv).
      subst active. lia.
    + destruct (Hs _ _ P1 S1) as ([Hv _] & Hlt & Ha). specialize (L2 Ha _ Hv).
      subst active. lia.
    + destruct (Hs _ _ P1 S1) as (M1 & Hlt & _), (Hs _ _ P2 S2) as (M2 & _ & _).
      assert (v1 = v2) as -> by by apply Huniq.
      destruct S1 as (_ & _ & -> & _), S2 as (_ & _ & -> & _). done.
  - vm_compute. discriminate.
Qed.

Lemma taker_within_fair_share_witness :
  let leases := [Build_LeaseSnapshot "a" None false false;
                 Build_LeaseSnapshot "b" (Some "w2") true false;
                 Build_LeaseSnapshot "c" (Some "w1") false false] in
  length (compute_leases_to_take leases "w1" 10) ≤ 10.
Proof.
  intros leases.
  assert (NoDup (ls_lease_key <$> leases)) as Hnd by (apply (bool_decide_unpack _); vm_compute; exact I).
  exact (proj1 (proj2 (taker_within_fair_share leases "w1" 10 Hnd))).
Defined.

Lemma taker_steal_keeps_victim_at_target_witness :
  let leases := [Build_LeaseSnapshot "a" (Some "w1") false false;
                 Build_LeaseSnapshot "b" (Some "w2") false false;
                 Build_LeaseSnapshot "c" (Some "w2") false false;
                 Build_LeaseSnapshot "d" (Some "w2") false false] in
  2 + length (filter (λ k, k ∈ ["b"; "c"; "d"]) (compute_leases_to_take leases "w1" 10)) ≤ 3.
Proof.
  intros leases.
  assert (NoDup (ls_lease_key <$> leases)) as Hnd by (apply (bool_decide_unpack _); vm_compute; exact I).
  exact (proj2 (proj2 (proj2
    (taker_steal_keeps_victim_at_target leases "w1" 10
       (Build_LeaseSnapshot "b" (Some "w2") false false) "w2" Hnd
       ltac:(apply (bool_decide_unpack _); vm_compute; exact I)
       ltac:(apply (bool_decide_unpack _); vm_compute; exact I) eq_refl eq_refl)))).
Defined.
