(* ===== verification/Coordinator.v ===== *)
(** * Lease coordinator ([core/src/coordinator.rs])

    One worker's view of the lease table over time.  Liveness is judged per
    worker, from the counter of its heartbeat row; a scan ([tick]) refreshes that
    view, marks the leases of stale owners expired and asks the taker what to
    claim. *)

From Stdlib Require Import NArith Lia.
From stdpp Require Import base gmap sets numbers list strings.
From S2P Require Import Prelude Taker.

Definition HEARTBEAT_KEY_PREFIX : string := "__hb__:".

Definition heartbeat_key (worker : string) : string := HEARTBEAT_KEY_PREFIX +:+ worker.

Definition is_heartbeat_key (key : string) : bool := starts_with key HEARTBEAT_KEY_PREFIX.

(** A raw lease-table row as read from a scan. *)
Record RawLease := {
  rl_lease_key : string;
  rl_owner : option string;
  rl_lease_counter : N;
  rl_completed : bool;
  rl_checkpoint : option string;
  rl_parents : list string;
}.

#[export] Instance RawLease_eq_dec : EqDecision RawLease.
Proof. solve_decision. Defined.

Record Seen := {
  seen_counter : N;
  last_change_ms : N;
}.

Record LeaseCoordinator := {
  lc_me : string;
  lc_max_take : nat;
  lc_lease_duration_ms : N;
  lc_seen : gmap string Seen;
}.

Definition LeaseCoordinator_new (me : string) (max_take : nat) (lease_duration_ms : N)
  : LeaseCoordinator :=
  {| lc_me := me; lc_max_take := max_take;
     lc_lease_duration_ms := lease_duration_ms; lc_seen := ∅ |}.

Definition with_seen (c : LeaseCoordinator) (seen : gmap string Seen) : LeaseCoordinator :=
  {| lc_me := lc_me c; lc_max_take := lc_max_take c;
     lc_lease_duration_ms := lc_lease_duration_ms c; lc_seen := seen |}.

(** First loop of [tick]: a heartbeat row whose counter moved resets its
    worker's clock. *)
Definition observe_heartbeat (now_ms : N) (seen : gmap string Seen) (r : RawLease)
  : gmap string Seen :=
  match rl_owner r with
  | None => seen
  | Some worker =>
      match seen !! worker with
      | Some s =>
          if decide (rl_lease_counter r = seen_counter s) then seen
          else <[worker := {| seen_counter := rl_lease_counter r;
                              last_change_ms := now_ms |}]> seen
      | None =>
          <[worker := {| seen_counter := rl_lease_counter r;
                         last_change_ms := now_ms |}]> seen
      end
  end.

(** Second loop: a grace clock for an owner with no heartbeat row yet. *)
Definition seed_grace (me : string) (now_ms : N) (seen : gmap string Seen) (r : RawLease)
  : gmap string Seen :=
  match rl_owner r with
  | Some o =>
      if decide (o = me) then seen
      else match seen !! o with
           | Some _ => seen
           | None => <[o := {| seen_counter := 0; last_change_ms := now_ms |}]> seen
           end
  | None => seen
  end.

Definition heartbeat_rows (rows : list RawLease) : list RawLease :=
  filter (λ r, is_heartbeat_key (rl_lease_key r) = true) rows.
Definition shard_rows (rows : list RawLease) : list RawLease :=
  filter (λ r, is_heartbeat_key (rl_lease_key r) = false) rows.

Definition refresh_seen (c : LeaseCoordinator) (rows : list RawLease) (now_ms : N)
  : gmap string Seen :=
  let seen1 := foldl (observe_heartbeat now_ms) (lc_seen c) (heartbeat_rows rows) in
  let seen2 := foldl (seed_grace (lc_me c) now_ms) seen1 (shard_rows rows) in
  (* forget workers no longer referenced this tick *)
  let live : gset string := list_to_set (omap rl_owner rows) in
  filter (λ '(w, _), w ∈ live) seen2.

Definition is_owner_expired (c : LeaseCoordinator) (owner : option string) (now_ms : N)
  : bool :=
  match owner with
  | None => false
  | Some o =>
      if decide (o = lc_me c) then false
      else match lc_seen c !! o with
           | Some s => (lc_lease_duration_ms c <? saturating_sub now_ms (last_change_ms s))%N
           | None => false
           end
  end.

Definition snapshot_row (c : LeaseCoordinator) (now_ms : N) (r : RawLease) : LeaseSnapshot :=
  {| ls_lease_key := rl_lease_key r;
     ls_owner := rl_owner r;
     ls_expired := is_owner_expired c (rl_owner r) now_ms;
     ls_completed := rl_completed r |}.

Definition refresh (c : LeaseCoordinator) (rows : list RawLease) (now_ms : N)
  : LeaseCoordinator := with_seen c (refresh_seen c rows now_ms).

Definition tick `{HashOrder} (c : LeaseCoordinator) (rows : list RawLease) (now_ms : N)
  : list string * LeaseCoordinator :=
  let c' := refresh c rows now_ms in
  (compute_leases_to_take (snapshot_row c' now_ms <$> shard_rows rows)
     (lc_me c') (lc_max_take c'), c').

(** The view after a history of scans, oldest first. *)
Definition after_scans (c : LeaseCoordinator) (scans : list (list RawLease * N))
  : LeaseCoordinator :=
  foldl (λ c '(rows, now_ms), refresh c rows now_ms) c scans.

(** ** Lemmas *)

Lemma after_scans_snoc c scans rows now_ms :
  after_scans c (scans ++ [(rows, now_ms)]) = refresh (after_scans c scans) rows now_ms.
Proof. unfold after_scans. by rewrite foldl_app. Qed.

Lemma after_scans_config c scans :
  lc_me (after_scans c scans) = lc_me c ∧
  lc_lease_duration_ms (after_scans c scans) = lc_lease_duration_ms c.
Proof.
  induction scans as [|[rows t] scans IH] using rev_ind; [done|].
  by rewrite after_scans_snoc.
Qed.

(** The clock of one worker under the three passes of a scan. *)
Definition clock_step (now_ms : N) (clock : option Seen) (counter : N) : option Seen :=
  match clock with
  | Some s => if decide (counter = seen_counter s) then Some s
              else Some {| seen_counter := counter; last_change_ms := now_ms |}
  | None => Some {| seen_counter := counter; last_change_ms := now_ms |}
  end.

Lemma clock_step_Some t s0 n : ∃ s, clock_step t s0 n = Some s ∧ seen_counter s = n.
Proof.
  unfold clock_step. destruct s0 as [s0|]; [destruct (decide _) as [->|]|]; eauto.
Qed.

Definition beats_of (o : string) (rows : list RawLease) : list N :=
  rl_lease_counter <$> filter (λ r, rl_owner r = Some o) (heartbeat_rows rows).

Lemma observe_heartbeats_lookup now_ms o rows seen :
  foldl (observe_heartbeat now_ms) seen (heartbeat_rows rows) !! o =
  foldl (clock_step now_ms) (seen !! o) (beats_of o rows).
Proof.
  unfold beats_of. generalize (heartbeat_rows rows) as hs. intros hs. revert seen.
  induction hs as [|r hs IH]; intros seen; simpl; [done|]. rewrite IH, filter_cons.
  destruct (decide (rl_owner r = Some o)) as [E|E]; simpl.
  - f_equal. unfold observe_heartbeat. rewrite E. unfold clock_step.
    destruct (seen !! o) as [s|] eqn:Es; [|by rewrite lookup_insert_eq].
    destruct (decide _); [done|by rewrite lookup_insert_eq].
  - f_equal. unfold observe_heartbeat. destruct (rl_owner r) as [w|]; [|done].
    destruct (seen !! w); [destruct (decide _); [done|]|];
      by rewrite lookup_insert_ne by congruence.
Qed.

Lemma seed_grace_lookup me now_ms o rs seen :
  foldl (seed_grace me now_ms) seen rs !! o =
  match seen !! o with
  | Some s => Some s
  | None => if decide (o ≠ me ∧ Some o ∈ rl_owner <$> rs)
            then Some {| seen_counter := 0; last_change_ms := now_ms |} else None
  end.
Proof.
  revert seen. induction rs as [|r rs IH]; intros seen; simpl.
  - destruct (seen !! o); [done|]. rewrite decide_False; [done|]. set_solver.
  - rewrite IH. unfold seed_grace. destruct (rl_owner r) as [w|] eqn:Ew.
    + destruct (decide (w = me)) as [->|Hw].
      * destruct (seen !! o); [done|].
        apply decide_ext. set_solver.
      * destruct (decide (w = o)) as [->|Hne].
        -- destruct (seen !! o) as [s|] eqn:Es; [by rewrite Es|].
           rewrite lookup_insert_eq. rewrite decide_True; [done|]. set_solver.
        -- assert ((match seen !! w with Some _ => seen
             | None => <[w := {| seen_counter := 0; last_change_ms := now_ms |}]> seen end)
             !! o = seen !! o) as ->
             by (destruct (seen !! w); [done|by rewrite lookup_insert_ne]).
           destruct (seen !! o); [done|]. apply decide_ext. set_solver.
    + destruct (seen !! o); [done|]. apply decide_ext. set_solver.
Qed.

(** What one scan does to the clock of a worker. *)
Lemma refresh_lookup c rows now_ms o :
  lc_seen (refresh c rows now_ms) !! o =
  if decide (Some o ∈ rl_owner <$> rows) then
    match foldl (clock_step now_ms) (lc_seen c !! o) (beats_of o rows) with
    | Some s => Some s
    | None => if decide (o ≠ lc_me c ∧ Some o ∈ rl_owner <$> shard_rows rows)
              then Some {| seen_counter := 0; last_change_ms := now_ms |} else None
    end
  else None.
Proof.
  unfold refresh, refresh_seen; simpl. rewrite map_lookup_filter, seed_grace_lookup,
    observe_heartbeats_lookup.
  assert (o ∈ (list_to_set (omap rl_owner rows) : gset string)
          ↔ Some o ∈ rl_owner <$> rows) as Hiff.
  { rewrite elem_of_list_to_set, list_elem_of_omap, list_elem_of_fmap. naive_solver. }
  destruct (decide (Some o ∈ rl_owner <$> rows)) as [Hin|Hin].
  - destruct (foldl _ _ (beats_of o rows)) as [s|]; simpl.
    + by rewrite option_guard_True by (by apply Hiff).
    + destruct (decide (o ≠ _ ∧ _)); simpl; [|done].
      by rewrite option_guard_True by (by apply Hiff).
  - destruct (foldl _ _ (beats_of o rows)) as [s|]; simpl.
    + by rewrite option_guard_False by (by rewrite Hiff).
    + destruct (decide (o ≠ _ ∧ _)); simpl; [|done].
      by rewrite option_guard_False by (by rewrite Hiff).
Qed.

Lemma beats_of_owner o rows n : n ∈ beats_of o rows → Some o ∈ rl_owner <$> rows.
Proof.
  unfold beats_of, heartbeat_rows. intros (r & _ & Hr)%list_elem_of_fmap.
  rewrite !list_elem_of_filter in Hr. destruct Hr as (<- & _ & Hr).
  by apply list_elem_of_fmap_2.
Qed.

(** A scan with exactly one heartbeat row for [o]. *)
Lemma refresh_one_beat c rows now_ms o n :
  beats_of o rows = [n] →
  lc_seen (refresh c rows now_ms) !! o = clock_step now_ms (lc_seen c !! o) n.
Proof.
  intros Hb. rewrite refresh_lookup, Hb. simpl.
  rewrite decide_True by (apply (beats_of_owner o rows n); rewrite Hb; set_solver).
  by destruct (clock_step_Some now_ms (lc_seen c !! o) n) as (s & -> & _).
Qed.

(** Clocks are only ever set to scan times. *)
Lemma clock_steps_le now_ms bound ns s0 s :
  foldl (clock_step now_ms) s0 ns = Some s →
  (now_ms <= bound)%N → (∀ x, s0 = Some x → (last_change_ms x <= bound)%N) →
  (last_change_ms s <= bound)%N.
Proof.
  revert s0. induction ns as [|n ns IH]; intros s0; simpl; [by intros ->; eauto|].
  intros E Hn Hx. eapply IH; [exact E|done|]. intros x. unfold clock_step.
  destruct s0 as [y|]; [destruct (decide _)|]; intros [= <-]; simpl; auto.
Qed.

Lemma after_scans_clock_le me k d scans bound o s :
  (∀ rows t, (rows, t) ∈ scans → (t <= bound)%N) →
  lc_seen (after_scans (LeaseCoordinator_new me k d) scans) !! o = Some s →
  (last_change_ms s <= bound)%N.
Proof.
  induction scans as [|[rows t] scans IH] using rev_ind in s |- *; intros Ht.
  - simpl. rewrite lookup_empty. discriminate.
  - rewrite after_scans_snoc, refresh_lookup.
    assert (t <= bound)%N as Hb by (apply (Ht rows); set_solver).
    destruct (decide _); [|discriminate].
    destruct (foldl _ _ _) as [s'|] eqn:E.
    + intros [= <-]. eapply clock_steps_le; [exact E|done|]. intros x Hx.
      apply IH; [|done]. intros rows' t' Hin. apply (Ht rows' t'). set_solver.
    + destruct (decide _); [|discriminate]. intros [= <-]. done.
Qed.

(** Scans that all show [o]'s heartbeat row: its clock only moves forward from [t1]. *)
Lemma beating_scans_clock_ge c o t1 scans s0 :
  (∀ rows t, (rows, t) ∈ scans → (t1 <= t)%N ∧ ∃ n, beats_of o rows = [n]) →
  lc_seen c !! o = Some s0 → (t1 <= last_change_ms s0)%N →
  ∃ s, lc_seen (after_scans c scans) !! o = Some s ∧ (t1 <= last_change_ms s)%N.
Proof.
  intros Hs H0 Hle. induction scans as [|[rows t] scans IH] using rev_ind; [by eauto|].
  rewrite after_scans_snoc.
  destruct IH as (s & E & Hge); [intros; apply Hs; set_solver|].
  destruct (Hs rows t) as [Ht (n & Hn)]; [set_solver|].
  rewrite (refresh_one_beat _ _ _ _ n Hn), E. simpl.
  destruct (decide _); eauto.
Qed.

Lemma silent_scans_clock c o n scans s0 :
  (∀ rows t, (rows, t) ∈ scans → beats_of o rows = [n]) →
  lc_seen c !! o = Some s0 → seen_counter s0 = n →
  lc_seen (after_scans c scans) !! o = Some s0.
Proof.
  intros Hs H0 Hn. induction scans as [|[rows t] scans IH] using rev_ind; [done|].
  rewrite after_scans_snoc, (refresh_one_beat _ _ _ _ n) by (apply (Hs rows t); set_solver).
  rewrite IH by (intros rows' t' Hin; apply (Hs rows' t'); set_solver). simpl. by rewrite decide_True.
Qed.

Section tick_lemmas.
Context `{HashOrder}.

Lemma tick_taken_row c rows now_ms k :
  k ∈ (tick c rows now_ms).1 →
  ∃ r, r ∈ rows ∧ rl_lease_key r = k ∧ is_heartbeat_key k = false ∧
    rl_completed r = false ∧ rl_owner r ≠ Some (lc_me c).
Proof.
  unfold tick; simpl. intros Hk.
  assert (∀ l, l ∈ snapshot_row (refresh c rows now_ms) now_ms <$> shard_rows rows →
    ls_lease_key l = k → ls_completed l = false → ls_owner l ≠ Some (lc_me c) →
    ∃ r, r ∈ rows ∧ rl_lease_key r = k ∧ is_heartbeat_key k = false ∧
    rl_completed r = false ∧ rl_owner r ≠ Some (lc_me c)) as Hrow.
  { intros l (r & -> & [Hhb Hr]%list_elem_of_filter)%list_elem_of_fmap Hkey Hc Ho.
    simpl in *. subst k. eauto 10. }
  destruct (compute_cases (snapshot_row (refresh c rows now_ms) now_ms <$> shard_rows rows)
              (lc_me c) (lc_max_take c)) as [[E _]|(v & n2 & _ & (Hv & _) & E)];
    simpl in Hk; rewrite E in Hk;
    apply list_elem_of_fmap in Hk as (l & -> & Hl).
  - apply elem_of_taken_available in Hl as (_ & ? & ? & ?). eauto.
  - apply elem_of_app in Hl as [(_ & ? & ? & ?)%elem_of_taken_available|Hl]; [eauto|].
    apply elem_of_stolen in Hl as (_ & Ho & ? & ?). eapply Hrow; try done. congruence.
Qed.
End tick_lemmas.

(** ** Properties *)

(** C28: liveness is judged by the heartbeat row alone.  Over any history of
    scans in which worker [o]'s heartbeat row is present: if its counter was
    seen to move at time [t1], then up to one lease duration after [t1] no lease
    of [o] is considered expired, however stale its shard rows are; and if the
    counter has not moved since a scan at [t1], then [o] is expired as soon as
    more than one lease duration has passed. *)
Theorem heartbeat_decides_expiry me k dur scans1 rows1 t1 scans2 o n now_ms :
  let c := after_scans (LeaseCoordinator_new me k dur) (scans1 ++ (rows1, t1) :: scans2) in
  o ≠ me → beats_of o rows1 = [n] →
  ((∀ rows0 t0, last scans1 = Some (rows0, t0) → ∃ n0, beats_of o rows0 = [n0] ∧ n0 ≠ n) →
   (∀ rows t, (rows, t) ∈ scans2 → (t1 <= t)%N ∧ ∃ n', beats_of o rows = [n']) →
   (now_ms - t1 <= dur)%N → is_owner_expired c (Some o) now_ms = false) ∧
  ((∀ rows t, (rows, t) ∈ scans1 → (t <= t1)%N) →
   (∀ rows t, (rows, t) ∈ scans2 → beats_of o rows = [n]) →
   (dur < now_ms - t1)%N → is_owner_expired c (Some o) now_ms = true).
Proof.
  intros c Hme Hn. unfold is_owner_expired.
  destruct (after_scans_config (LeaseCoordinator_new me k dur) (scans1 ++ (rows1, t1) :: scans2))
    as [Em Ed]. simpl in Em, Ed. subst c. rewrite Em, Ed, decide_False by done.
  replace (scans1 ++ (rows1, t1) :: scans2) with ((scans1 ++ [(rows1, t1)]) ++ scans2)
    by by rewrite <- app_assoc.
  set (c0 := LeaseCoordinator_new me k dur).
  assert (after_scans c0 ((scans1 ++ [(rows1, t1)]) ++ scans2)
          = after_scans (after_scans c0 (scans1 ++ [(rows1, t1)])) scans2) as ->
    by (unfold after_scans; by rewrite foldl_app).
  assert (lc_seen (after_scans c0 (scans1 ++ [(rows1, t1)])) !! o
          = clock_step t1 (lc_seen (after_scans c0 scans1) !! o) n) as E1
    by (rewrite after_scans_snoc; by apply refresh_one_beat).
  split.
  - intros Hmoved Hs2 Hdur.
    assert (lc_seen (after_scans c0 (scans1 ++ [(rows1, t1)])) !! o
            = Some {| seen_counter := n; last_change_ms := t1 |}) as E2.
    { rewrite E1. clear E1. unfold clock_step.
      destruct (lc_seen (after_scans c0 scans1) !! o) as [s|] eqn:Es; [|done].
      rewrite decide_False; [done|]. intros ->.
      induction scans1 as [|[rows0 t0] scans0 _] using rev_ind; [done|].
      destruct (Hmoved rows0 t0) as (n0 & Hb & Hne); [by rewrite last_snoc|].
      rewrite after_scans_snoc, (refresh_one_beat _ _ _ _ n0 Hb) in Es.
      by destruct (clock_step_Some t0 (lc_seen (after_scans c0 scans0) !! o) n0)
        as (s' & E' & ?); simplify_eq/=. }
    destruct (beating_scans_clock_ge _ o t1 scans2 _ Hs2 E2) as (s & -> & Hge); [done|].
    apply N.ltb_ge. unfold saturating_sub. lia.
  - intros Hs1 Hs2 Hdur.
    destruct (clock_step_Some t1 (lc_seen (after_scans c0 scans1) !! o) n) as (s & Es & Hc).
    rewrite Es in E1.
    assert (last_change_ms s <= t1)%N as Hle.
    { apply (clock_steps_le t1 t1 [n] (lc_seen (after_scans c0 scans1) !! o)); [done|done|].
      intros x Hx. by apply (after_scans_clock_le me k dur scans1 t1 o). }
    rewrite (silent_scans_clock _ o n scans2 s Hs2 E1 Hc).
    apply N.ltb_lt. unfold saturating_sub. lia.
Qed.

(** a tick only claims shard leases.  Every key it returns is the key of a
    row of the scan that is not a heartbeat row, is not completed and is not
    already ours, and no more than [max_take] keys are returned; the leases of
    one owner all carry the same expiry verdict, so a dead worker's leases
    become takeable together. *)
Theorem tick_takes_shard_leases_only `{HashOrder} c rows now_ms :
  let '(take, c') := tick c rows now_ms in
  (∀ k, k ∈ take → ∃ r, r ∈ rows ∧ rl_lease_key r = k ∧ is_heartbeat_key k = false ∧
     rl_completed r = false ∧ rl_owner r ≠ Some (lc_me c)) ∧
  length take ≤ lc_max_take c ∧
  (∀ r1 r2, rl_owner r1 = rl_owner r2 →
     ls_expired (snapshot_row c' now_ms r1) = ls_expired (snapshot_row c' now_ms r2)).
Proof.
  destruct (tick c rows now_ms) as [take c'] eqn:E. split_and!.
  - intros k Hk. apply (tick_taken_row c rows now_ms). by rewrite E.
  - unfold tick in E. simplify_eq. simpl.
    destruct (compute_cases (snapshot_row (refresh c rows now_ms) now_ms <$> shard_rows rows)
              (lc_me c) (lc_max_take c)) as [[-> _]|(v & n2 & _ & (_ & _ & Hn & _) & ->)];
      rewrite length_fmap, ?length_app, length_taken_available.
    + unfold take_available. lia.
    + unfold stolen. rewrite length_firstn. unfold take_available in *; cbv zeta in *. lia.
  - intros r1 r2 Ho. simpl. by rewrite Ho.
Qed.

(** forgetting.  After a scan the view only knows workers that own a row of
    that scan; so a worker absent from one scan is not expired in the next one,
    whatever time has passed: it gets a fresh grace window. *)
Theorem absent_worker_gets_fresh_grace c rows0 t0 rows1 t1 o :
  (∀ w, is_Some (lc_seen (refresh c rows0 t0) !! w) → Some w ∈ rl_owner <$> rows0) ∧
  (Some o ∉ rl_owner <$> rows0 →
   is_owner_expired (refresh (refresh c rows0 t0) rows1 t1) (Some o) t1 = false).
Proof.
  split.
  - intros w [s Hs]. rewrite refresh_lookup in Hs. by destruct (decide _).
  - intros Ho. unfold is_owner_expired. destruct (decide _); [done|].
    rewrite refresh_lookup. destruct (decide (Some o ∈ rl_owner <$> rows1)); [|done].
    assert (lc_seen (refresh c rows0 t0) !! o = None) as -> by
      (rewrite refresh_lookup; by rewrite decide_False).
    destruct (foldl _ None _) as [s|] eqn:E.
    + assert (last_change_ms s = t1) as ->.
      { revert s E. generalize (beats_of o rows1) as ns. intros ns.
        induction ns as [|m ns IH] using rev_ind; intros s; simpl; [done|].
        rewrite foldl_app; simpl. unfold clock_step at 1.
        destruct (foldl _ None ns) as [s'|]; [destruct (decide _)|];
          intros [= <-]; simpl; auto. }
      apply N.ltb_ge. unfold saturating_sub. lia.
    + destruct (decide _); [|done]. simpl. apply N.ltb_ge. unfold saturating_sub. lia.
Qed.

(** ** Witnesses *)

Definition hb_row (w : string) (n : N) : RawLease :=
  Build_RawLease (heartbeat_key w) (Some w) n false None [].
Definition shard_row (key w : string) (n : N) : RawLease :=
  Build_RawLease key (Some w) n false None [].

Lemma heartbeat_decides_expiry_witness :
  let rows n := [shard_row "c" "w2" 5; hb_row "w2" n] in
  let c n := after_scans (LeaseCoordinator_new "w1" 10 1000)
               ([(rows 200%N, 0%N)] ++ [(rows n, 4000%N)]) in
  is_owner_expired (c 201%N) (Some "w2") 4500 = false ∧
  is_owner_expired (c 200%N) (Some "w2") 5001 = true.
Proof.
  split.
  - apply (heartbeat_decides_expiry "w1" 10 1000
             [([shard_row "c" "w2" 5; hb_row "w2" 200], 0%N)]
             [shard_row "c" "w2" 5; hb_row "w2" 201] 4000 [] "w2" 201);
      [discriminate|reflexivity|..].
    + intros rows0 t0 [= <- <-]. exists 200%N. split; [reflexivity|discriminate].
    + intros rows t Hin. by apply elem_of_nil in Hin.
    + vm_compute. discriminate.
  - apply (heartbeat_decides_expiry "w1" 10 1000
             [([shard_row "c" "w2" 5; hb_row "w2" 200], 0%N)]
             [shard_row "c" "w2" 5; hb_row "w2" 200] 4000 [] "w2" 200);
      [discriminate|reflexivity|..].
    + intros rows t Hin. apply list_elem_of_singleton in Hin. injection Hin as -> ->.
      vm_compute. discriminate.
    + intros rows t Hin. by apply elem_of_nil in Hin.
    + vm_compute. reflexivity.
Defined.
