(* ===== verification/Leader.v ===== *)
(** * Shard graph from the lease table ([core/src/leader.rs])

    Only the elected leader calls DescribeStream; it publishes each shard as a
    lease row carrying its parents, and every worker rebuilds the shard graph
    from the rows it already scans. *)

From stdpp Require Import base gmap list strings.
From S2P Require Import Prelude Core Coordinator.

Definition LEADER_LEASE_KEY : string := "__shard_sync_leader__".

(** Keys that are coordination state, not shards. *)
Definition is_shard_key (key : string) : bool :=
  negb (bool_decide (key = LEADER_LEASE_KEY)) && negb (is_heartbeat_key key).

Definition shard_metas_from_leases (rows : list RawLease) : list ShardMeta :=
  (λ r, {| sm_id := rl_lease_key r; sm_parents := rl_parents r |}) <$>
    filter (λ r, is_shard_key (rl_lease_key r) = true) rows.

Lemma elem_of_shard_metas rows m :
  m ∈ shard_metas_from_leases rows ↔
  ∃ r, r ∈ rows ∧ is_shard_key (rl_lease_key r) = true ∧
       sm_id m = rl_lease_key r ∧ sm_parents m = rl_parents r.
Proof.
  unfold shard_metas_from_leases. rewrite list_elem_of_fmap. split.
  - intros (r & -> & [Hk Hr]%list_elem_of_filter). eauto.
  - intros (r & Hr & Hk & Hi & Hp). exists r. rewrite list_elem_of_filter.
    destruct m; simpl in *; by subst.
Qed.

Lemma shard_metas_not_reserved rows m :
  m ∈ shard_metas_from_leases rows →
  sm_id m ≠ LEADER_LEASE_KEY ∧ is_heartbeat_key (sm_id m) = false.
Proof.
  intros (r & _ & Hk & -> & _)%elem_of_shard_metas. unfold is_shard_key in Hk.
  apply andb_true_iff in Hk as [H1%negb_true_iff H2%negb_true_iff].
  by apply bool_decide_eq_false in H1.
Qed.

(** The leader key is not a heartbeat key, so the two reservations are disjoint. *)
Lemma leader_key_not_heartbeat : is_heartbeat_key LEADER_LEASE_KEY = false.
Proof. reflexivity. Qed.

Lemma heartbeat_key_is_heartbeat w : is_heartbeat_key (heartbeat_key w) = true.
Proof. apply starts_with_app. Qed.
#[export] Hint Resolve heartbeat_key_is_heartbeat leader_key_not_heartbeat : ddb.
