(* ===== verification/Cleanup.v ===== *)
(** * Lineage-replay-safe lease cleanup ([core/src/cleanup.rs])

    A completed parent's lease is a tombstone; it may be deleted only once its
    children are known and all of them are being processed. *)

From stdpp Require Import base gmap numbers list strings sorting.
From S2P Require Import Prelude Core.

Record LeaseState := {
  st_completed : bool;
  st_processing : bool;
}.

(** [children.entry(p).or_default().push(s.id)]. *)
Definition push_child (child : ShardId) (m : gmap string (list ShardId)) (p : ShardId)
  : gmap string (list ShardId) :=
  <[p := default [] (m !! p) ++ [child]]> m.

Definition children_map (shards : list ShardMeta) : gmap string (list ShardId) :=
  foldl (λ m s, foldl (push_child (sm_id s)) m (sm_parents s)) ∅ shards.

Definition completed_in (state : gmap string LeaseState) (k : string) : bool :=
  default false (st_completed <$> state !! k).
Definition started_in (state : gmap string LeaseState) (k : string) : bool :=
  default false ((λ st, st_processing st || st_completed st) <$> state !! k).

Definition deletable (children : gmap string (list ShardId))
    (state : gmap string LeaseState) (s : ShardMeta) : bool :=
  completed_in state (sm_id s) &&
  match children !! sm_id s with
  | Some (c :: cs) => forallb (started_in state) (c :: cs)
  | _ => false
  end.

Definition leases_safe_to_delete (shards : list ShardMeta)
    (state : gmap string LeaseState) : list string :=
  sort_by_key (λ k, k)
    (sm_id <$> filter (λ s, deletable (children_map shards) state s = true) shards).

(** ** Lemmas *)

Lemma push_children_lookup child ps m p :
  default [] (foldl (push_child child) m ps !! p) =
  default [] (m !! p) ++ replicate (length (filter (λ q, q = p) ps)) child.
Proof.
  revert m. induction ps as [|q ps IH]; intros m; simpl; [by rewrite app_nil_r|].
  rewrite IH. unfold push_child. rewrite filter_cons. destruct (decide (q = p)) as [->|Hne].
  - rewrite lookup_insert_eq, decide_True by done. simpl. by rewrite <- app_assoc.
  - by rewrite lookup_insert_ne, decide_False by done.
Qed.

Lemma elem_of_children shards (p c : ShardId) :
  c ∈ default [] (children_map shards !! p) ↔
  ∃ s, s ∈ shards ∧ sm_id s = c ∧ p ∈ sm_parents s.
Proof.
  unfold children_map.
  assert (∀ m, c ∈ default [] (foldl (λ m s, foldl (push_child (sm_id s)) m (sm_parents s))
                                 m shards !! p) ↔
    c ∈ default [] (m !! p) ∨ ∃ s, s ∈ shards ∧ sm_id s = c ∧ p ∈ sm_parents s) as Hgen.
  { induction shards as [|s shards IH]; intros m; simpl; [set_solver|].
    rewrite IH, push_children_lookup, elem_of_app, elem_of_replicate.
    assert (length (filter (λ q, q = p) (sm_parents s)) ≠ 0 ↔ p ∈ sm_parents s) as Hf.
    { rewrite length_zero_iff_nil. split.
      - intros Hne. destruct (filter _ _) as [|x l] eqn:E; [done|].
        assert (x ∈ filter (λ q, q = p) (sm_parents s)) as Hx by (rewrite E; set_solver).
        by apply list_elem_of_filter in Hx as [-> ?].
      - intros Hp E. assert (p ∈ filter (λ q, q = p) (sm_parents s)) as Hf
          by (by apply list_elem_of_filter). rewrite E in Hf. set_solver. }
    rewrite Hf. set_solver. }
  rewrite Hgen, lookup_empty. set_solver.
Qed.

Lemma deletable_iff shards state s :
  deletable (children_map shards) state s = true ↔
  completed_in state (sm_id s) = true ∧
  (∃ c, c ∈ shards ∧ sm_id s ∈ sm_parents c) ∧
  ∀ c, c ∈ shards → sm_id s ∈ sm_parents c → started_in state (sm_id c) = true.
Proof.
  unfold deletable. rewrite andb_true_iff.
  pose proof (elem_of_children shards (sm_id s)) as Hc.
  destruct (children_map shards !! sm_id s) as [[|k ks]|]; simpl default in Hc.
  1, 3: split; [intros [_ ?]; discriminate|];
    intros (_ & (c & ? & ?) & _);
    by assert (sm_id c ∈ @nil ShardId) as ?%elem_of_nil by (apply Hc; eauto).
  rewrite forallb_True_elem. split.
  - intros [Hs Hall]. split_and!; [done|..].
    + assert (∃ c, c ∈ shards ∧ sm_id c = k ∧ sm_id s ∈ sm_parents c) as (c & ? & _ & ?)
        by (apply Hc; set_solver). eauto.
    + intros c Hcs Hp. apply Hall, Hc. eauto.
  - intros (Hs & _ & Hall). split; [done|].
    intros x (c & ? & <- & ?)%Hc. by apply Hall.
Qed.

Lemma elem_of_safe_to_delete shards state k :
  k ∈ leases_safe_to_delete shards state ↔
    ∃ s, s ∈ shards ∧ sm_id s = k ∧
      (∃ st, state !! k = Some st ∧ st_completed st = true) ∧
      (∃ c, c ∈ shards ∧ k ∈ sm_parents c) ∧
      (∀ c, c ∈ shards → k ∈ sm_parents c →
         ∃ st, state !! sm_id c = Some st ∧ st_processing st || st_completed st = true).
Proof.
  assert (∀ f k, default false (f <$> state !! k) = true ↔
    ∃ st, state !! k = Some st ∧ f st = true) as Hd.
  { intros f k'. destruct (state !! k'); simpl; [|split; [done|by intros (? & ? & _)]].
    split; [eauto|by intros (? & [= ->] & ?)]. }
  unfold leases_safe_to_delete. rewrite sort_by_key_elem, list_elem_of_fmap.
  setoid_rewrite list_elem_of_filter. setoid_rewrite deletable_iff.
  unfold completed_in, started_in. setoid_rewrite Hd. split.
  - intros (s & -> & (? & ? & ?) & ?). eauto 10.
  - intros (s & ? & <- & ?). eauto 10.
Qed.

(** ** Properties *)

(** exactly the completed shards whose known children are non-empty and all
    started (their lease exists and has checkpointed a record or completed) are
    returned, in key order; so a parent's tombstone outlives every child that
    has not begun. *)
Theorem safe_to_delete_iff_children_started shards state :
  (∀ k, k ∈ leases_safe_to_delete shards state ↔
    ∃ s, s ∈ shards ∧ sm_id s = k ∧
      (∃ st, state !! k = Some st ∧ st_completed st = true) ∧
      (∃ c, c ∈ shards ∧ k ∈ sm_parents c) ∧
      (∀ c, c ∈ shards → k ∈ sm_parents c →
         ∃ st, state !! sm_id c = Some st ∧ st_processing st || st_completed st = true)) ∧
  StronglySorted String.le (leases_safe_to_delete shards state).
Proof.
  split; [intros k; apply elem_of_safe_to_delete|apply (sort_by_key_sorted (λ k, k))].
Qed.
