(* ===== verification/Lineage.v ===== *)
(** * From [DescribeStream] shards to the lineage graph ([source-ddbstreams/src/lib.rs])

    A shard names at most one parent.  The graph keeps each shard once, in the
    order of first sight, and drops a parent that is not in the listing; open
    shards that already have children are stamped closed. *)

From stdpp Require Import base gmap numbers list strings.
From S2P Require Import Prelude Core.

Record DdbShard := {
  shard_id : ShardId;
  parent_shard_id : option ShardId;
  ending_sequence_number : option string;
}.

#[export] Instance DdbShard_eq_dec : EqDecision DdbShard.
Proof. solve_decision. Defined.

Definition DdbShard_new (id : ShardId) (parent : option ShardId) : DdbShard :=
  {| shard_id := id; parent_shard_id := parent; ending_sequence_number := None |}.

Definition DdbShard_closed (id : ShardId) (parent : option ShardId) (ending_seq : string)
  : DdbShard :=
  {| shard_id := id; parent_shard_id := parent; ending_sequence_number := Some ending_seq |}.

Definition is_open (s : DdbShard) : bool :=
  match ending_sequence_number s with None => true | Some _ => false end.

Inductive ShardFilterType := ChildShards.

Record ShardFilter := {
  filter_type : ShardFilterType;
  sf_shard_id : option ShardId;
}.

Definition child_shards (parent : ShardId) : ShardFilter :=
  {| filter_type := ChildShards; sf_shard_id := Some parent |}.

Definition type_as_string (f : ShardFilter) : string :=
  match filter_type f with ChildShards => "CHILD_SHARDS" end.

Definition parents_of (s : DdbShard) (present : gset string) : list ShardId :=
  match parent_shard_id s with
  | Some p => if decide (p ∈ present) then [p] else []
  | None => []
  end.

(** [for shard in page { if seen.insert(shard.shard_id.clone()) { shards.push(shard) } }];
    the nested loop over the pages is the loop over their concatenation. *)
Fixpoint dedup_shards (seen : gset string) (l : list DdbShard) : list DdbShard :=
  match l with
  | [] => []
  | s :: l' =>
      if decide (shard_id s ∈ seen) then dedup_shards seen l'
      else s :: dedup_shards ({[shard_id s]} ∪ seen) l'
  end.

Definition to_meta (present : gset string) (s : DdbShard) : ShardMeta :=
  {| sm_id := shard_id s; sm_parents := parents_of s present |}.

Definition build_shard_graph (pages : list (list DdbShard)) : list ShardMeta :=
  let shards := dedup_shards ∅ (concat pages) in
  let present : gset string := list_to_set (shard_id <$> shards) in
  to_meta present <$> shards.

Definition merge_child_shards (existing : list ShardMeta) (discovered : list DdbShard)
  : list ShardMeta :=
  let seen : gset string := list_to_set (sm_id <$> existing) in
  let present := seen ∪ list_to_set (shard_id <$> discovered) in
  existing ++ (to_meta present <$> dedup_shards seen discovered).

Definition CLOSED_BY_SHARD_SYNC : string := "__closed_by_shard_sync__".

Definition close_one (parent_ids : gset string) (s : DdbShard) : DdbShard :=
  if is_open s && bool_decide (shard_id s ∈ parent_ids) then
    {| shard_id := shard_id s; parent_shard_id := parent_shard_id s;
       ending_sequence_number := Some CLOSED_BY_SHARD_SYNC |}
  else s.

Definition parent_ids_of (shards : list DdbShard) : gset string :=
  list_to_set (omap parent_shard_id shards).

Definition close_open_parents (shards : list DdbShard) : list DdbShard :=
  close_one (parent_ids_of shards) <$> shards.

(** ** Lemmas *)

Lemma dedup_shards_elem seen l s :
  s ∈ dedup_shards seen l → s ∈ l ∧ shard_id s ∉ seen.
Proof.
  revert seen. induction l as [|x l IH]; intros seen; simpl; [set_solver|].
  case_decide; [intros ?%IH; set_solver|].
  intros [->|?%IH]%elem_of_cons; set_solver.
Qed.

Lemma dedup_shards_ids seen l k :
  k ∈ shard_id <$> dedup_shards seen l ↔ k ∈ shard_id <$> l ∧ k ∉ seen.
Proof.
  revert seen. induction l as [|x l IH]; intros seen; simpl; [set_solver|].
  case_decide; simpl; rewrite ?fmap_cons, ?elem_of_cons, IH; [set_solver|].
  destruct (decide (k = shard_id x)); set_solver.
Qed.

Lemma dedup_shards_NoDup seen l : NoDup (shard_id <$> dedup_shards seen l).
Proof.
  revert seen. induction l as [|x l IH]; intros seen; simpl; [constructor|].
  case_decide; [done|]. rewrite fmap_cons. constructor; [|done].
  rewrite dedup_shards_ids. set_solver.
Qed.

Lemma dedup_shards_app seen l1 l2 :
  dedup_shards seen (l1 ++ l2) =
  dedup_shards seen l1 ++ dedup_shards (seen ∪ list_to_set (shard_id <$> l1)) l2.
Proof.
  revert seen. induction l1 as [|x l1 IH]; intros seen; simpl; [f_equal; set_solver|].
  case_decide; rewrite IH; [|simpl; f_equal]; f_equal; f_equal; set_solver.
Qed.

(** The shard kept for an id is its first occurrence, in its original place. *)
Lemma dedup_shards_split l1 s l2 :
  shard_id s ∉ shard_id <$> l1 →
  dedup_shards ∅ (l1 ++ s :: l2) =
  dedup_shards ∅ l1 ++ s :: dedup_shards ({[shard_id s]} ∪ list_to_set (shard_id <$> l1)) l2.
Proof.
  intros Hs. rewrite dedup_shards_app. simpl. f_equal.
  rewrite decide_False by set_solver. by rewrite (left_id_L ∅ (∪)).
Qed.

Lemma to_meta_ids present (l : list DdbShard) : sm_id <$> (to_meta present <$> l) = shard_id <$> l.
Proof. by rewrite <- list_fmap_compose. Qed.

Lemma elem_of_parents_of s present p :
  p ∈ parents_of s present ↔ parent_shard_id s = Some p ∧ p ∈ present.
Proof.
  unfold parents_of. destruct (parent_shard_id s) as [q|]; [|set_solver].
  case_decide; set_solver.
Qed.

Lemma build_shard_graph_ids pages :
  sm_id <$> build_shard_graph pages = shard_id <$> dedup_shards ∅ (concat pages).
Proof. apply to_meta_ids. Qed.

Lemma close_one_parents X (shards : list DdbShard) :
  omap parent_shard_id (close_one X <$> shards) = omap parent_shard_id shards.
Proof.
  induction shards as [|s shards IH]; [done|]. csimpl. rewrite IH.
  unfold close_one. by destruct (_ && _).
Qed.

Lemma parents_of_ext s X Y :
  (∀ p, parent_shard_id s = Some p → (p ∈ X ↔ p ∈ Y)) → parents_of s X = parents_of s Y.
Proof.
  intros H. unfold parents_of. destruct (parent_shard_id s) as [p|]; [|done].
  specialize (H p eq_refl). repeat case_decide; tauto.
Qed.

(** ** Properties *)

(** whatever the pages, the graph lists every shard of the pages exactly
    once, in order of first sight, with the metadata of its first occurrence: its
    parent when that parent is in the pages, none otherwise.  Hence the graph is
    closed under parents, so no shard waits for one that is not in it. *)
Theorem shard_graph_first_seen_and_closed pages :
  NoDup (sm_id <$> build_shard_graph pages) ∧
  (∀ k, k ∈ sm_id <$> build_shard_graph pages ↔ k ∈ shard_id <$> concat pages) ∧
  (∀ l1 s l2, concat pages = l1 ++ s :: l2 → shard_id s ∉ shard_id <$> l1 →
     ∃ g1 g2 parents,
       build_shard_graph pages = g1 ++ {| sm_id := shard_id s; sm_parents := parents |} :: g2 ∧
       (∀ k, k ∈ sm_id <$> g1 ↔ k ∈ shard_id <$> l1) ∧
       (parents = [] ∨ ∃ p, parents = [p]) ∧
       ∀ p, p ∈ parents ↔ parent_shard_id s = Some p ∧ p ∈ shard_id <$> concat pages) ∧
  (∀ m p, m ∈ build_shard_graph pages → p ∈ sm_parents m →
     p ∈ sm_id <$> build_shard_graph pages).
Proof.
  rewrite build_shard_graph_ids. split_and!.
  - apply dedup_shards_NoDup.
  - intros k. rewrite dedup_shards_ids. set_solver.
  - intros l1 s l2 Heq Hs. unfold build_shard_graph.
    set (present := list_to_set _).
    assert (∀ k, k ∈ present ↔ k ∈ shard_id <$> concat pages) as Hp.
    { intros k. unfold present. rewrite elem_of_list_to_set, dedup_shards_ids. set_solver. }
    rewrite Heq, dedup_shards_split by done. rewrite fmap_app, fmap_cons.
    eexists _, _, (parents_of s present). split; [reflexivity|]. split_and!.
    + intros k. rewrite to_meta_ids, dedup_shards_ids. set_solver.
    + unfold parents_of. destruct (parent_shard_id s); [case_decide|]; eauto.
    + intros p. rewrite elem_of_parents_of, Hp, Heq. done.
  - intros m p (s & -> & _)%list_elem_of_fmap [_ Hp]%elem_of_parents_of.
    by apply elem_of_list_to_set in Hp.
Qed.

(** closing open parents leaves ids, parents and order alone; a shard that
    some listed shard names as its parent ends up closed, with its own ending
    sequence number when it had one; no other shard changes; a second pass
    changes nothing. *)
Theorem close_open_parents_closes_exactly_parents shards :
  (λ s, (shard_id s, parent_shard_id s)) <$> close_open_parents shards =
    (λ s, (shard_id s, parent_shard_id s)) <$> shards ∧
  (∀ s c, s ∈ close_open_parents shards → c ∈ shards →
     parent_shard_id c = Some (shard_id s) → is_open s = false) ∧
  (∀ i s, shards !! i = Some s →
     (is_open s = false ∨ ∀ c, c ∈ shards → parent_shard_id c ≠ Some (shard_id s)) →
     close_open_parents shards !! i = Some s) ∧
  close_open_parents (close_open_parents shards) = close_open_parents shards.
Proof.
  assert (∀ X s, shard_id (close_one X s) = shard_id s ∧
                 parent_shard_id (close_one X s) = parent_shard_id s) as Hid.
  { intros X s. unfold close_one. by destruct (_ && _). }
  assert ((λ s, (shard_id s, parent_shard_id s)) <$> close_open_parents shards =
          (λ s, (shard_id s, parent_shard_id s)) <$> shards) as Hkeep.
  { unfold close_open_parents. rewrite <- list_fmap_compose. apply list_fmap_ext.
    intros i s _. simpl. by destruct (Hid (parent_ids_of shards) s) as [-> ->]. }
  assert (∀ p, p ∈ parent_ids_of shards ↔ ∃ c, c ∈ shards ∧ parent_shard_id c = Some p) as Hp.
  { intros p. unfold parent_ids_of. rewrite elem_of_list_to_set, list_elem_of_omap. done. }
  split_and!; [done|..].
  - intros s c (s0 & -> & Hs0)%list_elem_of_fmap Hc Hpar.
    destruct (Hid (parent_ids_of shards) s0) as [Hi _]. rewrite Hi in Hpar.
    unfold close_one. destruct (is_open s0) eqn:Ho; simpl; [|done].
    by rewrite bool_decide_eq_true_2 by (apply Hp; eauto).
  - intros i s Hs Hno. unfold close_open_parents. rewrite list_lookup_fmap, Hs. simpl.
    f_equal. unfold close_one. destruct Hno as [->|Hno]; [done|].
    rewrite bool_decide_eq_false_2, andb_false_r by (rewrite Hp; set_solver). done.
  - assert (parent_ids_of (close_open_parents shards) = parent_ids_of shards) as Hpar.
    { unfold parent_ids_of, close_open_parents. by rewrite close_one_parents. }
    unfold close_open_parents at 1. rewrite Hpar. unfold close_open_parents.
    rewrite <- list_fmap_compose. apply list_fmap_ext. intros i s _. simpl.
    unfold close_one at 2 3. destruct (is_open s && _) eqn:E; [done|].
    unfold close_one. by rewrite E.
Qed.

(** C29: incremental sync agrees with a full one: merging the discovered children
    into the graph of the known shards is the graph of the two listings together,
    provided no known shard waits for a parent that was discovered only now. *)
Theorem merge_child_shards_is_full_rebuild known discovered
    (Horder : ∀ s p, s ∈ known → parent_shard_id s = Some p →
                p ∈ shard_id <$> discovered → p ∈ shard_id <$> known) :
  merge_child_shards (build_shard_graph [known]) discovered =
  build_shard_graph [known; discovered].
Proof.
  unfold merge_child_shards. rewrite build_shard_graph_ids. unfold build_shard_graph.
  simpl. rewrite !app_nil_r, dedup_shards_app, fmap_app.
  assert (∀ k, k ∈ shard_id <$> dedup_shards ∅ known ↔ k ∈ shard_id <$> known) as Hk.
  { intros k. rewrite dedup_shards_ids. set_solver. }
  assert ((list_to_set (shard_id <$> dedup_shards ∅ known) : gset string) =
          ∅ ∪ list_to_set (shard_id <$> known)) as ->.
  { apply set_eq. intros k. rewrite elem_of_list_to_set, Hk. set_solver. }
  f_equal; apply list_fmap_ext; intros i s Hs%list_elem_of_lookup_2;
    unfold to_meta; f_equal; apply parents_of_ext; intros p Hpar;
    rewrite fmap_app, !elem_of_union, !elem_of_list_to_set, !elem_of_app, !Hk,
      ?dedup_shards_ids, ?not_elem_of_union, ?elem_of_list_to_set, ?elem_of_app.
  - apply dedup_shards_elem in Hs as [Hs _].
    destruct (decide (p ∈ shard_id <$> known)); set_solver.
  - destruct (decide (p ∈ shard_id <$> known)); set_solver.
Qed.

(** Without that proviso they differ: a shard that was listed before its parent stays
    without it. *)
Example late_parent_is_not_linked :
  let known := [DdbShard_new "c" (Some "p")] in
  let discovered := [DdbShard_closed "p" None "seq-100"] in
  sm_parents <$> merge_child_shards (build_shard_graph [known]) discovered = [[]; []] ∧
  sm_parents <$> build_shard_graph [known; discovered] = [["p"]; []].
Proof. split; vm_compute; reflexivity. Qed.

Lemma merge_child_shards_is_full_rebuild_witness :
  let known := [DdbShard_closed "p" None "seq-100"] in
  let discovered := [DdbShard_new "c1" (Some "p"); DdbShard_new "c2" (Some "p")] in
  merge_child_shards (build_shard_graph [known]) discovered =
    build_shard_graph [known; discovered] ∧
  sm_parents <$> merge_child_shards (build_shard_graph [known]) discovered =
    [[]; ["p"]; ["p"]].
Proof.
  split; [|vm_compute; reflexivity].
  apply merge_child_shards_is_full_rebuild. intros s p Hs Hp _.
  apply list_elem_of_singleton in Hs as ->. discriminate Hp.
Defined.
