(* ===== verification/Scheduler.v ===== *)
(** * The ordering core ([Scheduler] of [core/src/lib.rs])

    The single-worker scheduler drains a stream shard by shard, in dependency
    order.  Its three collaborators are interfaces over a world [W]; the laws of
    the lease store are stated as a class.  [logged_*] are the same interfaces
    with every call recorded, so that what the scheduler does can be compared
    with the protocol automaton [protocol_step].  The in-memory source, leases
    and processor of the crate's tests are the concrete instance. *)

From stdpp Require Import base gmap numbers list strings.
From S2P Require Import Prelude Core.

Class StreamSource (W : Type) := {
  describe_shards : M W (list ShardMeta);
  get_records : ShardId → option SequenceNumber → M W RecordBatch;
}.

Class LeaseStore (W : Type) := {
  checkpoint : ShardId → SequenceNumber → M W unit;
  last_checkpoint : ShardId → M W (option SequenceNumber);
  mark_complete : ShardId → M W unit;
  is_complete : ShardId → M W bool;
}.

Class RecordProcessor (W : Type) := {
  initialize : ShardId → M W unit;
  process_records : list Record_ → M W unit;
  shard_ended : ShardId → M W unit;
  lease_lost : ShardId → M W unit;
}.

Section scheduler.
Context {W : Type} `{StreamSource W, LeaseStore W, RecordProcessor W}.

(** Not complete, and every parent complete. *)
Definition eligible (meta : ShardMeta) : M W bool :=
  c <- is_complete (sm_id meta) ;;
  if c then ret false else all_m is_complete (sm_parents meta).

(** Deliver and checkpoint one batch. *)
Definition deliver_batch (id : ShardId) (batch : RecordBatch) : M W unit :=
  match last_seq (rb_records batch) with
  | Some q => process_records (rb_records batch) ;;; checkpoint id q
  | None => ret tt
  end.

(** The inner [loop]; [None] when the fuel (a bound on the polls) runs out. *)
Fixpoint drain_shard (polls : nat) (id : ShardId) : M W (option unit) :=
  match polls with
  | O => ret None
  | S polls' =>
      after <- last_checkpoint id ;;
      batch <- get_records id after ;;
      deliver_batch id batch ;;;
      if rb_shard_end batch then
        shard_ended id ;;; mark_complete id ;;; ret (Some tt)
      else if bool_decide (rb_records batch = []) then ret (Some tt)
      else drain_shard polls' id
  end.

(** One pass over the described shards; the flag is [progressed]. *)
Fixpoint run_pass (polls : nat) (shards : list ShardMeta) (progressed : bool)
  : M W (option bool) :=
  match shards with
  | [] => ret (Some progressed)
  | meta :: shards' =>
      e <- eligible meta ;;
      if e then
        initialize (sm_id meta) ;;;
        r <- drain_shard polls (sm_id meta) ;;
        match r with
        | None => ret None
        | Some _ => run_pass polls shards' true
        end
      else run_pass polls shards' progressed
  end.

(** The outer [loop]. *)
Fixpoint run (rounds polls : nat) : M W (option unit) :=
  match rounds with
  | O => ret None
  | S rounds' =>
      shards <- describe_shards ;;
      all <- all_m is_complete (sm_id <$> shards) ;;
      if all then ret (Some tt)
      else
        p <- run_pass polls shards false ;;
        match p with
        | None => ret None
        | Some true => run rounds' polls
        | Some false => ret (Some tt)
        end
  end.
End scheduler.

(** ** What a lease store promises

    Its state is the set of completed shards and the map of checkpoints, and
    only its own operations change it. *)
Class LeaseStoreLaws (W : Type) `{StreamSource W, LeaseStore W, RecordProcessor W} := {
  done_set : W → gset string;
  ckpts : W → gmap string SequenceNumber;
  lease_view := λ w : W, (done_set w, ckpts w);
  is_complete_law s w :
    (is_complete s w).1 = bool_decide (s ∈ done_set w) ∧
    lease_view (is_complete s w).2 = lease_view w;
  last_checkpoint_law s w :
    (last_checkpoint s w).1 = ckpts w !! s ∧
    lease_view (last_checkpoint s w).2 = lease_view w;
  mark_complete_law s w :
    lease_view (mark_complete s w).2 = ({[s]} ∪ done_set w, ckpts w);
  checkpoint_law s q w :
    lease_view (checkpoint s q w).2 = (done_set w, <[s := q]> (ckpts w));
  describe_frame w : lease_view (describe_shards w).2 = lease_view w;
  get_records_frame s a w : lease_view (get_records s a w).2 = lease_view w;
  initialize_frame s w : lease_view (initialize s w).2 = lease_view w;
  process_frame rs w : lease_view (process_records rs w).2 = lease_view w;
  ended_frame s w : lease_view (shard_ended s w).2 = lease_view w;
}.

(** ** The protocol a consumer sees *)

Inductive Event :=
| EvDescribe (metas : list ShardMeta)
| EvInit (s : ShardId)
| EvFetch (s : ShardId) (after : option SequenceNumber) (b : RecordBatch)
| EvDeliver (rs : list Record_)
| EvCheckpoint (s : ShardId) (q : SequenceNumber)
| EvEnded (s : ShardId)
| EvComplete (s : ShardId).

Section logging.
Context {W : Type} `{StreamSource W, LeaseStore W, RecordProcessor W}.

#[export] Instance logged_source : StreamSource (W * list Event) := {|
  describe_shards := logged describe_shards (λ ms, [EvDescribe ms]);
  get_records s after := logged (get_records s after) (λ b, [EvFetch s after b]);
|}.
#[export] Instance logged_leases : LeaseStore (W * list Event) := {|
  checkpoint s q := logged (checkpoint s q) (λ _, [EvCheckpoint s q]);
  last_checkpoint s := logged (last_checkpoint s) (λ _, []);
  mark_complete s := logged (mark_complete s) (λ _, [EvComplete s]);
  is_complete s := logged (is_complete s) (λ _, []);
|}.
#[export] Instance logged_processor : RecordProcessor (W * list Event) := {|
  initialize s := logged (initialize s) (λ _, [EvInit s]);
  process_records rs := logged (process_records rs) (λ _, [EvDeliver rs]);
  shard_ended s := logged (shard_ended s) (λ _, [EvEnded s]);
  lease_lost s := logged (lease_lost s) (λ _, []);
|}.
End logging.

(** Where the consumer of one shard stands. *)
Inductive Phase :=
| Idle
| Active (s : ShardId)                     (* initialized, nothing fetched yet *)
| Fetched (s : ShardId) (b : RecordBatch)
| Delivered (s : ShardId) (b : RecordBatch) (* processed, not yet checkpointed *)
| Acked (s : ShardId) (b : RecordBatch)
| Ended (s : ShardId).

Record Protocol := {
  p_done : gset string;
  p_ckpts : gmap string SequenceNumber;
  p_metas : list ShardMeta;
  p_phase : Phase;
}.

(** A shard is left open only when a fetch returned nothing. *)
Definition at_rest (ph : Phase) : bool :=
  match ph with
  | Idle => true
  | Fetched _ b => bool_decide (rb_records b = []) && negb (rb_shard_end b)
  | _ => false
  end.

Definition set_phase (p : Protocol) (ph : Phase) : Protocol :=
  {| p_done := p_done p; p_ckpts := p_ckpts p; p_metas := p_metas p; p_phase := ph |}.

Definition ready (done : gset string) (s : ShardId) (m : ShardMeta) : bool :=
  bool_decide (sm_id m = s) && bool_decide (Forall (λ p, p ∈ done) (sm_parents m)).

Definition protocol_step (p : Protocol) (e : Event) : option Protocol :=
  match e, p_phase p with
  | EvDescribe ms, ph =>
      if at_rest ph then
        Some {| p_done := p_done p; p_ckpts := p_ckpts p; p_metas := ms; p_phase := Idle |}
      else None
  | EvInit s, ph =>
      if at_rest ph && negb (bool_decide (s ∈ p_done p)) &&
         existsb (ready (p_done p) s) (p_metas p)
      then Some (set_phase p (Active s)) else None
  | EvFetch s after b, Active s' =>
      if bool_decide (s = s') && bool_decide (after = p_ckpts p !! s)
      then Some (set_phase p (Fetched s b)) else None
  | EvFetch s after b, Acked s' b' =>
      if bool_decide (s = s') && bool_decide (after = p_ckpts p !! s) &&
         negb (rb_shard_end b')
      then Some (set_phase p (Fetched s b)) else None
  | EvDeliver rs, Fetched s b =>
      if bool_decide (rs = rb_records b) && negb (bool_decide (rs = []))
      then Some (set_phase p (Delivered s b)) else None
  | EvCheckpoint s q, Delivered s' b =>
      if bool_decide (s = s') && bool_decide (last_seq (rb_records b) = Some q)
      then Some {| p_done := p_done p; p_ckpts := <[s := q]> (p_ckpts p);
                   p_metas := p_metas p; p_phase := Acked s b |}
      else None
  | EvEnded s, Acked s' b =>
      if bool_decide (s = s') && rb_shard_end b then Some (set_phase p (Ended s)) else None
  | EvEnded s, Fetched s' b =>
      if bool_decide (s = s') && rb_shard_end b && bool_decide (rb_records b = [])
      then Some (set_phase p (Ended s)) else None
  | EvComplete s, Ended s' =>
      if bool_decide (s = s') then
        Some {| p_done := {[s]} ∪ p_done p; p_ckpts := p_ckpts p; p_metas := p_metas p;
                p_phase := Idle |}
      else None
  | _, _ => None
  end.

Definition protocol_run (p : Protocol) (l : list Event) : option Protocol :=
  foldl (λ o e, o ≫= λ p, protocol_step p e) (Some p) l.

(** The protocol before anything happened, for a given lease table. *)
Definition protocol_start (done : gset string) (cks : gmap string SequenceNumber) : Protocol :=
  {| p_done := done; p_ckpts := cks; p_metas := []; p_phase := Idle |}.

(** ** The scheduler follows the protocol *)

Lemma protocol_run_snoc p l e :
  protocol_run p (l ++ [e]) = protocol_run p l ≫= λ p, protocol_step p e.
Proof. unfold protocol_run. by rewrite foldl_app. Qed.

Lemma protocol_run_app p l1 l2 :
  protocol_run p (l1 ++ l2) = protocol_run p l1 ≫= λ p', protocol_run p' l2.
Proof.
  unfold protocol_run. rewrite foldl_app. destruct (foldl _ (Some p) l1); [done|].
  simpl. by induction l2.
Qed.

Lemma protocol_run_one p e : protocol_run p [e] = protocol_step p e.
Proof. done. Qed.

Ltac run_one := cbn beta; rewrite protocol_run_one; simpl.

Section refinement.
Context {W : Type} `{LeaseStoreLaws W}.
Variable p0 : Protocol.

(** The protocol state that corresponds to a world. *)
Definition state_of (ms : list ShardMeta) (ph : Phase) (w : W) : Protocol :=
  {| p_done := done_set w; p_ckpts := ckpts w; p_metas := ms; p_phase := ph |}.

(** The log so far is a protocol run that ends in phase [ph], with the lease
    table the protocol predicts. *)
Definition follows (ms : list ShardMeta) (ph : Phase) (wl : W * list Event) : Prop :=
  protocol_run p0 wl.2 = Some (state_of ms ph wl.1).

Lemma follows_logged {A} (P : W → Prop) (R : A → W → Prop) (m : M W A) ev ms ph ms' ph' :
  (∀ w, P w →
     protocol_run (state_of ms ph w) (ev (m w).1) =
       Some (state_of (ms' (m w).1) (ph' (m w).1) (m w).2) ∧ R (m w).1 (m w).2) →
  triple (λ wl, follows ms ph wl ∧ P wl.1) (logged m ev)
    (λ a wl, follows (ms' a) (ph' a) wl ∧ R a wl.1).
Proof.
  intros Hm [w l] [Hf HP]. unfold follows, logged in *. simpl in *.
  destruct (Hm w HP) as [Hr HR]. destruct (m w) as [a w']. simpl in *.
  by rewrite protocol_run_app, Hf.
Qed.

(** A call that makes one step of the automaton. *)
Lemma follows_call {A} (P : W → Prop) (m : M W A) ev ms ph ms' ph' :
  (∀ w, P w → protocol_run (state_of ms ph w) (ev (m w).1) =
                Some (state_of (ms' (m w).1) (ph' (m w).1) (m w).2)) →
  triple (λ wl, follows ms ph wl ∧ P wl.1) (logged m ev) (λ a, follows (ms' a) (ph' a)).
Proof.
  intros Hm. eapply triple_conseq;
    [apply (follows_logged P (λ _ _, True) m ev ms ph ms' ph')| |].
  - intros w HP. split; [by apply Hm|done].
  - done.
  - by intros ? ? [? _].
Qed.

Lemma follows_step {A} (m : M W A) ev ms ph ms' ph' :
  (∀ w, protocol_run (state_of ms ph w) (ev (m w).1) =
          Some (state_of (ms' (m w).1) (ph' (m w).1) (m w).2)) →
  triple (follows ms ph) (logged m ev) (λ a, follows (ms' a) (ph' a)).
Proof.
  intros Hm. eapply triple_conseq; [apply (follows_call (λ _, True) m ev ms ph ms' ph')| |done].
  - intros w _. apply Hm.
  - done.
Qed.

(** A call that leaves the lease table alone. *)
Lemma state_of_frame ms ph w w' : lease_view w' = lease_view w → state_of ms ph w' = state_of ms ph w.
Proof. unfold lease_view, state_of. by intros [= -> ->]. Qed.

Lemma follows_describe ms ph : at_rest ph = true →
  triple (follows ms ph) describe_shards (λ ms', follows ms' Idle).
Proof.
  intros Hr. apply (follows_step _ _ ms ph (λ ms', ms') (λ _, Idle)). intros w.
  rewrite (state_of_frame _ _ _ _ (describe_frame w)). run_one. by rewrite Hr.
Qed.

Definition with_done (D : gset string) (ms : list ShardMeta) (ph : Phase)
    (wl : W * list Event) : Prop := follows ms ph wl ∧ done_set wl.1 = D.

Lemma follows_is_complete D ms ph s :
  triple (with_done D ms ph) (is_complete s)
    (λ b wl, with_done D ms ph wl ∧ b = bool_decide (s ∈ D)).
Proof.
  eapply triple_conseq.
  - apply (follows_logged (λ w, done_set w = D)
             (λ b w, done_set w = D ∧ b = bool_decide (s ∈ D)) _ _ ms ph (λ _, ms) (λ _, ph)).
    intros w <-. destruct (is_complete_law s w) as [Hb Hv]. simpl.
    rewrite (state_of_frame _ _ _ _ Hv). split; [done|]. rewrite Hb.
    unfold lease_view in Hv. by injection Hv as -> _.
  - done.
  - by intros b wl (? & ? & ?).
Qed.

Lemma follows_last_checkpoint ms ph s :
  triple (follows ms ph) (last_checkpoint s)
    (λ a wl, follows ms ph wl ∧ a = ckpts wl.1 !! s).
Proof.
  eapply triple_conseq.
  - apply (follows_logged (λ _, True) (λ a w, a = ckpts w !! s) _ _ ms ph
             (λ _, ms) (λ _, ph)).
    intros w _. destruct (last_checkpoint_law s w) as [Hb Hv]. simpl.
    rewrite (state_of_frame _ _ _ _ Hv). split; [done|]. rewrite Hb.
    unfold lease_view in Hv. by injection Hv as _ ->.
  - done.
  - done.
Qed.

Lemma follows_init ms ph m :
  at_rest ph = true → m ∈ ms →
  triple (λ wl, follows ms ph wl ∧ (sm_id m ∉ done_set wl.1) ∧
                Forall (λ p, p ∈ done_set wl.1) (sm_parents m))
    (initialize (sm_id m)) (λ _, follows ms (Active (sm_id m))).
Proof.
  intros Hr Hm.
  apply (follows_call (λ w, (sm_id m ∉ done_set w) ∧ Forall (λ p, p ∈ done_set w) (sm_parents m))
    _ _ ms ph (λ _, ms) (λ _, Active (sm_id m))).
  intros w [Hd Hp]. rewrite (state_of_frame _ _ _ _ (initialize_frame (sm_id m) w)).
  run_one. rewrite Hr, bool_decide_eq_false_2 by done. simpl.
  assert (existsb (ready (done_set w) (sm_id m)) ms = true) as ->; [|done].
  apply existsb_True_elem. exists m. split; [done|]. unfold ready.
  by rewrite !bool_decide_eq_true_2.
Qed.

(** Fetching may go on in these phases. *)
Definition polling (s : ShardId) (ph : Phase) : Prop :=
  ph = Active s ∨ ∃ b, ph = Acked s b ∧ rb_shard_end b = false.

Lemma follows_fetch ms ph s after :
  polling s ph →
  triple (λ wl, follows ms ph wl ∧ after = ckpts wl.1 !! s)
    (get_records s after) (λ b, follows ms (Fetched s b)).
Proof.
  intros Hph.
  apply (follows_call (λ w, after = ckpts w !! s) _ _ ms ph (λ _, ms) (λ b, Fetched s b)).
  intros w Ha. rewrite (state_of_frame _ _ _ _ (get_records_frame s after w)).
  destruct Hph as [->|(b & -> & Hb)]; run_one; rewrite ?Hb, !bool_decide_eq_true_2 by done; done.
Qed.

Lemma last_seq_not_nil rs q : last_seq rs = Some q → bool_decide (rs = []) = false.
Proof.
  intros Hq. apply bool_decide_eq_false_2. intros E%last_seq_None. congruence.
Qed.

Lemma follows_deliver_batch ms s b :
  triple (follows ms (Fetched s b)) (deliver_batch s b)
    (λ _, follows ms (if bool_decide (rb_records b = []) then Fetched s b else Acked s b)).
Proof.
  unfold deliver_batch. destruct (last_seq (rb_records b)) as [q|] eqn:Hq.
  - rewrite (last_seq_not_nil _ _ Hq).
    eapply (triple_bind _ _ _ (λ _, follows ms (Delivered s b))); [|intros _].
    + apply (follows_step _ _ ms _ (λ _, ms) (λ _, Delivered s b)). intros w.
      rewrite (state_of_frame _ _ _ _ (process_frame (rb_records b) w)). run_one.
      by rewrite (last_seq_not_nil _ _ Hq), bool_decide_eq_true_2.
    + apply (follows_step _ _ ms _ (λ _, ms) (λ _, Acked s b)). intros w.
      run_one. rewrite !bool_decide_eq_true_2 by done. simpl.
      pose proof (checkpoint_law s q w) as Hc. unfold lease_view in Hc.
      injection Hc as Hd Hk. unfold state_of. by rewrite Hd, Hk.
  - apply last_seq_None in Hq. rewrite Hq. by apply triple_ret.
Qed.

Lemma follows_end ms s b :
  rb_shard_end b = true →
  triple (follows ms (if bool_decide (rb_records b = []) then Fetched s b else Acked s b))
    (shard_ended s ;;; mark_complete s ;;; ret (Some tt)) (λ _, follows ms Idle).
Proof.
  intros He. eapply (triple_bind _ _ _ (λ _, follows ms (Ended s))); [|intros _].
  - apply (follows_step _ _ ms _ (λ _, ms) (λ _, Ended s)). intros w.
    rewrite (state_of_frame _ _ _ _ (ended_frame s w)).
    destruct (bool_decide (rb_records b = [])) eqn:E; run_one;
      rewrite He, ?E, bool_decide_eq_true_2 by done; done.
  - eapply (triple_bind _ _ _ (λ _, follows ms Idle)); [|by intros _; apply triple_ret].
    apply (follows_step _ _ ms _ (λ _, ms) (λ _, Idle)). intros w.
    run_one. rewrite bool_decide_eq_true_2 by done.
    pose proof (mark_complete_law s w) as Hc. unfold lease_view in Hc.
    injection Hc as Hd Hk. unfold state_of. by rewrite Hd, Hk.
Qed.

(** A shard is left complete, or open after an empty fetch. *)
Lemma follows_drain polls ms s ph :
  polling s ph →
  triple (follows ms ph) (drain_shard polls s)
    (λ r wl, ∃ ph', follows ms ph' wl ∧ (r = Some tt → at_rest ph' = true)).
Proof.
  revert ph. induction polls as [|polls IH]; intros ph Hph; simpl.
  { apply triple_ret. intros wl Hf. exists ph. by split. }
  eapply triple_bind; [apply follows_last_checkpoint|]. intros after.
  eapply triple_bind; [by apply follows_fetch|]. intros b.
  eapply triple_bind; [apply follows_deliver_batch|]. intros [].
  destruct (rb_shard_end b) eqn:He.
  { eapply triple_conseq; [by apply follows_end|done|]. intros r wl Hf. by exists Idle. }
  case_bool_decide as Hn.
  - apply triple_ret. intros wl Hf. eexists. split; [exact Hf|]. intros _. simpl.
    by rewrite He, bool_decide_eq_true_2.
  - apply IH. right. by exists b.
Qed.


Lemma follows_all_complete D ms ph l :
  triple (with_done D ms ph) (all_m is_complete l)
    (λ b wl, with_done D ms ph wl ∧ (b = true → Forall (λ s, s ∈ D) l)).
Proof.
  apply triple_all_m. intros s _. eapply triple_conseq; [apply follows_is_complete|done|].
  intros b wl [? ->]. split; [done|]. apply bool_decide_eq_true_1.
Qed.

Lemma follows_eligible D ms ph m :
  triple (with_done D ms ph) (eligible m)
    (λ e wl, with_done D ms ph wl ∧
       (e = true → (sm_id m ∉ D) ∧ Forall (λ p, p ∈ D) (sm_parents m))).
Proof.
  unfold eligible. eapply triple_bind; [apply follows_is_complete|]. intros [].
  - apply triple_ret. by intros wl [? _].
  - intros wl [Hw Hb]. destruct (follows_all_complete D ms ph (sm_parents m) wl Hw) as [? Hall].
    split; [done|]. intros He. split; [by eapply bool_decide_eq_false_1|auto].
Qed.

Definition resting (ms : list ShardMeta) (wl : W * list Event) : Prop :=
  ∃ ph, follows ms ph wl ∧ at_rest ph = true.
Definition anywhere (wl : W * list Event) : Prop := ∃ ms ph, follows ms ph wl.

Lemma follows_pass polls ms shards b :
  (∀ m, m ∈ shards → m ∈ ms) →
  triple (resting ms) (run_pass polls shards b)
    (λ r wl, anywhere wl ∧ (is_Some r → resting ms wl)).
Proof.
  revert b. induction shards as [|m shards IH]; intros b Hms; simpl.
  { apply triple_ret. intros wl (ph & ? & ?). split; [by exists ms, ph|by exists ph]. }
  unfold resting at 1. apply triple_ex. intros ph. apply triple_pure. intros Hr.
  apply (triple_ghost (λ wl, done_set wl.1)). intros D.
  eapply triple_bind; [apply follows_eligible|]. intros [].
  - eapply (triple_bind _ _ _ (λ _, follows ms (Active (sm_id m)))).
    { eapply triple_conseq; [apply (follows_init ms ph m); [exact Hr|set_solver]| |done].
      by intros wl [[Hf <-] He]; destruct (He eq_refl). }
    intros []. eapply triple_bind; [apply follows_drain; by left|]. intros [[]|].
    + eapply triple_conseq; [apply IH; set_solver| |done].
      intros wl (ph' & ? & ?). exists ph'. auto.
    + apply triple_ret. intros wl (ph' & ? & _). split; [by exists ms, ph'|by intros []].
  - eapply triple_conseq; [apply IH; set_solver| |done].
    intros wl [[? _] _]. by exists ph.
Qed.

Lemma follows_run rounds polls ms :
  triple (resting ms) (run rounds polls) (λ _, anywhere).
Proof.
  revert ms. induction rounds as [|rounds IH]; intros ms; simpl.
  { apply triple_ret. intros wl (ph & ? & _). by exists ms, ph. }
  unfold resting. apply triple_ex. intros ph. apply triple_pure. intros Hr.
  eapply triple_bind; [by apply follows_describe|]. intros ms'.
  apply (triple_ghost (λ wl, done_set wl.1)). intros D.
  eapply triple_bind; [apply follows_all_complete|]. intros [].
  { apply triple_ret. intros wl [[? _] _]. by exists ms', Idle. }
  eapply (triple_bind _ _ _ (λ r wl, anywhere wl ∧ (is_Some r → resting ms' wl))).
  { eapply triple_conseq; [by apply follows_pass| |done].
    intros wl [[? _] _]. by exists Idle. }
  intros [[]|].
  - eapply triple_conseq; [apply (IH ms')| |done]. intros wl [_ Hr']. by apply Hr'.
  - apply triple_ret. by intros wl [? _].
  - apply triple_ret. by intros wl [? _].
Qed.

End refinement.

(** ** What the protocol guarantees *)

(** One step of the automaton, by cases on the event. *)
Lemma protocol_step_inv p e p' :
  protocol_step p e = Some p' →
  match e with
  | EvDescribe ms => p' = {| p_done := p_done p; p_ckpts := p_ckpts p; p_metas := ms;
                             p_phase := Idle |}
  | EvInit s => p' = set_phase p (Active s) ∧ (s ∉ p_done p) ∧
      ∃ m, m ∈ p_metas p ∧ sm_id m = s ∧ ∀ q, q ∈ sm_parents m → q ∈ p_done p
  | EvFetch s a b => p' = set_phase p (Fetched s b) ∧ a = p_ckpts p !! s
  | EvDeliver rs => ∃ s b, p_phase p = Fetched s b ∧ rs = rb_records b ∧ rs ≠ [] ∧
                           p' = set_phase p (Delivered s b)
  | EvCheckpoint s q => ∃ b, p_phase p = Delivered s b ∧ last_seq (rb_records b) = Some q ∧
      p' = {| p_done := p_done p; p_ckpts := <[s := q]> (p_ckpts p);
              p_metas := p_metas p; p_phase := Acked s b |}
  | EvEnded s => p' = set_phase p (Ended s) ∧
      ∃ b, rb_shard_end b = true ∧ (p_phase p = Acked s b ∨
                                    p_phase p = Fetched s b ∧ rb_records b = [])
  | EvComplete s => p_phase p = Ended s ∧
      p' = {| p_done := {[s]} ∪ p_done p; p_ckpts := p_ckpts p; p_metas := p_metas p;
              p_phase := Idle |}
  end.
Proof.
  intros Hs. destruct e; simpl in Hs; destruct (p_phase p) eqn:Hph; try discriminate;
    repeat case_match; simplify_eq/=;
    repeat match goal with
    | E : _ && _ = true |- _ => apply andb_true_iff in E as []
    | E : negb _ = true |- _ => apply negb_true_iff in E
    | E : bool_decide _ = true |- _ => apply bool_decide_eq_true_1 in E
    | E : Forall _ _ |- _ => rewrite Forall_forall in E
    | E : bool_decide _ = false |- _ => apply bool_decide_eq_false_1 in E
    | E : existsb _ _ = true |- _ =>
        apply existsb_True_elem in E as (m & ? & [? HF]%andb_true_iff)
    end; subst; eauto 10.
Qed.

Definition last_described (l : list Event) : list ShardMeta :=
  foldl (λ ms e, match e with EvDescribe ms' => ms' | _ => ms end) [] l.

Definition ckpts_after (cks : gmap string SequenceNumber) (l : list Event)
  : gmap string SequenceNumber :=
  foldl (λ m e, match e with EvCheckpoint s q => <[s := q]> m | _ => m end) cks l.

(** The trail that a phase leaves at the end of the log. *)
Definition phase_trail (ph : Phase) (l : list Event) : Prop :=
  match ph with
  | Fetched s b => ∃ l' a, l = l' ++ [EvFetch s a b]
  | Delivered s b => ∃ l' a, l = l' ++ [EvFetch s a b; EvDeliver (rb_records b)]
  | Acked s b => ∃ l' a q, l = l' ++ [EvFetch s a b; EvDeliver (rb_records b); EvCheckpoint s q] ∧
                           last_seq (rb_records b) = Some q
  | Ended s => ∃ l', l = l' ++ [EvEnded s]
  | _ => True
  end.

Section logs.
Variables (done : gset string) (cks : gmap string SequenceNumber).
Definition accepted (l : list Event) (p : Protocol) : Prop :=
  protocol_run (protocol_start done cks) l = Some p.

Lemma accepted_state l p :
  accepted l p →
  (∀ s, s ∈ p_done p ↔ s ∈ done ∨ EvComplete s ∈ l) ∧
  p_metas p = last_described l ∧ p_ckpts p = ckpts_after cks l ∧ phase_trail (p_phase p) l.
Proof.
  revert p. induction l as [|e l IH] using rev_ind; intros p Hp.
  { injection Hp as <-. simpl. split_and!; [set_solver|done..]. }
  unfold accepted in Hp, IH. rewrite protocol_run_snoc in Hp.
  destruct (protocol_run _ l) as [p1|] eqn:Hrun; [|done].
  destruct (IH p1 eq_refl) as (Hd & Hm & Hc & Ht). simpl in Hp.
  apply protocol_step_inv in Hp.
  unfold last_described, ckpts_after in *. rewrite !foldl_app.
  setoid_rewrite elem_of_app. setoid_rewrite list_elem_of_singleton.
  destruct e as [ms|s|s a b|rs|s q|s|s].
  - subst p. simpl. rewrite Hc. split_and!; [set_solver|done..].
  - destruct Hp as (-> & _). simpl. rewrite Hm, Hc. split_and!; [set_solver|done..].
  - destruct Hp as (-> & _). simpl. rewrite Hm, Hc. split_and!; [set_solver|eauto..].
  - destruct Hp as (s & b & Hph & -> & _ & ->). rewrite Hph in Ht. simpl in *.
    rewrite Hm, Hc. split_and!; [set_solver|done..|].
    destruct Ht as (l' & a & ->). exists l', a. by rewrite <- app_assoc.
  - destruct Hp as (b & Hph & Hq & ->). rewrite Hph in Ht. simpl in *.
    rewrite Hm, Hc. split_and!; [set_solver|done..|].
    destruct Ht as (l' & a & ->). exists l', a, q. by rewrite <- app_assoc.
  - destruct Hp as (-> & _). simpl. rewrite Hm, Hc. split_and!; [set_solver|eauto..].
  - destruct Hp as (_ & ->). simpl. rewrite Hm, Hc. split_and!; [set_solver|done..].
Qed.

(** The state just before an event of an accepted log. *)
Lemma accepted_split pre e post p :
  accepted (pre ++ e :: post) p →
  ∃ p1 p2, accepted pre p1 ∧ protocol_step p1 e = Some p2.
Proof.
  unfold accepted. rewrite protocol_run_app.
  destruct (protocol_run _ pre) as [p1|]; [|done]. simpl.
  change (e :: post) with ([e] ++ post). rewrite protocol_run_app, protocol_run_one.
  destruct (protocol_step p1 e) as [p2|] eqn:E; [|done]. eauto.
Qed.
End logs.

(** ** Properties *)

Section properties.
Context {W : Type} `{LeaseStoreLaws W}.

(** What the three collaborators see of a run. *)
Definition run_log (rounds polls : nat) (w : W) : list Event :=
  (run rounds polls (w, []) : option unit * (W * list Event)).2.2.

Lemma run_accepted rounds polls (w : W) :
  ∃ p, accepted (done_set w) (ckpts w) (run_log rounds polls w) p.
Proof.
  destruct (follows_run (protocol_start (done_set w) (ckpts w)) rounds polls [] (w, []))
    as (ms & ph & Hf); [by exists Idle|]. by eexists.
Qed.

(** Against any lawful lease store, any source and any processor, what the
    scheduler does is a run of the consumer protocol that starts from the lease
    table it found, and the completed set and checkpoints it leaves in the table
    are the ones the protocol computes. *)
Theorem scheduler_refines_protocol rounds polls (w : W) :
  ∃ p, protocol_run (protocol_start (done_set w) (ckpts w)) (run_log rounds polls w) = Some p ∧
       p_done p = done_set (run rounds polls (w, []) : option unit * (W * list Event)).2.1 ∧
       p_ckpts p = ckpts (run rounds polls (w, []) : option unit * (W * list Event)).2.1.
Proof.
  destruct (follows_run (protocol_start (done_set w) (ckpts w)) rounds polls [] (w, []))
    as (ms & ph & Hf); [by exists Idle|].
  eexists. split; [exact Hf|]. by split.
Qed.

(** C30: parent before child.  When a shard is initialized it is not complete, the
    listing last read names it, and each of its parents was complete at the start
    or has been completed since; and a shard is completed only right after its
    processor was told it ended. *)
Theorem parent_before_child rounds polls (w : W) :
  (∀ pre s post, run_log rounds polls w = pre ++ EvInit s :: post →
     (s ∉ done_set w) ∧ (EvComplete s ∉ pre) ∧
     ∃ m, m ∈ last_described pre ∧ sm_id m = s ∧
       ∀ p, p ∈ sm_parents m → p ∈ done_set w ∨ EvComplete p ∈ pre) ∧
  (∀ pre s post, run_log rounds polls w = pre ++ EvComplete s :: post →
     ∃ pre', pre = pre' ++ [EvEnded s]).
Proof.
  destruct (run_accepted rounds polls w) as (p & Hp).
  split; intros pre s post Hlog; rewrite Hlog in Hp;
    apply accepted_split in Hp as (p1 & p2 & Hpre & Hs%protocol_step_inv);
    apply accepted_state in Hpre as (Hd & Hm & _ & Ht).
  - destruct Hs as (_ & Hn & m & Hin & Hid & Hpar).
    rewrite Hd in Hn. setoid_rewrite Hd in Hpar. rewrite Hm in Hin. naive_solver.
  - destruct Hs as [Hph _]. rewrite Hph in Ht. done.
Qed.

(** at-least-once.  A checkpoint is written only right after the batch it
    closes was fetched and handed to the processor, with the last sequence number
    of that batch; each fetch resumes exactly after the last checkpoint of its
    shard; and a shard is ended only when its last batch closed the shard and,
    when it carried records, was processed and checkpointed. *)
Theorem checkpoint_follows_delivery rounds polls (w : W) :
  (∀ pre s q post, run_log rounds polls w = pre ++ EvCheckpoint s q :: post →
     ∃ pre' a b, pre = pre' ++ [EvFetch s a b; EvDeliver (rb_records b)] ∧
                 last_seq (rb_records b) = Some q) ∧
  (∀ pre s a b post, run_log rounds polls w = pre ++ EvFetch s a b :: post →
     a = ckpts_after (ckpts w) pre !! s) ∧
  (∀ pre s post, run_log rounds polls w = pre ++ EvEnded s :: post →
     ∃ pre' a b, rb_shard_end b = true ∧
       (rb_records b = [] ∧ pre = pre' ++ [EvFetch s a b] ∨
        ∃ q, last_seq (rb_records b) = Some q ∧
          pre = pre' ++ [EvFetch s a b; EvDeliver (rb_records b); EvCheckpoint s q])).
Proof.
  destruct (run_accepted rounds polls w) as (p & Hp).
  split_and!; intros pre s; [intros q post Hlog|intros a b post Hlog|intros post Hlog];
    rewrite Hlog in Hp;
    apply accepted_split in Hp as (p1 & p2 & Hpre & Hs%protocol_step_inv);
    apply accepted_state in Hpre as (_ & _ & Hc & Ht).
  - destruct Hs as (b & Hph & Hq & _). rewrite Hph in Ht. destruct Ht as (l' & a & ->). eauto.
  - destruct Hs as [_ ->]. by rewrite Hc.
  - destruct Hs as (_ & b & He & [Hph|[Hph Hn]]); rewrite Hph in Ht.
    + destruct Ht as (l' & a & q & -> & Hq). exists l', a, b. eauto.
    + destruct Ht as (l' & a & ->). exists l', a, b. eauto.
Qed.
End properties.
