(* ===== verification/InMem.v ===== *)
(** * The scheduler on an in-memory stream ([core/src/lib.rs], test module)

    The source, leases and processor the crate's own tests run the scheduler
    with: the concrete instance of the interfaces of [Scheduler], on which the
    scheduler is shown to terminate and to drain an acyclic shard graph. *)

From stdpp Require Import base gmap numbers list strings.
From S2P Require Import Prelude Core Scheduler.

Record InMem := {
  im_metas : list ShardMeta;
  im_data : gmap string (list Record_);
  im_checkpoints : gmap string SequenceNumber;
  im_complete : gmap string bool;
  im_events : list string;
}.

(** [InMemSource::get_records]: what follows the record whose token is [after]. *)
Fixpoint after_token (tok : SequenceNumber) (all : list Record_) : option (list Record_) :=
  match all with
  | [] => None
  | r :: all' => if decide (rec_seq r = tok) then Some all' else after_token tok all'
  end.

Definition inmem_get_records (w : InMem) (shard : string) (after : option SequenceNumber)
  : RecordBatch :=
  let all := default [] (im_data w !! shard) in
  let records :=
    match after with
    | None => all
    | Some tok => match after_token tok all with Some rs => rs | None => all end
    end in
  {| rb_records := records; rb_shard_end := true; rb_millis_behind_latest := None |}.

#[export] Instance inmem_source : StreamSource InMem := {|
  describe_shards := λ w, (im_metas w, w);
  get_records s after := λ w, (inmem_get_records w s after, w);
|}.

Definition inmem_checkpoint (s : string) (q : SequenceNumber) (w : InMem) : InMem :=
  {| im_metas := im_metas w; im_data := im_data w;
     im_checkpoints := <[s := q]> (im_checkpoints w);
     im_complete := im_complete w; im_events := im_events w |}.

Definition inmem_mark_complete (s : string) (w : InMem) : InMem :=
  {| im_metas := im_metas w; im_data := im_data w; im_checkpoints := im_checkpoints w;
     im_complete := <[s := true]> (im_complete w); im_events := im_events w |}.

Definition inmem_is_complete (s : string) (w : InMem) : bool :=
  default false (im_complete w !! s).

#[export] Instance inmem_leases : LeaseStore InMem := {|
  checkpoint s q := λ w, (tt, inmem_checkpoint s q w);
  last_checkpoint s := λ w, (im_checkpoints w !! s, w);
  mark_complete s := λ w, (tt, inmem_mark_complete s w);
  is_complete s := λ w, (inmem_is_complete s w, w);
|}.

(** [RecordingProcessor]. *)
Definition push_events (es : list string) (w : InMem) : InMem :=
  {| im_metas := im_metas w; im_data := im_data w; im_checkpoints := im_checkpoints w;
     im_complete := im_complete w; im_events := im_events w ++ es |}.

Definition rec_event (r : Record_) : string := "rec:" +:+ rec_shard r +:+ ":" +:+ rec_seq r.

#[export] Instance inmem_processor : RecordProcessor InMem := {|
  initialize s := λ w, (tt, push_events ["init:" +:+ s] w);
  process_records rs := λ w, (tt, push_events (rec_event <$> rs) w);
  shard_ended s := λ w, (tt, push_events ["end:" +:+ s] w);
  lease_lost s := λ w, (tt, w);
|}.

Definition inmem_done (w : InMem) : gset string :=
  dom (filter (λ '(_, b), b = true) (im_complete w)).

Lemma elem_of_inmem_done w s : s ∈ inmem_done w ↔ im_complete w !! s = Some true.
Proof.
  unfold inmem_done. rewrite elem_of_dom. unfold is_Some.
  setoid_rewrite map_lookup_filter_Some. naive_solver.
Qed.

Lemma inmem_is_complete_done s w : inmem_is_complete s w = bool_decide (s ∈ inmem_done w).
Proof.
  unfold inmem_is_complete. symmetry. destruct (im_complete w !! s) as [[]|] eqn:E; simpl.
  - by apply bool_decide_eq_true_2, elem_of_inmem_done.
  - apply bool_decide_eq_false_2. rewrite elem_of_inmem_done. congruence.
  - apply bool_decide_eq_false_2. rewrite elem_of_inmem_done. congruence.
Qed.

Lemma inmem_done_mark s w : inmem_done (inmem_mark_complete s w) = {[s]} ∪ inmem_done w.
Proof.
  apply set_eq. intros k. rewrite elem_of_union, elem_of_singleton, !elem_of_inmem_done.
  simpl. destruct (decide (k = s)) as [->|]; [rewrite lookup_insert_eq; naive_solver|].
  rewrite lookup_insert_ne by done. naive_solver.
Qed.

#[export] Program Instance inmem_laws : LeaseStoreLaws InMem := {|
  done_set := inmem_done;
  ckpts := im_checkpoints;
|}.
Next Obligation. intros s w. split; [apply inmem_is_complete_done|done]. Qed.
Next Obligation. done. Qed.
Next Obligation. intros s w. simpl. by rewrite inmem_done_mark. Qed.
Next Obligation. done. Qed.
Next Obligation. done. Qed.
Next Obligation. done. Qed.
Next Obligation. done. Qed.
Next Obligation. done. Qed.
Next Obligation. done. Qed.

(** ** Draining *)

(** What is left of a shard after its checkpoint. *)
Definition pending (w : InMem) (s : string) : list Record_ :=
  rb_records (inmem_get_records w s (im_checkpoints w !! s)).

Definition deliveries (l : list Event) : list Record_ :=
  concat ((λ e, match e with EvDeliver rs => rs | _ => [] end) <$> l).

(** From [a] to [b] exactly the shards [ord] were drained, in this order. *)
Record drained (ord : list string) (a b : InMem * list Event) : Prop := {
  dr_metas : im_metas b.1 = im_metas a.1;
  dr_data : im_data b.1 = im_data a.1;
  dr_done : inmem_done b.1 = list_to_set ord ∪ inmem_done a.1;
  dr_rest : ∀ k, k ∉ ord → im_checkpoints b.1 !! k = im_checkpoints a.1 !! k;
  dr_log : deliveries b.2 = deliveries a.2 ++ concat (pending a.1 <$> ord);
}.

Lemma deliveries_app l1 l2 : deliveries (l1 ++ l2) = deliveries l1 ++ deliveries l2.
Proof. unfold deliveries. by rewrite fmap_app, concat_app. Qed.

Lemma pending_eq w w' s :
  im_data w' = im_data w → im_checkpoints w' !! s = im_checkpoints w !! s →
  pending w' s = pending w s.
Proof. intros Hd Hc. unfold pending, inmem_get_records. by rewrite Hd, Hc. Qed.

Lemma drained_nil a : drained [] a a.
Proof. split; simpl; [done|done|set_solver|done|by rewrite app_nil_r]. Qed.

Lemma drained_app o1 o2 a b c :
  (∀ s, s ∈ o2 → s ∉ inmem_done b.1) →
  drained o1 a b → drained o2 b c → drained (o1 ++ o2) a c.
Proof.
  intros Hnew [M1 D1 N1 R1 L1] [M2 D2 N2 R2 L2]. split.
  - congruence.
  - congruence.
  - rewrite N2, N1. set_solver.
  - intros k Hk. rewrite R2, R1; set_solver.
  - rewrite L2, L1, fmap_app, concat_app, app_assoc. f_equal. f_equal.
    apply list_fmap_ext. intros i s Hs%list_elem_of_lookup_2. apply pending_eq; [done|].
    apply R1. specialize (Hnew s Hs). set_solver.
Qed.

Lemma all_complete_eval ids (w : InMem) (l : list Event) :
  all_m is_complete ids (w, l) = (forallb (λ s, inmem_is_complete s w) ids, (w, l)).
Proof.
  induction ids as [|s ids IH]; simpl; [done|]. unfold bind, logged. simpl.
  rewrite app_nil_r. by destruct (inmem_is_complete s w).
Qed.

Lemma eligible_eval m (w : InMem) (l : list Event) :
  eligible m (w, l) =
  (negb (inmem_is_complete (sm_id m) w) &&
   forallb (λ s, inmem_is_complete s w) (sm_parents m), (w, l)).
Proof.
  unfold eligible, bind. simpl. unfold logged. simpl. rewrite app_nil_r.
  destruct (inmem_is_complete (sm_id m) w); simpl; [done|]. apply all_complete_eval.
Qed.

Lemma deliver_eval s b (w : InMem) (l : list Event) :
  deliver_batch s b (w, l) =
  (tt, match last_seq (rb_records b) with
       | Some q => (inmem_checkpoint s q (push_events (rec_event <$> rb_records b) w),
                    l ++ [EvDeliver (rb_records b); EvCheckpoint s q])
       | None => (w, l)
       end).
Proof.
  unfold deliver_batch. destruct (last_seq _); [|done].
  unfold bind. simpl. unfold logged. simpl. by rewrite <- app_assoc.
Qed.

Lemma inmem_done_same w w' : im_complete w' = im_complete w → inmem_done w' = inmem_done w.
Proof. unfold inmem_done. by intros ->. Qed.

Definition drained_world (s : string) (w : InMem) : InMem :=
  inmem_mark_complete s (push_events ["end:" +:+ s]
    match last_seq (pending w s) with
    | Some q => inmem_checkpoint s q (push_events (rec_event <$> pending w s) w)
    | None => w
    end).

Definition drained_events (s : string) (w : InMem) : list Event :=
  [EvFetch s (im_checkpoints w !! s) (inmem_get_records w s (im_checkpoints w !! s))] ++
  match last_seq (pending w s) with
  | Some q => [EvDeliver (pending w s); EvCheckpoint s q]
  | None => []
  end ++ [EvEnded s; EvComplete s].

(** Draining one shard takes one poll: the in-memory shards are all closed. *)
Lemma drain_eval n (s : string) (w : InMem) (l : list Event) :
  drain_shard (S n) s (w, l) = (Some tt, (drained_world s w, l ++ drained_events s w)).
Proof.
  unfold drained_world, drained_events, pending. simpl drain_shard.
  set (b := inmem_get_records w s (im_checkpoints w !! s)).
  rewrite (bind_run _ _ _ (im_checkpoints w !! s) (w, l))
    by (simpl; unfold logged; simpl; by rewrite app_nil_r).
  rewrite (bind_run _ _ _ b (w, l ++ [EvFetch s (im_checkpoints w !! s) b])) by reflexivity.
  erewrite bind_run by apply deliver_eval.
  change (rb_shard_end b) with true. cbv iota. clearbody b.
  destruct (last_seq (rb_records b)) as [q|]; unfold bind; simpl; unfold logged; simpl;
    by rewrite <- !app_assoc.
Qed.

Lemma drained_one s (w : InMem) (l : list Event) :
  drained [s] (w, l) (drained_world s w, l ++ drained_events s w).
Proof.
  unfold drained_world, drained_events.
  destruct (last_seq (pending w s)) as [q|] eqn:Hq; split; simpl; try done.
  - rewrite inmem_done_mark, inmem_done_same with (w := w) by done. set_solver.
  - intros k Hk. by rewrite lookup_insert_ne by set_solver.
  - rewrite deliveries_app. unfold deliveries at 2. simpl. done.
  - rewrite inmem_done_mark, inmem_done_same with (w := w) by done. set_solver.
  - apply last_seq_None in Hq. rewrite deliveries_app, Hq. by unfold deliveries at 2.
Qed.

(** One pass: every listed shard that is ready when its turn comes is drained. *)
Lemma pass_eval n shards prog (a : InMem * list Event) :
  ∃ ord b, run_pass (S n) shards prog a = (Some (prog || negb (bool_decide (ord = []))), b) ∧
    drained ord a b ∧ NoDup ord ∧
    (∀ s, s ∈ ord → s ∈ sm_id <$> shards ∧ s ∉ inmem_done a.1) ∧
    (∀ m, m ∈ shards → (∀ p, p ∈ sm_parents m → p ∈ inmem_done a.1) →
       sm_id m ∈ inmem_done b.1).
Proof.
  revert prog a. induction shards as [|m shards IH]; intros prog [w l].
  { exists [], (w, l). simpl. rewrite orb_false_r.
    split_and!; [done|apply drained_nil|constructor|set_solver|set_solver]. }
  simpl run_pass. erewrite bind_run by apply eligible_eval.
  destruct (_ && _) eqn:He.
  - apply andb_true_iff in He as [Hc Hpar].
    rewrite inmem_is_complete_done in Hc.
    apply negb_true_iff, bool_decide_eq_false_1 in Hc.
    set (w1 := push_events ["init:" +:+ sm_id m] w). set (l1 := l ++ [EvInit (sm_id m)]).
    rewrite (bind_run _ _ _ tt (w1, l1)) by done. erewrite bind_run by apply drain_eval.
    cbv iota beta.
    assert (drained [sm_id m] (w, l) (drained_world (sm_id m) w1, l1 ++ drained_events (sm_id m) w1))
      as Hd1.
    { destruct (drained_one (sm_id m) w1 l1) as [Hm Hda Hdo Hr Hl]. split; try done.
      simpl in *. rewrite Hl. unfold l1. rewrite deliveries_app. unfold deliveries at 2. simpl.
      by rewrite app_nil_r. }
    destruct (IH true (drained_world (sm_id m) w1, l1 ++ drained_events (sm_id m) w1))
      as (ord & b & Hrun & Hd & Hnd & Hnew & Hall).
    assert (sm_id m ∉ ord) as Hm.
    { intros [_ Hx]%Hnew. rewrite (dr_done _ _ _ Hd1) in Hx. set_solver. }
    exists (sm_id m :: ord), b. rewrite Hrun. split_and!.
    + by rewrite orb_true_r.
    + eapply (drained_app [sm_id m] ord _ _ _); [|exact Hd1|exact Hd]. intros s Hs. by apply Hnew.
    + by constructor.
    + intros s [->|Hs]%elem_of_cons; [split; [by left|done]|].
      destruct (Hnew s Hs) as [? Hx]. rewrite (dr_done _ _ _ Hd1) in Hx. set_solver.
    + intros m' [->|Hm']%elem_of_cons Hp.
      * rewrite (dr_done _ _ _ Hd), (dr_done _ _ _ Hd1). set_solver.
      * apply Hall; [done|]. intros p Hpp. rewrite (dr_done _ _ _ Hd1). set_solver.
  - destruct (IH prog (w, l)) as (ord & b & Hrun & Hd & Hnd & Hnew & Hall).
    exists ord, b. split_and!; [done..|set_solver|].
    intros m' [->|Hm']%elem_of_cons Hp; [|by apply Hall].
    apply andb_false_iff in He as [Hc|Hpar].
    + apply negb_false_iff in Hc. rewrite inmem_is_complete_done in Hc.
      apply bool_decide_eq_true_1 in Hc. rewrite (dr_done _ _ _ Hd). set_solver.
    + exfalso. rewrite <- not_true_iff_false in Hpar. apply Hpar, forallb_True_elem.
      intros p Hpp. rewrite inmem_is_complete_done. by apply bool_decide_eq_true_2, Hp.
Qed.

(** The shards still to be drained. *)
Definition remaining (metas : list ShardMeta) (done : gset string) : list string :=
  filter (λ s, s ∉ done) (sm_id <$> metas).

(** Parents come before their children in some ranking of the shards. *)
Definition acyclic (metas : list ShardMeta) (done : gset string) (rank : string → nat) : Prop :=
  ∀ m p, m ∈ metas → p ∈ sm_parents m →
    p ∈ done ∨ (p ∈ sm_id <$> metas ∧ rank p < rank (sm_id m)).

(** An acyclic graph with shards left always has a ready one. *)
Lemma acyclic_ready metas done rank :
  acyclic metas done rank → (∃ s, s ∈ remaining metas done) →
  ∃ m, m ∈ metas ∧ (sm_id m ∉ done) ∧ ∀ p, p ∈ sm_parents m → p ∈ done.
Proof.
  intros Hac [s Hs]. remember (rank s) as r eqn:Hr.
  revert s Hs Hr. induction (lt_wf r) as [r _ IH]. intros s Hs ->.
  apply list_elem_of_filter in Hs as [Hsd (m & -> & Hm)%list_elem_of_fmap].
  destruct (decide (Forall (λ p, p ∈ done) (sm_parents m))) as [Hall|Hn].
  - rewrite Forall_forall in Hall. eauto.
  - apply not_Forall_Exists in Hn; [|apply _]. apply Exists_exists in Hn as (p & Hp & Hpd).
    simpl in Hpd. destruct (Hac m p Hm Hp) as [?|[Hpm Hlt]]; [done|].
    eapply IH; [exact Hlt| |reflexivity]. by apply list_elem_of_filter.
Qed.

Lemma filter_length_mono {A} (P Q : A → Prop) `{∀ x, Decision (P x), ∀ x, Decision (Q x)} l :
  (∀ x, Q x → P x) → length (filter Q l) ≤ length (filter P l).
Proof.
  intros HPQ. induction l as [|x l IH]; [done|]. rewrite !filter_cons.
  repeat case_decide; simpl; try lia. naive_solver.
Qed.

Lemma filter_length_lt {A} (P Q : A → Prop) `{∀ x, Decision (P x), ∀ x, Decision (Q x)} l x :
  (∀ x, Q x → P x) → x ∈ l → P x → ¬ Q x → length (filter Q l) < length (filter P l).
Proof.
  intros HPQ Hx HP HQ. induction l as [|y l IH]; [by apply elem_of_nil in Hx|].
  rewrite !filter_cons. apply elem_of_cons in Hx as [<-|Hx].
  - rewrite (decide_True _ _ HP), (decide_False _ _ HQ). simpl.
    pose proof (filter_length_mono P Q l HPQ). lia.
  - specialize (IH Hx). repeat case_decide; simpl; try lia. naive_solver.
Qed.

Lemma drained_acyclic ord a b rank :
  drained ord a b → acyclic (im_metas a.1) (inmem_done a.1) rank →
  acyclic (im_metas b.1) (inmem_done b.1) rank.
Proof.
  intros Hd Hac m p Hm Hp. rewrite (dr_metas _ _ _ Hd) in *. rewrite (dr_done _ _ _ Hd).
  destruct (Hac m p Hm Hp); set_solver.
Qed.

(** All described shards are complete exactly when nothing remains. *)
Lemma remaining_nil metas (w : InMem) :
  forallb (λ s, inmem_is_complete s w) (sm_id <$> metas) = true ↔
  remaining metas (inmem_done w) = [].
Proof.
  rewrite forallb_True_elem. unfold remaining. split.
  - intros Hall. apply filter_none. intros s Hs Hn. specialize (Hall s Hs).
    rewrite inmem_is_complete_done in Hall. by apply bool_decide_eq_true_1 in Hall.
  - intros Hn s Hs. rewrite inmem_is_complete_done. apply bool_decide_eq_true_2.
    destruct (decide (s ∈ inmem_done w)) as [?|Hs']; [done|].
    assert (s ∈ remaining metas (inmem_done w)) as Hx by (by apply list_elem_of_filter).
    unfold remaining in Hx. rewrite Hn in Hx. by apply elem_of_nil in Hx.
Qed.

Lemma run_eval n rounds rank (a : InMem * list Event) :
  acyclic (im_metas a.1) (inmem_done a.1) rank →
  length (remaining (im_metas a.1) (inmem_done a.1)) < rounds →
  ∃ ord b, run rounds (S n) a = (Some tt, b) ∧ drained ord a b ∧ NoDup ord ∧
    (∀ s, s ∈ ord → s ∈ remaining (im_metas a.1) (inmem_done a.1)) ∧
    remaining (im_metas a.1) (inmem_done b.1) = [].
Proof.
  revert a. induction rounds as [|rounds IH]; intros [w l] Hac Hlen; [lia|].
  simpl run. rewrite (bind_run _ _ _ (im_metas w) (w, l ++ [EvDescribe (im_metas w)])) by done.
  erewrite bind_run by apply all_complete_eval. simpl in *.
  destruct (forallb _ _) eqn:Hall.
  { apply remaining_nil in Hall. exists [], (w, l ++ [EvDescribe (im_metas w)]). split_and!;
      [done| |constructor|set_solver|done].
    destruct (drained_nil (w, l)) as []; split; simpl in *; try done.
    rewrite deliveries_app. by unfold deliveries at 2. }
  assert (∃ s, s ∈ remaining (im_metas w) (inmem_done w)) as Hrem.
  { destruct (remaining _ _) as [|s r] eqn:E; [|by exists s; left].
    apply remaining_nil in E. congruence. }
  set (l1 := l ++ [EvDescribe (im_metas w)]).
  destruct (pass_eval n (im_metas w) false (w, l1)) as (ord & b & Hrun & Hd & Hnd & Hnew & Hready).
  rewrite (bind_run _ _ _ _ _ Hrun). simpl in *.
  destruct (acyclic_ready _ _ _ Hac Hrem) as (m & Hm & Hmd & Hmp).
  specialize (Hready m Hm Hmp).
  assert (sm_id m ∈ ord) as Hmo.
  { rewrite (dr_done _ _ _ Hd) in Hready. set_solver. }
  rewrite bool_decide_eq_false_2 by (intros ->; by apply elem_of_nil in Hmo). simpl.
  destruct (IH b) as (ord' & c & Hrun' & Hd' & Hnd' & Hnew' & Hrem').
  { eapply drained_acyclic; [exact Hd|done]. }
  { assert (length (remaining (im_metas b.1) (inmem_done b.1)) <
            length (remaining (im_metas w) (inmem_done w))); [|lia].
    rewrite (dr_metas _ _ _ Hd). simpl. unfold remaining.
    apply (filter_length_lt _ _ _ (sm_id m)); [|by apply list_elem_of_fmap_2| |]; simpl; [|done|].
    - intros s. rewrite (dr_done _ _ _ Hd). set_solver.
    - by intros Hn. }
  rewrite (dr_metas _ _ _ Hd) in *. simpl in *.
  exists (ord ++ ord'), c. split_and!; [done| | | |done].
  - apply (drained_app _ _ _ b).
    + intros s Hs. specialize (Hnew' s Hs). by apply list_elem_of_filter in Hnew' as [].
    + destruct Hd as [? ? ? ? Hl]. split; try done. simpl in *. rewrite Hl.
      unfold l1. rewrite deliveries_app. f_equal. unfold deliveries at 2. simpl.
      by rewrite app_nil_r.
    + done.
  - apply NoDup_app. split_and!; [done| |done]. intros s Hs Hs'.
    specialize (Hnew' s Hs'). apply list_elem_of_filter in Hnew' as [Hx _].
    apply Hx. rewrite (dr_done _ _ _ Hd). set_solver.
  - intros s [Hs|Hs]%elem_of_app; apply list_elem_of_filter.
    + destruct (Hnew s Hs). by split.
    + specialize (Hnew' s Hs). apply list_elem_of_filter in Hnew' as [Hx ?].
      split; [|done]. rewrite (dr_done _ _ _ Hd) in Hx. set_solver.
Qed.

(** ** Properties *)

(** C31: on an acyclic in-memory stream the scheduler terminates with every shard
    complete, one poll per shard and at most one round per shard (and one to
    notice) being enough; each shard that was not complete is drained exactly
    once, and what the processor receives is, shard after shard, exactly the
    records that followed the shard's checkpoint, in their order. *)
Theorem scheduler_drains_acyclic_stream (w : InMem) rounds polls rank
    (Hacyclic : acyclic (im_metas w) (inmem_done w) rank)
    (Hrounds : length (im_metas w) < rounds) (Hpolls : 0 < polls) :
  ∃ ord w' log,
    run rounds polls (w, []) = (Some tt, (w', log)) ∧
    NoDup ord ∧
    (∀ s, s ∈ ord ↔ s ∈ sm_id <$> im_metas w ∧ s ∉ inmem_done w) ∧
    (∀ m, m ∈ im_metas w → inmem_is_complete (sm_id m) w' = true) ∧
    deliveries log = concat (pending w <$> ord).
Proof.
  destruct polls as [|n]; [lia|].
  destruct (run_eval n rounds rank (w, [])) as (ord & [w' log] & Hrun & Hd & Hnd & Hin & Hrem).
  { done. }
  { simpl. unfold remaining. eapply Nat.le_lt_trans; [apply length_filter|].
    by rewrite length_fmap. }
  simpl in *. exists ord, w', log. split_and!; [done..| | |].
  - intros s. split.
    + intros Hs%Hin. by apply list_elem_of_filter in Hs as [].
    + intros [Hs Hn]. destruct (decide (s ∈ inmem_done w')) as [Hd'|Hd'].
      * pose proof (dr_done _ _ _ Hd) as Hdone. simpl in Hdone. rewrite Hdone in Hd'. set_solver.
      * assert (s ∈ remaining (im_metas w) (inmem_done w')) as Hx
          by (by apply list_elem_of_filter).
        rewrite Hrem in Hx. by apply elem_of_nil in Hx.
  - intros m Hm. apply remaining_nil in Hrem. rewrite forallb_True_elem in Hrem.
    by apply Hrem, list_elem_of_fmap_2.
  - apply (dr_log _ _ _ Hd).
Qed.

(** A parent that split, listed after its child, as in [parent_before_child_ordering]. *)
Definition demo_rec (s q : string) : Record_ := {| rec_shard := s; rec_seq := q; rec_data := [] |}.

Definition demo : InMem :=
  {| im_metas := [{| sm_id := "child"; sm_parents := ["parent"] |};
                  {| sm_id := "parent"; sm_parents := [] |}];
     im_data := <["parent" := [demo_rec "parent" "1"; demo_rec "parent" "2"]]>
                  (<["child" := [demo_rec "child" "3"; demo_rec "child" "4"]]> ∅);
     im_checkpoints := ∅; im_complete := ∅; im_events := [] |}.

Definition demo_rank (s : string) : nat := if decide (s = "child") then 1 else 0.

Lemma scheduler_drains_acyclic_stream_witness :
  (∃ ord w' log,
    run 3 1 (demo, []) = (Some tt, (w', log)) ∧
    NoDup ord ∧
    (∀ s, s ∈ ord ↔ s ∈ sm_id <$> im_metas demo ∧ s ∉ inmem_done demo) ∧
    (∀ m, m ∈ im_metas demo → inmem_is_complete (sm_id m) w' = true) ∧
    deliveries log = concat (pending demo <$> ord)) ∧
  im_events (run 3 1 demo : option unit * InMem).2 =
    ["init:parent"; "rec:parent:1"; "rec:parent:2"; "end:parent";
     "init:child"; "rec:child:3"; "rec:child:4"; "end:child"].
Proof.
  split; [|vm_compute; reflexivity].
  apply (scheduler_drains_acyclic_stream demo 3 1 demo_rank); [|simpl; lia|lia].
  intros m p Hm Hp. right. unfold demo in *; simpl in *.
  apply elem_of_cons in Hm as [->|Hm].
  - apply list_elem_of_singleton in Hp as ->. split; [set_solver|vm_compute; lia].
  - apply list_elem_of_singleton in Hm as ->. by apply elem_of_nil in Hp.
Defined.

Lemma scheduler_refines_protocol_witness :
  ∃ p, protocol_run (protocol_start (done_set demo) (ckpts demo)) (run_log 3 1 demo) = Some p ∧
       p_done p = done_set (run 3 1 (demo, []) : option unit * (InMem * list Event)).2.1 ∧
       p_ckpts p = ckpts (run 3 1 (demo, []) : option unit * (InMem * list Event)).2.1.
Proof. apply (scheduler_refines_protocol 3 1 demo). Defined.

Lemma parent_before_child_witness :
  (∀ pre s post, run_log 3 1 demo = pre ++ EvInit s :: post →
     (s ∉ done_set demo) ∧ (EvComplete s ∉ pre) ∧
     ∃ m, m ∈ last_described pre ∧ sm_id m = s ∧
       ∀ p, p ∈ sm_parents m → p ∈ done_set demo ∨ EvComplete p ∈ pre) ∧
  length (run_log 3 1 demo) = 15.
Proof. split; [apply (parent_before_child 3 1 demo)|reflexivity]. Defined.

Lemma checkpoint_follows_delivery_witness :
  (∀ pre s q post, run_log 3 1 demo = pre ++ EvCheckpoint s q :: post →
     ∃ pre' a b, pre = pre' ++ [EvFetch s a b; EvDeliver (rb_records b)] ∧
                 last_seq (rb_records b) = Some q) ∧
  ckpts_after ∅ (run_log 3 1 demo) !! "parent" = Some "2".
Proof. split; [apply (checkpoint_follows_delivery 3 1 demo)|vm_compute; reflexivity]. Defined.
