(* ===== verification/LeaseTable.v ===== *)
(** * The lease table as an optimistic-lock store ([lease-dynamodb/src/lib.rs])

    [Lease] is the in-memory view of a row.  [LeaseOp] is the abstract
    specification of the store: every mutation is one atomic step on the table,
    guarded by the counter the writer read; [DynamoDb] shows that the store
    implements it, and [LeaseHistory] says of the calls of the store what follows. *)

From Stdlib Require Import Lia.
From stdpp Require Import base gmap numbers list strings.
From S2P Require Import Prelude Core Coordinator.

Definition single_stream_lease_key (shard_id : string) : string := shard_id.

Record Lease := {
  l_key : string;
  l_owner : option string;
  l_counter : N;
  l_checkpoint : option string;
  l_completed : bool;
  l_parents : list string;
}.

#[export] Instance Lease_eq_dec : EqDecision Lease.
Proof. solve_decision. Defined.

(** Unowned, or the counter has not advanced since it was last seen. *)
Definition is_takeable (l : Lease) (last_seen_counter : N) : bool :=
  match l_owner l with None => true | Some _ => (l_counter l =? last_seen_counter)%N end.

(** ** The abstract store *)

Abbreviation Table := (gmap string Lease).

Definition fresh_lease (k : string) (owner : option string) (counter : N)
    (cp : option string) (ps : list string) : Lease :=
  {| l_key := k; l_owner := owner; l_counter := counter; l_checkpoint := cp;
     l_completed := false; l_parents := ps |}.

Definition with_owner (o : option string) (l : Lease) : Lease :=
  {| l_key := l_key l; l_owner := o; l_counter := l_counter l;
     l_checkpoint := l_checkpoint l; l_completed := l_completed l; l_parents := l_parents l |}.
Definition bump (l : Lease) : Lease :=
  {| l_key := l_key l; l_owner := l_owner l; l_counter := (l_counter l + 1)%N;
     l_checkpoint := l_checkpoint l; l_completed := l_completed l; l_parents := l_parents l |}.
Definition with_checkpoint (q : string) (l : Lease) : Lease :=
  {| l_key := l_key l; l_owner := l_owner l; l_counter := l_counter l;
     l_checkpoint := Some q; l_completed := l_completed l; l_parents := l_parents l |}.
Definition with_completed (l : Lease) : Lease :=
  {| l_key := l_key l; l_owner := l_owner l; l_counter := l_counter l;
     l_checkpoint := l_checkpoint l; l_completed := true; l_parents := l_parents l |}.

(** The mutations, one per conditional write of the store. *)
Inductive LeaseOp :=
| OpCreate (k : string) (owner : string)          (* put if absent, owned, counter 1 *)
| OpPublish (k : string) (ps : list string) (cp : option string)  (* put if absent, unowned *)
| OpClaim (k owner : string) (c : N)              (* take over at counter c *)
| OpRenew (k owner : string) (c : N)
| OpCheckpoint (k owner : string) (c : N) (q : string)
| OpComplete (k owner : string) (c : N)
| OpRelease (k owner : string) (c : N)
| OpDelete (k : string)                           (* only a completed lease *)
| OpHeartbeat (worker : string).

Definition op_key (op : LeaseOp) : string :=
  match op with
  | OpCreate k _ | OpPublish k _ _ | OpClaim k _ _ | OpRenew k _ _ | OpCheckpoint k _ _ _
  | OpComplete k _ _ | OpRelease k _ _ | OpDelete k => k
  | OpHeartbeat w => heartbeat_key w
  end.

Definition held_at (o : string) (c : N) (l : Lease) : bool :=
  (l_counter l =? c)%N && bool_decide (l_owner l = Some o).

(** What the row becomes; the outer [None] is a failed condition, the inner
    [None] a deleted row. *)
Definition op_row (op : LeaseOp) (row : option Lease) : option (option Lease) :=
  match op, row with
  | OpCreate k o, None => Some (Some (fresh_lease k (Some o) 1 None []))
  | OpPublish k ps cp, None => Some (Some (fresh_lease k None 0 cp ps))
  | OpClaim k o c, Some l =>
      if (l_counter l =? c)%N then Some (Some (bump (with_owner (Some o) l))) else None
  | OpRenew k o c, Some l => if held_at o c l then Some (Some (bump l)) else None
  | OpCheckpoint k o c q, Some l =>
      if held_at o c l then Some (Some (bump (with_checkpoint q l))) else None
  | OpComplete k o c, Some l => if held_at o c l then Some (Some (with_completed l)) else None
  | OpRelease k o c, Some l =>
      if held_at o c l then Some (Some (bump (with_owner None l))) else None
  | OpDelete k, Some l => if l_completed l then Some None else None
  | OpHeartbeat w, Some l => Some (Some (bump (with_owner (Some w) l)))
  | OpHeartbeat w, None => Some (Some (fresh_lease (heartbeat_key w) (Some w) 1 None []))
  | _, _ => None
  end.

Definition op_apply (op : LeaseOp) (t : Table) : option Table :=
  match op_row op (t !! op_key op) with
  | Some (Some l) => Some (<[op_key op := l]> t)
  | Some None => Some (delete (op_key op) t)
  | None => None
  end.

(** A failed condition leaves the table as it was. *)
Definition op_exec (t : Table) (op : LeaseOp) : Table := default t (op_apply op t).

(** Any interleaving of the workers' operations. *)
Definition exec (ops : list LeaseOp) (t : Table) : Table := foldl op_exec t ops.

(** The counter an operation of a lease holder (or a thief) is conditioned on. *)
Definition op_expects (op : LeaseOp) : option N :=
  match op with
  | OpClaim _ _ c | OpRenew _ _ c | OpCheckpoint _ _ c _ | OpComplete _ _ c
  | OpRelease _ _ c => Some c
  | _ => None
  end.

(** Does the operation advance the counter when it succeeds? *)
Definition op_bumps (op : LeaseOp) : bool :=
  match op with OpComplete _ _ _ => false | _ => true end.

Definition counter_of (t : Table) (k : string) : option N := l_counter <$> t !! k.

(** ** Lemmas *)

Lemma op_apply_key op t t' k :
  op_apply op t = Some t' → k ≠ op_key op → t' !! k = t !! k.
Proof.
  unfold op_apply. intros Ha Hk.
  destruct (op_row op _) as [[l|]|]; simplify_eq/=;
    [by rewrite lookup_insert_ne|by rewrite lookup_delete_ne].
Qed.

Lemma op_apply_row op t t' :
  op_apply op t = Some t' → op_row op (t !! op_key op) = Some (t' !! op_key op).
Proof.
  unfold op_apply. intros Ha.
  destruct (op_row op _) as [[l|]|]; simplify_eq/=;
    [by rewrite lookup_insert_eq|by rewrite lookup_delete_eq].
Qed.

(** A successful conditional write found the counter it expected. *)
Lemma op_row_expects op row r c :
  op_row op row = Some r → op_expects op = Some c → l_counter <$> row = Some c.
Proof.
  intros Hr He. destruct op, row as [l|]; simpl in *; simplify_eq; case_match; simplify_eq;
    unfold held_at in *;
    repeat match goal with
    | H : _ && _ = true |- _ => apply andb_true_iff in H as [? _]
    | H : (_ =? _)%N = true |- _ => apply N.eqb_eq in H
    end; simpl; congruence.
Qed.

(** Unless it deletes the row, an operation never lowers the counter, and raises
    it unless it is [OpComplete]. *)
Lemma op_row_counter op l r :
  op_row op (Some l) = Some r → (∀ k, op ≠ OpDelete k) →
  ∃ l', r = Some l' ∧ (l_counter l ≤ l_counter l')%N ∧
        (op_bumps op = true → (l_counter l < l_counter l')%N) ∧
        l_parents l' = l_parents l ∧ (l_completed l = true → l_completed l' = true) ∧
        l_key l' = l_key l.
Proof.
  intros Hr Hd. destruct op; simpl in *; try done; try (by destruct (Hd k));
    repeat case_match; simplify_eq/=;
    (eexists; split; [reflexivity|]; split_and!; simpl; try done; lia).
Qed.

Lemma counter_monotone ops t k l :
  (∀ op, op ∈ ops → op ≠ OpDelete k) → t !! k = Some l →
  ∃ l', exec ops t !! k = Some l' ∧ (l_counter l ≤ l_counter l')%N ∧
        l_parents l' = l_parents l ∧ (l_completed l = true → l_completed l' = true).
Proof.
  revert t l. induction ops as [|op ops IH]; intros t l Hd Hl; simpl.
  { exists l. split_and!; done. }
  assert (∃ l1, op_exec t op !! k = Some l1 ∧ (l_counter l ≤ l_counter l1)%N ∧
            l_parents l1 = l_parents l ∧ (l_completed l = true → l_completed l1 = true))
    as (l1 & Hl1 & Hc & Hp & Hcomp).
  { unfold op_exec. destruct (op_apply op t) as [t'|] eqn:Ha; simpl; [|by exists l].
    destruct (decide (k = op_key op)) as [->|Hk].
    - pose proof (op_apply_row _ _ _ Ha) as Hr. rewrite Hl in Hr.
      destruct (op_row_counter _ _ _ Hr) as (l1 & E & ? & _ & ? & ? & _).
      { intros k ->. by apply (Hd (OpDelete k)); [left|]. }
      exists l1. by rewrite E.
    - exists l. by rewrite (op_apply_key _ _ _ _ Ha Hk). }
  destruct (IH (op_exec t op) l1) as (l' & ? & ? & ? & ?); [set_solver|done|].
  exists l'. split_and!; [done|lia|congruence|auto].
Qed.

(** Once the counter has passed [c], no operation conditioned on [c] succeeds. *)
Lemma stale_op_fails op t c l :
  t !! op_key op = Some l → op_expects op = Some c → (c < l_counter l)%N →
  op_apply op t = None.
Proof.
  intros Hl He Hc. destruct (op_apply op t) as [t'|] eqn:Ha; [|done].
  apply op_apply_row in Ha. rewrite Hl in Ha.
  pose proof (op_row_expects _ _ _ _ Ha He) as Hx. simpl in Hx. simplify_eq. lia.
Qed.

(** What removes a row, and what changes its checkpoint. *)
Lemma op_removes op t t' k l :
  op_apply op t = Some t' → t !! k = Some l → t' !! k = None → op = OpDelete k ∧ l_completed l = true.
Proof.
  intros Ha Hl Hn. destruct (decide (k = op_key op)) as [->|Hk];
    [|rewrite (op_apply_key _ _ _ _ Ha Hk) in Hn; congruence].
  pose proof (op_apply_row _ _ _ Ha) as Hr. rewrite Hl, Hn in Hr.
  destruct op; simpl in *; repeat case_match; by simplify_eq.
Qed.

Lemma held_at_spec o c l : held_at o c l = true ↔ l_counter l = c ∧ l_owner l = Some o.
Proof. unfold held_at. by rewrite andb_true_iff, N.eqb_eq, bool_decide_eq_true. Qed.

Lemma op_checkpoints op t t' k l l' :
  op_apply op t = Some t' → t !! k = Some l → t' !! k = Some l' → l_checkpoint l' ≠ l_checkpoint l →
  ∃ o q, op = OpCheckpoint k o (l_counter l) q ∧ l_owner l = Some o ∧ l_checkpoint l' = Some q.
Proof.
  intros Ha Hl Hn Hcp. destruct (decide (k = op_key op)) as [->|Hk];
    [|rewrite (op_apply_key _ _ _ _ Ha Hk) in Hn; congruence].
  pose proof (op_apply_row _ _ _ Ha) as Hr. rewrite Hl, Hn in Hr.
  destruct op as [| | | |k o c q| | | |]; simpl in *; repeat case_match; simplify_eq/=.
  match goal with H : held_at _ _ _ = true |- _ => apply held_at_spec in H as [<- Ho] end.
  by exists o, q.
Qed.

Lemma op_completes op t t' k l l' :
  op_apply op t = Some t' → t !! k = Some l → t' !! k = Some l' → l_completed l' ≠ l_completed l →
  ∃ o, op = OpComplete k o (l_counter l) ∧ l_owner l = Some o ∧ l_completed l' = true.
Proof.
  intros Ha Hl Hn Hcp. destruct (decide (k = op_key op)) as [->|Hk];
    [|rewrite (op_apply_key _ _ _ _ Ha Hk) in Hn; congruence].
  pose proof (op_apply_row _ _ _ Ha) as Hr. rewrite Hl, Hn in Hr.
  destruct op as [| | | | |k o c| | |]; simpl in *; repeat case_match; simplify_eq/=.
  match goal with H : held_at _ _ _ = true |- _ => apply held_at_spec in H as [<- Ho] end.
  by exists o.
Qed.

(** What stays of a row that stays. *)
Lemma op_moves op t t' k l l' :
  op_apply op t = Some t' → t !! k = Some l → t' !! k = Some l' →
  (l_counter l ≤ l_counter l')%N ∧ l_parents l' = l_parents l ∧
  (l_completed l = true → l_completed l' = true) ∧
  (l_owner l' ≠ l_owner l → (l_counter l < l_counter l')%N).
Proof.
  intros Ha Hl Hl'. destruct (decide (k = op_key op)) as [->|Hk];
    [|rewrite (op_apply_key _ _ _ _ Ha Hk) in Hl'; simplify_eq; by split_and!].
  pose proof (op_apply_row _ _ _ Ha) as Hr. rewrite Hl, Hl' in Hr.
  destruct op; simpl in *; repeat case_match; simplify_eq/=; (split_and!; [lia|done|done|]);
    first [done|intros _; lia].
Qed.

(** How a row comes to be. *)
Lemma op_creates op t t' k l' :
  op_apply op t = Some t' → t !! k = None → t' !! k = Some l' →
  (∃ ps cp, op = OpPublish k ps cp ∧ l' = fresh_lease k None 0 cp ps) ∨
  ∃ o, l' = fresh_lease k (Some o) 1 None [].
Proof.
  intros Ha Hl Hl'. destruct (decide (k = op_key op)) as [->|Hk];
    [|rewrite (op_apply_key _ _ _ _ Ha Hk) in Hl'; congruence].
  pose proof (op_apply_row _ _ _ Ha) as Hr. rewrite Hl, Hl' in Hr.
  destruct op; simpl in *; repeat case_match; simplify_eq/=; eauto.
Qed.
