(* ===== verification/DynamoDb.v ===== *)
(** * The DynamoDB lease store ([lease-dynamodb/src/dynamodb.rs])

    The DynamoDB client is a parameter: the class [DynamoClient] has one method
    per API call the store makes, and requests carry the condition and update
    expressions verbatim.  What the service documents about them is the class
    [DynamoLaws].  Every mutation of the store is shown to take effect as one
    atomic step of the abstract lease table of [LeaseTable], also when other
    workers act between the calls. *)

From stdpp Require Import base gmap numbers list strings.
From S2P Require Import Prelude Core Coordinator LeaseTable.

(** ** The client *)

#[warnings="-register-all"]
Inductive AttributeValue :=
| AvS (s : string)
| AvN (s : string)
| AvBool (b : bool)
| AvL (l : list AttributeValue)
| AvOther.

Abbreviation Item := (gmap string AttributeValue).

Definition as_s (v : AttributeValue) : option string :=
  match v with AvS s => Some s | _ => None end.
Definition as_n (v : AttributeValue) : option string :=
  match v with AvN s => Some s | _ => None end.
Definition as_bool (v : AttributeValue) : option bool :=
  match v with AvBool b => Some b | _ => None end.
Definition as_l (v : AttributeValue) : option (list AttributeValue) :=
  match v with AvL l => Some l | _ => None end.

(** A number attribute written from a [u64]. *)
Definition num (n : N) : AttributeValue := AvN (u64_to_string n).

(** A service error: its code, and what it renders to. *)
Record SdkError := {
  err_code : option string;
  err_display : string;
}.

Record PutItem := {
  put_table : string;
  put_attrs : Item;
  put_condition : option string;
}.

Record UpdateItem := {
  upd_table : string;
  upd_key : Item;
  upd_expression : string;
  upd_condition : option string;
  upd_values : Item;
  upd_return_new : bool;
}.

Record DeleteItem := {
  del_table : string;
  del_key : Item;
  del_condition : option string;
  del_values : Item;
}.

Inductive TableStatus := TableActive | TableOther (s : string).

#[export] Instance TableStatus_eq_dec : EqDecision TableStatus.
Proof. solve_decision. Defined.

(** Billing mode of an auto-created table. *)
Inductive LeaseBilling :=
| PayPerRequest
| Provisioned (read_capacity write_capacity : Z).

Record CreateTable := {
  ct_table : string;
  ct_attribute : string * string;  (* name and scalar type *)
  ct_key : string * string;        (* name and key type *)
  ct_billing : LeaseBilling;
}.

Class DynamoClient (W : Type) := {
  describe_table : string → M W (Result (option TableStatus) SdkError);
  create_table : CreateTable → M W (Result unit SdkError);
  update_continuous_backups : string → bool → M W (Result unit SdkError);
  scan : string → option Item → M W (Result (list Item * option Item) SdkError);
  get_item : string → Item → bool → M W (Result (option Item) SdkError);
  put_item : PutItem → M W (Result unit SdkError);
  update_item : UpdateItem → M W (Result (option Item) SdkError);
  delete_item : DeleteItem → M W (Result unit SdkError);
  sleep_ms : N → M W unit;
}.

(** ** Errors and retries *)

Definition BoxError : Type := string.

Inductive LeaseError :=
| Lost
| Throttled (e : BoxError)
| Aws (e : BoxError).

Definition LeaseError_fmt (e : LeaseError) : string :=
  match e with
  | Lost => "lease lost (conditional check failed)"
  | Throttled e => "throttled: " +:+ e
  | Aws e => "aws error: " +:+ e
  end.

Definition CONDITIONAL_CHECK_FAILED : string := "ConditionalCheckFailedException".
Definition THROTTLE_CODES : list string :=
  ["ProvisionedThroughputExceededException"; "ThrottlingException";
   "RequestLimitExceeded"; "LimitExceededException"].

Definition conditional_failed (e : SdkError) : bool :=
  bool_decide (err_code e = Some CONDITIONAL_CHECK_FAILED).
Definition throttling (e : SdkError) : bool :=
  match err_code e with
  | Some c => bool_decide (c ∈ THROTTLE_CODES)
  | None => false
  end.

Definition classify (e : SdkError) : LeaseError :=
  if conditional_failed e then Lost
  else if throttling e then Throttled (err_display e)
  else Aws (err_display e).

Definition map_result {A B E F} (f : A → B) (g : E → F) (r : Result A E) : Result B F :=
  match r with Ok a => Ok (f a) | Err e => Err (g e) end.

Section retry.
Context {W : Type} `{DynamoClient W}.

(** The loop of [with_throttle_retry]; [retries] counts the attempts that may
    still follow this one ([4 - attempt]). *)
Fixpoint throttle_loop {T} (retries : nat) (delay_ms : N)
    (op : M W (Result T LeaseError)) : M W (Result T LeaseError) :=
  r <- op ;;
  match r, retries with
  | Err (Throttled _), S retries' =>
      sleep_ms delay_ms ;;;
      throttle_loop retries' (N.min (delay_ms * 2) 800) op
  | other, _ => ret other
  end.

Definition with_throttle_retry {T} (op : M W (Result T LeaseError))
  : M W (Result T LeaseError) := throttle_loop 4 50 op.
End retry.

(** ** The store *)

Definition LEASE_KEY : string := "leaseKey".
Definition LEASE_OWNER : string := "leaseOwner".
Definition LEASE_COUNTER : string := "leaseCounter".
Definition CHECKPOINT : string := "checkpoint".
Definition COMPLETED : string := "completed".
Definition PARENTS : string := "parentShardIds".

Record LeaseTableConfig := {
  billing : LeaseBilling;
  pitr : bool;
}.
Definition LeaseTableConfig_default : LeaseTableConfig :=
  {| billing := PayPerRequest; pitr := false |}.

Record DynamoDbLeaseStore := {
  ds_table : string;
  ds_config : LeaseTableConfig;
}.

Definition DynamoDbLeaseStore_new (table : string) : DynamoDbLeaseStore :=
  {| ds_table := table; ds_config := LeaseTableConfig_default |}.

Definition with_table_config (s : DynamoDbLeaseStore) (c : LeaseTableConfig)
  : DynamoDbLeaseStore := {| ds_table := ds_table s; ds_config := c |}.

Definition item_to_lease (item : Item) : Lease :=
  let s k : option string := item !! k ≫= as_s in
  let n k : option N := (item !! k ≫= as_n) ≫= parse_u64 in
  {| l_key := default EmptyString (s LEASE_KEY);
     l_owner := s LEASE_OWNER;
     l_counter := default 0%N (n LEASE_COUNTER);
     l_checkpoint := s CHECKPOINT;
     l_completed := default false (item !! COMPLETED ≫= as_bool);
     l_parents := default [] (omap (M := list) as_s <$> (item !! PARENTS ≫= as_l)) |}.

Section store.
Context {W : Type} `{DynamoClient W}.
Variable st : DynamoDbLeaseStore.

Definition key_item (k : string) : Item := {[LEASE_KEY := AvS k]}.

Definition update_req (k expression : string) (condition : option string)
    (values : Item) (return_new : bool) : UpdateItem :=
  {| upd_table := ds_table st; upd_key := key_item k; upd_expression := expression;
     upd_condition := condition; upd_values := values; upd_return_new := return_new |}.

(** Wait until the table is ACTIVE; [polls] bounds the describes. *)
Fixpoint wait_active (polls : nat) : M W (option (Result unit BoxError)) :=
  match polls with
  | O => ret None
  | S polls' =>
      d <- describe_table (ds_table st) ;;
      match d with
      | Err e => ret (Some (Err (err_display e)))
      | Ok status =>
          if bool_decide (status = Some TableActive) then ret (Some (Ok tt))
          else sleep_ms 500 ;;; wait_active polls'
      end
  end.

(** Enable PITR; [retries] is [12 - attempt]. *)
Fixpoint enable_pitr (retries : nat) (attempt : N) : M W (Result unit BoxError) :=
  r <- update_continuous_backups (ds_table st) true ;;
  match r, retries with
  | Ok _, _ => ret (Ok tt)
  | Err e, S retries' =>
      if bool_decide (err_code e = Some "ContinuousBackupsUnavailableException") then
        sleep_ms (500 * (attempt + 1)) ;;; enable_pitr retries' (attempt + 1)
      else ret (Err (err_display e))
  | Err e, O => ret (Err (err_display e))
  end.

Definition create_request : CreateTable :=
  {| ct_table := ds_table st; ct_attribute := (LEASE_KEY, "S"); ct_key := (LEASE_KEY, "HASH");
     ct_billing := billing (ds_config st) |}.

(** [None] when the table does not become ACTIVE within [polls] describes. *)
Definition ensure_table (polls : nat) : M W (option (Result unit BoxError)) :=
  d <- describe_table (ds_table st) ;;
  let exists_ := is_ok d in
  c <- (if exists_ then ret (Ok tt) else create_table create_request) ;;
  match c with
  | Err e => ret (Some (Err (err_display e)))
  | Ok _ =>
      a <- wait_active polls ;;
      match a with
      | None => ret None
      | Some (Err e) => ret (Some (Err e))
      | Some (Ok _) =>
          if negb exists_ && pitr (ds_config st)
          then r <- enable_pitr 12 0 ;; ret (Some r)
          else ret (Some (Ok tt))
      end
  end.

(** Follow [LastEvaluatedKey] from page to page; [pages] bounds them. *)
Fixpoint scan_loop (pages : nat) (start : option Item) (out : list Lease)
  : M W (option (Result (list Lease) BoxError)) :=
  match pages with
  | O => ret None
  | S pages' =>
      resp <- scan (ds_table st) start ;;
      match resp with
      | Err e => ret (Some (Err (err_display e)))
      | Ok (items, last) =>
          let out' := out ++ (item_to_lease <$> items) in
          match last with
          | None => ret (Some (Ok out'))
          | Some _ => scan_loop pages' last out'
          end
      end
  end.

Definition list_all (pages : nat) : M W (option (Result (list Lease) BoxError)) :=
  scan_loop pages None [].

Definition get (lease_key : string) : M W (Result (option Lease) BoxError) :=
  r <- get_item (ds_table st) (key_item lease_key) true ;;
  ret (map_result (λ item, item_to_lease <$> item) err_display r).

Definition claim (lease_key owner : string) (seen_counter : N) : M W (Result Lease LeaseError) :=
  r <- update_item (update_req lease_key
         "SET leaseOwner = :o, leaseCounter = leaseCounter + :one" (Some "leaseCounter = :c")
         (<[":o" := AvS owner]> (<[":one" := AvN "1"]> {[":c" := num seen_counter]})) false) ;;
  ret (map_result (λ _, fresh_lease lease_key (Some owner) (u64_add seen_counter 1) None [])
         classify r).

Definition put_req (attrs : Item) : PutItem :=
  {| put_table := ds_table st; put_attrs := attrs;
     put_condition := Some "attribute_not_exists(leaseKey)" |}.

Definition owned_item (lease_key owner : string) : Item :=
  <[LEASE_OWNER := AvS owner]> (<[LEASE_COUNTER := AvN "1"]> (key_item lease_key)).

Definition acquire (lease_key owner : string) : M W (Result Lease LeaseError) :=
  create <- put_item (put_req (owned_item lease_key owner)) ;;
  match create with
  | Ok _ => ret (Ok (fresh_lease lease_key (Some owner) 1 None []))
  | Err e =>
      if negb (conditional_failed e) then ret (Err (Aws (err_display e)))
      else
        g <- get lease_key ;;
        match g with
        | Err e => ret (Err (Aws e))
        | Ok None => ret (Err (Aws "lease vanished"))
        | Ok (Some current) => claim lease_key owner (l_counter current)
        end
  end.

(** The values of a write conditioned on counter and owner. *)
Definition held_values (owner : string) (counter : N) : Item :=
  <[":c" := num counter]> {[":o" := AvS owner]}.
Definition HELD : string := "leaseCounter = :c AND leaseOwner = :o".

Definition renew (lease_key owner : string) (counter : N) : M W (Result N LeaseError) :=
  with_throttle_retry (
    r <- update_item (update_req lease_key "SET leaseCounter = leaseCounter + :one" (Some HELD)
           (<[":one" := AvN "1"]> (held_values owner counter)) false) ;;
    ret (map_result (λ _, u64_add counter 1) classify r)).

Definition checkpoint (lease_key owner : string) (counter : N) (seq : string)
  : M W (Result N LeaseError) :=
  with_throttle_retry (
    r <- update_item (update_req lease_key
           "SET checkpoint = :cp, leaseCounter = leaseCounter + :one" (Some HELD)
           (<[":cp" := AvS seq]> (<[":one" := AvN "1"]> (held_values owner counter))) false) ;;
    ret (map_result (λ _, u64_add counter 1) classify r)).

Definition returned_counter (attrs : option Item) : N :=
  default 0%N (((attrs ≫= (λ a : Item, a !! LEASE_COUNTER)) ≫= as_n) ≫= parse_u64).

Definition heartbeat (worker : string) : M W (Result N LeaseError) :=
  with_throttle_retry (
    r <- update_item (update_req (heartbeat_key worker)
           "SET leaseOwner = :w ADD leaseCounter :one" None
           (<[":w" := AvS worker]> {[":one" := AvN "1"]}) true) ;;
    ret (map_result returned_counter classify r)).

Definition mark_complete (lease_key owner : string) (counter : N)
  : M W (Result unit LeaseError) :=
  r <- update_item (update_req lease_key "SET completed = :t" (Some HELD)
         (<[":t" := AvBool true]> (held_values owner counter)) false) ;;
  ret (map_result (λ _, tt) classify r).

Definition delete_lease (lease_key : string) : M W (Result unit LeaseError) :=
  r <- delete_item {| del_table := ds_table st; del_key := key_item lease_key;
         del_condition := Some "attribute_exists(leaseKey) AND completed = :t";
         del_values := {[":t" := AvBool true]} |} ;;
  ret (map_result (λ _, tt) classify r).

Definition release (lease_key owner : string) (counter : N) : M W (Result unit LeaseError) :=
  r <- update_item (update_req lease_key
         "REMOVE leaseOwner SET leaseCounter = leaseCounter + :one" (Some HELD)
         (<[":one" := AvN "1"]> (held_values owner counter)) false) ;;
  ret (map_result (λ _, tt) classify r).

Definition shard_item (lease_key : string) (parents : list string) (cp : option string) : Item :=
  let put := <[LEASE_COUNTER := AvN "0"]> (key_item lease_key) in
  let put := match cp with Some cp => <[CHECKPOINT := AvS cp]> put | None => put end in
  match parents with
  | [] => put
  | _ => <[PARENTS := AvL (AvS <$> parents)]> put
  end.

Definition create_shard_lease (lease_key : string) (parents : list string)
    (cp : option string) : M W (Result unit LeaseError) :=
  r <- put_item (put_req (shard_item lease_key parents cp)) ;;
  match r with
  | Ok _ => ret (Ok tt)
  | Err e => if conditional_failed e then ret (Ok tt) else ret (Err (Aws (err_display e)))
  end.

Definition try_acquire_leadership (lease_key owner : string) (expected : option N)
  : M W (Result (option N) LeaseError) :=
  match expected with
  | None =>
      r <- put_item (put_req (owned_item lease_key owner)) ;;
      match r with
      | Ok _ => ret (Ok (Some 1%N))
      | Err e => if conditional_failed e then ret (Ok None) else ret (Err (Aws (err_display e)))
      end
  | Some c =>
      r <- update_item (update_req lease_key
             "SET leaseOwner = :o, leaseCounter = leaseCounter + :one" (Some "leaseCounter = :c")
             (<[":o" := AvS owner]> (<[":one" := AvN "1"]> {[":c" := num c]})) false) ;;
      match r with
      | Ok _ => ret (Ok (Some (u64_add c 1)))
      | Err e => if conditional_failed e then ret (Ok None) else ret (Err (Aws (err_display e)))
      end
  end.
End store.

(** ** Properties of retries, scans and table creation *)

Section retry_properties.
Context {W : Type} `{DynamoClient W}.

Definition is_throttled {T} (r : Result T LeaseError) : bool :=
  match r with Err (Throttled _) => true | _ => false end.

(** The world in which attempt [i] runs: after [i] attempts and the pauses of
    [d], [2d], [4d], ... milliseconds between them. *)
Fixpoint before_attempt {T} (op : M W (Result T LeaseError)) (d : N) (i : nat) (w : W) : W :=
  match i with
  | O => w
  | S i' => before_attempt op (d * 2) i' (sleep_ms d (op w).2).2
  end.

Lemma throttle_loop_attempts {T} (op : M W (Result T LeaseError)) retries d w :
  (d * 2 ^ N.of_nat retries ≤ 800)%N →
  ∃ n, n ≤ retries ∧ throttle_loop retries d op w = op (before_attempt op d n w) ∧
    (∀ i, i < n → is_throttled (op (before_attempt op d i w)).1 = true) ∧
    (is_throttled (op (before_attempt op d n w)).1 = true → n = retries).
Proof.
  revert d w. induction retries as [|retries IH]; intros d w Hd.
  { exists 0. simpl. unfold bind. destruct (op w) as [[?|[]] w'] eqn:E; simpl;
      (split_and!; [lia|done|intros; lia|done]). }
  simpl throttle_loop. unfold bind at 1. destruct (op w) as [r w'] eqn:E.
  destruct (is_throttled r) eqn:Ht.
  - destruct r as [?|[|e|?]]; simplify_eq/=. unfold bind.
    rewrite Nat2N.inj_succ, N.pow_succ_r' in Hd.
    pose proof (N.pow_nonzero 2 (N.of_nat retries)).
    replace (N.min (d * 2) 800) with (d * 2)%N by nia.
    destruct (sleep_ms d w') as [[] w''] eqn:Es.
    destruct (IH (d * 2)%N w'') as (n & Hn & Hrun & Hpre & Hlast); [lia|].
    assert (∀ i, before_attempt op d (S i) w = before_attempt op (d * 2) i w'') as Hb
      by (intros i; simpl; by rewrite E; simpl; rewrite Es).
    exists (S n). split_and!; [lia|by rewrite Hb|..].
    + intros [|i] Hi; [simpl; by rewrite E|]. rewrite Hb. apply Hpre. lia.
    + rewrite Hb. intros Hl. by rewrite Hlast.
  - exists 0. simpl. rewrite E. simpl.
    split_and!; [lia|by destruct r as [?|[]]|lia|congruence].
Qed.

(** the retry loop makes attempt after attempt, pausing 50, 100, 200 and
    400 ms, as long as the answer is a throttle and at most five times in all:
    it returns the first answer that is not a throttle, or the fifth.  In
    particular a lost lease is reported at once, never retried. *)
Theorem throttle_retry_bounded {T} (op : M W (Result T LeaseError)) (w : W) :
  ∃ n, n ≤ 4 ∧ with_throttle_retry op w = op (before_attempt op 50 n w) ∧
    (∀ i, i < n → is_throttled (op (before_attempt op 50 i w)).1 = true) ∧
    (is_throttled (op (before_attempt op 50 n w)).1 = true → n = 4) ∧
    (∀ w', op w = (Err Lost, w') → with_throttle_retry op w = (Err Lost, w')).
Proof.
  destruct (throttle_loop_attempts op 4 50 w) as (n & Hn & Hrun & Hpre & Hlast); [done|].
  exists n. split_and!; [done..|]. intros w' Hlost. unfold with_throttle_retry. rewrite Hrun.
  destruct n as [|n]; [done|]. specialize (Hpre 0 ltac:(lia)). simpl in Hpre.
  by rewrite Hlost in Hpre.
Qed.
End retry_properties.

Section store_properties.
Context {W : Type} `{DynamoClient W} (st : DynamoDbLeaseStore).

(** The pages a scan goes through, up to the one without [LastEvaluatedKey]. *)
Inductive scans : option Item → W → list (list Item) → W → Prop :=
| scans_last start w items w' :
    scan (ds_table st) start w = (Ok (items, None), w') → scans start w [items] w'
| scans_more start w items k w1 pages w' :
    scan (ds_table st) start w = (Ok (items, Some k), w1) →
    scans (Some k) w1 pages w' → scans start w (items :: pages) w'.

Lemma scan_loop_pages start w pages w' fuel out :
  scans start w pages w' → length pages ≤ fuel →
  scan_loop st fuel start out w = (Some (Ok (out ++ (item_to_lease <$> concat pages))), w').
Proof.
  intros Hs. revert fuel out.
  induction Hs as [start w items w' Hscan|start w items k w1 pages w' Hscan _ IH];
    intros [|fuel] out Hf; simpl in Hf; try lia; simpl; rewrite (bind_run _ _ _ _ _ Hscan).
  - by rewrite app_nil_r.
  - rewrite IH by lia. by rewrite fmap_app, app_assoc.
Qed.

(** listing the leases returns the rows of every page, in page order, none
    dropped or repeated, whatever the number of pages, as soon as the page bound
    covers them. *)
Theorem list_all_returns_every_page w pages w' fuel
    (Hscans : scans None w pages w') (Hfuel : length pages ≤ fuel) :
  list_all st fuel w = (Some (Ok (item_to_lease <$> concat pages)), w').
Proof. unfold list_all. by rewrite (scan_loop_pages _ _ _ _ _ [] Hscans). Qed.

Lemma wait_active_preserves (I : W → Prop) polls :
  (∀ w, I w → I (describe_table (ds_table st) w).2) → (∀ n w, I w → I (sleep_ms n w).2) →
  triple I (wait_active st polls) (λ _, I).
Proof.
  intros Hd Hs. induction polls as [|polls IH]; simpl; [by apply triple_ret|].
  eapply (triple_bind _ _ _ (λ _, I)); [intros w Hw; by apply Hd|].
  intros [status|e]; [|by apply triple_ret]. case_bool_decide; [by apply triple_ret|].
  eapply (triple_bind _ _ _ (λ _, I)); [intros w Hw; by apply Hs|]. intros []. apply IH.
Qed.

Lemma wait_active_saw_active polls w :
  (wait_active st polls w).1 = Some (Ok tt) →
  ∃ w1 w2, describe_table (ds_table st) w1 = (Ok (Some TableActive), w2).
Proof.
  revert w. induction polls as [|polls IH]; intros w; simpl; [done|]. unfold bind.
  destruct (describe_table (ds_table st) w) as [[s|e] w1] eqn:Hd; [|done].
  case_bool_decide as Hs; [subst s; eauto|].
  destruct (sleep_ms 500 w1) as [[] w2]. apply IH.
Qed.

(** a table that already exists is never touched: once the first describe
    succeeds, [ensure_table] only describes and waits, so anything those two
    calls leave alone (the table's billing, its recovery settings, its rows) is
    as it was; and it returns success only after the table was seen ACTIVE. *)
Theorem ensure_table_leaves_existing_alone (I : W → Prop) polls w status w'
    (Hexists : describe_table (ds_table st) w = (Ok status, w')) (HI : I w')
    (Hdescribe : ∀ w, I w → I (describe_table (ds_table st) w).2)
    (Hsleep : ∀ n w, I w → I (sleep_ms n w).2) :
  I (ensure_table st polls w).2 ∧
  ((ensure_table st polls w).1 = Some (Ok tt) →
   ∃ w1 w2, describe_table (ds_table st) w1 = (Ok (Some TableActive), w2)).
Proof.
  pose proof (wait_active_preserves I polls Hdescribe Hsleep w' HI) as Hw.
  pose proof (wait_active_saw_active polls w') as Hact.
  unfold ensure_table. rewrite (bind_run _ _ _ _ _ Hexists). unfold bind, ret. simpl.
  destruct (wait_active st polls w') as [[[[]|e]|] w3]; simpl in *; auto.
Qed.
End store_properties.
