(* ===== verification/LeaseRefine.v ===== *)
(** * The DynamoDB store implements the abstract lease table

    [lease_item] is the stored form of a lease; [DynamoLaws] is what the service
    documents about the calls and expressions the store uses, with other writers
    allowed between two calls.  Each operation of [DynamoDb] then takes effect as
    one atomic [LeaseOp] of [LeaseTable]. *)

From stdpp Require Import base gmap numbers list strings.
From S2P Require Import Prelude Core Coordinator LeaseTable DynamoDb.

(** ** Stored rows *)

Definition insert_opt (k : string) (v : option AttributeValue) (item : Item) : Item :=
  match v with Some v => <[k := v]> item | None => item end.

Definition lease_item (l : Lease) : Item :=
  insert_opt LEASE_OWNER (AvS <$> l_owner l)
  (insert_opt CHECKPOINT (AvS <$> l_checkpoint l)
  (insert_opt COMPLETED (if l_completed l then Some (AvBool true) else None)
  (insert_opt PARENTS (match l_parents l with [] => None | ps => Some (AvL (AvS <$> ps)) end)
  (<[LEASE_COUNTER := num (l_counter l)]> {[LEASE_KEY := AvS (l_key l)]})))).

Lemma lookup_insert_opt k v item j :
  insert_opt k v item !! j =
    if decide (k = j) then match v with Some v => Some v | None => item !! j end
    else item !! j.
Proof.
  destruct v as [v|]; simpl; [by rewrite lookup_insert|]. by destruct (decide _).
Qed.

(** Reads every attribute of a stored row. *)
Ltac read_item :=
  unfold lease_item, key_item in *;
  repeat first
    [ rewrite lookup_insert_opt | rewrite lookup_insert | rewrite lookup_singleton ];
  repeat (case_decide; [simplify_eq|]); try done.

Lemma lease_item_key l : lease_item l !! LEASE_KEY = Some (AvS (l_key l)).
Proof. by read_item. Qed.
Lemma lease_item_counter l : lease_item l !! LEASE_COUNTER = Some (num (l_counter l)).
Proof. by read_item. Qed.
Lemma lease_item_owner l : lease_item l !! LEASE_OWNER = AvS <$> l_owner l.
Proof. read_item. by destruct (l_owner l). Qed.
Lemma lease_item_completed l :
  lease_item l !! COMPLETED = if l_completed l then Some (AvBool true) else None.
Proof. read_item. by destruct (l_completed l). Qed.
Lemma lease_item_checkpoint l : lease_item l !! CHECKPOINT = AvS <$> l_checkpoint l.
Proof. read_item. by destruct (l_checkpoint l). Qed.
Lemma lease_item_parents l :
  lease_item l !! PARENTS = match l_parents l with [] => None | ps => Some (AvL (AvS <$> ps)) end.
Proof. read_item. by destruct (l_parents l). Qed.
Lemma lease_item_other l k :
  k ∉ [LEASE_KEY; LEASE_COUNTER; LEASE_OWNER; COMPLETED; CHECKPOINT; PARENTS] →
  lease_item l !! k = None.
Proof. intros Hk. read_item; by (destruct Hk; set_solver). Qed.

(** What a scan reads of a stored row, whatever its counter. *)
Lemma lease_item_read l :
  let l' := item_to_lease (lease_item l) in
  l_key l' = l_key l ∧ l_checkpoint l' = l_checkpoint l ∧ l_completed l' = l_completed l.
Proof.
  unfold item_to_lease. cbn. rewrite lease_item_key, lease_item_checkpoint, lease_item_completed.
  by destruct (l_checkpoint l), (l_completed l).
Qed.

(** ** What the service documents *)

Abbreviation Rows := (gmap string Item).

(** How a conditional write can end: applied; refused with
    [ConditionalCheckFailedException] because the condition was false; failed
    without effect; or failed with an error that says nothing about the write
    (never a throttle), which then went through. *)
Inductive write_outcome {A} (t0 : Rows) (holds : bool) (t1 : Rows)
  : Result A SdkError → Rows → Prop :=
| wo_applied a : holds = true → write_outcome t0 holds t1 (Ok a) t1
| wo_refused e : holds = false → conditional_failed e = true →
    write_outcome t0 holds t1 (Err e) t0
| wo_failed e : conditional_failed e = false → write_outcome t0 holds t1 (Err e) t0
| wo_unknown e : holds = true → conditional_failed e = false → throttling e = false →
    write_outcome t0 holds t1 (Err e) t1.

(** Table rows that hold exactly the leases of an abstract table. *)
Definition represents (t : Rows) (A : Table) : Prop :=
  t = lease_item <$> A ∧ ∀ k l, A !! k = Some l → l_key l = k.

Section laws.
Context (W : Type) `{DynamoClient W} (table : string).

Class DynamoLaws := {
  rows : W → Rows;
  eval_cond : string → Item → Item → bool;    (* expression, values, row *)
  eval_update : string → Item → Item → Item;
  (* what other writers may make of the table during a call from [w] to [w'] *)
  others : W → W → Rows → Prop;
  other_op : LeaseOp → Prop;                  (* the steps of the table they take *)

  others_lawful w w' t A : others w w' t → represents (rows w) A →
    ∃ ops, Forall other_op ops ∧ represents t (exec ops A);

  cond_absent vals it :
    eval_cond "attribute_not_exists(leaseKey)" vals it =
      match it !! LEASE_KEY with None => true | Some _ => false end;
  cond_counter vals it c :
    vals !! ":c" = Some (num c) →
    (∀ n, it !! LEASE_COUNTER = Some (num n) →
       eval_cond "leaseCounter = :c" vals it = (n =? c)%N) ∧
    (it !! LEASE_COUNTER = None → eval_cond "leaseCounter = :c" vals it = false);
  cond_held vals it c o :
    vals !! ":c" = Some (num c) → vals !! ":o" = Some (AvS o) →
    (∀ n, it !! LEASE_COUNTER = Some (num n) →
       eval_cond HELD vals it =
         (n =? c)%N && bool_decide (it !! LEASE_OWNER ≫= as_s = Some o)) ∧
    (it !! LEASE_COUNTER = None → eval_cond HELD vals it = false);
  cond_completed vals it :
    vals !! ":t" = Some (AvBool true) →
    eval_cond "attribute_exists(leaseKey) AND completed = :t" vals it =
      match it !! LEASE_KEY, it !! COMPLETED with
      | Some _, Some (AvBool true) => true
      | _, _ => false
      end;

  upd_claim vals it n o :
    it !! LEASE_COUNTER = Some (num n) → vals !! ":o" = Some (AvS o) →
    vals !! ":one" = Some (num 1) →
    eval_update "SET leaseOwner = :o, leaseCounter = leaseCounter + :one" vals it =
      <[LEASE_OWNER := AvS o]> (<[LEASE_COUNTER := num (n + 1)]> it);
  upd_renew vals it n :
    it !! LEASE_COUNTER = Some (num n) → vals !! ":one" = Some (num 1) →
    eval_update "SET leaseCounter = leaseCounter + :one" vals it =
      <[LEASE_COUNTER := num (n + 1)]> it;
  upd_checkpoint vals it n q :
    it !! LEASE_COUNTER = Some (num n) → vals !! ":cp" = Some (AvS q) →
    vals !! ":one" = Some (num 1) →
    eval_update "SET checkpoint = :cp, leaseCounter = leaseCounter + :one" vals it =
      <[CHECKPOINT := AvS q]> (<[LEASE_COUNTER := num (n + 1)]> it);
  upd_complete vals it :
    vals !! ":t" = Some (AvBool true) →
    eval_update "SET completed = :t" vals it = <[COMPLETED := AvBool true]> it;
  upd_release vals it n :
    it !! LEASE_COUNTER = Some (num n) → vals !! ":one" = Some (num 1) →
    eval_update "REMOVE leaseOwner SET leaseCounter = leaseCounter + :one" vals it =
      delete LEASE_OWNER (<[LEASE_COUNTER := num (n + 1)]> it);
  (* ADD creates the attribute when the row does not have it *)
  upd_heartbeat vals it n w :
    (it !! LEASE_COUNTER = Some (num n) ∨ it !! LEASE_COUNTER = None ∧ n = 0%N) →
    vals !! ":w" = Some (AvS w) → vals !! ":one" = Some (num 1) →
    eval_update "SET leaseOwner = :w ADD leaseCounter :one" vals it =
      <[LEASE_OWNER := AvS w]> (<[LEASE_COUNTER := num (n + 1)]> it);

  sleep_law ms w : let w' := (sleep_ms ms w).2 in others w w' (rows w');
  scan_law start w : let w' := (scan table start w).2 in others w w' (rows w');
  (* a consistent read sees the row as it is at some moment *)
  get_law k w r w' :
    get_item table (key_item k) true w = (r, w') →
    others w w' (rows w') ∧ match r with Ok it => it = rows w' !! k | Err _ => True end;
  put_law k attrs cond w r w' :
    put_item {| put_table := table; put_attrs := attrs; put_condition := Some cond |} w = (r, w') →
    attrs !! LEASE_KEY = Some (AvS k) →
    ∃ t0, others w w' t0 ∧
      write_outcome t0 (eval_cond cond ∅ (default ∅ (t0 !! k))) (<[k := attrs]> t0) r (rows w');
  (* an update of an absent row starts from its key; UPDATED_NEW returns the
     attributes that changed *)
  update_law k expr cond vals ret_new w r w' :
    update_item {| upd_table := table; upd_key := key_item k; upd_expression := expr;
                   upd_condition := cond; upd_values := vals; upd_return_new := ret_new |} w
      = (r, w') →
    ∃ t0, others w w' t0 ∧
      let new := eval_update expr vals (default (key_item k) (t0 !! k)) in
      write_outcome t0
        (match cond with
         | Some c => eval_cond c vals (default ∅ (t0 !! k))
         | None => true
         end) (<[k := new]> t0) r (rows w') ∧
      (ret_new = true → ∀ a, r = Ok a → ∃ ret, a = Some ret ∧
         ∀ attr v, new !! attr = Some v → default ∅ (t0 !! k) !! attr ≠ Some v →
                   ret !! attr = Some v);
  delete_law k cond vals w r w' :
    delete_item {| del_table := table; del_key := key_item k; del_condition := Some cond;
                   del_values := vals |} w = (r, w') →
    ∃ t0, others w w' t0 ∧
      write_outcome t0 (eval_cond cond vals (default ∅ (t0 !! k))) (delete k t0) r (rows w');
}.
End laws.
Arguments rows {W _ table _}.
Arguments others {W _ table _}.
Arguments other_op {W _ table _}.
Arguments eval_cond {W _ table _}.
Arguments eval_update {W _ table _}.

(** ** One call, one atomic step *)

(** The outcome of a call that was meant as [op], which found table [A] and left [A']. *)
Definition raw_atomic {X} (op : LeaseOp) (A A' : Table) (r : Result X SdkError) : Prop :=
  match r with
  | Ok _ => op_apply op A = Some A'
  | Err e =>
      if conditional_failed e then op_apply op A = None ∧ A' = A
      else A' = A ∨ (throttling e = false ∧ op_apply op A = Some A')
  end.

(** The same for the store's own result: [Lost] means the condition was false,
    a throttle that nothing was written, and [ok] relates the value returned to
    the table left behind. *)
Definition atomic {X} (op : LeaseOp) (ok : Table → X → Prop) (A A' : Table)
    (r : Result X LeaseError) : Prop :=
  match r with
  | Ok x => op_apply op A = Some A' ∧ ok A' x
  | Err Lost => op_apply op A = None ∧ A' = A
  | Err (Throttled _) => A' = A
  | Err (Aws _) => A' = A ∨ op_apply op A = Some A'
  end.

(** Either way the table is as it was, or the step was taken. *)
Lemma atomic_steps {A} op (ok : Table → A → Prop) T T' r :
  atomic op ok T T' r → T' = T ∨ op_apply op T = Some T'.
Proof. destruct r as [x|[]]; cbn; naive_solver. Qed.

Lemma raw_atomic_steps {A} op T T' (r : Result A SdkError) :
  raw_atomic op T T' r → T' = T ∨ op_apply op T = Some T'.
Proof. destruct r as [x|e]; cbn; [by auto|]. destruct (conditional_failed e); naive_solver. Qed.

Lemma raw_to_atomic {X Y} op A A' (f : X → Y) (ok : Table → Y → Prop) r :
  raw_atomic op A A' r → (∀ x, r = Ok x → ok A' (f x)) →
  atomic op ok A A' (map_result f classify r).
Proof.
  intros Hr Hok. destruct r as [x|e]; simpl in *; [by auto|].
  unfold classify. destruct (conditional_failed e); [done|].
  destruct (throttling e); [by destruct Hr as [?|[? _]]|]. destruct Hr as [?|[_ ?]]; auto.
Qed.

Definition row_ok (k : string) (row : option Lease) : Prop :=
  ∀ l, row = Some l → l_key l = k.

(** A request whose condition and effect are those of [op] on stored rows. *)
Definition implements (op : LeaseOp) (holds : option Item → bool)
    (effect : option Item → option Item) : Prop :=
  ∀ row, row_ok (op_key op) row →
    match op_row op row with
    | None => holds (lease_item <$> row) = false
    | Some row' => holds (lease_item <$> row) = true ∧ row_ok (op_key op) row' ∧
                   effect (lease_item <$> row) = lease_item <$> row'
    end.

Lemma represents_lookup t A k : represents t A → t !! k = lease_item <$> A !! k.
Proof. intros [-> _]. by rewrite lookup_fmap. Qed.

Lemma represents_apply t A op A' :
  represents t A → op_apply op A = Some A' → row_ok (op_key op) (A' !! op_key op) →
  represents (partial_alter (λ _, lease_item <$> A' !! op_key op) (op_key op) t) A'.
Proof.
  intros [-> Hk] Ha Hrow. split.
  - apply map_eq. intros k. destruct (decide (k = op_key op)) as [->|Hne].
    + by rewrite lookup_partial_alter_eq, lookup_fmap.
    + rewrite lookup_partial_alter_ne by done. rewrite !lookup_fmap.
      by rewrite (op_apply_key _ _ _ _ Ha Hne).
  - intros k l Hl. destruct (decide (k = op_key op)) as [->|Hne]; [by apply Hrow|].
    rewrite (op_apply_key _ _ _ _ Ha Hne) in Hl. by apply Hk.
Qed.

Lemma outcome_atomic {X} op holds effect (t0 t1 t' : Rows) A (r : Result X SdkError) :
  implements op holds effect → represents t0 A →
  t1 = partial_alter (λ _, effect (t0 !! op_key op)) (op_key op) t0 →
  write_outcome t0 (holds (t0 !! op_key op)) t1 r t' →
  ∃ A', represents t' A' ∧ raw_atomic op A A' r.
Proof.
  intros Himp Hrep -> Hout. rewrite (represents_lookup _ _ _ Hrep) in Hout.
  assert (row_ok (op_key op) (A !! op_key op)) as Hok.
  { intros l Hl. by apply (proj2 Hrep). }
  specialize (Himp _ Hok).
  destruct (op_row op (A !! op_key op)) as [row'|] eqn:Hrow.
  - destruct Himp as (Hh & Hok' & Heff). rewrite Hh in Hout.
    assert (∃ A', op_apply op A = Some A') as [A' Ha].
    { unfold op_apply. rewrite Hrow. destruct row'; eauto. }
    pose proof (op_apply_row _ _ _ Ha) as Hr. rewrite Hrow in Hr. simplify_eq.
    pose proof (represents_apply _ _ _ _ Hrep Ha Hok') as Hrep'.
    rewrite Heff in Hout.
    inversion Hout as [a Hh'|e Hh' He|e He|e Hh' He Ht]; subst; simpl; try done.
    + by exists A'.
    + exists A. split; [done|]. rewrite He. auto.
    + exists A'. split; [done|]. rewrite He. auto.
  - rewrite Himp in Hout.
    inversion Hout as [a Hh'|e Hh' He|e He|e Hh' He Ht]; subst; try done;
      (exists A; split; [done|]); simpl; rewrite He; [|by left].
    unfold op_apply. by rewrite Hrow.
Qed.

Section calls.
Context {W : Type} `{DynamoClient W} (table : string) `{!DynamoLaws W table}.

(** What is said of the table that a call finds, after other writers have been at the
    one before the call. *)
Class Meanwhile (via : W → W → Table → Table → Prop) := {
  via_others w w' t A : others w w' t → represents (rows (table := table) w) A →
    ∃ A', via w w' A A' ∧ represents t A';
  via_trans w1 w2 w3 A B C : via w1 w2 A B → via w2 w3 B C → via w1 w3 A C;
}.

(** They took steps of their own. *)
Definition by_others (w w' : W) (A A' : Table) : Prop :=
  ∃ ops, Forall (other_op (table := table)) ops ∧ A' = exec ops A.

#[export] Instance by_others_meanwhile : Meanwhile by_others.
Proof.
  split.
  - intros w w' t A Ho HA. destruct (others_lawful W table _ _ _ _ Ho HA) as (ops & Hops & Hrep).
    exists (exec ops A). split; [by exists ops|done].
  - intros w1 w2 w3 A B C (ops1 & H1 & ->) (ops2 & H2 & ->). exists (ops1 ++ ops2).
    split; [by apply Forall_app_2|]. unfold exec. by rewrite foldl_app.
Qed.

(** From the table before a call, with other writers, to the step it made. *)
Definition steps_via {X} (via : W → W → Table → Table → Prop) (op : LeaseOp) (m : M W X)
    (P : Table → Table → X → Prop) : Prop :=
  ∀ w A, represents (rows (table := table) w) A →
    ∃ A0 A', via w (m w).2 A A0 ∧ represents (rows (table := table) (m w).2) A' ∧ P A0 A' (m w).1.

Section via.
Context {via : W → W → Table → Table → Prop} `{!Meanwhile via}.
Abbreviation steps := (steps_via via).

Lemma put_steps op attrs cond :
  attrs !! LEASE_KEY = Some (AvS (op_key op)) →
  implements op (λ it, eval_cond cond ∅ (default ∅ it)) (λ _, Some attrs) →
  steps op (put_item {| put_table := table; put_attrs := attrs; put_condition := Some cond |})
    (raw_atomic op).
Proof.
  intros Hk Himp w A Hrep. destruct (put_item _ w) as [r w'] eqn:Hcall. simpl.
  destruct (put_law W table _ _ _ _ _ _ Hcall Hk) as (t0 & Ho & Hout).
  destruct (via_others _ _ _ _ Ho Hrep) as (A0 & Hvia & Hrep0).
  destruct (outcome_atomic op _ _ _ _ _ _ _ Himp Hrep0 eq_refl Hout) as (A' & ? & ?).
  by exists A0, A'.
Qed.

Lemma update_steps op expr cond vals ret_new :
  implements op (λ it, match cond with
                       | Some c => eval_cond c vals (default ∅ it) | None => true end)
    (λ it, Some (eval_update expr vals (default (key_item (op_key op)) it))) →
  steps op (update_item {| upd_table := table; upd_key := key_item (op_key op);
                           upd_expression := expr; upd_condition := cond; upd_values := vals;
                           upd_return_new := ret_new |})
    (raw_atomic op).
Proof.
  intros Himp w A Hrep. destruct (update_item _ w) as [r w'] eqn:Hcall. simpl.
  destruct (update_law W table _ _ _ _ _ _ _ _ Hcall) as (t0 & Ho & Hout & _).
  destruct (via_others _ _ _ _ Ho Hrep) as (A0 & Hvia & Hrep0).
  destruct (outcome_atomic op _ _ _ _ _ _ _ Himp Hrep0 eq_refl Hout) as (A' & ? & ?).
  by exists A0, A'.
Qed.

(** With UPDATED_NEW the attributes that changed come back as they are now. *)
Definition returns_changes (k : string) (A A' : Table) (r : Result (option Item) SdkError)
  : Prop :=
  ∀ a, r = Ok a → ∃ ret l', a = Some ret ∧ A' !! k = Some l' ∧
    ∀ attr v, lease_item l' !! attr = Some v →
      default ∅ (lease_item <$> A !! k) !! attr ≠ Some v → ret !! attr = Some v.

Lemma update_returning_steps op expr vals :
  implements op (λ it, true)
    (λ it, Some (eval_update expr vals (default (key_item (op_key op)) it))) →
  steps op (update_item {| upd_table := table; upd_key := key_item (op_key op);
                           upd_expression := expr; upd_condition := None; upd_values := vals;
                           upd_return_new := true |})
    (λ A A' r, raw_atomic op A A' r ∧ returns_changes (op_key op) A A' r).
Proof.
  intros Himp w A Hrep. destruct (update_item _ w) as [r w'] eqn:Hcall. simpl.
  destruct (update_law W table _ _ _ _ _ _ _ _ Hcall) as (t0 & Ho & Hout & Hret).
  destruct (via_others _ _ _ _ Ho Hrep) as (A0 & Hvia & Hrep0).
  destruct (outcome_atomic op _ _ _ _ _ _ _ Himp Hrep0 eq_refl Hout) as (A' & ? & Hraw).
  exists A0, A'. split_and!; [done..|]. intros a ->. simpl in Hraw.
  destruct (Hret eq_refl a eq_refl) as (ret & -> & Hch).
  assert (row_ok (op_key op) (A0 !! op_key op)) as Hok.
  { intros l Hl. by apply (proj2 Hrep0). }
  specialize (Himp _ Hok). rewrite (op_apply_row _ _ _ Hraw) in Himp.
  destruct Himp as (_ & _ & Heff). rewrite (represents_lookup _ _ _ Hrep0) in Hch.
  destruct (A' !! op_key op) as [l'|]; simplify_eq/=. exists ret, l'.
  split_and!; [done..|]. intros attr v Hv. apply Hch. by rewrite Heff.
Qed.

Lemma delete_steps op cond vals :
  implements op (λ it, eval_cond cond vals (default ∅ it)) (λ _, None) →
  steps op (delete_item {| del_table := table; del_key := key_item (op_key op);
                           del_condition := Some cond; del_values := vals |})
    (raw_atomic op).
Proof.
  intros Himp w A Hrep. destruct (delete_item _ w) as [r w'] eqn:Hcall. simpl.
  destruct (delete_law W table _ _ _ _ _ _ Hcall) as (t0 & Ho & Hout).
  destruct (via_others _ _ _ _ Ho Hrep) as (A0 & Hvia & Hrep0).
  destruct (outcome_atomic op _ _ _ _ _ _ _ Himp Hrep0 eq_refl Hout) as (A' & ? & ?).
  by exists A0, A'.
Qed.

(** ** Every request implements its operation *)

Ltac same_item :=
  apply map_eq; intros attr; rewrite ?lookup_insert, ?lookup_delete; read_item;
  rewrite ?lookup_insert; repeat case_decide; simplify_eq; try done.

Lemma lease_item_claim o l :
  <[LEASE_OWNER := AvS o]> (<[LEASE_COUNTER := num (l_counter l + 1)]> (lease_item l)) =
  lease_item (bump (with_owner (Some o) l)).
Proof. same_item. Qed.
Lemma lease_item_bump l :
  <[LEASE_COUNTER := num (l_counter l + 1)]> (lease_item l) = lease_item (bump l).
Proof. same_item. Qed.
Lemma lease_item_with_checkpoint q l :
  <[CHECKPOINT := AvS q]> (<[LEASE_COUNTER := num (l_counter l + 1)]> (lease_item l)) =
  lease_item (bump (with_checkpoint q l)).
Proof. same_item. Qed.
Lemma lease_item_with_completed l :
  <[COMPLETED := AvBool true]> (lease_item l) = lease_item (with_completed l).
Proof. same_item. Qed.
Lemma lease_item_release l :
  delete LEASE_OWNER (<[LEASE_COUNTER := num (l_counter l + 1)]> (lease_item l)) =
  lease_item (bump (with_owner None l)).
Proof. same_item. Qed.
Lemma lease_item_owned k o : owned_item k o = lease_item (fresh_lease k (Some o) 1 None []).
Proof. unfold owned_item. same_item. Qed.
Lemma lease_item_shard k ps cp : shard_item k ps cp = lease_item (fresh_lease k None 0 cp ps).
Proof.
  unfold shard_item. destruct ps as [|p ps], cp as [cp|]; same_item.
Qed.
Lemma lease_item_first_beat w :
  <[LEASE_OWNER := AvS w]> (<[LEASE_COUNTER := num (0 + 1)]> (key_item (heartbeat_key w))) =
  lease_item (fresh_lease (heartbeat_key w) (Some w) 1 None []).
Proof. same_item. Qed.

(** What a condition on the holder says of a stored row. *)
Lemma held_on_row vals c o row :
  vals !! ":c" = Some (num c) → vals !! ":o" = Some (AvS o) →
  eval_cond HELD vals (default ∅ (lease_item <$> row)) =
    match row with Some l => held_at o c l | None => false end.
Proof.
  intros Hc Ho. destruct (cond_held W table vals (default ∅ (lease_item <$> row)) c o Hc Ho)
    as [Hsome Hnone].
  destruct row as [l|]; simpl in *; [|by apply Hnone].
  rewrite (Hsome (l_counter l)) by apply lease_item_counter. unfold held_at.
  rewrite lease_item_owner. f_equal. by destruct (l_owner l).
Qed.

Lemma counter_on_row vals c row :
  vals !! ":c" = Some (num c) →
  eval_cond "leaseCounter = :c" vals (default ∅ (lease_item <$> row)) =
    match row with Some l => (l_counter l =? c)%N | None => false end.
Proof.
  intros Hc. destruct (cond_counter W table vals (default ∅ (lease_item <$> row)) c Hc)
    as [Hsome Hnone].
  destruct row as [l|]; simpl in *; [|by apply Hnone].
  by rewrite (Hsome (l_counter l)) by apply lease_item_counter.
Qed.

Lemma absent_on_row vals row :
  eval_cond "attribute_not_exists(leaseKey)" vals (default ∅ (lease_item <$> row)) =
    match row with Some _ => false | None => true end.
Proof.
  rewrite (cond_absent W table). destruct row as [l|]; simpl; [by rewrite lease_item_key|done].
Qed.

(** A write conditioned on the holder implements any operation guarded by [held_at]. *)
Lemma implements_held op k o c vals (f : Lease → Lease) effect :
  op_key op = k → vals !! ":c" = Some (num c) → vals !! ":o" = Some (AvS o) →
  (∀ row, op_row op row = match row with
                          | Some l => if held_at o c l then Some (Some (f l)) else None
                          | None => None end) →
  (∀ l, l_key (f l) = l_key l) →
  (∀ l, effect (Some (lease_item l)) = Some (lease_item (f l))) →
  implements op (λ it, eval_cond HELD vals (default ∅ it)) effect.
Proof.
  intros <- Hc Ho Hrow Hkey Heff row Hok. rewrite Hrow, (held_on_row vals c o) by done.
  destruct row as [l|]; [|done]. destruct (held_at o c l); [|done].
  split_and!; [done| |apply Heff].
  intros l' [= <-]. rewrite Hkey. by apply Hok.
Qed.

Lemma implements_claim k o c vals :
  vals !! ":c" = Some (num c) → vals !! ":o" = Some (AvS o) → vals !! ":one" = Some (num 1) →
  implements (OpClaim k o c) (λ it, eval_cond "leaseCounter = :c" vals (default ∅ it))
    (λ it, Some (eval_update "SET leaseOwner = :o, leaseCounter = leaseCounter + :one" vals
                   (default (key_item k) it))).
Proof.
  intros Hc Ho H1 row Hok. rewrite (counter_on_row vals c) by done. simpl.
  destruct row as [l|]; simpl; [|done]. destruct (l_counter l =? c)%N; [|done].
  split_and!; [done|intros l' [= <-]; exact (Hok l eq_refl)|].
  by rewrite (upd_claim W table _ _ _ _ (lease_item_counter l) Ho H1), lease_item_claim.
Qed.

Lemma implements_create op attrs new :
  (∀ row, op_row op row = match row with None => Some (Some new) | Some _ => None end) →
  l_key new = op_key op → attrs = lease_item new →
  implements op (λ it, eval_cond "attribute_not_exists(leaseKey)" ∅ (default ∅ it))
    (λ _, Some attrs).
Proof.
  intros Hrow Hkey -> row Hok. rewrite Hrow, absent_on_row. destruct row; [done|].
  split_and!; [done| |done]. by intros l' [= <-].
Qed.

Lemma implements_heartbeat w vals :
  vals !! ":w" = Some (AvS w) → vals !! ":one" = Some (num 1) →
  implements (OpHeartbeat w) (λ it, true)
    (λ it, Some (eval_update "SET leaseOwner = :w ADD leaseCounter :one" vals
                   (default (key_item (heartbeat_key w)) it))).
Proof.
  intros Hw H1 row Hok. destruct row as [l|]; simpl; (split_and!; [done| |f_equal]).
  - intros l' [= <-]. exact (Hok l eq_refl).
  - rewrite (upd_heartbeat W table _ _ (l_counter l) w) by (auto using lease_item_counter).
    by rewrite lease_item_claim.
  - by intros l' [= <-].
  - rewrite (upd_heartbeat W table _ _ 0 w) by (auto; by right).
    by rewrite lease_item_first_beat.
Qed.

Lemma implements_delete k vals :
  vals !! ":t" = Some (AvBool true) →
  implements (OpDelete k)
    (λ it, eval_cond "attribute_exists(leaseKey) AND completed = :t" vals (default ∅ it))
    (λ _, None).
Proof.
  intros Ht row Hok. rewrite (cond_completed W table) by done.
  destruct row as [l|]; simpl; [|done].
  rewrite lease_item_key, lease_item_completed.
  destruct (l_completed l); simpl; [|done]. by split_and!.
Qed.

(** Retrying on throttles keeps the operation one atomic step. *)
Lemma throttle_steps {X} op (m : M W (Result X LeaseError)) ok n d :
  steps op m (atomic op ok) → steps op (throttle_loop n d m) (atomic op ok).
Proof.
  intros Hm. revert d. induction n as [|n IH]; intros d w A Hrep;
    destruct (Hm w A Hrep) as (A0 & A' & Hvia & Hrep' & Hat); simpl; unfold bind;
    destruct (m w) as [r w']; simpl in *.
  { exists A0, A'. destruct r as [|[]]; by split_and!. }
  destruct r as [x|[|e|e]]; try by (exists A0, A').
  simpl in Hat. subst A'. pose proof (sleep_law W table d w') as Hs.
  destruct (sleep_ms d w') as [[] w'']. simpl in *.
  destruct (via_others _ _ _ _ Hs Hrep') as (A2 & Hvia2 & Hrep2).
  destruct (IH (N.min (d * 2) 800) w'' _ Hrep2) as (A3 & A4 & Hvia3 & ? & ?).
  exists A3, A4. split; [|done]. eapply via_trans; [exact Hvia|]. by eapply via_trans.
Qed.

(** A call whose result is only translated. *)
Lemma mapped_steps {X Y} op (m : M W (Result X SdkError)) (f : X → Y) (ok : Table → Y → Prop) :
  steps op m (λ A A' r, raw_atomic op A A' r ∧ ∀ x, r = Ok x → ok A' (f x)) →
  steps op (r <- m ;; ret (map_result f classify r)) (atomic op ok).
Proof.
  intros Hm w A Hrep. destruct (Hm w A Hrep) as (A0 & A' & Hvia & Hrep' & Hr & Hok).
  exists A0, A'. unfold bind. destruct (m w) as [r w'] eqn:Hmw. simpl in *. split_and!; [done..|].
  by apply raw_to_atomic.
Qed.

Lemma steps_mono {X} op (m : M W X) (P Q : Table → Table → X → Prop) :
  steps op m P → (∀ A A' r, P A A' r → Q A A' r) → steps op m Q.
Proof.
  intros Hm HPQ w A Hrep. destruct (Hm w A Hrep) as (A0 & A' & ? & ? & ?).
  exists A0, A'. auto.
Qed.

Lemma mapped_const_steps {X Y} op (m : M W (Result X SdkError)) (y : Y) :
  steps op m (raw_atomic op) →
  steps op (r <- m ;; ret (map_result (λ _, y) classify r)) (atomic op (λ _ x, x = y)).
Proof. intros Hm. apply mapped_steps. by eapply steps_mono. Qed.
End via.
End calls.
Arguments steps_via {W _ table _ X}.
Arguments by_others {W _ table _}.

(** The step, with the steps of others before it. *)
Abbreviation steps table := (steps_via (table := table) (by_others (table := table))).

(** ** The operations of the store *)

Ltac read_values :=
  unfold held_values; repeat (rewrite lookup_insert || rewrite lookup_singleton);
  repeat (case_decide; simplify_eq); done.

Section operations.
Context {W : Type} `{DynamoClient W} (st : DynamoDbLeaseStore) `{!DynamoLaws W (ds_table st)}.

Section via.
Context {via : W → W → Table → Table → Prop} `{!Meanwhile (ds_table st) via}.
#[local] Abbreviation steps := (steps_via (table := ds_table st) via).

Lemma renew_steps k o c :
  steps (OpRenew k o c) (renew st k o c)
    (atomic (OpRenew k o c) (λ _ x, x = u64_add c 1)).
Proof.
  unfold renew, with_throttle_retry. apply (throttle_steps (ds_table st)), mapped_const_steps.
  apply (update_steps _ (OpRenew k o c)).
  apply (implements_held _ _ k o c _ bump); try done.
  intros l. simpl. rewrite (upd_renew W (ds_table st) _ _ (l_counter l));
    [by rewrite lease_item_bump|apply lease_item_counter|read_values].
Qed.

Lemma checkpoint_steps k o c q :
  steps (OpCheckpoint k o c q) (checkpoint st k o c q)
    (atomic (OpCheckpoint k o c q) (λ _ x, x = u64_add c 1)).
Proof.
  unfold checkpoint, with_throttle_retry. apply (throttle_steps (ds_table st)), mapped_const_steps.
  apply (update_steps _ (OpCheckpoint k o c q)).
  apply (implements_held _ _ k o c _ (λ l, bump (with_checkpoint q l))); try done.
  intros l. simpl. rewrite (upd_checkpoint W (ds_table st) _ _ (l_counter l) q);
    [by rewrite lease_item_with_checkpoint|apply lease_item_counter|read_values|read_values].
Qed.

Lemma mark_complete_steps k o c :
  steps (OpComplete k o c) (mark_complete st k o c)
    (atomic (OpComplete k o c) (λ _ _, True)).
Proof.
  unfold mark_complete. eapply steps_mono; [apply mapped_const_steps; apply (update_steps _ (OpComplete k o c))|].
  - apply (implements_held _ _ k o c _ with_completed); try done.
    intros l. simpl. rewrite (upd_complete W (ds_table st)) by read_values.
    by rewrite lease_item_with_completed.
  - by intros A A' [x|[]] ?; simpl in *; destruct_and?.
Qed.

Lemma release_steps k o c :
  steps (OpRelease k o c) (release st k o c)
    (atomic (OpRelease k o c) (λ _ _, True)).
Proof.
  unfold release. eapply steps_mono; [apply mapped_const_steps; apply (update_steps _ (OpRelease k o c))|].
  - apply (implements_held _ _ k o c _ (λ l, bump (with_owner None l))); try done.
    intros l. simpl. rewrite (upd_release W (ds_table st) _ _ (l_counter l));
      [by rewrite lease_item_release|apply lease_item_counter|read_values].
  - by intros A A' [x|[]] ?; simpl in *; destruct_and?.
Qed.

Lemma delete_steps' k :
  steps (OpDelete k) (delete_lease st k) (atomic (OpDelete k) (λ _ _, True)).
Proof.
  unfold delete_lease. eapply steps_mono; [apply mapped_const_steps; apply (delete_steps _ (OpDelete k))|].
  - apply implements_delete. read_values.
  - by intros A A' [x|[]] ?; simpl in *; destruct_and?.
Qed.

Lemma heartbeat_steps w :
  steps (OpHeartbeat w) (heartbeat st w)
    (atomic (OpHeartbeat w) (λ A' x, ∃ l, A' !! heartbeat_key w = Some l ∧
       l_owner l = Some w ∧ ((l_counter l ≤ u64_max)%N → x = l_counter l))).
Proof.
  unfold heartbeat, with_throttle_retry. apply (throttle_steps (ds_table st)), mapped_steps.
  eapply steps_mono; [apply (update_returning_steps _ (OpHeartbeat w))|].
  { by apply implements_heartbeat. }
  intros A A' r [Hraw Hret]. split; [done|]. intros a ->.
  destruct (Hret a eq_refl) as (ret & l & -> & Hl & Hch). simpl in *.
  exists l. split; [done|]. apply op_apply_row in Hraw. simpl in Hraw. rewrite Hl in Hraw.
  assert (ret !! LEASE_COUNTER = Some (num (l_counter l))) as Hc.
  { apply Hch; [apply lease_item_counter|].
    destruct (A !! heartbeat_key w) as [l0|]; simplify_eq/=; [|done].
    rewrite lease_item_counter. intros [= E%u64_to_string_inj]. lia. }
  split; [by destruct (A !! heartbeat_key w); simplify_eq/=|].
  intros Hmax. unfold returned_counter. simpl. rewrite Hc. simpl.
  by rewrite parse_u64_to_string.
Qed.

(** The outcome of a claim: create-if-absent, or take over at the counter read. *)
Definition claimed (k o : string) (A A' : Table) (l : Lease) : Prop :=
  ∃ op row, (op = OpCreate k o ∨ ∃ c, op = OpClaim k o c) ∧
    op_apply op A = Some A' ∧ A' !! k = Some row ∧ l_owner row = Some o ∧
    l_key l = k ∧ l_owner l = Some o ∧
    ((l_counter row ≤ u64_max)%N → l_counter l = l_counter row) ∧
    l_checkpoint l = None ∧ l_completed l = false ∧ l_parents l = [].

Definition claim_outcome (k o : string) (A A' : Table) (r : Result Lease LeaseError) : Prop :=
  match r with
  | Ok l => claimed k o A A' l
  | Err Lost | Err (Throttled _) => A' = A
  | Err (Aws _) => A' = A ∨ ∃ op, (op = OpCreate k o ∨ ∃ c, op = OpClaim k o c) ∧
                                  op_apply op A = Some A'
  end.

Lemma claim_claimed k o c A A' :
  op_apply (OpClaim k o c) A = Some A' →
  claimed k o A A' (fresh_lease k (Some o) (u64_add c 1) None []).
Proof.
  intros Ha. pose proof (op_apply_row _ _ _ Ha) as Hr. simpl in Hr.
  destruct (A !! k) as [l|]; [|done]. destruct (l_counter l =? c)%N eqn:Hc; [|done].
  apply N.eqb_eq in Hc. injection Hr as Hr.
  exists (OpClaim k o c), (bump (with_owner (Some o) l)).
  split_and!; try done; [by right; eauto|]. simpl. intros Hmax. subst c.
  by apply u64_add_small.
Qed.

Lemma claim_steps k o c :
  steps (OpClaim k o c) (claim st k o c)
    (atomic (OpClaim k o c) (λ _ l, l = fresh_lease k (Some o) (u64_add c 1) None [])).
Proof.
  unfold claim. apply mapped_const_steps. apply (update_steps _ (OpClaim k o c)).
  by apply implements_claim.
Qed.

Lemma create_steps k o :
  steps (OpCreate k o) (put_item (put_req st (owned_item k o)))
    (raw_atomic (OpCreate k o)).
Proof.
  apply (put_steps _ (OpCreate k o)); [done|].
  by apply (implements_create _ _ _ (fresh_lease k (Some o) 1 None [])), lease_item_owned.
Qed.

Lemma acquire_steps k o w A :
  represents (rows w) A →
  ∃ A0 A', via w (acquire st k o w).2 A A0 ∧ represents (rows (acquire st k o w).2) A' ∧
           claim_outcome k o A0 A' (acquire st k o w).1.
Proof.
  intros Hrep. destruct (acquire st k o w) as [res w'] eqn:Hacq. simpl.
  unfold acquire, bind at 1 in Hacq.
  destruct (create_steps k o w A Hrep) as (A0 & A1 & Hvia & Hrep1 & Hraw).
  destruct (put_item _ w) as [[u|e] w1]; simpl in *.
  { injection Hacq as <- <-. exists A0, A1. split; [done|]. split; [done|].
    pose proof (op_apply_row _ _ _ Hraw) as Hr. simpl in Hr.
    destruct (A0 !! k) eqn:Hk; [done|]. injection Hr as Hr.
    exists (OpCreate k o), (fresh_lease k (Some o) 1 None []). split_and!; auto. }
  destruct (conditional_failed e); simpl in *.
  2: { injection Hacq as <- <-. exists A0, A1. split; [done|]. split; [done|].
       destruct Hraw as [?|[_ ?]]; [by left|right; eauto]. }
  destruct Hraw as [_ ->]. unfold get, bind at 1 in Hacq. unfold bind in Hacq.
  destruct (get_item (ds_table st) (key_item k) true w1) as [r w2] eqn:Hget.
  destruct (get_law W (ds_table st) _ _ _ _ Hget) as [Ho _].
  destruct (via_others _ _ _ _ _ Ho Hrep1) as (A2 & Hvia2 & Hrep2).
  pose proof (via_trans _ _ _ _ _ _ _ Hvia Hvia2) as Hvia12. simpl in Hacq.
  destruct r as [[it|]|e']; simpl in Hacq;
    [|by injection Hacq as <- <-; exists A2, A2; split_and!; [done|done|left]..].
  destruct (claim_steps k o (l_counter (item_to_lease it)) w2 _ Hrep2)
    as (A3 & A4 & Hvia3 & Hrep3 & Hat).
  simpl in Hvia3, Hrep3, Hat. rewrite Hacq in Hvia3, Hrep3, Hat.
  exists A3, A4. split; [by eapply via_trans|]. split; [done|].
  destruct res as [l|[]]; simpl in *; try done.
  - destruct Hat as [Ha ->]. by apply (claim_claimed _ _ (l_counter (item_to_lease it))).
  - by destruct Hat.
  - destruct Hat as [?|?]; [by left|right; eauto].
Qed.

Lemma publish_steps k ps cp :
  steps (OpPublish k ps cp) (put_item (put_req st (shard_item k ps cp)))
    (raw_atomic (OpPublish k ps cp)).
Proof.
  apply (put_steps _ (OpPublish k ps cp)).
  { rewrite lease_item_shard. apply lease_item_key. }
  by apply (implements_create _ _ _ (fresh_lease k None 0 cp ps)), lease_item_shard.
Qed.

Lemma claim_request_steps k o c :
  steps (OpClaim k o c)
    (update_item (update_req st k
       "SET leaseOwner = :o, leaseCounter = leaseCounter + :one" (Some "leaseCounter = :c")
       (<[":o" := AvS o]> (<[":one" := AvN "1"]> {[":c" := num c]})) false))
    (raw_atomic (OpClaim k o c)).
Proof. apply (update_steps _ (OpClaim k o c)). by apply implements_claim. Qed.

(** A refused bid is an answer, not an error. *)
Definition bid_outcome (op : LeaseOp) (c : N) (A A' : Table)
    (r : Result (option N) LeaseError) : Prop :=
  match r with
  | Ok (Some x) => op_apply op A = Some A' ∧ x = c
  | Ok None => op_apply op A = None ∧ A' = A
  | Err (Aws _) => A' = A ∨ op_apply op A = Some A'
  | Err _ => False
  end.

Lemma bid_steps op c T T' r : bid_outcome op c T T' r → T' = T ∨ op_apply op T = Some T'.
Proof. destruct r as [[x|]|[]]; cbn; naive_solver. Qed.

Lemma bid_create_steps k o :
  steps (OpCreate k o) (try_acquire_leadership st k o None)
    (bid_outcome (OpCreate k o) 1).
Proof.
  intros w0 A Hrep. destruct (create_steps k o w0 A Hrep) as (A0 & A' & Hvia & Hrep' & Hraw).
  exists A0, A'.
  unfold try_acquire_leadership, bind. destruct (put_item _ w0) as [[x|e] w1]; simpl in *; [done|].
  destruct (conditional_failed e); simpl; [done|]. split; [done|].
  destruct Hraw as [?|[_ ?]]; auto.
Qed.

Lemma bid_claim_steps k o c :
  steps (OpClaim k o c) (try_acquire_leadership st k o (Some c))
    (bid_outcome (OpClaim k o c) (u64_add c 1)).
Proof.
  intros w0 A Hrep. destruct (claim_request_steps k o c w0 A Hrep) as (A0 & A' & Hvia & Hrep' & Hraw).
  exists A0, A'. unfold try_acquire_leadership, bind.
  destruct (update_item _ w0) as [[x|e] w1]; simpl in *; [done|].
  destruct (conditional_failed e); simpl; [done|]. split; [done|].
  destruct Hraw as [?|[_ ?]]; auto.
Qed.

Lemma create_shard_steps k ps cp :
  steps (OpPublish k ps cp) (create_shard_lease st k ps cp)
    (λ A A' r, match r with
               | Ok _ => A' = op_exec A (OpPublish k ps cp)
               | Err (Aws _) => A' = A ∨ op_apply (OpPublish k ps cp) A = Some A'
               | Err _ => False
               end).
Proof.
  intros w0 A Hrep. destruct (publish_steps k ps cp w0 A Hrep) as (A0 & A' & Hvia & Hrep' & Hraw).
  exists A0, A'. unfold create_shard_lease, bind, op_exec.
  destruct (put_item _ w0) as [[x|e] w1]; simpl in *; [by rewrite Hraw|].
  destruct (conditional_failed e); simpl; [by destruct Hraw as [-> ->]|]. split; [done|].
  destruct Hraw as [?|[_ ?]]; auto.
Qed.
End via.

(** ** Properties *)

(** a stored row reads back as the lease it was written from. *)
Theorem lease_row_roundtrip l (Hcounter : (l_counter l ≤ u64_max)%N) :
  item_to_lease (lease_item l) = l.
Proof.
  unfold item_to_lease.
  rewrite lease_item_key, lease_item_owner, lease_item_counter, lease_item_checkpoint,
    lease_item_completed, lease_item_parents.
  destruct l as [k o c cp done ps]. simpl in *. rewrite parse_u64_to_string by done. simpl.
  assert (∀ xs : list string, omap (M := list) as_s (AvS <$> xs) = xs) as Hps.
  { intros xs. induction xs as [|x xs IH]; [done|]. csimpl. by rewrite IH. }
  f_equal; [by destruct o|by destruct cp|by destruct done|].
  destruct ps as [|p ps]; [done|]. simpl. f_equal. apply Hps.
Qed.

(** C34: each write of a lease holder (renew, checkpoint, complete, release) and
    the deletion of a completed lease is one atomic step of the abstract table,
    whatever other workers do between and around the calls: success means that
    the row was held at that counter and is now the abstract result, and renew
    and checkpoint return its new counter; [Lost] means that it was not and that
    nothing was written; a throttle, even after the retries, wrote nothing. *)
Theorem holder_writes_are_atomic k o c q :
  steps (ds_table st) (OpRenew k o c) (renew st k o c)
    (atomic (OpRenew k o c) (λ _ x, x = u64_add c 1)) ∧
  steps (ds_table st) (OpCheckpoint k o c q) (checkpoint st k o c q)
    (atomic (OpCheckpoint k o c q) (λ _ x, x = u64_add c 1)) ∧
  steps (ds_table st) (OpComplete k o c) (mark_complete st k o c)
    (atomic (OpComplete k o c) (λ _ _, True)) ∧
  steps (ds_table st) (OpRelease k o c) (release st k o c)
    (atomic (OpRelease k o c) (λ _ _, True)) ∧
  steps (ds_table st) (OpDelete k) (delete_lease st k) (atomic (OpDelete k) (λ _ _, True)).
Proof.
  split_and!; [apply renew_steps|apply checkpoint_steps|apply mark_complete_steps
              |apply release_steps|apply delete_steps'].
Qed.

(** C35: acquiring a lease creates the row or takes it over at the counter just
    read, atomically: the table that the write found is the one before the call but for
    steps that other workers take, and what the write left is one step further when
    the call answers with a handle, and no further when the race was lost or the call
    was throttled.  So the call takes at most one step, and a row that it could not
    have is as the others left it.  The handle's counter is the row's, and the handle
    never carries the row's checkpoint, completion or parents. *)
Theorem acquire_creates_or_takes_over k o w A (Hrep : represents (rows w) A) :
  ∃ ops A', Forall other_op ops ∧
            represents (rows (acquire st k o w).2) A' ∧
            claim_outcome k o (exec ops A) A' (acquire st k o w).1.
Proof.
  destruct (acquire_steps (via := by_others) k o w A Hrep) as (A0 & A' & (ops & Hops & ->) & Ha).
  by exists ops, A'.
Qed.

(** a leadership bid with no expected counter creates the row or loses, one
    with a counter steals the row at exactly that counter or loses, and [Ok None]
    means that nothing was written; publishing a shard creates its row unowned at
    counter 0 with its parents and seed, or leaves an existing row untouched; and
    a heartbeat bumps the worker's own row, creating it at 1, and returns the
    counter it now has. *)
Theorem bids_publications_and_heartbeats_are_atomic k o c ps cp w :
  steps (ds_table st) (OpCreate k o) (try_acquire_leadership st k o None)
    (bid_outcome (OpCreate k o) 1) ∧
  steps (ds_table st) (OpClaim k o c) (try_acquire_leadership st k o (Some c))
    (bid_outcome (OpClaim k o c) (u64_add c 1)) ∧
  steps (ds_table st) (OpPublish k ps cp) (create_shard_lease st k ps cp)
    (λ A A' r, match r with
               | Ok _ => A' = op_exec A (OpPublish k ps cp)
               | Err (Aws _) => A' = A ∨ op_apply (OpPublish k ps cp) A = Some A'
               | Err _ => False
               end) ∧
  steps (ds_table st) (OpHeartbeat w) (heartbeat st w)
    (atomic (OpHeartbeat w) (λ A' x, ∃ l, A' !! heartbeat_key w = Some l ∧
       l_owner l = Some w ∧ ((l_counter l ≤ u64_max)%N → x = l_counter l))).
Proof.
  split_and!; [apply bid_create_steps|apply bid_claim_steps| |apply heartbeat_steps].
  apply create_shard_steps.
Qed.
End operations.
