(* ===== verification/LeaseHistory.v ===== *)
(** * What calls of the lease store make of a row

    The operations of [DynamoDbLeaseStore] as calls that workers make one after the
    other, in any order, with other writers between and during them.  Each is at most
    one step of the abstract table ([perform_takes]); so a row has a history, and a
    worker whose lease was taken can write no more. *)

From Stdlib Require Import Lia.
From stdpp Require Import base gmap numbers list strings.
From S2P Require Import Prelude Core Coordinator LeaseTable DynamoDb LeaseRefine.

Inductive StoreCall :=
| CallAcquire (k o : string)
| CallRenew (k o : string) (c : N)
| CallCheckpoint (k o : string) (c : N) (q : string)
| CallComplete (k o : string) (c : N)
| CallRelease (k o : string) (c : N)
| CallDelete (k : string)
| CallPublish (k : string) (ps : list string) (cp : option string)
| CallBid (k o : string) (expected : option N)
| CallHeartbeat (worker : string)
| CallGet (k : string)
| CallList (pages : nat).

(** The counter of which lease a call is conditioned on, and whether it advances it. *)
Definition conditioned (c : StoreCall) : option (string * N) :=
  match c with
  | CallRenew k _ n | CallCheckpoint k _ n _ | CallComplete k _ n | CallRelease k _ n
  | CallBid k _ (Some n) => Some (k, n)
  | _ => None
  end.
Definition advancing (c : StoreCall) : bool := match c with CallComplete _ _ _ => false | _ => true end.

(** The steps of the table that a call may take. *)
Definition takes (c : StoreCall) (op : LeaseOp) : Prop :=
  match c with
  | CallAcquire k o => op = OpCreate k o ∨ ∃ n, op = OpClaim k o n
  | CallRenew k o n => op = OpRenew k o n
  | CallCheckpoint k o n q => op = OpCheckpoint k o n q
  | CallComplete k o n => op = OpComplete k o n
  | CallRelease k o n => op = OpRelease k o n
  | CallDelete k => op = OpDelete k
  | CallPublish k ps cp => op = OpPublish k ps cp
  | CallBid k o None => op = OpCreate k o
  | CallBid k o (Some n) => op = OpClaim k o n
  | CallHeartbeat w => op = OpHeartbeat w
  | CallGet _ | CallList _ => False
  end.

Section calls.
Context {W : Type} `{DynamoClient W} (st : DynamoDbLeaseStore) `{!DynamoLaws W (ds_table st)}.
Abbreviation rows_of := (rows (table := ds_table st)).
Abbreviation theirs := (other_op (table := ds_table st)).

(** Does the call answer that it went through? *)
Definition answer {X} (ok : X → bool) (m : M W (Result X LeaseError)) : M W bool :=
  r <- m ;; ret (match r with Ok x => ok x | Err _ => false end).

Definition perform (c : StoreCall) : M W bool :=
  match c with
  | CallAcquire k o => answer (λ _, true) (acquire st k o)
  | CallRenew k o n => answer (λ _, true) (renew st k o n)
  | CallCheckpoint k o n q => answer (λ _, true) (checkpoint st k o n q)
  | CallComplete k o n => answer (λ _, true) (mark_complete st k o n)
  | CallRelease k o n => answer (λ _, true) (release st k o n)
  | CallDelete k => answer (λ _, true) (delete_lease st k)
  | CallPublish k ps cp => answer (λ _, true) (create_shard_lease st k ps cp)
  | CallBid k o e => answer (λ x, bool_decide (is_Some x)) (try_acquire_leadership st k o e)
  | CallHeartbeat w => answer (λ _, true) (heartbeat st w)
  | CallGet k => r <- get st k ;; ret (is_ok r)
  | CallList pages => r <- list_all st pages ;; ret (match r with Some r => is_ok r | None => false end)
  end.

Fixpoint perform_all (calls : list StoreCall) : M W unit :=
  match calls with
  | [] => ret tt
  | c :: calls => _ <- perform c ;; perform_all calls
  end.

(** ** One call *)

(** Others take steps, and then the call takes one or none; if it is conditioned on a
    counter and answers that it went through, it has taken it. *)
Definition call_takes (c : StoreCall) (went : bool) (A A' : Table) : Prop :=
  (A' = A ∧ (went = true → conditioned c = None)) ∨ ∃ op, takes c op ∧ op_apply op A = Some A'.

Definition takes_step (c : StoreCall) (m : M W bool) : Prop :=
  ∀ w A, represents (rows_of w) A →
    ∃ ops A', Forall theirs ops ∧ represents (rows_of (m w).2) A' ∧
      call_takes c (m w).1 (exec ops A) A'.

Lemma answer_takes {X} c op (m : M W (Result X LeaseError)) ok P :
  steps (ds_table st) op m P → takes c op →
  (∀ T T' r, P T T' r → T' = T ∨ op_apply op T = Some T') →
  (∀ T T' x, P T T' (Ok x) → ok x = true → conditioned c = None ∨ op_apply op T = Some T') →
  takes_step c (answer ok m).
Proof.
  intros Hm Ht Hone Hok w A HA. destruct (Hm w A HA) as (A0 & A' & (ops & Hops & ->) & Hrep & HP).
  unfold answer, bind. destruct (m w) as [r w']. cbn in *. exists ops, A'. split_and!; [done..|].
  destruct (Hone _ _ _ HP) as [->|?]; [|right; by exists op].
  destruct r as [x|e]; [|left; by split]. destruct (ok x) eqn:Hx; [|left; by split].
  destruct (Hok _ _ _ HP Hx) as [?|?]; [left; by split|right; by exists op].
Qed.

(** Reads. *)
Lemma others_take c (m : M W bool) :
  (∀ w, others w (m w).2 (rows_of (m w).2)) → conditioned c = None → takes_step c m.
Proof.
  intros Hm Hc w A HA. destruct (others_lawful W _ _ _ _ _ (Hm w) HA) as (ops & Hops & Hrep).
  exists ops, (exec ops A). split_and!; [done..|]. by left.
Qed.

Lemma scan_takes pages start out w A :
  represents (rows_of w) A →
  ∃ ops, Forall theirs ops ∧ represents (rows_of (scan_loop st pages start out w).2) (exec ops A).
Proof.
  revert start out w A. induction pages as [|n IH]; intros start out w A HA; cbn [scan_loop]; [by exists []|].
  pose proof (scan_law W (ds_table st) start w) as Ho. unfold bind. cbn zeta in Ho.
  destruct (scan (ds_table st) start w) as [r w1]. cbn [snd] in Ho.
  destruct (others_lawful W _ _ _ _ _ Ho HA) as (ops & Hops & Hrep).
  destruct r as [[items [last|]]|e]; try by exists ops.
  destruct (IH (Some last) (out ++ (item_to_lease <$> items)) w1 _ Hrep) as (ops2 & Hops2 & Hrep2).
  exists (ops ++ ops2). split; [by apply Forall_app_2|]. unfold exec in *. by rewrite foldl_app.
Qed.

Lemma perform_takes c : takes_step c (perform c).
Proof.
  destruct c as [k o|k o n|k o n q|k o n|k o n|k|k ps cp|k o [n|]|v|k|pages]; cbn [perform].
  2-6, 10: (eapply answer_takes;
    [first [apply renew_steps|apply checkpoint_steps|apply mark_complete_steps|apply release_steps
           |apply delete_steps'|apply heartbeat_steps]; apply _|done|intros ???; apply atomic_steps|]);
    intros T T' x [? _] _; by right.
  - intros w A HA. destruct (acquire_steps (via := by_others) st k o w A HA)
      as (A0 & A' & (ops & Hops & ->) & Hrep & Ho).
    unfold answer, bind. destruct (acquire st k o w) as [r w']. cbn in *. exists ops, A'. split_and!; [done..|].
    destruct r as [l|[]]; cbn in Ho; try (by left).
    + destruct Ho as (op & row & Hop & Ha & _). right. by exists op.
    + destruct Ho as [->|(op & Hop & Ha)]; [by left|right; by exists op].
  - eapply answer_takes; [apply create_shard_steps; apply _|done| |intros; by left].
    intros T T' [u|[]] Ho; cbn in Ho; try done. subst T'. unfold op_exec. destruct (op_apply _ T); auto.
  - eapply answer_takes; [apply bid_claim_steps; apply _|done|intros ???; apply bid_steps|].
    intros T T' [x|] Ho; [|done]. intros _. right. by destruct Ho.
  - eapply answer_takes; [apply bid_create_steps; apply _|done|intros ???; apply bid_steps|]. by left.
  - apply others_take; [|done]. intros w. unfold get, bind.
    destruct (get_item (ds_table st) (key_item k) true w) as [r w'] eqn:Hg.
    apply (get_law W (ds_table st)) in Hg as [Ho _]. by destruct r.
  - intros w A HA. destruct (scan_takes pages None [] w A HA) as (ops & Hops & Hrep).
    exists ops, (exec ops A). unfold list_all, bind. destruct (scan_loop _ _ _ _ w). cbn in *.
    split_and!; [done..|]. by left.
Qed.

(** ** One row *)

(** What a call makes of a row as it found it. *)
Definition row_step (c : StoreCall) (k : string) (row row' : option Lease) : Prop :=
  match row, row' with
  | Some l, Some l' =>
      (l_counter l ≤ l_counter l')%N ∧ l_parents l' = l_parents l ∧
      (l_completed l = true → l_completed l' = true) ∧
      (l_owner l' ≠ l_owner l → (l_counter l < l_counter l')%N) ∧
      (l_checkpoint l' ≠ l_checkpoint l → ∃ o q, c = CallCheckpoint k o (l_counter l) q ∧
         l_owner l = Some o ∧ l_checkpoint l' = Some q) ∧
      (l_completed l' ≠ l_completed l → ∃ o, c = CallComplete k o (l_counter l) ∧ l_owner l = Some o)
  | Some l, None => c = CallDelete k ∧ l_completed l = true
  | None, Some l' => (∃ ps cp, c = CallPublish k ps cp ∧ l' = fresh_lease k None 0 cp ps) ∨
                     ∃ o, l' = fresh_lease k (Some o) 1 None []
  | None, None => True
  end.

Lemma takes_call c op : takes c op →
  match op with
  | OpCheckpoint k o n q => c = CallCheckpoint k o n q
  | OpComplete k o n => c = CallComplete k o n
  | OpDelete k => c = CallDelete k
  | OpPublish k ps cp => c = CallPublish k ps cp
  | _ => True
  end.
Proof. destruct c as [| | | | | | |k o [n|]| | |]; cbn; try (by intros ->); try done. by intros [->|[n ->]]. Qed.

Lemma call_row_step c went A A' k : call_takes c went A A' → row_step c k (A !! k) (A' !! k).
Proof.
  intros [[-> _]|(op & Ht & Ha)]; unfold row_step.
  { destruct (A !! k) as [l|]; [|done]. by split_and!. }
  apply takes_call in Ht. destruct (A !! k) as [l|] eqn:Hl, (A' !! k) as [l'|] eqn:Hl'; [| | |done].
  - destruct (op_moves _ _ _ _ _ _ Ha Hl Hl') as (? & ? & ? & ?). split_and!; [done..| |].
    + intros Hne. destruct (op_checkpoints _ _ _ _ _ _ Ha Hl Hl' Hne) as (o & q & -> & ? & ?). by exists o, q.
    + intros Hne. destruct (op_completes _ _ _ _ _ _ Ha Hl Hl' Hne) as (o & -> & ? & ?). by exists o.
  - by destruct (op_removes _ _ _ _ _ Ha Hl Hl') as [-> ?].
  - destruct (op_creates _ _ _ _ _ Ha Hl Hl') as [(ps & cp & -> & ->)|(o & ->)]; eauto.
Qed.

(** ** A sequence of calls *)

Section row.
Variable k : string.
Hypothesis Hothers : ∀ op, theirs op → op ≠ OpDelete k.

(** As long as it is not deleted, a row keeps its parents and its completion, and its
    counter does not go back. *)
Definition goes_on (l l' : Lease) : Prop :=
  (l_counter l ≤ l_counter l')%N ∧ l_parents l' = l_parents l ∧
  (l_completed l = true → l_completed l' = true).

Lemma others_go_on ops A l : Forall theirs ops → A !! k = Some l →
  ∃ l', exec ops A !! k = Some l' ∧ goes_on l l'.
Proof.
  intros Hops Hl. destruct (counter_monotone ops A k l) as (l' & ? & ?); [|done|by exists l'].
  intros op Hop. apply Hothers. by eapply Forall_forall.
Qed.

Lemma perform_goes_on c w A l : c ≠ CallDelete k → represents (rows_of w) A → A !! k = Some l →
  ∃ A' l', represents (rows_of (perform c w).2) A' ∧ A' !! k = Some l' ∧ goes_on l l'.
Proof.
  intros Hc HA Hl. destruct (perform_takes c w A HA) as (ops & A' & Hops & Hrep & Hct).
  destruct (others_go_on ops A l Hops Hl) as (l1 & Hl1 & Hg1 & Hp1 & Hd1).
  pose proof (call_row_step _ _ _ _ k Hct) as Hs. rewrite Hl1 in Hs. exists A'.
  destruct (A' !! k) as [l'|]; [|by destruct Hs]. exists l'. destruct Hs as (? & ? & ? & _).
  split_and!; [done..|]. split_and!; [lia|congruence|auto].
Qed.

Lemma perform_all_goes_on calls w A l : CallDelete k ∉ calls → represents (rows_of w) A → A !! k = Some l →
  ∃ A' l', represents (rows_of (perform_all calls w).2) A' ∧ A' !! k = Some l' ∧ goes_on l l'.
Proof.
  revert w A l. induction calls as [|c calls IH]; intros w A l Hd HA Hl; cbn [perform_all].
  { exists A, l. by split_and!. }
  apply not_elem_of_cons in Hd as [Hc Hd]. unfold bind.
  destruct (perform_goes_on c w A l) as (A1 & l1 & HA1 & Hl1 & Hc1 & Hp1 & Hd1); [done..|].
  destruct (perform c w) as [b w1]. destruct (IH w1 A1 l1 Hd HA1 Hl1) as (A' & l' & ? & ? & ? & ? & ?).
  exists A', l'. split_and!; [done..|]. split_and!; [lia|congruence|auto].
Qed.
End row.

(** A call that is conditioned on an old counter takes no step. *)
Lemma stale_call c k n went A A' l :
  conditioned c = Some (k, n) → A !! k = Some l → (n < l_counter l)%N → call_takes c went A A' →
  went = false ∧ A' = A.
Proof.
  intros Hc Hl Hn [[-> Hw]|(op & Ht & Ha)].
  { split; [|done]. destruct went; [|done]. rewrite Hw in Hc; done. }
  exfalso. assert (op_key op = k ∧ op_expects op = Some n) as [Hk Hx].
  { destruct c as [| | | | | | |? ? [?|]| | |]; cbn in Hc, Ht; simplify_eq/=; done. }
  rewrite (stale_op_fails op A n l) in Ha; [done|by rewrite Hk|done|done].
Qed.

(** A call that went through leaves the counter past the one it was conditioned on. *)
Lemma winning_call c k n A A' :
  conditioned c = Some (k, n) → advancing c = true → call_takes c true A A' →
  ∃ l, A' !! k = Some l ∧ (n < l_counter l)%N.
Proof.
  intros Hc Hadv [[_ Hw]|(op & Ht & Ha)]; [rewrite Hw in Hc; done|].
  assert (op_key op = k ∧ op_expects op = Some n ∧ op_bumps op = true ∧ ∀ k', op ≠ OpDelete k') as (Hk & Hx & Hb & Hd).
  { destruct c as [| | | | | | |? ? [?|]| | |]; cbn in Hc, Ht, Hadv; simplify_eq/=; done. }
  apply op_apply_row in Ha. rewrite Hk in Ha. pose proof (op_row_expects _ _ _ _ Ha Hx) as Hl.
  destruct (A !! k) as [l|]; [|done]. injection Hl as Hl.
  destruct (op_row_counter _ _ _ Ha Hd) as (l' & -> & _ & Hlt & _). exists l'. split; [done|].
  specialize (Hlt Hb). lia.
Qed.

(** ** Properties *)

(** C32: fencing.  When a call of the store that is conditioned on counter [c] of a
    lease has answered that it went through (a renewal, a checkpoint, a release, or a
    bid that takes the lease over), then whatever calls are made after it, by anybody,
    and whatever other writers do between and during them, as long as the row is not
    deleted: a call that is conditioned on [c] or on an older counter does not go
    through, and writes nothing.  So of two writers that read the same counter at most
    one wins, and a worker whose lease was taken can neither checkpoint nor complete. *)
Theorem winner_fences_out_stale_writers c1 c2 calls k c c' w w1 A
    (Hrep : represents (rows_of w) A)
    (Hc1 : conditioned c1 = Some (k, c)) (Hadv : advancing c1 = true)
    (Hwin : perform c1 w = (true, w1))
    (Hkeep : CallDelete k ∉ calls) (Hothers : ∀ op, theirs op → op ≠ OpDelete k)
    (Hc2 : conditioned c2 = Some (k, c')) (Hold : (c' ≤ c)%N) :
  let w2 := (perform_all calls w1).2 in
  let '(went, w3) := perform c2 w2 in
  went = false ∧ ∃ A2 ops, represents (rows_of w2) A2 ∧ Forall theirs ops ∧
    represents (rows_of w3) (exec ops A2).
Proof.
  intros w2. destruct (perform_takes c1 w A Hrep) as (ops1 & A1 & _ & Hrep1 & Ht1).
  rewrite Hwin in Hrep1, Ht1. cbn [fst snd] in *.
  destruct (winning_call _ _ _ _ _ Hc1 Hadv Ht1) as (l1 & Hl1 & Hlt).
  destruct (perform_all_goes_on k Hothers calls w1 A1 l1 Hkeep Hrep1 Hl1) as (A2 & l2 & Hrep2 & Hl2 & Hle & _).
  destruct (perform_takes c2 w2 A2 Hrep2) as (ops2 & A3 & Hops2 & Hrep3 & Ht2).
  destruct (others_go_on k Hothers ops2 A2 l2 Hops2 Hl2) as (l3 & Hl3 & Hle3 & _).
  destruct (stale_call _ _ _ _ _ _ _ Hc2 Hl3 ltac:(lia) Ht2) as [Hw ->].
  destruct (perform c2 w2) as [went w3]. split; [exact Hw|]. by exists A2, ops2.
Qed.

(** C33: what a call of the store makes of a lease row, whatever other writers do
    before its write.  Only the deletion of a completed lease removes a row; the
    counter never goes back and the published parents never change; the owner changes
    only with the counter; completion is permanent, and comes only from the owner's
    [mark_complete] at the counter of the row; the checkpoint changes only by the
    owner's [checkpoint] at that counter; and a row that was not there is a shard as it
    was published, or a lease at counter 1.  So through any sequence of calls, as long as the row
    is not deleted, its counter, parents and completion go on. *)
Theorem lease_row_history w A (Hrep : represents (rows_of w) A) :
  (∀ c, ∃ ops A', Forall theirs ops ∧ represents (rows_of (perform c w).2) A' ∧
     ∀ k, row_step c k (exec ops A !! k) (A' !! k)) ∧
  ∀ calls k l, A !! k = Some l → CallDelete k ∉ calls → (∀ op, theirs op → op ≠ OpDelete k) →
    ∃ A' l', represents (rows_of (perform_all calls w).2) A' ∧ A' !! k = Some l' ∧ goes_on l l'.
Proof.
  split.
  - intros c. destruct (perform_takes c w A Hrep) as (ops & A' & Hops & Hrep' & Ht).
    exists ops, A'. split_and!; [done..|]. intros k. by eapply call_row_step.
  - intros calls k l Hl Hd Hothers. by eapply perform_all_goes_on.
Qed.
End calls.
