(* ===== verification/DynamoSim.v ===== *)
(** * A concrete DynamoDB

    An in-memory service that satisfies [DynamoLaws], so that the theorems about
    the store can be run: it evaluates the expressions the store sends, never
    throttles, and has no other writers. *)

From Stdlib Require Import DecimalString.
From stdpp Require Import base gmap numbers list strings.
From S2P Require Import Prelude Core Coordinator LeaseTable DynamoDb LeaseRefine LeaseHistory.

Record SimDb := {
  sim_rows : Rows;
  sim_status : option TableStatus;   (* [None]: the table does not exist *)
}.

Definition set_rows (rows : Rows) (w : SimDb) : SimDb :=
  {| sim_rows := rows; sim_status := sim_status w |}.

Definition sim_counter_is (vals it : Item) : bool :=
  match it !! LEASE_COUNTER, vals !! ":c" with
  | Some (AvN a), Some (AvN b) => bool_decide (a = b)
  | _, _ => false
  end.

Definition sim_owner_is (vals it : Item) : bool :=
  match vals !! ":o" with
  | Some (AvS o) => bool_decide (it !! LEASE_OWNER ≫= as_s = Some o)
  | _ => false
  end.

Definition sim_cond (e : string) (vals it : Item) : bool :=
  if decide (e = "attribute_not_exists(leaseKey)") then
    match it !! LEASE_KEY with None => true | Some _ => false end
  else if decide (e = "leaseCounter = :c") then sim_counter_is vals it
  else if decide (e = HELD) then sim_counter_is vals it && sim_owner_is vals it
  else
    match it !! LEASE_KEY, it !! COMPLETED with
    | Some _, Some (AvBool true) => true
    | _, _ => false
    end.

Definition sim_bump (it : Item) : Item :=
  match it !! LEASE_COUNTER with
  | Some (AvN s) =>
      match NilZero.uint_of_string s with
      | Some d => <[LEASE_COUNTER := num (N.of_uint d + 1)]> it
      | None => it
      end
  | _ => <[LEASE_COUNTER := num 1]> it
  end.

Definition sim_set (attr var : string) (vals it : Item) : Item :=
  match vals !! var with Some v => <[attr := v]> it | None => it end.

Definition sim_update (e : string) (vals it : Item) : Item :=
  if decide (e = "SET leaseOwner = :o, leaseCounter = leaseCounter + :one") then
    sim_set LEASE_OWNER ":o" vals (sim_bump it)
  else if decide (e = "SET leaseCounter = leaseCounter + :one") then sim_bump it
  else if decide (e = "SET checkpoint = :cp, leaseCounter = leaseCounter + :one") then
    sim_set CHECKPOINT ":cp" vals (sim_bump it)
  else if decide (e = "SET completed = :t") then sim_set COMPLETED ":t" vals it
  else if decide (e = "REMOVE leaseOwner SET leaseCounter = leaseCounter + :one") then
    delete LEASE_OWNER (sim_bump it)
  else sim_set LEASE_OWNER ":w" vals (sim_bump it).

Definition refused : SdkError :=
  {| err_code := Some CONDITIONAL_CHECK_FAILED; err_display := "refused" |}.
Definition not_found : SdkError :=
  {| err_code := Some "ResourceNotFoundException"; err_display := "not found" |}.

Definition item_key (it : Item) : string := default EmptyString (it !! LEASE_KEY ≫= as_s).

Definition sim_write {A} (cond : option string) (vals : Item) (k : string) (a : A) (new : Rows)
  : M SimDb (Result A SdkError) :=
  λ w,
    if match cond with
       | Some c => sim_cond c vals (default ∅ (sim_rows w !! k))
       | None => true
       end
    then (Ok a, set_rows new w) else (Err refused, w).

#[export] Instance sim_client : DynamoClient SimDb := {|
  describe_table _ := λ w, (match sim_status w with
                            | Some s => Ok (Some s) | None => Err not_found end, w);
  create_table _ := λ w, (Ok tt, {| sim_rows := ∅; sim_status := Some TableActive |});
  update_continuous_backups _ _ := λ w, (Ok tt, w);
  scan _ _ := λ w, (Ok ((map_to_list (sim_rows w)).*2, None), w);
  get_item _ key _ := λ w, (Ok (sim_rows w !! item_key key), w);
  put_item r := λ w,
    let k := item_key (put_attrs r) in
    sim_write (put_condition r) ∅ k tt (<[k := put_attrs r]> (sim_rows w)) w;
  update_item r := λ w,
    let k := item_key (upd_key r) in
    let new := sim_update (upd_expression r) (upd_values r)
                 (default (upd_key r) (sim_rows w !! k)) in
    sim_write (upd_condition r) (upd_values r) k (if upd_return_new r then Some new else None)
      (<[k := new]> (sim_rows w)) w;
  delete_item r := λ w,
    let k := item_key (del_key r) in
    sim_write (del_condition r) (del_values r) k tt (delete k (sim_rows w)) w;
  sleep_ms _ := λ w, (tt, w);
|}.

Lemma sim_bump_num it n :
  it !! LEASE_COUNTER = Some (num n) → sim_bump it = <[LEASE_COUNTER := num (n + 1)]> it.
Proof.
  intros Hc. unfold sim_bump. rewrite Hc. unfold num at 1.
  by rewrite uint_of_u64_string, DecimalN.Unsigned.of_to.
Qed.

Lemma sim_counter_is_num vals it n c :
  vals !! ":c" = Some (num c) → it !! LEASE_COUNTER = Some (num n) →
  sim_counter_is vals it = (n =? c)%N.
Proof.
  intros Hc Hn. unfold sim_counter_is. rewrite Hn, Hc. unfold num. apply eq_true_iff_eq.
  rewrite bool_decide_eq_true, N.eqb_eq. split; [apply u64_to_string_inj|by intros ->].
Qed.

Lemma sim_write_outcome {A} cond vals k (a : A) new w r w' :
  sim_write cond vals k a new w = (r, w') →
  write_outcome (sim_rows w)
    (match cond with
     | Some c => sim_cond c vals (default ∅ (sim_rows w !! k))
     | None => true
     end) new r (sim_rows w').
Proof.
  unfold sim_write. destruct (match cond with Some _ => _ | None => _ end) eqn:Hc;
    intros [= <- <-]; [by constructor|by apply wo_refused].
Qed.

#[export] Program Instance sim_laws (table : string) : DynamoLaws SimDb table := {|
  rows := sim_rows;
  eval_cond := sim_cond;
  eval_update := sim_update;
  others w _ t := t = sim_rows w;
  other_op _ := False;
|}.
Next Obligation. intros table w w' t A -> Hrep. by exists []. Qed.
Next Obligation. done. Qed.
Next Obligation.
  intros table vals it c Hc. split.
  - intros n Hn. by apply sim_counter_is_num.
  - intros Hn. unfold sim_cond. simpl. unfold sim_counter_is. by rewrite Hn.
Qed.
Next Obligation.
  intros table vals it c o Hc Ho. split.
  - intros n Hn. unfold sim_cond. simpl. f_equal; [by apply sim_counter_is_num|].
    unfold sim_owner_is. by rewrite Ho.
  - intros Hn. unfold sim_cond. simpl. unfold sim_counter_is. by rewrite Hn.
Qed.
Next Obligation. done. Qed.
Next Obligation.
  intros table vals it n o Hn Ho _. unfold sim_update, sim_set. simpl.
  by rewrite Ho, (sim_bump_num _ _ Hn).
Qed.
Next Obligation.
  intros table vals it n Hn _. unfold sim_update. simpl. by rewrite (sim_bump_num _ _ Hn).
Qed.
Next Obligation.
  intros table vals it n q Hn Hq _. unfold sim_update, sim_set. simpl.
  by rewrite Hq, (sim_bump_num _ _ Hn).
Qed.
Next Obligation. intros table vals it Ht. unfold sim_update, sim_set. simpl. by rewrite Ht. Qed.
Next Obligation.
  intros table vals it n Hn _. unfold sim_update. simpl. by rewrite (sim_bump_num _ _ Hn).
Qed.
Next Obligation.
  intros table vals it n w Hn Hw _. unfold sim_update, sim_set. simpl. rewrite Hw.
  destruct Hn as [Hn|[Hn ->]]; [by rewrite (sim_bump_num _ _ Hn)|].
  unfold sim_bump. by rewrite Hn.
Qed.
Next Obligation. done. Qed.
Next Obligation. done. Qed.
Next Obligation. by intros table k w r w' [= <- <-]. Qed.
Next Obligation.
  intros table k attrs cond w r w' Hcall Hk. exists (sim_rows w). split; [done|].
  simpl in Hcall. unfold item_key in Hcall. rewrite Hk in Hcall. simpl in Hcall.
  by apply sim_write_outcome in Hcall.
Qed.
Next Obligation.
  intros table k expr cond vals ret_new w r w' Hcall. exists (sim_rows w). split; [done|].
  simpl in Hcall. unfold item_key in Hcall. simpl in Hcall.
  split; [by apply sim_write_outcome in Hcall|].
  intros -> a ->. unfold sim_write in Hcall. repeat case_match; simplify_eq; eauto.
Qed.
Next Obligation.
  intros table k cond vals w r w' Hcall. exists (sim_rows w). split; [done|].
  simpl in Hcall. by apply sim_write_outcome in Hcall.
Qed.

(** ** The theorems on a concrete table

    Shard [s] is held by worker [a] at counter 7, with checkpoint [seq-3]. *)

Definition demo_store : DynamoDbLeaseStore := DynamoDbLeaseStore_new "leases".
Definition demo_lease : Lease := fresh_lease "s" (Some "a") 7 (Some "seq-3") ["p"].
Definition demo_table : Table := {["s" := demo_lease]}.
Definition demo_db : SimDb :=
  {| sim_rows := {["s" := lease_item demo_lease]}; sim_status := Some TableActive |}.

Lemma demo_represents : represents (sim_rows demo_db) demo_table.
Proof.
  split; [unfold demo_table; by rewrite map_fmap_singleton|].
  intros k l Hl. unfold demo_table in Hl. by apply lookup_singleton_Some in Hl as [<- <-].
Qed.

Lemma lease_row_roundtrip_witness : item_to_lease (lease_item demo_lease) = demo_lease.
Proof. apply lease_row_roundtrip. vm_compute. discriminate. Defined.

Lemma list_all_returns_every_page_witness :
  list_all demo_store 1 demo_db =
    (Some (Ok (item_to_lease <$> concat [[lease_item demo_lease]])), demo_db).
Proof.
  apply (list_all_returns_every_page demo_store demo_db [[lease_item demo_lease]] demo_db 1).
  - apply scans_last. vm_compute. reflexivity.
  - simpl. lia.
Defined.

Lemma ensure_table_leaves_existing_alone_witness :
  sim_rows (ensure_table (with_table_config demo_store {| billing := PayPerRequest; pitr := true |})
              3 demo_db).2 = sim_rows demo_db ∧
  (ensure_table (with_table_config demo_store {| billing := PayPerRequest; pitr := true |})
     3 demo_db).1 = Some (Ok tt).
Proof.
  split; [|vm_compute; reflexivity].
  apply (ensure_table_leaves_existing_alone
           (with_table_config demo_store {| billing := PayPerRequest; pitr := true |})
           (λ w, sim_rows w = sim_rows demo_db) 3 demo_db (Some TableActive) demo_db);
    [reflexivity|reflexivity|intros w Hw; exact Hw|intros n w Hw; exact Hw].
Defined.

(** [b] takes the lease over: the handle it gets has no checkpoint, although the
    row still carries [a]'s. *)
Lemma acquire_creates_or_takes_over_witness :
  (∃ ops A', Forall (other_op (W := SimDb) (table := ds_table demo_store)) ops ∧
     represents (rows (table := ds_table demo_store) (acquire demo_store "s" "b" demo_db).2) A' ∧
     claim_outcome "s" "b" (exec ops demo_table) A' (acquire demo_store "s" "b" demo_db).1) ∧
  (acquire demo_store "s" "b" demo_db).1 = Ok (fresh_lease "s" (Some "b") 8 None []) ∧
  (acquire demo_store "s" "b" demo_db).2 =
    set_rows {["s" := lease_item (fresh_lease "s" (Some "b") 8 (Some "seq-3") ["p"])]} demo_db.
Proof.
  split; [|repeat split; vm_compute; reflexivity].
  apply (acquire_creates_or_takes_over demo_store "s" "b" demo_db demo_table).
  exact demo_represents.
Defined.

(** [a] renews at the counter it holds; [b] cannot. *)
Lemma holder_writes_are_atomic_witness :
  steps (ds_table demo_store) (OpRenew "s" "a" 7) (renew demo_store "s" "a" 7)
    (atomic (OpRenew "s" "a" 7) (λ _ x, x = u64_add 7 1)) ∧
  (renew demo_store "s" "a" 7 demo_db).1 = Ok 8%N ∧
  (renew demo_store "s" "b" 7 demo_db).1 = Err Lost ∧
  (renew demo_store "s" "a" 6 demo_db).1 = Err Lost.
Proof.
  split; [|repeat split; vm_compute; reflexivity]. apply (holder_writes_are_atomic demo_store "s" "a" 7 "seq-4").
Defined.

Lemma bids_publications_and_heartbeats_are_atomic_witness :
  steps (ds_table demo_store) (OpClaim "s" "b" 7)
    (try_acquire_leadership demo_store "s" "b" (Some 7%N))
    (bid_outcome (OpClaim "s" "b" 7) (u64_add 7 1)) ∧
  (try_acquire_leadership demo_store "s" "b" None demo_db).1 = Ok None ∧
  (heartbeat demo_store "b" demo_db).1 = Ok 1%N.
Proof.
  split; [|repeat split; vm_compute; reflexivity].
  apply (bids_publications_and_heartbeats_are_atomic demo_store "s" "b" 7 [] None "b").
Defined.

(** Worker [b] takes the lease over from [a] at counter 7 and renews it; [a]'s checkpoint
    is refused, and the row is [b]'s. *)
Lemma winner_fences_out_stale_writers_witness :
  let w1 := (perform demo_store (CallBid "s" "b" (Some 7%N)) demo_db).2 in
  let w2 := (perform_all demo_store [CallRenew "s" "b" 8] w1).2 in
  (let '(went, w3) := perform demo_store (CallCheckpoint "s" "a" 7 "seq-9") w2 in
   went = false ∧ ∃ A2 ops, represents (sim_rows w2) A2 ∧ Forall (λ _, False) ops ∧
     represents (sim_rows w3) (exec ops A2)) ∧
  sim_rows (perform demo_store (CallCheckpoint "s" "a" 7 "seq-9") w2).2 =
    {["s" := lease_item (fresh_lease "s" (Some "b") 9 (Some "seq-3") ["p"])]}.
Proof.
  intros w1 w2. split; [|vm_compute; reflexivity].
  assert (represents (rows (W := SimDb) (table := ds_table demo_store) demo_db) demo_table) as Hrep
    by exact demo_represents.
  assert (perform demo_store (CallBid "s" "b" (Some 7%N)) demo_db = (true, w1)) as Hwin by reflexivity.
  assert (CallDelete "s" ∉ [CallRenew "s" "b" 8]) as Hkeep by (by intros Hin%list_elem_of_singleton).
  pose proof (winner_fences_out_stale_writers demo_store (CallBid "s" "b" (Some 7%N))
    (CallCheckpoint "s" "a" 7 "seq-9") [CallRenew "s" "b" 8] "s" 7 7 demo_db w1 demo_table
    Hrep eq_refl eq_refl Hwin Hkeep (λ op (H : False), match H with end) eq_refl (N.le_refl 7)) as H.
  exact H.
Defined.

(** The history of ["s"]: taken over, checkpointed and completed. *)
Lemma lease_row_history_witness :
  let calls := [CallAcquire "s" "b"; CallCheckpoint "s" "b" 8 "seq-9"; CallComplete "s" "b" 9; CallRenew "s" "a" 7] in
  (∃ A' l', represents (sim_rows (perform_all demo_store calls demo_db).2) A' ∧ A' !! "s" = Some l' ∧
     goes_on (fresh_lease "s" (Some "a") 7 (Some "seq-3") ["p"]) l') ∧
  sim_rows (perform_all demo_store calls demo_db).2 =
    {["s" := lease_item (with_completed (fresh_lease "s" (Some "b") 9 (Some "seq-9") ["p"]))]}.
Proof.
  intros calls. split; [|vm_compute; reflexivity].
  assert (represents (rows (W := SimDb) (table := ds_table demo_store) demo_db) demo_table) as Hrep
    by exact demo_represents.
  apply (proj2 (lease_row_history demo_store demo_db demo_table Hrep) calls "s"); [reflexivity| |by intros op []].
  intros Hin. unfold calls in Hin. repeat (apply elem_of_cons in Hin as [Hin|Hin]; [done|]). by apply elem_of_nil in Hin.
Defined.
