(* ===== verification/Interfaces.v ===== *)
(** * What the worker asks of its collaborators ([worker/src/lib.rs])

    The async traits of the worker crate as type classes over a world [W]: the
    stream, the lease table and the application's record processors.  Each
    method is a call into the world that may fail. *)

From stdpp Require Import base gmap numbers list strings.
From S2P Require Import Prelude Core Coordinator Scheduler.

Record LeaseHandle := {
  lh_owner : string;
  lh_counter : N;
  lh_checkpoint : option string;
}.

Record LeaseView := {
  lv_completed : bool;
}.

Class AsyncStreamSource (W : Type) := {
  describe_shards : M W (Result (list ShardMeta) WorkerError);
  get_records : ShardId → option SequenceNumber → M W (Result RecordBatch WorkerError);
  describe_child_shards : ShardId → M W (Result (list ShardMeta) WorkerError);
}.

(** The trait's default: filter a full describe. *)
Definition children_of (parent : ShardId) (ms : list ShardMeta) : list ShardMeta :=
  filter (λ m, parent ∈ sm_parents m) ms.

Definition default_describe_child_shards {W}
    (describe : M W (Result (list ShardMeta) WorkerError)) (parent : ShardId)
  : M W (Result (list ShardMeta) WorkerError) :=
  ms <-? describe ;; ret (Ok (children_of parent ms)).

Class AsyncLeaseStore (W : Type) := {
  get : string → M W (Result (option LeaseView) WorkerError);
  list_leases : M W (Result (list RawLease) WorkerError);
  acquire : string → string → M W (Result LeaseHandle WorkerError);
  renew : string → string → N → M W (Result N WorkerError);
  heartbeat : string → M W (Result N WorkerError);
  checkpoint : string → string → N → string → M W (Result N WorkerError);
  mark_complete : string → string → N → M W (Result unit WorkerError);
  release : string → string → N → M W (Result unit WorkerError);
  delete_lease : string → M W (Result unit WorkerError);
  create_shard_lease : string → list ShardId → option string → M W (Result unit WorkerError);
  try_acquire_leadership : string → string → option N → M W (Result (option N) WorkerError);
}.

(** The default of [heartbeat], for stores without cross-worker liveness. *)
Definition default_heartbeat {W} (_worker : string) : M W (Result N WorkerError) := ret (Ok 0%N).

(** One consumer per shard: [create] makes it, its state lives in the world. *)
Class ShardConsumerFactory (W : Type) := {
  Consumer : Type;
  create : ShardId → M W Consumer;
  deliver : Consumer → list Record_ → M W (Result (option string) WorkerError);
  consumer_ended : Consumer → M W (Result unit WorkerError);
  consumer_lost : Consumer → M W (Result unit WorkerError);
}.

(** The default of [AsyncShardConsumer::lease_lost]. *)
Definition default_lease_lost {W C} (_ : C) : M W (Result unit WorkerError) := ret (Ok tt).

(** The synchronous processors ([core/src/lib.rs], [RecordProcessorFactory]): one
    object per shard. *)
Class RecordProcessorFactory (W : Type) := {
  Processor : Type;
  create_processor : ShardId → M W Processor;
  processor_initialize : Processor → ShardId → M W unit;
  processor_process : Processor → list Record_ → M W unit;
  processor_ended : Processor → ShardId → M W unit;
  processor_lost : Processor → ShardId → M W unit;
}.

(** [SyncConsumerFactory]: a synchronous processor as a consumer that always
    acknowledges its batch at the last record. *)
Record SyncConsumer (P : Type) := {
  sc_processor : P;
  sc_shard : ShardId;
}.
Arguments sc_processor {P}.
Arguments sc_shard {P}.

Definition sync_create {W} `{RecordProcessorFactory W} (shard : ShardId)
  : M W (SyncConsumer Processor) :=
  p <- create_processor shard ;;
  processor_initialize p shard ;;;
  ret {| sc_processor := p; sc_shard := shard |}.

Definition sync_deliver {W} `{RecordProcessorFactory W} (c : SyncConsumer Processor)
    (records : list Record_) : M W (Result (option string) WorkerError) :=
  processor_process (sc_processor c) records ;;; ret (Ok (last_seq records)).

Definition sync_ended {W} `{RecordProcessorFactory W} (c : SyncConsumer Processor)
  : M W (Result unit WorkerError) :=
  processor_ended (sc_processor c) (sc_shard c) ;;; ret (Ok tt).

Definition sync_lost {W} `{RecordProcessorFactory W} (c : SyncConsumer Processor)
  : M W (Result unit WorkerError) :=
  processor_lost (sc_processor c) (sc_shard c) ;;; ret (Ok tt).

#[export] Instance SyncConsumerFactory {W} `{RecordProcessorFactory W}
  : ShardConsumerFactory W | 100 := {|
  create := sync_create;
  deliver := sync_deliver;
  consumer_ended := sync_ended;
  consumer_lost := sync_lost;
|}.

(** Parent before child: not complete, and every parent complete or gone. *)
Definition eligible (meta : ShardMeta) (completed existing : gset string) : bool :=
  bool_decide (sm_id meta ∉ completed) &&
  forallb (λ p, bool_decide (p ∈ completed) || bool_decide (p ∉ existing)) (sm_parents meta).

Lemma eligible_spec meta completed existing :
  eligible meta completed existing = true ↔
  (sm_id meta ∉ completed) ∧ ∀ p, p ∈ sm_parents meta → p ∈ completed ∨ p ∉ existing.
Proof.
  unfold eligible. rewrite andb_true_iff, bool_decide_eq_true, forallb_True_elem.
  setoid_rewrite orb_true_iff. by setoid_rewrite bool_decide_eq_true.
Qed.
