(* ===== verification/Metrics.v ===== *)
(** * Metrics sink and clock ([core/src/metrics.rs])

    The observations the engine emits, as an interface whose default does
    nothing.  The clock the fleet reads is an interface too: instants and
    durations are in nanoseconds. *)

From stdpp Require Import base numbers list strings.
From S2P Require Import Prelude Core.

Record ShardMetrics := {
  mt_shard_id : ShardId;
  mt_records : N;
  mt_bytes : N;
  mt_millis_behind_latest : option Z;
}.

Class MetricsSink (W : Type) := {
  on_batch : ShardMetrics → M W unit;
  on_shard_end : ShardId → M W unit;
  on_describe_stream : M W unit;
  on_lease_acquired : ShardId → M W unit;
  on_lease_lost : ShardId → M W unit;
  on_leases_held : N → M W unit;
  on_processing_slot_wait : ShardId → N → M W unit;
  on_max_processing_concurrency : N → M W unit;
  on_processing_queue_depth : N → M W unit;
}.

(** Every method keeps its no-op default. *)
#[export] Instance noop_sink {W} : MetricsSink W | 100 := {|
  on_batch _ := ret tt;
  on_shard_end _ := ret tt;
  on_describe_stream := ret tt;
  on_lease_acquired _ := ret tt;
  on_lease_lost _ := ret tt;
  on_leases_held _ := ret tt;
  on_processing_slot_wait _ _ := ret tt;
  on_max_processing_concurrency _ := ret tt;
  on_processing_queue_depth _ := ret tt;
|}.

(** [Instant] and [Duration]. *)
Definition Instant : Type := N.
Definition Duration : Type := N.

Definition from_millis (ms : N) : Duration := (ms * 1000000)%N.
Definition as_millis (d : Duration) : N := (d / 1000000)%N.
(** [duration_since] and [saturating_duration_since]: zero when earlier is later. *)
Definition duration_since (now earlier : Instant) : Duration := (now - earlier)%N.

Class Clock (W : Type) := {
  instant_now : M W Instant;
  sleep : Duration → M W unit;
}.

(** The metrics of one delivered batch. *)
Definition batch_metrics (shard : ShardId) (b : RecordBatch) : ShardMetrics :=
  {| mt_shard_id := shard;
     mt_records := N.of_nat (length (rb_records b));
     mt_bytes := foldr (λ r n, (N.of_nat (length (rec_data r)) + n)%N) 0%N (rb_records b);
     mt_millis_behind_latest := rb_millis_behind_latest b |}.
