(* ===== verification/CoreTests.v ===== *)
(** * The tests of the core crate, run on the model

    [coordinator.rs], [taker.rs], [cleanup.rs], [backoff.rs], [leader.rs],
    [multistream.rs], [metrics.rs] and [lib.rs]: each test is a definition that is
    [true] when all the test asserts holds, and one example evaluates them all. *)

From stdpp Require Import base gmap numbers list strings.
From S2P Require Import Prelude Core Position Backoff Multistream Taker Coordinator Leader Cleanup.
From S2P Require Import Scheduler InMem Metrics.

(** ** [coordinator.rs] *)

Definition DUR : N := 1000.

Definition row (key : string) (owner : option string) (counter : N) (completed : bool) : RawLease :=
  {| rl_lease_key := key; rl_owner := owner; rl_lease_counter := counter;
     rl_completed := completed; rl_checkpoint := None; rl_parents := [] |}.

Definition hb (worker : string) (counter : N) : RawLease :=
  row (heartbeat_key worker) (Some worker) counter false.

Definition balanced_with_hb : list RawLease :=
  [row "a" (Some "w1") 1 false; row "b" (Some "w1") 1 false;
   row "c" (Some "w2") 5 false; row "d" (Some "w2") 5 false; hb "w1" 100; hb "w2" 200].

(** What each of a sequence of scans returns. *)
Fixpoint ticks (c : LeaseCoordinator) (scans : list (list RawLease * N)) : list (list string) :=
  match scans with
  | [] => []
  | (rows, now_ms) :: scans' =>
      let '(take, c') := tick c rows now_ms in take :: ticks c' scans'
  end.

Definition w1_ticks : list (list RawLease * N) → list (list string) :=
  ticks (LeaseCoordinator_new "w1" 10 DUR).

Definition live_worker_keeps_all_shards_even_when_shard_counters_never_move : bool :=
  let rows := balanced_with_hb in
  bool_decide (w1_ticks [(rows, 0%N); (<[5 := hb "w2" 201]> rows, (DUR * 5)%N)] = [[]; []]).

Definition dead_worker_frees_all_its_shards_at_once : bool :=
  let rows := balanced_with_hb in
  bool_decide (sort_by_key id <$> w1_ticks [(rows, 0%N); (rows, DUR + 1)%N] = [[]; ["c"; "d"]]).

Definition worker_within_duration_not_expired : bool :=
  let rows := balanced_with_hb in
  bool_decide (w1_ticks [(rows, 0%N); (rows, DUR / 2)%N] = [[]; []]).

Definition advancing_heartbeat_resets_liveness : bool :=
  let advanced := <[5 := hb "w2" 201]> balanced_with_hb in
  bool_decide (tail (w1_ticks [(balanced_with_hb, 0%N); (advanced, DUR * 5)%N;
                               (advanced, DUR * 5 + DUR / 2)%N]) = [[]; []]).

Definition owner_with_no_heartbeat_row_is_reclaimed_after_grace : bool :=
  let rows := [row "a" (Some "w1") 1 false; row "b" (Some "w1") 1 false;
               row "c" (Some "w2") 5 false; row "d" (Some "w2") 5 false; hb "w1" 100] in
  bool_decide (sort_by_key id <$> w1_ticks [(rows, 0%N); (rows, DUR + 1)%N] = [[]; ["c"; "d"]]).

Definition heartbeat_rows_are_never_taken : bool :=
  let rows := [row "a" (Some "w1") 1 false; hb "w2" 5] in
  bool_decide (w1_ticks [(rows, 0%N); (rows, DUR * 10)%N] = [[]; []]).

Definition unowned_taken_immediately : bool :=
  let rows := [row "a" None 0 false; row "b" None 0 false] in
  bool_decide (sort_by_key id <$> w1_ticks [(rows, 0%N)] = [["a"; "b"]]).

Definition forgets_disappeared_workers : bool :=
  let rows := [row "x" (Some "w2") 5 false; hb "w2" 1] in
  bool_decide (last (w1_ticks [(rows, 0%N); ([], DUR + 1)%N; (rows, DUR * 100)%N]) = Some []).

(** ** [taker.rs] *)

Definition snap (key : string) (owner : option string) (expired completed : bool) : LeaseSnapshot :=
  {| ls_lease_key := key; ls_owner := owner; ls_expired := expired; ls_completed := completed |}.

Definition takes_unowned_up_to_fair_share : bool :=
  let leases := [snap "a" None false false; snap "b" None false false] in
  bool_decide (compute_leases_to_take leases "w1" 10 = ["a"; "b"]).

Definition takes_expired_lease_from_dead_worker : bool :=
  let leases := [snap "a" (Some "w1") false false; snap "b" (Some "w2") true false] in
  bool_decide (compute_leases_to_take leases "w1" 10 = ["b"]).

Definition steals_from_most_loaded_when_no_available : bool :=
  let leases := [snap "a" (Some "w1") false false; snap "b" (Some "w2") false false;
                 snap "c" (Some "w2") false false; snap "d" (Some "w2") false false] in
  match compute_leases_to_take leases "w1" 10 with
  | [k] => bool_decide (k ∈ ["b"; "c"; "d"])
  | _ => false
  end.

Definition balanced_takes_nothing : bool :=
  let leases := [snap "a" (Some "w1") false false; snap "b" (Some "w1") false false;
                 snap "c" (Some "w2") false false; snap "d" (Some "w2") false false] in
  bool_decide (compute_leases_to_take leases "w1" 10 = []).

Definition respects_max_cap : bool :=
  let leases := (λ k, snap k None false false) <$> ["a"; "b"; "c"] in
  length (compute_leases_to_take leases "w1" 2) =? 2.

Definition skips_completed_leases : bool :=
  let leases := [snap "a" None false true; snap "b" None false false] in
  bool_decide (compute_leases_to_take leases "w1" 10 = ["b"]).

Definition does_not_steal_from_worker_at_target : bool :=
  let leases := [snap "a" (Some "w1") false false; snap "b" (Some "w2") false false;
                 snap "c" (Some "w2") false false] in
  bool_decide (compute_leases_to_take leases "w1" 10 = []).

(** ** [cleanup.rs] *)

Definition meta (id : string) (parents : list string) : ShardMeta :=
  {| sm_id := id; sm_parents := parents |}.

Definition st (completed processing : bool) : LeaseState :=
  {| st_completed := completed; st_processing := processing |}.

Definition deletes_completed_parent_once_child_processing : bool :=
  bool_decide (leases_safe_to_delete [meta "p" []; meta "c" ["p"]]
    (<["p" := st true true]> {["c" := st false true]}) = ["p"]).

Definition retains_parent_while_child_not_yet_processing : bool :=
  bool_decide (leases_safe_to_delete [meta "p" []; meta "c" ["p"]]
    (<["p" := st true true]> {["c" := st false false]}) = []).

Definition retains_parent_when_child_lease_missing : bool :=
  bool_decide (leases_safe_to_delete [meta "p" []; meta "c" ["p"]]
    {["p" := st true true]} = []).

Definition merge_parents_deletable_once_shared_child_processing : bool :=
  bool_decide (leases_safe_to_delete [meta "p1" []; meta "p2" []; meta "c" ["p1"; "p2"]]
    (<["p1" := st true true]> (<["p2" := st true true]> {["c" := st false true]})) = ["p1"; "p2"]).

Definition does_not_delete_incomplete_parent : bool :=
  bool_decide (leases_safe_to_delete [meta "p" []; meta "c" ["p"]]
    (<["p" := st false true]> {["c" := st false true]}) = []).

Definition retains_completed_leaf_with_no_children : bool :=
  bool_decide (leases_safe_to_delete [meta "solo" []] {["solo" := st true true]} = []).

(** ** [backoff.rs] *)

Definition sleeps_of (b : PollBackoff) (history : list bool) : list N := (sleeps b history).1.

Definition catch_up_polls_at_the_throttle_floor : bool :=
  bool_decide (sleeps_of (PollBackoff_new 250 1000 5000) [true; true] = [250; 250]%N).

Definition idle_backs_off_exponentially_to_the_cap : bool :=
  bool_decide (sleeps_of (PollBackoff_new 250 1000 5000) (replicate 5 false) =
               [1000; 2000; 4000; 5000; 5000]%N).

Definition records_reset_the_idle_backoff : bool :=
  bool_decide (drop 2 (sleeps_of (PollBackoff_new 250 1000 5000) [false; false; true; false]) =
               [250; 1000]%N).

Definition ddb_defaults_are_sane : bool :=
  bool_decide (sleeps_of ddb_defaults [true; false] = [250; 1000]%N).

(** ** [leader.rs] *)

Definition lease (key : string) (parents : list string) : RawLease :=
  {| rl_lease_key := key; rl_owner := None; rl_lease_counter := 0; rl_completed := false;
     rl_checkpoint := None; rl_parents := parents |}.

Definition reconstructs_graph_and_skips_leader_sentinel : bool :=
  let rows := [lease LEADER_LEASE_KEY []; lease "shard-0" []; lease "shard-1" ["shard-0"]] in
  let metas := shard_metas_from_leases rows in
  bool_decide (sm_id <$> metas = ["shard-0"; "shard-1"]) &&
  bool_decide (sm_parents <$> head (filter (λ m, sm_id m = "shard-1") metas) = Some ["shard-0"]).

Definition merge_child_carries_both_parents : bool :=
  let rows := [lease "p-a" []; lease "p-b" []; lease "child" ["p-a"; "p-b"]] in
  bool_decide (sm_parents <$> head (filter (λ m, sm_id m = "child") (shard_metas_from_leases rows))
               = Some ["p-a"; "p-b"]).

Definition empty_table_yields_no_shards : bool := bool_decide (shard_metas_from_leases [] = []).

(** ** [multistream.rs] *)

Definition round_trips_a_plain_stream_name : bool :=
  let key := multi_stream_lease_key "orders-stream" "shardId-000001-abcd" in
  bool_decide (key = "orders-stream:shardId-000001-abcd") &&
  bool_decide (parse_lease_key key = Some ("orders-stream", "shardId-000001-abcd")) &&
  bool_decide (shard_of key = "shardId-000001-abcd").

Definition round_trips_a_stream_arn_with_embedded_colons : bool :=
  let arn :=
    "arn:aws:dynamodb:us-east-1:123456789012:table/Orders/stream/2026-07-01T21:52:30.123" in
  let shard := "shardId-00000001600000000000-a1b2c3d4" in
  let key := multi_stream_lease_key arn shard in
  match parse_lease_key key with
  | Some (stream, got_shard) => bool_decide (stream = arn) && bool_decide (got_shard = shard)
  | None => false
  end && bool_decide (shard_of key = shard).

Definition single_stream_key_is_the_bare_shard : bool :=
  let key := single_stream_lease_key "shardId-000001-abcd" in
  bool_decide (key = "shardId-000001-abcd") && bool_decide (parse_lease_key key = None) &&
  bool_decide (shard_of key = "shardId-000001-abcd").

Definition distinct_streams_do_not_collide_on_same_shard_id : bool :=
  let shard := "shardId-000001" in
  negb (bool_decide (multi_stream_lease_key "stream-A" shard =
                     multi_stream_lease_key "stream-B" shard)).

(** ** [metrics.rs]: sinks that override some methods and keep the defaults of the rest *)

Definition CapturedBatch : Type := string * N * N * option Z.

Record Capture := { batches : list CapturedBatch; describes : N }.

Definition Capture_default : Capture := {| batches := []; describes := 0 |}.

Definition capture_sink : MetricsSink Capture := {|
  on_batch m := λ c, (tt, {|
    batches := batches c ++
      [(mt_shard_id m, mt_records m, mt_bytes m, mt_millis_behind_latest m)];
    describes := describes c |});
  on_shard_end _ := ret tt;
  on_describe_stream := λ c, (tt, {| batches := batches c; describes := describes c + 1 |});
  on_lease_acquired _ := ret tt;
  on_lease_lost _ := ret tt;
  on_leases_held _ := ret tt;
  on_processing_slot_wait _ _ := ret tt;
  on_max_processing_concurrency _ := ret tt;
  on_processing_queue_depth _ := ret tt;
|}.

Definition sink_receives_batch_and_lag : bool :=
  let _ := capture_sink in
  let c := ((on_batch {| mt_shard_id := "s0"; mt_records := 3; mt_bytes := 120;
                         mt_millis_behind_latest := Some 450%Z |} ;;;
             on_describe_stream) Capture_default).2 in
  bool_decide (batches c = [("s0", 3%N, 120%N, Some 450%Z)]) && (describes c =? 1)%N.

(** Calling every method of the sink that overrides none leaves any world as it was. *)
Definition noop_sink_is_inert : bool :=
  let _ : MetricsSink Capture := noop_sink in
  let calls := on_batch {| mt_shard_id := "s"; mt_records := 1; mt_bytes := 1;
                           mt_millis_behind_latest := Some 0%Z |} ;;;
               on_shard_end "s" ;;; on_describe_stream ;;; on_lease_acquired "s" ;;;
               on_lease_lost "s" ;;; on_leases_held 3 ;;; on_processing_slot_wait "s" 12 ;;;
               on_max_processing_concurrency 4 in
  let c := (calls Capture_default).2 in
  bool_decide (batches c = []) && (describes c =? 0)%N.

Record LeaseCapture := { acquired : list string; lost : list string; held : list N }.

Definition lease_capture_sink : MetricsSink LeaseCapture := {|
  on_batch _ := ret tt;
  on_shard_end _ := ret tt;
  on_describe_stream := ret tt;
  on_lease_acquired s := λ c,
    (tt, {| acquired := acquired c ++ [s]; lost := lost c; held := held c |});
  on_lease_lost s := λ c,
    (tt, {| acquired := acquired c; lost := lost c ++ [s]; held := held c |});
  on_leases_held n := λ c,
    (tt, {| acquired := acquired c; lost := lost c; held := held c ++ [n] |});
  on_processing_slot_wait _ _ := ret tt;
  on_max_processing_concurrency _ := ret tt;
  on_processing_queue_depth _ := ret tt;
|}.

Definition sink_receives_lease_lifecycle_events : bool :=
  let _ := lease_capture_sink in
  let c := ((on_lease_acquired "s0" ;;; on_lease_lost "s0" ;;; on_leases_held 2)
              {| acquired := []; lost := []; held := [] |}).2 in
  bool_decide (acquired c = ["s0"]) && bool_decide (lost c = ["s0"]) &&
  bool_decide (held c = [2%N]).

(** ** [lib.rs]: start positions *)

Definition default_is_trim_horizon : bool :=
  bool_decide (InitialPosition_default = InitialTrimHorizon) &&
  bool_decide (seed_checkpoint InitialTrimHorizon = None).

Definition latest_seeds_and_decodes_via_sentinel : bool :=
  let cp := seed_checkpoint InitialLatest in
  bool_decide (cp = Some "LATEST") && bool_decide (from_checkpoint cp = Latest).

Definition none_and_real_seq_decode_correctly : bool :=
  let seq := "100000000000000000000000001" in
  bool_decide (from_checkpoint None = TrimHorizon) &&
  bool_decide (from_checkpoint (Some seq) = After seq).

Definition parse_is_case_insensitive_and_rejects_unknown : bool :=
  bool_decide (parse "latest" = Some InitialLatest) &&
  bool_decide (parse "  TRIM_HORIZON " = Some InitialTrimHorizon) &&
  bool_decide (parse "tip" = None).

Definition root_shard_has_no_parents_to_inherit_from : bool :=
  bool_decide (child_seed_checkpoint [] = None).

Definition child_starts_at_beginning_when_parent_processed_records : bool :=
  bool_decide (child_seed_checkpoint [Some "100000000000000000000000009"] = None).

Definition child_starts_at_beginning_under_default_trim_horizon : bool :=
  bool_decide (child_seed_checkpoint [None] = None).

Definition child_inherits_start_mode_when_parent_completed_without_records : bool :=
  bool_decide (child_seed_checkpoint [Some "LATEST"] = Some "LATEST").

Definition merge_child_inherits_only_when_all_parents_agree : bool :=
  bool_decide (child_seed_checkpoint [Some "LATEST"; Some "LATEST"] = Some "LATEST") &&
  bool_decide (child_seed_checkpoint [Some "LATEST"; Some "100000000000000000000000009"] = None).

(** ** [lib.rs]: the scheduler on the in-memory stream ([rec] is [demo_rec]) *)

(** The processor's events after [Scheduler::new(source, leases).run(&mut proc)],
    where running out of rounds or polls counts as no answer. *)
Definition scheduled (metas : list ShardMeta) (data : gmap string (list Record_))
    (checkpoints : gmap string SequenceNumber) : option (list string) :=
  let '(r, w) := run 10 10 {| im_metas := metas; im_data := data; im_checkpoints := checkpoints;
                              im_complete := ∅; im_events := [] |} in
  (λ _, im_events w) <$> (r : option unit).

Definition parent_before_child_ordering : bool :=
  let data := <["shard-parent" := demo_rec "shard-parent" <$> ["1"; "2"]]>
              {["shard-child" := demo_rec "shard-child" <$> ["3"; "4"]]} in
  bool_decide (scheduled [meta "shard-child" ["shard-parent"]; meta "shard-parent" []] data ∅ =
    Some ["init:shard-parent"; "rec:shard-parent:1"; "rec:shard-parent:2"; "end:shard-parent";
          "init:shard-child"; "rec:shard-child:3"; "rec:shard-child:4"; "end:shard-child"]).

Definition per_shard_sequence_order : bool :=
  bool_decide (scheduled [meta "s" []] {["s" := demo_rec "s" <$> ["10"; "11"; "12"]]} ∅ =
    Some ["init:s"; "rec:s:10"; "rec:s:11"; "rec:s:12"; "end:s"]).

(** [events.iter().position(|x| x == e)]. *)
Definition position (events : list string) (e : string) : option nat :=
  fst <$> list_find (λ x, x = e) events.

Definition merge_child_waits_for_both_parents : bool :=
  let data := <["p-a" := demo_rec "p-a" <$> ["1"; "2"]]>
              (<["p-b" := demo_rec "p-b" <$> ["3"; "4"]]> {["child" := [demo_rec "child" "5"]]}) in
  default false (
    events ← scheduled [meta "child" ["p-a"; "p-b"]; meta "p-a" []; meta "p-b" []] data ∅;
    let pos := position events in
    end_a ← pos "end:p-a"; end_b ← pos "end:p-b";
    child_init ← pos "init:child"; child_rec ← pos "rec:child:5";
    a1 ← pos "rec:p-a:1"; a2 ← pos "rec:p-a:2"; b3 ← pos "rec:p-b:3"; b4 ← pos "rec:p-b:4";
    Some ((end_a <? child_init) && (end_b <? child_init) && (child_init <? child_rec) &&
          (a1 <? a2) && (a2 <? end_a) && (b3 <? b4) && (b4 <? end_b))).

Definition reshard_storm_multilevel_ordering : bool :=
  let data := <["g0" := [demo_rec "g0" "1"]]>
              (<["g1" := [demo_rec "g1" "2"]]> {["g2" := [demo_rec "g2" "3"]]}) in
  bool_decide (scheduled [meta "g2" ["g1"]; meta "g1" ["g0"]; meta "g0" []] data ∅ =
    Some ["init:g0"; "rec:g0:1"; "end:g0"; "init:g1"; "rec:g1:2"; "end:g1"; "init:g2";
          "rec:g2:3"; "end:g2"]).

Definition resumes_after_checkpoint : bool :=
  bool_decide (scheduled [meta "s" []] {["s" := demo_rec "s" <$> ["10"; "11"; "12"]]}
                 {["s" := "11"]} =
    Some ["init:s"; "rec:s:12"; "end:s"]).

Definition core_tests : list bool :=
  [live_worker_keeps_all_shards_even_when_shard_counters_never_move;
   dead_worker_frees_all_its_shards_at_once;
   worker_within_duration_not_expired;
   advancing_heartbeat_resets_liveness;
   owner_with_no_heartbeat_row_is_reclaimed_after_grace;
   heartbeat_rows_are_never_taken;
   unowned_taken_immediately;
   forgets_disappeared_workers;
   takes_unowned_up_to_fair_share;
   takes_expired_lease_from_dead_worker;
   steals_from_most_loaded_when_no_available;
   balanced_takes_nothing;
   respects_max_cap;
   skips_completed_leases;
   does_not_steal_from_worker_at_target;
   deletes_completed_parent_once_child_processing;
   retains_parent_while_child_not_yet_processing;
   retains_parent_when_child_lease_missing;
   merge_parents_deletable_once_shared_child_processing;
   does_not_delete_incomplete_parent;
   retains_completed_leaf_with_no_children;
   catch_up_polls_at_the_throttle_floor;
   idle_backs_off_exponentially_to_the_cap;
   records_reset_the_idle_backoff;
   ddb_defaults_are_sane;
   reconstructs_graph_and_skips_leader_sentinel;
   merge_child_carries_both_parents;
   empty_table_yields_no_shards;
   round_trips_a_plain_stream_name;
   round_trips_a_stream_arn_with_embedded_colons;
   single_stream_key_is_the_bare_shard;
   distinct_streams_do_not_collide_on_same_shard_id;
   sink_receives_batch_and_lag;
   noop_sink_is_inert;
   sink_receives_lease_lifecycle_events;
   default_is_trim_horizon;
   latest_seeds_and_decodes_via_sentinel;
   none_and_real_seq_decode_correctly;
   parse_is_case_insensitive_and_rejects_unknown;
   root_shard_has_no_parents_to_inherit_from;
   child_starts_at_beginning_when_parent_processed_records;
   child_starts_at_beginning_under_default_trim_horizon;
   child_inherits_start_mode_when_parent_completed_without_records;
   merge_child_inherits_only_when_all_parents_agree;
   parent_before_child_ordering;
   per_shard_sequence_order;
   merge_child_waits_for_both_parents;
   reshard_storm_multilevel_ordering;
   resumes_after_checkpoint].

Example core_tests_hold : Forall (λ passed, passed = true) core_tests.
Proof. vm_compute. repeat constructor. Qed.
