(* ===== verification/ChangeRecord.v ===== *)
(** * Change records ([core/src/record.rs], [source-ddbstreams/src/record.rs])

    One item-level change: the typed record that travels as the opaque payload of a
    stream record, and its conversion from the record of the AWS SDK.  A [BTreeMap]
    is its list of entries in key order, a [HashMap] its entries in any order.  The
    JSON encoding belongs to serde and is an interface. *)

From Stdlib Require Import Lia.
From stdpp Require Import base gmap sorting numbers list strings.
From S2P Require Import Prelude Core.

Inductive AttrValue :=
| S_ (s : string)
| N_ (n : string)
| Bool (b : bool)
| Null
| B (b : list Init.Byte.byte)
| M_ (m : list (string * AttrValue))
| L (l : list AttrValue)
| Ss (l : list string)
| Ns (l : list string)
| Bs (l : list (list Init.Byte.byte)).

Definition Item : Type := list (string * AttrValue).

Record StreamRecord := {
  event_name : option string;
  sequence_number : option string;
  size_bytes : option Z;
  stream_view_type : option string;
  keys : Item;
  new_image : option Item;
  old_image : option Item;
  approx_creation_time_ms : option Z;
}.

(** [encode] and [decode]. *)
Class RecordCodec := {
  encode : StreamRecord → list Init.Byte.byte;
  decode : list Init.Byte.byte → Result StreamRecord WorkerError;
}.

(** ** The SDK's records *)

(** [Unknown] is the variant for attribute types the SDK does not know. *)
Inductive Sdk :=
| SdkS (s : string)
| SdkN (n : string)
| SdkBool (b : bool)
| SdkNull (b : bool)
| SdkB (b : list Init.Byte.byte)
| SdkM (m : list (string * Sdk))
| SdkL (l : list Sdk)
| SdkSs (l : list string)
| SdkNs (l : list string)
| SdkBs (l : list (list Init.Byte.byte))
| SdkUnknown.

(** [to_millis] fails out of range; [secs] does not. *)
Record SdkDateTime := {
  dt_millis : option Z;
  dt_secs : Z;
}.

Record SdkStreamRecord := {
  ss_sequence_number : option string;
  ss_size_bytes : option Z;
  ss_view_type : option string;
  ss_keys : option (list (string * Sdk));
  ss_new_image : option (list (string * Sdk));
  ss_old_image : option (list (string * Sdk));
  ss_created : option SdkDateTime;
}.

Record SdkRecord := {
  sk_event_name : option string;
  sk_dynamodb : option SdkStreamRecord;
}.

(** [t.to_millis().unwrap_or_else(|_| t.secs() * 1000)]. *)
Definition created_ms (t : SdkDateTime) : Z :=
  match dt_millis t with Some ms => ms | None => i64_wrap (dt_secs t * 1000) end.

Definition sorted_map (m : list (string * AttrValue)) : Item := sort_by_key fst m.

Fixpoint attr (av : Sdk) : AttrValue :=
  match av with
  | SdkS s => S_ s
  | SdkN n => N_ n
  | SdkBool b => Bool b
  | SdkNull _ => Null
  | SdkB b => B b
  | SdkM m => M_ (sorted_map (map (λ kv, (kv.1, attr kv.2)) m))
  | SdkL l => L (map attr l)
  | SdkSs l => Ss l
  | SdkNs l => Ns l
  | SdkBs l => Bs l
  | SdkUnknown => Null
  end.

Definition map_btree (m : list (string * Sdk)) : Item :=
  sorted_map (map (λ kv, (kv.1, attr kv.2)) m).

(** [.filter(|m| !m.is_empty()).map(map_btree)]. *)
Definition image (m : option (list (string * Sdk))) : option Item :=
  match m with
  | Some (kv :: m') => Some (map_btree (kv :: m'))
  | _ => None
  end.

Definition from_sdk (r : SdkRecord) : StreamRecord :=
  let sr := sk_dynamodb r in
  {| event_name := sk_event_name r;
     sequence_number := sr ≫= ss_sequence_number;
     size_bytes := sr ≫= ss_size_bytes;
     stream_view_type := sr ≫= ss_view_type;
     keys := default [] (map_btree <$> (sr ≫= ss_keys));
     new_image := sr ≫= λ d, image (ss_new_image d);
     old_image := sr ≫= λ d, image (ss_old_image d);
     approx_creation_time_ms := created_ms <$> (sr ≫= ss_created) |}.

(** ** What the conversion keeps *)

(** The SDK value an attribute stands for. *)
Fixpoint sdk_of (v : AttrValue) : Sdk :=
  match v with
  | S_ s => SdkS s
  | N_ n => SdkN n
  | Bool b => SdkBool b
  | Null => SdkNull true
  | B b => SdkB b
  | M_ m => SdkM (map (λ kv, (kv.1, sdk_of kv.2)) m)
  | L l => SdkL (map sdk_of l)
  | Ss l => SdkSs l
  | Ns l => SdkNs l
  | Bs l => SdkBs l
  end.

(** An SDK value up to what does not survive: the order of map entries, the flag of
    a null, and the contents of a type the SDK does not know. *)
Fixpoint canonical (av : Sdk) : Sdk :=
  match av with
  | SdkNull _ | SdkUnknown => SdkNull true
  | SdkM m => SdkM (sort_by_key fst (map (λ kv, (kv.1, canonical kv.2)) m))
  | SdkL l => SdkL (map canonical l)
  | other => other
  end.

Section values.
Context {A B : Type} (f : A → B).
Abbreviation on_value := (λ kv : string * A, (kv.1, f kv.2)).

Lemma insert_by_map x l :
  map on_value (insert_by fst x l) = insert_by fst (on_value x) (map on_value l).
Proof. induction l as [|y l IH]; cbn; [done|]. case_match; cbn; by rewrite ?IH. Qed.

Lemma sort_by_key_map l :
  map on_value (sort_by_key fst l) = sort_by_key fst (map on_value l).
Proof.
  induction l as [|x l IH]; [done|].
  change (sort_by_key fst (x :: l)) with (insert_by fst x (sort_by_key fst l)).
  by rewrite insert_by_map, IH.
Qed.
End values.

Lemma sdk_of_attr : ∀ av, sdk_of (attr av) = canonical av.
Proof.
  fix IH 1. intros [s|n|b|b|b|m|l|l|l|l|]; cbn -[sort_by_key sorted_map]; try done.
  - f_equal. unfold sorted_map. rewrite sort_by_key_map. f_equal.
    induction m as [|[k v] m IHm]; cbn; [done|]. by rewrite IH, IHm.
  - f_equal. induction l as [|v l IHl]; cbn; [done|]. by rewrite IH, IHl.
Qed.

Lemma images_of m : map (λ kv, (kv.1, sdk_of kv.2)) (map_btree m) =
  sort_by_key fst (map (λ kv, (kv.1, canonical kv.2)) m).
Proof.
  unfold map_btree, sorted_map. rewrite sort_by_key_map. f_equal.
  induction m as [|[k v] m IH]; cbn; [done|]. by rewrite sdk_of_attr, IH.
Qed.

(** No attribute is lost on the way into the consumer: the payload determines every
    attribute value of the SDK's record, whatever its type and nesting, up to the
    order of map entries and the flag of a null; and an image is absent exactly when
    the SDK gave none, or an empty one. *)
Theorem attributes_are_kept r sr :
  sk_dynamodb r = Some sr →
  let kept m := map (λ kv, (kv.1, sdk_of kv.2)) m in
  let given m := sort_by_key fst (map (λ kv, (kv.1, canonical kv.2)) m) in
  kept (keys (from_sdk r)) = given (default [] (ss_keys sr)) ∧
  (∀ m, ss_new_image sr = Some m → m ≠ [] → kept <$> new_image (from_sdk r) = Some (given m)) ∧
  (∀ m, ss_old_image sr = Some m → m ≠ [] → kept <$> old_image (from_sdk r) = Some (given m)) ∧
  (new_image (from_sdk r) = None ↔ default [] (ss_new_image sr) = []) ∧
  (old_image (from_sdk r) = None ↔ default [] (ss_old_image sr) = []).
Proof.
  intros Hr. unfold from_sdk. rewrite Hr. cbn [mbind option_bind keys new_image old_image].
  split_and!.
  - destruct (ss_keys sr) as [m|]; [apply images_of|done].
  - intros [|kv m] Hm Hne; [done|]. rewrite Hm. cbn [image fmap option_fmap option_map].
    f_equal. apply images_of.
  - intros [|kv m] Hm Hne; [done|]. rewrite Hm. cbn [image fmap option_fmap option_map].
    f_equal. apply images_of.
  - by destruct (ss_new_image sr) as [[|]|].
  - by destruct (ss_old_image sr) as [[|]|].
Qed.

(** ** Well-formed values *)

(** A [BTreeMap]: keys in order, each once. *)
Definition map_ok {A} (m : list (string * A)) : Prop :=
  StronglySorted (key_le fst) m ∧ NoDup m.*1.

Fixpoint attr_ok (v : AttrValue) : Prop :=
  match v with
  | M_ m => map_ok m ∧ foldr (λ kv P, attr_ok kv.2 ∧ P) True m
  | L l => foldr (λ v P, attr_ok v ∧ P) True l
  | _ => True
  end.

(** A [HashMap] has each key once. *)
Fixpoint sdk_ok (av : Sdk) : Prop :=
  match av with
  | SdkM m => NoDup m.*1 ∧ foldr (λ kv P, sdk_ok kv.2 ∧ P) True m
  | SdkL l => foldr (λ v P, sdk_ok v ∧ P) True l
  | _ => True
  end.

Lemma foldr_and_Forall {A} (P : A → Prop) l : foldr (λ x Q, P x ∧ Q) True l ↔ Forall P l.
Proof. induction l as [|x l IH]; cbn; [done|]. by rewrite IH, Forall_cons. Qed.

Lemma sorted_map_ok (m : list (string * AttrValue)) : NoDup m.*1 → map_ok (sorted_map m).
Proof.
  intros Hnd. split; [apply sort_by_key_sorted|]. unfold sorted_map. by rewrite sort_by_key_perm.
Qed.

(** Every value made from an SDK value is well formed. *)
Lemma attr_is_ok : ∀ av, sdk_ok av → attr_ok (attr av).
Proof.
  fix IH 1. intros [s|n|b|b|b|m|l|l|l|l|]; cbn -[sorted_map]; try done.
  - intros [Hnd Hall]. split.
    + apply sorted_map_ok. by rewrite <- list_fmap_compose.
    + rewrite (foldr_and_Forall (λ kv, attr_ok kv.2)). unfold sorted_map. rewrite sort_by_key_perm.
      clear Hnd. induction m as [|[k v] m IHm]; cbn; [constructor|]. destruct Hall as [Hv Hall].
      constructor; [by apply IH|by apply IHm].
  - intros Hall. induction l as [|v l IHl]; cbn; [done|]. destruct Hall as [Hv Hall].
    split; [by apply IH|by apply IHl].
Qed.

(** A record of the SDK as it arrives: its items are hash maps. *)
Definition sdk_record_ok (r : SdkRecord) : Prop :=
  ∀ sr m, sk_dynamodb r = Some sr →
    ss_keys sr = Some m ∨ ss_new_image sr = Some m ∨ ss_old_image sr = Some m → sdk_ok (SdkM m).

(** The conversion of a stream record is well typed: its keys and its images are
    ordered maps with each attribute once, all the way down. *)
Theorem converted_records_are_well_formed r (Hr : sdk_record_ok r) :
  attr_ok (M_ (keys (from_sdk r))) ∧
  (∀ m, new_image (from_sdk r) = Some m → attr_ok (M_ m)) ∧
  (∀ m, old_image (from_sdk r) = Some m → attr_ok (M_ m)).
Proof.
  assert (∀ m, sdk_ok (SdkM m) → attr_ok (M_ (map_btree m))) as Hm by (intros m; apply (attr_is_ok (SdkM m))).
  assert (∀ sr o m, sk_dynamodb r = Some sr → o = ss_new_image sr ∨ o = ss_old_image sr →
    image o = Some m → attr_ok (M_ m)) as Himg.
  { intros sr [[|kv l]|] m Hsr Ho Hi; try done. cbn [image] in Hi. injection Hi as <-.
    apply (Hm (kv :: l)).
    eapply Hr; [exact Hsr|]. destruct Ho as [->| ->]; auto. }
  unfold from_sdk. cbn [keys new_image old_image]. destruct (sk_dynamodb r) as [sr|] eqn:Hsr; cbn.
  - split; [|split; intros m Hi; eapply Himg; [reflexivity| |exact Hi| reflexivity| |exact Hi]; auto].
    destruct (ss_keys sr) as [m|] eqn:Hk; cbn; [|split; [split; [constructor|apply NoDup_nil_2]|done]].
    apply Hm. eapply Hr; [exact Hsr|auto].
  - split; [|done]. split; [split; [constructor|apply NoDup_nil_2]|done].
Qed.

(** ** Values that mean the same *)

Definition null_like (av : Sdk) : bool := match av with SdkNull _ | SdkUnknown => true | _ => false end.

(** The entries of a hash map come in any order; a type that the SDK does not know
    reads as a null. *)
Inductive same : Sdk → Sdk → Prop :=
| same_null av av' : null_like av = true → null_like av' = true → same av av'
| same_S s : same (SdkS s) (SdkS s)
| same_N n : same (SdkN n) (SdkN n)
| same_Bool b : same (SdkBool b) (SdkBool b)
| same_B b : same (SdkB b) (SdkB b)
| same_Ss l : same (SdkSs l) (SdkSs l)
| same_Ns l : same (SdkNs l) (SdkNs l)
| same_Bs l : same (SdkBs l) (SdkBs l)
| same_L l l' : Forall2 same l l' → same (SdkL l) (SdkL l')
| same_M m m1 m' : Forall2 (λ kv kv', kv.1 = kv'.1 ∧ same kv.2 kv'.2) m m1 → m1 ≡ₚ m' →
    same (SdkM m) (SdkM m').

Definition same_items (m m' : list (string * Sdk)) : Prop := same (SdkM m) (SdkM m').

(** A list in key order, each key once, is determined by its elements. *)
Lemma sorted_unique {A} (l1 l2 : list (string * A)) :
  StronglySorted (key_le fst) l1 → StronglySorted (key_le fst) l2 → NoDup l1.*1 → l1 ≡ₚ l2 → l1 = l2.
Proof.
  revert l2. induction l1 as [|x l1 IH]; intros [|y l2] Hs1 Hs2 Hnd Hp;
    [done|by apply Permutation_nil_cons in Hp|by symmetry in Hp; apply Permutation_nil_cons in Hp|].
  apply StronglySorted_inv in Hs1 as [Hs1 Hx], Hs2 as [Hs2 Hy]. rewrite Forall_forall in Hx, Hy.
  assert (x = y) as <-.
  { assert (x ∈ y :: l2) as [?|Hx2]%elem_of_cons by (rewrite <- Hp; by left); [done|].
    assert (y ∈ x :: l1) as [?|Hy1]%elem_of_cons by (rewrite Hp; by left); [done|].
    exfalso. apply NoDup_cons in Hnd as [Hx1 _]. apply Hx1.
    assert (x.1 = y.1) as ->; [|by apply list_elem_of_fmap_2].
    specialize (Hx y Hy1). specialize (Hy x Hx2). unfold key_le, String.le in *.
    apply String.leb_antisym; [by destruct (String.leb x.1 y.1)|by destruct (String.leb y.1 x.1)]. }
  f_equal. apply NoDup_cons in Hnd as [_ Hnd]. apply IH; [done..|]. by apply Permutation_cons_inv in Hp.
Qed.

Lemma sorted_map_unique m m' : NoDup m.*1 → sorted_map m = sorted_map m' ↔ m ≡ₚ m'.
Proof.
  intros Hnd. unfold sorted_map. split.
  - intros Heq. by rewrite <- (sort_by_key_perm fst m), Heq, sort_by_key_perm.
  - intros Hp. apply sorted_unique; [apply sort_by_key_sorted..| |]; by rewrite !sort_by_key_perm.
Qed.

Abbreviation attr_entry := (λ kv : string * Sdk, (kv.1, attr kv.2)).

(** What means the same converts to the same. *)
Lemma same_attr : ∀ av av', same av av' → sdk_ok av → attr av = attr av'.
Proof.
  fix IH 3. intros av av' [a a' Ha Ha'|s|n|b|b|l|l|l|l l' HF|m m1 m' HF Hp]; cbn -[sorted_map]; try done.
  - by destruct a, a'.
  - intros Hok. f_equal. revert Hok. induction HF as [|x y l l' Hxy HF IHF]; [done|]. cbn. intros [Hx Hl].
    by rewrite (IH x y Hxy Hx), IHF.
  - intros [Hnd Hok]. f_equal. apply sorted_map_unique; [by rewrite <- list_fmap_compose|].
    change (attr_entry <$> m ≡ₚ attr_entry <$> m'). rewrite <- Hp. clear Hp Hnd.
    assert (attr_entry <$> m = attr_entry <$> m1) as ->; [|done]. revert Hok.
    induction HF as [|x y l l' [Hk Hxy] HF IHF]; [done|]. cbn. intros [Hx Hl].
    by rewrite Hk, (IH _ _ Hxy Hx), (IHF Hl).
Qed.

(** What converts to the same means the same. *)
Lemma attr_same : ∀ av av', attr av = attr av' → same av av'.
Proof.
  fix IH 1. intros av av'.
  destruct av as [s|n|b|b|b|m|l|l|l|l|], av' as [s'|n'|b'|b'|b'|m'|l'|l'|l'|l'|]; cbn -[sorted_map]; intros Heq;
    try discriminate Heq; try (by constructor); try (injection Heq as <-; by constructor).
  - injection Heq as Heq. assert (map attr_entry m ≡ₚ map attr_entry m') as Hp.
    { unfold sorted_map in Heq. by rewrite <- (sort_by_key_perm fst), Heq, sort_by_key_perm. }
    clear Heq. apply Permutation_map_inv in Hp as (m1 & Hm & Hp). apply (same_M m m1 m'); [|done].
    clear Hp. revert m1 Hm. induction m as [|[k v] m IHm]; intros [|[k' v'] m1] Hm; try discriminate Hm; constructor.
    + cbn in Hm. injection Hm as Hk Hv _. split; [exact Hk|by apply IH].
    + apply IHm. by injection Hm.
  - injection Heq as Heq. apply same_L. revert l' Heq.
    induction l as [|v l IHl]; intros [|v' l'] Heq; try discriminate Heq; constructor.
    + apply IH. by injection Heq.
    + apply IHl. by injection Heq.
Qed.

Lemma items_same m m' : sdk_ok (SdkM m) → map_btree m = map_btree m' ↔ same_items m m'.
Proof.
  intros Hok. split.
  - intros Heq. apply attr_same. cbn -[sorted_map]. f_equal. exact Heq.
  - intros Hs. apply same_attr in Hs; [|done]. cbn -[sorted_map] in Hs. by injection Hs.
Qed.

Lemma map_btree_nil m : map_btree m = [] → m = [].
Proof.
  unfold map_btree, sorted_map. intros Heq. destruct m as [|kv m]; [done|].
  apply (f_equal length) in Heq. by rewrite sort_by_key_length in Heq.
Qed.

Lemma image_default o : default [] (image o) = map_btree (default [] o).
Proof. by destruct o as [[|]|]. Qed.

Lemma image_same o o' : sdk_ok (SdkM (default [] o)) →
  image o = image o' ↔ same_items (default [] o) (default [] o').
Proof.
  intros Hok. rewrite <- items_same by done. rewrite <- !image_default. split; [by intros ->|].
  destruct (image o) as [i|] eqn:Hi, (image o') as [i'|] eqn:Hi'; cbn; [by intros ->| | |done].
  - intros ->. destruct o as [[|kv m]|]; try done. injection Hi as Hi. by apply map_btree_nil in Hi.
  - intros <-. destruct o' as [[|kv m]|]; try done. injection Hi' as Hi'. by apply map_btree_nil in Hi'.
Qed.

(** The parts of the SDK's record that a change is made of; what was not given is
    empty. *)
Definition part {A} (f : SdkStreamRecord → option A) (r : SdkRecord) : option A := sk_dynamodb r ≫= f.
Abbreviation items f r := (default [] (part f r)).

Definition same_change (r r' : SdkRecord) : Prop :=
  sk_event_name r = sk_event_name r' ∧
  part ss_sequence_number r = part ss_sequence_number r' ∧
  part ss_size_bytes r = part ss_size_bytes r' ∧
  part ss_view_type r = part ss_view_type r' ∧
  created_ms <$> part ss_created r = created_ms <$> part ss_created r' ∧
  same_items (items ss_keys r) (items ss_keys r') ∧
  same_items (items ss_new_image r) (items ss_new_image r') ∧
  same_items (items ss_old_image r) (items ss_old_image r').

Lemma items_ok r f : sdk_record_ok r → f = ss_keys ∨ f = ss_new_image ∨ f = ss_old_image →
  sdk_ok (SdkM (items f r)).
Proof.
  intros Hr Hf. unfold part. destruct (sk_dynamodb r) as [sr|] eqn:Hsr; cbn [mbind option_bind];
    [|split; [by apply NoDup_nil_2|done]].
  destruct (f sr) as [m|] eqn:Hm; [|split; [by apply NoDup_nil_2|done]].
  apply (Hr sr m Hsr). destruct Hf as [->|[->| ->]]; auto.
Qed.

Lemma from_sdk_parts r :
  from_sdk r = {| event_name := sk_event_name r; sequence_number := part ss_sequence_number r;
                  size_bytes := part ss_size_bytes r; stream_view_type := part ss_view_type r;
                  keys := map_btree (items ss_keys r);
                  new_image := image (part ss_new_image r); old_image := image (part ss_old_image r);
                  approx_creation_time_ms := created_ms <$> part ss_created r |}.
Proof.
  unfold from_sdk, part. destruct (sk_dynamodb r) as [sr|]; cbn; [|done]. by destruct (ss_keys sr).
Qed.

(** C38: the conversion of the SDK's records keeps exactly the change.  Two records
    become the same record for the consumer if and only if they agree on the event, the
    sequence number, the size, the view type and the time in milliseconds, and their
    keys and images have the same attributes with the same values, at every depth: the
    order in which the SDK's hash maps give them does not show, and nothing else is
    lost but the flag of a null, what an attribute type the SDK does not know holds, and
    whether an empty image was given. *)
Theorem conversion_keeps_the_change r r' (Hr : sdk_record_ok r) :
  from_sdk r = from_sdk r' ↔ same_change r r'.
Proof.
  pose proof (items_same (items ss_keys r) (items ss_keys r') (items_ok r ss_keys Hr ltac:(auto))) as Hk.
  pose proof (image_same (part ss_new_image r) (part ss_new_image r') (items_ok r ss_new_image Hr ltac:(auto))) as Hn.
  pose proof (image_same (part ss_old_image r) (part ss_old_image r') (items_ok r ss_old_image Hr ltac:(auto))) as Ho.
  unfold same_change.
  rewrite <- Hk, <- Hn, <- Ho, !from_sdk_parts.
  split; [by intros [= -> -> -> -> -> -> -> ->]|]. by intros (-> & -> & -> & -> & -> & -> & -> & ->).
Qed.
