(* ===== verification/Worker.v ===== *)
(** * The single worker ([Worker] of [worker/src/lib.rs])

    One pass describes the stream, snapshots which shards are complete, and works
    each eligible shard to its end under the lease's optimistic lock.  What the
    worker does is compared with an automaton that also threads the lease
    counter; any failed call must stop the worker at once. *)

From stdpp Require Import base gmap numbers list strings.
From S2P Require Import Prelude Core Coordinator Scheduler Interfaces.

Section worker.
Context {W : Type} `{AsyncStreamSource W, AsyncLeaseStore W, RecordProcessor W}.
Variable owner : string.   (* [Worker::owner] *)

(** The [loop] of [process_shard]; [None] when the bound on polls runs out. *)
Fixpoint process_loop (polls : nat) (id : ShardId) (counter : N) (after : option SequenceNumber)
  : M W (option (Result unit WorkerError)) :=
  match polls with
  | O => ret None
  | S polls' =>
      b <- get_records id after ;;
      match b with
      | Err e => ret (Some (Err e))
      | Ok batch =>
          c <- (match last_seq (rb_records batch) with
                | Some last =>
                    process_records (rb_records batch) ;;;
                    r <- checkpoint id owner counter last ;;
                    ret (match r with Ok c => Ok (c, Some last) | Err e => Err e end)
                | None => ret (Ok (counter, after))
                end) ;;
          match c with
          | Err e => ret (Some (Err e))
          | Ok (counter', after') =>
              if rb_shard_end batch then
                shard_ended id ;;;
                r <- mark_complete id owner counter' ;; ret (Some r)
              else if bool_decide (rb_records batch = []) then ret (Some (Ok tt))
              else process_loop polls' id counter' after'
          end
      end
  end.

Definition process_shard (polls : nat) (meta : ShardMeta)
  : M W (option (Result unit WorkerError)) :=
  h <- acquire (sm_id meta) owner ;;
  match h with
  | Err e => ret (Some (Err e))
  | Ok handle =>
      initialize (sm_id meta) ;;;
      process_loop polls (sm_id meta) (lh_counter handle) (lh_checkpoint handle)
  end.

(** The completion snapshot of a pass. *)
Fixpoint completed_snapshot (ms : list ShardMeta) (completed : gset string)
  : M W (Result (gset string) WorkerError) :=
  match ms with
  | [] => ret (Ok completed)
  | m :: ms' =>
      v <-? get (sm_id m) ;;
      completed_snapshot ms'
        (match v with
         | Some v => if lv_completed v then {[sm_id m]} ∪ completed else completed
         | None => completed
         end)
  end.

Fixpoint work_shards (polls : nat) (ms : list ShardMeta) (completed existing : gset string)
    (progressed : bool) : M W (option (Result (bool * bool) WorkerError)) :=
  match ms with
  | [] => ret (Some (Ok (false, progressed)))
  | m :: ms' =>
      if negb (eligible m completed existing) then
        work_shards polls ms' completed existing progressed
      else
        r <- process_shard polls m ;;
        match r with
        | None => ret None
        | Some (Err e) => ret (Some (Err e))
        | Some (Ok _) => work_shards polls ms' completed existing true
        end
  end.

(** [(all_complete, progressed)]. *)
Definition run_once (polls : nat) : M W (option (Result (bool * bool) WorkerError)) :=
  s <- describe_shards ;;
  match s with
  | Err e => ret (Some (Err e))
  | Ok shards =>
      c <- completed_snapshot shards ∅ ;;
      match c with
      | Err e => ret (Some (Err e))
      | Ok completed =>
          if negb (bool_decide (shards = [])) &&
             forallb (λ m, bool_decide (sm_id m ∈ completed)) shards
          then ret (Some (Ok (true, false)))
          else
            let existing := list_to_set (sm_id <$> shards) in
            work_shards polls shards completed existing false
      end
  end.

Fixpoint run (passes polls : nat) : M W (option (Result unit WorkerError)) :=
  match passes with
  | O => ret None
  | S passes' =>
      r <- run_once polls ;;
      match r with
      | None => ret None
      | Some (Err e) => ret (Some (Err e))
      | Some (Ok (complete, progressed)) =>
          if complete || negb progressed then ret (Some (Ok tt)) else run passes' polls
      end
  end.
End worker.

(** ** What the worker's calls look like from outside *)

Inductive WEvent :=
| WDescribe (ms : list ShardMeta)
| WGet (s : ShardId) (v : option LeaseView)
| WAcquire (s : ShardId) (owner : string) (h : LeaseHandle)
| WInit (s : ShardId)
| WFetch (s : ShardId) (after : option SequenceNumber) (b : RecordBatch)
| WDeliver (rs : list Record_)
| WCheckpoint (s : ShardId) (owner : string) (counter : N) (q : string) (counter' : N)
| WEnded (s : ShardId)
| WComplete (s : ShardId) (owner : string) (counter : N)
| WFailed.

Definition on_ok {A} (f : A → WEvent) (r : Result A WorkerError) : list WEvent :=
  match r with Ok a => [f a] | Err _ => [WFailed] end.
Definition quiet {A} (_ : A) : list WEvent := [].

Section logging.
Context {W : Type} `{AsyncStreamSource W, AsyncLeaseStore W, RecordProcessor W}.

#[export] Instance w_source : AsyncStreamSource (W * list WEvent) := {|
  describe_shards := logged describe_shards (on_ok WDescribe);
  get_records s after := logged (get_records s after) (on_ok (WFetch s after));
  describe_child_shards p := logged (describe_child_shards p) quiet;
|}.
#[export] Instance w_leases : AsyncLeaseStore (W * list WEvent) := {|
  get k := logged (get k) (on_ok (WGet k));
  list_leases := logged list_leases quiet;
  acquire k o := logged (acquire k o) (on_ok (WAcquire k o));
  renew k o c := logged (renew k o c) quiet;
  heartbeat w := logged (heartbeat w) quiet;
  checkpoint k o c q := logged (checkpoint k o c q) (on_ok (WCheckpoint k o c q));
  mark_complete k o c := logged (mark_complete k o c) (on_ok (λ _, WComplete k o c));
  release k o c := logged (release k o c) quiet;
  delete_lease k := logged (delete_lease k) quiet;
  create_shard_lease k ps cp := logged (create_shard_lease k ps cp) quiet;
  try_acquire_leadership k o e := logged (try_acquire_leadership k o e) quiet;
|}.
#[export] Instance w_processor : RecordProcessor (W * list WEvent) := {|
  initialize s := logged (initialize s) (λ _, [WInit s]);
  process_records rs := logged (process_records rs) (λ _, [WDeliver rs]);
  shard_ended s := logged (shard_ended s) (λ _, [WEnded s]);
  lease_lost s := logged (lease_lost s) quiet;
|}.
End logging.

(** ** The protocol of a worker *)

Inductive WPhase :=
| WIdle
| WHeld (s : ShardId) (c : N) (after : option SequenceNumber)    (* acquired *)
| WReady (s : ShardId) (c : N) (after : option SequenceNumber)   (* may fetch *)
| WFetched (s : ShardId) (c : N) (b : RecordBatch)
| WDelivered (s : ShardId) (c : N) (b : RecordBatch)
| WDrained (s : ShardId) (c : N)                                 (* last batch checkpointed *)
| WClosing (s : ShardId) (c : N)                                 (* processor told *)
| WStopped.

Record WProtocol := {
  wp_phase : WPhase;
  wp_listed : list ShardMeta;      (* the last describe *)
  wp_completed : gset string;      (* seen complete since *)
}.

Definition w_to (p : WProtocol) (ph : WPhase) : WProtocol :=
  {| wp_phase := ph; wp_listed := wp_listed p; wp_completed := wp_completed p |}.

Definition w_rest (ph : WPhase) : bool :=
  match ph with
  | WIdle => true
  | WFetched _ _ b => bool_decide (rb_records b = []) && negb (rb_shard_end b)
  | _ => false
  end.

Definition w_ready (p : WProtocol) (s : ShardId) : bool :=
  existsb (λ m, bool_decide (sm_id m = s) &&
                eligible m (wp_completed p) (list_to_set (sm_id <$> wp_listed p)))
    (wp_listed p).

Definition after_batch (s : ShardId) (c : N) (b : RecordBatch) (after : option SequenceNumber)
  : WPhase := if rb_shard_end b then WDrained s c else WReady s c after.

Definition w_step (me : string) (p : WProtocol) (e : WEvent) : option WProtocol :=
  match e, wp_phase p with
  | _, WStopped => None
  | WFailed, _ => Some (w_to p WStopped)
  | WDescribe ms, ph =>
      if w_rest ph then Some {| wp_phase := WIdle; wp_listed := ms; wp_completed := ∅ |} else None
  | WGet s v, WIdle =>
      if existsb (λ m, bool_decide (sm_id m = s)) (wp_listed p) then
        Some (match v with
              | Some v => if lv_completed v
                  then {| wp_phase := WIdle; wp_listed := wp_listed p;
                          wp_completed := {[s]} ∪ wp_completed p |}
                  else p
              | None => p end)
      else None
  | WAcquire s o h, ph =>
      if w_rest ph && bool_decide (o = me) && w_ready p s
      then Some (w_to p (WHeld s (lh_counter h) (lh_checkpoint h))) else None
  | WInit s, WHeld s' c after =>
      if bool_decide (s = s') then Some (w_to p (WReady s c after)) else None
  | WFetch s after b, WReady s' c after' =>
      if bool_decide (s = s') && bool_decide (after = after')
      then Some (w_to p (WFetched s c b)) else None
  | WDeliver rs, WFetched s c b =>
      if bool_decide (rs = rb_records b) && negb (bool_decide (rs = []))
      then Some (w_to p (WDelivered s c b)) else None
  | WCheckpoint s o c q c', WDelivered s' c0 b =>
      if bool_decide (s = s') && bool_decide (o = me) && bool_decide (c = c0) &&
         bool_decide (last_seq (rb_records b) = Some q)
      then Some (w_to p (after_batch s c' b (Some q))) else None
  | WEnded s, WDrained s' c =>
      if bool_decide (s = s') then Some (w_to p (WClosing s c)) else None
  | WEnded s, WFetched s' c b =>
      if bool_decide (s = s') && bool_decide (rb_records b = []) && rb_shard_end b
      then Some (w_to p (WClosing s c)) else None
  | WComplete s o c, WClosing s' c' =>
      if bool_decide (s = s') && bool_decide (o = me) && bool_decide (c = c')
      then Some (w_to p WIdle) else None
  | _, _ => None
  end.

Definition w_run (me : string) (p : WProtocol) (l : list WEvent) : option WProtocol :=
  foldl (λ o e, o ≫= λ p, w_step me p e) (Some p) l.

Definition w_start : WProtocol :=
  {| wp_phase := WIdle; wp_listed := []; wp_completed := ∅ |}.

Lemma w_run_app me p l1 l2 :
  w_run me p (l1 ++ l2) = w_run me p l1 ≫= λ p', w_run me p' l2.
Proof.
  unfold w_run. rewrite foldl_app. destruct (foldl _ (Some p) l1); [done|].
  simpl. by induction l2.
Qed.

Section refinement.
Context {W : Type} `{AsyncStreamSource W, AsyncLeaseStore W, RecordProcessor W}.
Variable me : string.
Implicit Types (p : WProtocol) (wl : W * list WEvent).

(** The log so far is a protocol run that ends in [p]. *)
Definition at_ p wl : Prop := w_run me w_start wl.2 = Some p.

Lemma at_call {A} (m : M W A) (ev : A → list WEvent) p (p' : A → WProtocol) :
  (∀ a, w_run me p (ev a) = Some (p' a)) → triple (at_ p) (logged m ev) (λ a, at_ (p' a)).
Proof.
  intros Hev [w l] Hl. unfold at_, logged in *. simpl in *. destruct (m w) as [a w'].
  simpl. rewrite w_run_app, Hl. apply Hev.
Qed.

(** The same for a call that may fail. *)
Lemma at_call_ok {A} (m : M W (Result A WorkerError)) (f : A → WEvent) p (p' : A → WProtocol) :
  wp_phase p ≠ WStopped →
  (∀ a, w_step me p (f a) = Some (p' a)) →
  triple (at_ p) (logged m (on_ok f))
    (λ r, at_ (match r with Ok a => p' a | Err _ => w_to p WStopped end)).
Proof.
  intros Hs Hf. apply at_call. intros [a|e]; simpl; [apply Hf|].
  unfold w_run. simpl. destruct p as [[] ms D]; simpl in *; congruence || done.
Qed.

Definition mk (ms : list ShardMeta) (D : gset string) (ph : WPhase) : WProtocol :=
  {| wp_phase := ph; wp_listed := ms; wp_completed := D |}.

(** After a piece of the worker's code: stopped exactly when it failed. *)
Definition ends {A} (ms : list ShardMeta) (D : gset string) (ok : A → WPhase → Prop)
    (r : option (Result A WorkerError)) wl : Prop :=
  ∃ ph, at_ (mk ms D ph) wl ∧
    match r with
    | Some (Ok a) => ok a ph
    | Some (Err _) => ph = WStopped
    | None => ph ≠ WStopped
    end.

Lemma at_process_loop ms D polls s c after :
  triple (at_ (mk ms D (WReady s c after))) (process_loop me polls s c after)
    (ends ms D (λ _ ph, w_rest ph = true)).
Proof.
  revert c after. induction polls as [|polls IH]; intros c after; simpl.
  { apply triple_ret. intros wl Hat. by exists (WReady s c after). }
  eapply triple_bind.
  { apply (at_call_ok _ _ _ (λ b, mk ms D (WFetched s c b))); [done|].
    intros b. simpl. by rewrite !bool_decide_eq_true_2. }
  intros [b|e]; [|apply triple_ret; intros wl Hat; by exists WStopped].
  eapply (triple_bind _ _ _ (λ r, at_ (mk ms D
    match r with
    | Ok (c', after') => if bool_decide (rb_records b = []) then WFetched s c' b
                         else after_batch s c' b after'
    | Err _ => WStopped
    end))).
  { destruct (last_seq (rb_records b)) as [q|] eqn:Hq.
    - eapply (triple_bind _ _ _ (λ _, at_ (mk ms D (WDelivered s c b)))).
      { apply at_call. intros []. unfold w_run. simpl.
        by rewrite bool_decide_eq_true_2, (last_seq_not_nil _ _ Hq). }
      intros []. eapply triple_bind.
      { apply (at_call_ok _ _ _ (λ c', mk ms D (after_batch s c' b (Some q))));
          [done|].
        intros c'. simpl. by rewrite !bool_decide_eq_true_2. }
      rewrite (last_seq_not_nil _ _ Hq). intros [c'|e]; by apply triple_ret.
    - apply last_seq_None in Hq. rewrite Hq. by apply triple_ret. }
  intros [[c' after']|e]; [|apply triple_ret; intros wl Hat; by exists WStopped].
  destruct (rb_shard_end b) eqn:He.
  - eapply (triple_bind _ _ _ (λ _, at_ (mk ms D (WClosing s c')))).
    { apply at_call. intros []. unfold w_run, after_batch. rewrite He.
      destruct (bool_decide (rb_records b = [])) eqn:Hn; simpl;
        rewrite bool_decide_eq_true_2 by done; simpl; by rewrite ?Hn, ?He. }
    intros []. eapply triple_bind.
    { apply (at_call_ok _ _ _ (λ _, mk ms D WIdle)); [done|].
      intros []. simpl. by rewrite !bool_decide_eq_true_2. }
    intros r. apply triple_ret. intros wl Hat. destruct r as [[]|e]; eexists; by split.
  - destruct (bool_decide (rb_records b = [])) eqn:Hn.
    + apply triple_ret. intros wl Hat. eexists. split; [exact Hat|]. simpl. by rewrite Hn, He.
    + unfold after_batch. rewrite He. apply IH.
Qed.

Lemma at_process_shard ms D polls m ph :
  w_rest ph = true → w_ready (mk ms D ph) (sm_id m) = true →
  triple (at_ (mk ms D ph)) (process_shard me polls m) (ends ms D (λ _ ph, w_rest ph = true)).
Proof.
  intros Hr Hm. unfold process_shard. eapply triple_bind.
  { apply (at_call_ok _ _ _ (λ h, mk ms D (WHeld (sm_id m) (lh_counter h) (lh_checkpoint h))));
      [by destruct ph|].
    intros h. destruct ph; try discriminate; simpl in *; unfold mk in *;
      rewrite ?Hr, ?Hm, ?bool_decide_eq_true_2 by done; done. }
  intros [h|e]; [|apply triple_ret; intros wl Hat; by exists WStopped].
  eapply (triple_bind _ _ _ (λ _, at_ (mk ms D
    (WReady (sm_id m) (lh_counter h) (lh_checkpoint h))))); [|intros []; apply at_process_loop].
  apply at_call. intros []. unfold w_run. simpl. by rewrite bool_decide_eq_true_2.
Qed.

(** Stopped exactly when the result is an error, wherever the code stands. *)
Definition outcome {A} (r : option (Result A WorkerError)) wl : Prop :=
  ∃ p, at_ p wl ∧ (wp_phase p = WStopped ↔ ∃ e, r = Some (Err e)).

Lemma at_snapshot ms D l :
  (∀ m, m ∈ l → m ∈ ms) →
  triple (at_ (mk ms D WIdle)) (completed_snapshot l D)
    (λ r wl, match r with
             | Ok D' => at_ (mk ms D' WIdle) wl
             | Err _ => ∃ D', at_ (mk ms D' WStopped) wl
             end).
Proof.
  revert D. induction l as [|m l IH]; intros D Hl; simpl; [by apply triple_ret|].
  assert (existsb (λ m', bool_decide (sm_id m' = sm_id m)) ms = true) as Hin.
  { apply existsb_True_elem. exists m. split; [apply Hl; set_solver|].
    by apply bool_decide_eq_true_2. }
  eapply (triple_bind _ _ _ (λ r, at_ (match r with
    | Ok (Some v) => mk ms (if lv_completed v then {[sm_id m]} ∪ D else D) WIdle
    | Ok None => mk ms D WIdle
    | Err _ => mk ms D WStopped end))).
  { eapply triple_conseq.
    - apply (at_call_ok _ _ (mk ms D WIdle) (λ v, match v with
        | Some v => mk ms (if lv_completed v then {[sm_id m]} ∪ D else D) WIdle
        | None => mk ms D WIdle end)); [done|].
      intros [v|]; simpl; rewrite Hin; [by destruct (lv_completed v)|done].
    - done.
    - by intros [[v|]|e] wl. }
  intros [v|e]; [|apply triple_ret; intros wl Hat; by exists D].
  destruct v as [v|]; [destruct (lv_completed v)|]; apply IH; set_solver.
Qed.

Lemma at_work_shards ms D polls l ph prog :
  (∀ m, m ∈ l → m ∈ ms) → w_rest ph = true →
  triple (at_ (mk ms D ph))
    (work_shards me polls l D (list_to_set (sm_id <$> ms)) prog)
    (λ r, ends ms D (λ _ ph, w_rest ph = true) r).
Proof.
  revert ph prog. induction l as [|m l IH]; intros ph prog Hl Hr; simpl.
  { apply triple_ret. intros wl Hat. by exists ph. }
  destruct (eligible m D _) eqn:He; simpl; [|apply IH; [set_solver|done]].
  eapply triple_bind.
  { apply (at_process_shard ms D polls m ph); [done|]. unfold w_ready. simpl.
    apply existsb_True_elem. exists m. split; [apply Hl; set_solver|].
    by rewrite He, bool_decide_eq_true_2. }
  intros [[[]|e]|].
  - unfold ends at 1. apply triple_ex. intros ph'. intros wl [Hat Hr'].
    revert wl Hat. apply IH; [set_solver|done].
  - apply triple_ret. intros wl (ph' & ? & ->). by exists WStopped.
  - apply triple_ret. intros wl (ph' & ? & ?). by exists ph'.
Qed.

Lemma at_run_once ms D polls ph :
  w_rest ph = true →
  triple (at_ (mk ms D ph)) (run_once me polls)
    (λ r wl, ∃ ms' D', ends ms' D' (λ _ ph, w_rest ph = true) r wl).
Proof.
  intros Hr. unfold run_once. eapply triple_bind.
  { apply (at_call_ok _ _ _ (λ ms', mk ms' ∅ WIdle)); [by destruct ph|].
    intros ms'. destruct ph; try discriminate; simpl in *; by rewrite ?Hr. }
  intros [shards|e]; [|apply triple_ret; intros wl Hat; by exists ms, D, WStopped].
  eapply triple_bind; [by apply at_snapshot|].
  intros [D'|e]; [|apply triple_ret; intros wl [D' Hat]; by exists shards, D', WStopped].
  destruct (_ && _).
  { apply triple_ret. intros wl Hat. by exists shards, D', WIdle. }
  eapply triple_conseq; [by apply (at_work_shards shards D' polls shards WIdle)|done|].
  intros r wl He. by exists shards, D'.
Qed.

Lemma at_run passes polls ms D ph :
  w_rest ph = true → triple (at_ (mk ms D ph)) (run me passes polls) outcome.
Proof.
  revert ms D ph. induction passes as [|passes IH]; intros ms D ph Hr; simpl.
  { apply triple_ret. intros wl Hat. exists (mk ms D ph). split; [done|]. simpl.
    split; [by intros ->|by intros [? ?]]. }
  eapply triple_bind; [by apply at_run_once|]. intros [[[complete prog]|e]|].
  - apply triple_ex. intros ms'. apply triple_ex. intros D'. unfold ends.
    apply triple_ex. intros ph'. intros wl [Hat Hr']. revert wl Hat.
    destruct (complete || negb prog); [|by apply IH].
    apply triple_ret. intros wl Hat. exists (mk ms' D' ph'). split; [done|]. simpl.
    split; [by intros ->|by intros [? ?]].
  - apply triple_ret. intros wl (ms' & D' & ph' & Hat & ->).
    exists (mk ms' D' WStopped). split; [done|]. simpl. split; eauto.
  - apply triple_ret. intros wl (ms' & D' & ph' & Hat & Hs). exists (mk ms' D' ph').
    split; [done|]. simpl. split; [done|by intros [? ?]].
Qed.
End refinement.

(** ** Properties *)

Lemma w_step_inv me p e p' :
  w_step me p e = Some p' →
  (e = WFailed → wp_phase p' = WStopped) ∧ wp_phase p ≠ WStopped ∧
  (wp_phase p' = WStopped → e = WFailed) ∧
  match e with
  | WDescribe ms => wp_listed p' = ms ∧ wp_completed p' = ∅
  | WGet s (Some v) => wp_listed p' = wp_listed p ∧
      wp_completed p' = if lv_completed v then {[s]} ∪ wp_completed p else wp_completed p
  | WAcquire s o _ => wp_listed p' = wp_listed p ∧ wp_completed p' = wp_completed p ∧
                      o = me ∧ w_ready p s = true
  | _ => wp_listed p' = wp_listed p ∧ wp_completed p' = wp_completed p
  end.
Proof.
  intros Hs. destruct p as [ph ms D].
  destruct e; destruct ph; simpl in Hs; try discriminate; unfold after_batch in *;
    repeat case_match; simplify_eq/=;
    repeat match goal with
    | E : _ && _ = true |- _ => apply andb_true_iff in E as []
    | E : bool_decide _ = true |- _ => apply bool_decide_eq_true_1 in E
    end; subst; by split_and!.
Qed.

(** The last listing of a log, and the shards seen complete since. *)
Definition listing_step (x : list ShardMeta * gset string) (e : WEvent)
  : list ShardMeta * gset string :=
  match e with
  | WDescribe ms => (ms, ∅)
  | WGet s (Some v) => (x.1, if lv_completed v then {[s]} ∪ x.2 else x.2)
  | _ => x
  end.
Definition listing_of (l : list WEvent) : list ShardMeta * gset string :=
  foldl listing_step ([], ∅) l.

Lemma w_run_listing me l p :
  w_run me w_start l = Some p → (wp_listed p, wp_completed p) = listing_of l.
Proof.
  revert p. induction l as [|e l IH] using rev_ind; intros p Hp; [by injection Hp as <-|].
  rewrite w_run_app in Hp. destruct (w_run me w_start l) as [p1|] eqn:Hl; [|done].
  specialize (IH p1 eq_refl). unfold w_run in Hp. simpl in Hp.
  apply w_step_inv in Hp as (_ & _ & _ & He). unfold listing_of in *. rewrite foldl_app.
  simpl. rewrite <- IH. destruct e as [|s [v|]| | | | | | | |]; simpl in *;
    destruct_and?; by f_equal.
Qed.

Lemma w_run_split me pre e post p :
  w_run me w_start (pre ++ e :: post) = Some p →
  ∃ p1 p2, w_run me w_start pre = Some p1 ∧ w_step me p1 e = Some p2 ∧
           w_run me p2 post = Some p.
Proof.
  rewrite w_run_app. destruct (w_run me w_start pre) as [p1|]; [|done]. simpl.
  change (e :: post) with ([e] ++ post). rewrite w_run_app.
  change (w_run me p1 [e]) with (w_step me p1 e).
  destruct (w_step me p1 e) as [p2|] eqn:E; [|done]. simpl. eauto.
Qed.

Section properties.
Context {W : Type} `{AsyncStreamSource W, AsyncLeaseStore W, RecordProcessor W}.

(** C24: against any stream, lease store and processor, everything the worker
    does is a run of the worker protocol: fetches resume from the handle's
    checkpoint and then from the last one written, a checkpoint follows the
    delivery of its batch, every lease write carries the counter the previous one
    returned, and completion follows the end of the shard.  A lease is acquired
    only for a shard of the last listing that is not complete and whose parents
    have each been seen complete since, or are not listed.  A failed call is the
    last thing the worker does, and it makes the run fail. *)
Theorem worker_follows_protocol_and_fails_stop me passes polls (w : W) :
  let '(r, (_, log)) :=
    (run me passes polls (w, []) : option (Result unit WorkerError) * (W * list WEvent)) in
  (∃ p, w_run me w_start log = Some p ∧
        (wp_phase p = WStopped ↔ ∃ e, r = Some (Err e))) ∧
  (∀ pre s o h post, log = pre ++ WAcquire s o h :: post →
     o = me ∧ ∃ m, m ∈ (listing_of pre).1 ∧ sm_id m = s ∧ (s ∉ (listing_of pre).2) ∧
       ∀ p, p ∈ sm_parents m →
         p ∈ (listing_of pre).2 ∨ (p ∉ sm_id <$> (listing_of pre).1)) ∧
  (∀ pre post, log = pre ++ WFailed :: post → post = []).
Proof.
  destruct (run me passes polls (w, [])) as [r [w' log]] eqn:Hrun.
  destruct (at_run me passes polls [] ∅ WIdle eq_refl (w, []) eq_refl) as (p & Hp & Hiff).
  rewrite Hrun in Hp, Hiff. unfold at_ in Hp. simpl in Hp, Hiff.
  split_and!; [by exists p|..].
  - intros pre s o h post ->. apply w_run_split in Hp as (p1 & p2 & Hpre & Hs & _).
    apply w_step_inv in Hs as (_ & _ & _ & _ & _ & -> & Hready). split; [done|].
    pose proof (w_run_listing _ _ _ Hpre) as Hl. rewrite <- Hl. simpl.
    apply existsb_True_elem in Hready as (m & Hm & [Hid He]%andb_true_iff).
    apply bool_decide_eq_true_1 in Hid as <-. apply eligible_spec in He as [Hn Hpar].
    exists m. split_and!; [done..|]. intros q Hq. destruct (Hpar q Hq); [by left|right].
    by rewrite <- (elem_of_list_to_set (C := gset string)).
  - intros pre post ->. apply w_run_split in Hp as (p1 & p2 & _ & Hs & Hpost).
    apply w_step_inv in Hs as (Hstop & _). specialize (Hstop eq_refl).
    destruct post as [|e post]; [done|]. unfold w_run in Hpost. simpl in Hpost.
    destruct (w_step me p2 e) as [p3|] eqn:Hs'.
    { destruct (w_step_inv _ _ _ _ Hs') as (_ & Hn & _). congruence. }
    simpl in Hpost. exfalso. clear -Hpost. induction post; [discriminate|by auto].
Qed.
End properties.
