(* ===== verification/Fakes.v ===== *)
(** * In-memory stream and lease table ([worker/src/lib.rs], test module)

    The fakes the worker's own tests run on: a stream of closed shards, a lease
    table without optimistic locking, and a processor that records what it saw.
    They are a concrete instance of [Interfaces]; the hash map of lease rows is
    listed in an unspecified order. *)

From stdpp Require Import base gmap numbers list strings.
From S2P Require Import Prelude Core Coordinator Scheduler InMem Interfaces Worker.

Record FakeLeaseState := {
  fl_owner : option string;
  fl_counter : N;
  fl_checkpoint : option string;
  fl_completed : bool;
  fl_parents : list string;
}.

Definition FakeLeaseState_default : FakeLeaseState :=
  {| fl_owner := None; fl_counter := 0; fl_checkpoint := None; fl_completed := false;
     fl_parents := [] |}.

Record FakeWorld := {
  fw_metas : list ShardMeta;
  fw_data : gmap string (list Record_);
  fw_rows : gmap string FakeLeaseState;
  fw_events : list string;
}.

Definition fake_get_records (w : FakeWorld) (shard : string) (after : option SequenceNumber)
  : RecordBatch :=
  let all := default [] (fw_data w !! shard) in
  {| rb_records :=
       match after with
       | None => all
       | Some tok => default all (after_token tok all)
       end;
     rb_shard_end := true; rb_millis_behind_latest := None |}.

#[export] Instance fake_source : AsyncStreamSource FakeWorld := {|
  describe_shards := λ w, (Ok (fw_metas w), w);
  get_records s after := λ w, (Ok (fake_get_records w s after), w);
  describe_child_shards := default_describe_child_shards (λ w, (Ok (fw_metas w), w));
|}.

Definition fake_set_rows (rows : gmap string FakeLeaseState) (w : FakeWorld) : FakeWorld :=
  {| fw_metas := fw_metas w; fw_data := fw_data w; fw_rows := rows; fw_events := fw_events w |}.

(** [rows.get_mut(key).ok_or("no lease")?] followed by an update of the row. *)
Definition fake_update {A} (key : string) (f : FakeLeaseState → FakeLeaseState) (a : A)
  : M FakeWorld (Result A WorkerError) :=
  λ w, match fw_rows w !! key with
       | Some r => (Ok a, fake_set_rows (<[key := f r]> (fw_rows w)) w)
       | None => (Err "no lease", w)
       end.

Definition fake_get (key : string) : M FakeWorld (Result (option LeaseView) WorkerError) :=
  λ w, (Ok ((λ r, {| lv_completed := fl_completed r |}) <$> fw_rows w !! key), w).

Definition fake_raw (kr : string * FakeLeaseState) : RawLease :=
  {| rl_lease_key := kr.1; rl_owner := fl_owner kr.2; rl_lease_counter := fl_counter kr.2;
     rl_completed := fl_completed kr.2; rl_checkpoint := fl_checkpoint kr.2;
     rl_parents := fl_parents kr.2 |}.

Definition fake_list `{HashOrder} : M FakeWorld (Result (list RawLease) WorkerError) :=
  λ w, (Ok (fake_raw <$> hash_order (fw_rows w)), w).

Definition fake_bumped (counter : N) (r : FakeLeaseState) : FakeLeaseState :=
  {| fl_owner := fl_owner r; fl_counter := u64_add counter 1; fl_checkpoint := fl_checkpoint r;
     fl_completed := fl_completed r; fl_parents := fl_parents r |}.

Definition fake_renew (key owner : string) (counter : N) : M FakeWorld (Result N WorkerError) :=
  fake_update key (fake_bumped counter) (u64_add counter 1).

Definition fake_acquire (key owner : string) : M FakeWorld (Result LeaseHandle WorkerError) :=
  λ w,
    let r := default FakeLeaseState_default (fw_rows w !! key) in
    let counter := u64_add (fl_counter r) 1 in
    (Ok {| lh_owner := owner; lh_counter := counter; lh_checkpoint := fl_checkpoint r |},
     fake_set_rows (<[key := {| fl_owner := Some owner; fl_counter := counter;
                                fl_checkpoint := fl_checkpoint r; fl_completed := fl_completed r;
                                fl_parents := fl_parents r |}]> (fw_rows w)) w).

Definition fake_checkpoint (key owner : string) (counter : N) (seq : string)
  : M FakeWorld (Result N WorkerError) :=
  fake_update key
    (λ r, {| fl_owner := fl_owner r; fl_counter := u64_add counter 1; fl_checkpoint := Some seq;
             fl_completed := fl_completed r; fl_parents := fl_parents r |})
    (u64_add counter 1).

Definition fake_mark_complete (key owner : string) (counter : N)
  : M FakeWorld (Result unit WorkerError) :=
  fake_update key
    (λ r, {| fl_owner := fl_owner r; fl_counter := fl_counter r;
             fl_checkpoint := fl_checkpoint r; fl_completed := true; fl_parents := fl_parents r |})
    tt.

Definition fake_release (key owner : string) (counter : N) : M FakeWorld (Result unit WorkerError) :=
  fake_update key
    (λ r, {| fl_owner := None; fl_counter := u64_add counter 1; fl_checkpoint := fl_checkpoint r;
             fl_completed := fl_completed r; fl_parents := fl_parents r |})
    tt.

Definition fake_delete_lease (key : string) : M FakeWorld (Result unit WorkerError) :=
  λ w, (Ok tt,
        if default false (fl_completed <$> fw_rows w !! key)
        then fake_set_rows (delete key (fw_rows w)) w else w).

Definition fake_create_shard_lease (key : string) (parents : list ShardId)
    (cp : option string) : M FakeWorld (Result unit WorkerError) :=
  λ w, (Ok tt,
        match fw_rows w !! key with
        | Some _ => w
        | None => fake_set_rows
            (<[key := {| fl_owner := None; fl_counter := 0; fl_checkpoint := cp;
                         fl_completed := false; fl_parents := parents |}]> (fw_rows w)) w
        end).

Definition fake_try_acquire_leadership (key owner : string) (expected : option N)
  : M FakeWorld (Result (option N) WorkerError) :=
  λ w,
    match expected, fw_rows w !! key with
    | None, Some _ => (Ok None, w)
    | None, None =>
        (Ok (Some 1%N), fake_set_rows
           (<[key := {| fl_owner := Some owner; fl_counter := 1; fl_checkpoint := None;
                        fl_completed := false; fl_parents := [] |}]> (fw_rows w)) w)
    | Some c, Some r =>
        if (fl_counter r =? c)%N then
          (Ok (Some (u64_add c 1)), fake_set_rows
             (<[key := {| fl_owner := Some owner; fl_counter := u64_add c 1;
                          fl_checkpoint := fl_checkpoint r; fl_completed := fl_completed r;
                          fl_parents := fl_parents r |}]> (fw_rows w)) w)
        else (Ok None, w)
    | Some _, None => (Ok None, w)
    end.

#[export] Instance fake_leases `{HashOrder} : AsyncLeaseStore FakeWorld := {|
  get := fake_get;
  list_leases := fake_list;
  acquire := fake_acquire;
  renew := fake_renew;
  heartbeat := default_heartbeat;
  checkpoint := fake_checkpoint;
  mark_complete := fake_mark_complete;
  release := fake_release;
  delete_lease := fake_delete_lease;
  create_shard_lease := fake_create_shard_lease;
  try_acquire_leadership := fake_try_acquire_leadership;
|}.

Definition fake_push (es : list string) : M FakeWorld unit :=
  λ w, (tt, {| fw_metas := fw_metas w; fw_data := fw_data w; fw_rows := fw_rows w;
               fw_events := fw_events w ++ es |}).

#[export] Instance fake_processor : RecordProcessor FakeWorld := {|
  initialize s := fake_push ["init:" +:+ s];
  process_records rs := fake_push (rec_event <$> rs);
  shard_ended s := fake_push ["end:" +:+ s];
  lease_lost s := ret tt;
|}.

(** A row of the lease table. *)
Definition fake_row (owner : option string) (counter : N) (cp : option string) (completed : bool)
    (parents : list string) : FakeLeaseState :=
  {| fl_owner := owner; fl_counter := counter; fl_checkpoint := cp; fl_completed := completed;
     fl_parents := parents |}.

(** A parent and its child, the child listed first; the parent was processed up to
    record 1 by an earlier worker. *)
Definition demo_fake : FakeWorld :=
  {| fw_metas := [{| sm_id := "child"; sm_parents := ["parent"] |};
                  {| sm_id := "parent"; sm_parents := [] |}];
     fw_data := <["parent" := [demo_rec "parent" "1"; demo_rec "parent" "2"]]>
                  {["child" := [demo_rec "child" "3"]]};
     fw_rows := {["parent" := fake_row None 3 (Some "1") false []]};
     fw_events := [] |}.

Lemma worker_follows_protocol_witness :
  (let '(r, (_, log)) :=
     (run "w1" 3 2 (demo_fake, [])
      : option (Result unit WorkerError) * (FakeWorld * list WEvent)) in
   (∃ p, w_run "w1" w_start log = Some p ∧
         (wp_phase p = WStopped ↔ ∃ e, r = Some (Err e))) ∧
   (∀ pre s o h post, log = pre ++ WAcquire s o h :: post →
      o = "w1" ∧ ∃ m, m ∈ (listing_of pre).1 ∧ sm_id m = s ∧ (s ∉ (listing_of pre).2) ∧
        ∀ p, p ∈ sm_parents m →
          p ∈ (listing_of pre).2 ∨ (p ∉ sm_id <$> (listing_of pre).1)) ∧
   (∀ pre post, log = pre ++ WFailed :: post → post = [])) ∧
  fw_events (run "w1" 3 2 demo_fake : option (Result unit WorkerError) * FakeWorld).2 =
    ["init:parent"; "rec:parent:2"; "end:parent"; "init:child"; "rec:child:3"; "end:child"].
Proof.
  split; [|vm_compute; reflexivity].
  pose proof (worker_follows_protocol_and_fails_stop "w1" 3 2 demo_fake) as H.
  exact H.
Defined.
