(* ===== verification/WorkerAws.v ===== *)
(** * The live lease store behind the worker's interface ([worker/src/aws.rs])

    [DynamoDbLeaseStore] as an [AsyncLeaseStore]: the calls of [DynamoDb] with
    their errors rendered.  The bound on scan pages belongs to the model: beyond
    it the listing reports that it did not finish. *)

From stdpp Require Import base gmap numbers list strings.
From S2P Require Import Prelude Core Coordinator LeaseTable DynamoDb Interfaces.

(** [Box::new(e)]: what the worker sees of a lease error is its rendering. *)
Definition box_lease (e : LeaseError) : WorkerError := LeaseError_fmt e.

Definition to_raw (l : Lease) : RawLease :=
  {| rl_lease_key := l_key l; rl_owner := l_owner l; rl_lease_counter := l_counter l;
     rl_completed := l_completed l; rl_checkpoint := l_checkpoint l; rl_parents := l_parents l |}.

Definition to_view (l : Lease) : LeaseView := {| lv_completed := l_completed l |}.

Definition to_handle (l : Lease) : LeaseHandle :=
  {| lh_owner := default EmptyString (l_owner l); lh_counter := l_counter l;
     lh_checkpoint := l_checkpoint l |}.

Section adapter.
Context {W : Type} `{DynamoClient W} (st : DynamoDbLeaseStore) (pages : nat).

Definition boxed {A} (m : M W (Result A LeaseError)) : M W (Result A WorkerError) :=
  r <- m ;; ret (map_result (λ a, a) box_lease r).

Definition aws_get (key : string) : M W (Result (option LeaseView) WorkerError) :=
  l <-? DynamoDb.get st key ;; ret (Ok (to_view <$> l)).

Definition aws_list : M W (Result (list RawLease) WorkerError) :=
  r <- list_all st pages ;;
  ret (match r with
       | Some (Ok ls) => Ok (to_raw <$> ls)
       | Some (Err e) => Err e
       | None => Err "lease scan exceeds the page bound"
       end).

Definition aws_acquire (key owner : string) : M W (Result LeaseHandle WorkerError) :=
  l <-? boxed (DynamoDb.acquire st key owner) ;; ret (Ok (to_handle l)).

Definition aws_leases : AsyncLeaseStore W := {|
  get := aws_get;
  list_leases := aws_list;
  acquire := aws_acquire;
  renew k o c := boxed (DynamoDb.renew st k o c);
  heartbeat w := boxed (DynamoDb.heartbeat st w);
  checkpoint k o c q := boxed (DynamoDb.checkpoint st k o c q);
  mark_complete k o c := boxed (DynamoDb.mark_complete st k o c);
  release k o c := boxed (DynamoDb.release st k o c);
  delete_lease k := boxed (DynamoDb.delete_lease st k);
  create_shard_lease k ps cp := boxed (DynamoDb.create_shard_lease st k ps cp);
  try_acquire_leadership k o e := boxed (DynamoDb.try_acquire_leadership st k o e);
|}.
End adapter.
