(* ===== verification/LeaderElection.v ===== *)
(** * Bidding for shard-sync leadership ([Leadership] of [worker/src/fleet.rs])

    One worker's bid, carried across cycles: it renews, creates or steals the
    sentinel lease.  The theorems are proved against an interface of lease stores
    whose sentinel writes are atomic steps of the abstract table; the live
    DynamoDB store implements it. *)

From Stdlib Require Import Lia.
From stdpp Require Import base gmap numbers list strings.
From S2P Require Import Prelude Core Taker Coordinator Leader LeaseTable DynamoDb LeaseRefine.
From S2P Require Import Interfaces WorkerAws.

Record Leadership := {
  ld_owner : string;
  ld_coord : LeaseCoordinator;
  ld_counter : N;
}.

Definition Leadership_new (owner : string) (lease_duration_ms : N) : Leadership :=
  {| ld_owner := owner; ld_coord := LeaseCoordinator_new owner 1 lease_duration_ms;
     ld_counter := 0 |}.

Definition leader_row (rows : list RawLease) : option RawLease :=
  find (λ r, bool_decide (rl_lease_key r = LEADER_LEASE_KEY)) rows.

(** Only the sentinel is fed to the coordinator. *)
Definition sentinel (rows : list RawLease) : list RawLease :=
  match leader_row rows with Some r => [r] | None => [] end.

Section step.
Context `{HashOrder} {W : Type} `{AsyncLeaseStore W}.

Definition set_counter (l : Leadership) (coord : LeaseCoordinator) (c : N) : Leadership :=
  {| ld_owner := ld_owner l; ld_coord := coord; ld_counter := c |}.

Definition step (l : Leadership) (rows : list RawLease) (now_ms : N) : M W (bool * Leadership) :=
  let row := leader_row rows in
  let '(takes, coord) := tick (ld_coord l) (sentinel rows) now_ms in
  let expired_takeable := existsb (λ k, bool_decide (k = LEADER_LEASE_KEY)) takes in
  let i_own := bool_decide (row ≫= rl_owner = Some (ld_owner l)) in
  let won (r : option N) :=
    ret (match r with
         | Some c => (true, set_counter l coord c)
         | None => (false, set_counter l coord (ld_counter l))
         end) in
  if i_own then
    let base := match row with Some r => rl_lease_counter r | None => ld_counter l end in
    r <- renew LEADER_LEASE_KEY (ld_owner l) base ;;
    won (match r with Ok c => Some c | Err _ => None end)
  else match row with
  | None =>
      r <- try_acquire_leadership LEADER_LEASE_KEY (ld_owner l) None ;;
      won (match r with Ok (Some c) => Some c | _ => None end)
  | Some row =>
      if expired_takeable then
        r <- try_acquire_leadership LEADER_LEASE_KEY (ld_owner l) (Some (rl_lease_counter row)) ;;
        won (match r with Ok (Some c) => Some c | _ => None end)
      else won None
  end.
End step.

(** ** The interface: sentinel writes as atomic steps of the lease table *)

Definition bid_result (op : LeaseOp) (A A' : Table) (won : option N) : Prop :=
  match won with
  | Some c => op_apply op A = Some A' ∧
      ∃ row, A' !! op_key op = Some row ∧ ((l_counter row ≤ u64_max)%N → c = l_counter row)
  | None => A' = A ∨ op_apply op A = Some A'
  end.

(** Other workers' operations may come between the call and its effect. *)
Class AtomicSentinel (W : Type) `{AsyncLeaseStore W} := {
  view : W → Table → Prop;
  renew_atomic k o c w A : view w A →
    ∃ ops A', view (renew k o c w).2 A' ∧
      bid_result (OpRenew k o c) (exec ops A) A'
        (match (renew k o c w).1 with Ok c' => Some c' | Err _ => None end);
  bid_atomic k o e w A : view w A →
    ∃ ops A', view (try_acquire_leadership k o e w).2 A' ∧
      bid_result (match e with Some c => OpClaim k o c | None => OpCreate k o end) (exec ops A) A'
        (match (try_acquire_leadership k o e w).1 with Ok (Some c) => Some c | _ => None end);
}.

(** The live store implements the interface. *)
Section dynamo.
Context {W : Type} `{DynamoClient W} (st : DynamoDbLeaseStore) `{!DynamoLaws W (ds_table st)}.
Variable pages : nat.

Lemma renewed_counter k o c A A' :
  op_apply (OpRenew k o c) A = Some A' →
  ∃ row, A' !! k = Some row ∧ l_counter row = (c + 1)%N.
Proof.
  intros Ha. apply op_apply_row in Ha. cbn in Ha. destruct (A !! k) as [l|]; [|done].
  destruct (held_at o c l) eqn:Hh; [|done]. injection Ha as Ha.
  exists (bump l). split; [done|]. unfold held_at in Hh.
  apply andb_true_iff in Hh as [<-%N.eqb_eq _]. done.
Qed.

Lemma claimed_counter k o c A A' :
  op_apply (OpClaim k o c) A = Some A' →
  ∃ row, A' !! k = Some row ∧ l_counter row = (c + 1)%N.
Proof.
  intros Ha. apply op_apply_row in Ha. cbn in Ha. destruct (A !! k) as [l|]; [|done].
  destruct (l_counter l =? c)%N eqn:Hh; [|done]. injection Ha as Ha.
  exists (bump (with_owner (Some o) l)). split; [done|]. apply N.eqb_eq in Hh as <-. done.
Qed.

Lemma created_counter k o A A' :
  op_apply (OpCreate k o) A = Some A' → ∃ row, A' !! k = Some row ∧ l_counter row = 1%N.
Proof.
  intros Ha. apply op_apply_row in Ha. cbn in Ha. destruct (A !! k) as [l|]; [done|].
  injection Ha as Ha. eexists. by split.
Qed.

Lemma u64_counter c row : l_counter row = (c + 1)%N → (l_counter row ≤ u64_max)%N →
  u64_add c 1 = l_counter row.
Proof. intros Hc Hle. rewrite u64_add_small; lia. Qed.

Lemma boxed_run {A} (m : M W (Result A LeaseError)) w :
  boxed m w = (map_result (λ a, a) box_lease (m w).1, (m w).2).
Proof. unfold boxed, bind. by destruct (m w). Qed.

#[export] Program Instance aws_sentinel
  : @AtomicSentinel W (aws_leases st pages) :=
  @Build_AtomicSentinel W (aws_leases st pages) (λ w A, represents (rows w) A) _ _.
Next Obligation.
  intros k o c w A Hrep. destruct (renew_steps st k o c w A Hrep) as (A0 & A' & (ops & _ & ->) & Hrep' & Hat).
  exists ops, A'.
  change (@renew W (aws_leases st pages) k o c w) with (boxed (DynamoDb.renew st k o c) w).
  rewrite boxed_run. destruct (DynamoDb.renew st k o c w) as [r w'].
  cbn [fst snd map_result] in *. split; [done|]. destruct r as [c'|[]]; cbn in *.
  - destruct Hat as [Ha ->]. split; [done|].
    destruct (renewed_counter _ _ _ _ _ Ha) as (row & Hr & Hc).
    exists row. split; [done|]. by apply u64_counter.
  - left. by destruct Hat.
  - by left.
  - done.
Qed.
Next Obligation.
  intros k o [c|] w A Hrep.
  - destruct (bid_claim_steps st k o c w A Hrep) as (A0 & A' & (ops & _ & ->) & Hrep' & Hat). exists ops, A'.
    change (@try_acquire_leadership W (aws_leases st pages) k o (Some c) w)
      with (boxed (DynamoDb.try_acquire_leadership st k o (Some c)) w).
    rewrite boxed_run. destruct (DynamoDb.try_acquire_leadership st k o (Some c) w) as [r w'].
    cbn [fst snd map_result] in *.
    split; [done|]. destruct r as [[c'|]|[]]; cbn in *; try done; [|by left; destruct Hat].
    destruct Hat as [Ha ->]. split; [done|].
    destruct (claimed_counter _ _ _ _ _ Ha) as (row & Hr & Hc).
    exists row. split; [done|]. by apply u64_counter.
  - destruct (bid_create_steps st k o w A Hrep) as (A0 & A' & (ops & _ & ->) & Hrep' & Hat). exists ops, A'.
    change (@try_acquire_leadership W (aws_leases st pages) k o None w)
      with (boxed (DynamoDb.try_acquire_leadership st k o None) w).
    rewrite boxed_run. destruct (DynamoDb.try_acquire_leadership st k o None w) as [r w'].
    cbn [fst snd map_result] in *.
    split; [done|]. destruct r as [[c'|]|[]]; cbn in *; try done; [|by left; destruct Hat].
    destruct Hat as [Ha ->]. split; [done|].
    destruct (created_counter _ _ _ _ Ha) as (row & Hr & Hc). exists row. by rewrite Hc.
Qed.
End dynamo.

(** ** What a step asks of the store *)

Section bids.
Context `{HashOrder}.

Definition bid (l : Leadership) (rows : list RawLease) (now_ms : N) : option LeaseOp :=
  match leader_row rows with
  | None => Some (OpCreate LEADER_LEASE_KEY (ld_owner l))
  | Some r =>
      if decide (rl_owner r = Some (ld_owner l)) then
        Some (OpRenew LEADER_LEASE_KEY (ld_owner l) (rl_lease_counter r))
      else if decide (LEADER_LEASE_KEY ∈ (tick (ld_coord l) (sentinel rows) now_ms).1)
      then Some (OpClaim LEADER_LEASE_KEY (ld_owner l) (rl_lease_counter r)) else None
  end.

Lemma bid_shape l rows now_ms op :
  bid l rows now_ms = Some op →
  op_key op = LEADER_LEASE_KEY ∧
  match leader_row rows with
  | None => op = OpCreate LEADER_LEASE_KEY (ld_owner l)
  | Some r => op_expects op = Some (rl_lease_counter r)
  end ∧ op_bumps op = true.
Proof.
  unfold bid. destruct (leader_row rows); [|by intros [= <-]].
  repeat case_decide; intros [= <-]; done.
Qed.

(** A bid that wins leaves the sentinel owned by the bidder. *)
Lemma bid_owns l rows now_ms op A A' row :
  bid l rows now_ms = Some op → op_apply op A = Some A' → A' !! LEADER_LEASE_KEY = Some row →
  l_owner row = Some (ld_owner l).
Proof.
  intros Hb Ha Hr. apply op_apply_row in Ha. destruct (bid_shape _ _ _ _ Hb) as (Hk & _ & _).
  rewrite Hk, Hr in Ha. unfold bid in Hb.
  destruct (leader_row rows); repeat case_decide; simplify_eq/=; repeat case_match; simplify_eq/=;
    try done.
  match goal with E : held_at _ _ _ = true |- _ =>
    by apply andb_true_iff in E as [_ ?%bool_decide_eq_true_1] end.
Qed.

Lemma existsb_key ks :
  existsb (λ k, bool_decide (k = LEADER_LEASE_KEY)) ks = bool_decide (LEADER_LEASE_KEY ∈ ks).
Proof.
  apply eq_true_iff_eq. rewrite existsb_True_elem, bool_decide_eq_true.
  setoid_rewrite bool_decide_eq_true. naive_solver.
Qed.

Lemma step_bids {W} `{AtomicSentinel W} l rows now_ms w A :
  view w A →
  let res := (step l rows now_ms : M W (bool * Leadership)) w in
  ld_coord res.1.2 = (tick (ld_coord l) (sentinel rows) now_ms).2 ∧
  ld_owner res.1.2 = ld_owner l ∧
  match bid l rows now_ms with
  | None => res.1.1 = false ∧ res.2 = w
  | Some op => ∃ ops A', view res.2 A' ∧
      bid_result op (exec ops A) A' (if res.1.1 then Some (ld_counter res.1.2) else None)
  end.
Proof.
  intros Hv. cbn zeta. unfold step, bid.
  destruct (tick (ld_coord l) (sentinel rows) now_ms) as [takes coord] eqn:Ht.
  rewrite existsb_key. cbn [fst snd].
  destruct (leader_row rows) as [r|] eqn:Hr; cbn [mbind option_bind].
  - destruct (decide (rl_owner r = Some (ld_owner l))) as [Ho|Ho].
    + rewrite bool_decide_eq_true_2 by done.
      destruct (renew_atomic LEADER_LEASE_KEY (ld_owner l) (rl_lease_counter r) w A Hv)
        as (ops & A' & Hv' & Hres).
      unfold bind. destruct (renew _ _ _ w) as [res w'] eqn:E. cbn [fst snd] in *.
      destruct res as [c|e]; cbn; (split_and!; [done..|]); by exists ops, A'.
    + rewrite bool_decide_eq_false_2 by done.
      destruct (decide (LEADER_LEASE_KEY ∈ takes)) as [Hin|Hin].
      * rewrite bool_decide_eq_true_2 by done.
        destruct (bid_atomic LEADER_LEASE_KEY (ld_owner l) (Some (rl_lease_counter r)) w A Hv)
          as (ops & A' & Hv' & Hres).
        unfold bind. destruct (try_acquire_leadership _ _ _ w) as [res w'] eqn:E.
        cbn [fst snd] in *.
        destruct res as [[c|]|e]; cbn; (split_and!; [done..|]); by exists ops, A'.
      * rewrite bool_decide_eq_false_2 by done. by split_and!.
  - rewrite bool_decide_eq_false_2 by done.
    destruct (bid_atomic LEADER_LEASE_KEY (ld_owner l) None w A Hv) as (ops & A' & Hv' & Hres).
    unfold bind. destruct (try_acquire_leadership _ _ _ w) as [res w'] eqn:E.
    cbn [fst snd] in *.
    destruct res as [[c|]|e]; cbn; (split_and!; [done..|]); by exists ops, A'.
Qed.

(** The taker on a single lease. *)
Lemma take_single s me :
  compute_leases_to_take [s] me 1 =
  if decide (ls_completed s = false ∧ ls_owner s ≠ Some me ∧
             (ls_owner s = None ∨ ls_expired s = true))
  then [ls_lease_key s] else [].
Proof.
  destruct (decide _) as [(Hc & Ho & Ht)|Hn].
  - assert (active_leases [s] = [s]) as Ha.
    { unfold active_leases. by rewrite filter_cons_True. }
    assert (fair_share [s] me = 1) as Hf.
    { assert (live_workers [s] me = {[me]}) as Hl.
      { unfold live_workers. rewrite filter_cons, filter_nil.
        destruct (decide (ls_expired s = false)) as [He|He].
        - destruct Ht as [Ht|Ht]; [|congruence]. csimpl. rewrite Ht. csimpl. set_solver.
        - csimpl. set_solver. }
      unfold fair_share. by rewrite Hl, size_singleton. }
    unfold compute_leases_to_take. rewrite Ha, Hf.
    rewrite bool_decide_eq_false_2 by done.
    assert (live_leases [s] me = []) as ->.
    { unfold live_leases. rewrite filter_cons_False; [done|]. naive_solver. }
    assert (available_leases [s] me = [s]) as ->.
    { unfold available_leases. rewrite filter_cons_True by done. rewrite filter_cons_True by done. done. }
    done.
  - destruct (compute_leases_to_take [s] me 1) as [|k ks] eqn:E; [done|]. exfalso.
    assert (k ∈ compute_leases_to_take [s] me 1) as Hk by (rewrite E; left).
    clear E. revert Hk.
    destruct (compute_cases [s] me 1) as [[E _]|(v & n2 & Hn2 & (Hv & Hs) & E)]; rewrite E;
      intros (l & -> & Hl)%list_elem_of_fmap.
    + apply elem_of_taken_available in Hl as (? & ? & ? & Hl).
      apply list_elem_of_singleton in Hl as ->. naive_solver.
    + apply elem_of_app in Hl as [Hl|Hl].
      * apply elem_of_taken_available in Hl as (? & ? & ? & Hl).
        apply list_elem_of_singleton in Hl as ->. naive_solver.
      * exfalso. assert (length (live_leases (active_leases [s]) v) ≤ 1) as Hlen.
        { unfold live_leases, active_leases.
          etrans; [apply length_filter|]. etrans; [apply length_filter|]. done. }
        destruct Hs as (_ & Hmin & _). lia.
Qed.
End bids.

(** ** What a rival makes of the leader over a history of scans *)

Section history.
Context `{HashOrder}.
Implicit Types (scans : list (list RawLease * N)).

(** The coordinator after the given scans, each fed its sentinel only. *)
Definition coord_after (me : string) (dur : N) scans : LeaseCoordinator :=
  after_scans (LeaseCoordinator_new me 1 dur) ((λ '(rows, t), (sentinel rows, t)) <$> scans).

(** In every scan the sentinel exists, incomplete, and [o] holds it. *)
Definition led_by (o : string) scans : Prop :=
  ∀ rows t, (rows, t) ∈ scans →
    ∃ r, leader_row rows = Some r ∧ rl_owner r = Some o ∧ rl_completed r = false.

Lemma leader_row_key rows r : leader_row rows = Some r → rl_lease_key r = LEADER_LEASE_KEY.
Proof. unfold leader_row. intros [_ Hk]%find_some. by apply bool_decide_eq_true_1 in Hk. Qed.

Lemma sentinel_no_beats rows o : beats_of o (sentinel rows) = [].
Proof.
  unfold beats_of, heartbeat_rows, sentinel. destruct (leader_row rows) as [r|] eqn:Hr; [|done].
  apply leader_row_key in Hr. rewrite filter_cons_False; [done|]. by rewrite Hr.
Qed.

Lemma sentinel_shard_rows rows r : leader_row rows = Some r → shard_rows (sentinel rows) = [r].
Proof.
  intros Hr. unfold sentinel, shard_rows. rewrite Hr.
  by rewrite filter_cons_True by (by rewrite (leader_row_key _ _ Hr)).
Qed.

Lemma sentinel_owners rows r o :
  leader_row rows = Some r → rl_owner r = Some o → Some o ∈ rl_owner <$> sentinel rows.
Proof. intros Hr Ho. unfold sentinel. rewrite Hr. csimpl. rewrite Ho. left. Qed.

Lemma sentinel_clock me dur o rows0 t0 scans :
  o ≠ me → led_by o ((rows0, t0) :: scans) →
  lc_seen (coord_after me dur ((rows0, t0) :: scans)) !! o =
    Some {| seen_counter := 0; last_change_ms := t0 |}.
Proof.
  intros Hne. unfold coord_after. induction scans as [|[rows t] scans IH] using rev_ind; intros Hled.
  - destruct (Hled rows0 t0) as (r & Hr & Ho & _); [left|].
    change (after_scans _ _) with
      (refresh (LeaseCoordinator_new me 1 dur) (sentinel rows0) t0).
    rewrite refresh_lookup, sentinel_no_beats.
    rewrite decide_True by (by eapply sentinel_owners).
    rewrite (sentinel_shard_rows _ _ Hr). cbn [foldl LeaseCoordinator_new lc_seen lc_me].
    rewrite lookup_empty, decide_True; [done|]. split; [done|]. csimpl. rewrite Ho. left.
  - rewrite app_comm_cons, fmap_app.
    change ((λ '(rows, t), (sentinel rows, t)) <$> [(rows, t)]) with [(sentinel rows, t)].
    rewrite after_scans_snoc, refresh_lookup, sentinel_no_beats. cbn [foldl].
    destruct (Hled rows t) as (r & Hr & Ho & _); [set_solver|].
    rewrite decide_True by (by eapply sentinel_owners).
    rewrite IH; [done|]. intros rows' t' Hin. apply (Hled rows' t'). set_solver.
Qed.

(** The decision on a sentinel owned by another worker. *)
Lemma sentinel_takeable c rows now_ms r o :
  leader_row rows = Some r → rl_owner r = Some o → rl_completed r = false → o ≠ lc_me c →
  lc_max_take c = 1 →
  LEADER_LEASE_KEY ∈ (tick c (sentinel rows) now_ms).1 ↔
  is_owner_expired (refresh c (sentinel rows) now_ms) (Some o) now_ms = true.
Proof.
  intros Hr Ho Hc Hne Hmax. unfold tick. cbn [fst]. rewrite (sentinel_shard_rows _ _ Hr).
  cbn [fmap list_fmap].
  change (lc_max_take (refresh c (sentinel rows) now_ms)) with (lc_max_take c). rewrite Hmax.
  rewrite take_single. cbn [snapshot_row ls_completed ls_owner ls_expired ls_lease_key].
  rewrite Ho, Hc, (leader_row_key _ _ Hr).
  change (lc_me (refresh c (sentinel rows) now_ms)) with (lc_me c).
  destruct (decide _) as [(_ & _ & [?|He])|Hn]; [done| |].
  - rewrite list_elem_of_singleton. naive_solver.
  - rewrite elem_of_nil. split; [done|]. intros He. exfalso. apply Hn. split_and!; [done| |by right].
    congruence.
Qed.

(** When the leader is challenged. *)
Lemma challenge_due me dur o rows0 t0 scans rows now_ms r :
  o ≠ me → led_by o ((rows0, t0) :: scans) →
  leader_row rows = Some r → rl_owner r = Some o → rl_completed r = false →
  LEADER_LEASE_KEY ∈ (tick (coord_after me dur ((rows0, t0) :: scans)) (sentinel rows) now_ms).1 ↔
    (dur < now_ms - t0)%N.
Proof.
  intros Hne Hled Hr Ho Hc.
  set (c := coord_after me dur ((rows0, t0) :: scans)).
  destruct (after_scans_config (LeaseCoordinator_new me 1 dur)
              ((λ '(rows, t), (sentinel rows, t)) <$> (rows0, t0) :: scans)) as [Hme Hdur].
  fold (coord_after me dur ((rows0, t0) :: scans)) in Hme, Hdur. fold c in Hme, Hdur.
  assert (lc_max_take c = 1) as Hmax.
  { unfold c, coord_after.
    generalize ((λ '(rows, t), (sentinel rows, t)) <$> (rows0, t0) :: scans).
    intros scs. induction scs as [|[rs t] scs IH] using rev_ind; [done|].
    by rewrite after_scans_snoc. }
  assert (lc_seen (refresh c (sentinel rows) now_ms) !! o =
            Some {| seen_counter := 0; last_change_ms := t0 |}) as Hseen.
  { pose proof (sentinel_clock me dur o rows0 t0 (scans ++ [(rows, now_ms)]) Hne) as Hs.
    unfold coord_after in Hs. rewrite app_comm_cons, fmap_app in Hs.
    change ((λ '(rows, t), (sentinel rows, t)) <$> [(rows, now_ms)])
      with [(sentinel rows, now_ms)] in Hs.
    rewrite after_scans_snoc in Hs. apply Hs. intros rows' t' Hin.
    change ((rows0, t0) :: scans ++ [(rows, now_ms)])
      with (((rows0, t0) :: scans) ++ [(rows, now_ms)]) in Hin.
    rewrite elem_of_app, list_elem_of_singleton in Hin.
    destruct Hin as [Hin|[= -> ->]]; [by apply (Hled rows' t')|by exists r]. }
  assert (is_owner_expired (refresh c (sentinel rows) now_ms) (Some o) now_ms
          = bool_decide (dur < now_ms - t0)%N) as Hexp.
  { unfold is_owner_expired. change (lc_me (refresh c (sentinel rows) now_ms)) with (lc_me c).
    rewrite Hme. rewrite decide_False by done. rewrite Hseen.
    change (lc_lease_duration_ms (refresh c (sentinel rows) now_ms))
      with (lc_lease_duration_ms c). rewrite Hdur.
    unfold saturating_sub. cbn [last_change_ms LeaseCoordinator_new lc_lease_duration_ms].
    apply eq_true_iff_eq. by rewrite bool_decide_eq_true, N.ltb_lt. }
  pose proof (sentinel_takeable c rows now_ms r o Hr Ho Hc) as Ht.
  rewrite Hme, Hexp, bool_decide_eq_true in Ht. exact (Ht Hne Hmax).
Qed.

(** A worker's steps, a scan each, in whatever worlds they run. *)
Inductive steps_through {W} `{AsyncLeaseStore W} : Leadership → list (list RawLease * N) → Leadership → Prop :=
| steps_none l : steps_through l [] l
| steps_one l rows t (w w' : W) leads l1 scans l2 :
    step l rows t w = ((leads, l1), w') → steps_through l1 scans l2 → steps_through l ((rows, t) :: scans) l2.

Lemma step_coord {W} `{AsyncLeaseStore W} l rows t (w : W) :
  let l' := (step l rows t w).1.2 in
  ld_owner l' = ld_owner l ∧ ld_coord l' = refresh (ld_coord l) (sentinel rows) t.
Proof.
  unfold step, tick. repeat case_match; unfold bind, ret; cbn; try done;
    repeat (case_match; cbn); by simplify_eq/=.
Qed.

Lemma steps_through_coord {W} `{AsyncLeaseStore W} l scans l' :
  steps_through (W := W) l scans l' →
  ld_owner l' = ld_owner l ∧
  ld_coord l' = after_scans (ld_coord l) ((λ '(rows, t), (sentinel rows, t)) <$> scans).
Proof.
  induction 1 as [|l rows t w w' leads l1 scans l2 Hs _ [Ho Hc]]; [done|].
  pose proof (step_coord l rows t w) as [Ho1 Hc1]. rewrite Hs in Ho1, Hc1. cbn in Ho1, Hc1.
  split; [congruence|]. rewrite Hc, Hc1. done.
Qed.
End history.

(** ** Properties *)

(** C17: leadership is exclusive per scan.  Against any store whose sentinel writes
    are atomic, a step that makes its worker leader made one conditional write, and
    just after it the worker owns the sentinel, at the counter the step remembers;
    and from then on, whatever happens to the table short of deleting the sentinel,
    no worker that decides from the same scan can win: two workers never lead on
    the strength of one scan. *)
Theorem leadership_is_exclusive_per_scan `{HashOrder} {W} `{AtomicSentinel W}
    l1 l1' rows now1 w w1 A (Hview : view w A)
    (Hwon : (step l1 rows now1 : M W (bool * Leadership)) w = ((true, l1'), w1)) :
  ∃ op ops A1 row,
    bid l1 rows now1 = Some op ∧ op_apply op (exec ops A) = Some A1 ∧ view w1 A1 ∧
    A1 !! LEADER_LEASE_KEY = Some row ∧ l_owner row = Some (ld_owner l1) ∧
    ((l_counter row ≤ u64_max)%N → ld_counter l1' = l_counter row) ∧
    ∀ l2 now2 op2 ops2, bid l2 rows now2 = Some op2 →
      (∀ o, o ∈ ops2 → o ≠ OpDelete LEADER_LEASE_KEY) →
      op_apply op2 (exec ops2 A1) = None.
Proof.
  destruct (step_bids l1 rows now1 w A Hview) as (_ & _ & Hb). rewrite Hwon in Hb. cbn in Hb.
  destruct (bid l1 rows now1) as [op|] eqn:Hop; [|by destruct Hb].
  destruct Hb as (ops & A1 & Hv1 & Ha & row & Hrow & Hc).
  destruct (bid_shape _ _ _ _ Hop) as (Hk & Hexp & Hbump). rewrite Hk in Hrow.
  exists op, ops, A1, row. split_and!; try done; [by eapply bid_owns|].
  intros l2 now2 op2 ops2 Hop2 Hdel.
  destruct (bid_shape _ _ _ _ Hop2) as (Hk2 & Hexp2 & _).
  pose proof (op_apply_row _ _ _ Ha) as Hr1. rewrite Hk, Hrow in Hr1.
  destruct (counter_monotone ops2 A1 LEADER_LEASE_KEY row Hdel Hrow) as (row2 & Hr2 & Hle & _).
  destruct (leader_row rows) as [r|].
  - pose proof (op_row_expects _ _ _ _ Hr1 Hexp) as Hcr.
    destruct (exec ops A !! LEADER_LEASE_KEY) as [l0|]; [|done]. injection Hcr as Hcr.
    destruct (op_row_counter _ _ _ Hr1) as (row' & [= <-] & _ & Hlt & _).
    { intros k ->. done. }
    specialize (Hlt Hbump). apply (stale_op_fails _ _ (rl_lease_counter r) row2);
      [by rewrite Hk2|done|lia].
  - subst op2. unfold op_apply. cbn. by rewrite Hr2.
Qed.

(** C18: a rival's decision to take leadership over does not depend on whether the
    leader renews.  A worker that was just built steps through its scans, one per
    cycle, whatever becomes of the store in between.  Once it has seen [o] hold the
    sentinel in a scan at [t0], then as long as every later scan shows [o] holding it,
    whatever its counter did, its step challenges [o] exactly when more than a lease
    duration has passed since [t0]: it then claims the sentinel at the counter of the
    scan and leads if that goes through, and before that it makes no call at all.  So a
    live leader that renews in every cycle is challenged like a dead one. *)
Theorem leader_challenge_ignores_renewals `{HashOrder} {W} `{AsyncLeaseStore W}
    me dur o rows0 t0 scans rows now_ms r l (w : W)
    (Hne : o ≠ me) (Hled : led_by o ((rows0, t0) :: scans))
    (Hsteps : steps_through (W := W) (Leadership_new me dur) ((rows0, t0) :: scans) l)
    (Hr : leader_row rows = Some r) (Ho : rl_owner r = Some o) (Hc : rl_completed r = false) :
  let '((leads, l'), w') := (step l rows now_ms : M W (bool * Leadership)) w in
  if decide (dur < now_ms - t0)%N then
    let '(answer, w1) := try_acquire_leadership LEADER_LEASE_KEY me (Some (rl_lease_counter r)) w in
    w' = w1 ∧
    match answer with
    | Ok (Some c) => leads = true ∧ ld_counter l' = c
    | _ => leads = false ∧ ld_counter l' = ld_counter l
    end
  else leads = false ∧ ld_counter l' = ld_counter l ∧ w' = w.
Proof.
  destruct (steps_through_coord _ _ _ Hsteps) as [Hme Hcoord].
  pose proof (challenge_due me dur o rows0 t0 scans rows now_ms r Hne Hled Hr Ho Hc) as Hdue.
  unfold coord_after in Hdue. change (LeaseCoordinator_new me 1 dur) with (ld_coord (Leadership_new me dur)) in Hdue.
  rewrite <- Hcoord in Hdue. cbn [ld_owner Leadership_new] in Hme. unfold step.
  destruct (tick (ld_coord l) (sentinel rows) now_ms) as [takes coord]. cbn [fst] in Hdue.
  rewrite existsb_key, Hr. cbn [mbind option_bind]. rewrite Ho, Hme.
  rewrite bool_decide_eq_false_2, (bool_decide_ext _ _ Hdue) by congruence.
  case_decide as Hlt; [rewrite bool_decide_eq_true_2|rewrite bool_decide_eq_false_2]; [|done..].
  unfold bind. by destruct (try_acquire_leadership _ _ _ w) as [[[c|]|e] w1].
Qed.
