(* ===== verification/LeaderDemo.v ===== *)
(** * Leadership bids on the concrete DynamoDB

    Witnesses for [LeaderElection]: a released sentinel, and a leader that renews
    while a rival watches. *)

From stdpp Require Import base gmap numbers list strings.
From S2P Require Import Prelude Core Coordinator Leader LeaseTable DynamoDb LeaseRefine DynamoSim.
From S2P Require Import Interfaces WorkerAws LeaderElection.

Definition released_sentinel : Lease := fresh_lease LEADER_LEASE_KEY None 7 None [].
Definition leader_table : Table := {[LEADER_LEASE_KEY := released_sentinel]}.
Definition leader_db : SimDb :=
  {| sim_rows := {[LEADER_LEASE_KEY := lease_item released_sentinel]};
     sim_status := Some TableActive |}.

Lemma leader_represents : represents (sim_rows leader_db) leader_table.
Proof.
  split; [unfold leader_table; by rewrite map_fmap_singleton|].
  intros k l Hl. unfold leader_table in Hl. by apply lookup_singleton_Some in Hl as [<- <-].
Qed.

Definition sentinel_row (owner : option string) (counter : N) : RawLease :=
  {| rl_lease_key := LEADER_LEASE_KEY; rl_owner := owner; rl_lease_counter := counter;
     rl_completed := false; rl_checkpoint := None; rl_parents := [] |}.

#[local] Instance demo_leases : AsyncLeaseStore SimDb := aws_leases demo_store 4.
#[local] Instance demo_sentinel : AtomicSentinel SimDb := aws_sentinel demo_store 4.

Lemma leader_view : view leader_db leader_table.
Proof. change (represents (sim_rows leader_db) leader_table). exact leader_represents. Qed.

(** Two workers see the released sentinel; the first to act wins, and the claim of
    the second fails whatever happens in between. *)
Lemma leadership_is_exclusive_witness :
  let res := (step (Leadership_new "w1" 1000) [sentinel_row None 7] 5 : M SimDb _) leader_db in
  res.1.1 = true ∧
  ∃ A1, view res.2 A1 ∧
    op_apply (OpClaim LEADER_LEASE_KEY "w2" 7)
      (exec [OpRenew LEADER_LEASE_KEY "w1" 8] A1) = None.
Proof.
  intros res. split; [vm_compute; reflexivity|].
  destruct (leadership_is_exclusive_per_scan (Leadership_new "w1" 1000) res.1.2
              [sentinel_row None 7] 5 leader_db res.2 leader_table leader_view)
    as (op & ops & A1 & row & _ & _ & Hv & _ & _ & _ & Hother).
  { vm_compute. reflexivity. }
  exists A1. split; [exact Hv|].
  apply (Hother (Leadership_new "w2" 1000) 5%N); [vm_compute; reflexivity|].
  intros o Ho. apply list_elem_of_singleton in Ho as ->. discriminate.
Defined.

(** Worker [a] leads and renews once a second. *)
Definition renewals : list (list RawLease * N) :=
  [([sentinel_row (Some "a") 1], 0%N); ([sentinel_row (Some "a") 2], 1000%N);
   ([sentinel_row (Some "a") 3], 2000%N); ([sentinel_row (Some "a") 4], 3000%N)].

Definition renewed_db : SimDb :=
  {| sim_rows := {[LEADER_LEASE_KEY := lease_item (fresh_lease LEADER_LEASE_KEY (Some "a") 5 None [])]};
     sim_status := Some TableActive |}.

Fixpoint watch (l : Leadership) (scans : list (list RawLease * N)) : Leadership :=
  match scans with
  | [] => l
  | (rows, t) :: scans => watch (step l rows t renewed_db).1.2 scans
  end.

Lemma watched l scans : steps_through (W := SimDb) l scans (watch l scans).
Proof.
  revert l. induction scans as [|[rows t] scans IH]; intros l; [constructor|]. cbn [watch].
  destruct (step l rows t renewed_db) as [[leads l1] w'] eqn:Hs. by eapply steps_one, IH.
Qed.

(** [w2], with a lease duration of three seconds, makes no call in the third second and
    takes the lead over in the fourth. *)
Lemma leader_challenge_ignores_renewals_witness :
  let l := watch (Leadership_new "w2" 3000) renewals in
  let now := sentinel_row (Some "a") 5 in
  (let '((leads, l'), w') := (step l [now] 4000 : M SimDb _) renewed_db in
   let '(answer, w1) := try_acquire_leadership LEADER_LEASE_KEY "w2" (Some 5%N) renewed_db in
   w' = w1 ∧
   match answer with
   | Ok (Some c) => leads = true ∧ ld_counter l' = c
   | _ => leads = false ∧ ld_counter l' = ld_counter l
   end) ∧
  ((step l [now] 4000 : M SimDb _) renewed_db).1.1 = true ∧
  ((step l [now] 3000 : M SimDb _) renewed_db).1.1 = false ∧
  ((step l [now] 3000 : M SimDb _) renewed_db).2 = renewed_db.
Proof.
  intros l now. split; [|repeat split; vm_compute; reflexivity].
  assert (led_by "a" renewals) as Hled.
  { intros rows t Hin. unfold renewals in Hin.
    repeat (apply elem_of_cons in Hin as [[= -> ->]|Hin]; [eexists; split_and!; reflexivity|]).
    by apply elem_of_nil in Hin. }
  exact (leader_challenge_ignores_renewals "w2" 3000 "a" [sentinel_row (Some "a") 1] 0 (drop 1 renewals)
           [now] 4000 now l renewed_db ltac:(discriminate) Hled (watched _ _) eq_refl eq_refl eq_refl).
Defined.
