(* ===== verification/CkptDefer.v ===== *)
(** * Deferred checkpoints ([CkptDefer] of [worker/src/fleet.rs])

    Acknowledged progress is kept in memory and written to the lease at most once
    per interval and shard. *)

From stdpp Require Import base gmap numbers list strings sorting.
From S2P Require Import Prelude Core Metrics.

Record PendingCkpt := {
  pc_ack : option string;
  pc_last_persist : Instant;
}.

Record CkptDefer := {
  cd_interval : Duration;
  cd_state : gmap string PendingCkpt;
}.

Definition set_state (d : CkptDefer) (st : gmap string PendingCkpt) : CkptDefer :=
  {| cd_interval := cd_interval d; cd_state := st |}.

(** The ack to persist now, when the interval has elapsed. *)
Definition record_ack (d : CkptDefer) (shard : string) (ack : string) (now : Instant)
  : option string * CkptDefer :=
  let e := default {| pc_ack := None; pc_last_persist := now |} (cd_state d !! shard) in
  let e' := {| pc_ack := Some ack; pc_last_persist := pc_last_persist e |} in
  (if (cd_interval d <=? duration_since now (pc_last_persist e'))%N then pc_ack e' else None,
   set_state d (<[shard := e']> (cd_state d))).

Definition persisted (d : CkptDefer) (shard : string) (now : Instant) : CkptDefer :=
  match cd_state d !! shard with
  | Some _ => set_state d
      (<[shard := {| pc_ack := None; pc_last_persist := now |}]> (cd_state d))
  | None => d
  end.

Definition take_pending (d : CkptDefer) (shard : string) : option string * CkptDefer :=
  match cd_state d !! shard with
  | Some e => (pc_ack e, set_state d
      (<[shard := {| pc_ack := None; pc_last_persist := pc_last_persist e |}]> (cd_state d)))
  | None => (None, d)
  end.

Definition resume_from (d : CkptDefer) (shard : string) : option string :=
  cd_state d !! shard ≫= pc_ack.

Definition forget (d : CkptDefer) (shard : string) : CkptDefer :=
  set_state d (delete shard (cd_state d)).

(** ** Lemmas *)

Lemma record_ack_resume d s ack now :
  resume_from (record_ack d s ack now).2 s = Some ack.
Proof. unfold resume_from. simpl. by rewrite lookup_insert_eq. Qed.

Lemma record_ack_due d s ack now q : (record_ack d s ack now).1 = Some q → q = ack.
Proof. unfold record_ack. simpl. case_match; congruence. Qed.

Lemma persisted_resume d s now : resume_from (persisted d s now) s = None.
Proof.
  unfold resume_from, persisted. destruct (cd_state d !! s) eqn:E; simpl.
  - by rewrite lookup_insert_eq.
  - by rewrite E.
Qed.

Lemma take_pending_spec d s :
  (take_pending d s).1 = resume_from d s ∧ resume_from (take_pending d s).2 s = None.
Proof.
  unfold take_pending, resume_from. destruct (cd_state d !! s) eqn:E; simpl.
  - by rewrite lookup_insert_eq.
  - by rewrite E.
Qed.

Lemma forget_resume d s : resume_from (forget d s) s = None.
Proof. unfold resume_from, forget. simpl. by rewrite lookup_delete_eq. Qed.

(** Operations on one shard leave the others alone. *)
Lemma defer_frame d s s' ack now :
  s' ≠ s →
  cd_state (record_ack d s ack now).2 !! s' = cd_state d !! s' ∧
  cd_state (persisted d s now) !! s' = cd_state d !! s' ∧
  cd_state (take_pending d s).2 !! s' = cd_state d !! s' ∧
  cd_state (forget d s) !! s' = cd_state d !! s'.
Proof.
  intros Hs. unfold persisted, take_pending, forget. simpl.
  destruct (cd_state d !! s); simpl;
    by rewrite ?lookup_insert_ne, ?lookup_delete_ne.
Qed.

#[local] Arguments record_ack : simpl never.
#[local] Arguments persisted : simpl never.

(** A history of acks for one shard, oldest first, each followed by the write it
    makes due, as [process_shard] does when the lease is kept; the writes, with
    their times. *)
Fixpoint deferred_writes (d : CkptDefer) (s : string) (acks : list (string * Instant))
  : list (string * Instant) * CkptDefer :=
  match acks with
  | [] => ([], d)
  | (ack, now) :: acks' =>
      match record_ack d s ack now with
      | (Some due, d1) =>
          let '(ws, d') := deferred_writes (persisted d1 s now) s acks' in
          ((due, now) :: ws, d')
      | (None, d1) => deferred_writes d1 s acks'
      end
  end.

(** The last write cannot be older than the persist time the entry remembers. *)
Definition last_persist (d : CkptDefer) (s : string) : option Instant :=
  pc_last_persist <$> cd_state d !! s.

Lemma record_ack_interval d s ack now :
  cd_interval (record_ack d s ack now).2 = cd_interval d ∧
  last_persist (record_ack d s ack now).2 s = Some (default now (last_persist d s)) ∧
  ((record_ack d s ack now).1 = Some ack ↔
   (cd_interval d ≤ now - default now (last_persist d s))%N).
Proof.
  unfold last_persist, record_ack, duration_since. simpl. rewrite lookup_insert_eq. simpl.
  split_and!; [done|by destruct (cd_state d !! s)|].
  assert (pc_last_persist (default {| pc_ack := None; pc_last_persist := now |} (cd_state d !! s))
          = default now (pc_last_persist <$> cd_state d !! s)) as ->
    by (by destruct (cd_state d !! s)).
  case_match; [rewrite N.leb_le in *|rewrite N.leb_gt in *]; split; try done; intros; lia.
Qed.

Lemma persisted_interval d s now :
  cd_interval (persisted d s now) = cd_interval d ∧
  (is_Some (last_persist d s) → last_persist (persisted d s now) s = Some now).
Proof.
  unfold last_persist, persisted. destruct (cd_state d !! s); simpl.
  - by rewrite lookup_insert_eq.
  - split; [done|by intros [? ?]].
Qed.

Definition nondecreasing (l : list (string * Instant)) : Prop :=
  StronglySorted (λ x y, (x.2 ≤ y.2)%N) l.

(** Writes are at least an interval apart, from each other and from [t0]. *)
Fixpoint spaced (interval : Duration) (t0 : Instant) (ws : list (string * Instant)) : Prop :=
  match ws with
  | [] => True
  | (_, t) :: ws' => (t0 + interval ≤ t)%N ∧ spaced interval t ws'
  end.

Lemma deferred_writes_cons d s ack now acks :
  deferred_writes d s ((ack, now) :: acks) =
  match record_ack d s ack now with
  | (Some due, d1) =>
      let '(ws, d') := deferred_writes (persisted d1 s now) s acks in ((due, now) :: ws, d')
  | (None, d1) => deferred_writes d1 s acks
  end.
Proof. reflexivity. Qed.

Lemma deferred_spaced acks d s t0 :
  (0 < cd_interval d)%N → nondecreasing acks → last_persist d s = Some t0 →
  spaced (cd_interval d) t0 (deferred_writes d s acks).1.
Proof.
  revert d t0. induction acks as [|[ack now] acks IH]; intros d t0 Hi Hs Hl; [done|].
  rewrite deferred_writes_cons.
  apply StronglySorted_inv in Hs as [Hs _].
  destruct (record_ack_interval d s ack now) as (Hint & Hlp & Hdue).
  destruct (record_ack d s ack now) as [[due|] d1] eqn:Hr; simpl in *.
  - assert (due = ack) as -> by (eapply (record_ack_due d s _ now); by rewrite Hr).
    rewrite Hl in *. simpl in *.
    destruct (persisted_interval d1 s now) as [Hint' Hlp'].
    specialize (IH (persisted d1 s now) now). rewrite Hint', Hint in IH.
    destruct (deferred_writes (persisted d1 s now) s acks) as [ws d'] eqn:Hw. simpl.
    split; [destruct Hdue as [Hdue _]; specialize (Hdue eq_refl); lia|].
    apply IH; [done|done|]. apply Hlp'. by rewrite Hlp.
  - rewrite <- Hint. apply IH; [lia|done|]. rewrite Hlp, Hl. done.
Qed.

Lemma deferred_subset acks d s w :
  w ∈ (deferred_writes d s acks).1 → w ∈ acks.
Proof.
  revert d. induction acks as [|[ack now] acks IH]; intros d; [done|].
  rewrite deferred_writes_cons.
  destruct (record_ack d s ack now) as [[due|] d1] eqn:Hr; [|intros ?%IH; by right].
  assert (due = ack) as -> by (eapply (record_ack_due d s _ now); by rewrite Hr).
  specialize (IH (persisted d1 s now)).
  destruct (deferred_writes (persisted d1 s now) s acks) as [ws d']. simpl in *.
  intros [->|?]%elem_of_cons; [by left|right; auto].
Qed.

Lemma deferred_newest acks d s ack now :
  let '(ws, d') := deferred_writes d s (acks ++ [(ack, now)]) in
  resume_from d' s = Some ack ∨ (resume_from d' s = None ∧ last ws = Some (ack, now)).
Proof.
  revert d. induction acks as [|[a t] acks IH]; intros d;
    rewrite <- ?app_comm_cons, ?app_nil_l, deferred_writes_cons.
  - pose proof (record_ack_resume d s ack now) as Hres.
    destruct (record_ack d s ack now) as [[due|] d1] eqn:Hr; [right|by left].
    assert (due = ack) as -> by (eapply (record_ack_due d s _ now); by rewrite Hr).
    split; [apply persisted_resume|done].
  - destruct (record_ack d s a t) as [[due|] d1]; [|apply IH].
    specialize (IH (persisted d1 s t)).
    destruct (deferred_writes (persisted d1 s t) s (acks ++ [(ack, now)])) as [ws d'].
    destruct IH as [?|[? Hl]]; [by left|right]. split; [done|].
    destruct ws as [|w ws]; [done|]. by rewrite last_cons_cons.
Qed.

(** C23: with checkpoints deferred by a positive interval, whatever acks a shard
    collects over time, lease writes are at least an interval apart and each
    carries the newest ack; and at every moment nothing acknowledged is lost: the
    newest ack is either pending, where the next pass resumes from, or it was the
    last one written. *)
Theorem deferred_acks_are_spaced_and_never_lost d s acks ack now
    (Hinterval : (0 < cd_interval d)%N)
    (Htimes : nondecreasing (acks ++ [(ack, now)])) (Hfresh : cd_state d !! s = None) :
  let '(ws, d') := deferred_writes d s (acks ++ [(ack, now)]) in
  (∀ t0, (∃ a, head (acks ++ [(ack, now)]) = Some (a, t0)) → spaced (cd_interval d) t0 ws) ∧
  (∀ w, w ∈ ws → w ∈ acks ++ [(ack, now)]) ∧
  (resume_from d' s = Some ack ∨ (resume_from d' s = None ∧ last ws = Some (ack, now))).
Proof.
  destruct (deferred_writes d s (acks ++ [(ack, now)])) as [ws d'] eqn:Hw. split_and!.
  - intros t0 [a Ha]. destruct (acks ++ [(ack, now)]) as [|[a' t] l] eqn:Hl; [done|].
    injection Ha as -> ->. rewrite deferred_writes_cons in Hw. destruct (record_ack_interval d s a t0) as (Hint & Hlp & Hdue).
    assert (last_persist d s = None) as Hn by (unfold last_persist; by rewrite Hfresh).
    rewrite Hn in Hlp, Hdue.
    destruct (record_ack d s a t0) as [[due|] d1] eqn:Hr; simpl in *.
    + assert (due = a) as -> by (eapply (record_ack_due d s _ t0); by rewrite Hr).
      destruct Hdue as [Hdue _]. specialize (Hdue eq_refl). lia.
    + replace ws with (deferred_writes d1 s l).1 by (by rewrite Hw). rewrite <- Hint.
      apply StronglySorted_inv in Htimes as [Ht _].
      apply deferred_spaced; [lia|done|done].
  - intros w Hin. apply (deferred_subset _ d s). by rewrite Hw.
  - pose proof (deferred_newest acks d s ack now) as Hn. by rewrite Hw in Hn.
Qed.

(** Ten-second interval; acks at 0, 4, 11 and 12 s: one write, at 11 s. *)
Lemma deferred_acks_witness :
  let d := {| cd_interval := 10%N; cd_state := ∅ |} in
  (let '(ws, d') := deferred_writes d "s" ([("a", 0); ("b", 4); ("c", 11)] ++ [("d", 12)])%N in
   (∀ t0, (∃ a, head ([("a", 0); ("b", 4); ("c", 11)] ++ [("d", 12)])%N = Some (a, t0)) →
      spaced 10%N t0 ws) ∧
   (∀ w, w ∈ ws → w ∈ ([("a", 0); ("b", 4); ("c", 11)] ++ [("d", 12)])%N) ∧
   (resume_from d' "s" = Some "d" ∨ (resume_from d' "s" = None ∧ last ws = Some ("d", 12%N)))) ∧
  (deferred_writes d "s" [("a", 0); ("b", 4); ("c", 11); ("d", 12)]%N).1 = [("c", 11%N)].
Proof.
  split; [|vm_compute; reflexivity].
  apply (deferred_acks_are_spaced_and_never_lost {| cd_interval := 10%N; cd_state := ∅ |} "s"
           [("a", 0); ("b", 4); ("c", 11)]%N "d" 12%N); [done| |done].
  repeat (constructor; simpl; try lia).
Defined.
