(* ===== verification/Tasks.v ===== *)
(** * Concurrent tasks (the [JoinSet]s of [worker/src/fleet.rs])

    A spawned [async] block is a [Task]: a sequence of atomic actions on the
    world, each choosing how to go on.  Tasks of a [JoinSet] interleave between
    actions in an order nobody controls, so running them takes a schedule; what
    is proved of them holds for every schedule.

    [rsafe] is the proof rule: a task owns a list of ghost resources, an
    invariant relates all resources to the world, and each action of a task may
    change the resources it owns while it keeps the invariant whatever the others
    own. *)

From stdpp Require Import base numbers list.
From S2P Require Import Prelude.

Inductive Task (W A : Type) : Type :=
| Finish (a : A)
| Await {R : Type} (m : M W R) (k : R → Task W A).
Arguments Finish {W A} a.
Arguments Await {W A R} m k.

Fixpoint task_bind {W A B} (t : Task W A) (k : A → Task W B) : Task W B :=
  match t with
  | Finish a => k a
  | Await m k' => Await m (λ r, task_bind (k' r) k)
  end.

Definition act {W A} (m : M W A) : Task W A := Await m Finish.

Notation "x <~ t ;; k" := (task_bind t (λ x, k))
  (at level 100, t at next level, right associativity) : ddb_scope.

(** A task run with nothing beside it. *)
Fixpoint exec {W A} (t : Task W A) : M W A :=
  match t with
  | Finish a => ret a
  | Await m k => r <- m ;; exec (k r)
  end.

Fixpoint exec_all {W A} (ts : list (Task W A)) : M W (list A) :=
  match ts with
  | [] => ret []
  | t :: ts' => a <- exec t ;; l <- exec_all ts' ;; ret (a :: l)
  end.

Definition step_task {W A} (t : Task W A) : M W (Task W A) :=
  match t with
  | Finish a => ret t
  | Await m k => r <- m ;; ret (k r)
  end.

(** A schedule names the task that acts next. *)
Fixpoint interleave {W A} (schedule : list nat) (ts : list (Task W A)) : M W (list (Task W A)) :=
  match schedule with
  | [] => ret ts
  | i :: schedule' =>
      match ts !! i with
      | Some t => t' <- step_task t ;; interleave schedule' (<[i := t']> ts)
      | None => interleave schedule' ts
      end
  end.

(** [while set.join_next().await.is_some() {}]: every task is finished in the end;
    those the schedule has not finished are finished in order. *)
Definition join_all {W A} (schedule : list nat) (ts : list (Task W A)) : M W (list A) :=
  ts' <- interleave schedule ts ;; exec_all ts'.

(** A task that works on part of a larger world. *)
Definition lift_m {S W A} (m : M W A) : M (S * W) A :=
  λ sw, let '(a, w') := m sw.2 in (a, (sw.1, w')).

(** The same on the left of a pair. *)
Definition on_left {S D A} (m : M S A) : M (S * D) A :=
  λ sd, let '(a, s') := m sd.1 in (a, (s', sd.2)).

Fixpoint lift_task {S W A} (t : Task W A) : Task (S * W) A :=
  match t with
  | Finish a => Finish a
  | Await m k => Await (lift_m m) (λ r, lift_task (k r))
  end.

(** ** The proof rule *)

Lemma Forall3_update {A B C} (P : A → B → C → Prop) l k k' i x y z :
  Forall3 P l k k' → k' !! i = Some z → P x y z → Forall3 P (<[i:=x]> l) (<[i:=y]> k) k'.
Proof.
  intros HF. revert i. induction HF; intros [|i] Hz HP; simplify_eq/=; constructor; auto.
Qed.

Lemma mjoin_delete {A} (hs : list (list A)) i h :
  hs !! i = Some h → mjoin hs ≡ₚ h ++ mjoin (delete i hs).
Proof.
  revert i. induction hs as [|h0 hs IH]; intros [|i] Hi; simplify_eq/=; [done|].
  rewrite (IH i) by done. by rewrite !app_assoc, (Permutation_app_comm h0 h).
Qed.

Lemma mjoin_insert {A} (hs : list (list A)) i h' :
  i < length hs → mjoin (<[i:=h']> hs) ≡ₚ h' ++ mjoin (delete i hs).
Proof.
  revert i. induction hs as [|h0 hs IH]; intros [|i] Hi; simpl in *; [lia|lia|done|].
  rewrite (IH i) by lia. by rewrite !app_assoc, (Permutation_app_comm h0 h').
Qed.

Section rule.
Context {W G : Type} (Inv : list G → W → Prop).
Context `{Inv_perm : !∀ w, Proper ((≡ₚ) ==> iff) (λ gs, Inv gs w)}.

Fixpoint rsafe {A} (h : list G) (t : Task W A) (Q : A → list G → Prop) : Prop :=
  match t with
  | Finish a => Q a h
  | Await m k => ∀ f w, Inv (h ++ f) w →
      ∃ h', Inv (h' ++ f) (m w).2 ∧ rsafe h' (k (m w).1) Q
  end.

Lemma rsafe_conseq {A} h (t : Task W A) (Q Q' : A → list G → Prop) :
  rsafe h t Q' → (∀ a h', Q' a h' → Q a h') → rsafe h t Q.
Proof.
  revert h. induction t as [a|R m k IH]; intros h; simpl; [eauto|].
  intros Hs HQ f w HI. destruct (Hs f w HI) as (h' & HI' & Hk). exists h'. eauto.
Qed.

Lemma rsafe_bind {A B} h (t : Task W A) (k : A → Task W B) Q :
  rsafe h t (λ a h', rsafe h' (k a) Q) → rsafe h (task_bind t k) Q.
Proof.
  revert h. induction t as [a|R m k' IH]; intros h; simpl; [done|].
  intros Hs f w HI. destruct (Hs f w HI) as (h' & HI' & Hk). exists h'. eauto.
Qed.

Lemma rsafe_act {A} h (m : M W A) Q :
  (∀ f w, Inv (h ++ f) w → ∃ h', Inv (h' ++ f) (m w).2 ∧ Q (m w).1 h') →
  rsafe h (act m) Q.
Proof. done. Qed.

(** The common case: one action, then the rest. *)
Lemma rsafe_step {A B} h (m : M W A) (k : A → Task W B) (h' : A → list G) Q :
  (∀ f w, Inv (h ++ f) w → Inv (h' (m w).1 ++ f) (m w).2) →
  (∀ a, rsafe (h' a) (k a) Q) →
  rsafe h (task_bind (act m) k) Q.
Proof. intros Hm Hk f w HI. exists (h' (m w).1). auto. Qed.

Lemma inv_perm gs1 gs2 w : gs1 ≡ₚ gs2 → Inv gs1 w → Inv gs2 w.
Proof. intros Hp HI. by apply (Inv_perm w _ _ Hp). Qed.

Lemma rsafe_exec {A} (t : Task W A) h f w Q :
  rsafe h t Q → Inv (h ++ f) w →
  ∃ h', Q (exec t w).1 h' ∧ Inv (h' ++ f) (exec t w).2.
Proof.
  revert h w. induction t as [a|R m k IH]; intros h w; simpl; [eauto|].
  intros Hs HI. destruct (Hs f w HI) as (h' & HI' & Hk).
  unfold bind. destruct (m w) as [r w'] eqn:Hm. simpl in *.
  destruct (IH r h' w' Hk HI') as (h'' & ? & ?). eauto.
Qed.

Lemma rsafe_exec_all {A} (ts : list (Task W A)) (hs : list (list G))
    (Qs : list (A → list G → Prop)) f w :
  Forall3 rsafe hs ts Qs → Inv (mjoin hs ++ f) w →
  ∃ hs', Forall3 (λ (Q : A → list G → Prop) a h, Q a h) Qs (exec_all ts w).1 hs' ∧
         Inv (mjoin hs' ++ f) (exec_all ts w).2.
Proof.
  intros HF. revert f w. induction HF as [|h t Q hs ts Qs Ht HF IH]; intros f w HI; simpl in *.
  { exists []. by split; [constructor|]. }
  destruct (rsafe_exec t h (mjoin hs ++ f) w Q Ht) as (h' & HQ & HI').
  { by rewrite app_assoc. }
  unfold bind. destruct (exec t w) as [a w1] eqn:Ht'. simpl in *.
  destruct (IH (h' ++ f) w1) as (hs' & HF' & HI'').
  { eapply inv_perm; [|exact HI']. solve_Permutation. }
  destruct (exec_all ts w1) as [l w2] eqn:Hts. simpl in *.
  exists (h' :: hs'). split; [by constructor|].
  eapply inv_perm; [|exact HI'']. simpl. solve_Permutation.
Qed.

Lemma rsafe_interleave {A} schedule (ts : list (Task W A)) (hs : list (list G))
    (Qs : list (A → list G → Prop)) f w :
  Forall3 rsafe hs ts Qs → Inv (mjoin hs ++ f) w →
  ∃ hs', Forall3 rsafe hs' (interleave schedule ts w).1 Qs ∧
         Inv (mjoin hs' ++ f) (interleave schedule ts w).2.
Proof.
  revert ts hs w. induction schedule as [|i schedule IH]; intros ts hs w HF HI; simpl.
  { by exists hs. }
  destruct (ts !! i) as [t|] eqn:Hi; [|by apply (IH ts hs)].
  destruct (Forall3_lookup_m _ _ _ _ _ _ HF Hi) as (h & Q & Hh & HQ & Ht).
  destruct t as [a|R m k]; simpl.
  { unfold bind, ret. apply (IH _ hs); [|done]. by rewrite list_insert_id. }
  destruct (Ht (mjoin (delete i hs) ++ f) w) as (h' & HI' & Hk).
  { eapply inv_perm; [|exact HI]. by rewrite (mjoin_delete hs i h Hh), app_assoc. }
  unfold bind. destruct (m w) as [r w1] eqn:Hm. simpl in *.
  apply (IH _ (<[i := h']> hs)).
  - by eapply Forall3_update.
  - eapply inv_perm; [|exact HI'].
    rewrite mjoin_insert by (by eapply lookup_lt_Some). by rewrite app_assoc.
Qed.

(** Tasks that own disjoint resources keep the invariant under every schedule,
    and each ends where it ends alone. *)
Lemma rsafe_join {A} schedule (ts : list (Task W A)) (hs : list (list G))
    (Qs : list (A → list G → Prop)) f w :
  Forall3 rsafe hs ts Qs → Inv (mjoin hs ++ f) w →
  ∃ hs', Forall3 (λ (Q : A → list G → Prop) a h, Q a h) Qs (join_all schedule ts w).1 hs' ∧
         Inv (mjoin hs' ++ f) (join_all schedule ts w).2.
Proof.
  intros HF HI. destruct (rsafe_interleave schedule ts hs Qs f w HF HI) as (hs' & HF' & HI').
  unfold join_all, bind. destruct (interleave schedule ts w) as [ts' w']. simpl in *.
  by apply (rsafe_exec_all ts' hs' Qs f w').
Qed.
End rule.

(** A task lifted to a larger world: the larger invariant contains the smaller one,
    and nothing else of it depends on what the task touches. *)
Section lift.
Context {W S G G' : Type} (Inv : list G → W → Prop) (Inv' : list G' → S * W → Prop) (inj : G → G').
Variable rest : list G'.
Hypothesis split_inv : ∀ h f sw, Inv' ((inj <$> h) ++ rest ++ f) sw →
  ∃ f0, Inv (h ++ f0) sw.2 ∧
    ∀ h' w', Inv (h' ++ f0) w' → Inv' ((inj <$> h') ++ rest ++ f) (sw.1, w').

Lemma rsafe_lift_task {A} (t : Task W A) h (Q : A → list G' → Prop) :
  rsafe Inv h t (λ a h', Q a ((inj <$> h') ++ rest)) →
  rsafe Inv' ((inj <$> h) ++ rest) (lift_task t) Q.
Proof.
  revert h. induction t as [a|R m k IH]; intros h; cbn [lift_task rsafe]; [done|].
  intros Hs f [x w] HI. rewrite <- app_assoc in HI.
  destruct (split_inv _ _ _ HI) as (f0 & HI0 & Hback). destruct (Hs _ _ HI0) as (h' & HI1 & Hk).
  exists ((inj <$> h') ++ rest). unfold lift_m. cbn [fst snd] in *.
  destruct (m w) as [r w'] eqn:Hm. cbn [fst snd] in *. rewrite <- app_assoc.
  split; [by apply Hback|by apply IH].
Qed.
End lift.

(** ** Relations between the world before and after

    What every action of a computation keeps, the computation keeps, whatever is
    interleaved with it. *)

Section keeps.
Context {X : Type} (R : relation X) `{!PreOrder R}.

Definition keeps {A} (m : M X A) : Prop := ∀ x, R x (m x).2.

Lemma keeps_ret {A} (a : A) : keeps (ret a).
Proof. intros x. reflexivity. Qed.

Lemma keeps_bind {A B} (m : M X A) (k : A → M X B) :
  keeps m → (∀ a, keeps (k a)) → keeps (bind m k).
Proof.
  intros Hm Hk x. unfold bind. pose proof (Hm x) as Hx.
  destruct (m x) as [a x']. cbn in Hx. etrans; [exact Hx|]. apply Hk.
Qed.

Lemma keeps_bind_ok {A B E} (m : M X (Result A E)) (k : A → M X (Result B E)) :
  keeps m → (∀ a, keeps (k a)) → keeps (bind_ok m k).
Proof. intros Hm Hk. apply keeps_bind; [done|]. intros [a|e]; [apply Hk|apply keeps_ret]. Qed.

Lemma keeps_for_each {A} (body : A → M X unit) l :
  (∀ a, keeps (body a)) → keeps (for_each body l).
Proof.
  intros Hb. induction l as [|a l IH]; cbn [for_each]; [apply keeps_ret|].
  by apply keeps_bind.
Qed.

(** A task all of whose actions keep the relation. *)
Fixpoint calm_task {A} (t : Task X A) : Prop :=
  match t with
  | Finish _ => True
  | Await m k => keeps m ∧ ∀ r, calm_task (k r)
  end.

Lemma calm_task_bind {A B} (t : Task X A) (k : A → Task X B) :
  calm_task t → (∀ a, calm_task (k a)) → calm_task (task_bind t k).
Proof. intros Ht Hk. induction t as [a|Y m k' IH]; cbn in *; [done|]. naive_solver. Qed.

Lemma calm_step_task {A} (t : Task X A) x :
  calm_task t → calm_task (step_task t x).1 ∧ R x (step_task t x).2.
Proof.
  destruct t as [a|Y m k]; cbn; [done|]. intros [Hm Hk]. unfold bind.
  pose proof (Hm x) as Hx. destruct (m x) as [r x']. split; [apply Hk|exact Hx].
Qed.

Lemma calm_exec {A} (t : Task X A) : calm_task t → keeps (exec t).
Proof.
  induction t as [a|Y m k IH]; cbn; [intros _; apply keeps_ret|].
  intros [Hm Hk]. apply keeps_bind; [done|]. intros r. by apply IH.
Qed.

Lemma calm_interleave {A} schedule (ts : list (Task X A)) x :
  Forall calm_task ts →
  Forall calm_task (interleave schedule ts x).1 ∧ R x (interleave schedule ts x).2.
Proof.
  revert ts x. induction schedule as [|i schedule IH]; intros ts x Hts; cbn [interleave]; [by split|].
  destruct (ts !! i) as [t|] eqn:Hi; [|by apply IH]. unfold bind.
  destruct (calm_step_task t x) as [Ht Hx]; [by eapply Forall_lookup_1|].
  destruct (step_task t x) as [t' x']. cbn [fst snd] in *.
  destruct (IH (<[i:=t']> ts) x') as [Hts' Hx']; [by apply Forall_insert|].
  split; [done|]. by etrans.
Qed.

Lemma calm_join {A} schedule (ts : list (Task X A)) :
  Forall calm_task ts → keeps (join_all schedule ts).
Proof.
  intros Hts x. unfold join_all, bind. destruct (calm_interleave schedule ts x Hts) as [Hts' Hx].
  destruct (interleave schedule ts x) as [ts' x']. cbn [fst snd] in *. etrans; [exact Hx|].
  clear Hx. revert x'. induction Hts' as [|t ts' Ht _ IH]; cbn [exec_all]; [apply keeps_ret|].
  apply keeps_bind; [by apply calm_exec|intros a]. apply keeps_bind; [exact IH|intros l]. apply keeps_ret.
Qed.
End keeps.

(** A relation under state that it says nothing about. *)
Definition under {S X} (R : relation X) (x y : S * X) : Prop := R x.2 y.2.

#[export] Instance under_preorder {S X} (R : relation X) `{!PreOrder R} : PreOrder (under (S := S) R).
Proof. split; [intros x; unfold under; reflexivity|]. intros x y z. unfold under. intros ? ?. by etrans. Qed.

Lemma keeps_under {S X A} (R : relation X) (m : M X A) : keeps R m → keeps (under (S := S) R) (lift_m m).
Proof. intros Hm [s x]. unfold under, lift_m. cbn. pose proof (Hm x) as Hx. by destruct (m x). Qed.

Lemma keeps_state {S X A} (R : relation X) `{!Reflexive R} (m : M (S * X) A) :
  (∀ x, (m x).2.2 = x.2) → keeps (under R) m.
Proof. intros Hm x. unfold under. by rewrite Hm. Qed.

Lemma calm_lift_task {S W A} (R : relation W) (R' : relation (S * W)) (t : Task W A) :
  (∀ s w w', R w w' → R' (s, w) (s, w')) → calm_task R t → calm_task R' (lift_task t).
Proof.
  intros Hlift. induction t as [a|Y m k IH]; cbn; [done|]. intros [Hm Hk]. split; [|auto].
  intros [s w]. unfold lift_m. cbn. pose proof (Hm w) as Hw. destruct (m w). cbn. by apply Hlift.
Qed.

(** A stretch of a task whose actions keep a relation that the invariant survives. *)
Lemma rsafe_calm {X G A B} (Inv : list G → X → Prop) (R : relation X) (h : list G)
    (t : Task X A) (k : A → Task X B) Q :
  (∀ f x y, R x y → Inv (h ++ f) x → Inv (h ++ f) y) →
  calm_task R t → (∀ a, rsafe Inv h (k a) Q) → rsafe Inv h (task_bind t k) Q.
Proof.
  intros HR Ht Hk. induction t as [a|Y m k' IH]; cbn [task_bind rsafe]; [apply Hk|].
  destruct Ht as [Hm Ht]. intros f x HI. exists h. split; [|by apply IH].
  eapply HR; [apply Hm|exact HI].
Qed.
