(* ===== verification/Stable.v ===== *)
(** * What holds of tasks beside others

    A rely-guarantee rule for the tasks of [Tasks].  [I] is an invariant of the world
    at every point where another task may run; [L] leads from a world to the later
    ones.  What a task knows has to survive [L], since anything may have happened
    before its next action; each action keeps [I] and moves the world along [L]. *)

From stdpp Require Import base numbers list.
From S2P Require Import Prelude Tasks.

Section stable.
Context {X : Type} (I : X → Prop) (L : relation X) `{!PreOrder L}.

(** From [x] or any later world, [m] keeps the invariant and gives [Q]. *)
Definition does {A} (m : M X A) (Q : A → X → Prop) (x : X) : Prop :=
  ∀ y, L x y → I y → I (m y).2 ∧ L y (m y).2 ∧ Q (m y).1 (m y).2.

Fixpoint holds {A} (t : Task X A) (Q : A → X → Prop) (x : X) : Prop :=
  match t with
  | Finish a => ∀ y, L x y → I y → Q a y
  | Await m k => does m (λ r, holds (k r) Q) x
  end.

(** What later worlds keep. *)
Definition stays (P : X → Prop) : Prop := ∀ x y, L x y → P x → P y.

(** A call whose answer does not matter keeps the invariant, as a relation. *)
Definition advances (x y : X) : Prop := I x → I y ∧ L x y.

#[export] Instance advances_preorder : PreOrder advances.
Proof.
  split; [intros x Hx; by split|]. intros x y z Hxy Hyz Hx.
  destruct (Hxy Hx) as [Hy ?]. destruct (Hyz Hy) as [Hz ?]. split; [done|by etrans].
Qed.

(** ** Calls *)

Lemma does_later {A} (m : M X A) Q x y : L x y → does m Q x → does m Q y.
Proof. intros Hxy Hm z Hyz. apply Hm. by etrans. Qed.

Lemma does_conseq {A} (m : M X A) (P Q : A → X → Prop) x :
  does m P x → (∀ a y, L x y → I y → P a y → Q a y) → does m Q x.
Proof.
  intros Hm HPQ y Hxy Hy. destruct (Hm y Hxy Hy) as (Hz & Hyz & HP). split_and!; [done..|].
  apply HPQ; [by etrans|done|done].
Qed.

Lemma does_true {A} (m : M X A) P x : does m P x → does m (λ _ _, True) x.
Proof. intros Hm. by eapply does_conseq. Qed.

Lemma does_keeps {A} (m : M X A) : keeps advances m ↔ ∀ x, does m (λ _ _, True) x.
Proof.
  split.
  - intros Hm x y _ Hy. by destruct (Hm y Hy).
  - intros Hm x Hx. by destruct (Hm x x (reflexivity x) Hx) as (? & ? & _).
Qed.

Lemma keeps_does {A} (m : M X A) x : keeps advances m → does m (λ _ _, True) x.
Proof. intros Hm. by apply does_keeps. Qed.

Lemma does_ret {A} (a : A) (Q : A → X → Prop) x : (∀ y, L x y → I y → Q a y) → does (ret a) Q x.
Proof. intros HQ y Hxy Hy. split_and!; [done|reflexivity|by apply HQ]. Qed.

Lemma does_bind {A B} (m : M X A) (k : A → M X B) P Q x :
  does m P x → (∀ a y, L x y → P a y → does (k a) Q y) → does (bind m k) Q x.
Proof.
  intros Hm Hk y Hxy Hy. destruct (Hm y Hxy Hy) as (Hz & Hyz & HP). unfold bind.
  destruct (m y) as [a z]. cbn [fst snd] in *.
  destruct (Hk a z (transitivity Hxy Hyz) HP z (reflexivity z) Hz) as (? & ? & ?).
  split_and!; [done|by etrans|done].
Qed.

Lemma does_bind_ok {A B E} (m : M X (Result A E)) (k : A → M X (Result B E)) P
    (Q : Result B E → X → Prop) x :
  does m P x → (∀ a y, L x y → P (Ok a) y → does (k a) Q y) → (∀ e y, L x y → Q (Err e) y) →
  does (bind_ok m k) Q x.
Proof.
  intros Hm Hk He. eapply does_bind; [exact Hm|]. intros [a|e] y Hxy HP; [by apply Hk|].
  apply does_ret. intros z Hyz _. apply He. by etrans.
Qed.

Lemma does_for_each {A} (body : A → M X unit) l x :
  (∀ a, a ∈ l → does (body a) (λ _ _, True) x) → does (for_each body l) (λ _ _, True) x.
Proof.
  revert x. induction l as [|a l IH]; intros x Hb; cbn [for_each]; [by apply does_ret|].
  eapply does_bind; [apply Hb; left|]. intros _ y Hxy _. apply IH. intros a' Ha'.
  eapply does_later; [exact Hxy|]. apply Hb. by right.
Qed.

(** ** Tasks *)

Lemma holds_later {A} (t : Task X A) Q x y : L x y → holds t Q x → holds t Q y.
Proof.
  destruct t as [a|R m k]; cbn; [|apply does_later]. intros Hxy HQ z Hyz. apply HQ. by etrans.
Qed.

(** What holds at every later world where another task may run, holds. *)
Lemma holds_here {A} (t : Task X A) Q x : (∀ y, L x y → I y → holds t Q y) → holds t Q x.
Proof.
  destruct t as [a|R m k]; cbn; intros Ht y Hxy Hy; by apply (Ht y Hxy Hy).
Qed.

Lemma holds_finish {A} (a : A) (Q : A → X → Prop) x :
  (∀ y, L x y → I y → Q a y) → holds (Finish a) Q x.
Proof. done. Qed.

Lemma holds_bind {A B} (t : Task X A) (k : A → Task X B) P Q x :
  holds t P x → (∀ a y, L x y → P a y → holds (k a) Q y) → holds (task_bind t k) Q x.
Proof.
  revert x. induction t as [a|R m k' IH]; intros x Ht Hk; cbn in *.
  - apply holds_here. intros y Hxy Hy. apply Hk; [done|by apply Ht].
  - intros y Hxy Hy. destruct (Ht y Hxy Hy) as (Hz & Hyz & Hr). split_and!; [done..|].
    apply IH; [done|]. intros a z Hz' HP. apply Hk; [|done]. by do 2 (etrans; [eassumption|]).
Qed.

Lemma holds_act {A} (m : M X A) (P : A → X → Prop) x : (∀ a, stays (P a)) → does m P x → holds (act m) P x.
Proof. intros HP Hm. eapply does_conseq; [exact Hm|]. intros a y _ _ Ha z Hyz _. by eapply HP. Qed.

(** An action, then the rest. *)
Lemma holds_step {A B} (m : M X A) (k : A → Task X B) P Q x :
  does m P x → (∀ a y, L x y → P a y → holds (k a) Q y) → holds (task_bind (act m) k) Q x.
Proof. intros Hm Hk. eapply does_conseq; [exact Hm|]. intros a y Hxy _. by apply Hk. Qed.

Lemma holds_conseq {A} (t : Task X A) (P Q : A → X → Prop) x :
  holds t P x → (∀ a y, L x y → I y → P a y → Q a y) → holds t Q x.
Proof.
  revert x. induction t as [a|R m k IH]; intros x Ht HPQ; cbn in *; [by eauto|].
  eapply does_conseq; [exact Ht|]. intros r y Hxy _ Hr. eapply IH; [exact Hr|].
  intros a z Hyz. apply HPQ. by etrans.
Qed.

Lemma holds_calm {A} (t : Task X A) x : calm_task advances t → holds t (λ _ _, True) x.
Proof.
  revert x. induction t as [a|R m k IH]; intros x; cbn; [done|]. intros [Hm Hk].
  eapply does_conseq; [by apply keeps_does|]. intros r y _ _ _. by apply IH.
Qed.

Lemma does_exec {A} (t : Task X A) Q x : holds t Q x → does (exec t) Q x.
Proof.
  revert x. induction t as [a|R m k IH]; intros x Ht; cbn in *; [by apply does_ret|].
  eapply does_bind; [exact Ht|]. intros r y _ Hr. by apply IH.
Qed.

(** Tasks that hold beside each other end, under any schedule, in a world where the
    invariant holds. *)
Lemma holds_interleave {A} schedule (ts : list (Task X A)) Q x :
  Forall (λ t, holds t Q x) ts →
  does (interleave schedule ts) (λ ts' y, Forall (λ t, holds t Q y) ts') x.
Proof.
  assert (∀ (ts : list (Task X A)) x y, L x y → Forall (λ t, holds t Q x) ts → Forall (λ t, holds t Q y) ts)
    as Hlater.
  { intros ts0 x0 y Hxy HF. eapply Forall_impl; [exact HF|]. intros t. by apply holds_later. }
  revert ts x. induction schedule as [|i schedule IH]; intros ts x Hts; cbn [interleave].
  { apply does_ret. intros y Hxy _. by eapply Hlater. }
  destruct (ts !! i) as [t|] eqn:Hi; [|by apply IH].
  eapply does_bind with (P := λ t' y, holds t' Q y).
  - pose proof (Forall_lookup_1 _ _ _ _ Hts Hi) as Ht. destruct t as [a|R m k]; cbn [step_task].
    + apply does_ret. intros y Hxy _. by eapply holds_later.
    + eapply does_bind; [exact Ht|]. intros r y _ Hr. apply does_ret. intros z Hyz _. by eapply holds_later.
  - intros t' y Hxy Ht'. apply IH. apply Forall_insert; [by eapply Hlater|done].
Qed.

Lemma does_join {A} schedule (ts : list (Task X A)) Q x :
  Forall (λ t, holds t Q x) ts → does (join_all schedule ts) (λ _ _, True) x.
Proof.
  intros Hts. unfold join_all. eapply does_bind; [by apply holds_interleave|].
  clear Hts. intros ts' y _ Hts. clear ts x. rename ts' into ts. revert y Hts. induction ts as [|t ts IH]; intros y Hts; cbn [exec_all];
    [by apply does_ret|].
  apply Forall_cons in Hts as [Ht Hts]. eapply does_bind; [by apply does_exec|]. intros a z Hyz _.
  eapply does_bind; [apply IH; eapply Forall_impl; [exact Hts|intros ? ?; by eapply holds_later]|].
  intros l z' _ _. by apply does_ret.
Qed.
End stable.

(** ** Part of a larger world *)

Section lift.
Context {S X : Type} (I : X → Prop) (L : relation X) (I' : S * X → Prop).
Hypothesis inner : ∀ sx, I' sx → I sx.2.
Hypothesis outer : ∀ s x y, L x y → I' (s, x) → I y → I' (s, y).

Lemma does_lift {A} (m : M X A) Q s x :
  does I L m Q x → does I' (under L) (lift_m m) (λ a sx, Q a sx.2) (s, x).
Proof.
  intros Hm [s' y] Hxy Hy. unfold under in *. cbn in Hxy.
  destruct (Hm y Hxy (inner _ Hy)) as (Hz & Hyz & HQ).
  unfold lift_m. cbn. destruct (m y) as [a z]. cbn in *. split_and!; [|done|done].
  by eapply outer.
Qed.

Lemma holds_lift {A} (t : Task X A) Q s x :
  holds I L t Q x → holds I' (under L) (lift_task t) (λ a sx, Q a sx.2) (s, x).
Proof.
  revert s x. induction t as [a|R m k IH]; intros s x Ht; cbn in *.
  - intros [s' y] Hxy Hy. apply Ht; [exact Hxy|exact (inner _ Hy)].
  - intros [s' y] Hxy Hy. destruct (does_lift m _ s x Ht (s', y) Hxy Hy) as (Hz & Hyz & HQ).
    split_and!; [done..|]. destruct (lift_m m (s', y)) as [r [s2 z]]. cbn in *. by apply IH.
Qed.
End lift.
