(* ===== verification/StreamsSource.v ===== *)
(** * The live DynamoDB Streams source ([source-ddbstreams/src/aws.rs])

    [DescribeStream], [GetShardIterator] and [GetRecords] calls turned into shard
    metadata and record batches.  The source keeps one iterator per shard and goes
    on from it as long as the caller asks for the position it stands at.  The SDK
    client is an interface; the theorems assume what the service documents of
    iterators ([StreamsLaws]). *)

From Stdlib Require Import Lia.
From stdpp Require Import base gmap sets numbers list strings.
From S2P Require Import Prelude Core Position Lineage ChangeRecord Interfaces Tasks.

Inductive ShardIteratorType := ItAfterSequenceNumber | ItLatest | ItTrimHorizon.

(** A shard of a [DescribeStream] page: its id, parent and ending sequence number. *)
Record SdkShard := {
  sh_shard_id : option string;
  sh_parent_shard_id : option string;
  sh_ending : option string;
}.

Record StreamDescription := {
  sd_shards : list SdkShard;
  sd_last_evaluated_shard_id : option string;
}.

Record GetRecordsOutput := {
  go_records : list SdkRecord;
  go_next_shard_iterator : option string;
}.

(** The SDK client, the timer and the wall clock (milliseconds since the epoch,
    [None] before it). *)
Class StreamsClient (W : Type) := {
  sdk_describe_stream : string → option ShardFilter → option string →
    M W (Result (option StreamDescription) WorkerError);
  sdk_get_shard_iterator : string → string → ShardIteratorType → option string →
    M W (Result (option string) WorkerError);
  sdk_get_records : string → option Z → M W (Result GetRecordsOutput WorkerError);
  sdk_sleep_ms : N → M W unit;
  sdk_unix_now_ms : M W (option Z);
}.

Record Cursor := {
  cur_after : option string;
  cur_iterator : string;
}.

Definition Cursors : Type := gmap string Cursor.

Record DdbStreamsSource := {
  src_stream_arn : string;
  src_max_records : option Z;
}.

Definition clamp_max_records (n : Z) : Z := Z.min (Z.max n 1) 1000.

Definition DdbStreamsSource_new (arn : string) : DdbStreamsSource :=
  {| src_stream_arn := arn; src_max_records := None |}.

Definition with_max_records (n : Z) (s : DdbStreamsSource) : DdbStreamsSource :=
  {| src_stream_arn := src_stream_arn s; src_max_records := Some (clamp_max_records n) |}.

(** ** Cursors *)

Definition cursor_continues (cursor_after requested : option string) : bool :=
  bool_decide (cursor_after = requested).

Definition advanced_after (requested last_seq : option string) : option string :=
  match last_seq with Some q => Some q | None => requested end.

Definition cached_iterator (cs : Cursors) (shard : string) (after : option string) : option string :=
  c ← cs !! shard;
  if cursor_continues (cur_after c) after then Some (cur_iterator c) else None.

Definition store_cursor (shard : string) (after iterator : option string) (cs : Cursors) : Cursors :=
  match iterator with
  | Some it => <[shard := {| cur_after := after; cur_iterator := it |}]> cs
  | None => delete shard cs
  end.

Definition drop_cursor (shard : string) (cs : Cursors) : Cursors := delete shard cs.

(** ** Errors *)

Definition is_recoverable (msg : WorkerError) : bool :=
  contains msg "TrimmedDataAccessException" || contains msg "ExpiredIteratorException"
  || contains msg "ResourceNotFoundException".

Definition is_throttling (msg : WorkerError) : bool :=
  contains msg "ProvisionedThroughputExceededException" || contains msg "ThrottlingException"
  || contains msg "RequestLimitExceeded" || contains msg "LimitExceededException".

(** ** Records *)

(** A record without a sequence number is passed over. *)
Definition sdk_seq (r : SdkRecord) : option string :=
  sr ← sk_dynamodb r;
  let seq := default EmptyString (ss_sequence_number sr) in
  if bool_decide (seq = EmptyString) then None else Some seq.

Definition to_record `{RecordCodec} (shard : string) (r : SdkRecord) : option Record_ :=
  seq ← sdk_seq r;
  Some {| rec_shard := shard; rec_seq := seq; rec_data := encode (from_sdk r) |}.

Definition newest_step (newest : option Z) (r : SdkRecord) : option Z :=
  match sdk_seq r, sk_dynamodb r ≫= ss_created with
  | Some _, Some t => Some (created_ms t)
  | _, _ => newest
  end.

Definition newest_creation_ms (rs : list SdkRecord) : option Z := foldl newest_step None rs.

(** A page of shards; those without an id are passed over. *)
Definition to_ddb_shard (s : SdkShard) : option DdbShard :=
  let id := default EmptyString (sh_shard_id s) in
  if bool_decide (id = EmptyString) then None
  else Some {| shard_id := id; parent_shard_id := sh_parent_shard_id s;
               ending_sequence_number := sh_ending s |}.

Definition to_child_meta (s : SdkShard) : option ShardMeta :=
  let id := default EmptyString (sh_shard_id s) in
  if bool_decide (id = EmptyString) then None
  else Some {| sm_id := id; sm_parents := option_list (sh_parent_shard_id s) |}.

Section source.
Context `{RecordCodec} {W : Type} `{StreamsClient W} (src : DdbStreamsSource).
Abbreviation S := (M (Cursors * W)).

(** [with_throttle_retry]; [retries] counts the attempts that may still follow. *)
Fixpoint throttle_loop {T} (retries : nat) (delay_ms : N) (op : M W (Result T WorkerError))
  : M W (Result T WorkerError) :=
  r <- op ;;
  match r, retries with
  | Err e, Datatypes.S retries' =>
      if is_throttling e then
        sdk_sleep_ms delay_ms ;;;
        throttle_loop retries' (N.min (delay_ms * 2) 800) op
      else ret (Err e)
  | other, _ => ret other
  end.

Definition with_throttle_retry {T} (op : M W (Result T WorkerError))
  : M W (Result T WorkerError) := throttle_loop 4 100 op.

(** The loop over the pages of a description; [None] beyond the bound. *)
Fixpoint describe_loop {T} (pages : nat) (filter : option ShardFilter) (f : SdkShard → option T)
    (start : option string) (acc : list T) : M W (option (Result (list T) WorkerError)) :=
  match pages with
  | O => ret None
  | Datatypes.S pages' =>
      r <- sdk_describe_stream (src_stream_arn src) filter start ;;
      match r with
      | Err e => ret (Some (Err e))
      | Ok None => ret (Some (Ok acc))
      | Ok (Some d) =>
          let acc' := acc ++ omap (M := list) f (sd_shards d) in
          match sd_last_evaluated_shard_id d with
          | Some id => describe_loop pages' filter f (Some id) acc'
          | None => ret (Some (Ok acc'))
          end
      end
  end.

Definition src_describe_shards (pages : nat) : M W (option (Result (list ShardMeta) WorkerError)) :=
  r <- describe_loop pages None to_ddb_shard None [] ;;
  ret (match r with
       | Some (Ok raw) => Some (Ok (build_shard_graph [close_open_parents raw]))
       | Some (Err e) => Some (Err e)
       | None => None
       end).

Definition src_describe_child_shards (pages : nat) (parent : string)
  : M W (option (Result (list ShardMeta) WorkerError)) :=
  describe_loop pages (Some (child_shards parent)) to_child_meta None [].

(** ** Reading a shard *)

Definition derive_iterator (shard : string) (after : option string)
  : M W (Result (option string) WorkerError) :=
  let '(iter_type, seq) :=
    match from_checkpoint after with
    | After s => (ItAfterSequenceNumber, Some s)
    | Latest => (ItLatest, None)
    | TrimHorizon => (ItTrimHorizon, None)
    end in
  sdk_get_shard_iterator (src_stream_arn src) shard iter_type seq.

Definition cur_set (f : Cursors → Cursors) : S unit := λ cw, (tt, (f cw.1, cw.2)).

(** Step 1: the iterator kept, or a fresh one; [None] when the service gives none. *)
Definition obtain_iterator (shard : string) (after : option string)
  : S (Result (option string) WorkerError) :=
  cached <- (λ cw, (cached_iterator cw.1 shard after, cw)) ;;
  match cached with
  | Some it => ret (Ok (Some it))
  | None =>
      r <- lift_m (derive_iterator shard after) ;;
      match r with
      | Ok (Some it) => ret (Ok (Some it))
      | Ok None => cur_set (drop_cursor shard) ;;; ret (Ok None)
      | Err e =>
          if is_recoverable e && bool_decide (is_Some after)
          then lift_m (derive_iterator shard None)
          else ret (Err e)
      end
  end.

(** Step 2: [GetRecords], once more from a fresh iterator after a recoverable error. *)
Definition read_records (shard : string) (after : option string) (iterator : string)
  : S (Result (option GetRecordsOutput) WorkerError) :=
  r <- lift_m (with_throttle_retry (sdk_get_records iterator (src_max_records src))) ;;
  match r with
  | Ok o => ret (Ok (Some o))
  | Err e =>
      if is_recoverable e then
        cur_set (drop_cursor shard) ;;;
        fresh <-? lift_m (derive_iterator shard after) ;;
        match fresh with
        | Some it =>
            o <-? lift_m (sdk_get_records it (src_max_records src)) ;; ret (Ok (Some o))
        | None => ret (Ok None)
        end
      else ret (Err e)
  end.

Definition closed_batch : RecordBatch :=
  {| rb_records := []; rb_shard_end := true; rb_millis_behind_latest := None |}.

Definition millis_behind (created : Z) : M W Z :=
  now <- sdk_unix_now_ms ;;
  ret (Z.max (i64_wrap (default created now - created)) 0).

(** Step 3: convert, thread the next iterator, measure the lag. *)
Definition take_batch (shard : string) (after : option string) (resp : GetRecordsOutput)
  : S (Result RecordBatch WorkerError) :=
  let records := omap (M := list) (to_record shard) (go_records resp) in
  let next := go_next_shard_iterator resp in
  cur_set (store_cursor shard (advanced_after after (last_seq records)) next) ;;;
  behind <- (match newest_creation_ms (go_records resp) with
             | Some created => ms <- lift_m (millis_behind created) ;; ret (Some ms)
             | None => ret None
             end) ;;
  ret (Ok {| rb_records := records; rb_shard_end := bool_decide (next = None);
             rb_millis_behind_latest := behind |}).

Definition src_get_records (shard : string) (after : option string)
  : S (Result RecordBatch WorkerError) :=
  iterator <-? obtain_iterator shard after ;;
  match iterator with
  | None => ret (Ok closed_batch)
  | Some it =>
      resp <-? read_records shard after it ;;
      match resp with
      | None => ret (Ok closed_batch)
      | Some resp => take_batch shard after resp
      end
  end.
End source.

(** ** Descriptions are complete *)

Section describe.
Context {W : Type} `{StreamsClient W} (src : DdbStreamsSource) (filter : option ShardFilter).

(** The pages of a description, up to the one without [LastEvaluatedShardId]. *)
Inductive described : option string → W → list (list SdkShard) → W → Prop :=
| described_last start w d w' :
    sdk_describe_stream (src_stream_arn src) filter start w = (Ok (Some d), w') →
    sd_last_evaluated_shard_id d = None → described start w [sd_shards d] w'
| described_more start w d id w1 pages w' :
    sdk_describe_stream (src_stream_arn src) filter start w = (Ok (Some d), w1) →
    sd_last_evaluated_shard_id d = Some id → described (Some id) w1 pages w' →
    described start w (sd_shards d :: pages) w'.

Lemma describe_loop_pages {T} (f : SdkShard → option T) start w pages w' bound acc :
  described start w pages w' → length pages ≤ bound →
  describe_loop src bound filter f start acc w =
    (Some (Ok (acc ++ omap (M := list) f (concat pages))), w').
Proof.
  intros Hd. revert bound acc.
  induction Hd as [start w d w' Hc Hn|start w d id w1 pages w' Hc Hn _ IH];
    intros [|bound] acc Hb; cbn in Hb; try lia; cbn [describe_loop];
    rewrite (bind_run _ _ _ _ _ Hc), Hn; cbn [concat].
  - by rewrite app_nil_r.
  - rewrite IH by lia. by rewrite omap_app, app_assoc.
Qed.
End describe.

Lemma describe_shards_pages {W} `{StreamsClient W} src w pages w' bound :
  described src None None w pages w' → length pages ≤ bound →
  src_describe_shards src bound w =
    (Some (Ok (build_shard_graph [close_open_parents (omap (M := list) to_ddb_shard (concat pages))])), w').
Proof.
  intros Hd Hb. unfold src_describe_shards.
  by rewrite (bind_run _ _ _ _ _ (describe_loop_pages _ _ to_ddb_shard _ _ _ _ _ [] Hd Hb)).
Qed.

(** ** The source behind the worker's interface ([worker/src/aws.rs]) *)

Section adapter.
Context `{RecordCodec} {W : Type} `{StreamsClient W} (src : DdbStreamsSource) (pages : nat).

Definition unbounded {A} (m : M W (option (Result A WorkerError))) : M (Cursors * W) (Result A WorkerError) :=
  r <- lift_m m ;; ret (default (Err "stream description exceeds the page bound") r).

Definition aws_source : AsyncStreamSource (Cursors * W) := {|
  describe_shards := unbounded (src_describe_shards src pages);
  get_records := src_get_records src;
  describe_child_shards parent := unbounded (src_describe_child_shards src pages parent);
|}.
End adapter.

(** ** What the service's calls keep, the source's calls keep *)

Section kept.
Context `{RecordCodec} {W : Type} `{StreamsClient W} (src : DdbStreamsSource) (pages : nat).
Variables (R : relation W).
Context `{!PreOrder R}.

Record ReadCalls : Prop := {
  read_iterator arn sh ty q : keeps R (sdk_get_shard_iterator arn sh ty q);
  read_records_page it limit : keeps R (sdk_get_records it limit);
  read_sleep ms : keeps R (sdk_sleep_ms ms);
  read_now : keeps R sdk_unix_now_ms;
}.

Lemma keeps_reads s a : ReadCalls → keeps (under R) (src_get_records src s a).
Proof.
  intros Hc.
  assert (∀ sh q, keeps R (derive_iterator src sh q)) as Hd.
  { intros sh q. unfold derive_iterator. case_match; apply (read_iterator Hc). }
  assert (∀ {A} (m : M (Cursors * W) A), (∀ v, (m v).2.2 = v.2) → keeps (under R) m) as Hcur.
  { intros A m Hm. by apply keeps_state; [apply _|]. }
  assert (∀ n ms it lim, keeps R (throttle_loop n ms (sdk_get_records it lim))) as Ht.
  { intros n. induction n as [|n IH]; intros ms it lim; cbn [throttle_loop];
      (apply keeps_bind; [apply _|apply (read_records_page Hc)|intros [o|e]; try by apply keeps_ret; apply _]).
    case_match; [|by apply keeps_ret; apply _].
    apply keeps_bind; [apply _|apply (read_sleep Hc)|intros _; apply IH]. }
  unfold src_get_records, obtain_iterator, read_records, take_batch, millis_behind, bind_ok.
  repeat first [ apply Hd | apply Ht | apply (read_records_page Hc) | apply (read_now Hc)
    | apply keeps_bind; [apply _| |intros ?]
    | apply keeps_ret; apply _ | apply keeps_under | by apply Hcur; intros [? ?] | progress case_match ].
Qed.

Hypothesis Hdescribe : ∀ arn f start, keeps R (sdk_describe_stream arn f start).

Lemma keeps_describe_loop {T} filter (f : SdkShard → option T) start acc :
  keeps R (describe_loop src pages filter f start acc).
Proof.
  revert start acc. induction pages as [|n IH]; intros start acc; cbn [describe_loop];
    [apply keeps_ret; apply _|].
  apply keeps_bind; [apply _|apply Hdescribe|intros [[d|]|e]]; try (apply keeps_ret; apply _).
  cbn zeta. case_match; [apply IH|apply keeps_ret; apply _].
Qed.

Lemma keeps_describe : keeps R (src_describe_shards src pages).
Proof. apply keeps_bind; [apply _|apply keeps_describe_loop|intros r; apply keeps_ret; apply _]. Qed.

Lemma keeps_describe_children p : keeps R (src_describe_child_shards src pages p).
Proof. apply keeps_describe_loop. Qed.
End kept.
