(* ===== verification/StreamsReads.v ===== *)
(** * What the live source delivers ([source-ddbstreams/src/aws.rs], [get_records])

    The records of a shard are a growing log of which an oldest part may be trimmed
    away; an iterator is a place in the log.  [StreamsLaws] states what the service
    documents of iterators and what the errors the adapter recovers from mean.  Under
    it, whoever polls shards and goes on from the last record it was given gets every
    record in order, whether the source reuses an iterator, derives a new one, or
    heals an expired or trimmed one. *)

From Stdlib Require Import Lia.
From stdpp Require Import base functions sorting gmap sets numbers list strings.
From S2P Require Import Prelude Core Position Lineage ChangeRecord Interfaces Tasks StreamsSource.

(** [shard_log] is all that was ever written to the shard, [trim_horizon] how much of
    it is gone; a sealed shard gets no more records; [stands_at] says where an
    iterator is. *)
Class StreamsHistory (W : Type) := {
  shard_log : W → string → list SdkRecord;
  trim_horizon : W → string → nat;
  sealed : W → string → Prop;
  stands_at : W → string → option (string * nat);
}.

(** What may happen to a stream: records are appended, trimmed, a shard is sealed. *)
Definition evolves {W} `{StreamsHistory W} (w w' : W) : Prop :=
  (∀ sh, shard_log w sh `prefix_of` shard_log w' sh ∧ trim_horizon w sh ≤ trim_horizon w' sh ∧
     (sealed w sh → sealed w' sh ∧ shard_log w' sh = shard_log w sh)) ∧
  (∀ it p, stands_at w it = Some p → stands_at w' it = Some p).

#[export] Instance evolves_preorder {W} `{StreamsHistory W} : PreOrder evolves.
Proof.
  split.
  - intros w. split; [|done]. by intros sh.
  - intros w1 w2 w3 [Hs Hi] [Hs' Hi']. split; [|eauto]. intros sh.
    destruct (Hs sh) as (Hp & Ht & Hse), (Hs' sh) as (Hp' & Ht' & Hse').
    split_and!; [by etrans|lia|]. intros [Hse1 Hl]%Hse. apply Hse' in Hse1 as [? Hl'].
    split; [done|congruence].
Qed.

Class StreamsLaws (W : Type) `{StreamsClient W, StreamsHistory W} := {
  (** Sequence numbers are present, not the sentinel, and distinct in a shard. *)
  log_seq : ∀ w sh i r, shard_log w sh !! i = Some r →
    ∃ q, sdk_seq r = Some q ∧ q ≠ SENTINEL_LATEST;
  log_seq_inj : ∀ w sh i j r s, shard_log w sh !! i = Some r → shard_log w sh !! j = Some s →
    sdk_seq r = sdk_seq s → i = j;

  evolves_iterator : ∀ arn sh ty q, keeps evolves (sdk_get_shard_iterator arn sh ty q);
  evolves_records : ∀ it limit, keeps evolves (sdk_get_records it limit);
  evolves_sleep : ∀ ms, keeps evolves (sdk_sleep_ms ms);
  evolves_now : keeps evolves sdk_unix_now_ms;

  (** [AFTER_SEQUENCE_NUMBER] stands right after the record, [LATEST] at the end,
      [TRIM_HORIZON] at the oldest record left. *)
  iterator_given : ∀ arn sh ty q it w w',
    sdk_get_shard_iterator arn sh ty q w = (Ok (Some it), w') →
    match ty, q with
    | ItAfterSequenceNumber, Some q =>
        ∃ i r, shard_log w' sh !! i = Some r ∧ sdk_seq r = Some q ∧ stands_at w' it = Some (sh, S i)
    | ItAfterSequenceNumber, None => False
    | ItLatest, _ => stands_at w' it = Some (sh, length (shard_log w' sh))
    | ItTrimHorizon, _ => stands_at w' it = Some (sh, trim_horizon w' sh)
    end;

  (** No iterator: nothing is left of the shard. *)
  iterator_none : ∀ arn sh ty q w w',
    sdk_get_shard_iterator arn sh ty q w = (Ok None, w') →
    sealed w' sh ∧ length (shard_log w' sh) ≤ trim_horizon w' sh;

  (** A position refused as trimmed or gone lies before what is left. *)
  iterator_refused : ∀ arn sh q e w w' i r,
    sdk_get_shard_iterator arn sh ItAfterSequenceNumber (Some q) w = (Err e, w') →
    is_recoverable e = true → shard_log w' sh !! i = Some r → sdk_seq r = Some q →
    S i ≤ trim_horizon w' sh;

  (** [GetRecords] returns records from where the iterator stands, and an iterator
      that stands behind them, unless the shard ends there. *)
  records_given : ∀ it limit o w w' sh m,
    sdk_get_records it limit w = (Ok o, w') → stands_at w it = Some (sh, m) →
    ∃ k, (m + k ≤ length (shard_log w' sh) ∨ k = 0) ∧
      go_records o = take k (drop m (shard_log w' sh)) ∧
      match go_next_shard_iterator o with
      | Some it' => stands_at w' it' = Some (sh, m + k)
      | None => sealed w' sh ∧ length (shard_log w' sh) ≤ m + k
      end;
}.

Section reads.
Context `{RecordCodec} {W : Type} `{StreamsLaws W} (src : DdbStreamsSource).
Abbreviation R := (M (Cursors * W)).

(** The place in the log a caller has read up to: nothing yet, or a sequence number. *)
Definition stands (w : W) (sh : string) (after : option string) (n : nat) : Prop :=
  match after with
  | None => n = 0
  | Some q => q ≠ SENTINEL_LATEST ∧
      ∃ i r, shard_log w sh !! i = Some r ∧ sdk_seq r = Some q ∧ n = S i
  end.

(** A position a caller may ask for. *)
Definition known (w : W) (sh : string) (after : option string) : Prop :=
  after = Some SENTINEL_LATEST ∨ ∃ n, stands w sh after n.

(** Reading from the place [m] passes over nothing that is left after the position. *)
Definition resumes (w : W) (sh : string) (after : option string) (m : nat) : Prop :=
  after = Some SENTINEL_LATEST ∨
  ∃ n, stands w sh after n ∧ n ≤ m ∧ (m = n ∨ m ≤ trim_horizon w sh).

Definition iterator_ok (w : W) (sh : string) (after : option string) (it : string) : Prop :=
  ∃ m, stands_at w it = Some (sh, m) ∧ resumes w sh after m.

(** Every cursor kept is good for the position it is kept for. *)
Definition cursors_ok (cw : Cursors * W) : Prop :=
  ∀ sh c, cw.1 !! sh = Some c → iterator_ok cw.2 sh (cur_after c) (cur_iterator c).

(** Nothing is left of the shard. *)
Definition drained (w : W) (sh : string) : Prop :=
  sealed w sh ∧ length (shard_log w sh) ≤ trim_horizon w sh.

Lemma stands_unique w sh after n n' : stands w sh after n → stands w sh after n' → n = n'.
Proof.
  destruct after as [q|]; cbn; [|congruence].
  intros (_ & i & r & Hi & Hr & ->) (_ & j & s & Hj & Hs & ->). f_equal.
  eapply log_seq_inj; [exact Hi|exact Hj|congruence].
Qed.

Lemma stands_evolves w w' sh after n : evolves w w' → stands w sh after n → stands w' sh after n.
Proof.
  intros [Hs _]. destruct after as [q|]; cbn; [|done].
  intros (? & i & r & Hi & ? & ->). split; [done|]. exists i, r. split_and!; [|done..].
  eapply prefix_lookup_Some; [exact Hi|]. apply Hs.
Qed.

Lemma known_evolves w w' sh after : evolves w w' → known w sh after → known w' sh after.
Proof. intros He [?|[n Hn]]; [by left|right]. exists n. by eapply stands_evolves. Qed.

Lemma resumes_evolves w w' sh after m : evolves w w' → resumes w sh after m → resumes w' sh after m.
Proof.
  intros He [?|(n & Hn & ? & Hm)]; [by left|right]. exists n.
  split_and!; [by eapply stands_evolves|done|]. destruct Hm as [?|Hm]; [by left|right].
  destruct He as [Hs _]. destruct (Hs sh) as (_ & ? & _). lia.
Qed.

Lemma iterator_ok_evolves w w' sh after it :
  evolves w w' → iterator_ok w sh after it → iterator_ok w' sh after it.
Proof.
  intros He (m & Hm & Hr). exists m. split; [by apply He|by eapply resumes_evolves].
Qed.

Lemma cursors_ok_evolves cs w w' : evolves w w' → cursors_ok (cs, w) → cursors_ok (cs, w').
Proof. intros He Hc sh c Hsh. eapply iterator_ok_evolves; [done|]. by apply Hc. Qed.

Lemma cursors_ok_delete sh cs w : cursors_ok (cs, w) → cursors_ok (delete sh cs, w).
Proof. intros Hc sh' c Hl. cbn in Hl. apply lookup_delete_Some in Hl as [_ Hl]. by apply Hc. Qed.

Lemma cursors_ok_insert sh a it cs w :
  cursors_ok (cs, w) → iterator_ok w sh a it →
  cursors_ok (<[sh := {| cur_after := a; cur_iterator := it |}]> cs, w).
Proof.
  intros Hc Hi sh' c Hl. cbn in Hl. apply lookup_insert_Some in Hl as [[<- <-]|[_ Hl]]; [done|].
  by apply Hc.
Qed.

(** ** The calls of one poll *)

Lemma keeps_derive sh after : keeps evolves (derive_iterator src sh after).
Proof. unfold derive_iterator. case_match; apply evolves_iterator. Qed.

Lemma keeps_throttle retries ms it limit :
  keeps evolves (throttle_loop retries ms (sdk_get_records it limit)).
Proof.
  revert ms. induction retries as [|retries IH]; intros ms; cbn [throttle_loop];
    (apply keeps_bind; [apply _|apply evolves_records|intros [o|e]; try apply (keeps_ret _)]).
  case_match; [|apply (keeps_ret _)]. apply keeps_bind; [apply _|apply evolves_sleep|]. intros _. apply IH.
Qed.

Lemma keeps_behind created : keeps evolves (millis_behind created).
Proof.
  unfold millis_behind. apply keeps_bind; [apply _|apply evolves_now|]. intros ?. apply (keeps_ret _).
Qed.

(** The batch a call brought goes on from the position. *)
Definition brought (w : W) (sh : string) (after : option string) (o : GetRecordsOutput) : Prop :=
  ∃ m k, resumes w sh after m ∧ (m + k ≤ length (shard_log w sh) ∨ k = 0) ∧
    go_records o = take k (drop m (shard_log w sh)) ∧
    match go_next_shard_iterator o with
    | Some it => stands_at w it = Some (sh, m + k)
    | None => sealed w sh ∧ length (shard_log w sh) ≤ m + k
    end.

(** Everything up to the position is gone. *)
Definition behind_horizon (w : W) (sh : string) (after : option string) : Prop :=
  after = Some SENTINEL_LATEST ∨ ∃ n, stands w sh after n ∧ n ≤ trim_horizon w sh.

Lemma behind_evolves w w' sh after :
  evolves w w' → behind_horizon w sh after → behind_horizon w' sh after.
Proof.
  intros He [?|(n & Hn & Hle)]; [by left|right]. exists n. split; [by eapply stands_evolves|].
  destruct He as [Hs _]. destruct (Hs sh) as (_ & ? & _). lia.
Qed.

Lemma derive_ok sh after w :
  known w sh after →
  let '(r, w') := derive_iterator src sh after w in
  match r with
  | Ok (Some it) => iterator_ok w' sh after it
  | Ok None => drained w' sh
  | Err e => is_recoverable e = true → behind_horizon w' sh after
  end.
Proof.
  intros Hk. pose proof (keeps_derive sh after w) as He. unfold derive_iterator in *.
  destruct after as [q|]; cbn [from_checkpoint] in *; [case_decide as Hq|].
  2: destruct Hk as [?|[n Hn]]; [congruence|].
  all: destruct (sdk_get_shard_iterator _ _ _ _ w) as [[[it|]|e] w'] eqn:Hcall; cbn [fst snd] in He.
  all: try (apply iterator_none in Hcall; exact Hcall).
  all: try (pose proof Hcall as Hit; apply iterator_given in Hit).
  - exists (length (shard_log w' sh)). split; [exact Hit|left; congruence].
  - intros _. left. congruence.
  - destruct Hit as (i & r & Hi & Hr & Hit). exists (S i). split; [exact Hit|right].
    exists (S i). split_and!; [|done|by left]. split; [done|eauto].
  - intros Hrec. right. exists n. eapply stands_evolves in Hn as Hn'; [|exact He].
    split; [done|]. destruct Hn' as (_ & i & r & Hi & Hr & ->).
    by eapply iterator_refused.
  - exists (trim_horizon w' sh). split; [exact Hit|right]. exists 0. split_and!; [done|lia|by right].
  - intros _. right. exists 0. split; [done|lia].
Qed.

(** From behind the horizon, the oldest record left is the next one. *)
Lemma derive_oldest_ok sh after w :
  behind_horizon w sh after →
  let '(r, w') := derive_iterator src sh None w in
  match r with
  | Ok (Some it) => iterator_ok w' sh after it
  | Ok None => drained w' sh
  | Err _ => True
  end.
Proof.
  intros Hb. pose proof (keeps_derive sh None w) as He. unfold derive_iterator in *.
  cbn [from_checkpoint] in *.
  destruct (sdk_get_shard_iterator _ _ _ _ w) as [[[it|]|e] w'] eqn:Hcall; cbn [fst snd] in He; [| |done].
  - apply iterator_given in Hcall. exists (trim_horizon w' sh). split; [exact Hcall|].
    apply (behind_evolves _ _ _ _ He) in Hb as [?|(n & Hn & Hle)]; [by left|right].
    exists n. split_and!; [done|done|by right].
  - by apply iterator_none in Hcall.
Qed.

Lemma throttle_ok retries ms it limit sh after w :
  iterator_ok w sh after it →
  let '(r, w') := throttle_loop retries ms (sdk_get_records it limit) w in
  match r with Ok o => brought w' sh after o | Err _ => True end.
Proof.
  revert ms w. induction retries as [|retries IH]; intros ms w Hit; cbn [throttle_loop]; unfold bind;
    pose proof (evolves_records it limit w) as He;
    destruct (sdk_get_records it limit w) as [[o|e] w'] eqn:Hcall; cbn [fst snd ret] in *;
    try (destruct Hit as (m & Hm & Hr);
         destruct (records_given _ _ _ _ _ _ _ Hcall Hm) as (k & ? & ? & ?);
         exists m, k; split_and!; [by eapply resumes_evolves|done..]).
  1: done.
  destruct (is_throttling e); [|done].
  pose proof (evolves_sleep ms w') as He'. destruct (sdk_sleep_ms ms w') as [[] w'']. cbn [snd] in He'.
  apply IH. eapply iterator_ok_evolves; [exact He'|]. by eapply iterator_ok_evolves.
Qed.

(** ** One poll *)

(** The state between the calls of a poll that began in [w0]. *)
Definition mid (w0 : W) (cw : Cursors * W) : Prop := cursors_ok cw ∧ evolves w0 cw.2.

Lemma mid_lift {A} w0 (m : M W A) (P : W → Prop) (Q : A → W → Prop) :
  keeps evolves m → (∀ w, evolves w0 w → P w → let '(a, w') := m w in Q a w') →
  triple (λ cw, mid w0 cw ∧ P cw.2) (lift_m m) (λ a cw, mid w0 cw ∧ Q a cw.2).
Proof.
  intros Hk Hm [cs w] [[Hc He] HP]. cbn in *. pose proof (Hk w) as Hw. specialize (Hm w He HP).
  unfold lift_m. cbn [fst snd]. destruct (m w) as [a w']. cbn in *.
  split; [split|done]; [by eapply cursors_ok_evolves|by etrans].
Qed.

Lemma mid_drop w0 sh (P : W → Prop) :
  triple (λ cw, mid w0 cw ∧ P cw.2) (cur_set (W := W) (drop_cursor sh)) (λ _ cw, mid w0 cw ∧ P cw.2).
Proof. intros [cs w] [[Hc He] HP]. split; [split|done]; [by apply cursors_ok_delete|done]. Qed.

Definition obtained (w : W) sh after (r : Result (option string) WorkerError) : Prop :=
  match r with
  | Ok (Some it) => iterator_ok w sh after it
  | Ok None => drained w sh
  | Err _ => True
  end.

Lemma obtain_ok w0 sh after :
  known w0 sh after →
  triple (λ cw, mid w0 cw ∧ True) (obtain_iterator src sh after) (λ r cw, mid w0 cw ∧ obtained cw.2 sh after r).
Proof.
  intros Hk. unfold obtain_iterator.
  eapply triple_bind with (R := λ c cw, mid w0 cw ∧
    match c with Some it => iterator_ok cw.2 sh after it | None => True end).
  { intros [cs w] [[Hc He] _]. split; [by split|]. cbn.
    unfold cached_iterator. destruct (cs !! sh) as [c|] eqn:Hsh; cbn; [|done].
    unfold cursor_continues. case_bool_decide as Heq; [|done]. rewrite <- Heq. by apply Hc. }
  intros [it|]; [by apply triple_ret|].
  eapply triple_bind; [apply (mid_lift w0 _ (λ _, True)
    (λ r w, match r with Err e => is_recoverable e = true → behind_horizon w sh after
                       | _ => obtained w sh after r end)); [apply keeps_derive|]|].
  { intros w He _. pose proof (derive_ok sh after w) as Hd.
    destruct (derive_iterator src sh after w) as [[[it|]|e] w']; apply Hd; by eapply known_evolves. }
  intros [[it|]|e].
  - by apply triple_ret.
  - eapply triple_bind; [apply (mid_drop w0 sh (λ w, obtained w sh after (Ok None)))|].
    intros ?. by apply triple_ret.
  - destruct (is_recoverable e) eqn:Hrec; cbn [andb]; [|by apply triple_ret; intros ? [? _]].
    case_bool_decide; [|by apply triple_ret; intros ? [? _]].
    eapply triple_conseq; [apply (mid_lift w0 _ (λ w, behind_horizon w sh after)
      (λ r w, obtained w sh after r)); [apply keeps_derive|]| |done].
    + intros w He Hb. pose proof (derive_oldest_ok sh after w Hb) as Hd.
      by destruct (derive_iterator src sh None w) as [[[it|]|e'] w'].
    + intros cw [? Hb]. split; [done|by apply Hb].
Qed.

Definition read (w : W) sh after (r : Result (option GetRecordsOutput) WorkerError) : Prop :=
  match r with
  | Ok (Some o) => brought w sh after o
  | Ok None => drained w sh
  | Err _ => True
  end.

Lemma read_ok w0 sh after it :
  known w0 sh after →
  triple (λ cw, mid w0 cw ∧ iterator_ok cw.2 sh after it) (read_records src sh after it)
    (λ r cw, mid w0 cw ∧ read cw.2 sh after r).
Proof.
  intros Hk. unfold read_records.
  eapply triple_bind; [apply (mid_lift w0 _ (λ w, iterator_ok w sh after it)
    (λ r w, match r with Ok o => brought w sh after o | Err _ => True end)); [apply keeps_throttle|]|].
  { intros w _ Hit. by apply throttle_ok. }
  intros [o|e]; [by apply triple_ret|]. case_match; [|by apply triple_ret; intros ? [? _]].
  eapply triple_bind; [apply (mid_drop w0 sh (λ _, True))|]. intros ?.
  eapply triple_bind_ok; [|].
  { eapply triple_conseq; [apply (mid_lift w0 _ (λ _, True) (λ r w, obtained w sh after r));
      [apply keeps_derive|]|done|].
    - intros w He _. pose proof (derive_ok sh after w (known_evolves _ _ _ _ He Hk)) as Hd.
      by destruct (derive_iterator src sh after w) as [[[it'|]|e'] w'].
    - instantiate (1 := λ f cw, mid w0 cw ∧ obtained cw.2 sh after (Ok f)). by intros [f|e']. }
  intros [it'|]; [|by apply triple_ret].
  eapply triple_bind_ok; [|].
  { eapply triple_conseq; [apply (mid_lift w0 _ (λ w, iterator_ok w sh after it')
      (λ r w, match r with Ok o => brought w sh after o | Err _ => True end))|done|].
    - apply evolves_records.
    - intros w _ Hit. apply (throttle_ok 0 0 it' (src_max_records src) sh after) in Hit. revert Hit.
      cbn [throttle_loop]. unfold bind. by destruct (sdk_get_records _ _ w) as [[o|e'] w'].
    - instantiate (1 := λ o cw, mid w0 cw ∧ brought cw.2 sh after o). by intros [o|e']. }
  intros o. by apply triple_ret.
Qed.

(** ** The batch *)

Definition slice (w : W) (sh : string) (m k : nat) : list Record_ :=
  omap (M := list) (to_record sh) (take k (drop m (shard_log w sh))).

(** The position behind the records at these places. *)
Definition next_place (n : nat) (places : list nat) : nat := from_option S n (last places).

Definition at_place (w : W) (sh : string) (i : nat) (r : Record_) : Prop :=
  ∃ s, shard_log w sh !! i = Some s ∧ to_record sh s = Some r.

Lemma converts w sh i s :
  shard_log w sh !! i = Some s → ∃ r, to_record sh s = Some r ∧ Some (rec_seq r) = sdk_seq s.
Proof.
  intros Hi. destruct (log_seq w sh i s Hi) as (q & Hq & _). unfold to_record. rewrite Hq. cbn. eauto.
Qed.

Lemma slice_places w sh m k :
  m + k ≤ length (shard_log w sh) ∨ k = 0 →
  Forall2 (at_place w sh) (seq m k) (slice w sh m k) ∧
  (last_seq (slice w sh m k) = None ∧ k = 0 ∨
   0 < k ∧ stands w sh (last_seq (slice w sh m k)) (m + k) ∧ is_Some (last_seq (slice w sh m k))).
Proof.
  unfold slice. revert m. induction k as [|k IH]; intros m Hk; [cbn; split; [constructor|by left]|].
  destruct Hk as [Hk|]; [|lia].
  destruct (lookup_lt_is_Some_2 (shard_log w sh) m) as [s Hs]; [lia|].
  rewrite (drop_S _ s) by done. cbn [take seq].
  destruct (converts w sh m s Hs) as (r & Hr & Hseq).
  destruct (IH (S m)) as [HF Hlast]; [left; lia|].
  assert (omap (to_record sh) (s :: take k (drop (S m) (shard_log w sh))) =
    r :: omap (to_record sh) (take k (drop (S m) (shard_log w sh)))) as -> by (cbn; by rewrite Hr).
  split; [constructor; [by exists s|done]|]. right. split; [lia|].
  destruct Hlast as [[Hnone ->]|(Hpos & Hst & [q Hq])].
  - cbn. split; [|eauto]. destruct (log_seq w sh m s Hs) as (q & Hq & Hne).
    split; [congruence|]. exists m, s. split_and!; [done|congruence|lia].
  - unfold last_seq in *. destruct (omap _ _) as [|r' rs]; [by cbn in Hq|].
    change (last (r :: r' :: rs)) with (last (r' :: rs)).
    replace (m + S k) with (S m + k) by lia. eauto.
Qed.

Lemma advanced_resumes w sh after m k :
  resumes w sh after m → m + k ≤ length (shard_log w sh) ∨ k = 0 →
  resumes w sh (advanced_after after (last_seq (slice w sh m k))) (m + k).
Proof.
  intros Hr Hk. destruct (slice_places w sh m k Hk) as [_ [[-> ->]|(_ & Hst & [q Hq])]].
  - by rewrite Nat.add_0_r.
  - rewrite Hq in *. right. exists (m + k). split_and!; [done|lia|by left].
Qed.

(** What a poll from the place [n] delivers: records in order, each once, and all
    that is left of the log up to the last of them; all that is left of the shard
    when it says the shard has ended. *)
Definition serves (w : W) (sh : string) (n : nat) (rs : list Record_) (ended : Prop)
    (places : list nat) : Prop :=
  StronglySorted lt places ∧ Forall (λ i, n ≤ i) places ∧ Forall2 (at_place w sh) places rs ∧
  (∀ i, n ≤ i < next_place n places → i ∈ places ∨ i < trim_horizon w sh) ∧
  (ended → sealed w sh ∧
     ∀ i, n ≤ i < length (shard_log w sh) → i ∈ places ∨ i < trim_horizon w sh).

Lemma seq_lt_sorted m k : StronglySorted lt (seq m k).
Proof.
  revert m. induction k as [|k IH]; intros m; cbn; constructor; [done|].
  apply Forall_forall. intros i Hi%elem_of_seq. lia.
Qed.

Lemma next_place_seq n m k : next_place n (seq m k) = if decide (k = 0) then n else m + k.
Proof.
  unfold next_place. destruct k as [|k]; [done|]. rewrite seq_S, last_snoc. cbn. case_decide; lia.
Qed.

Definition polled (w : W) (sh : string) (after : option string) (b : RecordBatch) : Prop :=
  let after' := advanced_after after (last_seq (rb_records b)) in
  known w sh after' ∧
  ∀ n, stands w sh after n → ∃ places,
    serves w sh n (rb_records b) (rb_shard_end b = true) places ∧
    stands w sh after' (next_place n places).

Lemma drained_polled w sh after : known w sh after → drained w sh → polled w sh after closed_batch.
Proof.
  intros Hk [Hse Hlen]. split; [by destruct after|]. intros n Hn. exists []. split; [|by destruct after].
  split_and!; [constructor|constructor|constructor|cbn; lia|].
  intros _. split; [done|]. intros i Hi. right. lia.
Qed.

Lemma brought_polled w sh after o b :
  brought w sh after o → rb_records b = omap (M := list) (to_record sh) (go_records o) →
  rb_shard_end b = bool_decide (go_next_shard_iterator o = None) →
  polled w sh after b ∧
  ∀ it, go_next_shard_iterator o = Some it →
    iterator_ok w sh (advanced_after after (last_seq (rb_records b))) it.
Proof.
  intros (m & k & Hr & Hk & Hgo & Hnext) Hrec Hend.
  assert (rb_records b = slice w sh m k) as Hs by (by rewrite Hrec, Hgo).
  unfold polled. rewrite Hs. destruct (slice_places w sh m k Hk) as [HF Hlast].
  pose proof (advanced_resumes w sh after m k Hr Hk) as Hadv. split; [split|].
  - destruct Hadv as [?|(n & Hn & _)]; [by left|right; eauto].
  - intros n Hn. exists (seq m k). destruct Hr as [->|(n' & Hn' & Hle & Hm)]; [by destruct Hn|].
    assert (n' = n) as -> by (by eapply stands_unique). rewrite next_place_seq.
    split; [split_and!|].
    + apply seq_lt_sorted.
    + apply Forall_forall. intros i Hi%elem_of_seq. lia.
    + exact HF.
    + intros i Hi. rewrite next_place_seq in Hi. rewrite elem_of_seq. case_decide; lia.
    + rewrite Hend. intros Hnone%bool_decide_eq_true. rewrite Hnone in Hnext.
      destruct Hnext as [Hse Hlen]. split; [done|]. intros i Hi. rewrite elem_of_seq. lia.
    + destruct Hlast as [[-> ->]|(Hpos & Hst & [q Hq])]; cbn; [done|].
      rewrite Hq in *. cbn. by rewrite decide_False by lia.
  - intros it Hit. rewrite Hit in Hnext. by exists (m + k).
Qed.

Lemma serves_evolves w w' sh n rs ended places :
  evolves w w' → serves w sh n rs ended places → serves w' sh n rs ended places.
Proof.
  intros [Hs _] (Hsort & Hn & HF & Hcov & Hend). destruct (Hs sh) as (Hp & Ht & Hse).
  split_and!; [done|done| | |].
  - eapply Forall2_impl; [exact HF|]. intros i r (s & Hi & ?). exists s.
    split; [by eapply prefix_lookup_Some|done].
  - intros i Hi. destruct (Hcov i Hi); [by left|right; lia].
  - intros He. destruct (Hend He) as [[Hse' Hl]%Hse Hall]. split; [done|]. rewrite Hl.
    intros i Hi. destruct (Hall i Hi); [by left|right; lia].
Qed.

Lemma polled_evolves w w' sh after b :
  known w sh after → evolves w w' → polled w sh after b → polled w' sh after b.
Proof.
  intros Hk He [Hkn Hp]. split; [by eapply known_evolves|]. intros n Hn.
  assert (stands w sh after n) as Hn'.
  { destruct Hk as [->|[n0 Hn0]]; [by destruct Hn|].
    pose proof (stands_evolves _ _ _ _ _ He Hn0) as Hn1.
    by rewrite (stands_unique _ _ _ _ _ Hn Hn1). }
  destruct (Hp n Hn') as (places & Hpl & Hst). exists places.
  split; [by eapply serves_evolves|by eapply stands_evolves].
Qed.

(** One poll: whatever cursor is kept and whatever has to be healed. *)
Lemma poll_ok w0 sh after :
  known w0 sh after →
  triple (mid w0) (src_get_records src sh after)
    (λ r cw, mid w0 cw ∧ match r with Ok b => polled cw.2 sh after b | Err _ => True end).
Proof.
  intros Hk. unfold src_get_records.
  assert (∀ cw, mid w0 cw → drained cw.2 sh → polled cw.2 sh after closed_batch) as Hclosed.
  { intros cw [_ He] Hd. apply drained_polled; [by eapply known_evolves|done]. }
  eapply triple_bind_ok.
  { eapply triple_conseq; [by apply (obtain_ok w0 sh after)|done|].
    instantiate (1 := λ r cw, mid w0 cw ∧ obtained cw.2 sh after (Ok r)). by intros [r|e]. }
  intros [it|]; [|apply triple_ret; intros cw [? ?]; split; [done|by apply Hclosed]].
  eapply triple_bind_ok.
  { eapply triple_conseq; [by apply (read_ok w0 sh after it)|done|].
    instantiate (1 := λ r cw, mid w0 cw ∧ read cw.2 sh after (Ok r)). by intros [r|e]. }
  intros [o|]; [|apply triple_ret; intros cw [? ?]; split; [done|by apply Hclosed]].
  unfold take_batch. set (records := omap _ _). set (next := go_next_shard_iterator o).
  pose (b ms := {| rb_records := records; rb_shard_end := bool_decide (next = None);
                   rb_millis_behind_latest := ms |}).
  eapply triple_bind with (R := λ _ cw, mid w0 cw ∧ polled cw.2 sh after (b None)).
  { intros [cs w] [[Hc He] Hb]. cbn in Hc, He, Hb.
    destruct (brought_polled w sh after o (b None) Hb eq_refl eq_refl) as [Hp Hit].
    split; [split|]; [|exact He|exact Hp]. unfold cur_set, store_cursor. cbn [fst snd].
    destruct next as [it'|] eqn:Hnext; [|by apply cursors_ok_delete].
    apply cursors_ok_insert; [done|]. by apply Hit. }
  intros ?. eapply triple_bind with (R := λ _ cw, mid w0 cw ∧ polled cw.2 sh after (b None)).
  { case_match; [|by apply triple_ret].
    eapply triple_bind with (R := λ _ cw, mid w0 cw ∧ polled cw.2 sh after (b None));
      [|intros ?; by apply triple_ret].
    apply (mid_lift w0 _ (λ w, polled w sh after (b None)) (λ _ w, polled w sh after (b None)));
      [apply keeps_behind|].
    intros w He Hp. pose proof (keeps_behind z w) as He'. destruct (millis_behind z w) as [ms w'].
    apply (polled_evolves w); [by eapply known_evolves|exact He'|exact Hp]. }
  intros ms. by apply triple_ret.
Qed.

(** ** Runs of polls *)

(** A caller that polls shards in any order and goes on in each from the last record
    it was given; an error is tried again later. *)
Fixpoint poll_all (reqs : list string) (pos : string → option string) : R (list (string * RecordBatch)) :=
  match reqs with
  | [] => ret []
  | sh :: reqs' =>
      r <- src_get_records src sh (pos sh) ;;
      match r with
      | Err _ => poll_all reqs' pos
      | Ok b =>
          l <- poll_all reqs' (<[sh := advanced_after (pos sh) (last_seq (rb_records b))]> pos) ;;
          ret ((sh, b) :: l)
      end
  end.

(** What a trace gave of one shard, and whether it said the shard had ended. *)
Definition given (sh : string) (trace : list (string * RecordBatch)) : list Record_ :=
  mjoin ((rb_records ∘ snd) <$> filter (λ sb, sb.1 = sh) trace).
Definition said_end (sh : string) (trace : list (string * RecordBatch)) : Prop :=
  ∃ b, (sh, b) ∈ trace ∧ rb_shard_end b = true.

Lemma next_place_app n l k : next_place n (l ++ k) = next_place (next_place n l) k.
Proof. unfold next_place. rewrite last_app. by destruct (last k). Qed.

Lemma next_place_le n l i : StronglySorted lt l → i ∈ l → i < next_place n l.
Proof.
  unfold next_place. destruct l as [|j l] using rev_ind; [by intros _ ?%elem_of_nil|].
  rewrite last_snoc. cbn. intros Hs [Hi|Hi%list_elem_of_singleton]%elem_of_app; [|lia].
  clear IHl. induction l as [|j' l IH]; [by apply elem_of_nil in Hi|].
  cbn in Hs. inversion_clear Hs as [|? ? Hs' Hall]. apply elem_of_cons in Hi as [->|Hi]; [|by apply IH].
  rewrite Forall_forall in Hall. specialize (Hall j ltac:(set_solver)). lia.
Qed.

Lemma serves_app w sh n rs1 rs2 (e1 e2 : Prop) l1 l2 :
  serves w sh n rs1 e1 l1 → serves w sh (next_place n l1) rs2 e2 l2 →
  serves w sh n (rs1 ++ rs2) (e1 ∨ e2) (l1 ++ l2).
Proof.
  intros (Hs1 & Hn1 & HF1 & Hc1 & He1) (Hs2 & Hn2 & HF2 & Hc2 & He2).
  assert (∀ i j, i ∈ l1 → j ∈ l2 → i < j) as Hlt.
  { intros i j Hi Hj. rewrite Forall_forall in Hn2. specialize (Hn2 j Hj).
    pose proof (next_place_le n l1 i Hs1 Hi). lia. }
  assert (n ≤ next_place n l1) as Hle.
  { unfold next_place. destruct (last l1) as [i|] eqn:Hl; cbn; [|done].
    rewrite Forall_forall in Hn1. specialize (Hn1 i (last_Some_elem_of _ _ Hl)). lia. }
  assert (∀ i, n ≤ i → i ∈ l1 ∨ i < trim_horizon w sh ∨ next_place n l1 ≤ i) as Hsplit.
  { intros i Hi. destruct (decide (i < next_place n l1)) as [Hlt'|]; [|right; right; lia].
    destruct (Hc1 i); [lia|by left|by right; left]. }
  split_and!.
  - by apply StronglySorted_app.
  - apply Forall_app. split; [done|]. eapply Forall_impl; [exact Hn2|]. intros i Hi. cbn in Hi. lia.
  - by apply Forall2_app.
  - intros i [Hi Hi']. rewrite next_place_app in Hi'. rewrite elem_of_app.
    destruct (Hsplit i Hi) as [?|[?|?]]; [by left; left|by right|].
    destruct (Hc2 i); [lia|by left; right|by right].
  - intros Hend. assert (sealed w sh) as Hse by (destruct Hend as [He|He]; [apply He1|apply He2]; done).
    split; [done|]. intros i [Hi Hi']. rewrite elem_of_app.
    destruct Hend as [[_ He]%He1|[_ He]%He2]; [destruct (He i); [lia|by left; left|by right]|].
    destruct (Hsplit i Hi) as [?|[?|?]]; [by left; left|by right|].
    destruct (He i); [lia|by left; right|by right].
Qed.

Lemma serves_end w sh n rs (e e' : Prop) l : (e' → e) → serves w sh n rs e l → serves w sh n rs e' l.
Proof. intros He (? & ? & ? & ? & Hend). split_and!; [done..|]. auto. Qed.

Lemma serves_nil w sh n (e : Prop) : ¬ e → serves w sh n [] e [].
Proof. intros He. split_and!; [apply SSorted_nil|done|constructor|cbn; lia|done]. Qed.

(** What serving comes to for the caller. *)
Lemma serves_said w sh n rs (e : Prop) places :
  serves w sh n rs e places →
  StronglySorted lt places ∧
  Forall2 (λ i r, n ≤ i ∧ ∃ s, shard_log w sh !! i = Some s ∧ to_record sh s = Some r) places rs ∧
  (∀ i, n ≤ i → i ∈ places ∨ i < trim_horizon w sh ∨ Forall (λ j, j < i) places) ∧
  (e → sealed w sh ∧ ∀ i, n ≤ i < length (shard_log w sh) → i ∈ places ∨ i < trim_horizon w sh).
Proof.
  intros (Hs & Hge & HF & Hcov & Hend).
  split_and!; [done| | |done].
  - apply Forall2_same_length_lookup in HF as [Hlen HF]. apply Forall2_same_length_lookup.
    split; [done|]. intros k i r Hi Hr. split; [by eapply (Forall_lookup_1 _ _ _ _ Hge)|by eapply HF].
  - intros i Hi. destruct (decide (i < next_place n places)) as [Hlt|Hge'].
    + destruct (Hcov i) as [?|?]; [lia|by left|by right; left].
    + right; right. apply Forall_forall. intros j Hj.
      pose proof (next_place_le n places j Hs Hj). lia.
Qed.

Lemma given_cons sh sh' b trace :
  given sh ((sh', b) :: trace) =
  (if decide (sh' = sh) then rb_records b else []) ++ given sh trace.
Proof. unfold given. rewrite filter_cons. cbn [fst]. by case_decide. Qed.

Lemma said_end_cons sh sh' b trace :
  said_end sh ((sh', b) :: trace) ↔ sh' = sh ∧ rb_shard_end b = true ∨ said_end sh trace.
Proof.
  unfold said_end. setoid_rewrite elem_of_cons. split.
  - intros (b' & [[= -> ->]|Hin] & Hb); [by left|right; eauto].
  - intros [[-> Hb]|(b' & Hin & Hb)]; eauto.
Qed.

Lemma poll_all_ok reqs pos cs w sh n :
  (∀ s, known w s (pos s)) → cursors_ok (cs, w) → stands w sh (pos sh) n →
  let '(trace, (_, w')) := poll_all reqs pos (cs, w) in
  evolves w w' ∧ ∃ places, serves w' sh n (given sh trace) (said_end sh trace) places.
Proof.
  revert pos cs w n. induction reqs as [|sh' reqs IH]; intros pos cs w n Hk Hc Hn; cbn [poll_all].
  { split; [done|]. exists []. apply serves_nil. by intros (? & ?%elem_of_nil & _). }
  unfold bind. pose proof (poll_ok w sh' (pos sh') (Hk sh') (cs, w) (conj Hc (reflexivity w))) as Hp.
  destruct (src_get_records src sh' (pos sh') (cs, w)) as [[b|e] [cs1 w1]];
    cbn [fst snd] in Hp; destruct Hp as [[Hc1 He1] Hp]; cbn [fst snd] in *.
  - destruct Hp as [Hk' Hp]. set (after' := advanced_after _ _) in *.
    assert (∀ s, known w1 s (<[sh':=after']> pos s)) as Hk1.
    { intros s. destruct (decide (s = sh')) as [->|Hne]; [by rewrite fn_lookup_insert|].
      rewrite fn_lookup_insert_ne by done. by eapply known_evolves. }
    assert (∃ l1, serves w1 sh n (if decide (sh' = sh) then rb_records b else [])
        (sh' = sh ∧ rb_shard_end b = true) l1 ∧
        stands w1 sh (<[sh':=after']> pos sh) (next_place n l1)) as (l1 & Hl1 & Hn1).
    { apply (stands_evolves _ w1) in Hn; [|done]. case_decide as Heq.
      - subst sh'. destruct (Hp n Hn) as (l1 & Hl1 & Hst). exists l1. rewrite fn_lookup_insert.
        split; [|done]. eapply serves_end; [|exact Hl1]. tauto.
      - exists []. rewrite fn_lookup_insert_ne by done. split; [|done].
        apply serves_nil. tauto. }
    specialize (IH _ _ _ _ Hk1 Hc1 Hn1).
    destruct (poll_all reqs _ (cs1, w1)) as [trace [cs2 w2]]. destruct IH as [He2 [l2 Hl2]].
    split; [by etrans|]. exists (l1 ++ l2). rewrite given_cons.
    eapply serves_end; [apply said_end_cons|]. apply serves_app; [|done]. by eapply serves_evolves.
  - assert (∀ s, known w1 s (pos s)) as Hk1 by (intros s; by eapply known_evolves).
    specialize (IH _ _ _ _ Hk1 Hc1 (stands_evolves _ _ _ _ _ He1 Hn)).
    destruct (poll_all reqs pos (cs1, w1)) as [trace [cs2 w2]]. destruct IH as [He2 Hpl].
    split; [by etrans|done].
Qed.

(** C13: no record left in the stream is missed or given twice: whatever shards are
    polled, in whatever order, from a new source on, and whatever fails between the
    polls, a caller that goes on from the last record it was given gets of every
    shard records of its log in order, each once, and passes over none that is not
    trimmed away; once it is told that the shard has ended, nothing is left of it.
    That holds whether a poll reuses the iterator of the last one, derives a new one,
    or heals an expired or trimmed one. *)
Theorem polls_deliver_the_log reqs pos w sh n :
  (∀ s, known w s (pos s)) → stands w sh (pos sh) n →
  let '(trace, (_, w')) := poll_all reqs pos (∅, w) in
  ∃ places,
    StronglySorted lt places ∧
    Forall2 (λ i r, n ≤ i ∧ ∃ s, shard_log w' sh !! i = Some s ∧ to_record sh s = Some r)
      places (given sh trace) ∧
    (∀ i, n ≤ i → i ∈ places ∨ i < trim_horizon w' sh ∨ Forall (λ j, j < i) places) ∧
    (said_end sh trace → sealed w' sh ∧
      ∀ i, n ≤ i < length (shard_log w' sh) → i ∈ places ∨ i < trim_horizon w' sh).
Proof.
  intros Hk Hn. pose proof (poll_all_ok reqs pos ∅ w sh n Hk) as Hp.
  destruct (poll_all reqs pos (∅, w)) as [trace [cs w']].
  destruct Hp as (_ & places & Hp); [by intros s c|done|].
  exists places. by apply serves_said.
Qed.
End reads.
