(* ===== verification/StreamsDemo.v ===== *)
(** * The live source on a concrete service

    A service with one shard whose [i]th record has a sequence number of [i] digits,
    and a script of what happens before each call: records are written or trimmed,
    the shard is sealed, the call fails.  It meets [StreamsLaws], so the theorems of
    [StreamsReads] apply to it, and running it shows the source reuse an iterator and
    heal an expired one. *)

From Stdlib Require Import Lia.
From stdpp Require Import base functions sorting gmap sets numbers list strings.
From S2P Require Import Prelude Core Position Lineage ChangeRecord Interfaces Tasks StreamsSource StreamsReads.

Inductive Event := Write (k : nat) | Trim (n : nat) | Seal | Refuse (k : nat) (msg : WorkerError).

(** [d_derived] counts the iterators derived. *)
Record Demo := {
  d_len : nat;
  d_trim : nat;
  d_sealed : bool;
  d_script : list Event;
  d_derived : nat;
}.

Fixpoint digits (n : nat) : string :=
  match n with O => EmptyString | S n' => String "1" (digits n') end.

Definition demo_record (i : nat) : SdkRecord :=
  {| sk_event_name := Some "INSERT";
     sk_dynamodb := Some {| ss_sequence_number := Some (digits (S i)); ss_size_bytes := None;
       ss_view_type := None; ss_keys := None; ss_new_image := None; ss_old_image := None;
       ss_created := Some {| dt_millis := Some (1000 * Z.of_nat i)%Z; dt_secs := Z.of_nat i |} |} |}.

Definition demo_log (w : Demo) (sh : string) : list SdkRecord :=
  if decide (sh = "s") then demo_record <$> seq 0 (d_len w) else [].

(** The event before a call; the message if the call is to fail (what was written
    meanwhile stays). *)
Definition happen : M Demo (option WorkerError) := λ w,
  match d_script w with
  | [] => (None, w)
  | ev :: script =>
      let w' len trim sl :=
        {| d_len := len; d_trim := trim; d_sealed := sl; d_script := script;
           d_derived := d_derived w |} in
      let grown k := if d_sealed w then d_len w else d_len w + k in
      match ev with
      | Write k => (None, w' (grown k) (d_trim w) (d_sealed w))
      | Trim n => (None, w' (d_len w) (Nat.max (d_trim w) n) (d_sealed w))
      | Seal => (None, w' (d_len w) (d_trim w) true)
      | Refuse k msg => (Some msg, w' (grown k) (d_trim w) (d_sealed w))
      end
  end.

Definition count_derived (w : Demo) : Demo :=
  {| d_len := d_len w; d_trim := d_trim w; d_sealed := d_sealed w; d_script := d_script w;
     d_derived := S (d_derived w) |}.

(** An iterator at the place [n] is a string of [n] characters. *)
Definition demo_iterator (_arn sh : string) (ty : ShardIteratorType) (q : option string)
  : M Demo (Result (option string) WorkerError) := λ w,
  let w := count_derived w in
  if decide (sh = "s") then
    match ty, q with
    | ItAfterSequenceNumber, Some q =>
        let n := String.length q in
        if decide (q = digits n ∧ 0 < n ≤ d_len w) then
          if decide (n ≤ d_trim w) then (Err "TrimmedDataAccessException", w)
          else (Ok (Some (digits n)), w)
        else (Err "ValidationException", w)
    | ItAfterSequenceNumber, None => (Err "ValidationException", w)
    | ItLatest, _ => (Ok (Some (digits (d_len w))), w)
    | ItTrimHorizon, _ => (Ok (Some (digits (d_trim w))), w)
    end
  else (Err "AccessDeniedException", w).

Definition demo_records (it : string) (limit : option Z)
  : M Demo (Result GetRecordsOutput WorkerError) :=
  refused <- happen ;;
  λ w,
  match refused with
  | Some msg => (Err msg, w)
  | None =>
      let m := String.length it in
      if decide (m < d_trim w) then (Err "TrimmedDataAccessException", w)
      else
        let k := Nat.min (Z.to_nat (default 1000%Z limit)) (d_len w - m) in
        (Ok {| go_records := take k (drop m (demo_log w "s"));
               go_next_shard_iterator :=
                 if d_sealed w && (d_len w <=? m + k)%nat then None else Some (digits (m + k)) |}, w)
  end.

#[export] Instance demo_client : StreamsClient Demo := {
  sdk_describe_stream _ _ _ := ret (Ok (Some {|
    sd_shards := [{| sh_shard_id := Some "s"; sh_parent_shard_id := None; sh_ending := None |}];
    sd_last_evaluated_shard_id := None |}));
  sdk_get_shard_iterator := demo_iterator;
  sdk_get_records := demo_records;
  sdk_sleep_ms _ := ret tt;
  sdk_unix_now_ms := ret (Some 10000%Z);
}.

Definition demo_stands (it : string) : option (string * nat) :=
  if decide (it = digits (String.length it)) then Some ("s", String.length it) else None.

#[export] Instance demo_history : StreamsHistory Demo := {
  shard_log := demo_log;
  trim_horizon w _ := d_trim w;
  sealed w _ := d_sealed w = true;
  stands_at _ := demo_stands;
}.

(** The payload is the sequence number. *)
#[export] Instance demo_codec : RecordCodec := {
  encode r := String.list_byte_of_string (default EmptyString (sequence_number r));
  decode _ := Err "not needed";
}.

Lemma digits_length n : String.length (digits n) = n.
Proof. induction n; cbn; congruence. Qed.

Lemma digits_stands n : demo_stands (digits n) = Some ("s", n).
Proof. unfold demo_stands. by rewrite digits_length, decide_True. Qed.

Lemma stands_digits it sh m : demo_stands it = Some (sh, m) → sh = "s" ∧ it = digits m ∧ m = String.length it.
Proof. unfold demo_stands. case_decide; naive_solver. Qed.

Lemma demo_log_lookup w sh i r : demo_log w sh !! i = Some r → sh = "s" ∧ r = demo_record i ∧ i < d_len w.
Proof.
  unfold demo_log. case_decide as Hs; [|done].
  intros (j & -> & Hj)%list_lookup_fmap_Some. apply lookup_seq in Hj as [-> ?]. done.
Qed.

Lemma demo_log_length w sh : length (demo_log w sh) = if decide (sh = "s") then d_len w else 0.
Proof. unfold demo_log. case_decide; [|done]. by rewrite length_fmap, length_seq. Qed.

Lemma demo_log_prefix w w' sh : d_len w ≤ d_len w' → demo_log w sh `prefix_of` demo_log w' sh.
Proof.
  intros Hle. unfold demo_log. case_decide; [|done].
  rewrite (Nat.le_add_sub (d_len w) (d_len w')) at 1; [|done]. rewrite seq_app, fmap_app. by eexists.
Qed.

Lemma demo_evolves (w w' : Demo) :
  d_len w ≤ d_len w' → d_trim w ≤ d_trim w' →
  (d_sealed w = true → d_sealed w' = true ∧ d_len w' = d_len w) → evolves w w'.
Proof.
  intros Hl Ht Hs. split; [|done]. intros sh. split_and!; [by apply demo_log_prefix|done|].
  intros [? Heq]%Hs. split; [done|]. cbn. unfold demo_log. by rewrite Heq.
Qed.

Lemma happen_evolves : keeps evolves happen.
Proof.
  intros w. unfold happen. destruct (d_script w) as [|[k|n| |k msg] script]; cbn;
    apply demo_evolves; cbn; try (case_match; lia); try lia; try done.
  all: by intros ->.
Qed.

#[export] Instance demo_laws : StreamsLaws Demo.
Proof.
  split.
  - intros w sh i r (_ & -> & _)%demo_log_lookup. exists (digits (S i)). done.
  - intros w sh i j r s (_ & -> & _)%demo_log_lookup (_ & -> & _)%demo_log_lookup Heq.
    injection Heq as Hd. by rewrite <- (digits_length i), Hd, digits_length.
  - intros arn sh ty q w. cbn. unfold demo_iterator. repeat case_match; by apply demo_evolves.
  - intros it limit w. cbn. unfold demo_records.
    apply (keeps_bind evolves); [apply happen_evolves|]. intros [msg|] w'; [done|].
    case_match; done.
  - intros ms. apply (keeps_ret evolves).
  - apply (keeps_ret evolves).
  - intros arn sh ty q it w w' Hcall. cbn in Hcall. unfold demo_iterator in Hcall.
    repeat case_match; simplify_eq; cbn [stands_at demo_history shard_log trim_horizon].
    + destruct_and?. rewrite digits_stands.
      destruct (String.length s) as [|l] eqn:Hl; [lia|]. exists l, (demo_record l).
      split_and!; [|change (Some (digits (S l)) = Some s); congruence|done].
      apply list_lookup_fmap_Some. exists l. split; [done|]. apply lookup_seq. cbn in *. lia.
    + rewrite digits_stands, demo_log_length. done.
    + by rewrite digits_stands.
  - intros arn sh ty q w w' Hcall. cbn in Hcall. unfold demo_iterator in Hcall.
    repeat case_match; simplify_eq.
  - intros arn sh q e w w' i r Hcall Hrec (-> & -> & Hi)%demo_log_lookup Hq.
    cbn in Hcall, Hq. unfold demo_iterator in Hcall. injection Hq as <-.
    change (String "1" (digits i)) with (digits (S i)) in Hcall. rewrite digits_length in Hcall.
    repeat case_match; simplify_eq; try done; cbn in *; lia.
  - intros it limit o w w' sh m Hcall Hst. 
    apply stands_digits in Hst as (-> & -> & _).
    cbn in Hcall. unfold demo_records, bind in Hcall. destruct (happen w) as [[msg|] w1]; [done|].
    rewrite digits_length in Hcall. case_match; [done|]. injection Hcall as <- <-.
    set (k := Nat.min _ _). exists k. cbn [go_records go_next_shard_iterator].
    split_and!; [|done|].
    + change (length (shard_log w1 "s")) with (length (demo_log w1 "s")).
      rewrite demo_log_length, decide_True by done. unfold k.
      generalize (Z.to_nat (default 1000%Z limit)). intros x. lia.
    + destruct (d_sealed w1 && (d_len w1 <=? m + k)) eqn:Hend; [|apply digits_stands].
      apply andb_true_iff in Hend as [Hse Hle%Nat.leb_le]. split; [done|].
      change (length (demo_log w1 "s") ≤ m + k). by rewrite demo_log_length.
Qed.

(** ** Runs *)

Definition demo_source : DdbStreamsSource := with_max_records 2 (DdbStreamsSource_new "arn").

(** Records are written while the shard is polled; the iterator expires once; records
    are trimmed before they are read; the shard is sealed. *)
Definition demo_start : Demo :=
  {| d_len := 3; d_trim := 0; d_sealed := false;
     d_script := [Write 0; Refuse 0 "ExpiredIteratorException"; Write 2; Trim 5; Write 3; Write 0; Seal];
     d_derived := 0 |}.

Definition demo_run : list (string * RecordBatch) * (Cursors * Demo) :=
  poll_all demo_source (replicate 6 "s") (λ _, None) (∅, demo_start).

(** The record with five digits is trimmed before it is read; every other one is
    delivered; five iterators are derived for nine reads. *)
Example demo_delivers :
  ((λ sb, (rec_seq <$> rb_records sb.2, rb_shard_end sb.2)) <$> demo_run.1,
   d_derived demo_run.2.2) =
  ([(["1"; "11"], false); (["111"; "1111"], false); (["111111"; "1111111"], false);
    (["11111111"], false); ([], true)], 5).
Proof. vm_compute. reflexivity. Qed.

(** A caller that starts at [LATEST] and has not been given a record yet: when the
    iterator expires, the fresh one stands behind the records written meanwhile, and
    they are never delivered. *)
Example expired_latest_skips :
  let w := {| d_len := 3; d_trim := 0; d_sealed := false;
              d_script := [Write 0; Refuse 2 "ExpiredIteratorException"; Seal]; d_derived := 0 |} in
  let '(trace, (_, w')) :=
    poll_all demo_source ["s"; "s"] (λ _, Some SENTINEL_LATEST) (∅, w) in
  (λ sb, (rb_records sb.2, rb_shard_end sb.2)) <$> trace = [([], false); ([], true)] ∧
  d_len w' = 5 ∧ d_trim w' = 0.
Proof. vm_compute. done. Qed.

Lemma polls_deliver_the_log_witness :
  let '(trace, (_, w')) := poll_all demo_source (replicate 6 "s") (λ _, None) (∅, demo_start) in
  ∃ places,
    StronglySorted lt places ∧
    Forall2 (λ i r, 0 ≤ i ∧ ∃ s, shard_log w' "s" !! i = Some s ∧ to_record "s" s = Some r)
      places (given "s" trace) ∧
    (∀ i, 0 ≤ i → i ∈ places ∨ i < trim_horizon w' "s" ∨ Forall (λ j, j < i) places) ∧
    (said_end "s" trace → sealed w' "s" ∧
      ∀ i, 0 ≤ i < length (shard_log w' "s") → i ∈ places ∨ i < trim_horizon w' "s").
Proof.
  pose proof (polls_deliver_the_log demo_source (replicate 6 "s") (λ _, None) demo_start "s" 0
    (λ s, or_intror (ex_intro _ 0 eq_refl)) eq_refl) as H. exact H.
Defined.
