(* ===== verification/FleetState.v ===== *)
(** * What a fleet worker keeps between cycles ([Fleet] of [worker/src/fleet.rs])

    Everything behind the mutexes of [Fleet]: shard-sync progress, the size of
    the processing pool, deferred checkpoints and the poll schedule.  Fleet code
    runs over a [FleetMem] beside the outside world. *)

From stdpp Require Import base gmap numbers list strings.
From S2P Require Import Prelude Core Position Metrics CkptDefer Tasks.

Record FleetConfig := {
  fc_owner : string;
  fc_max_leases : nat;
  fc_lease_duration_ms : N;
  fc_poll_interval_ms : N;
  fc_initial_position : InitialPosition;
}.

Record ShardSched := {
  ss_backoff_ms : N;
  ss_due_at : Instant;
  ss_last_liveness : Instant;
}.

Record SyncState := {
  sy_seeded : bool;
  sy_child_synced : gset string;
}.

(** [#[derive(Default)]]. *)
Definition SyncState_default : SyncState := {| sy_seeded := false; sy_child_synced := ∅ |}.

Record FleetMem := {
  fm_sync_state : SyncState;
  fm_processing_limit : option nat;   (* [ProcessingLimit::max] *)
  fm_ckpt_defer : option CkptDefer;
  fm_sched : gmap string ShardSched;
}.

(** [Fleet::new]. *)
Definition Fleet_new : FleetMem :=
  {| fm_sync_state := SyncState_default; fm_processing_limit := None; fm_ckpt_defer := None;
     fm_sched := ∅ |}.

Definition set_sync (s : SyncState) (m : FleetMem) : FleetMem :=
  {| fm_sync_state := s; fm_processing_limit := fm_processing_limit m;
     fm_ckpt_defer := fm_ckpt_defer m; fm_sched := fm_sched m |}.
Definition set_limit (l : option nat) (m : FleetMem) : FleetMem :=
  {| fm_sync_state := fm_sync_state m; fm_processing_limit := l;
     fm_ckpt_defer := fm_ckpt_defer m; fm_sched := fm_sched m |}.
Definition set_defer (d : option CkptDefer) (m : FleetMem) : FleetMem :=
  {| fm_sync_state := fm_sync_state m; fm_processing_limit := fm_processing_limit m;
     fm_ckpt_defer := d; fm_sched := fm_sched m |}.
Definition set_sched (s : gmap string ShardSched) (m : FleetMem) : FleetMem :=
  {| fm_sync_state := fm_sync_state m; fm_processing_limit := fm_processing_limit m;
     fm_ckpt_defer := fm_ckpt_defer m; fm_sched := s |}.

Definition with_max_processing_concurrency (max : option nat) (m : FleetMem) : FleetMem :=
  set_limit (match max with
             | Some k => if 1 <=? k then Some k else None
             | None => None
             end) m.

Definition set_max_processing_concurrency (target : nat) (m : FleetMem) : FleetMem :=
  match fm_processing_limit m with
  | Some _ => set_limit (Some (Nat.max target 1)) m
  | None => m
  end.

Definition with_checkpoint_interval (interval_ms : option N) (m : FleetMem) : FleetMem :=
  set_defer (match interval_ms with
             | Some ms => if (1 <=? ms)%N
                 then Some {| cd_interval := from_millis ms; cd_state := ∅ |} else None
             | None => None
             end) m.

(** ** Reading and updating the memory *)

Definition mem_get {W A} (f : FleetMem → A) : M (FleetMem * W) A := λ mw, (f mw.1, mw).
Definition mem_set {W} (f : FleetMem → FleetMem) : M (FleetMem * W) unit :=
  λ mw, (tt, (f mw.1, mw.2)).

(** An operation on the deferred checkpoints, when there are any. *)
Definition defer_call {W R} (f : CkptDefer → R * CkptDefer) : M (FleetMem * W) (option R) :=
  λ mw, match fm_ckpt_defer mw.1 with
        | Some d => let '(r, d') := f d in (Some r, (set_defer (Some d') mw.1, mw.2))
        | None => (None, mw)
        end.
Definition defer_do {W} (f : CkptDefer → CkptDefer) : M (FleetMem * W) unit :=
  λ mw, (tt, (set_defer (f <$> fm_ckpt_defer mw.1) mw.1, mw.2)).

(** The ack not yet written for a shard. *)
Definition pending_of (m : FleetMem) (shard : string) : option string :=
  fm_ckpt_defer m ≫= λ d, resume_from d shard.

Definition is_deferred (m : FleetMem) : bool := bool_decide (is_Some (fm_ckpt_defer m)).

(** The pool is never empty, whatever the settings and resizes. *)
Lemma limit_positive m max targets k :
  fm_processing_limit
    (foldr set_max_processing_concurrency (with_max_processing_concurrency max m) targets) = Some k
  → 1 ≤ k.
Proof.
  revert k. induction targets as [|t targets IH]; intros k; simpl foldr.
  - destruct max as [k'|]; [|done]. unfold with_max_processing_concurrency, set_limit.
    cbn [fm_processing_limit]. destruct (Nat.leb_spec 1 k'); [congruence|done].
  - unfold set_max_processing_concurrency at 1.
    destruct (fm_processing_limit (foldr _ _ targets)) eqn:E; simpl; [|congruence].
    intros [= <-]. lia.
Qed.
