(* ===== verification/ShardPass.v ===== *)
(** * One pass over a shard ([process_shard] of [worker/src/fleet.rs])

    A task polls its shard until there is nothing left, delivers every batch to
    the shard's consumer and lets the consumer's acks decide what is checkpointed:
    at once, or deferred to the interval, the end of the shard or the release of
    the lease.  Tasks of several shards interleave; what each does is compared
    with an automaton over its own calls. *)

From stdpp Require Import base gmap numbers list strings.
From S2P Require Import Prelude Core Coordinator Interfaces Metrics CkptDefer Tasks FleetState.

Inductive PassOutcome := Active | Idle | Ended | Stopped.

#[export] Instance PassOutcome_eq_dec : EqDecision PassOutcome.
Proof. solve_decision. Defined.

Record ShardTask := {
  st_owner : string;
  st_shard : ShardId;
  st_counter : N;
  st_checkpoint : option string;
}.

Section pass.
Context {W : Type} `{AsyncStreamSource W, AsyncLeaseStore W, ShardConsumerFactory W,
                     MetricsSink W, Clock W}.
Variable t : ShardTask.
Variable c : Consumer.
Let shard := st_shard t.
Let owner := st_owner t.
Abbreviation T := (Task (FleetMem * W)).

Definition call {A} (m : M W A) : T A := act (lift_m m).

(** The lease is gone: tell the sink and the consumer. *)
Definition lost : T (option N) :=
  _ <~ call (on_lease_lost shard) ;;
  _ <~ call (consumer_lost c) ;;
  Finish None.

(** Write an ack; [None] ends the pass. *)
Definition save_now (counter : N) (ack : string) : T (option N) :=
  r <~ call (checkpoint shard owner counter ack) ;;
  match r with Ok c' => Finish (Some c') | Err _ => lost end.

Definition save_due (counter : N) (due : string) (now : Instant) : T (option N) :=
  r <~ call (checkpoint shard owner counter due) ;;
  match r with
  | Ok c' => _ <~ act (defer_do (λ d, persisted d shard now)) ;; Finish (Some c')
  | Err _ => _ <~ act (defer_do (λ d, forget d shard)) ;; lost
  end.

Definition save_ack (counter : N) (ack : string) : T (option N) :=
  deferred <~ act (mem_get is_deferred) ;;
  if deferred : bool then
    now <~ call instant_now ;;
    due <~ act (defer_call (λ d, record_ack d shard ack now)) ;;
    match due with
    | Some (Some due) => save_due counter due now
    | _ => Finish (Some counter)
    end
  else save_now counter ack.

(** A non-empty batch: deliver, save, count. *)
Definition deliver_batch (counter : N) (batch : RecordBatch) : T (option N) :=
  r <~ call (deliver c (rb_records batch)) ;;
  match r with
  | Ok ack =>
      s <~ match ack with
           | Some ack => save_ack counter ack
           | None => Finish (Some counter)
           end ;;
      match s with
      | Some counter' => _ <~ call (on_batch (batch_metrics shard batch)) ;; Finish (Some counter')
      | None => Finish None
      end
  | Err _ => _ <~ act (defer_do (λ d, forget d shard)) ;; Finish None
  end.

(** The flush before completion. *)
Definition flush_pending (counter : N) : T (option N) :=
  pending <~ act (defer_call (λ d, take_pending d shard)) ;;
  s <~ match pending with
       | Some (Some q) =>
           r <~ call (checkpoint shard owner counter q) ;;
           match r with
           | Ok c' => Finish (Some c')
           | Err _ => _ <~ act (defer_do (λ d, forget d shard)) ;; lost
           end
       | _ => Finish (Some counter)
       end ;;
  match s with
  | Some counter' => _ <~ act (defer_do (λ d, forget d shard)) ;; Finish (Some counter')
  | None => Finish None
  end.

Definition end_shard (counter : N) : T PassOutcome :=
  s <~ flush_pending counter ;;
  match s with
  | None => Finish Stopped
  | Some counter' =>
      _ <~ call (consumer_ended c) ;;
      _ <~ call (mark_complete shard owner counter') ;;
      _ <~ call (on_shard_end shard) ;;
      Finish Ended
  end.

(** The [loop]; [None] when the bound on polls runs out. *)
Fixpoint pass_loop (polls : nat) (counter : N) (after : option string) (delivered_any : bool)
  : T (option (Result PassOutcome WorkerError)) :=
  match polls with
  | O => Finish None
  | S polls' =>
      b <~ call (get_records shard after) ;;
      match b with
      | Err e => Finish (Some (Err e))
      | Ok batch =>
          let empty := bool_decide (rb_records batch = []) in
          let delivered_any := delivered_any || negb empty in
          s <~ (if empty then Finish (Some counter) else deliver_batch counter batch) ;;
          match s with
          | None => Finish (Some (Ok Stopped))
          | Some counter' =>
              let after' := if empty then after else last_seq (rb_records batch) in
              if rb_shard_end batch then o <~ end_shard counter' ;; Finish (Some (Ok o))
              else if empty then Finish (Some (Ok (if delivered_any then Active else Idle)))
              else pass_loop polls' counter' after' delivered_any
          end
      end
  end.

(** A pass resumes after the ack kept in memory, if any, else after the lease's
    checkpoint. *)
Definition process_shard (polls : nat) : T (option (Result PassOutcome WorkerError)) :=
  pending <~ act (mem_get (λ m, pending_of m shard)) ;;
  pass_loop polls (st_counter t)
    (match pending with Some q => Some q | None => st_checkpoint t end) false.
End pass.

(** ** What a pass looks like from outside *)

Inductive PEvent :=
| EFetch (after : option string) (r : Result RecordBatch WorkerError)
| EDeliver (rs : list Record_) (r : Result (option string) WorkerError)
| ECkpt (owner : string) (counter : N) (q : string) (r : Result N WorkerError)
| EEnded
| ELost
| EComplete (owner : string) (counter : N).

(** Calls are logged with the shard they are about. *)
Abbreviation PLog := (list (string * PEvent)).

Definition proj (s : string) (l : PLog) : list PEvent :=
  omap (M := list) (λ e, if decide (e.1 = s) then Some e.2 else None) l.

Section logging.
Context {W : Type} `{AsyncStreamSource W, AsyncLeaseStore W, ShardConsumerFactory W,
                     MetricsSink W, Clock W}.

Definition unlogged {A} (m : M W A) : M (W * PLog) A := logged m (λ _, []).

#[export] Instance p_source : AsyncStreamSource (W * PLog) := {|
  describe_shards := unlogged describe_shards;
  get_records s after := logged (get_records s after) (λ r, [(s, EFetch after r)]);
  describe_child_shards p := unlogged (describe_child_shards p);
|}.
#[export] Instance p_leases : AsyncLeaseStore (W * PLog) := {|
  get k := unlogged (get k);
  list_leases := unlogged list_leases;
  acquire k o := unlogged (acquire k o);
  renew k o n := unlogged (renew k o n);
  heartbeat w := unlogged (heartbeat w);
  checkpoint k o n q := logged (checkpoint k o n q) (λ r, [(k, ECkpt o n q r)]);
  mark_complete k o n := logged (mark_complete k o n) (λ _, [(k, EComplete o n)]);
  release k o n := unlogged (release k o n);
  delete_lease k := unlogged (delete_lease k);
  create_shard_lease k ps cp := unlogged (create_shard_lease k ps cp);
  try_acquire_leadership k o e := unlogged (try_acquire_leadership k o e);
|}.
#[export] Instance p_consumers : ShardConsumerFactory (W * PLog) := {|
  Consumer := (ShardId * Consumer)%type;
  create s := c <- unlogged (create s) ;; ret (s, c);
  deliver c rs := logged (deliver c.2 rs) (λ r, [(c.1, EDeliver rs r)]);
  consumer_ended c := logged (consumer_ended c.2) (λ _, [(c.1, EEnded)]);
  consumer_lost c := logged (consumer_lost c.2) (λ _, [(c.1, ELost)]);
|}.
#[export] Instance p_metrics : MetricsSink (W * PLog) := {|
  on_batch m := unlogged (on_batch m);
  on_shard_end s := unlogged (on_shard_end s);
  on_describe_stream := unlogged on_describe_stream;
  on_lease_acquired s := unlogged (on_lease_acquired s);
  on_lease_lost s := unlogged (on_lease_lost s);
  on_leases_held n := unlogged (on_leases_held n);
  on_processing_slot_wait s n := unlogged (on_processing_slot_wait s n);
  on_max_processing_concurrency n := unlogged (on_max_processing_concurrency n);
  on_processing_queue_depth n := unlogged (on_processing_queue_depth n);
|}.
#[export] Instance p_clock : Clock (W * PLog) := {|
  instant_now := unlogged instant_now;
  sleep d := unlogged (sleep d);
|}.
End logging.

(** ** The protocol of a pass *)

Inductive PPhase :=
| PPoll
| PFetched (b : RecordBatch)         (* records to deliver *)
| PHandled (b : RecordBatch)         (* delivered, or empty *)
| PLost                              (* a checkpoint was refused *)
| PClosing                           (* the consumer was told the shard ended *)
| PDone (o : option PassOutcome).    (* [None]: the stream failed *)

Record PassState := {
  ps_phase : PPhase;
  ps_counter : N;                (* of the last lease write *)
  ps_after : option string;      (* the last record delivered *)
  ps_unsaved : option string;    (* the newest ack not yet in the lease *)
  ps_any : bool;                 (* records were delivered *)
}.

Definition p_to (p : PassState) (ph : PPhase) : PassState :=
  {| ps_phase := ph; ps_counter := ps_counter p; ps_after := ps_after p;
     ps_unsaved := ps_unsaved p; ps_any := ps_any p |}.

Definition p_save (p : PassState) (ph : PPhase) (counter : N) : PassState :=
  {| ps_phase := ph; ps_counter := counter; ps_after := ps_after p; ps_unsaved := None;
     ps_any := ps_any p |}.

(** May poll: at the start, or when the last batch had records, did not end the
    shard, and its ack is written or kept for later. *)
Definition may_poll (deferred : bool) (p : PassState) : bool :=
  match ps_phase p with
  | PPoll => true
  | PHandled b => negb (rb_shard_end b) && negb (bool_decide (rb_records b = [])) &&
                  (deferred || bool_decide (ps_unsaved p = None))
  | _ => false
  end.

Definition p_step (me : string) (deferred : bool) (p : PassState) (e : PEvent)
  : option PassState :=
  match e, ps_phase p with
  | EFetch after r, _ =>
      if may_poll deferred p && bool_decide (after = ps_after p) then
        Some (p_to p (match r with
                      | Ok b => if bool_decide (rb_records b = []) then PHandled b else PFetched b
                      | Err _ => PDone None
                      end))
      else None
  | EDeliver rs r, PFetched b =>
      if bool_decide (rs = rb_records b) then
        Some {| ps_phase := if is_ok r then PHandled b else PDone (Some Stopped);
                ps_counter := ps_counter p; ps_after := last_seq rs;
                ps_unsaved := match r with
                              | Ok (Some q) => Some q
                              | Ok None => ps_unsaved p
                              | Err _ => None
                              end;
                ps_any := true |}
      else None
  | ECkpt o n q r, PHandled b =>
      if bool_decide (o = me) && bool_decide (n = ps_counter p) &&
         bool_decide (ps_unsaved p = Some q) &&
         (rb_shard_end b || negb (bool_decide (rb_records b = []))) then
        Some (match r with
              | Ok n' => p_save p (PHandled b) n'
              | Err _ => p_save p PLost (ps_counter p)
              end)
      else None
  | ELost, PLost => Some (p_to p (PDone (Some Stopped)))
  | EEnded, PHandled b =>
      if rb_shard_end b && bool_decide (ps_unsaved p = None) then Some (p_to p PClosing) else None
  | EComplete o n, PClosing =>
      if bool_decide (o = me) && bool_decide (n = ps_counter p)
      then Some (p_to p (PDone (Some Ended))) else None
  | _, _ => None
  end.

Definition p_run (me : string) (deferred : bool) (p : PassState) (l : list PEvent)
  : option PassState := foldl (λ o e, o ≫= λ p, p_step me deferred p e) (Some p) l.

(** What the pass returns in a given state; [None] while it is not over. *)
Definition pass_result (p : PassState) : option (option PassOutcome) :=
  match ps_phase p with
  | PDone o => Some o
  | PHandled b =>
      if bool_decide (rb_records b = []) && negb (rb_shard_end b)
      then Some (Some (if ps_any p then Active else Idle)) else None
  | _ => None
  end.

Definition returned (r : option (Result PassOutcome WorkerError)) : option (option PassOutcome) :=
  match r with
  | Some (Ok o) => Some (Some o)
  | Some (Err _) => Some None
  | None => None
  end.

Definition pass_start (m : FleetMem) (t : ShardTask) : PassState :=
  {| ps_phase := PPoll; ps_counter := st_counter t;
     ps_after := match pending_of m (st_shard t) with
                 | Some q => Some q | None => st_checkpoint t end;
     ps_unsaved := pending_of m (st_shard t); ps_any := false |}.

(** ** Every action of a pass keeps to the protocol, whatever runs beside it *)

Record PassGhost := {
  pg_shard : string;
  pg_start : PassState;
  pg_now : PassState;
  pg_pending : option string;    (* the ack the memory holds *)
}.

Lemma proj_app s l1 l2 : proj s (l1 ++ l2) = proj s l1 ++ proj s l2.
Proof. apply omap_app. Qed.

Lemma proj_one s e : proj s [(s, e)] = [e].
Proof. unfold proj. simpl. by rewrite decide_True. Qed.

Lemma proj_other s s' e : s ≠ s' → proj s' [(s, e)] = [].
Proof. intros Hs. unfold proj. simpl. by rewrite decide_False. Qed.

Lemma p_run_app me d p l1 l2 :
  p_run me d p (l1 ++ l2) = p_run me d p l1 ≫= λ p', p_run me d p' l2.
Proof.
  unfold p_run. rewrite foldl_app. destruct (foldl _ (Some p) l1); [done|].
  simpl. by induction l2.
Qed.

Lemma resume_frame (d d' : CkptDefer) (s : string) :
  cd_state d' !! s = cd_state d !! s → resume_from d' s = resume_from d s.
Proof. unfold resume_from. by intros ->. Qed.

(** The memory but for the deferred checkpoints. *)
Definition rest_of (m : FleetMem) : FleetMem := set_defer None m.

Section inv.
Context {W : Type}.
Variables (me : string) (deferred : bool) (base : FleetMem).
Abbreviation World := (FleetMem * (W * PLog))%type.
Implicit Types (g : PassGhost) (mw : World).

Definition at_ghost g mw : Prop :=
  p_run me deferred (pg_start g) (proj (pg_shard g) mw.2.2) = Some (pg_now g) ∧
  pending_of mw.1 (pg_shard g) = pg_pending g.

Definition PInv (gs : list PassGhost) mw : Prop :=
  NoDup (pg_shard <$> gs) ∧
  (is_deferred mw.1 = deferred ∧ rest_of mw.1 = rest_of base) ∧
  Forall (λ g, at_ghost g mw) gs.

#[export] Instance PInv_perm mw : Proper ((≡ₚ) ==> iff) (λ gs, PInv gs mw).
Proof. intros gs1 gs2 Hp. unfold PInv. by rewrite Hp. Qed.

Definition goes (g : PassGhost) (p : PassState) (pend : option string) : PassGhost :=
  {| pg_shard := pg_shard g; pg_start := pg_start g; pg_now := p; pg_pending := pend |}.

(** An action that touches only its own shard. *)
Lemma PInv_action g f mw mw' p' pend' evs :
  PInv ([g] ++ f) mw →
  is_deferred mw'.1 = is_deferred mw.1 → rest_of mw'.1 = rest_of mw.1 →
  (∀ s', s' ≠ pg_shard g →
     proj s' mw'.2.2 = proj s' mw.2.2 ∧ pending_of mw'.1 s' = pending_of mw.1 s') →
  proj (pg_shard g) mw'.2.2 = proj (pg_shard g) mw.2.2 ++ evs →
  p_run me deferred (pg_now g) evs = Some p' →
  pending_of mw'.1 (pg_shard g) = pend' →
  PInv ([goes g p' pend'] ++ f) mw'.
Proof.
  intros (Hnd & [Hd Hb] & Hall) Hd' Hb' Hframe Hev Hrun Hpend. simpl in *.
  apply NoDup_cons in Hnd as [Hnin Hnd]. apply Forall_cons in Hall as [[Hat _] Hall].
  split_and!.
  - by apply NoDup_cons.
  - congruence.
  - congruence.
  - apply Forall_cons. split.
    + split; [|done]. simpl. by rewrite Hev, p_run_app, Hat.
    + apply Forall_forall. intros g' Hg'. rewrite Forall_forall in Hall.
      destruct (Hall g' Hg') as [Hat' Hpend']. destruct (Hframe (pg_shard g')) as [H1 H2].
      { intros Heq. apply Hnin. rewrite <- Heq. apply list_elem_of_fmap. by exists g'. }
      split; [by rewrite H1|by rewrite H2].
Qed.

Lemma rsafe_call {A B} g (m : M W A) (ev : A → PEvent) (p' : A → PassState)
    (k : A → Task World B) Q :
  (∀ a, p_step me deferred (pg_now g) (ev a) = Some (p' a)) →
  (∀ a, rsafe PInv [goes g (p' a) (pg_pending g)] (k a) Q) →
  rsafe PInv [g] (task_bind (call (logged m (λ a, [(pg_shard g, ev a)]))) k) Q.
Proof.
  intros Hev Hk. eapply rsafe_step; [|exact Hk]. intros f [mem [w l]] HI. unfold lift_m, logged.
  simpl. destruct (m w) as [a w']. simpl. eapply (PInv_action _ _ _ _ _ _ [ev a]); [exact HI|..];
    simpl; [done|done| | |apply Hev|].
  - intros s' Hs'. by rewrite proj_app, proj_other, app_nil_r.
  - by rewrite proj_app, proj_one.
  - destruct HI as (_ & _ & Hall). apply Forall_cons in Hall as [[_ Hp] _]. exact Hp.
Qed.

Lemma rsafe_quiet {A B} (h : list PassGhost) (m : M W A) (k : A → Task World B) Q :
  (∀ a, rsafe PInv h (k a) Q) → rsafe PInv h (task_bind (call (unlogged m)) k) Q.
Proof.
  intros Hk. eapply (rsafe_step _ _ _ _ (λ _, h)); [|exact Hk].
  intros f [mem [w l]] HI. unfold lift_m, unlogged, logged. simpl.
  destruct (m w) as [a w']. simpl. rewrite app_nil_r. exact HI.
Qed.

Lemma rsafe_read {A B} g (f0 : FleetMem → A) (P : A → Prop) (k : A → Task World B) Q :
  (∀ mem, is_deferred mem = deferred → pending_of mem (pg_shard g) = pg_pending g → P (f0 mem)) →
  (∀ a, P a → rsafe PInv [g] (k a) Q) → rsafe PInv [g] (task_bind (act (mem_get f0)) k) Q.
Proof.
  intros HP Hk. cbn [act task_bind rsafe]. intros f [mem w] HI. exists [g]. split; [exact HI|].
  apply Hk, HP; destruct HI as (_ & [Hd _] & Hall); [exact Hd|].
  apply Forall_cons in Hall as [[_ Hp] _]. exact Hp.
Qed.

(** An operation on the deferred checkpoints of the task's own shard. *)
Lemma PInv_defer g f mw (d d' : CkptDefer) pend' :
  PInv ([g] ++ f) mw → fm_ckpt_defer mw.1 = Some d →
  (∀ s', s' ≠ pg_shard g → cd_state d' !! s' = cd_state d !! s') →
  resume_from d' (pg_shard g) = pend' →
  PInv ([goes g (pg_now g) pend'] ++ f) (set_defer (Some d') mw.1, mw.2).
Proof.
  intros HI Hd Hframe Hpend. eapply (PInv_action _ _ _ _ _ _ []); [exact HI|..].
  - unfold is_deferred. cbn. by rewrite Hd.
  - done.
  - intros s' Hs'. split; [done|]. unfold pending_of. cbn. rewrite Hd. cbn.
    by apply resume_frame, Hframe.
  - by rewrite app_nil_r.
  - done.
  - exact Hpend.
Qed.

Lemma PInv_no_defer g f mw :
  PInv ([g] ++ f) mw → fm_ckpt_defer mw.1 = None →
  deferred = false ∧ g = goes g (pg_now g) None.
Proof.
  intros (_ & [Hdef _] & Hall) Hd. apply Forall_cons in Hall as [[_ Hpend] _].
  unfold is_deferred, pending_of in *. rewrite Hd in *. split; [done|].
  destruct g; unfold goes; cbn in *. by rewrite Hpend.
Qed.

Lemma rsafe_clear {B} g (f1 : CkptDefer → CkptDefer) (k : unit → Task World B) Q :
  (∀ d s', s' ≠ pg_shard g → cd_state (f1 d) !! s' = cd_state d !! s') →
  (∀ d, resume_from (f1 d) (pg_shard g) = None) →
  rsafe PInv [goes g (pg_now g) None] (k tt) Q →
  rsafe PInv [g] (task_bind (act (defer_do f1)) k) Q.
Proof.
  intros Hframe Hnone Hk. cbn [act task_bind rsafe]. intros f mw HI.
  exists [goes g (pg_now g) None]. split; [|exact Hk]. unfold defer_do. cbn [fst snd].
  destruct (fm_ckpt_defer mw.1) as [d|] eqn:Hd; cbn.
  - eapply PInv_defer; [exact HI|exact Hd|auto|auto].
  - destruct (PInv_no_defer _ _ _ HI Hd) as [_ Hg]. rewrite <- Hg.
    destruct mw as [[] ?]; cbn in *; by subst.
Qed.

Lemma rsafe_record {B} g ack now (k : option (option string) → Task World B) Q :
  deferred = true →
  (∀ due, due = None ∨ due = Some ack →
     rsafe PInv [goes g (pg_now g) (Some ack)] (k (Some due)) Q) →
  rsafe PInv [g]
    (task_bind (act (defer_call (λ d, record_ack d (pg_shard g) ack now))) k) Q.
Proof.
  intros Hdef Hk. cbn [act task_bind rsafe]. intros f mw HI.
  exists [goes g (pg_now g) (Some ack)].
  assert (∃ d, fm_ckpt_defer mw.1 = Some d) as [d Hd].
  { destruct HI as (_ & [Hd _] & _). rewrite Hdef in Hd. by apply bool_decide_eq_true_1 in Hd. }
  unfold defer_call. rewrite Hd.
  pose proof (record_ack_resume d (pg_shard g) ack now) as Hres.
  pose proof (record_ack_due d (pg_shard g) ack now) as Hdue.
  pose proof (λ s', defer_frame d (pg_shard g) s' ack now) as Hframe.
  destruct (record_ack d (pg_shard g) ack now) as [due d'] eqn:Hr. cbn [fst snd] in *. split.
  - eapply PInv_defer; [exact HI|exact Hd| |done]. intros s' Hs'. by apply Hframe.
  - apply Hk. destruct due as [q|]; [right|by left]. f_equal. by apply Hdue.
Qed.

Lemma rsafe_take {B} g (k : option (option string) → Task World B) Q :
  (∀ r, r = (if deferred then Some (pg_pending g) else None) →
     rsafe PInv [goes g (pg_now g) None] (k r) Q) →
  rsafe PInv [g] (task_bind (act (defer_call (λ d, take_pending d (pg_shard g)))) k) Q.
Proof.
  intros Hk. cbn [act task_bind rsafe]. intros f mw HI.
  exists [goes g (pg_now g) None]. pose proof HI as (_ & [Hdef _] & Hall).
  apply Forall_cons in Hall as [[_ Hpend] _]. unfold defer_call.
  destruct (fm_ckpt_defer mw.1) as [d|] eqn:Hd.
  - unfold is_deferred, pending_of in *. rewrite Hd in *.
    rewrite bool_decide_eq_true_2 in Hdef by eauto. cbn in Hpend.
    destruct (take_pending_spec d (pg_shard g)) as [Ht1 Ht2].
    pose proof (λ s', defer_frame d (pg_shard g) s' EmptyString 0%N) as Hframe.
    destruct (take_pending d (pg_shard g)) as [r d'] eqn:Hr. cbn [fst snd] in *. split.
    + eapply PInv_defer; [exact HI|exact Hd| |done]. intros s' Hs'. by apply Hframe.
    + apply Hk. rewrite <- Hdef. congruence.
  - destruct (PInv_no_defer _ _ _ HI Hd) as [Hf Hg]. cbn [fst snd]. rewrite <- Hg. split; [done|].
    rewrite Hg. apply Hk. by rewrite Hf.
Qed.
End inv.

Section refinement.
Context {W : Type} `{AsyncStreamSource W, AsyncLeaseStore W, ShardConsumerFactory W,
                     MetricsSink W, Clock W}.
Variables (me : string) (deferred : bool) (base : FleetMem) (t : ShardTask) (c0 : Consumer (W := W)).
Hypothesis Howner : st_owner t = me.
Variable start : PassState.
Abbreviation safe := (rsafe (PInv (W := W) me deferred base)).
Abbreviation cons := ((st_shard t, c0) : Consumer (W := W * PLog)).

Definition ghost (p : PassState) (pend : option string) : PassGhost :=
  {| pg_shard := st_shard t; pg_start := start; pg_now := p; pg_pending := pend |}.

(** Between batches the memory holds the unsaved ack, or there is none. *)
Definition kept (p : PassState) (pend : option string) : Prop :=
  if deferred then pend = ps_unsaved p else ps_unsaved p = None ∧ pend = None.

(** After a helper of the pass: stopped, or the batch is dealt with and the given
    facts hold. *)
Definition helper (P : N → PassState → option string → Prop) (r : option N)
    (h : list PassGhost) : Prop :=
  ∃ p pend, h = [ghost p pend] ∧
    match r with
    | Some n => n = ps_counter p ∧ P n p pend
    | None => ps_phase p = PDone (Some Stopped) ∧ ps_unsaved p = None ∧ pend = None
    end.

Lemma safe_lost P p :
  ps_phase p = PLost → ps_unsaved p = None → safe [ghost p None] (lost (W := W * PLog) t cons) (helper P).
Proof.
  intros Hp Hu. unfold lost. apply rsafe_quiet. intros [].
  eapply (rsafe_call _ _ _ (ghost p None) _ _ (λ _, p_to p (PDone (Some Stopped)))).
  { intros r. cbn. by rewrite Hp. }
  intros r. eexists _, _. split; [reflexivity|]. by split_and!.
Qed.

Definition saved (b : RecordBatch) (p0 : PassState) (_ : N) (p : PassState)
    (pend : option string) : Prop :=
  ps_phase p = PHandled b ∧ ps_after p = ps_after p0 ∧ ps_any p = ps_any p0.

(** The step of a checkpoint of the newest ack. *)
Lemma ckpt_step b p q r :
  ps_phase p = PHandled b → ps_unsaved p = Some q →
  rb_shard_end b || negb (bool_decide (rb_records b = [])) = true →
  p_step me deferred p (ECkpt (st_owner t) (ps_counter p) q r) =
  Some (match r with Ok n => p_save p (PHandled b) n | Err _ => p_save p PLost (ps_counter p) end).
Proof.
  intros Hp Hu Hb. cbn. by rewrite Hp, !bool_decide_eq_true_2, Hb by done.
Qed.

Lemma safe_save_now b p q :
  ps_phase p = PHandled b → ps_unsaved p = Some q → rb_records b ≠ [] →
  safe [ghost p None] (save_now (W := W * PLog) t cons (ps_counter p) q)
    (helper (λ n p' pend, saved b p n p' pend ∧ ps_unsaved p' = None ∧ pend = None)).
Proof.
  intros Hp Hu Hb. unfold save_now.
  eapply (rsafe_call _ _ _ (ghost p None)).
  { intros r. apply ckpt_step; [exact Hp|exact Hu|].
    by rewrite bool_decide_eq_false_2, orb_true_r. }
  intros [n|e]; [|by apply safe_lost].
  eexists _, _. split; [reflexivity|]. split; [done|]. by repeat split.
Qed.

Lemma safe_save_due b p q now :
  ps_phase p = PHandled b → ps_unsaved p = Some q → rb_records b ≠ [] →
  safe [ghost p (Some q)] (save_due (W := W * PLog) t cons (ps_counter p) q now)
    (helper (λ n p' pend, saved b p n p' pend ∧ ps_unsaved p' = None ∧ pend = None)).
Proof.
  intros Hp Hu Hb. unfold save_due.
  eapply (rsafe_call _ _ _ (ghost p (Some q))).
  { intros r. apply ckpt_step; [exact Hp|exact Hu|].
    by rewrite bool_decide_eq_false_2, orb_true_r. }
  intros [n|e]; apply rsafe_clear.
  - intros d s' Hs'. by apply defer_frame.
  - intros d. apply persisted_resume.
  - eexists _, _. split; [reflexivity|]. split; [done|]. by repeat split.
  - intros d s' Hs'. by apply (defer_frame d _ s' EmptyString 0%N).
  - intros d. apply forget_resume.
  - by apply safe_lost.
Qed.

Lemma safe_save_ack b p q pend :
  ps_phase p = PHandled b → ps_unsaved p = Some q → rb_records b ≠ [] →
  (deferred = false → pend = None) →
  safe [ghost p pend] (save_ack (W := W * PLog) t cons (ps_counter p) q)
    (helper (λ n p' pend, saved b p n p' pend ∧ kept p' pend)).
Proof.
  intros Hp Hu Hb Hpend. unfold save_ack.
  eapply (rsafe_read _ _ _ _ _ (λ d, d = deferred)); [by intros mem ->|]. intros d Hd.
  assert (∀ r h, helper (λ n p' pend, saved b p n p' pend ∧ ps_unsaved p' = None ∧ pend = None) r h
            → helper (λ n p' pend, saved b p n p' pend ∧ kept p' pend) r h) as Hweak.
  { intros [n|] h (p' & pend' & -> & Hr); exists p', pend'; [|done].
    destruct Hr as (? & ? & Hn & ->). split_and!; try done. unfold kept. by destruct deferred. }
  destruct d.
  - apply rsafe_quiet. intros now.
    eapply (rsafe_record _ _ _ (ghost p pend)); [done|]. intros due [->| ->].
    + eexists _, _. split; [reflexivity|]. split; [done|]. split; [by repeat split|].
      unfold kept. rewrite <- Hd. done.
    + eapply rsafe_conseq; [by apply safe_save_due|exact Hweak].
  - rewrite Hpend by done. eapply rsafe_conseq; [by apply safe_save_now|exact Hweak].
Qed.

Lemma safe_deliver_batch b p pend :
  ps_phase p = PFetched b → rb_records b ≠ [] → kept p pend →
  safe [ghost p pend] (deliver_batch (W := W * PLog) t cons (ps_counter p) b)
    (helper (λ n p' pend, ps_phase p' = PHandled b ∧ ps_after p' = last_seq (rb_records b) ∧
                          ps_any p' = true ∧ kept p' pend)).
Proof.
  intros Hp Hb Hk. unfold deliver_batch.
  set (p1 r := {| ps_phase := if is_ok r then PHandled b else PDone (Some Stopped);
                  ps_counter := ps_counter p; ps_after := last_seq (rb_records b);
                  ps_unsaved := match r : Result (option string) WorkerError with
                                | Ok (Some q) => Some q
                                | Ok None => ps_unsaved p
                                | Err _ => None
                                end; ps_any := true |}).
  eapply (rsafe_call _ _ _ (ghost p pend) _ _ p1).
  { intros r. cbn. rewrite Hp. by rewrite bool_decide_eq_true_2. }
  intros [[q|]|e].
  - apply rsafe_bind. eapply rsafe_conseq.
    { apply (safe_save_ack b (p1 (Ok (Some q))) q); try done.
      intros Hd. unfold kept in Hk. rewrite Hd in Hk. by destruct Hk. }
    intros [n|] h (p' & pend' & -> & Hr).
    + destruct Hr as (-> & (? & ? & ?) & ?). apply rsafe_quiet. intros [].
      eexists _, _. split; [reflexivity|]. by split_and!.
    + by exists p', pend'.
  - apply rsafe_quiet. intros []. eexists (p1 (Ok None)), _. split; [reflexivity|].
    by split_and!.
  - apply rsafe_clear.
    + intros d s' Hs'. by apply (defer_frame d _ s' EmptyString 0%N).
    + intros d. apply forget_resume.
    + eexists (p1 (Err e)), None. by split_and!.
Qed.

Lemma safe_flush b p pend :
  ps_phase p = PHandled b → rb_shard_end b = true → kept p pend →
  safe [ghost p pend] (flush_pending (W := W * PLog) t cons (ps_counter p))
    (helper (λ n p' pend, saved b p n p' pend ∧ ps_unsaved p' = None ∧ pend = None)).
Proof.
  intros Hp He Hk. unfold flush_pending.
  eapply (rsafe_take _ _ _ (ghost p pend)). intros r Hr0. apply rsafe_bind.
  assert ((r = Some (ps_unsaved p) ∨ (r = None ∧ ps_unsaved p = None))) as Hcase.
  { unfold kept in Hk. destruct deferred; [left|right]; [by subst|by destruct Hk]. }
  clear Hr0.
  eapply (rsafe_conseq _ _ _ _ (helper (λ n p' pend, saved b p n p' pend ∧
            ps_unsaved p' = None ∧ pend = None))).
  - assert (ps_unsaved p = None → helper (λ n p' pend, saved b p n p' pend ∧
              ps_unsaved p' = None ∧ pend = None) (Some (ps_counter p)) [ghost p None]) as Hnone.
    { intros Hu. eexists _, _. split; [reflexivity|]. split; [done|]. by repeat split. }
    destruct Hcase as [->|[-> Hu]]; [|by apply Hnone].
    destruct (ps_unsaved p) as [q|] eqn:Hu; [|by apply Hnone].
    eapply (rsafe_call _ _ _ (ghost p None)).
    { intros r. apply ckpt_step; [exact Hp|exact Hu|]. by rewrite He. }
    intros [n|e].
    + eexists _, _. split; [reflexivity|]. split; [done|]. by repeat split.
    + apply rsafe_clear.
      * intros d s' Hs'. by apply (defer_frame d _ s' EmptyString 0%N).
      * intros d. apply forget_resume.
      * by apply safe_lost.
  - intros [n|] h (p' & pend' & -> & Hr).
    + destruct Hr as (-> & ? & ? & ->). apply rsafe_clear.
      * intros d s' Hs'. by apply (defer_frame d _ s' EmptyString 0%N).
      * intros d. apply forget_resume.
      * eexists _, _. split; [reflexivity|]. by split_and!.
    + by exists p', pend'.
Qed.

Definition finished (r : option (Result PassOutcome WorkerError)) (h : list PassGhost) : Prop :=
  ∃ p pend, h = [ghost p pend] ∧ pass_result p = returned r ∧ kept p pend.

Lemma kept_none p : ps_unsaved p = None → kept p None.
Proof. unfold kept. by destruct deferred. Qed.

Lemma safe_end_shard b p pend :
  ps_phase p = PHandled b → rb_shard_end b = true → kept p pend →
  safe [ghost p pend] (end_shard (W := W * PLog) t cons (ps_counter p)) (λ o, finished (Some (Ok o))).
Proof.
  intros Hp He Hk. unfold end_shard. apply rsafe_bind.
  eapply rsafe_conseq; [by apply safe_flush|]. intros [n|] h (p' & pend' & -> & Hr).
  - destruct Hr as (-> & (Hp' & _) & Hu & ->).
    eapply (rsafe_call _ _ _ (ghost p' None) _ _ (λ _, p_to p' PClosing)).
    { intros r. cbn. rewrite Hp', He, Hu. by rewrite bool_decide_eq_true_2. }
    intros r1. eapply (rsafe_call _ _ _ (ghost (p_to p' PClosing) None) _ _
                        (λ _, p_to p' (PDone (Some Ended)))).
    { intros r. cbn. by rewrite !bool_decide_eq_true_2. }
    intros r2. apply rsafe_quiet. intros []. eexists _, _. split; [reflexivity|].
    split; [done|]. by apply kept_none.
  - destruct Hr as (Hd & Hu & ->). eexists _, _. split; [reflexivity|].
    split; [|by apply kept_none]. unfold pass_result. by rewrite Hd.
Qed.

Lemma safe_pass_loop polls p pend :
  may_poll deferred p = true → kept p pend →
  safe [ghost p pend] (pass_loop (W := W * PLog) t cons polls (ps_counter p) (ps_after p) (ps_any p)) finished.
Proof.
  revert p pend. induction polls as [|polls IH]; intros p pend Hmay Hk; cbn [pass_loop].
  { exists p, pend. split_and!; [done| |done]. unfold pass_result, may_poll in *.
    destruct (ps_phase p); try done. apply andb_true_iff in Hmay as [[_ Hn]%andb_true_iff _].
    apply negb_true_iff in Hn. by rewrite Hn. }
  eapply (rsafe_call _ _ _ (ghost p pend)).
  { intros r. cbn. by rewrite Hmay, bool_decide_eq_true_2. }
  intros [b|e].
  2:{ eexists _, _. split; [reflexivity|]. by split. }
  destruct (bool_decide (rb_records b = [])) eqn:Hempty.
  - cbn [task_bind]. destruct (rb_shard_end b) eqn:He.
    + apply rsafe_bind. eapply rsafe_conseq.
      { by apply (safe_end_shard b (p_to p (PHandled b)) pend). }
      intros o h. done.
    + eexists _, _. split; [reflexivity|]. split; [|exact Hk].
      cbn. rewrite Hempty, He. cbn. by rewrite orb_false_r.
  - apply rsafe_bind. eapply rsafe_conseq.
    { apply (safe_deliver_batch b (p_to p (PFetched b)) pend); [done| |exact Hk].
      by apply bool_decide_eq_false in Hempty. }
    rewrite orb_true_r.
    intros [n|] h (p' & pend' & -> & Hr).
    + destruct Hr as (-> & Hp' & <- & <- & Hk'). destruct (rb_shard_end b) eqn:He.
      * apply rsafe_bind. eapply rsafe_conseq; [by apply (safe_end_shard b)|]. done.
      * apply IH; [|done]. unfold may_poll. rewrite Hp', He, Hempty. cbn. unfold kept in Hk'.
        destruct deferred; [done|]. by destruct Hk' as [-> _].
    + destruct Hr as (Hd & Hu & ->). eexists _, _. split; [reflexivity|].
      split; [unfold pass_result; by rewrite Hd|by apply kept_none].
Qed.

(** The whole pass, from what the memory and the lease say. *)
Lemma safe_process_shard polls pend :
  start = {| ps_phase := PPoll; ps_counter := st_counter t;
             ps_after := match pend with Some q => Some q | None => st_checkpoint t end;
             ps_unsaved := pend; ps_any := false |} →
  (deferred = false → pend = None) →
  safe [ghost start pend] (process_shard (W := W * PLog) t cons polls) finished.
Proof.
  intros Hst Hd. unfold process_shard.
  eapply (rsafe_read _ _ _ (ghost start pend) _ (λ q, q = pend)); [by intros mem _ Hq|]. intros q ->.
  pose proof (safe_pass_loop polls start pend) as Hl. rewrite Hst in Hl |- *. apply Hl; [done|].
  unfold kept. destruct deferred; [done|]. by rewrite Hd.
Qed.
End refinement.

(** ** Reading a pass's calls off its log *)

(** The counter of the last lease write. *)
Definition counter_of (n : N) (l : list PEvent) : N :=
  foldl (λ n e, match e with ECkpt _ _ _ (Ok n') => n' | _ => n end) n l.
(** The newest ack that is in no lease write yet. *)
Definition unsaved_of (u : option string) (l : list PEvent) : option string :=
  foldl (λ u e, match e with
                | EDeliver _ (Ok (Some q)) => Some q
                | EDeliver _ (Err _) | ECkpt _ _ _ _ => None
                | _ => u
                end) u l.
(** Where the next poll resumes: after the last record delivered. *)
Definition position_of (a : option string) (l : list PEvent) : option string :=
  foldl (λ a e, match e with EDeliver rs _ => last_seq rs | _ => a end) a l.
(** The last batch fetched. *)
Definition batch_of (l : list PEvent) : option RecordBatch :=
  foldl (λ b e, match e with EFetch _ (Ok b') => Some b' | _ => b end) None l.

Definition phase_batch (ph : PPhase) : option RecordBatch :=
  match ph with PFetched b | PHandled b => Some b | _ => None end.

Section log_facts.
Variables (me : string) (deferred : bool).

Lemma p_step_tracks p e p' :
  p_step me deferred p e = Some p' →
  ps_counter p' = counter_of (ps_counter p) [e] ∧ ps_unsaved p' = unsaved_of (ps_unsaved p) [e] ∧
  ps_after p' = position_of (ps_after p) [e].
Proof.
  destruct p as [ph n a u any].
  destruct e, ph; cbn; intros Hs; try discriminate; repeat case_match; by simplify_eq/=.
Qed.

Lemma p_run_nil p p' : p_run me deferred p [] = Some p' → p' = p.
Proof. by intros [= <-]. Qed.

Lemma p_run_tracks p l p' :
  p_run me deferred p l = Some p' →
  ps_counter p' = counter_of (ps_counter p) l ∧ ps_unsaved p' = unsaved_of (ps_unsaved p) l ∧
  ps_after p' = position_of (ps_after p) l.
Proof.
  revert p'. induction l as [|e l IH] using rev_ind; intros p' Hp; [by apply p_run_nil in Hp as ->|].
  rewrite p_run_app in Hp. destruct (p_run me deferred p l) as [p1|]; [|done].
  destruct (IH p1 eq_refl) as (H1 & H2 & H3). cbn in Hp. apply p_step_tracks in Hp.
  unfold counter_of, unsaved_of, position_of in *. rewrite !foldl_app.
  by rewrite <- H1, <- H2, <- H3.
Qed.

Lemma p_run_batch p l p' b :
  ps_phase p = PPoll → p_run me deferred p l = Some p' →
  phase_batch (ps_phase p') = Some b → batch_of l = Some b.
Proof.
  intros Hp. revert p' b. induction l as [|e l IH] using rev_ind; intros p' b Hrun Hb.
  { apply p_run_nil in Hrun as ->. by rewrite Hp in Hb. }
  rewrite p_run_app in Hrun. destruct (p_run me deferred p l) as [p1|]; [|done].
  specialize (IH p1). unfold batch_of in *. rewrite foldl_app. cbn in Hrun |- *.
  destruct p1 as [ph n a u any], e; cbn in Hrun; try (destruct ph; try discriminate);
    repeat case_match; simplify_eq/=; eauto.
Qed.

Lemma p_run_split p pre e post p' :
  p_run me deferred p (pre ++ e :: post) = Some p' →
  ∃ p1 p2, p_run me deferred p pre = Some p1 ∧ p_step me deferred p1 e = Some p2 ∧
           p_run me deferred p2 post = Some p'.
Proof.
  rewrite p_run_app. destruct (p_run me deferred p pre) as [p1|]; [|done]. simpl.
  change (e :: post) with ([e] ++ post). rewrite p_run_app.
  change (p_run me deferred p1 [e]) with (p_step me deferred p1 e).
  destruct (p_step me deferred p1 e) as [p2|] eqn:E; [|done]. cbn. eauto.
Qed.

(** Nothing follows the end of a pass. *)
Lemma p_run_done p l p' o : p_run me deferred p l = Some p' → ps_phase p = PDone o → l = [].
Proof.
  intros Hp Hd. destruct l as [|e l]; [done|]. change (e :: l) with ([] ++ e :: l) in Hp.
  apply p_run_split in Hp as (p1 & p2 & ->%p_run_nil & Hs & _).
  destruct e; cbn in Hs; unfold may_poll in Hs; rewrite Hd in Hs; discriminate.
Qed.

(** After a refused checkpoint the consumer is told, at most. *)
Lemma p_run_lost p l p' : p_run me deferred p l = Some p' → ps_phase p = PLost →
  l = [] ∨ l = [ELost].
Proof.
  intros Hp Hl. destruct l as [|e l]; [by left|right]. change (e :: l) with ([] ++ e :: l) in Hp.
  apply p_run_split in Hp as (p1 & p2 & ->%p_run_nil & Hs & Hrest).
  destruct e; cbn in Hs; unfold may_poll in Hs; rewrite Hl in Hs; try discriminate.
  simplify_eq/=. by rewrite (p_run_done _ _ _ _ Hrest eq_refl).
Qed.

(** Once the consumer knows the shard ended, completion is all that is left. *)
Lemma p_run_closing p l p' : p_run me deferred p l = Some p' → ps_phase p = PClosing →
  l = [] ∨ l = [EComplete me (ps_counter p)].
Proof.
  intros Hp Hl. destruct l as [|e l]; [by left|right]. change (e :: l) with ([] ++ e :: l) in Hp.
  apply p_run_split in Hp as (p1 & p2 & ->%p_run_nil & Hs & Hrest).
  destruct e; cbn in Hs; unfold may_poll in Hs; rewrite Hl in Hs; try discriminate.
  destruct (_ && _) eqn:E; [|done].
  apply andb_true_iff in E as [->%bool_decide_eq_true_1 ->%bool_decide_eq_true_1].
  simplify_eq/=. by rewrite (p_run_done _ _ _ _ Hrest eq_refl).
Qed.

(** What may be said of each call of an accepted pass from the calls around it. *)
Definition call_ok (s0 : PassState) (pre : list PEvent) (e : PEvent) (post : list PEvent) : Prop :=
  let n := counter_of (ps_counter s0) pre in
  let u := unsaved_of (ps_unsaved s0) pre in
  match e with
  | EFetch after _ => after = position_of (ps_after s0) pre ∧ (deferred = false → u = None)
  | EDeliver rs _ => rb_records <$> batch_of pre = Some rs ∧ rs ≠ []
  | ECkpt o c q r => o = me ∧ c = n ∧ u = Some q ∧
                     (is_ok r = false → post = [] ∨ post = [ELost])
  | EEnded => rb_shard_end <$> batch_of pre = Some true ∧ u = None ∧
              (post = [] ∨ post = [EComplete me n])
  | ELost => post = []
  | EComplete o c => last pre = Some EEnded ∧ o = me ∧ c = n ∧ post = []
  end.

Lemma p_run_last p l p' :
  ps_phase p = PPoll → p_run me deferred p l = Some p' →
  match ps_phase p' with
  | PClosing => last l = Some EEnded
  | PFetched b => rb_records b ≠ []
  | PPoll => l = []
  | _ => True
  end.
Proof.
  intros Hp Hrun. destruct l as [|e l _] using rev_ind.
  { apply p_run_nil in Hrun as ->. by rewrite Hp. }
  rewrite last_snoc. apply p_run_split in Hrun as (p1 & p2 & _ & Hs & ->%p_run_nil).
  destruct p1 as [ph n a u any], e, ph; cbn in Hs; try discriminate;
    repeat case_match; simplify_eq/=; try done; by eapply bool_decide_eq_false_1.
Qed.

Lemma accepted_calls s0 pre e post p' :
  ps_phase s0 = PPoll → (deferred = false → ps_unsaved s0 = None) →
  p_run me deferred s0 (pre ++ e :: post) = Some p' → call_ok s0 pre e post.
Proof.
  intros H0 Hu0 Hrun. apply p_run_split in Hrun as (p1 & p2 & Hpre & Hs & Hpost).
  destruct (p_run_tracks _ _ _ Hpre) as (Hn & Hu & Ha).
  pose proof (λ b, p_run_batch _ _ _ b H0 Hpre) as Hb.
  pose proof (p_run_last _ _ _ H0 Hpre) as Hlast.
  unfold call_ok. rewrite <- Hn, <- Hu, <- Ha. clear Hn Hu Ha.
  destruct p1 as [ph n a u any].
  destruct e; cbn [p_step ps_phase ps_counter ps_unsaved ps_after] in *.
  - destruct (_ && _) eqn:E; [|done]. apply andb_true_iff in E as [Hm ->%bool_decide_eq_true_1].
    split; [done|]. intros Hd. unfold may_poll in Hm. cbn in Hm. destruct ph; try discriminate.
    + subst pre. apply p_run_nil in Hpre. rewrite <- Hpre in Hu0. by apply Hu0.
    + rewrite Hd in Hm. apply andb_true_iff in Hm as [_ Hm]. by apply bool_decide_eq_true_1 in Hm.
  - destruct ph; try discriminate. destruct (bool_decide _) eqn:E; [|done].
    apply bool_decide_eq_true_1 in E as ->. by rewrite (Hb _ eq_refl).
  - destruct ph; try discriminate. destruct (_ && _) eqn:E; [|done].
    apply andb_true_iff in E as [[[->%bool_decide_eq_true_1 ->%bool_decide_eq_true_1]%andb_true_iff
      ->%bool_decide_eq_true_1]%andb_true_iff _].
    split_and!; [done..|]. intros Hr. destruct r; [done|]. simplify_eq.
    by eapply p_run_lost.
  - destruct ph; try discriminate. destruct (_ && _) eqn:E; [|done].
    apply andb_true_iff in E as [He ->%bool_decide_eq_true_1]. simplify_eq.
    rewrite (Hb _ eq_refl). cbn. rewrite He. split_and!; [done..|].
    by apply (p_run_closing _ _ _ Hpost).
  - destruct ph; try discriminate. simplify_eq. by apply (p_run_done _ _ _ _ Hpost eq_refl).
  - destruct ph; try discriminate. destruct (_ && _) eqn:E; [|done].
    apply andb_true_iff in E as [->%bool_decide_eq_true_1 ->%bool_decide_eq_true_1].
    simplify_eq. split_and!; [done..|]. by apply (p_run_done _ _ _ _ Hpost eq_refl).
Qed.

Lemma p_run_fetched_saved s0 l p' b :
  ps_phase s0 = PPoll → (deferred = false → ps_unsaved s0 = None) →
  p_run me deferred s0 l = Some p' → ps_phase p' = PFetched b →
  deferred = false → ps_unsaved p' = None.
Proof.
  intros H0 Hu0 Hrun Hph Hd. destruct l as [|e l _] using rev_ind.
  { apply p_run_nil in Hrun as ->. auto. }
  pose proof (accepted_calls s0 l e [] p' H0 Hu0 Hrun) as Hcall.
  destruct (p_run_tracks _ _ _ Hrun) as (_ & -> & _). unfold unsaved_of in *.
  rewrite foldl_app. apply p_run_split in Hrun as (p1 & p2 & _ & Hs & ->%p_run_nil).
  destruct e; cbn in Hs |- *; [by apply Hcall|..];
    repeat case_match; simplify_eq/=; repeat case_match; simplify_eq/=.
Qed.

Lemma p_run_unacked s0 pre rs post p' :
  deferred = false → ps_phase s0 = PPoll → ps_unsaved s0 = None →
  p_run me deferred s0 (pre ++ EDeliver rs (Ok None) :: post) = Some p' →
  rb_shard_end <$> batch_of pre = Some true → pass_result p' ≠ None →
  post = [EEnded; EComplete me (counter_of (ps_counter s0) pre)].
Proof.
  intros Hd H0 Hu0 Hrun Hend Hres. apply p_run_split in Hrun as (p1 & p2 & Hpre & Hs & Hpost).
  destruct (p_run_tracks _ _ _ Hpre) as (Hn & _ & _). rewrite <- Hn.
  cbn in Hs. destruct (ps_phase p1) as [|b| | | |] eqn:Hph; try discriminate.
  rewrite (p_run_batch _ _ _ b H0 Hpre) in Hend by (by rewrite Hph). simpl in Hend.
  pose proof (p_run_fetched_saved _ _ _ b H0 (λ _, Hu0) Hpre Hph Hd) as Hu.
  destruct (bool_decide _); [|done]. injection Hend as He. injection Hs as <-.
  destruct post as [|e post].
  { apply p_run_nil in Hpost as ->. cbn in Hres. by rewrite He, andb_false_r in Hres. }
  change (e :: post) with ([] ++ e :: post) in Hpost.
  apply p_run_split in Hpost as (p3 & p4 & ->%p_run_nil & Hs & Hpost).
  destruct e; cbn in Hs; unfold may_poll in Hs; cbn in Hs; rewrite ?He, ?Hu in Hs; try discriminate.
  - rewrite (bool_decide_eq_false_2 (None = Some _)) in Hs by done.
    by rewrite andb_false_r in Hs.
  - injection Hs as <-.
    destruct (p_run_closing _ _ _ Hpost eq_refl) as [->| ->]; [|done].
    apply p_run_nil in Hpost as ->. done.
Qed.
End log_facts.

(** ** Running the passes of a cycle, one concurrent task per shard *)

Section unbounded.
Context {W : Type} `{AsyncStreamSource W, AsyncLeaseStore W, ShardConsumerFactory W,
                     MetricsSink W, Clock W}.
Variables (polls : nat) (owner : string).

Definition task_of (item : string * (N * option string)) : ShardTask :=
  {| st_owner := owner; st_shard := item.1; st_counter := item.2.1;
     st_checkpoint := item.2.2 |}.

Definition PassResult : Type := option (Result PassOutcome WorkerError).

Fixpoint spawn_all (items : list (string * (N * option string)))
  : M (FleetMem * W) (list (Task (FleetMem * W) PassResult)) :=
  match items with
  | [] => ret []
  | i :: items' =>
      c <- lift_m (create i.1) ;;
      ts <- spawn_all items' ;;
      ret (process_shard (task_of i) c polls :: ts)
  end.

(** The unbounded path of [run_cycle], under a schedule of the spawned tasks. *)
Definition process_unbounded (schedule : list nat) (items : list (string * (N * option string)))
  : M (FleetMem * W) (list PassResult) :=
  ts <- spawn_all items ;; join_all schedule ts.
End unbounded.

Section concurrent.
Context {W : Type} `{AsyncStreamSource W, AsyncLeaseStore W, ShardConsumerFactory W,
                     MetricsSink W, Clock W}.
Variables (polls : nat) (me : string).
Abbreviation World := (FleetMem * (W * PLog))%type.
Implicit Types (items : list (string * (N * option string))) (mem : FleetMem).

Definition start_ghost mem (item : string * (N * option string)) : PassGhost :=
  {| pg_shard := item.1; pg_start := pass_start mem (task_of me item);
     pg_now := pass_start mem (task_of me item); pg_pending := pending_of mem item.1 |}.

Lemma not_deferred_pending mem s : is_deferred mem = false → pending_of mem s = None.
Proof.
  unfold is_deferred, pending_of. destruct (fm_ckpt_defer mem); [|done].
  rewrite bool_decide_eq_true_2 by eauto. done.
Qed.

Lemma PInv_start mem gs w :
  NoDup (pg_shard <$> gs) →
  Forall (λ g, pg_now g = pg_start g ∧ pg_pending g = pending_of mem (pg_shard g)) gs →
  PInv (W := W) me (is_deferred mem) mem gs (mem, (w, [])).
Proof.
  intros Hnd Hgs. split_and!; [done|done|done|]. eapply Forall_impl; [exact Hgs|].
  intros g [Hnow Hpend]. split; [cbn; by rewrite Hnow|done].
Qed.

(** A shard nobody works on: no call about it is accepted. *)
Definition untouched mem (s : string) : PassGhost :=
  let p := p_to (pass_start mem (task_of me (s, (0%N, None)))) (PDone None) in
  {| pg_shard := s; pg_start := p; pg_now := p; pg_pending := pending_of mem s |}.

Lemma untouched_log mem s gs (mw : World) :
  PInv (W := W) me (is_deferred mem) mem (gs ++ [untouched mem s]) mw → proj s mw.2.2 = [].
Proof.
  intros (_ & _ & Hall). apply Forall_app in Hall as [_ Hat].
  rewrite Forall_singleton in Hat. destruct Hat as [Hat _]. cbn [pg_start pg_now pg_shard untouched] in Hat.
  by eapply p_run_done.
Qed.

(** Creating consumers logs nothing; the tasks start from their ghosts. *)
Lemma spawn_all_safe items mem (wl : W * PLog) :
  ∃ w', (spawn_all polls me items (mem, wl) : list (Task World PassResult) * World).2
          = (mem, (w', wl.2)) ∧
  Forall3 (rsafe (PInv (W := W) me (is_deferred mem) mem))
    ((λ i, [start_ghost mem i]) <$> items)
    (spawn_all polls me items (mem, wl) : list (Task World PassResult) * World).1
    ((λ i, finished (is_deferred mem) (task_of me i) (pass_start mem (task_of me i))) <$> items).
Proof.
  revert wl. induction items as [|i items IH]; intros [w l].
  { exists w. split; [done|constructor]. }
  assert (∃ c0 w1, (lift_m (create i.1) : M World (Consumer (W := W * PLog))) (mem, (w, l))
                   = ((i.1, c0), (mem, (w1, l)))) as (c0 & w1 & Hc).
  { unfold lift_m. cbn. unfold bind, unlogged, logged. cbn.
    destruct (create i.1 w) as [c0 w1]. exists c0, w1. cbn. by rewrite app_nil_r. }
  destruct (IH (w1, l)) as (w2 & Heq & HF). exists w2. cbn [spawn_all].
  rewrite (bind_run _ _ _ _ _ Hc).
  destruct (spawn_all polls me items (mem, (w1, l))) as [ts mw] eqn:Hs.
  rewrite (bind_run _ _ _ _ _ Hs). cbn [fst snd ret] in *. split; [done|].
  constructor; [|exact HF].
  eapply (safe_process_shard me _ mem (task_of me i) c0 eq_refl); [done|].
  apply not_deferred_pending.
Qed.

Lemma mjoin_singletons {A} (l : list A) : mjoin ((λ x, [x]) <$> l) = l.
Proof. induction l as [|x l IH]; cbn; [done|]. f_equal. exact IH. Qed.

(** The cycle from an empty log, beside shards nobody works on. *)
Lemma unbounded_run schedule items others mem w :
  NoDup (items.*1 ++ others) →
  let res := (process_unbounded polls me schedule items (mem, (w, []))
              : list PassResult * World) in
  ∃ hs, Forall3 (λ (Q : PassResult → list PassGhost → Prop) a h, Q a h)
      ((λ i, finished (is_deferred mem) (task_of me i) (pass_start mem (task_of me i))) <$> items)
      res.1 hs ∧
    PInv (W := W) me (is_deferred mem) mem (mjoin hs ++ (untouched mem <$> others)) res.2.
Proof.
  intros Hnd. cbn zeta. unfold process_unbounded, bind.
  destruct (spawn_all_safe items mem (w, [])) as (w1 & Heq & HF).
  destruct (spawn_all (W := W * PLog) polls me items (mem, (w, []))) as [ts mw].
  cbn [fst snd] in Heq, HF. subst mw.
  apply (rsafe_join (PInv (W := W) me (is_deferred mem) mem) schedule ts _ _ _ (mem, (w1, [])) HF).
  pose proof (mjoin_singletons (start_ghost mem <$> items)) as Hj.
  rewrite <- list_fmap_compose in Hj. unfold compose in Hj. rewrite Hj. apply PInv_start.
  - by rewrite fmap_app, <- !list_fmap_compose; unfold compose; cbn; rewrite list_fmap_id.
  - apply Forall_app. split; by apply Forall_fmap, Forall_forall.
Qed.

(** Every pass of the cycle, whatever the others did. *)
Lemma passes_accepted schedule items mem w i item :
  NoDup items.*1 → items !! i = Some item →
  let res := (process_unbounded polls me schedule items (mem, (w, []))
              : list PassResult * World) in
  ∃ r p, res.1 !! i = Some r ∧
    p_run me (is_deferred mem) (pass_start mem (task_of me item)) (proj item.1 res.2.2.2) = Some p ∧
    pass_result p = returned r ∧
    (is_deferred mem = true → pending_of res.2.1 item.1 = ps_unsaved p).
Proof.
  intros Hnd Hi. cbn zeta.
  destruct (unbounded_run schedule items [] mem w) as (hs' & HF' & HI'); [by rewrite app_nil_r|].
  destruct (process_unbounded polls me schedule items (mem, (w, []))) as [rs [mem' [w' log]]].
  cbn in *.
  destruct (Forall3_lookup_l _ _ _ _ i (finished (is_deferred mem) (task_of me item)
             (pass_start mem (task_of me item))) HF') as (r & h & Hr & Hh & Hfin).
  { by rewrite list_lookup_fmap, Hi. }
  destruct Hfin as (p & pend & -> & Hres & Hkept). exists r, p. split; [done|].
  destruct HI' as (_ & _ & Hall). rewrite app_nil_r, Forall_forall in Hall.
  destruct (Hall (ghost (task_of me item) (pass_start mem (task_of me item)) p pend))
    as [Hat Hpend].
  { apply list_elem_of_lookup_2 in Hh. apply list_elem_of_join. eexists.
    split; [|exact Hh]. by left. }
  split_and!; [exact Hat|done|].
  intros Hd. unfold kept in Hkept. rewrite Hd in Hkept. by subst.
Qed.

(** No shard outside the cycle's items is touched. *)
Lemma passes_touch_items schedule items mem w s :
  NoDup items.*1 → s ∉ items.*1 →
  proj s (process_unbounded polls me schedule items (mem, (w, []))
          : list PassResult * World).2.2.2 = [].
Proof.
  intros Hnd Hs. destruct (unbounded_run schedule items [s] mem w) as (hs & _ & HI).
  { rewrite Permutation_app_comm. by constructor. }
  by eapply untouched_log.
Qed.
End concurrent.

(** ** Properties *)

Section properties.
Context {W : Type} `{AsyncStreamSource W, AsyncLeaseStore W, ShardConsumerFactory W,
                     MetricsSink W, Clock W}.
Variables (polls : nat) (me : string).
Abbreviation World := (FleetMem * (W * PLog))%type.
Implicit Types (items : list (string * (N * option string))) (mem : FleetMem).

(** C3: the shard tasks of a cycle may interleave in any way and the stream, the
    leases and the consumers may answer anything: what each task does to its own
    shard is a run of the pass protocol that starts from the lease's counter and
    from the ack kept in memory (else the lease's checkpoint), its result is the
    one the protocol assigns to where the run ends, and with deferred checkpoints
    the memory then holds exactly the newest ack that is in no lease write. *)
Theorem concurrent_passes_follow_protocol schedule items mem (w : W)
    (Hnd : NoDup items.*1) :
  let '(rs, (mem', (_, log))) :=
    (process_unbounded polls me schedule items (mem, (w, [])) : list PassResult * World) in
  ∀ i item, items !! i = Some item →
    ∃ r p, rs !! i = Some r ∧
      p_run me (is_deferred mem) (pass_start mem (task_of me item)) (proj item.1 log) = Some p ∧
      pass_result p = returned r ∧
      (is_deferred mem = true → pending_of mem' item.1 = ps_unsaved p).
Proof.
  destruct (process_unbounded polls me schedule items (mem, (w, []))) as [rs [mem' [w' log]]]
    eqn:Hrun.
  intros i item Hi. pose proof (passes_accepted polls me schedule items mem w i item Hnd Hi) as Hp.
  cbn zeta in Hp. rewrite Hrun in Hp. exact Hp.
Qed.

(** C4: in the log of every task, whatever runs beside it: a poll resumes after
    the last record delivered; what is delivered is the batch just fetched; a
    checkpoint carries the counter of the last lease write and the newest ack not
    yet written, and when it is refused nothing follows but the consumer's
    lease-lost; the consumer is told that the shard ended only when the last batch
    ended it and no ack is left unwritten, and only after that is the lease marked
    complete, with the counter of the last write, as the last call of all. *)
Theorem concurrent_passes_save_before_completing schedule items mem (w : W)
    (Hnd : NoDup items.*1) :
  let '(_, (_, (_, log))) :=
    (process_unbounded polls me schedule items (mem, (w, [])) : list PassResult * World) in
  ∀ item pre e post, item ∈ items → proj item.1 log = pre ++ e :: post →
    call_ok me (is_deferred mem) (pass_start mem (task_of me item)) pre e post.
Proof.
  destruct (process_unbounded polls me schedule items (mem, (w, []))) as [rs [mem' [w' log]]]
    eqn:Hrun.
  intros item pre e post [i Hi]%list_elem_of_lookup Hlog.
  destruct (passes_accepted polls me schedule items mem w i item Hnd Hi) as (r & p & _ & Hp & _).
  rewrite Hrun in Hp. cbn [fst snd] in Hp. rewrite Hlog in Hp.
  eapply accepted_calls; [done| |exact Hp]. apply not_deferred_pending.
Qed.

(** C25: with immediate checkpoints, when the batch that ends a shard is delivered
    but not acknowledged, a pass that returns still tells the consumer that the
    shard ended and marks the lease complete, and writes no checkpoint: the batch
    is not delivered again. *)
Theorem unacked_last_batch_is_completed schedule items mem (w : W)
    (Hnd : NoDup items.*1) (Himmediate : is_deferred mem = false) :
  let '(rs, (_, (_, log))) :=
    (process_unbounded polls me schedule items (mem, (w, [])) : list PassResult * World) in
  ∀ i item pre rs1 post, items !! i = Some item → rs !! i ≠ Some None →
    proj item.1 log = pre ++ EDeliver rs1 (Ok None) :: post →
    rb_shard_end <$> batch_of pre = Some true →
    post = [EEnded; EComplete me (counter_of item.2.1 pre)].
Proof.
  destruct (process_unbounded polls me schedule items (mem, (w, []))) as [rs [mem' [w' log]]]
    eqn:Hrun.
  intros i item pre rs1 post Hi Hr Hlog Hend.
  destruct (passes_accepted polls me schedule items mem w i item Hnd Hi)
    as (r & p & Hri & Hp & Hres & _).
  rewrite Hrun in Hri, Hp. cbn [fst snd] in Hri, Hp. rewrite Hlog in Hp.
  eapply (p_run_unacked me (is_deferred mem) (pass_start mem (task_of me item)));
    [done|done|by apply not_deferred_pending|exact Hp|done|].
  rewrite Hres. destruct r as [[]|]; by simplify_eq/=.
Qed.
End properties.
