(* ===== verification/PassCalls.v ===== *)
(** * What the calls of a pass keep, the pass keeps

    The calls [process_shard] makes, as a record of premises: a relation on worlds
    that each of them keeps is kept by every action of a pass, and by a cycle's
    passes under every schedule. *)

From stdpp Require Import base numbers list strings.
From S2P Require Import Prelude Core Interfaces Metrics CkptDefer Tasks FleetState ShardPass.

Section calls.
Context {W : Type} `{AsyncStreamSource W, AsyncLeaseStore W, ShardConsumerFactory W,
                     MetricsSink W, Clock W}.
Variables (R : relation (FleetMem * W)).
Context `{!PreOrder R}.

(** The relation does not look at the memory, and the calls about one shard keep it:
    those beside the delivery of a batch, and those of a delivery. *)
Record QuietCalls (t : ShardTask) (c : Consumer (W := W)) : Prop := {
  calls_memory {A} (m : M (FleetMem * W) A) : (∀ x, (m x).2.2 = x.2) → keeps R m;
  calls_fetch a : keeps R (lift_m (get_records (st_shard t) a));
  calls_checkpoint n q : keeps R (lift_m (checkpoint (st_shard t) (st_owner t) n q));
  calls_complete n : keeps R (lift_m (mark_complete (st_shard t) (st_owner t) n));
  calls_ended : keeps R (lift_m (consumer_ended c));
  calls_lost : keeps R (lift_m (consumer_lost c));
  calls_lease_lost : keeps R (lift_m (on_lease_lost (st_shard t)));
  calls_shard_end : keeps R (lift_m (on_shard_end (st_shard t)));
  calls_now : keeps R (lift_m instant_now);
}.

Record PassCalls (t : ShardTask) (c : Consumer (W := W)) : Prop := {
  calls_quiet : QuietCalls t c;
  calls_deliver rs : keeps R (lift_m (deliver c rs));
  calls_batch b : keeps R (lift_m (on_batch (batch_metrics (st_shard t) b)));
}.

Section pass.
Variables (t : ShardTask) (c : Consumer (W := W)).

Section quiet.
Hypothesis Hq : QuietCalls t c.

Lemma calls_defer {Q} (f : CkptDefer → Q * CkptDefer) : keeps R (defer_call (W := W) f).
Proof.
  apply (calls_memory _ _ Hq). intros [mem w]. unfold defer_call. cbn.
  destruct (fm_ckpt_defer mem) as [d|]; [|done]. by destruct (f d).
Qed.

Ltac quiet_call :=
  first [apply calls_defer | eapply calls_fetch; exact Hq | eapply calls_checkpoint; exact Hq
        | eapply calls_complete; exact Hq | eapply calls_ended; exact Hq | eapply calls_lost; exact Hq
        | eapply calls_lease_lost; exact Hq | eapply calls_shard_end; exact Hq
        | eapply calls_now; exact Hq | apply (calls_memory _ _ Hq); intros [? ?]; done].

Ltac quiet_step :=
  first [done | apply calm_task_bind; [|intros ?] | split; [quiet_call|intros ?] | progress case_match].

Lemma calm_save_ack n ack : calm_task R (save_ack t c n ack).
Proof. unfold save_ack, save_due, save_now, lost, call. repeat quiet_step. Qed.

Lemma calm_end_shard n : calm_task R (end_shard t c n).
Proof. unfold end_shard, flush_pending, lost, call. repeat quiet_step. Qed.

Lemma calm_defer_do (f : CkptDefer → CkptDefer) : calm_task R (act (defer_do (W := W) f)).
Proof. repeat quiet_step. Qed.
End quiet.

Hypothesis Hc : PassCalls t c.

Lemma calm_deliver_batch n b : calm_task R (deliver_batch t c n b).
Proof.
  pose proof (calls_quiet _ _ Hc) as Hq. unfold deliver_batch, call.
  split; [eapply calls_deliver, Hc|intros [ack|e]]; cbn [task_bind].
  - apply calm_task_bind; [case_match; [by apply calm_save_ack|done]|].
    intros [n'|]; [|done]. split; [eapply calls_batch, Hc|done].
  - apply calm_task_bind; [by apply calm_defer_do|done].
Qed.

Lemma calm_pass_loop polls n a any : calm_task R (pass_loop t c polls n a any).
Proof.
  revert n a any. induction polls as [|polls IH]; intros n a any; cbn [pass_loop]; [done|].
  pose proof (calls_quiet _ _ Hc) as Hq. split; [by eapply calls_fetch|intros [b|e]; [|done]]. cbn [task_bind].
  apply calm_task_bind; [case_match; [done|apply calm_deliver_batch]|intros [n'|]; [|done]].
  destruct (rb_shard_end b); [|by case_match; [|apply IH]].
  apply calm_task_bind; [by apply calm_end_shard|done].
Qed.

Lemma calm_process_shard polls : calm_task R (process_shard t c polls).
Proof.
  split; [|intros r; apply calm_pass_loop]. by apply (calls_memory _ _ (calls_quiet _ _ Hc)).
Qed.
End pass.

(** ** The passes of a cycle *)

Hypothesis Hcreate : ∀ s, keeps R (lift_m (create s)).

Lemma calm_spawn_all polls me items :
  (∀ i c, i ∈ items → PassCalls (task_of me i) c) →
  ∀ x, Forall (calm_task R) (spawn_all polls me items x).1 ∧ R x (spawn_all polls me items x).2.
Proof.
  induction items as [|i items IH]; intros Hcalls x; cbn [spawn_all]; [split; [constructor|reflexivity]|].
  unfold bind. specialize (Hcreate i.1 x). destruct (lift_m (create i.1) x) as [c x1]. cbn [snd] in Hcreate.
  destruct (IH (λ j c Hj, Hcalls j c (list_elem_of_further _ _ _ Hj)) x1) as [Hts Hx1].
  destruct (spawn_all polls me items x1) as [ts x2]. cbn [ret fst snd] in *.
  split; [|by etrans]. constructor; [|done]. apply calm_process_shard, Hcalls. left.
Qed.

Lemma keeps_unbounded polls me schedule items :
  (∀ i c, i ∈ items → PassCalls (task_of me i) c) → keeps R (process_unbounded polls me schedule items).
Proof.
  intros Hcalls x. unfold process_unbounded, bind.
  destruct (calm_spawn_all polls me items Hcalls x) as [Hts Hx].
  destruct (spawn_all polls me items x) as [ts x1]. cbn [fst snd] in *. etrans; [exact Hx|].
  by apply calm_join; [apply _|].
Qed.
End calls.
