(* ===== verification/Pool.v ===== *)
(** * The bounded processing pool ([run_bounded_pool] of [worker/src/fleet.rs])

    In each cycle the shards that are due are queued, a fixed number of pool
    workers take them from the queue and run one pass each, and the outcomes
    decide when each shard is due again. *)

From Stdlib Require Import Lia.
From stdpp Require Import base gmap sets numbers list strings.
From S2P Require Import Prelude Core Coordinator Interfaces Metrics CkptDefer Tasks FleetState.
From S2P Require Import ShardPass.

Definition MAX_IDLE_BACKOFF_MS : N := 5000.

Record PoolItem := {
  pi_shard : ShardId;
  pi_counter : N;
  pi_checkpoint : option string;
  pi_enqueued : Instant;
}.

(** [PoolState] and the vector of outcomes, both behind mutexes. *)
Record PoolMem := {
  pm_queue : list PoolItem;
  pm_outcomes : list (string * PassOutcome);
}.

Definition pop_front {X} : M (PoolMem * X) (option PoolItem) :=
  λ pw, match pm_queue pw.1 with
        | [] => (None, pw)
        | it :: q => (Some it, ({| pm_queue := q; pm_outcomes := pm_outcomes pw.1 |}, pw.2))
        end.

Definition push_outcome {X} (s : string) (o : PassOutcome) : M (PoolMem * X) unit :=
  λ pw, (tt, ({| pm_queue := pm_queue pw.1; pm_outcomes := pm_outcomes pw.1 ++ [(s, o)] |}, pw.2)).

(** ** The schedule *)

Definition fresh_sched (now : Instant) : ShardSched :=
  {| ss_backoff_ms := 0; ss_due_at := now; ss_last_liveness := now |}.

(** The second half of the refresh: an entry for every shard, and who is due. *)
Definition enqueue_due (now : Instant) (x : gmap string ShardSched * list PoolItem)
    (item : string * (N * option string)) : gmap string ShardSched * list PoolItem :=
  let e := default (fresh_sched now) (x.1 !! item.1) in
  (<[item.1 := e]> x.1,
   if (ss_due_at e <=? now)%N
   then x.2 ++ [{| pi_shard := item.1; pi_counter := item.2.1; pi_checkpoint := item.2.2;
                   pi_enqueued := now |}]
   else x.2).

Definition refresh_sched (now : Instant) (items : list (string * (N * option string)))
    (sched : gmap string ShardSched) : gmap string ShardSched * list PoolItem :=
  let owned_now : gset string := list_to_set items.*1 in
  foldl (enqueue_due now) (filter (λ '(s, _), s ∈ owned_now) sched, []) items.

(** One outcome folded into the schedule. *)
Definition idle_backoff (poll_interval_ms backoff_ms : N) : N :=
  if (backoff_ms =? 0)%N then N.max poll_interval_ms 1
  else N.min (u64_mul backoff_ms 2) MAX_IDLE_BACKOFF_MS.

Definition fold_outcome (poll_interval_ms : N) (now : Instant) (sched : gmap string ShardSched)
    (so : string * PassOutcome) : gmap string ShardSched :=
  match so.2 with
  | Active =>
      match sched !! so.1 with
      | Some e => <[so.1 := {| ss_backoff_ms := 0; ss_due_at := now; ss_last_liveness := now |}]> sched
      | None => sched
      end
  | Idle =>
      match sched !! so.1 with
      | Some e =>
          let b := idle_backoff poll_interval_ms (ss_backoff_ms e) in
          <[so.1 := {| ss_backoff_ms := b; ss_due_at := (now + from_millis b)%N;
                       ss_last_liveness := now |}]> sched
      | None => sched
      end
  | Ended | Stopped => delete so.1 sched
  end.

(** The earliest instant any shard is due. *)
Definition earliest_due (sched : gmap string ShardSched) : option Instant :=
  foldr (λ e a, Some (match a with Some b => N.min (ss_due_at e.2) b | None => ss_due_at e.2 end))
    None (map_to_list sched).

Section pool.
Context {W : Type} `{AsyncStreamSource W, AsyncLeaseStore W, ShardConsumerFactory W,
                     MetricsSink W, Clock W}.
Variables (polls : nat) (config : FleetConfig).
Abbreviation PW := (PoolMem * (FleetMem * W))%type.

Definition on_world {A} (m : M W A) : M PW A := lift_m (lift_m m).

Definition item_task (it : PoolItem) : ShardTask :=
  {| st_owner := fc_owner config; st_shard := pi_shard it; st_counter := pi_counter it;
     st_checkpoint := pi_checkpoint it |}.

(** [loop { claim; one pass }]; [false] when a bound of the model ran out. *)
Fixpoint pool_worker (claims : nat) : Task PW bool :=
  match claims with
  | O => Finish false
  | S claims' =>
      item <~ act pop_front ;;
      match item with
      | None => Finish true
      | Some it =>
          now <~ act (on_world instant_now) ;;
          _ <~ act (on_world (on_processing_slot_wait (pi_shard it)
                      (as_millis (duration_since now (pi_enqueued it))))) ;;
          c <~ act (on_world (create (pi_shard it))) ;;
          r <~ lift_task (process_shard (item_task it) c polls) ;;
          match r with
          | None => Finish false
          | Some r =>
              _ <~ act (push_outcome (pi_shard it)
                          (match r with Ok o => o | Err _ => Stopped end)) ;;
              pool_worker claims'
          end
      end
  end.

(** The pool: [k] workers over a queue. *)
Definition run_workers (schedule : list nat) (k : nat) (due : list PoolItem)
  : M (FleetMem * W) (list bool * list (string * PassOutcome)) :=
  λ mw,
    let '(bs, (pm, mw')) :=
      join_all schedule (replicate k (pool_worker (S (length due))))
        ({| pm_queue := due; pm_outcomes := [] |}, mw) in
    ((bs, pm_outcomes pm), mw').

Definition run_bounded_pool (schedule : list nat) (eligible_owned : list (string * (N * option string)))
    (k : nat) (now : Instant) : M (FleetMem * W) (list bool) :=
  due <- (λ mw, let '(sched, due) := refresh_sched now eligible_owned (fm_sched mw.1) in
                (due, (set_sched sched mw.1, mw.2))) ;;
  if bool_decide (due = []) then
    lift_m (on_processing_queue_depth 0) ;;;
    next <- mem_get (λ mem, earliest_due (fm_sched mem)) ;;
    match next with
    | Some next =>
        t <- lift_m instant_now ;;
        let wait := duration_since next t in
        let cap := from_millis (N.max (fc_poll_interval_ms config) 1) in
        lift_m (sleep (N.min wait cap)) ;;; ret []
    | None => ret []
    end
  else
    lift_m (on_processing_queue_depth (N.of_nat (length due))) ;;;
    r <- run_workers schedule k due ;;
    now <- lift_m instant_now ;;
    mem_set (λ mem, set_sched
      (foldl (fold_outcome (fc_poll_interval_ms config) now) (fm_sched mem) r.2) mem) ;;;
    ret r.1.
End pool.

(** ** What the workers own *)

Inductive PoolGhost :=
| GPass (g : PassGhost)      (* a pass in progress *)
| GClaim (s : string)        (* a shard taken from the queue, outcome not recorded *)
| GCap (n : nat).            (* the queue holds at most [n] items from now on *)

Definition passes (gs : list PoolGhost) : list PassGhost :=
  omap (M := list) (λ g, match g with GPass p => Some p | _ => None end) gs.
Definition claims (gs : list PoolGhost) : list string :=
  omap (M := list) (λ g, match g with GClaim s => Some s | _ => None end) gs.

#[local] Instance omap_perm {A B} (f : A → option B) : Proper ((≡ₚ) ==> (≡ₚ)) (omap (M := list) f).
Proof. intros l1 l2 Hl. induction Hl; csimpl; repeat case_match; by econstructor. Qed.

Lemma passes_lifted gs rest : passes ((GPass <$> gs) ++ rest) = gs ++ passes rest.
Proof.
  unfold passes. rewrite omap_app. f_equal. induction gs as [|g gs IH]; [done|]. csimpl. by rewrite IH.
Qed.

Lemma claims_lifted gs rest : claims ((GPass <$> gs) ++ rest) = claims rest.
Proof.
  unfold claims. rewrite omap_app. induction gs as [|g gs IH]; [done|]. csimpl. exact IH.
Qed.

Lemma passes_app l1 l2 : passes (l1 ++ l2) = passes l1 ++ passes l2.
Proof. apply omap_app. Qed.
Lemma claims_app l1 l2 : claims (l1 ++ l2) = claims l1 ++ claims l2.
Proof. apply omap_app. Qed.
Lemma passes_only gs : passes (GPass <$> gs) = gs.
Proof. pose proof (passes_lifted gs []) as H. by rewrite !app_nil_r in H. Qed.
Lemma claims_only gs : claims (GPass <$> gs) = [].
Proof. pose proof (claims_lifted gs []) as H. by rewrite app_nil_r in H. Qed.

Section inv.
Context {W : Type}.
Variables (me : string) (config : FleetConfig) (mem0 : FleetMem) (due : list PoolItem).
Hypothesis Hme : fc_owner config = me.
Abbreviation World := (FleetMem * (W * PLog))%type.
Abbreviation PWorld := (PoolMem * World)%type.
Abbreviation deferred := (is_deferred mem0).

Definition queued (it : PoolItem) : PassGhost :=
  {| pg_shard := pi_shard it; pg_start := pass_start mem0 (item_task config it);
     pg_now := pass_start mem0 (item_task config it);
     pg_pending := pending_of mem0 (pi_shard it) |}.

(** The recorded outcome is the one the pass's run ends with; a stream error counts
    as stopped. *)
Definition recorded (so : string * PassOutcome) (g : PassGhost) : Prop :=
  pg_shard g = so.1 ∧
  (∃ it, it ∈ due ∧ pi_shard it = so.1 ∧ pg_start g = pass_start mem0 (item_task config it)) ∧
  (pass_result (pg_now g) = Some (Some so.2) ∨
   (pass_result (pg_now g) = Some None ∧ so.2 = Stopped)).

(** The pass a shard from the queue has started. *)
Definition started (s : string) (g : PassGhost) : Prop :=
  pg_shard g = s ∧
  ∃ it, it ∈ due ∧ pi_shard it = s ∧ pg_start g = pass_start mem0 (item_task config it).

Definition claims_started (gs : list PoolGhost) : Prop :=
  ∀ s, s ∈ claims gs → ∃ g, g ∈ passes gs ∧ started s g.

(** What a worker that returned [b] leaves. *)
Definition worked (b : bool) (gs : list PoolGhost) : Prop :=
  (b = true → gs = [GCap 0]) ∧ claims_started gs.

Definition cap_ok (q : list PoolItem) (g : PoolGhost) : Prop :=
  match g with GCap n => length q ≤ n | _ => True end.

Definition PoolInv (gs : list PoolGhost) (pw : PWorld) : Prop :=
  ∃ gd, PInv me deferred mem0 (passes gs ++ (queued <$> pm_queue pw.1) ++ gd) pw.2 ∧
    Forall2 recorded (pm_outcomes pw.1) gd ∧
    Forall (cap_ok (pm_queue pw.1)) gs ∧
    (pi_shard <$> due) ≡ₚ
      (pi_shard <$> pm_queue pw.1) ++ (pm_outcomes pw.1).*1 ++ claims gs ∧
    (∀ it, it ∈ pm_queue pw.1 → it ∈ due).

#[export] Instance PoolInv_perm pw : Proper ((≡ₚ) ==> iff) (λ gs, PoolInv gs pw).
Proof.
  assert (∀ gs1 gs2, gs1 ≡ₚ gs2 → PoolInv gs1 pw → PoolInv gs2 pw) as Himp.
  { intros gs1 gs2 Hp (gd & HI & Hrec & Hcap & Hdue & Hq). exists gd. split_and!; try done.
    - eapply PInv_perm; [|exact HI]. unfold passes. by rewrite Hp.
    - by rewrite <- Hp.
    - rewrite Hdue. unfold claims. by rewrite Hp. }
  intros gs1 gs2 Hp. split; apply Himp; by rewrite Hp.
Qed.

Lemma PInv_world gs mem w w' l :
  PInv (W := W) me deferred mem0 gs (mem, (w, l)) → PInv (W := W) me deferred mem0 gs (mem, (w', l)).
Proof. done. Qed.

(** A call that only touches the outside. *)
Lemma rsafe_outside {A B} (h : list PoolGhost) (m : M (W * PLog) A) (P : A → Prop)
    (k : A → Task PWorld B) Q :
  (∀ w l, (m (w, l)).2.2 = l ∧ P (m (w, l)).1) →
  (∀ a, P a → rsafe PoolInv h (k a) Q) →
  rsafe PoolInv h (task_bind (act (on_world (W := W * PLog) m)) k) Q.
Proof.
  intros Hm Hk. cbn [act task_bind rsafe]. intros f [pm [mem [w l]]] HI. exists h.
  unfold on_world, lift_m. cbn. destruct (Hm w l) as [Hl HP].
  destruct (m (w, l)) as [a [w' l']]. cbn in *. subst l'. split; [|by apply Hk]. exact HI.
Qed.

Lemma rsafe_lift {A} (h : list PassGhost) (rest : list PoolGhost) (t : Task World A)
    (Q : A → list PoolGhost → Prop) :
  rsafe (PInv (W := W) me deferred mem0) h t (λ a h', Q a ((GPass <$> h') ++ rest)) →
  rsafe PoolInv ((GPass <$> h) ++ rest) (lift_task t) Q.
Proof.
  intros Hs. eapply rsafe_lift_task; [|exact Hs].
  intros h0 f [pm mw] (gd & HI & Hrec & Hcap & Hdue & Hq). cbn [fst snd] in *.
  rewrite passes_lifted, <- app_assoc in HI. eexists. split; [exact HI|].
  intros h' w' HI'. exists gd. cbn [fst snd]. rewrite passes_lifted, claims_lifted in *.
  split_and!; [by rewrite <- app_assoc|done| |done|done].
  apply Forall_app in Hcap as [_ Hcap]. apply Forall_app. split; [|done].
  apply Forall_fmap, Forall_forall. by intros x _.
Qed.

Lemma rsafe_pop {B} n (k : option PoolItem → Task PWorld B) Q :
  rsafe PoolInv [GCap 0] (k None) Q →
  (∀ it n', it ∈ due → n = S n' →
     rsafe PoolInv [GPass (queued it); GClaim (pi_shard it); GCap n'] (k (Some it)) Q) →
  rsafe PoolInv [GCap n] (task_bind (act pop_front) k) Q.
Proof.
  intros Hnone Hsome. cbn [act task_bind rsafe]. intros f [pm mw] (gd & HI & Hrec & Hcap & Hdue & Hq).
  unfold pop_front. cbn [fst snd] in *. apply Forall_app in Hcap as [Hn Hcap].
  rewrite Forall_singleton in Hn. cbn in Hn. destruct (pm_queue pm) as [|it q] eqn:Hpm.
  - exists [GCap 0]. split; [|exact Hnone]. exists gd. cbn [fst snd]. rewrite Hpm.
    split_and!; [exact HI|done| |exact Hdue|exact Hq]. constructor; [cbn; lia|done].
  - cbn in Hn. destruct n as [|n']; [lia|].
    exists [GPass (queued it); GClaim (pi_shard it); GCap n']. cbn [fst snd].
    split; [|apply Hsome; [apply Hq; left|done]]. exists gd. cbn [fst snd pm_queue pm_outcomes].
    split_and!; [|done| | |intros it' Hin; apply Hq; by right].
    + eapply PInv_perm; [|exact HI]. cbn. solve_Permutation.
    + repeat constructor; cbn; [lia|]. eapply Forall_impl; [exact Hcap|].
      intros [| |m]; cbn; lia.
    + rewrite Hdue. cbn. solve_Permutation.
Qed.

Lemma rsafe_push {B} g o it n (k : unit → Task PWorld B) Q :
  pg_shard g = pi_shard it → it ∈ due → pg_start g = pass_start mem0 (item_task config it) →
  (pass_result (pg_now g) = Some (Some o) ∨ (pass_result (pg_now g) = Some None ∧ o = Stopped)) →
  rsafe PoolInv [GCap n] (k tt) Q →
  rsafe PoolInv [GPass g; GClaim (pi_shard it); GCap n]
    (task_bind (act (push_outcome (pi_shard it) o)) k) Q.
Proof.
  intros Hg Hit Hst Hres Hk. cbn [act task_bind rsafe].
  intros f [pm mw] (gd & HI & Hrec & Hcap & Hdue & Hq).
  exists [GCap n]. split; [|exact Hk]. exists (gd ++ [g]). cbn [fst snd push_outcome pm_queue pm_outcomes] in *.
  split_and!.
  - eapply PInv_perm; [|exact HI]. cbn. solve_Permutation.
  - apply Forall2_app; [done|]. constructor; [|done]. split_and!; [done|by exists it|done].
  - apply Forall_app in Hcap as [Hc Hcap]. apply Forall_app. split; [|done].
    rewrite !Forall_cons in Hc. repeat constructor. apply Hc.
  - rewrite Hdue, fmap_app. cbn. solve_Permutation.
  - done.
Qed.
End inv.

Section workers.
Context {W : Type} `{AsyncStreamSource W, AsyncLeaseStore W, ShardConsumerFactory W,
                     MetricsSink W, Clock W}.
Variables (polls : nat) (config : FleetConfig) (mem0 : FleetMem) (due : list PoolItem).
Abbreviation me := (fc_owner config).
Abbreviation World := (FleetMem * (W * PLog))%type.
Abbreviation safe := (rsafe (PoolInv (W := W) me config mem0 due)).

Lemma unlogged_quiet {A} (m : M W A) w (l : PLog) :
  (unlogged m (w, l)).2.2 = l ∧ True.
Proof. unfold unlogged, logged. cbn. destruct (m w). cbn. by rewrite app_nil_r. Qed.

(** The consumer of a shard, as the logging instance makes it. *)
Definition tagged (s : ShardId) (c0 : Consumer (W := W)) : Consumer (W := W * PLog) := (s, c0).

Lemma safe_worker n :
  safe [GCap n] (pool_worker (W := W * PLog) polls config (S n)) (worked config mem0 due).
Proof.
  induction n as [n IH] using lt_wf_ind. cbn [pool_worker]. apply rsafe_pop.
  { split; [done|]. intros s Hs. by apply elem_of_nil in Hs. }
  intros it n' Hit ->.
  apply (rsafe_outside _ _ _ _ _ _ (λ _, True)); [intros; apply unlogged_quiet|]. intros now _.
  apply (rsafe_outside _ _ _ _ _ _ (λ _, True)); [intros; apply unlogged_quiet|]. intros _ _.
  apply (rsafe_outside _ _ _ _ _ _ (λ c : Consumer (W := W * PLog),
    ∃ c0 : Consumer (W := W), c = tagged (pi_shard it) c0)).
  { intros w l. cbn. unfold bind, unlogged, logged. cbn. destruct (create (pi_shard it) w) as [c0 w'].
    cbn. rewrite app_nil_r. split; [done|]. by exists c0. }
  intros c [c0 ->]. apply rsafe_bind.
  apply (rsafe_lift _ _ _ _ [queued config mem0 it] [GClaim (pi_shard it); GCap n']).
  eapply rsafe_conseq.
  { apply (safe_process_shard me (is_deferred mem0) mem0 (item_task config it) c0 eq_refl
             (pass_start mem0 (item_task config it)) polls (pending_of mem0 (pi_shard it)));
      [done|apply not_deferred_pending]. }
  intros r h (p & pend & -> & Hres & _). cbn [fmap list_fmap app].
  destruct r as [r|].
  2: { split; [done|]. intros s Hs. apply list_elem_of_singleton in Hs as ->.
       eexists. split; [by left|]. split; [done|]. by exists it. }
  apply rsafe_push; [done|done|done| |apply IH; lia].
  cbn. destruct r as [o|e]; cbn in Hres; [by left|by right].
Qed.

Lemma workers_done k (bs : list bool) (hs : list (list PoolGhost)) :
  Forall3 (λ (Q : bool → list PoolGhost → Prop) a h, Q a h)
    (replicate k (worked config mem0 due)) bs hs →
  Forall (λ b, b = true) bs →
  length hs = k ∧ claims (mjoin hs) = [] ∧ ∀ h, h ∈ hs → h = [GCap 0].
Proof.
  revert bs hs. induction k as [|k IH]; intros bs hs HF Hbs; cbn in HF.
  { inversion HF; subst. split_and!; [done|done|]. intros h Hh. by apply elem_of_nil in Hh. }
  apply Forall3_cons_inv_l in HF as (b & bs' & h & hs' & -> & -> & Hh & HF).
  apply Forall_cons in Hbs as [-> Hbs]. destruct (IH _ _ HF Hbs) as (Hlen & Hcl & Hin).
  rewrite (proj1 Hh eq_refl). split_and!; [cbn; by rewrite Hlen|exact Hcl|].
  intros h' Hh'. apply elem_of_cons in Hh' as [->|?]; [done|auto].
Qed.

Lemma workers_started k (bs : list bool) (hs : list (list PoolGhost)) :
  Forall3 (λ (Q : bool → list PoolGhost → Prop) a h, Q a h)
    (replicate k (worked config mem0 due)) bs hs → claims_started config mem0 due (mjoin hs).
Proof.
  revert bs hs. induction k as [|k IH]; intros bs hs HF; cbn in HF.
  { inversion HF; subst. intros s Hs. by apply elem_of_nil in Hs. }
  apply Forall3_cons_inv_l in HF as (b & bs' & h & hs' & -> & -> & [_ Hh] & HF). specialize (IH _ _ HF).
  intros s. cbn. rewrite claims_app, passes_app, elem_of_app. setoid_rewrite elem_of_app.
  intros [(g & ? & ?)%Hh|(g & ? & ?)%IH]; eauto.
Qed.

Lemma pool_start k others w :
  NoDup ((pi_shard <$> due) ++ others) →
  PoolInv (W := W) me config mem0 due
    (mjoin (replicate k [GCap (length due)]) ++ (GPass <$> (untouched me mem0 <$> others)))
    ({| pm_queue := due; pm_outcomes := [] |}, (mem0, (w, []))).
Proof.
  intros Hnd. exists []. cbn [fst snd pm_queue pm_outcomes].
  assert (∀ k, passes (mjoin (replicate k [GCap (length due)])) = [] ∧
               claims (mjoin (replicate k [GCap (length due)])) = [] ∧
               Forall (cap_ok due) (mjoin (replicate k [GCap (length due)]))) as Hcaps.
  { clear. induction k as [|k (IH1 & IH2 & IH3)]; [by split_and!|].
    csimpl. split_and!; [exact IH1|exact IH2|]. constructor; [cbn; lia|exact IH3]. }
  destruct (Hcaps k) as (Hp & Hc & Hcap).
  rewrite passes_app, claims_app, passes_only, claims_only, Hp, Hc. cbn [fmap list_fmap app].
  rewrite !app_nil_r. split_and!; [|constructor| |done|done].
  - apply PInv_start.
    + rewrite fmap_app, <- !list_fmap_compose. unfold compose. cbn. rewrite list_fmap_id.
      by rewrite Permutation_app_comm.
    + apply Forall_app. split; by apply Forall_fmap, Forall_forall.
  - apply Forall_app. split; [done|]. apply Forall_fmap, Forall_forall. by intros g _.
Qed.

(** The pool from an empty log: what is recorded, and what is left, beside shards
    nobody works on. *)
Lemma run_workers_inv schedule k others w :
  NoDup ((pi_shard <$> due) ++ others) →
  let res := (run_workers polls config schedule k due (mem0, (w, []))
              : list bool * list (string * PassOutcome) * World) in
  ∃ gd gq, PInv (W := W) me (is_deferred mem0) mem0
             (gq ++ gd ++ (untouched me mem0 <$> others)) res.2 ∧
    Forall2 (recorded config mem0 due) res.1.2 gd ∧
    res.1.2.*1 ⊆+ pi_shard <$> due ∧
    (0 < k → Forall (λ b, b = true) res.1.1 → res.1.2.*1 ≡ₚ pi_shard <$> due) ∧
    (∀ s, s ∈ pi_shard <$> due → ∃ g, g ∈ gq ++ gd ∧ started config mem0 due s g).
Proof.
  intros Hnd. cbn zeta. unfold run_workers.
  assert (Forall3 safe (replicate k [GCap (length due)])
            (replicate k (pool_worker (W := W * PLog) polls config (S (length due))))
            (replicate k (worked config mem0 due))) as HF.
  { induction k as [|k IH]; constructor; [apply safe_worker|exact IH]. }
  destruct (rsafe_join (PoolInv (W := W) me config mem0 due) schedule _ _ _ _ _ HF
              (pool_start k others w Hnd)) as (hs' & HF' & gd & HI & Hrec & Hcap & Hdue & Hqd).
  destruct (join_all schedule _ _) as [bs [pm [mem' [w' log]]]]. cbn [fst snd] in *.
  rewrite passes_app, passes_only in HI. rewrite claims_app, claims_only, app_nil_r in Hdue.
  apply Forall_app in Hcap as [Hcap _].
  exists gd, (passes (mjoin hs') ++ (queued config mem0 <$> pm_queue pm)). split_and!.
  - eapply PInv_perm; [|exact HI]. solve_Permutation.
  - exact Hrec.
  - rewrite Hdue. by apply submseteq_inserts_l, submseteq_inserts_r.
  - intros Hk Hbs.
    destruct (workers_done k bs hs' HF' Hbs) as (Hlen & Hcl & Hin).
    assert (pm_queue pm = []) as Hq.
    { destruct hs' as [|h hs']; [simpl in Hlen; lia|]. rewrite Forall_forall in Hcap.
      specialize (Hcap (GCap 0)). cbn in Hcap. apply length_zero_iff_nil.
      enough (length (pm_queue pm) ≤ 0) by lia. apply Hcap. rewrite (Hin h) by left. left. }
    rewrite Hq, Hcl in Hdue. rewrite Hdue. cbn. by rewrite app_nil_r.
  - intros s Hs. rewrite Hdue, !elem_of_app in Hs. setoid_rewrite elem_of_app. setoid_rewrite elem_of_app.
    destruct Hs as [(it & -> & Hit)%list_elem_of_fmap|[Hs|Hs]].
    + exists (queued config mem0 it). split; [left; right; apply list_elem_of_fmap; by exists it|].
      split; [done|]. exists it. auto.
    + apply list_elem_of_fmap in Hs as (so & -> & [i Hi]%list_elem_of_lookup).
      destruct (Forall2_lookup_l _ _ _ _ _ Hrec Hi) as (g & Hg & Hshard & Hst & _).
      exists g. split; [right; by eapply list_elem_of_lookup_2|by split].
    + destruct (workers_started _ _ _ HF' _ Hs) as (g & ? & ?). exists g. auto.
Qed.

(** Whatever is not queued is not touched. *)
Lemma workers_touch_queue schedule k w s :
  NoDup (pi_shard <$> due) → s ∉ pi_shard <$> due →
  proj s (run_workers polls config schedule k due (mem0, (w, []))
          : list bool * list (string * PassOutcome) * World).2.2.2 = [].
Proof.
  intros Hnd Hs. destruct (run_workers_inv schedule k [s] w) as (gd & gq & HI & _).
  { rewrite Permutation_app_comm. by constructor. }
  rewrite app_assoc in HI. by eapply untouched_log.
Qed.
End workers.

(** ** The schedule after a cycle *)

Lemma fold_outcome_other poll now sched so s :
  s ≠ so.1 → fold_outcome poll now sched so !! s = sched !! s.
Proof.
  intros Hs. unfold fold_outcome. destruct so.2; repeat case_match; try done;
    by rewrite ?lookup_insert_ne, ?lookup_delete_ne by congruence.
Qed.

Definition next_sched (poll : N) (now : Instant) (o : PassOutcome) (e : option ShardSched)
  : option ShardSched :=
  match o, e with
  | Active, Some _ => Some (fresh_sched now)
  | Idle, Some e =>
      let b := idle_backoff poll (ss_backoff_ms e) in
      Some {| ss_backoff_ms := b; ss_due_at := (now + from_millis b)%N; ss_last_liveness := now |}
  | _, _ => None
  end.

Lemma fold_outcome_same poll now sched s o :
  fold_outcome poll now sched (s, o) !! s = next_sched poll now o (sched !! s).
Proof.
  unfold fold_outcome, next_sched. cbn. destruct o; try (by rewrite lookup_delete_eq);
    destruct (sched !! s) eqn:E; by rewrite ?lookup_insert_eq, ?E.
Qed.

Lemma fold_outcomes_other poll now outs sched s :
  s ∉ outs.*1 → foldl (fold_outcome poll now) sched outs !! s = sched !! s.
Proof.
  revert sched. induction outs as [|so outs IH]; intros sched Hs; [done|].
  rewrite fmap_cons, not_elem_of_cons in Hs. destruct Hs as [Hne Hs].
  cbn [foldl]. rewrite IH by done. by apply fold_outcome_other.
Qed.

Lemma fold_outcomes_in poll now outs sched s o :
  NoDup outs.*1 → (s, o) ∈ outs →
  foldl (fold_outcome poll now) sched outs !! s = next_sched poll now o (sched !! s).
Proof.
  revert sched. induction outs as [|[s' o'] outs IH]; intros sched Hnd Hin;
    [by apply elem_of_nil in Hin|].
  rewrite fmap_cons in Hnd. apply NoDup_cons in Hnd as [Hnin Hnd]. cbn [foldl].
  apply elem_of_cons in Hin as [[= -> ->]|Hin].
  - rewrite fold_outcomes_other by done. apply fold_outcome_same.
  - rewrite IH by done. rewrite fold_outcome_other; [done|]. cbn. intros ->. apply Hnin.
    apply list_elem_of_fmap. by exists (s', o).
Qed.

Lemma refresh_sched_lookup now items sched s :
  NoDup items.*1 →
  (refresh_sched now items sched).1 !! s =
    if decide (s ∈ items.*1) then Some (default (fresh_sched now) (sched !! s)) else None.
Proof.
  intros Hnd. unfold refresh_sched.
  assert (∀ x, NoDup items.*1 → (foldl (enqueue_due now) x items).1 !! s =
    if decide (s ∈ items.*1) then Some (default (fresh_sched now) (x.1 !! s)) else x.1 !! s) as Hgen.
  { clear. induction items as [|[s' nc] items IH]; intros x Hnd; [done|].
    rewrite fmap_cons in Hnd |- *. apply NoDup_cons in Hnd as [Hnin Hnd]. cbn [foldl fst] in *.
    rewrite IH by done. cbn [enqueue_due fst]. destruct (decide (s = s')) as [->|Hne].
    - rewrite lookup_insert_eq, decide_False, decide_True; [done|left|done].
    - rewrite lookup_insert_ne by done. repeat case_decide; set_solver. }
  rewrite Hgen by done. cbn [fst]. rewrite map_lookup_filter.
  destruct (decide (s ∈ items.*1)) as [Hin|Hin].
  - destruct (sched !! s); [|done]. cbn. by rewrite option_guard_True by set_solver.
  - destruct (sched !! s); [|done]. cbn. by rewrite option_guard_False by set_solver.
Qed.

Lemma refresh_sched_due now items sched it :
  NoDup items.*1 →
  it ∈ (refresh_sched now items sched).2 ↔
  ∃ (s : string) n cp, (s, (n, cp)) ∈ items ∧
    it = {| pi_shard := s; pi_counter := n; pi_checkpoint := cp; pi_enqueued := now |} ∧
    (ss_due_at (default (fresh_sched now) (sched !! s)) ≤ now)%N.
Proof.
  intros Hnd. unfold refresh_sched.
  set (sched1 := filter _ sched).
  assert (∀ s, s ∈ items.*1 → default (fresh_sched now) (sched1 !! s)
                            = default (fresh_sched now) (sched !! s)) as Hsub.
  { intros s Hs. unfold sched1. rewrite map_lookup_filter. destruct (sched !! s); [|done].
    cbn. by rewrite option_guard_True by set_solver. }
  assert (∀ x, NoDup items.*1 → it ∈ (foldl (enqueue_due now) x items).2 ↔ it ∈ x.2 ∨
    ∃ (s : string) n cp, (s, (n, cp)) ∈ items ∧
      it = {| pi_shard := s; pi_counter := n; pi_checkpoint := cp; pi_enqueued := now |} ∧
      (ss_due_at (default (fresh_sched now) (x.1 !! s)) ≤ now)%N) as Hgen.
  { clear. induction items as [|[s' [n' cp']] items IH]; intros x Hnd; cbn [foldl]; [set_solver|].
    rewrite fmap_cons in Hnd. apply NoDup_cons in Hnd as [Hnin Hnd].
    rewrite IH by done. cbn [enqueue_due fst snd].
    assert (∀ (s : string) n cp, (s, (n, cp)) ∈ items →
      <[s' := default (fresh_sched now) (x.1 !! s')]> x.1 !! s = x.1 !! s) as Hne.
    { intros s n cp Hin. apply lookup_insert_ne. intros ->. apply Hnin.
      apply list_elem_of_fmap. by exists (s, (n, cp)). }
    destruct (N.leb_spec (ss_due_at (default (fresh_sched now) (x.1 !! s'))) now) as [Hle|Hlt].
    - rewrite elem_of_app, list_elem_of_singleton. split.
      + intros [[?| ->]|(s & n & cp & Hin & -> & Hd)]; [by left|right..].
        * exists s', n', cp'. split; [left|done].
        * exists s, n, cp. rewrite (Hne _ _ _ Hin) in Hd. split; [by right|done].
      + intros [?|(s & n & cp & [[= -> -> ->]|Hin]%elem_of_cons & -> & Hd)]; [by left; left| |].
        * by left; right.
        * right. exists s, n, cp. by rewrite (Hne _ _ _ Hin).
    - split.
      + intros [?|(s & n & cp & Hin & -> & Hd)]; [by left|right].
        exists s, n, cp. rewrite (Hne _ _ _ Hin) in Hd. split; [by right|done].
      + intros [?|(s & n & cp & [[= -> -> ->]|Hin]%elem_of_cons & -> & Hd)]; [by left|lia|].
        right. exists s, n, cp. by rewrite (Hne _ _ _ Hin). }
  rewrite Hgen by done. cbn [fst snd]. rewrite elem_of_nil. split.
  - intros [[]|(s & n & cp & Hin & -> & Hd)]. exists s, n, cp.
    rewrite Hsub in Hd; [done|]. apply list_elem_of_fmap. by exists (s, (n, cp)).
  - intros (s & n & cp & Hin & -> & Hd). right. exists s, n, cp.
    rewrite Hsub; [done|]. apply list_elem_of_fmap. by exists (s, (n, cp)).
Qed.

Lemma refresh_sched_due_keys now items sched s :
  NoDup items.*1 →
  s ∈ pi_shard <$> (refresh_sched now items sched).2 ↔
  s ∈ items.*1 ∧ (ss_due_at (default (fresh_sched now) (sched !! s)) ≤ now)%N.
Proof.
  intros Hnd. rewrite list_elem_of_fmap.
  setoid_rewrite (λ it, refresh_sched_due now items sched it Hnd). split.
  - intros (it & -> & s' & n & cp & Hin & -> & Hle). cbn. split; [|done].
    apply list_elem_of_fmap. by exists (s', (n, cp)).
  - intros [([s' [n cp]] & -> & Hin)%list_elem_of_fmap Hle].
    eexists. split; [|exists s', n, cp; split; [done|split; [reflexivity|done]]]. done.
Qed.

Lemma refresh_sched_nodup now items sched :
  NoDup items.*1 → NoDup (pi_shard <$> (refresh_sched now items sched).2).
Proof.
  intros Hnd. unfold refresh_sched.
  assert (∀ x, ∃ l, pi_shard <$> (foldl (enqueue_due now) x items).2 = (pi_shard <$> x.2) ++ l ∧
            l `sublist_of` items.*1) as Hgen.
  { clear. induction items as [|[s nc] items IH]; intros x; cbn [foldl].
    { exists []. by rewrite app_nil_r. }
    destruct (IH (enqueue_due now x (s, nc))) as (l & Hl & Hsub). rewrite Hl.
    cbn [enqueue_due fst snd]. destruct (_ <=? _)%N; rewrite fmap_cons.
    - exists (s :: l). rewrite fmap_app. cbn. rewrite <- app_assoc. split; [done|by constructor].
    - exists l. split; [done|by constructor]. }
  destruct (Hgen (filter (λ '(s, _), s ∈ (list_to_set items.*1 : gset string)) sched, []))
    as (l & -> & Hsub). cbn. by eapply sublist_NoDup.
Qed.

(** A shard that stays idle: its backoff after [n] idle passes in a row. *)
Lemma idle_backoff_iter poll n :
  (poll < 2 ^ 63)%N →
  Nat.iter (S n) (idle_backoff poll) 0%N =
    match n with
    | O => N.max poll 1
    | S _ => N.min (N.max poll 1 * 2 ^ N.of_nat n) MAX_IDLE_BACKOFF_MS
    end.
Proof.
  intros Hp. induction n as [|n IH]; [done|].
  change (Nat.iter (S (S n)) (idle_backoff poll) 0%N)
    with (idle_backoff poll (Nat.iter (S n) (idle_backoff poll) 0%N)). rewrite IH.
  unfold idle_backoff, u64_mul, MAX_IDLE_BACKOFF_MS.
  rewrite Nat2N.inj_succ, N.pow_succ_r'.
  set (q := (2 ^ N.of_nat n)%N). assert (0 < q)%N by (unfold q; apply N.neq_0_lt_0, N.pow_nonzero; lia).
  destruct n as [|n].
  - subst q. destruct (N.eqb_spec (N.max poll 1) 0) as [|_]; [lia|].
    rewrite N.mod_small by lia. cbn [N.of_nat]. rewrite N.pow_0_r. lia.
  - destruct (N.eqb_spec (N.min (N.max poll 1 * q) 5000) 0) as [|_]; [nia|].
    rewrite N.mod_small by lia. nia.
Qed.

(** What one cycle of the pool promises. *)
Definition pool_contract (config : FleetConfig) (mem : FleetMem)
    (items : list (string * (N * option string))) (now : Instant) (bs : list bool)
    (mem' : FleetMem) (log : PLog) : Prop :=
  let entry s := default (fresh_sched now) (fm_sched mem !! s) in
  let is_due s := s ∈ items.*1 ∧ (ss_due_at (entry s) ≤ now)%N in
  ∃ outs now2, NoDup outs.*1 ∧
    (∀ s, s ∈ outs.*1 → is_due s) ∧
    (Forall (λ b, b = true) bs → ∀ s, is_due s → s ∈ outs.*1) ∧
    (∀ s o, (s, o) ∈ outs → ∃ nc p, (s, nc) ∈ items ∧
       p_run (fc_owner config) (is_deferred mem)
         (pass_start mem (task_of (fc_owner config) (s, nc))) (proj s log) = Some p ∧
       (pass_result p = Some (Some o) ∨ (pass_result p = Some None ∧ o = Stopped))) ∧
    (∀ s o, (s, o) ∈ outs →
       fm_sched mem' !! s = next_sched (fc_poll_interval_ms config) now2 o (Some (entry s))) ∧
    (∀ s, s ∉ outs.*1 →
       fm_sched mem' !! s = if decide (s ∈ items.*1) then Some (entry s) else None) ∧
    (∀ s, ¬ is_due s → proj s log = []).

(** ** Properties *)

Section properties.
Context {W : Type} `{AsyncStreamSource W, AsyncLeaseStore W, ShardConsumerFactory W,
                     MetricsSink W, Clock W}.
Variables (polls : nat) (config : FleetConfig).
Abbreviation World := (FleetMem * (W * PLog))%type.
Abbreviation Result_ := (list bool * World)%type.

(** Nothing is due: the cycle waits, at most. *)
Lemma pool_nothing_due schedule items k now mem (w : W) :
  (refresh_sched now items (fm_sched mem)).2 = [] →
  ∃ w', (run_bounded_pool polls config schedule items k now (mem, (w, [])) : Result_) =
          ([], (set_sched (refresh_sched now items (fm_sched mem)).1 mem, (w', []))).
Proof.
  intros Hd. unfold run_bounded_pool.
  destruct (refresh_sched now items (fm_sched mem)) as [sched1 due] eqn:Href. cbn in Hd. subst due.
  unfold bind at 1. cbn [fst snd]. rewrite Href. rewrite bool_decide_eq_true_2 by done.
  unfold bind, lift_m, mem_get, ret, on_processing_queue_depth, instant_now, sleep, p_metrics,
    p_clock, unlogged, logged. cbn [fst snd].
  destruct (Metrics.on_processing_queue_depth 0 w) as [[] w1]. cbn [fst snd app].
  destruct (earliest_due _) as [next|]; [|by eexists].
  cbn [fst snd app]. destruct (Metrics.instant_now w1) as [t w2]. cbn [fst snd app].
  match goal with |- context [Metrics.sleep ?d w2] => destruct (Metrics.sleep d w2) as [[] w3] end.
  by eexists.
Qed.

(** Something is due: the pool runs on the refreshed schedule, which no pass
    touches, and the outcomes are folded into it. *)
Lemma pool_something_due schedule items k now mem (w : W) :
  let '(sched1, due) := refresh_sched now items (fm_sched mem) in
  due ≠ [] →
  ∃ w1 w2 now2, let res := (run_workers polls config schedule k due (set_sched sched1 mem, (w1, []))
      : list bool * list (string * PassOutcome) * World) in
    (run_bounded_pool polls config schedule items k now (mem, (w, [])) : Result_) =
      (res.1.1, (set_sched (foldl (fold_outcome (fc_poll_interval_ms config) now2)
                              (fm_sched res.2.1) res.1.2) res.2.1, (w2, res.2.2.2))).
Proof.
  destruct (refresh_sched now items (fm_sched mem)) as [sched1 due] eqn:Href. intros Hd.
  unfold run_bounded_pool. unfold bind at 1. cbn [fst snd]. rewrite Href.
  rewrite bool_decide_eq_false_2 by done.
  unfold bind at 1, lift_m at 1. cbn [fst snd on_processing_queue_depth p_metrics].
  unfold unlogged, logged. cbn [fst snd].
  destruct (Metrics.on_processing_queue_depth (N.of_nat (length due)) w) as [[] w1].
  cbn [fst snd app]. exists w1. unfold bind at 1.
  destruct (run_workers polls config schedule k due (set_sched sched1 mem, (w1, [])))
    as [[bs outs] [mem2 [w2 l2]]]. cbn [fst snd].
  unfold bind, lift_m, mem_set, ret, instant_now, p_clock, unlogged, logged. cbn [fst snd].
  destruct (Metrics.instant_now w2) as [now2 w3]. cbn [fst snd]. exists w3, now2.
  by rewrite app_nil_r.
Qed.

(** The contract, from any schedule and memory. *)
Lemma pool_run schedule items k now mem (w : W) :
  NoDup items.*1 → 0 < k →
  let '(bs, (mem', (_, log))) :=
    (run_bounded_pool polls config schedule items k now (mem, (w, [])) : Result_) in
  pool_contract config mem items now bs mem' log.
Proof.
  intros Hnd Hk.
  pose proof (λ s, refresh_sched_lookup now items (fm_sched mem) s Hnd) as Hlook.
  pose proof (λ it, refresh_sched_due now items (fm_sched mem) it Hnd) as Hdue.
  pose proof (refresh_sched_nodup now items (fm_sched mem) Hnd) as Hdnd.
  pose proof (λ s, refresh_sched_due_keys now items (fm_sched mem) s Hnd) as Hdues.
  pose proof (pool_nothing_due schedule items k now mem w) as Hnone.
  pose proof (pool_something_due schedule items k now mem w) as Hsome.
  destruct (refresh_sched now items (fm_sched mem)) as [sched1 due] eqn:Href. cbn [fst snd] in *.
  destruct (decide (due = [])) as [->|Hne].
  - destruct (Hnone eq_refl) as (w' & ->). exists [], now. split_and!.
    + constructor.
    + intros s Hs. by apply elem_of_nil in Hs.
    + intros _ s Hs. by apply Hdues.
    + intros s o Hs. by apply elem_of_nil in Hs.
    + intros s o Hs. by apply elem_of_nil in Hs.
    + intros s _. apply Hlook.
    + intros s _. done.
  - destruct (Hsome Hne) as (w1 & w2 & now2 & Hrun). cbn zeta in Hrun.
    pose proof (run_workers_inv polls config (set_sched sched1 mem) due schedule k [] w1) as Hinv.
    pose proof (workers_touch_queue polls config (set_sched sched1 mem) due schedule k w1) as Hout'.
    rewrite app_nil_r in Hinv. specialize (Hinv Hdnd).
    destruct (run_workers polls config schedule k due (set_sched sched1 mem, (w1, [])))
      as [[bs outs] [mem' [w' log]]]. cbn [fst snd] in *. rewrite Hrun.
    destruct Hinv as (gd & gq & (_ & [_ Hrest] & Hall) & Hrec & Hsub & Hperm & _).
    apply (f_equal fm_sched) in Hrest. cbn in Hrest.
    assert (NoDup outs.*1) as Hond by (by eapply NoDup_submseteq_sub).
    assert (∀ s, s ∈ outs.*1 → s ∈ items.*1 ∧
      (ss_due_at (default (fresh_sched now) (fm_sched mem !! s)) ≤ now)%N) as Hout.
    { intros s Hs. apply Hdues. by eapply elem_of_submseteq. }
    exists outs, now2. split_and!; [done|done| | | | |].
    + intros Hbs s Hs. rewrite (Hperm Hk Hbs). by apply Hdues.
    + intros s o Hin. apply list_elem_of_lookup in Hin as [i Hi].
      destruct (Forall2_lookup_l _ _ _ _ _ Hrec Hi) as (g & Hg & Hshard & (it & Hit & His & Hst) & Hres).
      apply Hdue in Hit as (s' & n & cp & Hin & -> & _). cbn in His, Hshard. subst s'.
      exists (n, cp), (pg_now g). split_and!; [done| |exact Hres].
      rewrite Forall_forall in Hall. destruct (Hall g) as [Hat _].
      { rewrite app_nil_r. apply elem_of_app. right. by eapply list_elem_of_lookup_2. }
      rewrite Hst, Hshard in Hat. exact Hat.
    + intros s o Hin. cbn [fm_sched set_sched]. rewrite (fold_outcomes_in _ _ _ _ _ o) by done.
      rewrite Hrest, Hlook. rewrite decide_True; [done|]. apply Hout, list_elem_of_fmap.
      by exists (s, o).
    + intros s Hs. cbn [fm_sched set_sched]. rewrite fold_outcomes_other by done.
      by rewrite Hrest, Hlook.
    + intros s Hs. apply Hout'; [done|]. by rewrite Hdues.
Qed.

(** C9: one cycle of the bounded pool, however its workers interleave and whatever
    they are answered.  Only due shards are passed, none twice, and if no bound of
    the model ran out every due shard was passed; the calls about a shard are one
    run of the pass protocol, so no two workers ever hold the same shard, and its
    outcome is the one that run ends with (a stream error counts as stopped).
    Afterwards a shard that was active is due at once, an idle one after its next
    backoff, one that ended or stopped is dropped, the others keep their entries,
    and shards no longer owned have none.  Shards that are not due are not touched. *)
Theorem pool_passes_each_due_shard_once schedule items k now mem (w : W)
    (Hnd : NoDup items.*1) (Hk : 0 < k) :
  let '(bs, (mem', (_, log))) :=
    (run_bounded_pool polls config schedule items k now (mem, (w, [])) : list bool * World) in
  pool_contract config mem items now bs mem' log.
Proof. by apply pool_run. Qed.

(** a shard that stays idle is polled ever more rarely: after one idle pass it
    is due a poll interval later (at least a millisecond), whatever the ceiling, and
    after every further one the interval doubles, up to the ceiling of five
    seconds. *)
Theorem idle_backoff_doubles_to_ceiling poll n (Hpoll : (poll < 2 ^ 63)%N) :
  Nat.iter (S n) (idle_backoff poll) 0%N =
    match n with
    | O => N.max poll 1
    | S _ => N.min (N.max poll 1 * 2 ^ N.of_nat n) MAX_IDLE_BACKOFF_MS
    end.
Proof. by apply idle_backoff_iter. Qed.
End properties.
