(* ===== verification/FleetSync.v ===== *)
(** * Shard sync, lease cleanup and release ([worker/src/fleet.rs])

    What the leader does with the lease table once it leads (publish the shards
    that became known, delete the tombstones that are no longer needed), and what
    any worker does when it shuts down (list and release the leases it owns). *)

From Stdlib Require Import Lia.
From stdpp Require Import base gmap sets numbers list strings.
From S2P Require Import Prelude Core Position Coordinator Leader Cleanup Interfaces Metrics.
From S2P Require Import CkptDefer Tasks FleetState.

(** ** What a scan says *)

Definition completed_keys (rows : list RawLease) : gset string :=
  list_to_set (rl_lease_key <$> filter (λ r, rl_completed r = true) rows).
Definition existing_keys (rows : list RawLease) : gset string :=
  list_to_set (rl_lease_key <$> rows).
Definition parents_with_children (rows : list RawLease) : gset string :=
  list_to_set (rows ≫= rl_parents).

Definition checkpoint_in (rows : list RawLease) (k : string) : option string :=
  find (λ r, bool_decide (rl_lease_key r = k)) rows ≫= rl_checkpoint.

(** The seed of a child: from the checkpoints its parents' rows carry. *)
Definition child_cp (rows : list RawLease) (parents : list string) : option string :=
  child_seed_checkpoint (checkpoint_in rows <$> parents).

(** [m.parents.iter().all(|p| completed.contains(p)) && !existing.contains(&m.id)]. *)
Definition publishable (rows : list RawLease) (m : ShardMeta) : bool :=
  forallb (λ p, bool_decide (p ∈ completed_keys rows)) (sm_parents m) &&
  bool_decide (sm_id m ∉ existing_keys rows).

Section fleet.
Context `{HashOrder} {W : Type} `{AsyncStreamSource W, AsyncLeaseStore W, MetricsSink W}.
Variable config : FleetConfig.
Abbreviation F := (M (FleetMem * W)).

(** [let _ = self.leases.create_shard_lease(..).await]. *)
Definition publish (m : ShardMeta) (cp : option string) : F unit :=
  _ <- lift_m (create_shard_lease (sm_id m) (sm_parents m) cp) ;; ret tt.

Definition seed_roots (rows : list RawLease) : F (Result unit WorkerError) :=
  lift_m on_describe_stream ;;;
  ms <-? lift_m describe_shards ;;
  for_each (λ m, if publishable rows m
                 then publish m (seed_checkpoint (fc_initial_position config)) else ret tt) ms ;;;
  mem_set (λ mem, set_sync {| sy_seeded := true;
                              sy_child_synced := sy_child_synced (fm_sync_state mem) |} mem) ;;;
  ret (Ok tt).

(** The children of one completed parent; [true] when it was synced. *)
Definition sync_parent (rows : list RawLease) (parent : string) : F bool :=
  lift_m on_describe_stream ;;;
  r <- lift_m (describe_child_shards parent) ;;
  match r with
  | Ok children =>
      for_each (λ c, if bool_decide (sm_id c ∉ existing_keys rows)
                     then publish c (child_cp rows (sm_parents c)) else ret tt) children ;;;
      ret true
  | Err _ =>
      lift_m on_describe_stream ;;;
      r <- lift_m describe_shards ;;
      match r with
      | Ok metas =>
          for_each (λ m, if publishable rows m
                         then publish m (child_cp rows (sm_parents m)) else ret tt) metas
      | Err _ => ret tt
      end ;;;
      ret false
  end.

(** Parents that are complete and whose children are neither synced nor published. *)
Definition unsynced (rows : list RawLease) (synced : gset string) (p : string) : bool :=
  negb (bool_decide (p ∈ synced) || bool_decide (p ∈ parents_with_children rows)).

Fixpoint sync_parents (rows : list RawLease) (synced : gset string) (ps : list string)
  : F (list string) :=
  match ps with
  | [] => ret []
  | p :: ps' =>
      if unsynced rows synced p then
        ok <- sync_parent rows p ;;
        l <- sync_parents rows synced ps' ;;
        ret (if ok : bool then p :: l else l)
      else sync_parents rows synced ps'
  end.

Definition leader_shard_sync (rows : list RawLease) : F (Result unit WorkerError) :=
  s <- mem_get fm_sync_state ;;
  if negb (sy_seeded s) then seed_roots rows
  else
    newly <- sync_parents rows (sy_child_synced s) (hash_set_order (completed_keys rows)) ;;
    mem_set (λ mem, set_sync {| sy_seeded := sy_seeded (fm_sync_state mem);
                                sy_child_synced := list_to_set newly ∪
                                                   sy_child_synced (fm_sync_state mem) |} mem) ;;;
    ret (Ok tt).

(** ** Cleanup *)

Definition lease_state_of (r : RawLease) : LeaseState :=
  {| st_completed := rl_completed r;
     st_processing := rl_completed r ||
       match from_checkpoint (rl_checkpoint r) with After _ => true | _ => false end |}.

Definition lease_states (rows : list RawLease) : gmap string LeaseState :=
  collect rl_lease_key lease_state_of
    (filter (λ r, rl_lease_key r ≠ LEADER_LEASE_KEY) rows).

Definition cleanup_completed_leases (rows : list RawLease) : F unit :=
  for_each (λ k, _ <- lift_m (delete_lease k) ;; ret tt)
    (leases_safe_to_delete (shard_metas_from_leases rows) (lease_states rows)).

(** ** Ownership and release *)

Definition owns (r : RawLease) : bool :=
  bool_decide (rl_owner r = Some (fc_owner config)) && negb (rl_completed r).

Definition owned_shards : F (Result (list ShardId) WorkerError) :=
  rows <-? lift_m list_leases ;;
  ret (Ok (rl_lease_key <$>
    filter (λ r, owns r && bool_decide (rl_lease_key r ≠ LEADER_LEASE_KEY) = true) rows)).

(** Flush the deferred checkpoint; the counter to release at. *)
Definition flush_for_release (k : string) (counter : N) : F N :=
  p <- defer_call (λ d, take_pending d k) ;;
  c <- match p with
       | Some (Some q) =>
           r <- lift_m (checkpoint k (fc_owner config) counter q) ;;
           ret (match r with Ok c => c | Err _ => counter end)
       | _ => ret counter
       end ;;
  defer_do (λ d, forget d k) ;;;
  ret c.

Definition release_row (r : RawLease) : F bool :=
  c <- flush_for_release (rl_lease_key r) (rl_lease_counter r) ;;
  o <- lift_m (release (rl_lease_key r) (fc_owner config) c) ;;
  ret (is_ok o).

Fixpoint release_rows (rows : list RawLease) (released : nat) : F nat :=
  match rows with
  | [] => ret released
  | r :: rows' =>
      if owns r then
        ok <- release_row r ;; release_rows rows' (if ok : bool then S released else released)
      else release_rows rows' released
  end.

Definition release_owned : F (Result nat WorkerError) :=
  rows <-? lift_m list_leases ;;
  n <- release_rows rows 0 ;; ret (Ok n).
End fleet.

(** ** What sync and release look like from outside *)

Inductive SEvent :=
| SDescribe (r : Result (list ShardMeta) WorkerError)
| SChildren (parent : string) (r : Result (list ShardMeta) WorkerError)
| SPublish (k : string) (parents : list string) (cp : option string)
| SDelete (k : string)
| SCkpt (k owner : string) (counter : N) (q : string) (r : Result N WorkerError)
| SRelease (k owner : string) (counter : N) (ok : bool).

Section logging.
Context {W : Type} `{AsyncStreamSource W, AsyncLeaseStore W, MetricsSink W}.

Definition unlogged {A} (m : M W A) : M (W * list SEvent) A := logged m (λ _, []).

#[export] Instance s_source : AsyncStreamSource (W * list SEvent) := {|
  describe_shards := logged describe_shards (λ r, [SDescribe r]);
  get_records s after := unlogged (get_records s after);
  describe_child_shards p := logged (describe_child_shards p) (λ r, [SChildren p r]);
|}.
#[export] Instance s_leases : AsyncLeaseStore (W * list SEvent) := {|
  get k := unlogged (get k);
  list_leases := unlogged list_leases;
  acquire k o := unlogged (acquire k o);
  renew k o n := unlogged (renew k o n);
  heartbeat w := unlogged (heartbeat w);
  checkpoint k o n q := logged (checkpoint k o n q) (λ r, [SCkpt k o n q r]);
  mark_complete k o n := unlogged (mark_complete k o n);
  release k o n := logged (release k o n) (λ r, [SRelease k o n (is_ok r)]);
  delete_lease k := logged (delete_lease k) (λ _, [SDelete k]);
  create_shard_lease k ps cp := logged (create_shard_lease k ps cp) (λ _, [SPublish k ps cp]);
  try_acquire_leadership k o e := unlogged (try_acquire_leadership k o e);
|}.
#[export] Instance s_metrics : MetricsSink (W * list SEvent) := {|
  on_batch m := unlogged (on_batch m);
  on_shard_end s := unlogged (on_shard_end s);
  on_describe_stream := unlogged on_describe_stream;
  on_lease_acquired s := unlogged (on_lease_acquired s);
  on_lease_lost s := unlogged (on_lease_lost s);
  on_leases_held n := unlogged (on_leases_held n);
  on_processing_slot_wait s n := unlogged (on_processing_slot_wait s n);
  on_max_processing_concurrency n := unlogged (on_max_processing_concurrency n);
  on_processing_queue_depth n := unlogged (on_processing_queue_depth n);
|}.
End logging.

(** ** Computations and the events they append *)

Section emits.
Context {W : Type}.
Abbreviation World := (FleetMem * (W * list SEvent))%type.

(** From any state, [m] appends events related to what it returns and to the
    memory before and after. *)
Definition emits {A} (m : M World A)
    (Q : FleetMem → A → FleetMem → list SEvent → Prop) : Prop :=
  ∀ mem w l, ∃ evs,
    (m (mem, (w, l))).2.2.2 = l ++ evs ∧
    Q mem (m (mem, (w, l))).1 (m (mem, (w, l))).2.1 evs.

Lemma emits_conseq {A} (m : M World A) (Q Q' : FleetMem → A → FleetMem → list SEvent → Prop) :
  emits m Q' → (∀ mem a mem' evs, Q' mem a mem' evs → Q mem a mem' evs) → emits m Q.
Proof. intros Hm HQ mem w l. destruct (Hm mem w l) as (evs & ? & ?). eauto. Qed.

Lemma emits_ret {A} (a : A) (Q : FleetMem → A → FleetMem → list SEvent → Prop) :
  (∀ mem, Q mem a mem []) → emits (ret a) Q.
Proof. intros HQ mem w l. exists []. by rewrite app_nil_r. Qed.

Lemma emits_bind {A B} (m : M World A) (k : A → M World B) Q1
    (Q : FleetMem → B → FleetMem → list SEvent → Prop) :
  emits m Q1 →
  (∀ a, emits (k a) (λ mem' b mem'' e2, ∀ mem e1, Q1 mem a mem' e1 → Q mem b mem'' (e1 ++ e2))) →
  emits (bind m k) Q.
Proof.
  intros Hm Hk mem w l. destruct (Hm mem w l) as (e1 & Hl & H1). unfold bind.
  destruct (m (mem, (w, l))) as [a [mem' [w' l']]]. cbn in *. subst l'.
  destruct (Hk a mem' w' (l ++ e1)) as (e2 & Hl2 & H2). exists (e1 ++ e2).
  rewrite Hl2. split; [by rewrite app_assoc|]. by apply H2.
Qed.

Lemma emits_call {A} (m : M W A) (ev : A → list SEvent)
    (Q : FleetMem → A → FleetMem → list SEvent → Prop) :
  (∀ mem a, Q mem a mem (ev a)) → emits (lift_m (logged m ev)) Q.
Proof.
  intros HQ mem w l. exists (ev (m w).1). unfold lift_m, logged. cbn.
  destruct (m w) as [a w']. cbn. split; [done|]. apply HQ.
Qed.

Lemma emits_get {A} (f : FleetMem → A) (Q : FleetMem → A → FleetMem → list SEvent → Prop) :
  (∀ mem, Q mem (f mem) mem []) → emits (mem_get f) Q.
Proof. intros HQ mem w l. exists []. by rewrite app_nil_r. Qed.

Lemma emits_set (f : FleetMem → FleetMem) (Q : FleetMem → unit → FleetMem → list SEvent → Prop) :
  (∀ mem, Q mem tt (f mem) []) → emits (mem_set f) Q.
Proof. intros HQ mem w l. exists []. by rewrite app_nil_r. Qed.

(** The common case: the first computation leaves the memory alone. *)
Lemma emits_step {A B} (m : M World A) (k : A → M World B) (P : A → list SEvent → Prop)
    (Q : FleetMem → B → FleetMem → list SEvent → Prop) :
  emits m (λ mem a mem' e, mem' = mem ∧ P a e) →
  (∀ a e1, P a e1 → emits (k a) (λ mem b mem' e2, Q mem b mem' (e1 ++ e2))) →
  emits (bind m k) Q.
Proof.
  intros Hm Hk mem w l. destruct (Hm mem w l) as (e1 & Hl & Hmem & H1). unfold bind.
  destruct (m (mem, (w, l))) as [a [mem' [w' l']]]. cbn in *. subst l' mem'.
  destruct (Hk a e1 H1 mem w' (l ++ e1)) as (e2 & Hl2 & H2). exists (e1 ++ e2).
  rewrite Hl2. by rewrite app_assoc.
Qed.

(** A loop whose bodies leave the memory alone. *)
Lemma emits_for_each {A} (body : A → M World unit) (ev : A → list SEvent) l :
  (∀ x, x ∈ l → emits (body x) (λ mem _ mem' e, mem' = mem ∧ e = ev x)) →
  emits (for_each body l) (λ mem _ mem' e, mem' = mem ∧ e = l ≫= ev).
Proof.
  induction l as [|x l IH]; intros Hb; cbn [for_each]; [by apply emits_ret|].
  eapply (emits_step _ _ (λ _ e, e = ev x)); [apply Hb; set_solver|].
  intros [] e1 ->. eapply emits_conseq; [apply IH; set_solver|].
  intros mem _ mem' e [-> ->]. done.
Qed.
End emits.

(** ** The shape of a sync *)

Definition published (cp : ShardMeta → option string) (ms : list ShardMeta) : list SEvent :=
  (λ m, SPublish (sm_id m) (sm_parents m) (cp m)) <$> ms.

Definition new_to (rows : list RawLease) (ms : list ShardMeta) : list ShardMeta :=
  filter (λ m, sm_id m ∉ existing_keys rows) ms.
Definition open_to (rows : list RawLease) (ms : list ShardMeta) : list ShardMeta :=
  filter (λ m, publishable rows m = true) ms.

(** What syncing one parent may do, and whether it counts as synced. *)
Inductive parent_trace (rows : list RawLease) (p : string) : bool → list SEvent → Prop :=
| pt_children cs :
    parent_trace rows p true
      (SChildren p (Ok cs) :: published (λ m, child_cp rows (sm_parents m)) (new_to rows cs))
| pt_fallback e ms :
    parent_trace rows p false
      (SChildren p (Err e) :: SDescribe (Ok ms) ::
       published (λ m, child_cp rows (sm_parents m)) (open_to rows ms))
| pt_failed e e' :
    parent_trace rows p false [SChildren p (Err e); SDescribe (Err e')].

Section sync.
Context `{HashOrder} {W : Type} `{AsyncStreamSource W, AsyncLeaseStore W, MetricsSink W}.
Variable config : FleetConfig.
Abbreviation World := (FleetMem * (W * list SEvent))%type.

Lemma emits_quiet (m : M W unit) :
  emits (lift_m (unlogged m)) (λ mem _ mem' e, mem' = mem ∧ e = []).
Proof. by apply emits_call. Qed.

Lemma emits_publish m cp :
  emits (publish (W := W * list SEvent) m cp)
    (λ mem _ mem' e, mem' = mem ∧ e = [SPublish (sm_id m) (sm_parents m) cp]).
Proof.
  unfold publish. eapply (emits_step _ _ (λ _ e, e = [SPublish (sm_id m) (sm_parents m) cp])).
  - by apply emits_call.
  - intros r e1 ->. by apply emits_ret.
Qed.

Lemma bind_published (P : ShardMeta → Prop) `{∀ m, Decision (P m)} cp ms :
  (ms ≫= λ m, if decide (P m) then [SPublish (sm_id m) (sm_parents m) (cp m)] else []) =
  published cp (filter P ms).
Proof.
  induction ms as [|m ms IH]; [done|]. csimpl. rewrite IH, filter_cons.
  unfold published. by destruct (decide (P m)).
Qed.

(** A loop that publishes the shards that pass a test. *)
Lemma emits_publish_loop (P : ShardMeta → Prop) `{∀ m, Decision (P m)} (b : ShardMeta → bool)
    (cp : ShardMeta → option string) ms :
  (∀ m, b m = true ↔ P m) →
  emits (for_each (λ m, if b m then publish (W := W * list SEvent) m (cp m) else ret tt) ms)
    (λ mem _ mem' e, mem' = mem ∧ e = published cp (filter P ms)).
Proof.
  intros Hb. rewrite <- bind_published. apply emits_for_each. intros m _.
  destruct (b m) eqn:E.
  - rewrite decide_True by (by apply Hb). apply emits_publish.
  - rewrite decide_False by (rewrite <- Hb; by rewrite E). by apply emits_ret.
Qed.

Lemma emits_sync_parent rows p :
  emits (sync_parent (W := W * list SEvent) rows p)
    (λ mem b mem' e, mem' = mem ∧ parent_trace rows p b e).
Proof.
  unfold sync_parent. eapply (emits_step _ _ (λ _ e, e = [])); [apply emits_quiet|].
  intros [] ? ->. eapply (emits_step _ _ (λ r e, e = [SChildren p r])); [by apply emits_call|].
  intros [cs|err] ? ->.
  - eapply (emits_step _ _ (λ _ e, e =
      published (λ m, child_cp rows (sm_parents m)) (new_to rows cs))).
    + apply (emits_publish_loop _ _ (λ m, child_cp rows (sm_parents m))).
      intros m. by rewrite bool_decide_eq_true.
    + intros [] ? ->. apply emits_ret. intros mem. split; [done|].
      rewrite app_nil_r. constructor.
  - eapply (emits_step _ _ (λ _ e, e = [])); [apply emits_quiet|]. intros [] ? ->.
    eapply (emits_step _ _ (λ r e, e = [SDescribe r])); [by apply emits_call|].
    intros [ms|err'] ? ->.
    + eapply (emits_step _ _ (λ _ e, e =
        published (λ m, child_cp rows (sm_parents m)) (open_to rows ms))).
      * by apply (emits_publish_loop _ (publishable rows) (λ m, child_cp rows (sm_parents m))).
      * intros [] ? ->. apply emits_ret. intros mem. split; [done|].
        rewrite app_nil_r. constructor.
    + eapply (emits_step _ _ (λ _ e, e = [])); [by apply emits_ret|].
      intros [] ? ->. apply emits_ret. intros mem. split; [done|]. constructor.
Qed.

(** One segment per parent: the parent, whether it was synced, and its events. *)
Abbreviation Segment := ((string * bool * list SEvent)%type).
Definition good_segment (rows : list RawLease) (s : Segment) : Prop :=
  parent_trace rows s.1.1 s.1.2 s.2.

Lemma emits_sync_parents rows synced ps :
  emits (sync_parents (W := W * list SEvent) rows synced ps)
    (λ mem newly mem' e, mem' = mem ∧ ∃ segs : list Segment,
       Forall (good_segment rows) segs ∧
       (λ s, s.1.1) <$> segs = filter (λ p, unsynced rows synced p = true) ps ∧
       e = segs ≫= snd ∧
       newly = (λ s, s.1.1) <$> filter (λ s, s.1.2 = true) segs).
Proof.
  induction ps as [|p ps IH]; cbn [sync_parents].
  { apply emits_ret. intros mem. split; [done|]. by exists []. }
  rewrite filter_cons. destruct (unsynced rows synced p); [|exact IH].
  rewrite decide_True by done.
  eapply (emits_step _ _ (λ b e, parent_trace rows p b e)); [apply emits_sync_parent|].
  intros b e1 Hp. eapply emits_step; [exact IH|].
  intros newly e2 (segs & Hall & Hps & -> & ->). apply emits_ret. intros mem. split; [done|].
  exists ((p, b, e1) :: segs). split_and!.
  - by constructor.
  - csimpl. by rewrite Hps.
  - csimpl. by rewrite app_nil_r.
  - rewrite filter_cons. by destruct b.
Qed.

Lemma emits_seed_roots rows :
  emits (seed_roots (W := W * list SEvent) config rows)
    (λ mem r mem' e, match r with
       | Ok _ => ∃ ms, e = SDescribe (Ok ms) ::
             published (λ _, seed_checkpoint (fc_initial_position config)) (open_to rows ms) ∧
           mem' = set_sync {| sy_seeded := true;
                              sy_child_synced := sy_child_synced (fm_sync_state mem) |} mem
       | Err err => e = [SDescribe (Err err)] ∧ mem' = mem
       end).
Proof.
  unfold seed_roots. eapply (emits_step _ _ (λ _ e, e = [])); [apply emits_quiet|].
  intros [] ? ->. unfold bind_ok.
  eapply (emits_step _ _ (λ r e, e = [SDescribe r])); [by apply emits_call|].
  intros [ms|err] ? ->; [|by apply emits_ret].
  eapply (emits_step _ _ (λ _ e, e =
    published (λ _, seed_checkpoint (fc_initial_position config)) (open_to rows ms))).
  { by apply (emits_publish_loop _ (publishable rows)
                (λ _, seed_checkpoint (fc_initial_position config))). }
  intros [] ? ->. eapply emits_bind; [by apply (emits_set _ (λ mem _ mem' e,
    e = [] ∧ mem' = set_sync {| sy_seeded := true;
                                sy_child_synced := sy_child_synced (fm_sync_state mem) |} mem))|].
  intros []. apply emits_ret. intros mem' mem e1 [-> ->]. exists ms. by rewrite !app_nil_r.
Qed.
End sync.

(** ** The shape of a release *)

(** What releasing one row does, given the ack the memory holds for it: flush it
    first, then release at the counter the flush returned. *)
Inductive release_trace (me : string) (pending : option string) (r : RawLease)
  : bool → list SEvent → Prop :=
| rt_plain ok :
    pending = None →
    release_trace me pending r ok [SRelease (rl_lease_key r) me (rl_lease_counter r) ok]
| rt_flushed q n ok :
    pending = Some q →
    release_trace me pending r ok
      [SCkpt (rl_lease_key r) me (rl_lease_counter r) q (Ok n); SRelease (rl_lease_key r) me n ok]
| rt_unflushed q e ok :
    pending = Some q →
    release_trace me pending r ok
      [SCkpt (rl_lease_key r) me (rl_lease_counter r) q (Err e);
       SRelease (rl_lease_key r) me (rl_lease_counter r) ok].

Section release.
Context {W : Type} `{AsyncStreamSource W, AsyncLeaseStore W, MetricsSink W}.
Variable config : FleetConfig.
Abbreviation World := (FleetMem * (W * list SEvent))%type.
Abbreviation me := (fc_owner config).

(** The memory after shard [k] was flushed and forgotten. *)
Definition forgotten (k : string) (mem : FleetMem) : FleetMem :=
  set_defer ((λ d, forget d k) <$> fm_ckpt_defer mem) mem.

Lemma forgotten_pending k k' mem :
  pending_of (forgotten k mem) k' = if decide (k' = k) then None else pending_of mem k'.
Proof.
  unfold forgotten, pending_of. cbn. destruct (fm_ckpt_defer mem) as [d|]; cbn;
    [|by destruct (decide _)].
  unfold resume_from, forget. cbn. destruct (decide (k' = k)) as [->|Hne].
  - by rewrite lookup_delete_eq.
  - by rewrite lookup_delete_ne.
Qed.

Lemma forget_take d k : forget (take_pending d k).2 k = forget d k.
Proof.
  unfold forget, take_pending. destruct (cd_state d !! k); [|done].
  unfold set_state. cbn. by rewrite delete_insert_eq.
Qed.

Lemma emits_take k :
  emits (W := W) (defer_call (λ d, take_pending d k))
    (λ mem p mem' e, e = [] ∧ forgotten k mem' = forgotten k mem ∧
       (p ≫= λ q, q) = pending_of mem k).
Proof.
  intros mem w l. exists []. rewrite app_nil_r. unfold defer_call, forgotten, pending_of. cbn [fst].
  destruct (fm_ckpt_defer mem) as [d|] eqn:Hd; [|by cbn; rewrite Hd].
  destruct (take_pending_spec d k) as [Ht _]. pose proof (forget_take d k) as Hf.
  destruct (take_pending d k) as [q d']. cbn in *. split_and!; [done..| |done].
  unfold set_defer. cbn. by rewrite Hf.
Qed.

Lemma emits_forget k :
  emits (W := W) (defer_do (λ d, forget d k))
    (λ mem _ mem' e, e = [] ∧ mem' = forgotten k mem).
Proof. intros mem w l. exists []. by rewrite app_nil_r. Qed.

Lemma emits_release_row r :
  emits (release_row (W := W * list SEvent) config r)
    (λ mem ok mem' e, mem' = forgotten (rl_lease_key r) mem ∧
       release_trace me (pending_of mem (rl_lease_key r)) r ok e).
Proof.
  unfold release_row, flush_for_release.
  eapply (emits_bind _ _ (λ mem n mem' e, mem' = forgotten (rl_lease_key r) mem ∧
    ∀ ok, release_trace me (pending_of mem (rl_lease_key r)) r ok
            (e ++ [SRelease (rl_lease_key r) me n ok]))).
  - eapply emits_bind; [apply emits_take|]. intros p.
    eapply (emits_bind _ _ (λ mem n mem' e, mem' = mem ∧
      ∀ ok, release_trace me (p ≫= λ q, q) r ok (e ++ [SRelease (rl_lease_key r) me n ok]))).
    + destruct p as [[q|]|]; [|apply emits_ret; intros mem; split; [done|by constructor]..].
      eapply (emits_step _ _ (λ o e, e = [SCkpt (rl_lease_key r) me (rl_lease_counter r) q o])).
      { by apply emits_call. }
      intros [n|err] ? ->; apply emits_ret; intros mem; (split; [done|]); intros ok;
        by econstructor.
    + intros n. eapply emits_bind; [apply emits_forget|].
      intros []. apply emits_ret. intros mem3 mem2 e3 [-> ->] mem1 e2 [-> Htr] mem0 e1 (-> & Hf & Hp).
      rewrite Hf. split; [done|]. intros ok. rewrite <- Hp. cbn. rewrite !app_nil_r. apply Htr.
  - intros n. eapply (emits_step _ _ (λ o e, e = [SRelease (rl_lease_key r) me n (is_ok o)])).
    { by apply emits_call. }
    intros o ? ->. apply emits_ret. intros mem mem0 e1 [-> Htr]. split; [done|]. apply Htr.
Qed.

(** One segment per owned row: the row, whether it was released, and its events. *)
Abbreviation RSegment := ((RawLease * bool * list SEvent)%type).

Definition forgotten_all (ks : list string) (mem : FleetMem) : FleetMem :=
  foldl (λ mem k, forgotten k mem) mem ks.

Lemma forgotten_all_pending ks k mem :
  pending_of (forgotten_all ks mem) k = if decide (k ∈ ks) then None else pending_of mem k.
Proof.
  unfold forgotten_all. revert mem. induction ks as [|k' ks IH]; intros mem; cbn [foldl].
  { by rewrite decide_False by apply not_elem_of_nil. }
  rewrite IH, forgotten_pending. repeat case_decide; set_solver.
Qed.

Lemma emits_release_rows rows n0 :
  NoDup (rl_lease_key <$> rows) →
  emits (release_rows (W := W * list SEvent) config rows n0)
    (λ mem n mem' e, ∃ segs : list RSegment,
       (λ s, s.1.1) <$> segs = filter (λ r, owns config r = true) rows ∧
       Forall (λ s : RSegment,
         release_trace me (pending_of mem (rl_lease_key s.1.1)) s.1.1 s.1.2 s.2) segs ∧
       e = segs ≫= snd ∧ n = n0 + length (filter (λ s : RSegment, s.1.2 = true) segs) ∧
       mem' = forgotten_all (rl_lease_key <$> filter (λ r, owns config r = true) rows) mem).
Proof.
  revert n0. induction rows as [|r rows IH]; intros n0 Hnd; cbn [release_rows].
  { apply emits_ret. intros mem. exists []. by split_and!. }
  apply NoDup_cons in Hnd as [Hnin Hnd]. rewrite filter_cons.
  destruct (owns config r); [|by apply IH]. rewrite decide_True by done.
  eapply emits_bind; [apply emits_release_row|]. intros ok.
  eapply emits_conseq; [by apply IH|].
  intros mem1 n mem2 e (segs & Hs & Hall & -> & -> & ->) mem e1 [-> Htr].
  exists ((r, ok, e1) :: segs). split_and!.
  - csimpl. by rewrite Hs.
  - constructor; [done|]. rewrite Forall_forall in *. intros s Hin. specialize (Hall s Hin).
    rewrite forgotten_pending, decide_False in Hall; [done|]. intros Heq. apply Hnin.
    rewrite <- Heq. apply list_elem_of_fmap. exists s.1.1. split; [done|].
    assert (s.1.1 ∈ filter (λ r, owns config r = true) rows) as Hf.
    { rewrite <- Hs. apply list_elem_of_fmap. by exists s. }
    by apply list_elem_of_filter in Hf as [_ ?].
  - done.
  - rewrite filter_cons. destruct ok;
      [rewrite decide_True by done|rewrite decide_False by done]; cbn [length]; lia.
  - done.
Qed.
End release.

(** ** Cleanup and ownership *)

Lemma lease_states_lookup rows k st :
  NoDup (rl_lease_key <$> rows) →
  lease_states rows !! k = Some st ↔
  k ≠ LEADER_LEASE_KEY ∧ ∃ r, r ∈ rows ∧ rl_lease_key r = k ∧ st = lease_state_of r.
Proof.
  intros Hnd. unfold lease_states.
  rewrite (collect_lookup rl_lease_key lease_state_of) by by apply NoDup_key_filter.
  setoid_rewrite list_elem_of_filter. naive_solver.
Qed.

Lemma shard_key_not_leader k : is_shard_key k = true → k ≠ LEADER_LEASE_KEY.
Proof. intros Hk ->. done. Qed.

Lemma started_iff r :
  st_processing (lease_state_of r) || st_completed (lease_state_of r) = true ↔
  rl_completed r = true ∨ ∃ q, from_checkpoint (rl_checkpoint r) = After q.
Proof.
  unfold lease_state_of. cbn.
  destruct (rl_completed r), (from_checkpoint (rl_checkpoint r)); cbn; naive_solver.
Qed.

Lemma deleted_key_iff rows k :
  NoDup (rl_lease_key <$> rows) →
  k ∈ leases_safe_to_delete (shard_metas_from_leases rows) (lease_states rows) ↔
  ∃ r, r ∈ rows ∧ rl_lease_key r = k ∧ is_shard_key (rl_lease_key r) = true ∧
    rl_completed r = true ∧
    (∃ c, c ∈ rows ∧ is_shard_key (rl_lease_key c) = true ∧ rl_lease_key r ∈ rl_parents c) ∧
    ∀ c, c ∈ rows → is_shard_key (rl_lease_key c) = true → rl_lease_key r ∈ rl_parents c →
      rl_completed c = true ∨ ∃ q, from_checkpoint (rl_checkpoint c) = After q.
Proof.
  intros Hnd. rewrite elem_of_safe_to_delete. split.
  - intros (s & (r & Hr & Hsk & Hid & Hps)%elem_of_shard_metas & <- & (st & Hst & Hdone) &
      (c & (c' & Hc & Hck & Hcid & Hcps)%elem_of_shard_metas & Hp) & Hall).
    apply (lease_states_lookup _ _ _ Hnd) in Hst as (_ & r2 & Hr2 & Hk2 & ->).
    exists r2. rewrite Hk2, Hid. split_and!; try done.
    + exists c'. rewrite <- Hid, <- Hcps. by split_and!.
    + intros c2 Hc2 Hck2 Hp2.
      destruct (Hall {| sm_id := rl_lease_key c2; sm_parents := rl_parents c2 |})
        as (st2 & Hst2 & Hstart); [apply elem_of_shard_metas; by exists c2|by rewrite Hid|].
      apply (lease_states_lookup _ _ _ Hnd) in Hst2 as (_ & r3 & Hr3 & Hk3 & ->).
      cbn in Hk3. assert (r3 = c2) as ->; [|by apply started_iff].
      by apply (NoDup_key_inj rl_lease_key rows).
  - intros (r & Hr & <- & Hsk & Hdone & (c & Hc & Hck & Hp) & Hall).
    exists {| sm_id := rl_lease_key r; sm_parents := rl_parents r |}. split_and!.
    + apply elem_of_shard_metas. by exists r.
    + done.
    + exists (lease_state_of r). split; [|done]. apply (lease_states_lookup _ _ _ Hnd).
      split; [by apply shard_key_not_leader|]. by exists r.
    + exists {| sm_id := rl_lease_key c; sm_parents := rl_parents c |}.
      split; [apply elem_of_shard_metas; by exists c|done].
    + intros m (c2 & Hc2 & Hck2 & Hid2 & Hps2)%elem_of_shard_metas Hp2.
      exists (lease_state_of c2). rewrite Hid2. split.
      * apply (lease_states_lookup _ _ _ Hnd). split; [by apply shard_key_not_leader|].
        by exists c2.
      * apply started_iff, Hall; [done|done|]. by rewrite <- Hps2.
Qed.

(** ** Properties *)

Section properties.
Context {W : Type} `{AsyncStreamSource W, AsyncLeaseStore W, MetricsSink W}.
Variable config : FleetConfig.
Abbreviation World := (FleetMem * (W * list SEvent))%type.
Implicit Types (rows : list RawLease) (mem : FleetMem).

(** C19: everything a shard sync does, whatever the stream and the store answer.
    A leader that has not seeded yet describes the stream once and publishes every
    listed shard that has no row and whose parents are all complete in the scan, at
    the configured initial position; a seeded one queries the children of each
    completed parent that is neither synced nor has a published child, publishes
    those without a row at the seed its parents' checkpoints give, falls back to
    one full describe when the query fails, and remembers exactly the parents whose
    query succeeded. *)
Theorem leader_sync_trace `{HashOrder} rows mem (w : W) :
  let '(r, (mem', (_, log))) :=
    (leader_shard_sync config rows (mem, (w, [])) : Result unit WorkerError * World) in
  if sy_seeded (fm_sync_state mem) then
    r = Ok tt ∧ ∃ segs : list (string * bool * list SEvent),
      Forall (λ s, parent_trace rows s.1.1 s.1.2 s.2) segs ∧
      (λ s, s.1.1) <$> segs =
        filter (λ p, unsynced rows (sy_child_synced (fm_sync_state mem)) p = true)
               (hash_set_order (completed_keys rows)) ∧
      log = segs ≫= snd ∧
      mem' = set_sync {| sy_seeded := true;
                         sy_child_synced :=
                           list_to_set ((λ s, s.1.1) <$> filter (λ s, s.1.2 = true) segs) ∪
                           sy_child_synced (fm_sync_state mem) |} mem
  else match r with
  | Ok _ => ∃ ms, log = SDescribe (Ok ms) ::
        published (λ _, seed_checkpoint (fc_initial_position config)) (open_to rows ms) ∧
      mem' = set_sync {| sy_seeded := true;
                         sy_child_synced := sy_child_synced (fm_sync_state mem) |} mem
  | Err e => log = [SDescribe (Err e)] ∧ mem' = mem
  end.
Proof.
  unfold leader_shard_sync, mem_get, bind. cbn [fst].
  destruct (sy_seeded (fm_sync_state mem)) eqn:Hseed; cbn [negb].
  - destruct (emits_sync_parents rows (sy_child_synced (fm_sync_state mem))
                (hash_set_order (completed_keys rows)) mem w []) as (evs & Hl & Hm & segs & Hs).
    destruct (sync_parents _ _ _ (mem, (w, []))) as [newly [mem1 [w1 l1]]]. cbn in *. subst.
    destruct Hs as (Hall & Hps & -> & ->). split; [done|]. exists segs.
    split_and!; try done. unfold set_sync. by rewrite Hseed.
  - destruct (emits_seed_roots config rows mem w []) as (evs & Hl & Hr).
    destruct (seed_roots config rows (mem, (w, []))) as [r [mem1 [w1 l1]]]. cbn in *. by subst.
Qed.

(** a stable topology costs nothing.  Once a leader has seeded, a sync in which
    every completed parent is synced or has a published child makes no call at all
    and changes nothing. *)
Theorem stable_topology_is_free `{HashOrder} rows mem (w : W)
    (Hseeded : sy_seeded (fm_sync_state mem) = true)
    (Hstable : ∀ p, p ∈ completed_keys rows →
       p ∈ sy_child_synced (fm_sync_state mem) ∨ p ∈ parents_with_children rows) :
  (leader_shard_sync config rows (mem, w) : Result unit WorkerError * (FleetMem * W)) =
    (Ok tt, (mem, w)).
Proof.
  unfold leader_shard_sync, mem_get, bind. cbn [fst]. rewrite Hseeded. cbn [negb].
  assert (∀ ps, (∀ p, p ∈ ps → p ∈ completed_keys rows) →
    sync_parents rows (sy_child_synced (fm_sync_state mem)) ps (mem, w) = ([], (mem, w))) as Hps.
  { induction ps as [|p ps IH]; intros Hin; [done|]. cbn [sync_parents].
    assert (unsynced rows (sy_child_synced (fm_sync_state mem)) p = false) as ->.
    { unfold unsynced. apply negb_false_iff, orb_true_iff. rewrite !bool_decide_eq_true.
      apply Hstable, Hin. left. }
    apply IH. set_solver. }
  rewrite Hps.
  - cbn. unfold set_sync. cbn. rewrite union_empty_l_L. destruct mem as [[] ? ? ?]. done.
  - intros p. unfold hash_set_order. rewrite hash_order_perm, list_elem_of_fmap.
    intros ([p' []] & -> & Hm%elem_of_map_to_list). cbn.
    by apply lookup_gset_to_gmap_Some in Hm as [? _].
Qed.

(** C20: the first sync of a new leader, on whatever table it takes over, publishes
    at the initial position every listed shard without a row whose parents are all
    complete, reshard children included: the checkpoints of their parents play no
    part, and a root whose tombstone was deleted is published again. *)
Theorem new_leader_seeds_at_initial_position `{HashOrder} rows mem (w : W) ms m
    (Hfresh : sy_seeded (fm_sync_state mem) = false)
    (Hm : m ∈ ms) (Hparents : ∀ p, p ∈ sm_parents m → p ∈ completed_keys rows)
    (Hrow : sm_id m ∉ existing_keys rows) :
  let log := (leader_shard_sync config rows (mem, (w, [])) : Result unit WorkerError * World).2.2.2 in
  SDescribe (Ok ms) ∈ log →
  SPublish (sm_id m) (sm_parents m) (seed_checkpoint (fc_initial_position config)) ∈ log.
Proof.
  cbn zeta. unfold leader_shard_sync, mem_get, bind. cbn [fst]. rewrite Hfresh. cbn [negb].
  destruct (emits_seed_roots config rows mem w []) as (evs & Hl & Hr). rewrite Hl. cbn [app].
  intros Hd. destruct (seed_roots config rows (mem, (w, []))) as [[u|e] [mem1 [w1 l1]]].
  - destruct Hr as (ms' & -> & _). unfold published in *.
    apply elem_of_cons in Hd as [[= <-]|Hd]; [|by apply list_elem_of_fmap in Hd as (? & ? & _)].
    right. apply list_elem_of_fmap. exists m. split; [done|].
    apply list_elem_of_filter. split; [|done]. unfold publishable. apply andb_true_iff.
    rewrite forallb_True_elem, bool_decide_eq_true. split; [|done].
    intros p Hp. by apply bool_decide_eq_true_2, Hparents.
  - destruct Hr as (-> & _). by apply list_elem_of_singleton in Hd.
Qed.

(** C21: the leader's cleanup deletes exactly the leases of completed shards that
    have a child row and all of whose child rows have been processed past a start
    mode or completed; rows that are not shards are neither deleted nor counted as
    children.  A child that the stream lists and that has no row is not among those
    that are waited for: the rule of [core/src/cleanup.rs], which keeps the parent while
    a child's lease is missing, is given the shards of the table only, where every child
    has a lease.  ([FleetDemo.missing_child_is_not_waited_for] has a child whose
    publication failed: its parent goes before it ever has a row.) *)
Theorem cleanup_deletes_replaced_parents rows mem (w : W)
    (Hnd : NoDup (rl_lease_key <$> rows)) :
  let '(_, (mem', (_, log))) :=
    (cleanup_completed_leases rows (mem, (w, [])) : unit * World) in
  mem' = mem ∧ ∀ e, e ∈ log ↔ ∃ r, e = SDelete (rl_lease_key r) ∧
    r ∈ rows ∧ is_shard_key (rl_lease_key r) = true ∧ rl_completed r = true ∧
    (∃ c, c ∈ rows ∧ is_shard_key (rl_lease_key c) = true ∧ rl_lease_key r ∈ rl_parents c) ∧
    ∀ c, c ∈ rows → is_shard_key (rl_lease_key c) = true → rl_lease_key r ∈ rl_parents c →
      rl_completed c = true ∨ ∃ q, from_checkpoint (rl_checkpoint c) = After q.
Proof.
  unfold cleanup_completed_leases. set (ks := leases_safe_to_delete _ _).
  destruct (emits_for_each (W := W) (λ k, _ <- lift_m (delete_lease k) ;; ret tt)
              (λ k, [SDelete k]) ks) with (mem := mem) (w := w) (l := @nil SEvent)
    as (evs & Hl & Hm & ->).
  { intros k _. eapply (emits_step _ _ (λ _ e, e = [SDelete k])); [by apply emits_call|].
    intros r ? ->. by apply emits_ret. }
  destruct (for_each _ ks (mem, (w, []))) as [u [mem' [w' log]]]. cbn in *. subst. split; [done|].
  intros e. rewrite list_elem_of_bind. setoid_rewrite list_elem_of_singleton.
  transitivity (∃ k, e = SDelete k ∧ k ∈ ks); [naive_solver|]. unfold ks. split.
  - intros (k & -> & Hk%deleted_key_iff); [|done].
    destruct Hk as (r & Hr & <- & Hrest). by exists r.
  - intros (r & -> & Hr & Hrest). exists (rl_lease_key r). split; [done|].
    apply deleted_key_iff; [done|]. by exists r.
Qed.

(** C22: a graceful shutdown releases, in scan order, exactly the rows the worker
    owns and has not completed; where an ack was kept back it is checkpointed just
    before, and the release is made at the counter that checkpoint returned (at the
    scanned one if it failed); no ack is kept back afterwards, and the result counts
    the releases that succeeded. *)
Theorem release_flushes_before_releasing rows mem (w w1 : W)
    (Hlist : list_leases w = (Ok rows, w1)) (Hnd : NoDup (rl_lease_key <$> rows)) :
  let '(n, (mem', (_, log))) :=
    (release_owned config (mem, (w, [])) : Result nat WorkerError * World) in
  let mine := filter (λ r, owns config r = true) rows in
  ∃ segs : list (RawLease * bool * list SEvent),
    (λ s, s.1.1) <$> segs = mine ∧
    Forall (λ s, release_trace (fc_owner config) (pending_of mem (rl_lease_key s.1.1))
                   s.1.1 s.1.2 s.2) segs ∧
    log = segs ≫= snd ∧
    n = Ok (length (filter (λ s, s.1.2 = true) segs)) ∧
    ∀ k, pending_of mem' k = if decide (k ∈ rl_lease_key <$> mine) then None else pending_of mem k.
Proof.
  destruct (emits_release_rows config rows 0 Hnd mem w1 []) as (evs & Hl & segs & Hs).
  unfold release_owned, bind_ok.
  assert ((lift_m list_leases : M World (Result (list RawLease) WorkerError)) (mem, (w, []))
          = (Ok rows, (mem, (w1, [])))) as Hcall.
  { unfold lift_m. cbn. unfold unlogged, logged. cbn. by rewrite Hlist. }
  rewrite (bind_run _ _ _ _ _ Hcall).
  destruct (release_rows config rows 0 (mem, (w1, []))) as [n [mem2 [w2 l2]]] eqn:Hrun.
  rewrite (bind_run _ _ _ _ _ Hrun). cbn in *.
  destruct Hs as (Hkeys & Hall & -> & -> & ->). subst l2. exists segs. split_and!; try done.
  intros k. apply forgotten_all_pending.
Qed.

(** the shards a worker reports as owned are the incomplete rows it owns other
    than the leader sentinel, among them its own heartbeat row, which is not a
    shard. *)
Theorem owned_shards_include_own_heartbeat rows mem (w w1 : W)
    (Hlist : list_leases w = (Ok rows, w1)) :
  ∃ ks, owned_shards config (mem, w) = (Ok ks, (mem, w1)) ∧
    (∀ k, k ∈ ks ↔ k ≠ LEADER_LEASE_KEY ∧
       ∃ r, r ∈ rows ∧ rl_lease_key r = k ∧ rl_owner r = Some (fc_owner config) ∧
            rl_completed r = false) ∧
    ((∃ r, r ∈ rows ∧ rl_lease_key r = heartbeat_key (fc_owner config) ∧
           rl_owner r = Some (fc_owner config) ∧ rl_completed r = false) →
     heartbeat_key (fc_owner config) ∈ ks ∧
     is_shard_key (heartbeat_key (fc_owner config)) = false).
Proof.
  eexists. split.
  { unfold owned_shards, bind_ok, bind, lift_m. cbn [fst snd]. rewrite Hlist. cbn. reflexivity. }
  assert (∀ k, k ∈ rl_lease_key <$> filter (λ r, owns config r &&
            bool_decide (rl_lease_key r ≠ LEADER_LEASE_KEY) = true) rows ↔
          k ≠ LEADER_LEASE_KEY ∧ ∃ r, r ∈ rows ∧ rl_lease_key r = k ∧
            rl_owner r = Some (fc_owner config) ∧ rl_completed r = false) as Hiff.
  { intros k. rewrite list_elem_of_fmap. setoid_rewrite list_elem_of_filter.
    setoid_rewrite andb_true_iff. unfold owns. setoid_rewrite andb_true_iff.
    setoid_rewrite bool_decide_eq_true. setoid_rewrite negb_true_iff. naive_solver. }
  split; [exact Hiff|]. intros (r & Hr & Hk & Ho & Hc).
  split; [|unfold is_shard_key; by rewrite heartbeat_key_is_heartbeat, andb_false_r].
  apply Hiff. split; [|by exists r]. intros Heq.
  pose proof leader_key_not_heartbeat as Hn. rewrite <- Heq, heartbeat_key_is_heartbeat in Hn. done.
Qed.
End properties.
