(* ===== verification/Fleet.v ===== *)
(** * A coordination cycle ([run_cycle] and [run_until_complete] of [worker/src/fleet.rs])

    The cycle puts the other fleet files together: leadership and shard sync,
    heartbeat, claiming leases, and the passes over the shards that are owned and
    ready.  The coordinator and the leadership bid it borrows are the first part of
    its state, the fleet's own memory the second. *)

From Stdlib Require Import Lia.
From stdpp Require Import base gmap sets numbers list strings.
From S2P Require Import Prelude Core Coordinator Leader Interfaces Metrics CkptDefer Tasks.
From S2P Require Import LeaderElection FleetState ShardPass Pool FleetSync Taker.

Record Cycle := {
  cy_coordinator : LeaseCoordinator;
  cy_leadership : Leadership;
}.

(** ** What the scan of a cycle decides *)

(** [shard -> (lease counter, resume checkpoint)] of the incomplete leases owned. *)
Definition owned_map (config : FleetConfig) (rows : list RawLease)
  : gmap string (N * option string) :=
  collect rl_lease_key (λ r, (rl_lease_counter r, rl_checkpoint r))
    (filter (λ r, owns config r = true) rows).

Definition all_complete (rows : list RawLease) : bool :=
  let shards := shard_metas_from_leases rows in
  negb (bool_decide (shards = [])) &&
  forallb (λ m, bool_decide (sm_id m ∈ completed_keys rows)) shards.

Definition eligible_owned (config : FleetConfig) (rows : list RawLease)
  : list (string * (N * option string)) :=
  let shards := shard_metas_from_leases rows in
  let existing : gset string := list_to_set (sm_id <$> shards) in
  omap (M := list) (λ m,
    nc ← lookup (K := string) (sm_id m) (owned_map config rows);
    if eligible m (completed_keys rows) existing then Some (sm_id m, nc) else None) shards.

(** Deferred acks are kept for owned shards only. *)
Definition retain_owned (owned : gmap string (N * option string)) (d : CkptDefer) : CkptDefer :=
  set_state d (filter (λ '(s, _), is_Some (owned !! s)) (cd_state d)).

Section cycle.
Context `{HashOrder} {W : Type} `{AsyncStreamSource W, AsyncLeaseStore W, ShardConsumerFactory W,
                     MetricsSink W, Clock W}.
Variables (polls : nat) (config : FleetConfig) (schedule : list nat).
Abbreviation C := (M (Cycle * (FleetMem * W))).

Definition outside {A} (m : M W A) : C A := lift_m (lift_m m).

(** [leadership.step(..)], on the borrowed [Leadership]. *)
Definition lead (rows : list RawLease) (now_ms : N) : C bool :=
  λ '(cy, (mem, w)),
    let '((leading, l'), w') := step (cy_leadership cy) rows now_ms w in
    (leading, ({| cy_coordinator := cy_coordinator cy; cy_leadership := l' |}, (mem, w'))).

(** [coordinator.tick(..)], on the borrowed [LeaseCoordinator]. *)
Definition tick_coordinator (rows : list RawLease) (now_ms : N) : C (list string) :=
  λ '(cy, mw),
    let '(keys, c') := tick (cy_coordinator cy) rows now_ms in
    (keys, ({| cy_coordinator := c'; cy_leadership := cy_leadership cy |}, mw)).

Definition not_sentinel (rows : list RawLease) : list RawLease :=
  filter (λ r, rl_lease_key r ≠ LEADER_LEASE_KEY) rows.

Definition only_shards (rows : list RawLease) : list RawLease :=
  filter (λ r, is_shard_key (rl_lease_key r) = true) rows.

Definition sync_as_leader (rows : list RawLease) : C (Result unit WorkerError) :=
  _ <-? lift_m (leader_shard_sync config rows) ;;
  lift_m (cleanup_completed_leases rows) ;;;
  ret (Ok tt).

Definition claim (key : string) : C unit :=
  r <- outside (acquire key (fc_owner config)) ;;
  if is_ok r then outside (on_lease_acquired key) else ret tt.

(** Step 0. *)
Definition lead_and_sync (now_ms : N) : C (Result unit WorkerError) :=
  rows <-? outside list_leases ;;
  leading <- lead rows now_ms ;;
  if leading then sync_as_leader rows else ret (Ok tt).

(** Step 1, after the heartbeat. *)
Definition claim_share (now_ms : N) : C (Result unit WorkerError) :=
  rows <-? outside list_leases ;;
  keys <- tick_coordinator (not_sentinel rows) now_ms ;;
  for_each claim keys ;;;
  ret (Ok tt).

Definition coordinate (now_ms : N) : C (Result unit WorkerError) :=
  _ <-? lead_and_sync now_ms ;;
  _ <- outside (heartbeat (fc_owner config)) ;;
  claim_share now_ms.

(** The passes over the ready shards; [false] when a bound of the model ran out. *)
Definition process (items : list (string * (N * option string))) (now : Instant)
  : M (FleetMem * W) bool :=
  limit <- mem_get fm_processing_limit ;;
  match limit with
  | None =>
      rs <- process_unbounded polls (fc_owner config) schedule items ;;
      ret (forallb (λ r : PassResult, bool_decide (r ≠ None)) rs)
  | Some max =>
      bs <- run_bounded_pool polls config schedule items (Nat.max max 1) now ;;
      ret (forallb (λ b, b) bs)
  end.

(** Ownership as of the second scan: metrics, and acks of lost shards dropped. *)
Definition settle (owned : gmap string (N * option string)) : M (FleetMem * W) unit :=
  lift_m (on_leases_held (N.of_nat (size owned))) ;;;
  defer_do (retain_owned owned) ;;;
  limit <- mem_get fm_processing_limit ;;
  match limit with
  | Some max => lift_m (on_max_processing_concurrency (N.of_nat max))
  | None => ret tt
  end.

(** Steps 2 and 3, on the shard rows of the second scan. *)
Definition serve (rows : list RawLease) : M (FleetMem * W) (option bool) :=
  settle (owned_map config rows) ;;;
  if all_complete rows then ret (Some true)
  else
    now <- lift_m instant_now ;;
    finished <- process (eligible_owned config rows) now ;;
    ret (if finished : bool then Some false else None).

(** One cycle: [Some true] when every shard is complete; [None] when a bound of the
    model ran out. *)
Definition run_cycle (now_ms : N) : C (Result (option bool) WorkerError) :=
  _ <-? coordinate now_ms ;;
  rows <-? outside list_leases ;;
  r <- lift_m (serve (only_shards rows)) ;;
  ret (Ok r).
End cycle.

(** [schedules] holds the schedule of each cycle, by the cycles left. *)
Section drain.
Context `{HashOrder} {W : Type} `{AsyncStreamSource W, AsyncLeaseStore W, ShardConsumerFactory W,
                     MetricsSink W, Clock W}.
Variables (polls : nat) (config : FleetConfig) (schedules : nat → list nat).

Fixpoint cycles (max_cycles : nat) (start : Instant)
  : M (Cycle * (FleetMem * W)) (Result (option unit) WorkerError) :=
  match max_cycles with
  | O => ret (Ok (Some tt))
  | S n =>
      t <- outside instant_now ;;
      r <-? run_cycle polls config (schedules n) (as_millis (duration_since t start)) ;;
      match r with
      | Some true => ret (Ok (Some tt))
      | Some false => cycles n start
      | None => ret (Ok None)
      end
  end.

Definition run_until_complete (max_cycles : nat)
  : M (FleetMem * W) (Result (option unit) WorkerError) :=
  λ mw,
    let cy := {| cy_coordinator := LeaseCoordinator_new (fc_owner config) (fc_max_leases config)
                   (fc_lease_duration_ms config);
                 cy_leadership := Leadership_new (fc_owner config) (fc_lease_duration_ms config) |} in
    let '(start, (cy, mw)) := outside instant_now (cy, mw) in
    let '(r, (_, mw)) := cycles max_cycles start (cy, mw) in (r, mw).
End drain.

(** ** Ready shards *)

(** A row of the scan that the cycle must work on: an incomplete lease of this
    worker whose parents have no incomplete row. *)
Definition ready (config : FleetConfig) (scan : list RawLease) (r : RawLease) : Prop :=
  r ∈ scan ∧ is_shard_key (rl_lease_key r) = true ∧
  rl_owner r = Some (fc_owner config) ∧ rl_completed r = false ∧
  ∀ p, p ∈ scan → is_shard_key (rl_lease_key p) = true →
    rl_lease_key p ∈ rl_parents r → rl_completed p = true.

Definition item_of (r : RawLease) : string * (N * option string) :=
  (rl_lease_key r, (rl_lease_counter r, rl_checkpoint r)).

Lemma owns_spec config r :
  owns config r = true ↔ rl_owner r = Some (fc_owner config) ∧ rl_completed r = false.
Proof. unfold owns. by rewrite andb_true_iff, bool_decide_eq_true, negb_true_iff. Qed.

Lemma owned_map_lookup config rows s nc :
  NoDup (rl_lease_key <$> rows) →
  owned_map config rows !! s = Some nc ↔
  ∃ r, r ∈ rows ∧ rl_owner r = Some (fc_owner config) ∧ rl_completed r = false ∧
       rl_lease_key r = s ∧ nc = (rl_lease_counter r, rl_checkpoint r).
Proof.
  intros Hnd. unfold owned_map.
  rewrite (collect_lookup rl_lease_key (λ r, (rl_lease_counter r, rl_checkpoint r)))
    by by apply NoDup_key_filter.
  setoid_rewrite list_elem_of_filter. setoid_rewrite owns_spec. naive_solver.
Qed.

Lemma elem_of_completed_keys rows k :
  k ∈ completed_keys rows ↔ ∃ r, r ∈ rows ∧ rl_lease_key r = k ∧ rl_completed r = true.
Proof.
  unfold completed_keys. rewrite elem_of_list_to_set, list_elem_of_fmap.
  setoid_rewrite list_elem_of_filter. naive_solver.
Qed.

Lemma all_complete_spec scan :
  NoDup (rl_lease_key <$> scan) →
  all_complete (only_shards scan) = true ↔
  (∃ r, r ∈ scan ∧ is_shard_key (rl_lease_key r) = true) ∧
  ∀ r, r ∈ scan → is_shard_key (rl_lease_key r) = true → rl_completed r = true.
Proof.
  intros Hnd. unfold all_complete.
  rewrite andb_true_iff, negb_true_iff, bool_decide_eq_false, forallb_True_elem.
  setoid_rewrite bool_decide_eq_true. setoid_rewrite elem_of_completed_keys.
  setoid_rewrite elem_of_shard_metas. unfold only_shards. setoid_rewrite list_elem_of_filter. split.
  - intros [Hne Hall]. split.
    + destruct (shard_metas_from_leases _) as [|m ms] eqn:Hms; [done|].
      assert (m ∈ m :: ms) as Hm by left. rewrite <- Hms, elem_of_shard_metas in Hm.
      setoid_rewrite list_elem_of_filter in Hm. naive_solver.
    + intros r Hr Hk. destruct (Hall {| sm_id := rl_lease_key r; sm_parents := rl_parents r |})
        as (r' & [_ Hr'] & Hk' & Hc); [by exists r|].
      by rewrite (NoDup_key_inj rl_lease_key scan r r').
  - intros [(r & Hr & Hk) Hall]. split.
    + intros Hnil. apply (not_elem_of_nil {| sm_id := rl_lease_key r; sm_parents := rl_parents r |}).
      rewrite <- Hnil, elem_of_shard_metas. exists r. by rewrite list_elem_of_filter.
    + intros m (r' & [Hk' Hr'] & _ & -> & _). exists r'. by auto.
Qed.

Lemma eligible_owned_spec config scan item :
  NoDup (rl_lease_key <$> scan) →
  item ∈ eligible_owned config (only_shards scan) ↔ ∃ r, ready config scan r ∧ item = item_of r.
Proof.
  intros Hnd. unfold eligible_owned.
  assert (NoDup (rl_lease_key <$> only_shards scan)) as Hnd' by by apply NoDup_key_filter.
  rewrite list_elem_of_omap. setoid_rewrite elem_of_shard_metas.
  assert (∀ r, r ∈ only_shards scan ↔ r ∈ scan ∧ is_shard_key (rl_lease_key r) = true) as Hin.
  { intros r. unfold only_shards. rewrite list_elem_of_filter. naive_solver. }
  setoid_rewrite Hin. split.
  - intros (m & (r & [Hr Hk] & _ & Hid & Hps) & Hsome). rewrite Hid in Hsome.
    destruct (owned_map config (only_shards scan) !! rl_lease_key r) as [nc|] eqn:Ho;
      cbn in Hsome; [|discriminate].
    destruct (eligible _ _ _) eqn:He; [|done]. injection Hsome as <-.
    apply (owned_map_lookup _ _ _ _ Hnd') in Ho as (r' & [Hr' _]%Hin & Hown & Hc & Hkey & ->).
    assert (r' = r) as -> by by apply (NoDup_key_inj rl_lease_key scan). exists r. split; [|done].
    apply eligible_spec in He as [_ Hpar]. split_and!; [done..|]. intros p Hp Hpk Hpp.
    rewrite <- Hps in Hpp. apply Hpar in Hpp as [Hcp|Hgone].
    + apply elem_of_completed_keys in Hcp as (p' & [Hp' _]%Hin & Hkp & Hcp).
      by rewrite (NoDup_key_inj rl_lease_key scan p p').
    + exfalso. apply Hgone. rewrite elem_of_list_to_set, list_elem_of_fmap.
      exists {| sm_id := rl_lease_key p; sm_parents := rl_parents p |}.
      split; [done|]. apply elem_of_shard_metas. exists p. by rewrite Hin.
  - intros (r & (Hr & Hk & Hown & Hc & Hpar) & ->).
    exists {| sm_id := rl_lease_key r; sm_parents := rl_parents r |}. split; [by exists r|]. cbn [sm_id].
    assert (owned_map config (only_shards scan) !! rl_lease_key r =
              Some (rl_lease_counter r, rl_checkpoint r)) as ->.
    { apply (owned_map_lookup _ _ _ _ Hnd'). exists r. by rewrite Hin. }
    cbn. rewrite (proj2 (eligible_spec _ _ _)); [done|]. cbn. split.
    + intros (r' & [Hr' _]%Hin & Hk' & Hc')%elem_of_completed_keys.
      rewrite (NoDup_key_inj rl_lease_key scan r' r) in Hc' by done. congruence.
    + intros p Hp. destruct (decide (p ∈ completed_keys (only_shards scan))) as [|Hnc]; [by left|right].
      rewrite elem_of_list_to_set, list_elem_of_fmap. intros (m & -> & Hm).
      apply elem_of_shard_metas in Hm as (q & [Hq Hqk]%Hin & _ & Hqid & _). apply Hnc.
      rewrite elem_of_completed_keys. exists q. rewrite Hin. split_and!; [done..|].
      apply Hpar; [done..|]. by rewrite <- Hqid.
Qed.

Lemma eligible_owned_nodup config scan :
  NoDup (rl_lease_key <$> scan) → NoDup (eligible_owned config (only_shards scan)).*1.
Proof.
  intros Hnd. eapply NoDup_submseteq_sub; [|apply (NoDup_key_filter rl_lease_key
    (λ r, is_shard_key (rl_lease_key r) = true) (only_shards scan)), NoDup_key_filter, Hnd].
  apply sublist_submseteq. unfold eligible_owned, shard_metas_from_leases.
  generalize (owned_map config (only_shards scan)) as om. intros om.
  generalize (completed_keys (only_shards scan)) as ck. intros ck.
  set (ex := list_to_set _ : gset string). clearbody ex.
  induction (filter _ (only_shards scan)) as [|r l IH]; [done|]. csimpl.
  destruct (om !! rl_lease_key r) as [nc|]; cbn; [|by constructor].
  destruct (eligible _ _ _); cbn; by constructor.
Qed.

(** ** What happens before the passes leaves their log and their memory alone *)

(** The part of the memory the passes read. *)
Definition same_work (m m' : FleetMem) : Prop :=
  fm_ckpt_defer m' = fm_ckpt_defer m ∧ fm_sched m' = fm_sched m ∧
  fm_processing_limit m' = fm_processing_limit m.

Section quiet.
Context {W : Type}.

Definition quiet (x y : FleetMem * (W * PLog)) : Prop := y.2.2 = x.2.2 ∧ same_work x.1 y.1.
Definition quiet_cycle (x y : Cycle * (FleetMem * (W * PLog))) : Prop := quiet x.2 y.2.

#[export] Instance quiet_preorder : PreOrder quiet.
Proof.
  split; [intros x; repeat split|]. intros x y z (Hl & Hd & Hs & Hp) (Hl' & Hd' & Hs' & Hp').
  repeat split; congruence.
Qed.
#[export] Instance quiet_cycle_preorder : PreOrder quiet_cycle.
Proof.
  split; [intros x; unfold quiet_cycle; reflexivity|].
  intros x y z. unfold quiet_cycle. intros ? ?. by etrans.
Qed.

Lemma quiet_call {A} (m : M W A) : keeps quiet (lift_m (ShardPass.unlogged m)).
Proof.
  intros [mem [w l]]. unfold lift_m, ShardPass.unlogged, logged. cbn. destruct (m w) as [a w'].
  repeat split. cbn. by rewrite app_nil_r.
Qed.

Lemma quiet_get {A} (f : FleetMem → A) : keeps quiet (mem_get f).
Proof. intros x. change (quiet x x). reflexivity. Qed.

Lemma quiet_set_sync (f : FleetMem → SyncState) : keeps quiet (mem_set (λ mem, set_sync (f mem) mem)).
Proof. intros x. by repeat split. Qed.

Lemma quiet_lift {A} (m : M (FleetMem * (W * PLog)) A) : keeps quiet m → keeps quiet_cycle (lift_m m).
Proof.
  intros Hm [cy x]. unfold lift_m, quiet_cycle. cbn. pose proof (Hm x) as Hx.
  by destruct (m x).
Qed.
End quiet.

Section coordinate_quiet.
Context `{HashOrder} {W : Type} `{AsyncStreamSource W, AsyncLeaseStore W, ShardConsumerFactory W,
                     MetricsSink W, Clock W}.
Variable config : FleetConfig.
Implicit Types rows : list RawLease.

Ltac quiet_step :=
  first [apply keeps_bind_ok; [apply _| |intros ?] | apply keeps_bind; [apply _| |intros ?]
        | apply keeps_for_each; [apply _|intros ?] | apply keeps_ret; apply _
        | apply (quiet_call (W := W)) | apply quiet_get
        | apply (quiet_set_sync (W := W)) | progress case_match].

Lemma quiet_publish m cp : keeps quiet (publish (W := W * PLog) m cp).
Proof. unfold publish. repeat quiet_step. Qed.

Lemma quiet_sync_parent rows p : keeps quiet (sync_parent (W := W * PLog) rows p).
Proof. unfold sync_parent. repeat first [apply quiet_publish|quiet_step]. Qed.

Lemma quiet_sync rows : keeps quiet (leader_shard_sync (W := W * PLog) config rows).
Proof.
  unfold leader_shard_sync, seed_roots. repeat first [apply quiet_publish|quiet_step].
  generalize (hash_set_order (completed_keys rows)) as ps. intros ps.
  induction ps as [|p ps IH]; cbn [sync_parents]; [quiet_step|].
  case_match; [|exact IH]. apply keeps_bind; [apply _|apply quiet_sync_parent|intros ok].
  apply keeps_bind; [apply _|exact IH|intros l]. quiet_step.
Qed.

Lemma quiet_cleanup rows : keeps quiet (cleanup_completed_leases (W := W * PLog) rows).
Proof. unfold cleanup_completed_leases. repeat quiet_step. Qed.

Lemma lead_log (l : Leadership) rows now_ms (wl : W * PLog) :
  (step (W := W * PLog) l rows now_ms wl).2.2 = wl.2.
Proof.
  unfold step. destruct (tick _ _ _) as [takes coord].
  assert (∀ A B (m : M W A) (k : A → M (W * PLog) B),
    (∀ a wl', (k a wl').2.2 = wl'.2) → (bind (ShardPass.unlogged m) k wl).2.2 = wl.2) as Hcall.
  { intros A B m k Hk. unfold bind, ShardPass.unlogged, logged. destruct (m wl.1) as [a w'].
    rewrite Hk. cbn. apply app_nil_r. }
  repeat case_match; try done; apply Hcall; intros; repeat case_match; done.
Qed.

Lemma quiet_lead rows now_ms : keeps quiet_cycle (lead (W := W * PLog) rows now_ms).
Proof.
  intros [cy [mem wl]]. unfold lead. pose proof (lead_log (cy_leadership cy) rows now_ms wl) as Hl.
  destruct (step _ _ _ wl) as [[b l'] wl']. by repeat split.
Qed.

Lemma quiet_tick rows now_ms : keeps quiet_cycle (tick_coordinator (W := W * PLog) rows now_ms).
Proof.
  intros [cy mw]. unfold tick_coordinator. destruct (tick _ _ _) as [keys c'].
  change (quiet mw mw). reflexivity.
Qed.

Lemma quiet_outside {A} (m : M W A) :
  keeps quiet_cycle (outside (W := W * PLog) (ShardPass.unlogged m)).
Proof. apply quiet_lift, quiet_call. Qed.

Ltac quiet_cycle_step :=
  first [apply keeps_bind_ok; [apply _| |intros ?] | apply keeps_bind; [apply _| |intros ?]
        | apply keeps_for_each; [apply _|intros ?] | apply keeps_ret; apply _
        | apply (quiet_outside (A := _)) | apply quiet_lead | apply quiet_tick
        | apply quiet_lift, quiet_sync | apply quiet_lift, quiet_cleanup | progress case_match].

Lemma quiet_coordinate now_ms : keeps quiet_cycle (coordinate (W := W * PLog) config now_ms).
Proof.
  unfold coordinate, lead_and_sync, claim_share, sync_as_leader, claim. repeat quiet_cycle_step.
Qed.
End coordinate_quiet.

(** ** The passes of a cycle *)

Section passes.
Context `{HashOrder} {W : Type} `{AsyncStreamSource W, AsyncLeaseStore W, ShardConsumerFactory W,
                     MetricsSink W, Clock W}.
Variables (polls : nat) (config : FleetConfig) (schedule : list nat).
Abbreviation me := (fc_owner config).
Abbreviation World := (FleetMem * (W * PLog))%type.
Implicit Types (items : list (string * (N * option string))) (mem : FleetMem).

(** A shard the cycle must not skip. *)
Definition must_pass mem (now : Instant) (s : string) : Prop :=
  fm_processing_limit mem = None ∨
  (ss_due_at (default (fresh_sched now) (fm_sched mem !! s)) ≤ now)%N.

(** The calls about one item: one run of the pass protocol, complete unless the
    item is not due. *)
Definition passed mem (now : Instant) (log : PLog) (item : string * (N * option string)) : Prop :=
  ∃ p, p_run me (is_deferred mem) (pass_start mem (task_of me item)) (proj item.1 log) = Some p ∧
       (must_pass mem now item.1 → pass_result p ≠ None).

Lemma process_unbounded_spec items now mem (w : W) :
  NoDup items.*1 →
  let res := (process_unbounded polls me schedule items (mem, (w, []))
              : list PassResult * World) in
  (∀ s, s ∉ items.*1 → proj s res.2.2.2 = []) ∧
  (forallb (λ r : PassResult, bool_decide (r ≠ None)) res.1 = true →
   ∀ item, item ∈ items → passed mem now res.2.2.2 item).
Proof.
  intros Hnd. cbn zeta. split.
  - intros s Hs. by apply passes_touch_items.
  - intros Hall item [i Hi]%list_elem_of_lookup.
    destruct (passes_accepted polls me schedule items mem w i item Hnd Hi)
      as (r & p & Hr & Hp & Hres & _).
    exists p. split; [exact Hp|]. intros _ Hnone. rewrite forallb_True_elem in Hall.
    apply list_elem_of_lookup_2, Hall in Hr. apply bool_decide_eq_true in Hr.
    rewrite Hres in Hnone. by destruct r as [[]|].
Qed.

Lemma bounded_pool_spec items k now mem (w : W) :
  NoDup items.*1 → 0 < k → fm_processing_limit mem ≠ None →
  let res := (run_bounded_pool polls config schedule items k now (mem, (w, []))
              : list bool * World) in
  (∀ s, s ∉ items.*1 → proj s res.2.2.2 = []) ∧
  (forallb (λ b, b) res.1 = true → ∀ item, item ∈ items → passed mem now res.2.2.2 item).
Proof.
  intros Hnd Hk Hlim. cbn zeta. pose proof (pool_run polls config schedule items k now mem w Hnd Hk) as Hc.
  destruct (run_bounded_pool polls config schedule items k now (mem, (w, [])))
    as [bs [mem' [w' log]]]. cbn [fst snd].
  destruct Hc as (outs & now2 & _ & _ & Hall & Hruns & _ & _ & Hquiet). split.
  - intros s Hs. apply Hquiet. by intros [? _].
  - intros Hbs [s nc] Hin.
    assert (s ∈ items.*1) as Hs by (apply list_elem_of_fmap; by exists (s, nc)).
    assert (Forall (λ b, b = true) bs) as Hbs'.
    { apply Forall_forall. rewrite forallb_True_elem in Hbs. auto. }
    destruct (decide (ss_due_at (default (fresh_sched now) (fm_sched mem !! s)) ≤ now)%N) as [Hd|Hd].
    + destruct (proj1 (list_elem_of_fmap _ _ _) (Hall Hbs' s (conj Hs Hd))) as ([s' o] & -> & Ho).
      destruct (Hruns _ _ Ho) as (nc' & p & Hin' & Hp & Hres). cbn in *.
      assert (nc' = nc) as ->.
      { by pose proof (NoDup_key_inj fst items (s', nc') (s', nc) Hnd Hin' Hin eq_refl) as [= ->]. }
      exists p. split; [exact Hp|]. intros _. destruct Hres as [->|[-> _]]; congruence.
    + exists (pass_start mem (task_of me (s, nc))). split.
      * cbn [fst]. rewrite Hquiet; [done|]. by intros [_ ?].
      * intros [?|?]; done.
Qed.

Lemma process_spec items now mem (w : W) :
  NoDup items.*1 →
  let res := (process polls config schedule items now (mem, (w, [])) : bool * World) in
  (∀ s, s ∉ items.*1 → proj s res.2.2.2 = []) ∧
  (res.1 = true → ∀ item, item ∈ items → passed mem now res.2.2.2 item).
Proof.
  intros Hnd. cbn zeta. unfold process, bind, mem_get. cbn [fst snd].
  destruct (fm_processing_limit mem) as [max|] eqn:Hlim.
  - pose proof (bounded_pool_spec items (Nat.max max 1) now mem w Hnd ltac:(lia) ltac:(congruence)) as Hs.
    cbn zeta in Hs. by destruct (run_bounded_pool polls config schedule items (Nat.max max 1) now
      (mem, (w, []))) as [bs mw].
  - pose proof (process_unbounded_spec items now mem w Hnd) as Hs. cbn zeta in Hs.
    by destruct (process_unbounded polls me schedule items (mem, (w, []))) as [rs mw].
Qed.

(** ** Pruning *)

Lemma retained_pending (owned : gmap string (N * option string)) mem s :
  is_Some (owned !! s) →
  pending_of (set_defer (retain_owned owned <$> fm_ckpt_defer mem) mem) s = pending_of mem s.
Proof.
  intros Hs. unfold pending_of. cbn. destruct (fm_ckpt_defer mem) as [d|]; [|done]. cbn.
  unfold resume_from, retain_owned. cbn. f_equal. apply option_eq. intros x.
  rewrite map_lookup_filter_Some. naive_solver.
Qed.

Lemma retained_start (owned : gmap string (N * option string)) mem item :
  is_Some (owned !! item.1) →
  pass_start (set_defer (retain_owned owned <$> fm_ckpt_defer mem) mem) (task_of me item) =
  pass_start mem (task_of me item).
Proof. intros Hs. unfold pass_start. cbn [st_shard task_of]. by rewrite retained_pending. Qed.

Lemma retained_deferred (owned : gmap string (N * option string)) mem :
  is_deferred (set_defer (retain_owned owned <$> fm_ckpt_defer mem) mem) = is_deferred mem.
Proof.
  unfold is_deferred. apply bool_decide_ext. cbn. by rewrite fmap_is_Some.
Qed.

Lemma settle_run (owned : gmap string (N * option string)) mem (w : W) :
  ∃ w', (settle owned : M World unit) (mem, (w, [])) =
          (tt, (set_defer (retain_owned owned <$> fm_ckpt_defer mem) mem, (w', []))).
Proof.
  unfold settle, bind, lift_m, defer_do, mem_get, ret. cbn. unfold ShardPass.unlogged, logged. cbn.
  destruct (on_leases_held _ w) as [[] w1]. cbn. destruct (fm_processing_limit mem) as [max|]; cbn.
  - destruct (on_max_processing_concurrency _ w1) as [[] w2]. by exists w2.
  - by exists w1.
Qed.

(** Steps 2 and 3. *)
Lemma serve_spec scan mem (w : W) :
  NoDup (rl_lease_key <$> scan) →
  let '(r, (_, (_, log))) :=
    (serve polls config schedule (only_shards scan) (mem, (w, [])) : option bool * World) in
  (r = Some true ↔ all_complete (only_shards scan) = true) ∧ (r = Some true → log = []) ∧
  (∀ s, (¬ ∃ row, ready config scan row ∧ rl_lease_key row = s) → proj s log = []) ∧
  (r = Some false → ∃ now, ∀ row, ready config scan row → passed mem now log (item_of row)).
Proof.
  intros Hnd. unfold serve. set (owned := owned_map config (only_shards scan)).
  destruct (settle_run owned mem w) as (w1 & Hpre). rewrite (bind_run _ _ _ _ _ Hpre).
  set (mem1 := set_defer (retain_owned owned <$> fm_ckpt_defer mem) mem).
  destruct (all_complete (only_shards scan)); [by split_and!|].
  assert (∃ now w2, (lift_m instant_now : M World Instant) (mem1, (w1, [])) =
                      (now, (mem1, (w2, [])))) as (now & w2 & Hnow).
  { unfold lift_m. cbn. unfold ShardPass.unlogged, logged. cbn.
    destruct (instant_now w1) as [now w2]. by exists now, w2. }
  rewrite (bind_run _ _ _ _ _ Hnow). clear Hnow.
  pose proof (process_spec (eligible_owned config (only_shards scan)) now mem1 w2
                (eligible_owned_nodup config scan Hnd)) as [Hother Hin]. unfold bind.
  destruct (process polls config schedule _ now (mem1, (w2, []))) as [fin [mem2 [w3 log]]].
  cbn [fst snd ret] in *. split_and!.
  - by destruct fin.
  - by destruct fin.
  - intros s Hs. apply Hother. intros (item & -> & (row & Hr & ->)%eligible_owned_spec)%list_elem_of_fmap;
      [|done]. apply Hs. by exists row.
  - destruct fin; [intros _|done]. exists now. intros row Hr.
    destruct (Hin eq_refl (item_of row)) as (p & Hp & Hres).
    { apply eligible_owned_spec; [done|]. by exists row. }
    unfold mem1 in Hp. rewrite retained_deferred, retained_start in Hp; [by exists p|].
    eexists. apply owned_map_lookup; [by apply NoDup_key_filter|]. exists row.
    destruct Hr as (Hr & Hk & Ho & Hc & _). unfold only_shards. by rewrite list_elem_of_filter.
Qed.
Lemma same_work_passed mem mem' now log item :
  same_work mem mem' → passed mem' now log item → passed mem now log item.
Proof.
  intros (Hd & Hs & Hl). unfold passed, must_pass, is_deferred, pass_start, pending_of.
  by rewrite Hd, Hs, Hl.
Qed.

Lemma outside_run {A} (m : M W A) cy mem (w : W) l :
  ∃ w', outside (ShardPass.unlogged m) (cy, (mem, (w, l))) = ((m w).1, (cy, (mem, (w', l)))) ∧
        w' = (m w).2.
Proof.
  unfold outside, lift_m, ShardPass.unlogged, logged. cbn. destruct (m w) as [a w'].
  exists w'. cbn. by rewrite app_nil_r.
Qed.

(** ** Properties *)

(** C2: a whole cycle, whatever the stream, the lease table and the consumers
    answer and however the passes interleave (the only assumption: a scan lists no
    key twice).  If it fails it fails before any shard is touched.  Otherwise it
    ends by the state of one scan, taken after this worker synced, beat and claimed:
    it reports completion exactly when that scan has shard rows and all are
    complete, and then touches no shard; no shard is touched but those whose lease
    this worker holds incomplete, all parents complete or gone; and when it goes on
    to the next cycle every one of those that was due has seen one run of the pass
    protocol, from the lease's counter and the newest ack. *)
Theorem cycle_serves_ready_shards cy now_ms mem (w : W)
    (Hscan : ∀ w rows w', list_leases w = (Ok rows, w') → NoDup (rl_lease_key <$> rows)) :
  let '(r, (_, (_, (_, log)))) :=
    (run_cycle polls config schedule now_ms (cy, (mem, (w, [])))
     : Result (option bool) WorkerError * (Cycle * World)) in
  match r with
  | Err _ => log = []
  | Ok r => ∃ w1 scan w2, list_leases w1 = (Ok scan, w2) ∧
      (r = Some true ↔ (∃ row, row ∈ scan ∧ is_shard_key (rl_lease_key row) = true) ∧
                       ∀ row, row ∈ scan → is_shard_key (rl_lease_key row) = true →
                         rl_completed row = true) ∧
      (r = Some true → log = []) ∧
      (∀ s, (¬ ∃ row, ready config scan row ∧ rl_lease_key row = s) → proj s log = []) ∧
      (r = Some false → ∃ now, ∀ row, ready config scan row → passed mem now log (item_of row))
  end.
Proof.
  unfold run_cycle, bind_ok. unfold bind at 1.
  pose proof (quiet_coordinate config now_ms (cy, (mem, (w, [])))) as [Hlog Hwork].
  destruct (coordinate (W := W * PLog) config now_ms (cy, (mem, (w, []))))
    as [[[]|e] [cy1 [mem1 [w1 log1]]]]; cbn [fst snd] in Hlog, Hwork; subst log1; [|done].
  destruct (outside_run list_leases cy1 mem1 w1 []) as (w2 & Hrun & Hw2).
  destruct (list_leases w1) as [[scan|e] w2'] eqn:Hl; cbn in Hrun, Hw2; subst w2';
    rewrite (bind_run _ _ _ _ _ Hrun); [|done].
  pose proof (serve_spec scan mem1 w2 (Hscan _ _ _ Hl)) as Hserve.
  unfold bind, lift_m. cbn [fst snd].
  destruct (serve polls config schedule (only_shards scan) (mem1, (w2, [])))
    as [r [mem2 [w3 log]]]. cbn [fst snd ret].
  destruct Hserve as (Htrue & Hnolog & Hother & Hready). exists w1, scan, w2.
  split_and!; [done| |done|done|].
  - rewrite Htrue. apply all_complete_spec. by eapply Hscan.
  - intros Hr. destruct (Hready Hr) as [now Hnow]. exists now. intros row Hrow.
    eapply same_work_passed; [exact Hwork|]. by apply Hnow.
Qed.
End passes.
