(* ===== verification/CycleCalls.v ===== *)
(** * What the calls of the passes keep, a cycle's passes keep

    [PassCalls] lifted to the whole of [process] (the choice [run_cycle] makes in
    [worker/src/fleet.rs] between one task per shard and the bounded pool): a
    relation on worlds that the calls of every pass and of the pool keep is kept by
    [process]; and on either path the calls about a shard are one run of the pass
    protocol. *)

From Stdlib Require Import Lia.
From stdpp Require Import base gmap sets numbers list strings.
From S2P Require Import Prelude Core Coordinator Interfaces Metrics CkptDefer Tasks FleetState.
From S2P Require Import ShardPass PassCalls Pool Fleet.

(** ** Relations *)

Section calls.
Context `{HashOrder} {W : Type} `{AsyncStreamSource W, AsyncLeaseStore W, ShardConsumerFactory W,
                     MetricsSink W, Clock W}.
Variables (R : relation (FleetMem * W)).
Context `{!PreOrder R}.

(** The calls of a cycle's passes over the shards of one owner. *)
Record CycleCalls (me : string) : Prop := {
  cycle_pass t (c : Consumer (W := W)) : st_owner t = me → PassCalls R t c;
  cycle_memory {A} (m : M (FleetMem * W) A) : (∀ x, (m x).2.2 = x.2) → keeps R m;
  cycle_create s : keeps R (lift_m (create s));
  cycle_slot_wait s n : keeps R (lift_m (on_processing_slot_wait s n));
  cycle_queue_depth n : keeps R (lift_m (on_processing_queue_depth n));
  cycle_now : keeps R (lift_m instant_now);
  cycle_sleep d : keeps R (lift_m (sleep d));
}.

Variables (polls : nat) (config : FleetConfig) (schedule : list nat).
Implicit Types (items : list (string * (N * option string))).
Hypothesis Hcalls : CycleCalls (fc_owner config).

Lemma calm_pool_worker claims : calm_task (under (S := PoolMem) R) (pool_worker polls config claims).
Proof.
  induction claims as [|n IH]; cbn [pool_worker]; [done|].
  apply calm_task_bind; [split; [|done]|intros [it|]; [|done]].
  { apply keeps_state; [apply _|]. intros [pm y]. unfold pop_front. cbn. by destruct (pm_queue pm). }
  apply calm_task_bind; [split; [apply keeps_under, (cycle_now _ Hcalls)|done]|intros now].
  apply calm_task_bind; [split; [apply keeps_under, (cycle_slot_wait _ Hcalls)|done]|intros _].
  apply calm_task_bind; [split; [apply keeps_under, (cycle_create _ Hcalls)|done]|intros c].
  apply calm_task_bind; [|intros [r|]; [|done]].
  { apply (calm_lift_task R); [done|]. by apply calm_process_shard, (cycle_pass _ Hcalls). }
  apply calm_task_bind; [split; [by apply keeps_state; [apply _|]|done]|intros _]. exact IH.
Qed.

Lemma keeps_workers k due : keeps R (run_workers polls config schedule k due).
Proof.
  intros x. unfold run_workers.
  assert (keeps (under (S := PoolMem) R)
    (join_all schedule (replicate k (pool_worker (W := W) polls config (S (length due)))))) as Hj.
  { apply calm_join; [apply _|]. apply Forall_replicate, calm_pool_worker. }
  specialize (Hj ({| pm_queue := due; pm_outcomes := [] |}, x)).
  by destruct (join_all _ _ _) as [bs [pm y]].
Qed.

Lemma keeps_pool items k now : keeps R (run_bounded_pool polls config schedule items k now).
Proof.
  unfold run_bounded_pool. apply keeps_bind; [apply _| |intros due].
  { apply (cycle_memory _ Hcalls). intros [mem w]. cbn. by destruct (refresh_sched _ _ _). }
  case_match.
  - apply keeps_bind; [apply _|apply (cycle_queue_depth _ Hcalls)|intros _].
    apply keeps_bind; [apply _|by apply (cycle_memory _ Hcalls)|intros [next|]]; [|apply keeps_ret; apply _].
    apply keeps_bind; [apply _|apply (cycle_now _ Hcalls)|intros t].
    apply keeps_bind; [apply _|apply (cycle_sleep _ Hcalls)|intros _]. apply keeps_ret; apply _.
  - apply keeps_bind; [apply _|apply (cycle_queue_depth _ Hcalls)|intros _].
    apply keeps_bind; [apply _|apply keeps_workers|intros r].
    apply keeps_bind; [apply _|apply (cycle_now _ Hcalls)|intros t].
    apply keeps_bind; [apply _|by apply (cycle_memory _ Hcalls)|intros _]. apply keeps_ret; apply _.
Qed.

Lemma keeps_process items now : keeps R (process polls config schedule items now).
Proof.
  unfold process. apply keeps_bind; [apply _|by apply (cycle_memory _ Hcalls)|intros [max|]].
  - apply keeps_bind; [apply _|apply keeps_pool|intros bs]. apply keeps_ret; apply _.
  - apply keeps_bind; [apply _| |intros rs; apply keeps_ret; apply _].
    apply keeps_unbounded; [apply _|apply (cycle_create _ Hcalls)|]. intros i c _. by apply (cycle_pass _ Hcalls).
Qed.

Hypothesis Hheld : ∀ n, keeps R (lift_m (on_leases_held n)).
Hypothesis Hlimit : ∀ n, keeps R (lift_m (on_max_processing_concurrency n)).

Lemma keeps_serve rows : keeps R (serve polls config schedule rows).
Proof.
  unfold serve, settle. apply keeps_bind; [apply _| |intros _].
  - apply keeps_bind; [apply _|apply Hheld|intros _].
    do 2 (apply keeps_bind; [apply _|by apply (cycle_memory _ Hcalls)|intros ?]).
    case_match; [apply Hlimit|apply keeps_ret; apply _].
  - case_match; [apply keeps_ret; apply _|].
    apply keeps_bind; [apply _|apply (cycle_now _ Hcalls)|intros t].
    apply keeps_bind; [apply _|apply keeps_process|intros b]. apply keeps_ret; apply _.
Qed.
End calls.

(** ** The protocol on either path *)

(** The calls about an item are a run of the pass protocol, perhaps an empty one. *)
Definition accepted (owner : string) (mem : FleetMem) (log : PLog)
    (item : string * (N * option string)) : Prop :=
  ∃ p, p_run owner (is_deferred mem) (pass_start mem (task_of owner item)) (proj item.1 log) = Some p.

Section accepted.
Context `{HashOrder} {W : Type} `{AsyncStreamSource W, AsyncLeaseStore W, ShardConsumerFactory W,
                     MetricsSink W, Clock W}.
Variables (polls : nat) (config : FleetConfig) (schedule : list nat).
Abbreviation me := (fc_owner config).
Abbreviation World := (FleetMem * (W * PLog))%type.
Implicit Types (items : list (string * (N * option string))) (mem : FleetMem).

Lemma pool_accepted items k now mem (w : W) item :
  NoDup items.*1 → item ∈ items →
  accepted me mem (run_bounded_pool polls config schedule items k now (mem, (w, []))
                   : list bool * World).2.2.2 item.
Proof.
  intros Hnd Hin.
  pose proof (λ it, refresh_sched_due now items (fm_sched mem) it Hnd) as Hdue.
  pose proof (refresh_sched_nodup now items (fm_sched mem) Hnd) as Hdnd.
  pose proof (pool_nothing_due polls config schedule items k now mem w) as Hnone.
  pose proof (pool_something_due polls config schedule items k now mem w) as Hsome.
  destruct (refresh_sched now items (fm_sched mem)) as [sched1 due] eqn:Href. cbn [fst snd] in *.
  destruct (decide (due = [])) as [->|Hne].
  { destruct (Hnone eq_refl) as (w' & ->). by eexists. }
  destruct (Hsome Hne) as (w1 & w2 & now2 & Hrun). cbn zeta in Hrun. rewrite Hrun. cbn [fst snd].
  destruct (decide (item.1 ∈ pi_shard <$> due)) as [Hd|Hd].
  - pose proof (run_workers_inv polls config (set_sched sched1 mem) due schedule k [] w1) as Hinv.
    rewrite app_nil_r in Hinv. specialize (Hinv Hdnd).
    destruct Hinv as (gd & gq & (_ & _ & Hall) & _ & _ & _ & Hst).
    destruct (Hst _ Hd) as (g & Hg & Hs & it & Hit & His & Hgs).
    rewrite Forall_forall in Hall. destruct (Hall g) as [Hat _]; [rewrite app_nil_r; exact Hg|].
    apply Hdue in Hit as (s' & n & cp & Hin' & -> & _). cbn in His. subst s'.
    pose proof (NoDup_key_inj fst items _ _ Hnd Hin' Hin eq_refl) as <-. cbn [fst] in *.
    exists (pg_now g). rewrite Hgs, Hs in Hat. exact Hat.
  - pose proof (workers_touch_queue polls config (set_sched sched1 mem) due schedule k w1 _ Hdnd Hd) as Hq.
    eexists. cbn [fst snd] in Hq |- *. by rewrite Hq.
Qed.

Lemma process_accepted items now mem (w : W) item :
  NoDup items.*1 → item ∈ items →
  accepted me mem (process polls config schedule items now (mem, (w, [])) : bool * World).2.2.2 item.
Proof.
  intros Hnd Hin. unfold process, bind, mem_get. cbn [fst snd].
  destruct (fm_processing_limit mem) as [max|].
  - pose proof (pool_accepted items (Nat.max max 1) now mem w item Hnd Hin) as Hs.
    by destruct (run_bounded_pool _ _ _ _ _ _ _) as [bs mw].
  - apply list_elem_of_lookup in Hin as [i Hi].
    destruct (passes_accepted polls me schedule items mem w i item Hnd Hi) as (r & p & _ & Hp & _).
    exists p. by destruct (process_unbounded _ _ _ _ _) as [rs mw].
Qed.

Lemma process_touches_items items now mem (w : W) s :
  NoDup items.*1 → s ∉ items.*1 →
  proj s (process polls config schedule items now (mem, (w, [])) : bool * World).2.2.2 = [].
Proof. intros Hnd Hs. by apply (process_spec polls config schedule items now mem w Hnd). Qed.
End accepted.
