(* ===== verification/Film.v ===== *)
(** * The moments of a run

    A world that also keeps every world the calls left, in order: a moment per call.
    Keeping it changes nothing of a run ([process_erases]), and each call's own
    relation between its world and the next holds from moment to moment
    ([film_calls]).  So a theorem can speak of the table as it was at any time during
    the passes of a cycle, and not only of the table they leave. *)

From stdpp Require Import base gmap numbers list strings.
From S2P Require Import Prelude Core Coordinator Interfaces Metrics CkptDefer Tasks FleetState.
From S2P Require Import ShardPass PassCalls Pool Fleet CycleCalls.

(** ** Runs of which one forgets what the other keeps *)

Section erase.
Context {X Y : Type} (π : Y → X).

(** The same answer, up to [S], and the same world but for what is forgotten. *)
Definition erases_as {A B} (S : A → B → Prop) (my : M Y A) (mx : M X B) : Prop :=
  ∀ y, S (my y).1 (mx (π y)).1 ∧ π (my y).2 = (mx (π y)).2.

Abbreviation erases := (erases_as eq).

Lemma erases_ret {A B} (S : A → B → Prop) a b : S a b → erases_as S (ret a) (ret b).
Proof. by split. Qed.

Lemma erases_bind {A A' B B'} (S : A → A' → Prop) (S' : B → B' → Prop) my mx ky kx :
  erases_as S my mx → (∀ a a', S a a' → erases_as S' (ky a) (kx a')) →
  erases_as S' (bind my ky) (bind mx kx).
Proof.
  intros Hm Hk y. unfold bind. destruct (Hm y) as [Ha Hy].
  destruct (my y) as [a y1], (mx (π y)) as [a' x1]. cbn in *. subst x1. by apply Hk.
Qed.

Lemma erases_then {A B} (my : M Y A) (mx : M X A) (ky : A → M Y B) kx :
  erases my mx → (∀ a, erases (ky a) (kx a)) → erases (bind my ky) (bind mx kx).
Proof. intros Hm Hk. eapply erases_bind; [exact Hm|]. intros a ? <-. apply Hk. Qed.

(** Tasks, action by action. *)
Inductive task_erases {A} : Task Y A → Task X A → Prop :=
| te_finish a : task_erases (Finish a) (Finish a)
| te_await R (my : M Y R) mx ky kx :
    erases my mx → (∀ r, task_erases (ky r) (kx r)) → task_erases (Await my ky) (Await mx kx).

Lemma te_bind {A B} ty tx (ky : A → Task Y B) kx :
  task_erases ty tx → (∀ a, task_erases (ky a) (kx a)) → task_erases (task_bind ty ky) (task_bind tx kx).
Proof. intros Ht Hk. induction Ht; [apply Hk|]. by constructor. Qed.

Lemma te_act {A} (my : M Y A) mx : erases my mx → task_erases (act my) (act mx).
Proof. intros Hm. constructor; [exact Hm|constructor]. Qed.

Lemma erases_step {A} (ty : Task Y A) tx : task_erases ty tx → erases_as task_erases (step_task ty) (step_task tx).
Proof.
  intros Ht. destruct Ht as [a|R my mx ky kx Hm Hk]; [apply erases_ret; constructor|]. cbn.
  eapply erases_bind; [exact Hm|]. intros r ? <-. apply erases_ret, Hk.
Qed.

Lemma erases_exec {A} (ty : Task Y A) tx : task_erases ty tx → erases (exec ty) (exec tx).
Proof. intros Ht. induction Ht; [by apply erases_ret|]. by apply erases_then. Qed.

Lemma erases_exec_all {A} (tys : list (Task Y A)) txs :
  Forall2 task_erases tys txs → erases (exec_all tys) (exec_all txs).
Proof.
  intros Hts. induction Hts; [by apply erases_ret|].
  apply erases_then; [by apply erases_exec|intros a]. apply erases_then; [done|intros ?]. by apply erases_ret.
Qed.

Lemma erases_interleave {A} schedule (tys : list (Task Y A)) txs :
  Forall2 task_erases tys txs →
  erases_as (Forall2 task_erases) (interleave schedule tys) (interleave schedule txs).
Proof.
  revert tys txs. induction schedule as [|i schedule IH]; intros tys txs Hts; [by apply erases_ret|].
  cbn [interleave]. pose proof (proj1 (Forall2_lookup _ _ _) Hts i) as Hi.
  destruct Hi as [ty tx Ht|]; [|by apply IH].
  eapply erases_bind; [by apply erases_step|]. intros ty' tx' Ht'. apply IH. by apply Forall2_insert.
Qed.

Lemma erases_join {A} schedule (tys : list (Task Y A)) txs :
  Forall2 task_erases tys txs → erases (join_all schedule tys) (join_all schedule txs).
Proof.
  intros Hts. eapply erases_bind; [by apply erases_interleave|]. intros. by apply erases_exec_all.
Qed.
End erase.
Abbreviation erases π := (erases_as π eq).

(** Beside a memory that both keep. *)
Definition beside {S X Y} (π : Y → X) (y : S * Y) : S * X := (y.1, π y.2).

Section beside.
Context {S X Y : Type} (π : Y → X).

Lemma erases_lift {A B} (P : A → B → Prop) my mx :
  erases_as π P my mx → erases_as (beside (S := S) π) P (lift_m my) (lift_m mx).
Proof.
  intros Hm [s y]. unfold lift_m, beside. cbn. destruct (Hm y) as [Ha Hy].
  destruct (my y) as [a y1], (mx (π y)) as [a' x1]. cbn in *. by subst.
Qed.

Lemma te_lift {A} (ty : Task Y A) tx :
  task_erases π ty tx → task_erases (beside (S := S) π) (lift_task ty) (lift_task tx).
Proof. intros Ht. induction Ht; cbn; constructor; [by apply erases_lift|done]. Qed.
End beside.

(** ** The film *)

Section film.
Context {X : Type}.
Abbreviation Y := (X * list X)%type.

Definition filmed {A} (m : M X A) : M Y A :=
  λ y, let '(a, x') := m y.1 in (a, (x', y.2 ++ [x'])).

Lemma filmed_erases {A} (m : M X A) : erases fst (filmed m) m.
Proof. intros [x f]. unfold filmed. cbn. by destruct (m x). Qed.

Section world.
Context `{AsyncStreamSource X, AsyncLeaseStore X, ShardConsumerFactory X, MetricsSink X, Clock X}.

#[export] Instance film_source : AsyncStreamSource Y := {|
  describe_shards := filmed describe_shards;
  get_records s after := filmed (get_records s after);
  describe_child_shards p := filmed (describe_child_shards p);
|}.
#[export] Instance film_leases : AsyncLeaseStore Y := {|
  get k := filmed (get k);
  list_leases := filmed list_leases;
  acquire k o := filmed (acquire k o);
  renew k o n := filmed (renew k o n);
  heartbeat w := filmed (heartbeat w);
  checkpoint k o n q := filmed (checkpoint k o n q);
  mark_complete k o n := filmed (mark_complete k o n);
  release k o n := filmed (release k o n);
  delete_lease k := filmed (delete_lease k);
  create_shard_lease k ps cp := filmed (create_shard_lease k ps cp);
  try_acquire_leadership k o e := filmed (try_acquire_leadership k o e);
|}.
#[export] Instance film_consumers : ShardConsumerFactory Y := {|
  Consumer := Consumer (W := X);
  create s := filmed (create s);
  deliver c rs := filmed (deliver c rs);
  consumer_ended c := filmed (consumer_ended c);
  consumer_lost c := filmed (consumer_lost c);
|}.
#[export] Instance film_metrics : MetricsSink Y := {|
  on_batch m := filmed (on_batch m);
  on_shard_end s := filmed (on_shard_end s);
  on_describe_stream := filmed on_describe_stream;
  on_lease_acquired s := filmed (on_lease_acquired s);
  on_lease_lost s := filmed (on_lease_lost s);
  on_leases_held n := filmed (on_leases_held n);
  on_processing_slot_wait s n := filmed (on_processing_slot_wait s n);
  on_max_processing_concurrency n := filmed (on_max_processing_concurrency n);
  on_processing_queue_depth n := filmed (on_processing_queue_depth n);
|}.
#[export] Instance film_clock : Clock Y := {| instant_now := filmed instant_now; sleep d := filmed (sleep d) |}.

(** ** Filming changes nothing *)

Abbreviation cut := (beside (S := FleetMem) (fst : Y → X)).

Lemma erases_call {A} (m : M X A) : erases cut (lift_m (filmed m)) (lift_m m).
Proof. apply erases_lift, filmed_erases. Qed.

Lemma erases_defer {R} (f : CkptDefer → R * CkptDefer) : erases cut (defer_call f) (defer_call f).
Proof.
  intros [mem y]. unfold defer_call, beside. cbn. destruct (fm_ckpt_defer mem) as [d|]; [|done].
  by destruct (f d).
Qed.

Ltac erase :=
  repeat first
    [ apply te_finish
    | apply te_bind; [|intros ?]
    | apply te_act; first [apply erases_call | apply erases_defer | intros [? ?]; done]
    | progress case_match ].

Lemma pass_erases polls t (c : Consumer (W := X)) :
  task_erases cut (process_shard (W := Y) t c polls) (process_shard (W := X) t c polls).
Proof.
  unfold process_shard. apply te_bind; [erase|intros pending].
  assert (∀ n a any, task_erases cut (pass_loop (W := Y) t c polls n a any) (pass_loop (W := X) t c polls n a any)) as Hl;
    [|apply Hl].
  induction polls as [|polls IH]; intros n a any; cbn [pass_loop]; [constructor|].
  unfold deliver_batch, end_shard, flush_pending, save_ack, save_due, save_now, lost, call.
  erase; apply IH.
Qed.
Variables (polls : nat) (config : FleetConfig) (schedule : list nat).

Lemma worker_erases claims :
  task_erases (beside (S := PoolMem) cut) (pool_worker (W := Y) polls config claims)
    (pool_worker (W := X) polls config claims).
Proof.
  assert (∀ A (m : M X A), erases (beside (S := PoolMem) cut) (on_world (filmed m)) (on_world m)) as Hcall.
  { intros A m. apply erases_lift, erases_call. }
  induction claims as [|n IH]; cbn [pool_worker]; [constructor|].
  apply te_bind; [apply te_act|intros [it|]; [|constructor]].
  { intros [pm y]. unfold pop_front, beside. cbn. by destruct (pm_queue pm). }
  apply te_bind; [apply te_act, Hcall|intros now].
  apply te_bind; [apply te_act, Hcall|intros _].
  apply te_bind; [apply te_act, Hcall|intros c].
  apply te_bind; [apply te_lift, pass_erases|intros [r|]; [|constructor]].
  apply te_bind; [by apply te_act|intros _]. exact IH.
Qed.

Lemma workers_erase k due :
  erases cut (run_workers (W := Y) polls config schedule k due) (run_workers (W := X) polls config schedule k due).
Proof.
  intros y. unfold run_workers.
  pose proof (erases_join (beside (S := PoolMem) cut) schedule
    (replicate k (pool_worker (W := Y) polls config (S (length due)))) _
    (Forall2_replicate _ k _ _ (worker_erases (S (length due))))
    ({| pm_queue := due; pm_outcomes := [] |}, y)) as [Hr Hy].
  unfold beside at 1 in Hr. unfold beside in Hy at 2. cbn [fst snd] in Hr, Hy.
  destruct (join_all _ _ _) as [bs [pm y']]. destruct (join_all _ _ _) as [bs' [pm' x']].
  unfold beside in Hy at 1. cbn in *. by simplify_eq.
Qed.

Ltac erase_then := apply erases_then; [first [apply erases_call | by intros [? ?]]|intros ?].

Lemma pool_erases items k now :
  erases cut (run_bounded_pool (W := Y) polls config schedule items k now)
    (run_bounded_pool (W := X) polls config schedule items k now).
Proof.
  unfold run_bounded_pool. apply erases_then; [|intros due].
  { intros [mem y]. cbn. by destruct (refresh_sched _ _ _). }
  case_match.
  - erase_then. erase_then. case_match; [|by apply erases_ret]. erase_then. erase_then. by apply erases_ret.
  - erase_then. apply erases_then; [apply workers_erase|intros r]. erase_then. erase_then. by apply erases_ret.
Qed.

Lemma spawn_erases items :
  erases_as cut (Forall2 (task_erases cut)) (spawn_all (W := Y) polls (fc_owner config) items)
    (spawn_all (W := X) polls (fc_owner config) items).
Proof.
  induction items as [|i items IH]; cbn [spawn_all]; [by apply erases_ret|].
  eapply erases_bind; [apply erases_call|]. intros c ? <-. eapply erases_bind; [exact IH|].
  intros ts ts' Hts. apply erases_ret. constructor; [apply pass_erases|done].
Qed.

(** The filmed run of a cycle's passes is the run. *)
Lemma process_erases items now :
  erases cut (process (W := Y) polls config schedule items now) (process (W := X) polls config schedule items now).
Proof.
  unfold process. apply erases_then; [by intros [? ?]|intros [max|]].
  - apply erases_then; [apply pool_erases|intros bs]. by apply erases_ret.
  - apply erases_then; [|intros rs; by apply erases_ret].
    eapply erases_bind; [apply spawn_erases|]. intros. by apply erases_join.
Qed.

Lemma process_cut items now mem x f :
  let run := (process (W := Y) polls config schedule items now (mem, (x, f)) : bool * (FleetMem * Y)) in
  process (W := X) polls config schedule items now (mem, x) = (run.1, (run.2.1, run.2.2.1)).
Proof.
  destruct (process_erases items now (mem, (x, f))) as [Hr Hx]. cbn zeta. symmetry.
  rewrite (surjective_pairing (process (W := X) _ _ _ _ _ _)). by f_equal.
Qed.

(** ** From moment to moment *)

Variable R : relation X.
Context `{!Reflexive R}.

Fixpoint path (x : X) (f : list X) (x' : X) : Prop :=
  match f with [] => x = x' | y :: f' => R x y ∧ path y f' x' end.

Lemma path_app x f1 f2 x' : path x (f1 ++ f2) x' ↔ ∃ y, path x f1 y ∧ path y f2 x'.
Proof.
  revert x. induction f1 as [|z f1 IH]; intros x; cbn; [naive_solver|]. rewrite IH. naive_solver.
Qed.

Lemma path_last x f y : path x f y → last (x :: f) = Some y.
Proof. revert x. induction f as [|z f IH]; intros x; cbn [path]; [by intros ->|]. intros [_ Hp]. exact (IH z Hp). Qed.

(** The film is longer by the moments of a path. *)
Definition runs_on (y y' : Y) : Prop := ∃ f, y'.2 = y.2 ++ f ∧ path y.1 f y'.1.

#[export] Instance runs_on_preorder : PreOrder runs_on.
Proof.
  split; [intros y; exists []; by rewrite app_nil_r|].
  intros y1 y2 y3 (f1 & Hf1 & Hp1) (f2 & Hf2 & Hp2). exists (f1 ++ f2).
  rewrite Hf2, Hf1, app_assoc. split; [done|]. apply path_app. by exists y2.1.
Qed.

Lemma filmed_runs {A} (m : M X A) : keeps R m → keeps runs_on (filmed m).
Proof.
  intros Hm [x f]. specialize (Hm x). unfold filmed. cbn. destruct (m x) as [a x']. by exists [x'].
Qed.

Lemma film_calls me : CycleCalls (W := X) (under R) me → CycleCalls (W := Y) (under runs_on) me.
Proof.
  intros Hc.
  assert (∀ A (m : M X A), keeps (under (S := FleetMem) R) (lift_m m) → keeps (under (S := FleetMem) runs_on) (lift_m (filmed m))) as Hf.
  { intros A m Hm. apply keeps_under, filmed_runs. intros x. specialize (Hm (Fleet_new, x)).
    unfold under, lift_m in Hm. cbn in Hm. by destruct (m x). }
  assert (∀ A (m : M (FleetMem * Y) A), (∀ x, (m x).2.2 = x.2) → keeps (under (S := FleetMem) runs_on) m) as Hmem.
  { intros A m Hm x. unfold under. by rewrite Hm. }
  split; intros; try by apply Hmem.
  - destruct (cycle_pass _ _ Hc t c) as [[] ? ?]; [done|].
    split; [split|..]; intros; first [by apply Hmem | apply Hf; auto].
  - apply Hf, (cycle_create _ _ Hc).
  - apply Hf, (cycle_slot_wait _ _ Hc).
  - apply Hf, (cycle_queue_depth _ _ Hc).
  - apply Hf, (cycle_now _ _ Hc).
  - apply Hf, (cycle_sleep _ _ Hc).
Qed.

Lemma path_mid x f1 y f2 z : path x (f1 ++ y :: f2) z → path x (f1 ++ [y]) y ∧ path y f2 z.
Proof.
  rewrite !path_app. intros (u & Hu & Hy & Hz). cbn in Hy, Hz. split; [|done]. exists u. by split_and!.
Qed.

(** So the passes of a cycle go from moment to moment along the relation that each of
    their calls keeps. *)
Lemma process_path items now mem x :
  CycleCalls (W := X) (under R) (fc_owner config) →
  let run := (process (W := Y) polls config schedule items now (mem, (x, [])) : bool * (FleetMem * Y)) in
  path x run.2.2.2 run.2.2.1.
Proof.
  intros Hc. destruct (keeps_process (under runs_on) polls config schedule (film_calls _ Hc) items now (mem, (x, [])))
    as (f & Hf & Hp). cbn zeta. cbn [fst snd app] in *. by rewrite Hf.
Qed.
End world.
End film.
