(* ===== verification/WorkerCalls.v ===== *)
(** * What a worker's calls keep, the worker keeps

    [CycleCalls] lifted to the rest of [worker/src/fleet.rs]: leadership, shard sync,
    cleanup and claims, a whole cycle, and the release on shutdown.  The name under
    which the calls are made matters to some relations, so the premises ask for the
    calls of [mine] only. *)

From stdpp Require Import base gmap sets numbers list strings.
From S2P Require Import Prelude Core Coordinator Leader Interfaces Metrics CkptDefer Tasks.
From S2P Require Import LeaderElection FleetState ShardPass PassCalls Pool FleetSync Fleet CycleCalls.

Section worker.
Context `{HashOrder} {W : Type} `{AsyncStreamSource W, AsyncLeaseStore W, ShardConsumerFactory W,
                     MetricsSink W, Clock W}.
Variables (R : relation (FleetMem * W)) (mine : string → Prop) (config : FleetConfig).
Context `{!PreOrder R}.
Abbreviation me := (fc_owner config).

(** ** Premises *)

(** The bids for leadership, in a name of [mine]. *)
Record BidCalls : Prop := {
  bid_renew o n : mine o → keeps R (lift_m (renew LEADER_LEASE_KEY o n));
  bid_acquire o e : mine o → keeps R (lift_m (try_acquire_leadership LEADER_LEASE_KEY o e));
}.

(** The calls before the heartbeat of a cycle: leadership, sync and cleanup. *)
Record LeadCalls : Prop := {
  lead_memory {A} (m : M (FleetMem * W) A) : (∀ x, (m x).2.2 = x.2) → keeps R m;
  lead_list : keeps R (lift_m list_leases);
  lead_bids : BidCalls;
  lead_on_describe : keeps R (lift_m on_describe_stream);
  lead_describe : keeps R (lift_m describe_shards);
  lead_children p : keeps R (lift_m (describe_child_shards p));
  lead_publish k ps cp : keeps R (lift_m (create_shard_lease k ps cp));
  lead_delete k : keeps R (lift_m (delete_lease k));
}.

(** The calls that claim the worker's share. *)
Record ClaimCalls : Prop := {
  claim_list : keeps R (lift_m list_leases);
  claim_acquire k : keeps R (lift_m (acquire k me));
  claim_acquired k : keeps R (lift_m (on_lease_acquired k));
}.

(** The calls of the release. *)
Record ReleaseCalls : Prop := {
  release_memory {A} (m : M (FleetMem * W) A) : (∀ x, (m x).2.2 = x.2) → keeps R m;
  release_list : keeps R (lift_m list_leases);
  release_checkpoint k n q : keeps R (lift_m (checkpoint k me n q));
  release_release k n : keeps R (lift_m (release k me n));
}.

(** ** Shard sync and cleanup *)

Section leads.
Hypothesis Hlead : LeadCalls.

Ltac lead_call :=
  first [apply (lead_on_describe Hlead) | apply (lead_describe Hlead) | apply (lead_children Hlead)
        | apply (lead_publish Hlead) | apply (lead_delete Hlead)
        | apply (lead_memory Hlead); intros [? ?]; done].

Ltac lead_steps :=
  repeat first [lead_call | apply keeps_ret; apply _ | apply keeps_bind_ok; [apply _| |intros ?]
    | apply keeps_bind; [apply _| |intros ?] | apply keeps_for_each; [apply _|intros ?]
    | progress case_match].

Lemma keeps_sync rows : keeps R (leader_shard_sync config rows).
Proof.
  unfold leader_shard_sync, seed_roots, publish. lead_steps.
  generalize (hash_set_order (completed_keys rows)) as ps. intros ps.
  induction ps as [|p ps IH]; cbn [sync_parents]; [lead_steps|].
  case_match; [|exact IH]. unfold sync_parent at 1, publish.
  apply keeps_bind; [apply _|lead_steps|intros ok].
  apply keeps_bind; [apply _|exact IH|intros l]. lead_steps.
Qed.

Lemma keeps_cleanup rows : keeps R (cleanup_completed_leases rows).
Proof. unfold cleanup_completed_leases. lead_steps. Qed.
End leads.

(** ** Leadership: the bidder keeps its name *)

(** From a state that bids in a name of [mine], to another one. *)
Definition in_office (x y : Cycle * (FleetMem * W)) : Prop :=
  mine (ld_owner (cy_leadership x.1)) → mine (ld_owner (cy_leadership y.1)) ∧ R x.2 y.2.

#[export] Instance in_office_preorder : PreOrder in_office.
Proof.
  split; [intros x Hx; by split|]. intros x y z Hxy Hyz Hx.
  destruct (Hxy Hx) as [Hy Rxy]. destruct (Hyz Hy) as [Hz Ryz]. split; [done|by etrans].
Qed.

Lemma keeps_office {A} (m : M (FleetMem * W) A) : keeps R m → keeps in_office (lift_m m).
Proof.
  intros Hm [cy x] Hcy. unfold lift_m. cbn. specialize (Hm x). by destruct (m x).
Qed.

Lemma step_keeps_name l rows now_ms (w : W) : ld_owner (step l rows now_ms w).1.2 = ld_owner l.
Proof.
  unfold step. destruct (tick _ _ _) as [takes coord].
  repeat case_match; unfold bind, ret; repeat case_match; by simplify_eq.
Qed.

Lemma keeps_step l rows now_ms mem (w : W) :
  BidCalls → mine (ld_owner l) → R (mem, w) (mem, (step l rows now_ms w).2).
Proof.
  intros Hc Hl. unfold step. destruct (tick _ _ _) as [takes coord].
  pose proof (λ n, bid_renew Hc (ld_owner l) n Hl (mem, w)) as Hr.
  pose proof (λ e, bid_acquire Hc (ld_owner l) e Hl (mem, w)) as Hb.
  unfold lift_m in Hr, Hb. cbn [fst snd] in Hr, Hb.
  repeat case_match; unfold bind, ret; cbn [fst snd]; try reflexivity.
  - specialize (Hr (rl_lease_counter r)). by destruct (renew _ _ _ w).
  - specialize (Hr (ld_counter l)). by destruct (renew _ _ _ w).
  - specialize (Hb (Some (rl_lease_counter r))). by destruct (try_acquire_leadership _ _ _ w).
  - specialize (Hb None). by destruct (try_acquire_leadership _ _ _ w).
Qed.

Lemma keeps_lead rows now_ms : BidCalls → keeps in_office (lead rows now_ms).
Proof.
  intros Hc [cy [mem w]] Hcy. cbn in Hcy.
  pose proof (step_keeps_name (cy_leadership cy) rows now_ms w) as Hn.
  pose proof (keeps_step (cy_leadership cy) rows now_ms mem w Hc Hcy) as Hs.
  unfold lead. destruct (step _ _ _ w) as [[b l] w']. cbn in *. by rewrite Hn.
Qed.

Lemma keeps_tick rows now_ms : keeps in_office (tick_coordinator rows now_ms).
Proof. intros [cy x] Hcy. unfold tick_coordinator. by destruct (tick _ _ _). Qed.

Lemma keeps_lead_and_sync now_ms : LeadCalls → keeps in_office (lead_and_sync config now_ms).
Proof.
  intros Hc. unfold lead_and_sync, sync_as_leader.
  apply keeps_bind_ok; [apply _|apply keeps_office, (lead_list Hc)|intros rows].
  apply keeps_bind; [apply _|by apply keeps_lead, (lead_bids Hc)|intros leading].
  case_match; [|apply keeps_ret; apply _].
  apply keeps_bind_ok; [apply _|by apply keeps_office, keeps_sync|intros _].
  apply keeps_bind; [apply _|by apply keeps_office, keeps_cleanup|intros _]. apply keeps_ret; apply _.
Qed.

Lemma keeps_claim_share now_ms : ClaimCalls → keeps in_office (claim_share config now_ms).
Proof.
  intros Hc. unfold claim_share, claim.
  apply keeps_bind_ok; [apply _|apply keeps_office, (claim_list Hc)|intros rows].
  apply keeps_bind; [apply _|apply keeps_tick|intros keys].
  apply keeps_bind; [apply _| |intros _; apply keeps_ret; apply _].
  apply keeps_for_each; [apply _|intros k].
  apply keeps_bind; [apply _|apply keeps_office, (claim_acquire Hc)|intros r].
  case_match; [apply keeps_office, (claim_acquired Hc)|apply keeps_ret; apply _].
Qed.

(** ** A whole cycle *)

Record WorkerCallsKept : Prop := {
  worker_passes : CycleCalls R me;
  worker_leads : LeadCalls;
  worker_claims : ClaimCalls;
  worker_releases : ReleaseCalls;
  worker_heartbeat : keeps R (lift_m (heartbeat me));
  worker_held n : keeps R (lift_m (on_leases_held n));
  worker_limit n : keeps R (lift_m (on_max_processing_concurrency n));
}.

Lemma keeps_run_cycle polls schedule now_ms :
  WorkerCallsKept → keeps in_office (run_cycle polls config schedule now_ms).
Proof.
  intros Hc. unfold run_cycle, coordinate.
  apply keeps_bind_ok; [apply _| |intros _].
  - apply keeps_bind_ok; [apply _|apply keeps_lead_and_sync, (worker_leads Hc)|intros _].
    apply keeps_bind; [apply _|apply keeps_office, (worker_heartbeat Hc)|intros _].
    apply keeps_claim_share, (worker_claims Hc).
  - apply keeps_bind_ok; [apply _|apply keeps_office, (lead_list (worker_leads Hc))|intros rows].
    apply keeps_bind; [apply _| |intros r; apply keeps_ret; apply _].
    apply keeps_office, keeps_serve;
      [apply _|apply (worker_passes Hc)|apply (worker_held Hc)|apply (worker_limit Hc)].
Qed.

(** ** Release *)

Lemma keeps_release_owned : ReleaseCalls → keeps R (release_owned config).
Proof.
  intros Hc. unfold release_owned.
  apply keeps_bind_ok; [apply _|apply (release_list Hc)|intros rows].
  apply keeps_bind; [apply _| |intros n; apply keeps_ret; apply _]. generalize 0 as n.
  induction rows as [|r rows IH]; intros n; cbn [release_rows]; [apply keeps_ret; apply _|].
  case_match; [|apply IH]. apply keeps_bind; [apply _| |intros ok; apply IH].
  unfold release_row, flush_for_release. apply keeps_bind; [apply _| |intros c].
  - apply keeps_bind; [apply _| |intros p].
    { apply (release_memory Hc). intros [mem w]. unfold defer_call. cbn.
      destruct (fm_ckpt_defer mem) as [d|]; [|done]. by destruct (take_pending d _). }
    apply keeps_bind; [apply _| |intros c].
    { repeat case_match; try (apply keeps_ret; apply _).
      apply keeps_bind; [apply _|apply (release_checkpoint Hc)|intros r'; apply keeps_ret; apply _]. }
    apply keeps_bind; [apply _|by apply (release_memory Hc)|intros _; apply keeps_ret; apply _].
  - apply keeps_bind; [apply _|apply (release_release Hc)|intros o; apply keeps_ret; apply _].
Qed.
End worker.

(** Where the name of the bidder does not matter. *)
Lemma keeps_any_name {W A} (R : relation (FleetMem * W)) (m : M (Cycle * (FleetMem * W)) A) :
  keeps (in_office R (λ _, True)) m → keeps (under R) m.
Proof. intros Hm x. by destruct (Hm x I). Qed.
