(* ===== verification/FleetLive.v ===== *)
(** * Every cycle returns, if the backlog is finite

    A pass polls until a batch is empty or ends the shard, so it returns only if the
    stream runs dry.  The interface [Backlog] states what that takes of the world: a
    bound on the polls left from every position, which a non-empty batch lowers and
    no other call raises.  Under it the bounds of the model are never reached:
    passes, pool and cycles return. *)

From Stdlib Require Import Lia.
From stdpp Require Import base gmap sets numbers list strings.
From S2P Require Import Prelude Core Coordinator Leader Interfaces Metrics CkptDefer Tasks.
From S2P Require Import LeaderElection FleetState ShardPass PassCalls Pool FleetSync Fleet.

Definition calm {W} (remaining : W → string → option string → nat) {A} (m : M W A) : Prop :=
  ∀ w s a, remaining (m w).2 s a ≤ remaining w s a.

Class Backlog (W : Type) `{AsyncStreamSource W, AsyncLeaseStore W, ShardConsumerFactory W,
                           MetricsSink W, Clock W} := {
  remaining : W → string → option string → nat;
  fetch_left s a w : match (get_records s a w).1 with
    | Ok b => rb_records b ≠ [] → rb_shard_end b = false →
        remaining (get_records s a w).2 s (last_seq (rb_records b)) < remaining w s a
    | Err _ => True
    end;
  calm_fetch s a : calm remaining (get_records s a);
  calm_describe : calm remaining describe_shards;
  calm_children p : calm remaining (describe_child_shards p);
  calm_list : calm remaining list_leases;
  calm_acquire k o : calm remaining (acquire k o);
  calm_renew k o n : calm remaining (renew k o n);
  calm_heartbeat o : calm remaining (heartbeat o);
  calm_checkpoint k o n q : calm remaining (checkpoint k o n q);
  calm_complete k o n : calm remaining (mark_complete k o n);
  calm_delete k : calm remaining (delete_lease k);
  calm_publish k ps cp : calm remaining (create_shard_lease k ps cp);
  calm_bid k o e : calm remaining (try_acquire_leadership k o e);
  calm_create s : calm remaining (create s);
  calm_deliver c rs : calm remaining (deliver c rs);
  calm_ended c : calm remaining (consumer_ended c);
  calm_lost c : calm remaining (consumer_lost c);
  calm_batch m : calm remaining (on_batch m);
  calm_shard_end s : calm remaining (on_shard_end s);
  calm_described : calm remaining on_describe_stream;
  calm_acquired s : calm remaining (on_lease_acquired s);
  calm_lease_lost s : calm remaining (on_lease_lost s);
  calm_held n : calm remaining (on_leases_held n);
  calm_slot s n : calm remaining (on_processing_slot_wait s n);
  calm_concurrency n : calm remaining (on_max_processing_concurrency n);
  calm_depth n : calm remaining (on_processing_queue_depth n);
  calm_now : calm remaining instant_now;
  calm_sleep d : calm remaining (sleep d);
}.

Create HintDb calm.
#[export] Hint Resolve calm_fetch calm_describe calm_children calm_list calm_acquire calm_renew
  calm_heartbeat calm_checkpoint calm_complete calm_delete calm_publish calm_bid calm_create
  calm_deliver calm_ended calm_lost calm_batch calm_shard_end calm_described calm_acquired
  calm_lease_lost calm_held calm_slot calm_concurrency calm_depth calm_now calm_sleep : calm.

Section live.
Context `{HashOrder} {W : Type} `{HB : Backlog W}.

Definition not_more (w w' : W) : Prop := ∀ s a, remaining w' s a ≤ remaining w s a.
#[export] Instance not_more_preorder : PreOrder not_more.
Proof. split; [intros w s a; done|]. intros x y z Hx Hy s a. etrans; [apply Hy|apply Hx]. Qed.

Definition mem_more (x y : FleetMem * W) : Prop := not_more x.2 y.2.
#[export] Instance mem_more_preorder : PreOrder mem_more.
Proof. split; [intros w s a; done|]. intros x y z Hx Hy s a. etrans; [apply Hy|apply Hx]. Qed.

Lemma keeps_call {A} (m : M W A) : calm remaining m → keeps mem_more (lift_m m).
Proof. intros Hm [mem w] s a. unfold lift_m. cbn. specialize (Hm w s a). by destruct (m w). Qed.

Lemma keeps_memory {A} (m : M (FleetMem * W) A) : (∀ x, (m x).2.2 = x.2) → keeps mem_more m.
Proof. intros Hm x s a. by rewrite Hm. Qed.

Lemma keeps_defer_call {R} (f : CkptDefer → R * CkptDefer) :
  keeps mem_more (defer_call (W := W) f).
Proof.
  apply keeps_memory. intros [mem w]. unfold defer_call. cbn.
  destruct (fm_ckpt_defer mem) as [d|]; [|done]. by destruct (f d).
Qed.

Lemma backlog_calls t c : PassCalls mem_more t c.
Proof.
  split; [split| |]; intros; first [by apply keeps_memory | apply keeps_call; auto with calm].
Qed.

Variables (t : ShardTask) (c : Consumer (W := W)).

(** ** A pass returns *)

(** A poll position and a bound on the polls from there. *)
Record PollGhost := { lg_shard : string; lg_after : option string; lg_polls : nat }.

(** At most [n] polls remain from anywhere, and the bounds of the positions hold. *)
Definition LInv (n : nat) (gs : list PollGhost) (x : FleetMem * W) : Prop :=
  (∀ s a, remaining x.2 s a ≤ n) ∧
  Forall (λ g, remaining x.2 (lg_shard g) (lg_after g) ≤ lg_polls g) gs.

#[export] Instance LInv_perm n x : Proper ((≡ₚ) ==> iff) (λ gs, LInv n gs x).
Proof. intros gs1 gs2 Hp. unfold LInv. by rewrite Hp. Qed.

Lemma LInv_more n gs x y : mem_more x y → LInv n gs x → LInv n gs y.
Proof.
  intros Hm [Hn Hgs]. split; [intros s a; etrans; [apply Hm|apply Hn]|].
  eapply Forall_impl; [exact Hgs|]. intros g Hg. cbn in *. etrans; [apply Hm|exact Hg].
Qed.

Lemma live_calm {A B} n h (u : Task (FleetMem * W) A) (k : A → Task (FleetMem * W) B) Q :
  calm_task mem_more u → (∀ a, rsafe (LInv n) h (k a) Q) → rsafe (LInv n) h (task_bind u k) Q.
Proof. apply rsafe_calm. intros f x y. apply LInv_more. Qed.

Lemma live_fetch {B} n g (k : Result RecordBatch WorkerError → Task (FleetMem * W) B) Q :
  (∀ r, match r with
        | Ok b => rb_records b ≠ [] → rb_shard_end b = false → 0 < lg_polls g
        | Err _ => True
        end →
     rsafe (LInv n) [match r with
            | Ok b => if bool_decide (rb_records b = []) || rb_shard_end b then g
                      else {| lg_shard := lg_shard g; lg_after := last_seq (rb_records b);
                              lg_polls := pred (lg_polls g) |}
            | Err _ => g
            end] (k r) Q) →
  rsafe (LInv n) [g] (task_bind (call (get_records (lg_shard g) (lg_after g))) k) Q.
Proof.
  intros Hk. cbn [call act task_bind rsafe]. intros f [mem w] [Hn Hgs]. cbn [app] in Hgs.
  apply Forall_cons in Hgs as [Hg Hgs]. cbn [snd] in *.
  pose proof (fetch_left (lg_shard g) (lg_after g) w) as Hf.
  pose proof (calm_fetch (lg_shard g) (lg_after g) w) as Hc.
  unfold lift_m. cbn [fst snd]. destruct (get_records _ _ w) as [r w']. cbn [fst snd] in *.
  eexists. split; [|apply Hk; destruct r; [intros Hp1 Hp2; specialize (Hf Hp1 Hp2); lia|done]].
  split; [intros s a; etrans; [apply Hc|apply Hn]|]. constructor.
  - destruct r as [b|e]; [|etrans; [apply Hc|exact Hg]].
    destruct (bool_decide_reflect (rb_records b = [])) as [|Hne]; cbn [orb].
    { etrans; [apply Hc|exact Hg]. }
    destruct (rb_shard_end b); cbn [lg_shard lg_after lg_polls]; [etrans; [apply Hc|exact Hg]|].
    specialize (Hf Hne eq_refl). cbn [snd]. lia.
  - eapply Forall_impl; [exact Hgs|]. intros g' Hg'. cbn in *. etrans; [apply Hc|exact Hg'].
Qed.

Lemma live_pass_loop n polls counter after any m :
  m < polls →
  rsafe (LInv n) [{| lg_shard := st_shard t; lg_after := after; lg_polls := m |}]
    (pass_loop t c polls counter after any) (λ r _, r ≠ None).
Proof.
  revert counter after any m. induction polls as [|polls IH]; intros counter after any m Hm; [lia|].
  cbn [pass_loop]. apply (live_fetch n {| lg_shard := st_shard t; lg_after := after; lg_polls := m |}).
  cbn [lg_shard lg_after lg_polls]. intros [b|e] Hpos; [|done].
  destruct (bool_decide_reflect (rb_records b = [])) as [Hnil|Hne]; cbn [orb task_bind].
  - destruct (rb_shard_end b); [|done]. apply live_calm; [apply calm_end_shard, backlog_calls|done].
  - apply live_calm; [apply calm_deliver_batch, backlog_calls|]. intros [counter'|]; [|done].
    destruct (rb_shard_end b).
    + apply live_calm; [apply calm_end_shard, backlog_calls|done].
    + apply IH. specialize (Hpos Hne eq_refl). lia.
Qed.

(** Whatever ack the memory holds, the start position is one of those bounded. *)
Lemma live_process_shard n polls :
  n < polls → rsafe (LInv n) [] (process_shard t c polls) (λ r _, r ≠ None).
Proof.
  intros Hn. unfold process_shard. cbn [act task_bind rsafe]. intros f [mem w] HI.
  set (after := match (mem_get (λ m, pending_of m (st_shard t)) (mem, w)).1 with
                | Some q => Some q | None => st_checkpoint t end).
  exists [{| lg_shard := st_shard t; lg_after := after; lg_polls := n |}].
  split; [|by apply live_pass_loop]. destruct HI as [Hall Hgs]. split; [exact Hall|].
  constructor; [apply Hall|exact Hgs].
Qed.
End live.

(** ** The passes of a cycle return *)

Section processing.
Context `{HashOrder} {W : Type} `{HB : Backlog W}.
Variables (polls : nat) (config : FleetConfig) (schedule : list nat).
Abbreviation World := (FleetMem * W)%type.
Implicit Types (items : list (string * (N * option string))) (mem : FleetMem).

Ltac calm_monadic :=
  repeat first [apply keeps_bind_ok; [apply _| |intros ?] | apply keeps_bind; [apply _| |intros ?]
    | apply keeps_for_each; [apply _|intros ?] | apply keeps_ret; apply _
    | apply keeps_call; solve [auto with calm] | apply keeps_defer_call
    | apply keeps_memory; intros [? ?]; done | progress case_match].

(** Tasks that all return something, by their posts. *)
Lemma all_some {R G} n (rs : list R) (hs : list (list G)) (P : R → Prop) :
  Forall3 (λ (Q : R → list G → Prop) a h, Q a h) (replicate n (λ r _, P r)) rs hs → Forall P rs.
Proof.
  revert rs hs. induction n as [|n IH]; intros rs hs HF; cbn in HF; inversion HF; subst;
    constructor; eauto.
Qed.

Lemma spawn_all_live me n items x :
  n < polls →
  Forall3 (rsafe (LInv (W := W) n)) (replicate (length items) [])
    (spawn_all polls me items x).1 (replicate (length items) (λ r _, r ≠ None)).
Proof.
  intros Hn. revert x. induction items as [|i items IH]; intros x; cbn [spawn_all]; [constructor|].
  unfold bind. destruct (lift_m (create i.1) x) as [c x1]. specialize (IH x1).
  destruct (spawn_all polls me items x1) as [ts x2]. cbn [ret fst].
  constructor; [by apply live_process_shard|exact IH].
Qed.

Lemma mjoin_nils {A} n : mjoin (replicate n (@nil A)) = [].
Proof. by induction n. Qed.

Lemma unbounded_live me items mem (w : W) n :
  n < polls → (∀ s a, remaining w s a ≤ n) →
  Forall (λ r : PassResult, r ≠ None) (process_unbounded polls me schedule items (mem, w)).1.
Proof.
  intros Hn Hw. unfold process_unbounded, bind.
  pose proof (spawn_all_live me n items (mem, w) Hn) as HF.
  destruct (calm_spawn_all (mem_more (W := W)) (λ s, keeps_call _ (calm_create s)) polls me items
    (λ i c _, backlog_calls (task_of me i) c) (mem, w)) as [_ Hcalm].
  destruct (spawn_all polls me items (mem, w)) as [ts x]. cbn [fst snd] in *.
  destruct (rsafe_join (LInv (W := W) n) schedule ts _ _ [] x HF) as (hs & Hrs & _).
  { rewrite mjoin_nils. eapply LInv_more; [exact Hcalm|]. by split. }
  by eapply all_some.
Qed.

(** In the pool every worker returns: each pass does, and the queue only shrinks. *)
Inductive PoolToken :=
| TPoll (g : PollGhost)
| TQueue (n : nat).

Definition token_ok (w : W) (q : list PoolItem) (g : PoolToken) : Prop :=
  match g with
  | TPoll g => remaining w (lg_shard g) (lg_after g) ≤ lg_polls g
  | TQueue n => length q ≤ n
  end.

Definition QInv (n : nat) (gs : list PoolToken) (x : PoolMem * World) : Prop :=
  (∀ s a, remaining x.2.2 s a ≤ n) ∧ Forall (token_ok x.2.2 (pm_queue x.1)) gs.

#[local] Instance QInv_perm n x : Proper ((≡ₚ) ==> iff) (λ gs, QInv n gs x).
Proof. intros gs1 gs2 Hp. unfold QInv. by rewrite Hp. Qed.

Lemma live_lift {A} n rest (u : Task World A) (P : A → Prop) :
  rsafe (LInv n) [] u (λ a _, P a) →
  rsafe (QInv n) rest (lift_task u) (λ a h, P a ∧ ∃ h', h = (TPoll <$> h') ++ rest).
Proof.
  intros Hu. apply (rsafe_lift_task (LInv n) (QInv n) TPoll rest) with (h := []).
  2: { eapply rsafe_conseq; [exact Hu|]. cbn. eauto. }
  intros h f [pm [mem w]] [Hn Hall]. cbn [fst snd] in *.
  apply Forall_app in Hall as [Hh Hall].
  exists (omap (M := list) (λ g, match g with TPoll g => Some g | _ => None end) (rest ++ f)). split.
  - split; [exact Hn|]. apply Forall_app. split; [by rewrite Forall_fmap in Hh|].
    apply Forall_forall. intros g (x & Hx & Hg)%list_elem_of_omap.
    assert (token_ok w (pm_queue pm) x) as Hok.
    { rewrite Forall_forall in Hall. auto. }
    by destruct x; simplify_eq.
  - intros h' [mem' w'] [Hn' Hall']. apply Forall_app in Hall' as [Hh' Hall'].
    split; [exact Hn'|]. cbn [fst snd] in *. apply Forall_app. split; [by rewrite Forall_fmap|].
    apply Forall_forall. intros x Hx. destruct x as [g|m]; cbn.
    + rewrite Forall_forall in Hall'. apply Hall'. apply list_elem_of_omap. by exists (TPoll g).
    + rewrite Forall_forall in Hall. apply (Hall (TQueue m) Hx).
Qed.

Lemma QInv_world n gs pm mem w w' :
  (∀ s a, remaining w' s a ≤ remaining w s a) → QInv n gs (pm, (mem, w)) → QInv n gs (pm, (mem, w')).
Proof.
  intros Hm [Hn Hgs]. split; [intros s a; etrans; [apply Hm|apply Hn]|].
  eapply Forall_impl; [exact Hgs|]. intros [g|k] Hg; cbn in *; [etrans; [apply Hm|exact Hg]|done].
Qed.

Lemma live_on_world {A B} n h (m : M W A) (k : A → Task (PoolMem * World) B) Q :
  calm remaining m → (∀ a, rsafe (QInv n) h (k a) Q) →
  rsafe (QInv n) h (task_bind (act (on_world m)) k) Q.
Proof.
  intros Hm Hk. cbn [act task_bind rsafe]. intros f [pm [mem w]] HI. exists h.
  unfold on_world, lift_m. cbn. pose proof (Hm w) as Hw. destruct (m w) as [a w'].
  split; [by eapply QInv_world|apply Hk].
Qed.

Lemma live_worker n m junk :
  n < polls →
  rsafe (QInv n) ((TPoll <$> junk) ++ [TQueue m]) (pool_worker polls config (S m)) (λ b _, b = true).
Proof.
  intros Hn. revert junk. induction m as [m IH] using lt_wf_ind. intros junk. cbn [pool_worker].
  cbn [act task_bind rsafe]. intros f [pm x] HI. unfold pop_front. cbn [fst snd].
  destruct (pm_queue pm) as [|it q] eqn:Hq.
  { exists ((TPoll <$> junk) ++ [TQueue m]). by split. }
  destruct HI as [Hall Hgs]. cbn [fst snd] in *. rewrite Hq in Hgs.
  destruct m as [|m'].
  { exfalso. rewrite Forall_forall in Hgs. specialize (Hgs (TQueue 0)). cbn in Hgs.
    apply Nat.nle_succ_0 in Hgs; [done|]. set_solver. }
  exists ((TPoll <$> junk) ++ [TQueue m']). split.
  - split; [exact Hall|]. cbn [fst snd pm_queue]. rewrite !Forall_app in Hgs |- *.
    destruct Hgs as ((Hj & Hm) & Hf). rewrite Forall_singleton in Hm |- *. cbn in Hm |- *.
    split_and!; [|lia|]; (eapply Forall_impl; [eassumption|]); intros [g|k]; cbn; lia.
  - apply live_on_world; [apply calm_now|intros now]. apply live_on_world; [apply calm_slot|intros _].
    apply live_on_world; [apply calm_create|intros c]. apply rsafe_bind.
    eapply rsafe_conseq; [apply live_lift, live_process_shard, Hn|].
    intros [r|] h (Hr & h' & ->); [|done]. rewrite app_assoc, <- fmap_app.
    cbn [act task_bind rsafe]. intros f' [pm' x'] HI. eexists. split; [exact HI|].
    apply IH. lia.
Qed.

Lemma pool_live items k now mem (w : W) n :
  n < polls → (∀ s a, remaining w s a ≤ n) →
  Forall (λ b, b = true) (run_bounded_pool polls config schedule items k now (mem, w)).1.
Proof.
  intros Hn Hw. unfold run_bounded_pool. unfold bind at 1. cbn [fst snd].
  destruct (refresh_sched now items (fm_sched mem)) as [sched1 due].
  set (x := (set_sched sched1 mem, w)).
  assert (∀ m' : M World (list bool), (∀ y, (m' y).1 = []) → Forall (λ b, b = true) (m' x).1) as Hnil.
  { intros m' Hm'. rewrite Hm'. constructor. }
  destruct (bool_decide (due = [])).
  { apply Hnil. intros y. unfold bind, lift_m, mem_get, ret.
    destruct (on_processing_queue_depth 0 y.2) as [[] w1]. cbn [fst snd].
    destruct (earliest_due _); [|done]. cbn [fst snd]. destruct (instant_now w1) as [t w2].
    cbn [fst snd]. by destruct (sleep _ w2). }
  pose proof (keeps_call (on_processing_queue_depth (N.of_nat (length due))) (calm_depth _) x) as Hd.
  unfold bind at 1. destruct (lift_m _ x) as [[] [mem1 w1]]. cbn [snd] in Hd.
  assert (Forall3 (rsafe (QInv n)) (replicate k [TQueue (length due)])
            (replicate k (pool_worker polls config (S (length due))))
            (replicate k (λ b _, b = true))) as HF.
  { clear -Hn. induction k; constructor; [by apply (live_worker n (length due) [])|done]. }
  destruct (rsafe_join (QInv n) schedule _ _ _ []
              ({| pm_queue := due; pm_outcomes := [] |}, (mem1, w1)) HF) as (hs & Hrs & _).
  { split; [intros s a; etrans; [apply Hd|apply Hw]|]. rewrite app_nil_r.
    apply Forall_forall. intros g (l & Hg & ->%elem_of_replicate_inv)%list_elem_of_join.
    apply list_elem_of_singleton in Hg as ->. cbn. lia. }
  unfold run_workers. unfold bind at 1. destruct (join_all schedule _ _) as [bs [pm x1]].
  cbn [fst] in Hrs. apply all_some in Hrs. unfold bind, mem_set, ret.
  by destruct (lift_m instant_now x1) as [now2 x2].
Qed.

Lemma process_live items now mem (w : W) n :
  n < polls → (∀ s a, remaining w s a ≤ n) →
  (process polls config schedule items now (mem, w)).1 = true.
Proof.
  intros Hn Hw. unfold process, bind, mem_get. cbn [fst snd].
  destruct (fm_processing_limit mem) as [max|].
  - pose proof (pool_live items (Nat.max max 1) now mem w n Hn Hw) as Hall.
    destruct (run_bounded_pool _ _ _ _ _ _ _) as [bs x]. cbn in *.
    apply forallb_True_elem. intros b Hb. rewrite Forall_forall in Hall. auto.
  - pose proof (unbounded_live (fc_owner config) items mem w n Hn Hw) as Hall.
    destruct (process_unbounded _ _ _ _ _) as [rs x]. cbn in *.
    apply forallb_True_elem. intros r Hr. rewrite Forall_forall in Hall.
    apply bool_decide_eq_true. auto.
Qed.
End processing.

(** ** Cycles return *)

Section cycles_return.
Context `{HashOrder} {W : Type} `{HB : Backlog W}.
Variables (polls : nat) (config : FleetConfig).
Abbreviation World := (FleetMem * W)%type.

Definition cycle_more (x y : Cycle * World) : Prop := mem_more x.2 y.2.
#[local] Instance cycle_more_preorder : PreOrder cycle_more.
Proof. split; [intros x; unfold cycle_more; reflexivity|]. intros x y z Hx Hy. unfold cycle_more in *. by etrans. Qed.

Ltac calm_fleet :=
  repeat first [apply keeps_bind_ok; [apply _| |intros ?] | apply keeps_bind; [apply _| |intros ?]
    | apply keeps_for_each; [apply _|intros ?] | apply keeps_ret; apply _
    | apply keeps_call; solve [auto with calm] | apply keeps_defer_call
    | apply keeps_memory; intros [? ?]; done | progress case_match].

Lemma calm_sync rows : keeps (mem_more (W := W)) (leader_shard_sync config rows).
Proof.
  unfold leader_shard_sync, seed_roots, publish. calm_fleet.
  generalize (hash_set_order (completed_keys rows)) as ps. intros ps.
  induction ps as [|p ps IH]; cbn [sync_parents]; [calm_fleet|].
  case_match; [|exact IH]. unfold sync_parent at 1, publish.
  apply keeps_bind; [apply _|calm_fleet|intros ok].
  apply keeps_bind; [apply _|exact IH|intros l]. calm_fleet.
Qed.

Lemma keeps_cycle {A} (m : M World A) : keeps mem_more m → keeps cycle_more (lift_m m).
Proof.
  intros Hm [cy x]. unfold lift_m, cycle_more. cbn. pose proof (Hm x) as Hx. by destruct (m x).
Qed.

Lemma keeps_outside {A} (m : M W A) : calm remaining m → keeps cycle_more (outside m).
Proof. intros Hm. by apply keeps_cycle, keeps_call. Qed.

Lemma calm_lead rows now_ms : keeps cycle_more (lead (W := W) rows now_ms).
Proof.
  intros [cy [mem w]]. unfold lead. set (l := cy_leadership cy).
  enough (not_more w (step l rows now_ms w).2) as Hs.
  { by destruct (step l rows now_ms w) as [[b l'] w']. }
  unfold step. destruct (tick _ _ _) as [takes coord].
  assert (keeps (not_more (W := W)) (renew LEADER_LEASE_KEY (ld_owner l)
            (match leader_row rows with Some r => rl_lease_counter r | None => ld_counter l end))) as Hr.
  { intros w'. exact (calm_renew _ _ _ w'). }
  assert (∀ e, keeps (not_more (W := W)) (try_acquire_leadership LEADER_LEASE_KEY (ld_owner l) e)) as Hb.
  { intros e w'. exact (calm_bid _ _ _ w'). }
  repeat case_match; first [done|apply keeps_bind; [apply _|done|intros ?]; by apply keeps_ret; apply _].
Qed.

Lemma calm_tick rows now_ms : keeps cycle_more (tick_coordinator (W := W) rows now_ms).
Proof.
  intros [cy x]. unfold tick_coordinator, cycle_more. destruct (tick _ _ _). cbn. reflexivity.
Qed.

Lemma calm_coordinate now_ms : keeps cycle_more (coordinate (W := W) config now_ms).
Proof.
  unfold coordinate, lead_and_sync, claim_share, sync_as_leader, claim, cleanup_completed_leases.
  repeat first [apply keeps_bind_ok; [apply _| |intros ?] | apply keeps_bind; [apply _| |intros ?]
    | apply keeps_for_each; [apply _|intros ?] | apply keeps_ret; apply _
    | apply calm_lead | apply keeps_outside; solve [auto with calm]
    | apply keeps_cycle, calm_sync | apply keeps_cycle; calm_fleet
    | apply calm_tick
    | progress case_match].
Qed.
Lemma calm_settle (owned : gmap string (N * option string)) : keeps (mem_more (W := W)) (settle owned).
Proof. unfold settle. calm_fleet. Qed.

Lemma serve_live schedule rows (x : World) n :
  n < polls → (∀ s a, remaining x.2 s a ≤ n) →
  (serve polls config schedule rows x).1 ≠ None.
Proof.
  intros Hn Hx. unfold serve, bind.
  pose proof (calm_settle (owned_map config rows) x) as Hs.
  destruct (settle (owned_map config rows) x) as [[] x1]. cbn [snd] in Hs.
  destruct (all_complete rows); [done|].
  pose proof (keeps_call instant_now calm_now x1) as Hi.
  destruct (lift_m instant_now x1) as [now [mem2 w2]]. cbn [snd] in Hi.
  pose proof (process_live polls config schedule (eligible_owned config rows) now mem2 w2 n Hn) as Hp.
  destruct (process polls config schedule _ now (mem2, w2)) as [fin x3]. cbn [fst] in *.
  rewrite Hp; [done|]. intros s a. etrans; [apply Hi|]. etrans; [apply Hs|]. apply Hx.
Qed.

(** ** Properties *)

(** C11: while the stream's backlog is finite (from no position are more polls
    left than the bound, and nothing refills it), a whole cycle returns, with an
    answer or an error, whatever the number of shards, the pool and the
    interleaving: no pass, no worker and no loop of the cycle goes on forever. *)
Theorem cycle_returns schedule now_ms cy mem (w : W)
    (Hpolls : ∀ s a, remaining w s a < polls) :
  (run_cycle polls config schedule now_ms (cy, (mem, w))).1 ≠ Ok None.
Proof.
  assert (∃ n, n < polls ∧ ∀ s a, remaining w s a ≤ n) as (n & Hn & Hw).
  { exists (pred polls). specialize (Hpolls EmptyString None) as Hp. split; [lia|].
    intros s a. specialize (Hpolls s a). lia. }
  unfold run_cycle, bind_ok. unfold bind at 1.
  pose proof (calm_coordinate now_ms (cy, (mem, w))) as Hc.
  destruct (coordinate config now_ms (cy, (mem, w))) as [[[]|e] x1]; [|done].
  pose proof (keeps_outside list_leases calm_list x1) as Hl. unfold bind at 1.
  destruct (outside list_leases x1) as [[scan|e] [cy2 x2]]; [|done].
  pose proof (serve_live schedule (only_shards scan) x2 n Hn) as Hs.
  unfold bind, lift_m. cbn [fst snd] in *.
  destruct (serve polls config schedule (only_shards scan) x2) as [r x3]. cbn [fst ret] in *.
  intros [= ->]. apply Hs; [|done]. intros s a. etrans; [apply Hl|]. etrans; [apply Hc|]. apply Hw.
Qed.
End cycles_return.
