(* ===== verification/PoolBound.v ===== *)
(** * How many passes the pool runs at once

    The doc of [run_bounded_pool] promises that at most [k] shard passes exist at any
    instant.  Read off the log: at any moment at most [k] shards have been called for
    and will be called for again.  A worker holds one token, idle or busy with a
    shard; what a busy worker logs is about its shard. *)

From Stdlib Require Import Lia.
From stdpp Require Import base gmap sets numbers list strings.
From S2P Require Import Prelude Core Coordinator Interfaces Metrics CkptDefer Tasks.
From S2P Require Import FleetState ShardPass PassCalls Pool FleetSync Fleet.

(** At any moment: the shards called for before it that are called for after it, or
    are still being worked on, are at most [k]. *)
Definition at_most (k : nat) (log : PLog) (live : list string) : Prop :=
  ∀ pre post, log = pre ++ post → ∃ busy, length busy ≤ k ∧
    ∀ s, s ∈ pre.*1 → s ∈ post.*1 ∨ s ∈ live → s ∈ busy.

Lemma at_most_log k log live l s :
  s ∈ live → length live ≤ k → Forall (λ e, e.1 = s) l →
  at_most k log live → at_most k (log ++ l) live.
Proof.
  intros Hs Hlen Hl Hk pre post Heq.
  assert (∀ (l' : PLog) s', l' `sublist_of` l → s' ∈ l'.*1 → s' ∈ live) as Hlive.
  { intros l' s' Hsub (e & -> & He)%list_elem_of_fmap. rewrite Forall_forall in Hl.
    rewrite (Hl e); [done|]. eapply elem_of_submseteq; [exact He|by apply sublist_submseteq]. }
  apply app_eq_app in Heq as (m & [[-> ->]|[-> ->]]).
  - destruct (Hk pre m eq_refl) as (busy & Hb & Hin). exists busy. split; [done|].
    intros s' Hpre [Hpost|?]; [|by apply Hin; auto].
    rewrite fmap_app, elem_of_app in Hpost. apply Hin; [done|]. destruct Hpost as [?|Hpost]; [by left|].
    right. by apply (Hlive l s').
  - exists live. split; [done|]. intros s' _ [Hpost|?]; [|done]. apply (Hlive post); [|done].
    by apply sublist_inserts_l.
Qed.

Lemma at_most_claim k log live s :
  s ∉ log.*1 → at_most k log live → at_most k log (s :: live).
Proof.
  intros Hs Hk pre post ->. destruct (Hk pre post eq_refl) as (busy & Hb & Hin).
  exists busy. split; [done|]. intros s' Hpre Hin'. apply Hin; [done|].
  destruct Hin' as [?|[->|?]%elem_of_cons]; [by left| |by right].
  destruct Hs. rewrite fmap_app, elem_of_app. by left.
Qed.

Lemma at_most_fewer k log live live' :
  live' ⊆ live → at_most k log live → at_most k log live'.
Proof.
  intros Hsub Hk pre post Heq. destruct (Hk pre post Heq) as (busy & Hb & Hin).
  exists busy. split; [done|]. intros s Hpre [?|?]; apply Hin; auto.
Qed.

(** ** The workers *)

Inductive WorkerToken :=
| WIdle
| WBusy (s : string).

Definition busy (gs : list WorkerToken) : list string :=
  omap (M := list) (λ g, match g with WBusy s => Some s | WIdle => None end) gs.

Lemma busy_app g1 g2 : busy (g1 ++ g2) = busy g1 ++ busy g2.
Proof. apply omap_app. Qed.

Lemma busy_length gs : length (busy gs) ≤ length gs.
Proof. induction gs as [|[|s] gs IH]; cbn; [done| |]; fold (busy gs); lia. Qed.

Section bound.
Context {W : Type} `{AsyncStreamSource W, AsyncLeaseStore W, ShardConsumerFactory W,
                     MetricsSink W, Clock W}.
Variables (polls : nat) (config : FleetConfig) (k : nat).
Abbreviation World := (FleetMem * (W * PLog))%type.
Abbreviation PWorld := (PoolMem * World)%type.

Definition BInv (gs : list WorkerToken) (x : PWorld) : Prop :=
  length gs = k ∧ NoDup (pi_shard <$> pm_queue x.1) ∧
  (∀ s, s ∈ pi_shard <$> pm_queue x.1 → (s ∉ x.2.2.2.*1) ∧ s ∉ busy gs) ∧
  at_most k x.2.2.2 (busy gs).

#[local] Instance BInv_perm x : Proper ((≡ₚ) ==> iff) (λ gs, BInv gs x).
Proof.
  assert (∀ gs1 gs2, gs1 ≡ₚ gs2 → BInv gs1 x → BInv gs2 x) as Himp.
  { intros gs1 gs2 Hp (Hlen & Hnd & Hq & Hk).
    assert (busy gs1 ≡ₚ busy gs2) as Hb by (unfold busy; by rewrite Hp).
    split_and!; [by rewrite <- Hp|done| |].
    - intros s Hs. destruct (Hq s Hs) as [? ?]. split; [done|]. by rewrite <- Hb.
    - eapply at_most_fewer; [|exact Hk]. intros s. by rewrite Hb. }
  intros gs1 gs2 Hp. split; by apply Himp.
Qed.

(** What is logged is about one shard. *)
Definition only (s : string) (x y : World) : Prop :=
  ∃ l, y.2.2 = x.2.2 ++ l ∧ Forall (λ e, e.1 = s) l.

#[local] Instance only_preorder s : PreOrder (only s).
Proof.
  split; [intros x; exists []; by rewrite app_nil_r|]. intros x y z (l1 & Hy & HF1) (l2 & Hz & HF2).
  exists (l1 ++ l2). split; [by rewrite Hz, Hy, app_assoc|by apply Forall_app].
Qed.

Lemma only_logged {A} (m : M W A) (ev : A → PLog) s :
  (∀ a, Forall (λ e, e.1 = s) (ev a)) → keeps (only s) (lift_m (logged m ev)).
Proof.
  intros Hev [mem [w l]]. unfold lift_m, logged. cbn. destruct (m w) as [a w']. by exists (ev a).
Qed.

Lemma only_calls t (c : Consumer (W := W * PLog)) :
  c.1 = st_shard t → PassCalls (only (st_shard t)) t c.
Proof.
  intros Hc. split; [split| |]; intros.
  { intros x. exists []. rewrite app_nil_r. split; [by f_equal|done]. }
  all: apply only_logged; intros a'; repeat constructor; done.
Qed.

Lemma busy_keeps s f x (y : PWorld) :
  pm_queue y.1 = pm_queue x.1 → only s x.2 y.2 → BInv ([WBusy s] ++ f) x → BInv ([WBusy s] ++ f) y.
Proof.
  intros Hqq (l & Hl & Hs) (Hlen & Hnd & Hq & Hk).
  split_and!; [done|by rewrite Hqq| |].
  - intros s' Hs'. rewrite Hqq in Hs'. destruct (Hq s' Hs') as [Hlog Hb]. split; [|done].
    rewrite Hl, fmap_app, elem_of_app. intros [?|(e & -> & He)%list_elem_of_fmap]; [done|].
    rewrite Forall_forall in Hs. rewrite (Hs e He) in Hb. apply Hb. left.
  - rewrite Hl. apply (at_most_log _ _ _ _ s); [left| |done|done].
    pose proof (busy_length ([WBusy s] ++ f)). lia.
Qed.

(** The queue as it was, the log longer by entries of one shard. *)
Definition works_on (s : string) (x y : PWorld) : Prop :=
  pm_queue y.1 = pm_queue x.1 ∧ only s x.2 y.2.

Lemma rsafe_busy {A B} s (m : M PWorld A) (f : A → Task PWorld B) Q :
  keeps (works_on s) m → (∀ x, rsafe BInv [WBusy s] (f (m x).1) Q) →
  rsafe BInv [WBusy s] (task_bind (act m) f) Q.
Proof.
  intros Hm Hf. cbn [act task_bind rsafe]. intros g x HI. exists [WBusy s]. split; [|apply Hf].
  destruct (Hm x) as [Hq Ho]. by eapply busy_keeps.
Qed.

Lemma quiet_works_on {A} (m : M W A) s : keeps (works_on s) (on_world (W := W * PLog) (ShardPass.unlogged m)).
Proof.
  intros [pm [mem [w l]]]. unfold on_world, lift_m, ShardPass.unlogged, logged. cbn.
  destruct (m w) as [a w']. split; [done|]. by exists [].
Qed.

Lemma create_works_on s :
  keeps (works_on s) (on_world (create (W := W * PLog) s)) ∧
  ∀ x, (on_world (create (W := W * PLog) s) x).1.1 = s.
Proof.
  split; intros [pm [mem [w l]]]; unfold on_world, lift_m; cbn; unfold bind, ShardPass.unlogged, logged; cbn;
    destruct (create s w) as [c w']; [|done]. split; [done|]. by exists [].
Qed.

Lemma worker_bound n :
  rsafe BInv [WIdle] (pool_worker (W := W * PLog) polls config n) (λ _ _, True).
Proof.
  induction n as [|n IH]; [done|]. cbn [pool_worker].
  cbn [act task_bind rsafe]. intros f [pm mw] (Hlen & Hnd & Hq & Hk). unfold pop_front. cbn [fst snd] in *.
  destruct (pm_queue pm) as [|it q] eqn:Hpm.
  { exists [WIdle]. split; [|done]. split_and!; cbn [fst snd]; by rewrite ?Hpm. }
  exists [WBusy (pi_shard it)]. cbn [fst snd]. apply NoDup_cons in Hnd as [Hnin Hnd].
  destruct (Hq (pi_shard it)) as [Hlog Hb]; [left|]. split.
  { split_and!; [done|done| |by apply at_most_claim].
    intros s Hs. destruct (Hq s) as [? ?]; [by right|]. split; [done|].
    change (s ∉ pi_shard it :: busy f). rewrite not_elem_of_cons. split; [|done]. intros ->. done. }
  apply rsafe_busy; [apply quiet_works_on|intros ?].
  apply rsafe_busy; [apply quiet_works_on|intros ?].
  destruct (create_works_on (pi_shard it)) as [Hcreate Hc].
  apply rsafe_busy; [exact Hcreate|intros y]. specialize (Hc y).
  destruct (on_world (create (pi_shard it)) y) as [c z]. cbn [fst] in *.
  apply (rsafe_calm _ (works_on (pi_shard it))).
  - intros g u v [Hqq Ho]. by apply busy_keeps.
  - eapply calm_lift_task; [|apply (calm_process_shard (only (pi_shard it)))].
    + intros pm' u v Ho. by split.
    + by apply (only_calls (item_task config it)).
  - intros [r|]; [|done]. cbn [act task_bind rsafe]. intros g [pm' mw'] (Hlen' & Hnd' & Hq' & Hk').
    exists [WIdle]. split; [|exact IH]. split_and!; [done|done| |].
    + intros s Hs. destruct (Hq' s Hs) as [? Hs']. split; [done|].
      change (s ∉ busy g). change (s ∉ pi_shard it :: busy g) in Hs'. set_solver.
    + eapply at_most_fewer; [|exact Hk']. change (busy g ⊆ pi_shard it :: busy g). set_solver.
Qed.

(** ** The pool *)

Lemma idle_tokens n : busy (mjoin (replicate n [WIdle])) = [] ∧ length (mjoin (replicate n [WIdle])) = n.
Proof. induction n as [|n [IHb IHl]]; [done|]. split; [exact IHb|]. cbn. by f_equal. Qed.

Lemma workers_bound schedule due mem (w : W) :
  NoDup (pi_shard <$> due) →
  at_most k (run_workers polls config schedule k due (mem, (w, []))
             : list bool * list (string * PassOutcome) * World).2.2.2 [].
Proof.
  intros Hnd. unfold run_workers.
  assert (∀ n, Forall3 (rsafe BInv) (replicate n [WIdle])
    (replicate n (pool_worker (W := W * PLog) polls config (S (length due))))
    (replicate n (λ _ _, True))) as HF.
  { intros n. induction n as [|n IH]; constructor; [apply worker_bound|exact IH]. }
  destruct (idle_tokens k) as [Hb Hlen].
  destruct (rsafe_join BInv schedule _ _ _ []
    ({| pm_queue := due; pm_outcomes := [] |}, (mem, (w, []))) (HF k)) as (hs & _ & _ & _ & _ & Hk).
  { rewrite app_nil_r. split_and!; [done|done| |].
    - intros s _. rewrite Hb. by split; apply not_elem_of_nil.
    - intros pre post Heq. symmetry in Heq. apply app_nil in Heq as [-> ->]. exists [].
      split; [cbn; lia|]. intros s Hs. by apply elem_of_nil in Hs. }
  destruct (join_all schedule _ _) as [bs [pm [mem' [w' log]]]]. cbn [fst snd] in *.
  eapply at_most_fewer; [|exact Hk]. apply list_subseteq_nil.
Qed.
End bound.

Section cycle.
Context `{HashOrder} {W : Type} `{AsyncStreamSource W, AsyncLeaseStore W, ShardConsumerFactory W,
                     MetricsSink W, Clock W}.
Variables (polls : nat) (config : FleetConfig) (schedule : list nat).
Abbreviation World := (FleetMem * (W * PLog))%type.

Lemma at_most_nothing k live : at_most k [] live.
Proof.
  intros pre post Heq. symmetry in Heq. apply app_nil in Heq as [-> ->]. exists [].
  split; [cbn; lia|]. intros s Hs. by apply elem_of_nil in Hs.
Qed.

Lemma pool_bound items k now mem (w : W) :
  NoDup items.*1 →
  at_most k (run_bounded_pool polls config schedule items k now (mem, (w, [])) : list bool * World).2.2.2 [].
Proof.
  intros Hnd. pose proof (refresh_sched_nodup now items (fm_sched mem) Hnd) as Hdnd.
  pose proof (pool_nothing_due polls config schedule items k now mem w) as Hnone.
  pose proof (pool_something_due polls config schedule items k now mem w) as Hsome.
  destruct (refresh_sched now items (fm_sched mem)) as [sched1 due] eqn:Href. cbn [fst snd] in *.
  destruct (decide (due = [])) as [->|Hne].
  - destruct (Hnone eq_refl) as (w' & ->). apply at_most_nothing.
  - destruct (Hsome Hne) as (w1 & w2 & now2 & Hrun). cbn zeta in Hrun. rewrite Hrun.
    by apply workers_bound.
Qed.

Lemma serve_bound max scan mem (w : W) :
  fm_processing_limit mem = Some max → NoDup (rl_lease_key <$> scan) →
  at_most (Nat.max max 1)
    (serve polls config schedule (only_shards scan) (mem, (w, [])) : option bool * World).2.2.2 [].
Proof.
  intros Hlimit Hnd. unfold serve.
  destruct (settle_run (owned_map config (only_shards scan)) mem w) as (w1 & Hpre).
  rewrite (bind_run _ _ _ _ _ Hpre). set (mem1 := set_defer _ mem).
  destruct (all_complete (only_shards scan)); [apply at_most_nothing|].
  assert (∃ now w2, (lift_m instant_now : M World Instant) (mem1, (w1, [])) =
                      (now, (mem1, (w2, [])))) as (now & w2 & Hnow).
  { unfold lift_m. cbn. unfold ShardPass.unlogged, logged. cbn.
    destruct (instant_now w1) as [now w2]. by exists now, w2. }
  rewrite (bind_run _ _ _ _ _ Hnow). unfold process, mem_get, bind. cbn [fst snd].
  change (fm_processing_limit mem1) with (fm_processing_limit mem). rewrite Hlimit.
  pose proof (pool_bound (eligible_owned config (only_shards scan)) (Nat.max max 1) now mem1 w2
    (eligible_owned_nodup config scan Hnd)) as Hb.
  by destruct (run_bounded_pool _ _ _ _ _ _ _) as [bs [mem2 [w3 log]]].
Qed.

(** C10: with a processing limit at most that many shard passes are in progress at any
    moment of a cycle, however the pool's workers interleave and whatever their calls
    answer: whenever the sequence of calls about shards is cut in two, the shards
    that are called about on both sides are at most the limit. *)
Theorem cycle_bounds_concurrency max cy now_ms mem (w : W)
    (Hlimit : fm_processing_limit mem = Some max)
    (Hscan : ∀ w rows w', list_leases w = (Ok rows, w') → NoDup (rl_lease_key <$> rows)) :
  let '(_, (_, (_, (_, log)))) :=
    (run_cycle polls config schedule now_ms (cy, (mem, (w, [])))
     : Result (option bool) WorkerError * (Cycle * World)) in
  ∀ before after, log = before ++ after → ∃ busy, length busy ≤ Nat.max max 1 ∧
    ∀ s, s ∈ before.*1 → s ∈ after.*1 → s ∈ busy.
Proof.
  enough (at_most (Nat.max max 1)
    (run_cycle polls config schedule now_ms (cy, (mem, (w, [])))
     : Result (option bool) WorkerError * (Cycle * World)).2.2.2.2 []) as Hb.
  { destruct (run_cycle _ _ _ _ _) as [r [cy' [mem' [w' log]]]]. cbn [fst snd] in *.
    intros before after Heq. destruct (Hb before after Heq) as (l & Hl & Hin). exists l. eauto. }
  unfold run_cycle, bind_ok. unfold bind at 1.
  pose proof (quiet_coordinate config now_ms (cy, (mem, (w, [])))) as [Hlog (_ & _ & Hlim)].
  destruct (coordinate (W := W * PLog) config now_ms (cy, (mem, (w, []))))
    as [[[]|e] [cy1 [mem1 [w1 log1]]]]; cbn [fst snd] in Hlog, Hlim; subst log1;
    [|apply at_most_nothing].
  destruct (outside_run list_leases cy1 mem1 w1 []) as (w2 & Hrun & Hw2).
  destruct (list_leases w1) as [[scan|e] w2'] eqn:Hl; cbn in Hrun, Hw2; subst w2';
    rewrite (bind_run _ _ _ _ _ Hrun); [|apply at_most_nothing].
  unfold bind, lift_m. cbn [fst snd].
  pose proof (serve_bound max scan mem1 w2 ltac:(congruence) (Hscan _ _ _ Hl)) as Hb.
  by destruct (serve polls config schedule (only_shards scan) (mem1, (w2, []))) as [r [mem2 [w3 log]]].
Qed.
End cycle.
