(* ===== verification/FleetBeat.v ===== *)
(** * Heartbeats of a cycle

    What tells the other workers that this one is alive is the heartbeat row it
    writes.  The events logged here are the heartbeats and the deliveries of a
    whole cycle. *)

From Stdlib Require Import Lia.
From stdpp Require Import base gmap sets numbers list strings.
From S2P Require Import Prelude Core Coordinator Leader Interfaces Metrics CkptDefer Tasks.
From S2P Require Import LeaderElection FleetState ShardPass PassCalls Pool FleetSync Fleet CycleCalls.
From S2P Require Import WorkerCalls.

Inductive BEvent :=
| BBeat (worker : string)
| BDeliver (rs : list Record_).

Section logging.
Context {W : Type} `{AsyncStreamSource W, AsyncLeaseStore W, ShardConsumerFactory W,
                     MetricsSink W, Clock W}.

Definition silent {A} (m : M W A) : M (W * list BEvent) A := logged m (λ _, []).

#[export] Instance b_source : AsyncStreamSource (W * list BEvent) := {|
  describe_shards := silent describe_shards;
  get_records s after := silent (get_records s after);
  describe_child_shards p := silent (describe_child_shards p);
|}.
#[export] Instance b_leases : AsyncLeaseStore (W * list BEvent) := {|
  get k := silent (get k);
  list_leases := silent list_leases;
  acquire k o := silent (acquire k o);
  renew k o n := silent (renew k o n);
  heartbeat w := logged (heartbeat w) (λ _, [BBeat w]);
  checkpoint k o n q := silent (checkpoint k o n q);
  mark_complete k o n := silent (mark_complete k o n);
  release k o n := silent (release k o n);
  delete_lease k := silent (delete_lease k);
  create_shard_lease k ps cp := silent (create_shard_lease k ps cp);
  try_acquire_leadership k o e := silent (try_acquire_leadership k o e);
|}.
#[export] Instance b_consumers : ShardConsumerFactory (W * list BEvent) := {|
  Consumer := Consumer (W := W);
  create s := silent (create s);
  deliver c rs := logged (deliver c rs) (λ _, [BDeliver rs]);
  consumer_ended c := silent (consumer_ended c);
  consumer_lost c := silent (consumer_lost c);
|}.
#[export] Instance b_metrics : MetricsSink (W * list BEvent) := {|
  on_batch m := silent (on_batch m);
  on_shard_end s := silent (on_shard_end s);
  on_describe_stream := silent on_describe_stream;
  on_lease_acquired s := silent (on_lease_acquired s);
  on_lease_lost s := silent (on_lease_lost s);
  on_leases_held n := silent (on_leases_held n);
  on_processing_slot_wait s n := silent (on_processing_slot_wait s n);
  on_max_processing_concurrency n := silent (on_max_processing_concurrency n);
  on_processing_queue_depth n := silent (on_processing_queue_depth n);
|}.
#[export] Instance b_clock : Clock (W * list BEvent) := {|
  instant_now := silent instant_now;
  sleep d := silent (sleep d);
|}.
End logging.

(** ** Relations between logs *)

Section relations.
Context {W : Type}.
Abbreviation WB := (W * list BEvent)%type.

(** Nothing but deliveries is added; nothing is added. *)
Definition delivers (x y : WB) : Prop :=
  ∃ ds, y.2 = x.2 ++ (BDeliver <$> ds).
Definition same_log (x y : WB) : Prop := y.2 = x.2.

#[export] Instance delivers_preorder : PreOrder delivers.
Proof.
  split; [intros x; exists []; by rewrite app_nil_r|]. intros x y z [d1 H1] [d2 H2].
  exists (d1 ++ d2). by rewrite H2, H1, fmap_app, app_assoc.
Qed.
#[export] Instance same_log_preorder : PreOrder same_log.
Proof. split; [done|]. intros x y z. unfold same_log. congruence. Qed.
Lemma silent_same {A} (m : M W A) : keeps same_log (silent m).
Proof. intros [w l]. unfold same_log, silent, logged. cbn. destruct (m w). cbn. apply app_nil_r. Qed.

Lemma silent_delivers {A} (m : M W A) : keeps delivers (silent m).
Proof. intros x. exists []. cbn. rewrite app_nil_r. apply silent_same. Qed.

Lemma deliver_delivers `{ShardConsumerFactory W} (c : Consumer (W := WB)) rs :
  keeps delivers (deliver (W := WB) c rs).
Proof.
  intros [w l]. exists [rs]. cbn. unfold logged. cbn. by destruct (deliver _ rs w).
Qed.

Lemma keeps_defer {R} (f : CkptDefer → R * CkptDefer) (T : relation WB) `{!Reflexive T} :
  keeps (under T) (defer_call (W := WB) f).
Proof.
  apply keeps_state; [done|]. intros [mem w]. unfold defer_call. cbn.
  destruct (fm_ckpt_defer mem) as [d|]; [|done]. by destruct (f d).
Qed.
End relations.

Ltac beat_call :=
  first [apply keeps_defer; apply _ | apply keeps_state; [apply _|intros [? ?]; done]
        | apply keeps_under; first [apply silent_same | apply silent_delivers | apply deliver_delivers]].

Section beats.
Context `{HashOrder} {W : Type} `{AsyncStreamSource W, AsyncLeaseStore W, ShardConsumerFactory W,
                     MetricsSink W, Clock W}.
Variables (polls : nat) (config : FleetConfig) (schedule : list nat).
Abbreviation WB := (W * list BEvent)%type.
Abbreviation me := (fc_owner config).
Implicit Types (items : list (string * (N * option string))).

(** ** The passes deliver, and never beat *)

Lemma beat_calls t c : PassCalls (W := WB) (under delivers) t c.
Proof. split; [split| |]; intros; first [by apply keeps_state; [apply _|] | beat_call]. Qed.

Lemma cycle_beat_calls : CycleCalls (W := WB) (under delivers) me.
Proof. split; intros; first [by apply keeps_state; [apply _|] | beat_call | apply beat_calls]. Qed.

Lemma serve_delivers rows : keeps (under delivers) (serve (W := WB) polls config schedule rows).
Proof. apply keeps_serve; [apply _|apply cycle_beat_calls|intros; beat_call..]. Qed.

(** ** Before the passes there is one heartbeat *)

Abbreviation calls_same := (under (S := FleetMem) (same_log (W := W))).
Abbreviation quietly := (keeps (under (S := Cycle) calls_same)).

Lemma lead_beat_calls : LeadCalls (W := WB) calls_same (λ _, True).
Proof. split; intros; first [by apply keeps_state; [apply _|] | beat_call | split; intros; beat_call]. Qed.

Lemma claim_beat_calls : ClaimCalls (W := WB) calls_same config.
Proof. split; intros; beat_call. Qed.

Lemma lead_and_sync_same now_ms : quietly (lead_and_sync (W := WB) config now_ms).
Proof. apply keeps_any_name, keeps_lead_and_sync; [apply _|apply lead_beat_calls]. Qed.

Lemma claim_share_same now_ms : quietly (claim_share (W := WB) config now_ms).
Proof. apply keeps_any_name, keeps_claim_share; [apply _|apply claim_beat_calls]. Qed.

Lemma beat_run cy mem (w : W) l :
  ∃ r w', outside (W := WB) (heartbeat me) (cy, (mem, (w, l))) = (r, (cy, (mem, (w', l ++ [BBeat me])))).
Proof.
  unfold outside, lift_m. cbn. unfold logged. cbn.
  destruct (Interfaces.heartbeat (W := W) me w) as [r w']. by exists r, w'.
Qed.

Lemma coordinate_beats now_ms cy mem (w : W) :
  let '(r, (_, (_, (_, log)))) :=
    (coordinate config now_ms (cy, (mem, (w, [])))
     : Result unit WorkerError * (Cycle * (FleetMem * WB))) in
  (log = [] ∧ r ≠ Ok tt) ∨ log = [BBeat me].
Proof.
  unfold coordinate, bind_ok. unfold bind at 1.
  pose proof (lead_and_sync_same now_ms (cy, (mem, (w, [])))) as Hl.
  destruct (lead_and_sync config now_ms _) as [[[]|e] [cy1 [mem1 [w1 l1]]]]; cbn in Hl;
    unfold under, same_log in Hl; cbn in Hl; subst l1; [|by left].
  destruct (beat_run cy1 mem1 w1 []) as (r & w2 & Hb). rewrite (bind_run _ _ _ _ _ Hb).
  cbn [app].
  pose proof (claim_share_same now_ms (cy1, (mem1, (w2, [BBeat me])))) as Hs.
  destruct (claim_share config now_ms _) as [r' [cy3 [mem3 [w3 l3]]]].
  unfold under, same_log in Hs. cbn in Hs. subst l3. by right.
Qed.

(** ** Properties *)

(** C12: a cycle writes one heartbeat, before its passes, and none while they run:
    whatever they deliver and however long that takes, in the table this worker
    beats again only in the next cycle. *)
Theorem one_heartbeat_before_the_passes now_ms cy mem (w : W) :
  let '(_, (_, (_, (_, log)))) :=
    (run_cycle polls config schedule now_ms (cy, (mem, (w, [])))
     : Result (option bool) WorkerError * (Cycle * (FleetMem * WB))) in
  log = [] ∨ ∃ ds, log = BBeat me :: (BDeliver <$> ds).
Proof.
  unfold run_cycle, bind_ok. unfold bind at 1.
  pose proof (coordinate_beats now_ms cy mem w) as Hc.
  destruct (coordinate config now_ms _) as [[[]|e] [cy1 [mem1 [w1 l1]]]].
  2: { cbn. destruct Hc as [[Hlog _]|Hlog]; subst l1; [by left|]. right. by exists []. }
  destruct Hc as [[_ Hne]|Hlog]; [done|]. subst l1. unfold bind at 1.
  assert (quietly (outside (W := WB) list_leases)) as Hl by (apply keeps_under; beat_call).
  specialize (Hl (cy1, (mem1, (w1, [BBeat me])))).
  destruct (outside list_leases _) as [[scan|e] [cy2 [mem2 [w2 l2]]]];
    unfold under, same_log in Hl; cbn in Hl; subst l2; [|by right; exists []].
  unfold bind, lift_m. cbn [fst snd].
  pose proof (serve_delivers (only_shards scan) (mem2, (w2, [BBeat me]))) as [ds Hds].
  destruct (serve _ _ _ _ _) as [r [mem3 [w3 l3]]]. cbn in *. right. exists ds. exact Hds.
Qed.
End beats.
