(* ===== verification/Otel.v ===== *)
(** * Telemetry export ([sidecar/src/otel.rs])

    The metrics sink that exports over OTLP: its configuration from the environment,
    its instruments, what each observation of the engine records, and the transport
    that signs requests.  The OpenTelemetry SDK, the URL parser, the AWS credentials
    and the signature algorithm are not part of the repository: they are an interface
    or parameters. *)

From Stdlib Require Import Lia.
From stdpp Require Import base gmap numbers list strings.
From S2P Require Import Prelude Core Interfaces Metrics CkptDefer Tasks FleetState ShardPass PassCalls.

(** ** The SDK *)

Record KeyValue := { kv_key : string; kv_value : string }.
#[export] Instance KeyValue_eq_dec : EqDecision KeyValue.
Proof. solve_decision. Defined.

(** [Counter] and [Gauge], by what they are built from. *)
Record Instrument := {
  in_name : string;
  in_description : string;
  in_unit : option string;
}.

(** What a [SigV4HttpClient] is made of; the HTTP client inside it has no state. *)
Record SigV4HttpClient (Creds : Type) := {
  sv_creds : option Creds;
  sv_region : string;
  sv_service : string;
  sv_sign : bool;
}.
Arguments sv_creds {Creds}.
Arguments sv_region {Creds}.
Arguments sv_service {Creds}.
Arguments sv_sign {Creds}.

Class OtelSdk (W Creds : Type) := {
  (** [MetricExporter::builder().with_http()...build()]. *)
  exporter_build : SigV4HttpClient Creds → string → M W (Result unit WorkerError);
  (** The periodic reader, the resource and the provider over the exporter. *)
  provider_build : Duration → list KeyValue → M W unit;
  u64_add : Instrument → N → list KeyValue → M W unit;
  u64_record : Instrument → N → list KeyValue → M W unit;
  i64_record : Instrument → Z → list KeyValue → M W unit;
  provider_force_flush : M W (Result unit WorkerError);
}.

(** ** The sink *)

Record OtelMetricsSink := {
  os_lag : Instrument;
  os_records : Instrument;
  os_bytes : Instrument;
  os_describes : Instrument;
  os_shard_ends : Instrument;
  os_lease_acquired : Instrument;
  os_lease_lost : Instrument;
  os_leases_held : Instrument;
  os_slot_wait : Instrument;
  os_max_concurrency : Instrument;
  os_queue_depth : Instrument;
  os_base_attrs : list KeyValue;
}.

Definition shard_attrs (sink : OtelMetricsSink) (shard_id : ShardId) : list KeyValue :=
  os_base_attrs sink ++ [{| kv_key := "shard_id"; kv_value := shard_id |}].

Section sink.
Context {W Creds : Type} `{OtelSdk W Creds}.
Variable sink : OtelMetricsSink.

Definition otel_on_batch (m : ShardMetrics) : M W unit :=
  let attrs := shard_attrs sink (mt_shard_id m) in
  u64_add (os_records sink) (mt_records m) attrs ;;;
  u64_add (os_bytes sink) (mt_bytes m) attrs ;;;
  match mt_millis_behind_latest m with
  | Some lag => i64_record (os_lag sink) lag attrs
  | None => ret tt
  end.

Definition otel_sink : MetricsSink W := {|
  on_batch := otel_on_batch;
  on_shard_end s := u64_add (os_shard_ends sink) 1 (shard_attrs sink s);
  on_describe_stream := u64_add (os_describes sink) 1 (os_base_attrs sink);
  on_lease_acquired s := u64_add (os_lease_acquired sink) 1 (shard_attrs sink s);
  on_lease_lost s := u64_add (os_lease_lost sink) 1 (shard_attrs sink s);
  on_leases_held n := u64_record (os_leases_held sink) n (os_base_attrs sink);
  on_processing_slot_wait s ms := u64_record (os_slot_wait sink) ms (shard_attrs sink s);
  on_max_processing_concurrency n := u64_record (os_max_concurrency sink) n (os_base_attrs sink);
  on_processing_queue_depth n := u64_record (os_queue_depth sink) n (os_base_attrs sink);
|}.

Definition force_flush : M W (Result unit WorkerError) := provider_force_flush.
End sink.

(** ** Configuration *)

(** [str::ends_with] and [str::trim_end_matches] of a character. *)
Fixpoint ends_with (s p : string) : bool :=
  bool_decide (s = p) || match s with EmptyString => false | String _ s' => ends_with s' p end.

Fixpoint trim_end_matches (s : string) (c : Ascii.ascii) : string :=
  match s with
  | EmptyString => EmptyString
  | String a s' =>
      let t := trim_end_matches s' c in
      if bool_decide (t = EmptyString ∧ a = c) then EmptyString else String a t
  end.

Definition instrument (name description : string) (unit : option string) : Instrument :=
  {| in_name := name; in_description := description; in_unit := unit |}.

Section otel_env.
(** [std::env::var(k).ok()], the host of a URL, and the ambient AWS configuration. *)
Context {Creds : Type}.
Variables (env : string → option string) (url_host : string → option string)
  (aws_region : option string) (aws_creds : option Creds).

Definition metrics_endpoint : string :=
  let endpoint := default "http://localhost:4318" (env "OTEL_EXPORTER_OTLP_ENDPOINT") in
  if ends_with endpoint "/v1/metrics" then endpoint
  else String.append (trim_end_matches endpoint "/"%char) "/v1/metrics".

Definition sign_sigv4 : bool :=
  match url_host metrics_endpoint with
  | Some h => ends_with h "amazonaws.com"
  | None => false
  end.

Definition http_client : SigV4HttpClient Creds :=
  {| sv_creds := aws_creds; sv_region := default "us-east-1" aws_region;
     sv_service := "monitoring"; sv_sign := sign_sigv4 |}.

Definition export_interval_ms : N :=
  default 10000%N (env "OTEL_METRIC_EXPORT_INTERVAL" ≫= parse_u64).

(** What is merged into [Resource::default()]. *)
Definition resource_extra : list KeyValue :=
  let has_ns := match env "OTEL_RESOURCE_ATTRIBUTES" with
                | Some v => contains v "service.namespace"
                | None => false
                end in
  if has_ns then []
  else [{| kv_key := "service.namespace"; kv_value := "DynamoDBStreamsConsumer" |}].

Definition base_attr (key var : string) : list KeyValue :=
  match env var with
  | Some v => if bool_decide (v = EmptyString) then [] else [{| kv_key := key; kv_value := v |}]
  | None => []
  end.

Definition base_attrs : list KeyValue :=
  base_attr "worker" "DDB_STREAMS_CONSUMER_OWNER" ++
  base_attr "stream" "DDB_STREAMS_CONSUMER_STREAM_ARN".

Definition instruments (base : list KeyValue) : OtelMetricsSink := {|
  os_lag := instrument "ddbstreams.consumer.millis_behind_latest"
    "Consumer lag: now - newest record ApproximateCreationDateTime" (Some "ms");
  os_records := instrument "ddbstreams.consumer.records_processed"
    "Records delivered to the record processor" None;
  os_bytes := instrument "ddbstreams.consumer.bytes_processed" "Payload bytes delivered" (Some "By");
  os_describes := instrument "ddbstreams.consumer.describe_stream.count"
    "DescribeStream calls issued by the shard-sync leader" None;
  os_shard_ends := instrument "ddbstreams.consumer.shard_end.count" "Shards that reached SHARD_END" None;
  os_lease_acquired := instrument "ddbstreams.consumer.lease.acquired"
    "Shard leases this worker acquired or created" None;
  os_lease_lost := instrument "ddbstreams.consumer.lease.lost"
    "Shard leases this worker lost (stolen or expired)" None;
  os_leases_held := instrument "ddbstreams.consumer.lease.held"
    "Shard leases this worker currently holds" None;
  os_slot_wait := instrument "ddbstreams.consumer.processing.slot_wait_ms"
    "Time a due shard waited in the queue before a pool worker claimed it (max_processing_concurrency); emitted per claimed pass"
    (Some "ms");
  os_max_concurrency := instrument "ddbstreams.consumer.processing.max_concurrency"
    "Configured max_processing_concurrency cap (0 = unbounded)" None;
  os_queue_depth := instrument "ddbstreams.consumer.processing.queue_depth"
    "Due shards waiting for or claimed by the processing pool at cycle start; persistently above the pool size means the pool is the bottleneck"
    None;
  os_base_attrs := base;
|}.

Context {W : Type} `{OtelSdk W Creds}.

(** [OtelMetricsSink::from_env]. *)
Definition otel_from_env : M W (Result OtelMetricsSink WorkerError) :=
  _ <-? exporter_build http_client metrics_endpoint ;;
  provider_build (from_millis export_interval_ms) resource_extra ;;;
  ret (Ok (instruments base_attrs)).

(** The sidecar's start-up: the sink if [OTEL_METRICS_EXPORTER] is set and the
    exporter can be built. *)
Definition attach_metrics : M W (option OtelMetricsSink) :=
  match env "OTEL_METRICS_EXPORTER" with
  | Some _ =>
      r <- otel_from_env ;;
      ret (match r with Ok sink => Some sink | Err _ => None end)
  | None => ret None
  end.

(** The sidecar's exit: the last interval is flushed, errors are logged only. *)
Definition flush_metrics (otel : option OtelMetricsSink) : M W unit :=
  match otel with
  | Some _ => force_flush ;;; ret tt
  | None => ret tt
  end.

(** The metrics of the fleet: the sink, or nothing. *)
Definition fleet_metrics (otel : option OtelMetricsSink) : MetricsSink W :=
  match otel with Some sink => otel_sink sink | None => noop_sink end.
End otel_env.

(** ** The signing transport *)

Record HttpRequest := {
  rq_method : string;
  rq_uri : string;
  rq_headers : list (string * list Byte.byte);
  rq_body : list Byte.byte;
}.

Record HttpResponse := {
  rs_status : N;
  rs_body : list Byte.byte;
}.

(** Credentials, the signature and the HTTP client ([aws_credential_types],
    [aws_sigv4], [reqwest]). *)
Class HttpStack (W Creds Identity : Type) := {
  provide_credentials : Creds → M W (Result Identity WorkerError);
  (** The headers a signature adds, for an identity, a region and a service, the
      method, the URI, the headers and the body. *)
  sign : Identity → string → string → string → string → list (string * string) →
    list Byte.byte → M W (Result (list (string * string)) WorkerError);
  (** [request(method, uri).header(..).body(..).send()]: a status to read a body from. *)
  http_send : string → string → list (string * string) → list Byte.byte →
    M W (Result N WorkerError);
  http_body : M W (Result (list Byte.byte) WorkerError);
}.

Section transport.
Context {W Creds Identity : Type} `{HttpStack W Creds Identity}.
(** [HeaderValue::to_str]: a header whose value is no visible ASCII has none. *)
Variable to_str : list Byte.byte → option string.
Variable c : SigV4HttpClient Creds.

Definition sign_headers (method uri : string) (headers : list (string * string))
    (body : list Byte.byte) : M W (Result (list (string * string)) WorkerError) :=
  match sv_creds c with
  | None => ret (Err "no AWS credentials provider for SigV4")
  | Some provider =>
      identity <-? provide_credentials provider ;;
      instructions <-? sign identity (sv_region c) (sv_service c) method uri headers body ;;
      ret (Ok (headers ++ instructions))
  end.

Definition text_headers (r : HttpRequest) : list (string * string) :=
  omap (M := list) (λ kv : string * list Byte.byte, v ← to_str kv.2; Some (kv.1, v)) (rq_headers r).

Definition send (r : HttpRequest) : M W (Result HttpResponse WorkerError) :=
  headers <-? (if sv_sign c
               then sign_headers (rq_method r) (rq_uri r) (text_headers r) (rq_body r)
               else ret (Ok (text_headers r))) ;;
  status <-? http_send (rq_method r) (rq_uri r) headers (rq_body r) ;;
  bytes <-? http_body ;;
  ret (Ok {| rs_status := status; rs_body := bytes |}).
End transport.

(** ** What the transport does, seen from outside *)

Inductive TEvent :=
| TCredentials
| TSign (headers added : list (string * string))
| TSend (method uri : string) (headers : list (string * string)) (body : list Byte.byte).

Section transport_log.
Context {W Creds Identity : Type} `{HttpStack W Creds Identity}.

#[export] Instance http_logged : HttpStack (W * list TEvent) Creds Identity := {|
  provide_credentials p := logged (provide_credentials p) (λ _, [TCredentials]);
  sign i r s m u hs b := logged (sign i r s m u hs b)
    (λ a, match a with Ok added => [TSign hs added] | Err _ => [] end);
  http_send m u hs b := logged (http_send m u hs b) (λ _, [TSend m u hs b]);
  http_body := logged http_body (λ _, []);
|}.

(** A request goes out at most once, as it was given.  Unsigned it carries the
    headers it was given and no credentials are asked for; signed, what the signature
    of exactly these headers added, and if it cannot be signed it does not go out. *)
Lemma send_signs_what_it_sends to_str (c : SigV4HttpClient Creds) r (w : W) :
  let hs := text_headers to_str r in
  let '(res, (_, log)) := (send to_str c r (w, []) : Result HttpResponse WorkerError * (W * list TEvent)) in
  let sent headers := TSend (rq_method r) (rq_uri r) headers (rq_body r) in
  if sv_sign c then
    (∃ e, res = Err e ∧ (log = [] ∨ log = [TCredentials])) ∨
    (∃ added, log = [TCredentials; TSign hs added; sent (hs ++ added)])
  else log = [sent hs].
Proof.
  unfold send, bind_ok, bind. cbn. unfold logged. cbn. destruct (sv_sign c).
  - unfold sign_headers, bind_ok, bind. destruct (sv_creds c) as [p|]; cbn; [|left; eauto].
    unfold logged. cbn. destruct (provide_credentials p w) as [[i|e] w1]; cbn; [|left; eauto].
    destruct (sign i _ _ _ _ _ _ w1) as [[added|e] w2]; cbn; [|left; eauto].
    destruct (http_send (Creds := Creds) (Identity := Identity) _ _ _ _ w2) as [[st|e] w3]; cbn;
      [|right; by exists added].
    destruct (http_body (Creds := Creds) (Identity := Identity) w3) as [[b|e] w4]; right; by exists added.
  - cbn. destruct (http_send (Creds := Creds) (Identity := Identity) _ _ _ _ w) as [[st|e] w1]; cbn; [|done].
    by destruct (http_body (Creds := Creds) (Identity := Identity) w1) as [[b|e] w2].
Qed.
End transport_log.
