(* ===== verification/Telemetry.v ===== *)
(** * The telemetry counts what is delivered

    The passes of [ShardPass] with the sink of [Otel] behind their metrics: however
    they interleave, the counters of a shard account for its deliveries.  Each task
    owns the account of its shard: the batch that was delivered and is not counted
    yet. *)

From Stdlib Require Import Lia.
From stdpp Require Import base gmap numbers list strings.
From S2P Require Import Prelude Core Interfaces Metrics CkptDefer Tasks FleetState ShardPass PassCalls Otel.

Inductive AEvent :=
| ADelivered (shard : ShardId) (rs : list Record_)
| AMeasured (i : Instrument) (value : Z) (attrs : list KeyValue).

(** ** Observation *)

Section logging.
Context {W Creds : Type} `{AsyncStreamSource W, AsyncLeaseStore W, ShardConsumerFactory W,
                           Clock W, OtelSdk W Creds}.
Abbreviation L := (W * list AEvent)%type.

Definition unseen {A} (m : M W A) : M L A := logged m (λ _, []).

#[export] Instance a_source : AsyncStreamSource L := {|
  describe_shards := unseen describe_shards;
  get_records s a := unseen (get_records s a);
  describe_child_shards p := unseen (describe_child_shards p);
|}.
#[export] Instance a_leases : AsyncLeaseStore L := {|
  get k := unseen (get k);
  list_leases := unseen list_leases;
  acquire k o := unseen (acquire k o);
  renew k o n := unseen (renew k o n);
  heartbeat w := unseen (heartbeat w);
  checkpoint k o n q := unseen (checkpoint k o n q);
  mark_complete k o n := unseen (mark_complete k o n);
  release k o n := unseen (release k o n);
  delete_lease k := unseen (delete_lease k);
  create_shard_lease k ps cp := unseen (create_shard_lease k ps cp);
  try_acquire_leadership k o e := unseen (try_acquire_leadership k o e);
|}.
(** A delivery the consumer took. *)
#[export] Instance a_consumers : ShardConsumerFactory L := {|
  Consumer := (ShardId * Consumer (W := W))%type;
  create s := c <- unseen (create s) ;; ret (s, c);
  deliver c rs := logged (deliver c.2 rs) (λ r, if is_ok r then [ADelivered c.1 rs] else []);
  consumer_ended c := unseen (consumer_ended c.2);
  consumer_lost c := unseen (consumer_lost c.2);
|}.
#[export] Instance a_clock : Clock L := {|
  instant_now := unseen instant_now;
  sleep d := unseen (sleep d);
|}.
#[export] Instance a_sdk : OtelSdk L Creds := {|
  exporter_build c e := unseen (exporter_build c e);
  provider_build d kv := unseen (provider_build (Creds := Creds) d kv);
  u64_add i n kv := logged (u64_add (Creds := Creds) i n kv) (λ _, [AMeasured i (Z.of_N n) kv]);
  u64_record i n kv := logged (u64_record (Creds := Creds) i n kv) (λ _, [AMeasured i (Z.of_N n) kv]);
  i64_record i n kv := logged (i64_record (Creds := Creds) i n kv) (λ _, [AMeasured i n kv]);
  provider_force_flush := unseen (provider_force_flush (Creds := Creds));
|}.
End logging.

(** The batches of a shard that were delivered, and what a counter was given for it. *)
Definition delivered_to (s : string) (l : list AEvent) : list (list Record_) :=
  omap (M := list) (λ e, match e with
    | ADelivered s' rs => if bool_decide (s' = s) then Some rs else None
    | AMeasured _ _ _ => None end) l.

Definition measured (name : string) (attrs : list KeyValue) (l : list AEvent) : list Z :=
  omap (M := list) (λ e, match e with
    | AMeasured i v kv => if bool_decide (in_name i = name ∧ kv = attrs) then Some v else None
    | ADelivered _ _ => None end) l.

Definition record_count (rs : list Record_) : Z := Z.of_nat (length rs).
Definition byte_count (rs : list Record_) : Z :=
  foldr (λ r n, (Z.of_nat (length (rec_data r)) + n)%Z) 0%Z rs.

Lemma batch_metrics_counts s b :
  Z.of_N (mt_records (batch_metrics s b)) = record_count (rb_records b) ∧
  Z.of_N (mt_bytes (batch_metrics s b)) = byte_count (rb_records b).
Proof.
  unfold batch_metrics, record_count, byte_count. cbn. split; [lia|].
  induction (rb_records b) as [|r rs IH]; cbn; [done|]. rewrite N2Z.inj_add, IH. lia.
Qed.

Lemma shard_attrs_inj sink s s' : shard_attrs sink s = shard_attrs sink s' → s = s'.
Proof. unfold shard_attrs. by intros [= ->]%app_inv_head. Qed.

(** ** Accounts *)

Section accounts.
Variable base : list KeyValue.
Abbreviation sink := (instruments base).
Abbreviation records_name := "ddbstreams.consumer.records_processed".
Abbreviation bytes_name := "ddbstreams.consumer.bytes_processed".

(** The account of a shard: what is delivered is what is counted, in order, and the
    batch that is not counted yet. *)
Definition accounts (s : string) (open : list (list Record_)) (l : list AEvent) : Prop :=
  record_count <$> delivered_to s l =
    measured records_name (shard_attrs sink s) l ++ (record_count <$> open) ∧
  byte_count <$> delivered_to s l =
    measured bytes_name (shard_attrs sink s) l ++ (byte_count <$> open).

(** Events that are on no account. *)
Definition off_account (s : string) (l : list AEvent) : Prop :=
  delivered_to s l = [] ∧ measured records_name (shard_attrs sink s) l = [] ∧
  measured bytes_name (shard_attrs sink s) l = [].

Lemma delivered_app s l1 l2 : delivered_to s (l1 ++ l2) = delivered_to s l1 ++ delivered_to s l2.
Proof. apply omap_app. Qed.
Lemma measured_app n a l1 l2 : measured n a (l1 ++ l2) = measured n a l1 ++ measured n a l2.
Proof. apply omap_app. Qed.

Lemma accounts_off s open l l' : off_account s l' → accounts s open l → accounts s open (l ++ l').
Proof.
  intros (Hd & Hr & Hb). unfold accounts.
  by rewrite delivered_app, !measured_app, Hd, Hr, Hb, !app_nil_r.
Qed.

Lemma accounts_delivered s rs l : accounts s [] l → accounts s [rs] (l ++ [ADelivered s rs]).
Proof.
  unfold accounts. rewrite delivered_app, !measured_app. cbn.
  rewrite bool_decide_eq_true_2 by done. cbn. rewrite !fmap_app, !app_nil_r. intros [-> ->]. done.
Qed.

Lemma delivered_elsewhere s s' rs : s ≠ s' → off_account s' [ADelivered s rs].
Proof. intros Hne. unfold off_account. cbn. by rewrite bool_decide_eq_false_2. Qed.

(** What [on_batch] records. *)
Definition batch_events (s : string) (b : RecordBatch) : list AEvent :=
  let m := batch_metrics s b in
  AMeasured (os_records sink) (Z.of_N (mt_records m)) (shard_attrs sink s) ::
  AMeasured (os_bytes sink) (Z.of_N (mt_bytes m)) (shard_attrs sink s) ::
  match rb_millis_behind_latest b with
  | Some lag => [AMeasured (os_lag sink) lag (shard_attrs sink s)]
  | None => []
  end.

Lemma measured_hit i v kv l : measured (in_name i) kv (AMeasured i v kv :: l) = v :: measured (in_name i) kv l.
Proof. unfold measured. cbn. by rewrite bool_decide_eq_true_2. Qed.

Lemma measured_miss n i v kv kv' l :
  in_name i ≠ n ∨ kv ≠ kv' → measured n kv' (AMeasured i v kv :: l) = measured n kv' l.
Proof. intros Hne. unfold measured. cbn. rewrite bool_decide_eq_false_2; [done|]. tauto. Qed.

Lemma batch_measured s b :
  delivered_to s (batch_events s b) = [] ∧
  measured records_name (shard_attrs sink s) (batch_events s b) = [record_count (rb_records b)] ∧
  measured bytes_name (shard_attrs sink s) (batch_events s b) = [byte_count (rb_records b)].
Proof.
  destruct (batch_metrics_counts s b) as [Hr Hb]. unfold batch_events. rewrite Hr, Hb.
  change records_name with (in_name (os_records sink)). change bytes_name with (in_name (os_bytes sink)).
  split_and!; [by destruct (rb_millis_behind_latest b)| |].
  - rewrite measured_hit, measured_miss by (by left).
    destruct (rb_millis_behind_latest b); [by rewrite measured_miss by (by left)|done].
  - rewrite measured_miss, measured_hit by (by left).
    destruct (rb_millis_behind_latest b); [by rewrite measured_miss by (by left)|done].
Qed.

Lemma accounts_counted s b l :
  accounts s [rb_records b] l → accounts s [] (l ++ batch_events s b).
Proof.
  destruct (batch_measured s b) as (Hd & Hr & Hb). unfold accounts.
  rewrite delivered_app, !measured_app, Hd, Hr, Hb, !app_nil_r. done.
Qed.

Lemma off_account_measured i v s s' :
  s ≠ s' ∨ (in_name i ≠ records_name ∧ in_name i ≠ bytes_name) →
  off_account s' [AMeasured i v (shard_attrs sink s)].
Proof.
  intros Hne. unfold off_account. cbn [delivered_to omap list_omap].
  split_and!; [done| |]; (rewrite measured_miss; [done|]);
    destruct Hne as [Hne|[? ?]]; (by left) || (right; by intros ?%shard_attrs_inj).
Qed.

Lemma counted_elsewhere s s' b : s ≠ s' → off_account s' (batch_events s b).
Proof.
  intros Hne. assert (shard_attrs sink s ≠ shard_attrs sink s') as Ha by by intros ?%shard_attrs_inj.
  unfold off_account, batch_events. split_and!; [by destruct (rb_millis_behind_latest b)| |];
    destruct (rb_millis_behind_latest b); by rewrite !measured_miss by (by right).
Qed.
End accounts.

(** ** The passes keep the accounts *)

Section passes.
Context {W Creds : Type} `{AsyncStreamSource W, AsyncLeaseStore W, ShardConsumerFactory W,
                           Clock W, OtelSdk W Creds}.
Variable base : list KeyValue.
Abbreviation L := (W * list AEvent)%type.
Abbreviation World := (FleetMem * L)%type.
Abbreviation sink := (instruments base).

#[local] Instance telemetry : MetricsSink L := otel_sink (Creds := Creds) sink.

(** The account of a shard, held by the task that works on it. *)
Record Account := { ac_shard : string; ac_open : list (list Record_) }.

Definition AInv (gs : list Account) (x : World) : Prop :=
  NoDup (ac_shard <$> gs) ∧ Forall (λ g, accounts base (ac_shard g) (ac_open g) x.2.2) gs.

#[local] Instance AInv_perm x : Proper ((≡ₚ) ==> iff) (λ gs, AInv gs x).
Proof. intros gs1 gs2 Hp. unfold AInv. by rewrite Hp. Qed.

Definition uncounted (x y : World) : Prop :=
  ∃ l, y.2.2 = x.2.2 ++ l ∧ ∀ s, off_account base s l.

#[local] Instance uncounted_preorder : PreOrder uncounted.
Proof.
  split; [intros x; exists []; by rewrite app_nil_r|].
  intros x y z (l1 & Hy & Ho1) (l2 & Hz & Ho2). exists (l1 ++ l2).
  split; [by rewrite Hz, Hy, app_assoc|]. intros s. unfold off_account in *.
  rewrite delivered_app, !measured_app. destruct (Ho1 s) as (-> & -> & ->), (Ho2 s) as (-> & -> & ->). done.
Qed.

Lemma AInv_uncounted gs x y : uncounted x y → AInv gs x → AInv gs y.
Proof.
  intros (l & Hl & Ho) [Hnd Hgs]. split; [done|]. eapply Forall_impl; [exact Hgs|].
  intros g Hg. cbn in *. rewrite Hl. by apply accounts_off.
Qed.

Lemma uncounted_logged {A} (m : M W A) (ev : A → list AEvent) :
  (∀ a s, off_account base s (ev a)) → keeps uncounted (lift_m (logged m ev)).
Proof.
  intros Hev [mem [w l]]. unfold lift_m, logged. cbn. destruct (m w) as [a w']. by exists (ev a).
Qed.

Lemma telemetry_calls t (c : Consumer (W := L)) : QuietCalls uncounted t c.
Proof.
  split; intros.
  { intros x. exists []. rewrite app_nil_r. split; [by f_equal|done]. }
  all: apply uncounted_logged; intros a' s; first [done | apply off_account_measured; right; done].
Qed.

(** The two calls of a delivery. *)
Lemma rsafe_deliver {B} t (c : Consumer (W := L)) rs (k : Result (option string) WorkerError → Task World B) Q :
  c.1 = st_shard t →
  (∀ r, rsafe AInv [{| ac_shard := st_shard t; ac_open := if is_ok r then [rs] else [] |}] (k r) Q) →
  rsafe AInv [{| ac_shard := st_shard t; ac_open := [] |}] (task_bind (call (deliver c rs)) k) Q.
Proof.
  intros Hc Hk. unfold call. cbn [act task_bind rsafe]. intros f [mem [w l]] [Hnd Hgs].
  unfold lift_m. cbn. unfold logged. cbn. destruct (deliver c.2 rs w) as [r w']. cbn [fst snd].
  eexists. split; [|apply Hk]. cbn [app] in *. apply Forall_cons in Hgs as [Hg Hgs].
  rewrite fmap_cons in Hnd. split; [exact Hnd|]. apply NoDup_cons in Hnd as [Hnin _].
  rewrite Hc. destruct r as [o|e]; cbn [is_ok snd ac_shard ac_open] in *; [|by rewrite app_nil_r; constructor].
  constructor; [by apply accounts_delivered|]. rewrite Forall_forall in Hgs |- *. intros g Hg'.
  apply accounts_off; [|by apply Hgs]. apply delivered_elsewhere. intros Heq.
  apply Hnin. rewrite Heq. by apply list_elem_of_fmap_2.
Qed.

Lemma on_batch_run s b mem w l :
  ∃ w', lift_m (S := FleetMem) (on_batch (W := L) (batch_metrics s b)) (mem, (w, l)) =
    (tt, (mem, (w', l ++ batch_events base s b))).
Proof.
  unfold lift_m. cbn. unfold otel_on_batch, bind. cbn. unfold logged. cbn.
  destruct (u64_add _ _ _ w) as [[] w1]. cbn. destruct (u64_add _ _ _ w1) as [[] w2]. cbn.
  unfold batch_events. destruct (rb_millis_behind_latest b) as [lag|]; cbn.
  - destruct (i64_record _ _ _ w2) as [[] w3]. cbn. exists w3. by rewrite <- !app_assoc.
  - exists w2. by rewrite <- !app_assoc.
Qed.

Lemma rsafe_counted {B} s b (k : unit → Task World B) Q :
  rsafe AInv [{| ac_shard := s; ac_open := [] |}] (k tt) Q →
  rsafe AInv [{| ac_shard := s; ac_open := [rb_records b] |}]
    (task_bind (call (on_batch (batch_metrics s b))) k) Q.
Proof.
  intros Hk. unfold call. cbn [act task_bind rsafe]. intros f [mem [w l]] [Hnd Hgs].
  destruct (on_batch_run s b mem w l) as (w' & ->). eexists. split; [|exact Hk].
  cbn [app snd fst] in *. apply Forall_cons in Hgs as [Hg Hgs].
  rewrite fmap_cons in Hnd. split; [exact Hnd|]. apply NoDup_cons in Hnd as [Hnin _].
  constructor; [by apply accounts_counted|]. rewrite Forall_forall in Hgs |- *. intros g Hg'.
  apply accounts_off; [|by apply Hgs]. apply counted_elsewhere. intros Heq.
  apply Hnin. cbn in Heq |- *. rewrite Heq. by apply list_elem_of_fmap_2.
Qed.

Lemma rsafe_uncounted {A B} h (u : Task World A) (k : A → Task World B) Q :
  calm_task uncounted u → (∀ a, rsafe AInv h (k a) Q) → rsafe AInv h (task_bind u k) Q.
Proof. apply rsafe_calm. intros f x y. apply AInv_uncounted. Qed.

(** Where a pass leaves its account: open, by one batch, only if it was stopped. *)
Definition settled (s : string) (r : option (Result PassOutcome WorkerError)) (h : list Account) : Prop :=
  ∃ open, h = [{| ac_shard := s; ac_open := open |}] ∧ length open ≤ 1 ∧
    (r ≠ None → r ≠ Some (Ok Stopped) → open = []).

Lemma account_batch t (c : Consumer (W := L)) n b {B} (k : option N → Task World B) Q :
  c.1 = st_shard t →
  (∀ n', rsafe AInv [{| ac_shard := st_shard t; ac_open := [] |}] (k (Some n')) Q) →
  (∀ open, length open ≤ 1 →
     rsafe AInv [{| ac_shard := st_shard t; ac_open := open |}] (k None) Q) →
  rsafe AInv [{| ac_shard := st_shard t; ac_open := [] |}] (task_bind (deliver_batch t c n b) k) Q.
Proof.
  intros Hc Hs Hn. pose proof (telemetry_calls t c) as Hq. apply rsafe_bind. unfold deliver_batch.
  apply rsafe_deliver; [done|]. intros [ack|e]; cbn [is_ok].
  - apply rsafe_uncounted; [case_match; [by apply calm_save_ack|done]|].
    intros [n'|]; [|by apply Hn; cbn; lia]. apply rsafe_counted. apply Hs.
  - apply rsafe_uncounted; [by eapply calm_defer_do|]. intros _. apply Hn. cbn. lia.
Qed.

Lemma account_pass_loop t (c : Consumer (W := L)) polls n a any :
  c.1 = st_shard t →
  rsafe AInv [{| ac_shard := st_shard t; ac_open := [] |}] (pass_loop t c polls n a any)
    (settled (st_shard t)).
Proof.
  intros Hc. pose proof (telemetry_calls t c) as Hq.
  assert (∀ r, settled (st_shard t) r [{| ac_shard := st_shard t; ac_open := [] |}]) as Hclosed.
  { intros r. exists []. split_and!; [done|cbn; lia|done]. }
  revert n a any. induction polls as [|polls IH]; intros n a any; cbn [pass_loop]; [apply Hclosed|].
  apply rsafe_uncounted; [split; [by eapply calls_fetch|done]|]. intros [b|e]; [|apply Hclosed].
  assert (∀ n', rsafe AInv [{| ac_shard := st_shard t; ac_open := [] |}]
    (o <~ end_shard t c n' ;; Finish (Some (Ok o))) (settled (st_shard t))) as Hend.
  { intros n'. apply rsafe_uncounted; [by apply calm_end_shard|]. intros o. apply Hclosed. }
  destruct (bool_decide (rb_records b = [])); cbn [task_bind].
  - destruct (rb_shard_end b); [apply Hend|apply Hclosed].
  - apply account_batch; [done| |].
    + intros n'. destruct (rb_shard_end b); [apply Hend|apply IH].
    + intros open Hopen. exists open. by split_and!.
Qed.

Lemma account_process_shard t (c : Consumer (W := L)) polls :
  c.1 = st_shard t →
  rsafe AInv [{| ac_shard := st_shard t; ac_open := [] |}] (process_shard t c polls)
    (settled (st_shard t)).
Proof.
  intros Hc. apply rsafe_uncounted.
  - split; [|done]. by apply (calls_memory _ _ _ (telemetry_calls t c)).
  - intros q. by apply account_pass_loop.
Qed.
Definition account_of (item : string * (N * option string)) : Account :=
  {| ac_shard := item.1; ac_open := [] |}.

Lemma spawn_accounts polls me items (x : World) :
  Forall3 (rsafe AInv) ((λ i, [account_of i]) <$> items) (spawn_all (W := L) polls me items x).1
    ((λ i, settled i.1) <$> items) ∧
  (spawn_all (W := L) polls me items x).2.2.2 = x.2.2.
Proof.
  revert x. induction items as [|i items IH]; intros [mem [w l]]; cbn [spawn_all]; [by split; [constructor|]|].
  assert (∃ c0 w1, (lift_m (create i.1) : M World (Consumer (W := L))) (mem, (w, l))
                   = ((i.1, c0), (mem, (w1, l)))) as (c0 & w1 & Hc).
  { unfold lift_m. cbn. unfold bind, unseen, logged. cbn.
    destruct (create i.1 w) as [c0 w1]. exists c0, w1. cbn. by rewrite app_nil_r. }
  rewrite (bind_run _ _ _ _ _ Hc). unfold bind. destruct (IH (mem, (w1, l))) as [HF Hl].
  destruct (spawn_all (W := L) polls me items (mem, (w1, l))) as [ts x']. cbn [fst snd ret] in *.
  split; [|exact Hl]. constructor; [|exact HF]. by apply (account_process_shard (task_of me i)).
Qed.

(** C39: the telemetry of the shard tasks of a cycle is exact, however they interleave
    and whatever fails: what the records and bytes counters are given for a shard are
    the numbers of records and bytes of the batches its consumer took, batch by batch
    and in order.  At most the last batch is missing, and only from a pass that was
    stopped (its ack could not be written). *)
Theorem telemetry_counts_deliveries polls me schedule items mem (w : W)
    (Hnd : NoDup items.*1) :
  let '(rs, (_, (_, log))) :=
    (process_unbounded (W := L) polls me schedule items (mem, (w, [])) : list PassResult * World) in
  ∀ i item, items !! i = Some item → ∃ r missing, rs !! i = Some r ∧ length missing ≤ 1 ∧
    (r ≠ None → r ≠ Some (Ok Stopped) → missing = []) ∧
    record_count <$> delivered_to item.1 log =
      measured "ddbstreams.consumer.records_processed" (shard_attrs sink item.1) log ++
      (record_count <$> missing) ∧
    byte_count <$> delivered_to item.1 log =
      measured "ddbstreams.consumer.bytes_processed" (shard_attrs sink item.1) log ++
      (byte_count <$> missing).
Proof.
  unfold process_unbounded, bind. destruct (spawn_accounts polls me items (mem, (w, []))) as [HF Hl].
  destruct (spawn_all (W := L) polls me items (mem, (w, []))) as [ts x]. cbn [fst snd] in HF, Hl.
  destruct (rsafe_join AInv schedule ts _ _ [] x HF) as (hs & Hrs & _ & Hacc).
  { rewrite app_nil_r. pose proof (mjoin_singletons (account_of <$> items)) as Hj.
    rewrite <- list_fmap_compose in Hj. unfold compose in Hj. rewrite Hj. split.
    - rewrite <- list_fmap_compose. exact Hnd.
    - rewrite Hl. apply Forall_fmap, Forall_forall. by intros i _. }
  destruct (join_all schedule ts x) as [rs [mem' [w' log]]]. cbn [fst snd] in *.
  intros i item Hi.
  destruct (Forall3_lookup_l _ _ _ _ i (settled item.1) Hrs) as (r & h & Hr & Hh & open & -> & Hlen & Hst).
  { by rewrite list_lookup_fmap, Hi. }
  exists r, open. split_and!; [done|done|done| |];
    rewrite app_nil_r, Forall_forall in Hacc; apply (Hacc {| ac_shard := item.1; ac_open := open |});
    apply list_elem_of_join; eexists; (split; [left|by eapply list_elem_of_lookup_2]).
Qed.
End passes.
