(* ===== verification/FleetFakes.v ===== *)
(** * The fakes of the fleet's tests ([worker/src/fleet.rs], test module)

    The stream and lease fakes are those of [Fakes]; beside them a clock, a sink
    of delivered sequence numbers, the processors the tests record with and the
    consumer that never acknowledges. *)

From stdpp Require Import base gmap numbers list strings.
From S2P Require Import Prelude Core Coordinator InMem Interfaces Metrics Fakes.

Record RecordingProc := {
  rp_shard : string;
  rp_inited : bool;
}.

Record FleetWorld := {
  ff_fake : FakeWorld;
  ff_sink : gmap string (list string);   (* per shard, the sequence numbers delivered *)
  ff_procs : list RecordingProc;         (* every processor created, by index *)
  ff_now : Instant;
}.

Definition on_fake {A} (m : M FakeWorld A) : M FleetWorld A :=
  λ w, let '(a, f) := m (ff_fake w) in
       (a, {| ff_fake := f; ff_sink := ff_sink w; ff_procs := ff_procs w; ff_now := ff_now w |}).

#[export] Instance fleet_source : AsyncStreamSource FleetWorld := {|
  describe_shards := on_fake describe_shards;
  get_records s after := on_fake (get_records s after);
  describe_child_shards := default_describe_child_shards (on_fake describe_shards);
|}.

#[export] Instance fleet_leases `{HashOrder} : AsyncLeaseStore FleetWorld := {|
  get k := on_fake (get k);
  list_leases := on_fake list_leases;
  acquire k o := on_fake (acquire k o);
  renew k o c := on_fake (renew k o c);
  heartbeat := default_heartbeat;
  checkpoint k o c q := on_fake (checkpoint k o c q);
  mark_complete k o c := on_fake (mark_complete k o c);
  release k o c := on_fake (release k o c);
  delete_lease k := on_fake (delete_lease k);
  create_shard_lease k ps cp := on_fake (create_shard_lease k ps cp);
  try_acquire_leadership k o e := on_fake (try_acquire_leadership k o e);
|}.

(** Time passes only in a sleep and by a millisecond per reading. *)
#[export] Instance fleet_clock : Clock FleetWorld := {|
  instant_now := λ w,
    (ff_now w, {| ff_fake := ff_fake w; ff_sink := ff_sink w; ff_procs := ff_procs w;
                  ff_now := (ff_now w + from_millis 1)%N |});
  sleep d := λ w,
    (tt, {| ff_fake := ff_fake w; ff_sink := ff_sink w; ff_procs := ff_procs w;
            ff_now := (ff_now w + d)%N |});
|}.

Definition set_sink (s : gmap string (list string)) (w : FleetWorld) : FleetWorld :=
  {| ff_fake := ff_fake w; ff_sink := s; ff_procs := ff_procs w; ff_now := ff_now w |}.
Definition set_procs (ps : list RecordingProc) (w : FleetWorld) : FleetWorld :=
  {| ff_fake := ff_fake w; ff_sink := ff_sink w; ff_procs := ps; ff_now := ff_now w |}.

Definition sink_push (shard : string) (rs : list Record_) (m : gmap string (list string))
  : gmap string (list string) :=
  foldl (λ m r, <[shard := default [] (m !! shard) ++ [rec_seq r]]> m) m rs.

(** [RecordingFactory]: processors are objects, referred to by index. *)
#[export] Instance recording_factory : RecordProcessorFactory FleetWorld := {|
  Processor := nat;
  create_processor _ := λ w,
    (length (ff_procs w),
     set_procs (ff_procs w ++ [{| rp_shard := EmptyString; rp_inited := false |}]) w);
  processor_initialize p s := λ w,
    (tt, set_procs (<[p := {| rp_shard := s; rp_inited := true |}]> (ff_procs w)) w);
  processor_process p rs := λ w,
    (tt, match ff_procs w !! p with
         | Some o => set_sink (sink_push (rp_shard o) rs (ff_sink w)) w
         | None => w
         end);
  processor_ended p s := ret tt;
  processor_lost p s := ret tt;
|}.

(** [NoAckFactory]: delivers, and never acknowledges. *)
Definition no_ack_factory : ShardConsumerFactory FleetWorld := {|
  Consumer := string;
  create s := ret s;
  deliver c rs := λ w, (Ok None, set_sink (sink_push c rs (ff_sink w)) w);
  consumer_ended _ := ret (Ok tt);
  consumer_lost := default_lease_lost;
|}.

Definition fleet_world (f : FakeWorld) : FleetWorld :=
  {| ff_fake := f; ff_sink := ∅; ff_procs := []; ff_now := 0%N |}.

(** [OpenSource]: one shard that never closes. *)
Definition open_batch (records : list Record_) (after : option SequenceNumber) : RecordBatch :=
  {| rb_records := match after with
                   | None => records
                   | Some tok => default records (after_token tok records)
                   end;
     rb_shard_end := false; rb_millis_behind_latest := None |}.

Definition open_source (records : list Record_) : AsyncStreamSource FleetWorld := {|
  describe_shards := ret (Ok [{| sm_id := "s0"; sm_parents := [] |}]);
  get_records _ after := ret (Ok (open_batch records after));
  describe_child_shards := default_describe_child_shards
    (ret (Ok [{| sm_id := "s0"; sm_parents := [] |}]));
|}.
