(* ===== verification/FleetProbes.v ===== *)
(** * The probes of the fleet's tests ([worker/src/fleet.rs], test module)

    What the tests count and record beside the fakes of [FleetFakes]: sources that
    count their calls or reveal their records one by one, lease stores that count
    writes or enforce the optimistic lock, consumers that record or take their time,
    and the metrics sink.  An atomic counter is an entry of [pb_counters]. *)

From stdpp Require Import base gmap numbers list strings.
From S2P Require Import Prelude Core Coordinator InMem Interfaces Metrics Tasks Fakes FleetFakes.

Definition CapturedBatch : Type := string * N * N * option Z.

Record Probes := {
  pb_counters : gmap string N;
  pb_served : list string;
  pb_delivered : list string;
  pb_log : list (string * string);
  pb_batches : list CapturedBatch;
  pb_slot_waits : list (string * N);
}.

Definition no_probes : Probes :=
  {| pb_counters := ∅; pb_served := []; pb_delivered := []; pb_log := []; pb_batches := [];
     pb_slot_waits := [] |}.

Abbreviation TestWorld := ((FleetWorld * Probes)%type).

Definition on_fleet {A} (m : M FleetWorld A) : M TestWorld A := on_left m.
Definition probe (f : Probes → Probes) : M TestWorld unit := lift_m (λ p, (tt, f p)).

(** ** Atomics *)

Definition counter (name : string) (p : Probes) : N := default 0%N (pb_counters p !! name).
Definition set_counter_to (name : string) (n : N) (p : Probes) : Probes :=
  {| pb_counters := <[name := n]> (pb_counters p); pb_served := pb_served p;
     pb_delivered := pb_delivered p; pb_log := pb_log p; pb_batches := pb_batches p;
     pb_slot_waits := pb_slot_waits p |}.

Definition load (name : string) : M TestWorld N := lift_m (λ p, (counter name p, p)).
Definition store (name : string) (n : N) : M TestWorld unit := probe (set_counter_to name n).
Definition fetch_add (name : string) : M TestWorld unit :=
  n <- load name ;; store name (n + 1)%N.
Definition fetch_sub (name : string) : M TestWorld unit :=
  n <- load name ;; store name (n - 1)%N.
Definition fetch_max (name : string) (m : N) : M TestWorld unit :=
  n <- load name ;; store name (N.max n m).

Definition push_served (rs : list Record_) : M TestWorld unit := probe (λ p,
  {| pb_counters := pb_counters p; pb_served := pb_served p ++ (rec_seq <$> rs);
     pb_delivered := pb_delivered p; pb_log := pb_log p; pb_batches := pb_batches p;
     pb_slot_waits := pb_slot_waits p |}).
Definition push_delivered (shard : string) : M TestWorld unit := probe (λ p,
  {| pb_counters := pb_counters p; pb_served := pb_served p;
     pb_delivered := pb_delivered p ++ [shard]; pb_log := pb_log p; pb_batches := pb_batches p;
     pb_slot_waits := pb_slot_waits p |}).
Definition push_log (shard : string) (rs : list Record_) : M TestWorld unit := probe (λ p,
  {| pb_counters := pb_counters p; pb_served := pb_served p; pb_delivered := pb_delivered p;
     pb_log := pb_log p ++ ((λ r, (shard, rec_seq r)) <$> rs); pb_batches := pb_batches p;
     pb_slot_waits := pb_slot_waits p |}).

#[export] Instance test_clock : Clock TestWorld := {|
  instant_now := on_fleet instant_now;
  sleep d := on_fleet (sleep d);
|}.

(** ** Sources *)

Definition fake_test_source : AsyncStreamSource TestWorld := {|
  describe_shards := on_fleet describe_shards;
  get_records s after := on_fleet (get_records s after);
  describe_child_shards p := on_fleet (describe_child_shards p);
|}.

(** [CountingSource]: counts [DescribeStream]; children by the trait's default. *)
Definition counted_describe (name : string) : M TestWorld (Result (list ShardMeta) WorkerError) :=
  fetch_add name ;;; on_fleet describe_shards.

Definition counting_source : AsyncStreamSource TestWorld := {|
  describe_shards := counted_describe "describe_calls";
  get_records s after := on_fleet (get_records s after);
  describe_child_shards := default_describe_child_shards (counted_describe "describe_calls");
|}.

(** [TrackingSource]: full and targeted calls counted apart. *)
Definition tracking_source : AsyncStreamSource TestWorld := {|
  describe_shards := counted_describe "full_describes";
  get_records s after := on_fleet (get_records s after);
  describe_child_shards parent :=
    fetch_add "child_describes" ;;;
    on_fleet (λ w, (Ok (children_of parent (fw_metas (ff_fake w))), w));
|}.

Definition one_shard : M TestWorld (Result (list ShardMeta) WorkerError) :=
  ret (Ok [{| sm_id := "s0"; sm_parents := [] |}]).

Definition open_test_source (records : list Record_) : AsyncStreamSource TestWorld := {|
  describe_shards := one_shard;
  get_records _ after := ret (Ok (open_batch records after));
  describe_child_shards := default_describe_child_shards one_shard;
|}.

(** [LagSource]: a batch that is behind, then the end of the shard. *)
Definition lag_source : AsyncStreamSource TestWorld := {|
  describe_shards := one_shard;
  get_records _ after :=
    ret (Ok (match after with
             | Some _ => {| rb_records := []; rb_shard_end := true; rb_millis_behind_latest := None |}
             | None => {| rb_records := [demo_rec "s0" "1"; demo_rec "s0" "2"]; rb_shard_end := false;
                          rb_millis_behind_latest := Some 1234%Z |}
             end));
  describe_child_shards := default_describe_child_shards one_shard;
|}.

(** [IdleOpenSource]: an open shard that is always empty. *)
Definition idle_open_source : AsyncStreamSource TestWorld := {|
  describe_shards := one_shard;
  get_records _ _ :=
    fetch_add "polls" ;;;
    ret (Ok {| rb_records := []; rb_shard_end := false; rb_millis_behind_latest := None |});
  describe_child_shards := default_describe_child_shards one_shard;
|}.

(** The index to go on from: an unknown token starts over. *)
Definition index_after (records : list Record_) (after : option SequenceNumber) : nat :=
  match after with
  | None => 0
  | Some tok =>
      match list_find (λ r, rec_seq r = tok) records with Some (i, _) => S i | None => 0 end
  end.

(** [PagedSource]: one record a batch, the last one ends the shard. *)
Definition paged_batch (records : list Record_) (after : option SequenceNumber) : RecordBatch :=
  let idx := index_after records after in
  match records !! idx with
  | Some r => {| rb_records := [r]; rb_shard_end := bool_decide (idx + 1 = length records);
                 rb_millis_behind_latest := None |}
  | None => {| rb_records := []; rb_shard_end := true; rb_millis_behind_latest := None |}
  end.

Definition paged_get (records : list Record_) (after : option SequenceNumber)
  : M TestWorld (Result RecordBatch WorkerError) :=
  let b := paged_batch records after in
  push_served (rb_records b) ;;; ret (Ok b).

Definition paged_source (records : list Record_) : AsyncStreamSource TestWorld := {|
  describe_shards := one_shard;
  get_records _ after := paged_get records after;
  describe_child_shards := default_describe_child_shards one_shard;
|}.

(** [SlowPaged]: three milliseconds a call. *)
Definition slow_paged (records : list Record_) : AsyncStreamSource TestWorld := {|
  describe_shards := one_shard;
  get_records _ after := sleep (from_millis 3) ;;; paged_get records after;
  describe_child_shards := default_describe_child_shards one_shard;
|}.

(** [TrickleSource]: each call reveals one more record for the next.  The slice
    [all[idx..upto]] is empty where the code would panic, [upto < idx]: a caller that
    goes on from a record it was given never gets there. *)
Definition trickle_source (all : list Record_) : AsyncStreamSource TestWorld := {|
  describe_shards := one_shard;
  get_records _ after :=
    visible <- load "visible" ;;
    let upto := Nat.min (N.to_nat visible) (length all) in
    let idx := index_after all after in
    fetch_add "visible" ;;;
    let records := take (upto - idx) (drop idx all) in
    push_served records ;;;
    ret (Ok {| rb_records := records; rb_shard_end := bool_decide (upto = length all);
               rb_millis_behind_latest := None |});
  describe_child_shards := default_describe_child_shards one_shard;
|}.

(** [OpenPaged]: everything left, and the shard stays open. *)
Definition open_paged (records : list Record_) : AsyncStreamSource TestWorld := {|
  describe_shards := one_shard;
  get_records _ after :=
    ret (Ok {| rb_records := drop (index_after records after) records; rb_shard_end := false;
               rb_millis_behind_latest := None |});
  describe_child_shards := default_describe_child_shards one_shard;
|}.

(** ** Lease stores *)

Definition fake_store `{HashOrder} : AsyncLeaseStore TestWorld := {|
  get k := on_fleet (get k);
  list_leases := on_fleet list_leases;
  acquire k o := on_fleet (acquire k o);
  renew k o c := on_fleet (renew k o c);
  heartbeat := default_heartbeat;
  checkpoint k o c q := on_fleet (checkpoint k o c q);
  mark_complete k o c := on_fleet (mark_complete k o c);
  release k o c := on_fleet (release k o c);
  delete_lease k := on_fleet (delete_lease k);
  create_shard_lease k ps cp := on_fleet (create_shard_lease k ps cp);
  try_acquire_leadership k o e := on_fleet (try_acquire_leadership k o e);
|}.

(** [CountingLeases]: the same, counting checkpoints and renewals. *)
Definition counting_leases `{HashOrder} : AsyncLeaseStore TestWorld := {|
  get k := on_fleet (get k);
  list_leases := on_fleet list_leases;
  acquire k o := on_fleet (acquire k o);
  renew k o c := fetch_add "renews" ;;; on_fleet (renew k o c);
  heartbeat := default_heartbeat;
  checkpoint k o c q := fetch_add "checkpoints" ;;; on_fleet (checkpoint k o c q);
  mark_complete k o c := on_fleet (mark_complete k o c);
  release k o c := on_fleet (release k o c);
  delete_lease k := on_fleet (delete_lease k);
  create_shard_lease k ps cp := on_fleet (create_shard_lease k ps cp);
  try_acquire_leadership k o e := on_fleet (try_acquire_leadership k o e);
|}.

(** [StrictLeases]: a write must name the owner and the counter of the row. *)
Definition strict_update {A} (key owner : string) (n : N) (f : FakeLeaseState → FakeLeaseState) (a : A)
  : M FakeWorld (Result A WorkerError) :=
  λ w, match fw_rows w !! key with
       | Some r =>
           if bool_decide (fl_owner r ≠ Some owner) || negb (fl_counter r =? n)%N
           then (Err "optimistic lock failed", w)
           else (Ok a, fake_set_rows (<[key := f r]> (fw_rows w)) w)
       | None => (Err "no lease", w)
       end.

Definition strict_leases `{HashOrder} : AsyncLeaseStore TestWorld := {|
  get k := on_fleet (get k);
  list_leases := on_fleet list_leases;
  acquire k o := on_fleet (acquire k o);
  renew k o c :=
    on_fleet (on_fake (strict_update k o c (fake_bumped c) (u64_add c 1)));
  heartbeat := default_heartbeat;
  checkpoint k o c q :=
    on_fleet (on_fake (strict_update k o c
      (λ r, {| fl_owner := fl_owner r; fl_counter := u64_add c 1; fl_checkpoint := Some q;
               fl_completed := fl_completed r; fl_parents := fl_parents r |}) (u64_add c 1)));
  mark_complete k o c :=
    on_fleet (on_fake (strict_update k o c
      (λ r, {| fl_owner := fl_owner r; fl_counter := fl_counter r; fl_checkpoint := fl_checkpoint r;
               fl_completed := true; fl_parents := fl_parents r |}) tt));
  release k o c :=
    on_fleet (on_fake (strict_update k o c
      (λ r, {| fl_owner := None; fl_counter := u64_add c 1; fl_checkpoint := fl_checkpoint r;
               fl_completed := fl_completed r; fl_parents := fl_parents r |}) tt));
  delete_lease k := on_fleet (delete_lease k);
  create_shard_lease k ps cp := on_fleet (create_shard_lease k ps cp);
  try_acquire_leadership k o e := on_fleet (try_acquire_leadership k o e);
|}.

(** ** Consumers *)

#[export] Instance test_recording : RecordProcessorFactory TestWorld := {|
  Processor := nat;
  create_processor s := on_fleet (create_processor s);
  processor_initialize p s := on_fleet (processor_initialize (W := FleetWorld) p s);
  processor_process p rs := on_fleet (processor_process (W := FleetWorld) p rs);
  processor_ended p s := on_fleet (processor_ended (W := FleetWorld) p s);
  processor_lost p s := on_fleet (processor_lost (W := FleetWorld) p s);
|}.

(** [SyncConsumerFactory] over [RecordingFactory]. *)
Definition recording_consumers : ShardConsumerFactory TestWorld := SyncConsumerFactory.

Definition no_ack_consumers : ShardConsumerFactory TestWorld := {|
  Consumer := string;
  create s := ret s;
  deliver c rs := on_fleet (deliver (ShardConsumerFactory := no_ack_factory) c rs);
  consumer_ended _ := ret (Ok tt);
  consumer_lost := default_lease_lost;
|}.

(** [ConcProbe]: counts the deliveries in progress around a sleep. *)
Definition conc_deliver (shard : string) (rs : list Record_)
  : M TestWorld (Result (option string) WorkerError) :=
  fetch_add "cur" ;;;
  now <- load "cur" ;;
  fetch_max "max" now ;;;
  sleep (from_millis 20) ;;;
  fetch_sub "cur" ;;;
  push_delivered shard ;;;
  ret (Ok (last_seq rs)).

Definition conc_factory : ShardConsumerFactory TestWorld := {|
  Consumer := string;
  create s := ret s;
  deliver := conc_deliver;
  consumer_ended _ := ret (Ok tt);
  consumer_lost := default_lease_lost;
|}.

(** [CapNoAckProbe]: takes five milliseconds and never acknowledges. *)
Definition cap_no_ack_factory : ShardConsumerFactory TestWorld := {|
  Consumer := unit;
  create _ := ret tt;
  deliver _ _ := sleep (from_millis 5) ;;; ret (Ok None);
  consumer_ended _ := ret (Ok tt);
  consumer_lost := default_lease_lost;
|}.

(** [OrderProbe]: logs shard and sequence number of every record. *)
Definition order_factory : ShardConsumerFactory TestWorld := {|
  Consumer := string;
  create s := ret s;
  deliver c rs := push_log c rs ;;; sleep (from_millis 2) ;;; ret (Ok (last_seq rs));
  consumer_ended _ := ret (Ok tt);
  consumer_lost := default_lease_lost;
|}.

(** [SlowAckProbe]. *)
Definition slow_ack_factory (delay_ms : N) : ShardConsumerFactory TestWorld := {|
  Consumer := string;
  create s := ret s;
  deliver c rs := sleep (from_millis delay_ms) ;;; push_delivered c ;;; ret (Ok (last_seq rs));
  consumer_ended _ := ret (Ok tt);
  consumer_lost := default_lease_lost;
|}.

Definition ack_all_factory : ShardConsumerFactory TestWorld := {|
  Consumer := unit;
  create _ := ret tt;
  deliver _ rs := ret (Ok (last_seq rs));
  consumer_ended _ := ret (Ok tt);
  consumer_lost := default_lease_lost;
|}.

(** ** The sink *)

Definition capture_batch (m : ShardMetrics) : M TestWorld unit := probe (λ p,
  {| pb_counters := pb_counters p; pb_served := pb_served p; pb_delivered := pb_delivered p;
     pb_log := pb_log p;
     pb_batches := pb_batches p ++ [(mt_shard_id m, mt_records m, mt_bytes m, mt_millis_behind_latest m)];
     pb_slot_waits := pb_slot_waits p |}).
Definition capture_slot_wait (shard : string) (wait_ms : N) : M TestWorld unit := probe (λ p,
  {| pb_counters := pb_counters p; pb_served := pb_served p; pb_delivered := pb_delivered p;
     pb_log := pb_log p; pb_batches := pb_batches p;
     pb_slot_waits := pb_slot_waits p ++ [(shard, wait_ms)] |}).

(** [CaptureSink]; the methods it does not have keep their no-op defaults. *)
Definition capture_sink : MetricsSink TestWorld := {|
  on_batch := capture_batch;
  on_shard_end _ := fetch_add "shard_ends";
  on_describe_stream := fetch_add "describes";
  on_lease_acquired _ := ret tt;
  on_lease_lost _ := ret tt;
  on_leases_held _ := ret tt;
  on_processing_slot_wait := capture_slot_wait;
  on_max_processing_concurrency cap := store "max_concurrency" cap;
  on_processing_queue_depth depth := fetch_max "max_queue_depth" depth;
|}.
