(* ===== verification/FleetDemo.v ===== *)
(** * The fleet on concrete worlds

    Witnesses for the theorems of the fleet files. *)

From stdpp Require Import base gmap numbers list strings.
From S2P Require Import Prelude Core Coordinator InMem Interfaces Metrics CkptDefer Tasks.
From S2P Require Import FleetState ShardPass FleetSync Fakes FleetFakes Leader Position.

(** Two closed shards with an owner; ["s1"] was processed up to record 4. *)
Definition two_shards : FakeWorld :=
  {| fw_metas := [{| sm_id := "s0"; sm_parents := [] |}; {| sm_id := "s1"; sm_parents := [] |}];
     fw_data := <["s0" := [demo_rec "s0" "1"; demo_rec "s0" "2"]]>
                  {["s1" := [demo_rec "s1" "4"; demo_rec "s1" "5"]]};
     fw_rows := <["s0" := fake_row (Some "w1") 1 None false []]>
                  {["s1" := fake_row (Some "w1") 6 (Some "4") false []]};
     fw_events := [] |}.

Definition two_items : list (string * (N * option string)) :=
  [("s0", (1%N, None)); ("s1", (6%N, Some "4"))].

Abbreviation logged_run := ((list PassResult * (FleetMem * (FleetWorld * PLog)))%type).

Lemma concurrent_passes_follow_protocol_witness :
  (let '(rs, (mem', (_, log))) :=
     (process_unbounded 3 "w1" [1; 0; 0; 1; 1; 0] two_items (Fleet_new, (fleet_world two_shards, []))
      : logged_run) in
   ∀ i item, two_items !! i = Some item →
     ∃ r p, rs !! i = Some r ∧
       p_run "w1" (is_deferred Fleet_new) (pass_start Fleet_new (task_of "w1" item))
         (proj item.1 log) = Some p ∧
       pass_result p = returned r ∧
       (is_deferred Fleet_new = true → pending_of mem' item.1 = ps_unsaved p)) ∧
  (process_unbounded 3 "w1" [1; 0; 0; 1; 1; 0] two_items (Fleet_new, (fleet_world two_shards, []))
   : logged_run).1 = [Some (Ok Ended); Some (Ok Ended)].
Proof.
  split; [|vm_compute; reflexivity].
  assert (NoDup two_items.*1) as Hnd by (cbn; repeat constructor; set_solver).
  pose proof (concurrent_passes_follow_protocol 3 "w1" [1; 0; 0; 1; 1; 0] two_items Fleet_new
                (fleet_world two_shards) Hnd) as H.
  exact H.
Defined.

(** Deferred for ten seconds: both acks reach the lease at the end of the shard. *)
Definition deferring : FleetMem := with_checkpoint_interval (Some 10000%N) Fleet_new.

Lemma concurrent_passes_save_witness :
  (let '(_, (_, (_, log))) :=
     (process_unbounded 3 "w1" [0; 1] two_items (deferring, (fleet_world two_shards, []))
      : logged_run) in
   ∀ item pre e post, item ∈ two_items → proj item.1 log = pre ++ e :: post →
     call_ok "w1" (is_deferred deferring) (pass_start deferring (task_of "w1" item)) pre e post) ∧
  proj "s1" (process_unbounded 3 "w1" [0; 1] two_items
               (deferring, (fleet_world two_shards, [])) : logged_run).2.2.2 =
    [EFetch (Some "4") (Ok {| rb_records := [demo_rec "s1" "5"]; rb_shard_end := true;
                              rb_millis_behind_latest := None |});
     EDeliver [demo_rec "s1" "5"] (Ok (Some "5")); ECkpt "w1" 6 "5" (Ok 7%N); EEnded;
     EComplete "w1" 7].
Proof.
  split; [|vm_compute; reflexivity].
  assert (NoDup two_items.*1) as Hnd by (cbn; repeat constructor; set_solver).
  pose proof (concurrent_passes_save_before_completing 3 "w1" [0; 1] two_items deferring
                (fleet_world two_shards) Hnd) as H.
  exact H.
Defined.

(** The consumer that never acknowledges: both shards are completed all the same,
    and their leases still carry the checkpoints they started with. *)
Section no_ack.
#[local] Existing Instance no_ack_factory.

Lemma unacked_last_batch_witness :
  (let '(rs, (_, (_, log))) :=
     (process_unbounded 3 "w1" [0; 1] two_items (Fleet_new, (fleet_world two_shards, []))
      : logged_run) in
   ∀ i item pre rs1 post, two_items !! i = Some item → rs !! i ≠ Some None →
     proj item.1 log = pre ++ EDeliver rs1 (Ok None) :: post →
     rb_shard_end <$> batch_of pre = Some true →
     post = [EEnded; EComplete "w1" (counter_of item.2.1 pre)]) ∧
  fw_rows (ff_fake (process_unbounded 3 "w1" [0; 1] two_items
    (Fleet_new, (fleet_world two_shards, [])) : logged_run).2.2.1) =
    <["s0" := fake_row (Some "w1") 1 None true []]>
      {["s1" := fake_row (Some "w1") 6 (Some "4") true []]}.
Proof.
  split; [|vm_compute; reflexivity].
  assert (NoDup two_items.*1) as Hnd by (cbn; repeat constructor; set_solver).
  pose proof (unacked_last_batch_is_completed 3 "w1" [0; 1] two_items Fleet_new
                (fleet_world two_shards) Hnd eq_refl) as H.
  exact H.
Defined.
End no_ack.

(** ** Shard sync, cleanup and release *)

Definition demo_config (p : InitialPosition) : FleetConfig :=
  {| fc_owner := "w1"; fc_max_leases := 10; fc_lease_duration_ms := 30000;
     fc_poll_interval_ms := 100; fc_initial_position := p |}.

Definition raw (k : string) (owner : option string) (n : N) (cp : option string) (completed : bool)
    (parents : list string) : RawLease :=
  {| rl_lease_key := k; rl_owner := owner; rl_lease_counter := n; rl_completed := completed;
     rl_checkpoint := cp; rl_parents := parents |}.

(** [parent] was processed up to record 5 and completed; [child] is listed by the
    stream and has no row yet. *)
Definition failover_rows : list RawLease := [raw "parent" (Some "w0") 9 (Some "5") true []].
Definition failover_stream : FakeWorld :=
  {| fw_metas := [{| sm_id := "parent"; sm_parents := [] |};
                  {| sm_id := "child"; sm_parents := ["parent"] |}];
     fw_data := ∅; fw_rows := {["parent" := fake_row (Some "w0") 9 (Some "5") true []]};
     fw_events := [] |}.
Definition seeded : FleetMem :=
  set_sync {| sy_seeded := true; sy_child_synced := {["parent"]} |} Fleet_new.

Abbreviation sync_run := ((Result unit WorkerError * (FleetMem * (FleetWorld * list SEvent)))%type).

Lemma stable_topology_is_free_witness :
  (leader_shard_sync (demo_config InitialLatest) failover_rows (seeded, fleet_world failover_stream)
   : Result unit WorkerError * (FleetMem * FleetWorld)) =
    (Ok tt, (seeded, fleet_world failover_stream)) ∧
  completed_keys failover_rows = {["parent"]}.
Proof.
  split; [|vm_compute; reflexivity].
  apply (stable_topology_is_free (demo_config InitialLatest) failover_rows seeded); [done|].
  intros p Hp. left. cbn in *. set_solver.
Defined.

(** A new leader with initial position LATEST: the child starts at LATEST, although
    its parent was processed and its seed rule says otherwise; records written to the
    child before its iterator is opened are skipped. *)
Lemma new_leader_seeds_at_initial_position_witness :
  SPublish "child" ["parent"] (Some SENTINEL_LATEST) ∈
    (leader_shard_sync (demo_config InitialLatest) failover_rows
       (Fleet_new, (fleet_world failover_stream, [])) : sync_run).2.2.2 ∧
  child_cp failover_rows ["parent"] = None.
Proof.
  split; [|vm_compute; reflexivity].
  apply (new_leader_seeds_at_initial_position (demo_config InitialLatest) failover_rows Fleet_new
           (fleet_world failover_stream) (fw_metas failover_stream)
           {| sm_id := "child"; sm_parents := ["parent"] |}).
  - reflexivity.
  - right. left.
  - intros p Hp. cbn in Hp. apply list_elem_of_singleton in Hp as ->.
    apply (bool_decide_eq_true_1 _). vm_compute. reflexivity.
  - apply (bool_decide_eq_true_1 _). vm_compute. reflexivity.
  - vm_compute. left.
Defined.

Definition cleanup_rows : list RawLease :=
  [raw "p" (Some "w1") 4 (Some "7") true []; raw "c" (Some "w1") 2 (Some "9") false ["p"];
   raw "q" (Some "w1") 4 (Some "8") true []; raw "d" (Some "w1") 1 (Some SENTINEL_LATEST) false ["q"]].

(** [p]'s child has been processed, [q]'s child has not. *)
Lemma cleanup_deletes_replaced_parents_witness :
  (let '(_, (mem', (_, log))) :=
     (cleanup_completed_leases cleanup_rows (Fleet_new, (fleet_world two_shards, []))
      : unit * (FleetMem * (FleetWorld * list SEvent))) in
   mem' = Fleet_new ∧ ∀ e, e ∈ log ↔ ∃ r, e = SDelete (rl_lease_key r) ∧
     r ∈ cleanup_rows ∧ is_shard_key (rl_lease_key r) = true ∧ rl_completed r = true ∧
     (∃ c, c ∈ cleanup_rows ∧ is_shard_key (rl_lease_key c) = true ∧
           rl_lease_key r ∈ rl_parents c) ∧
     ∀ c, c ∈ cleanup_rows → is_shard_key (rl_lease_key c) = true →
       rl_lease_key r ∈ rl_parents c →
       rl_completed c = true ∨ ∃ q, from_checkpoint (rl_checkpoint c) = After q) ∧
  (cleanup_completed_leases cleanup_rows (Fleet_new, (fleet_world two_shards, []))
   : unit * (FleetMem * (FleetWorld * list SEvent))).2.2.2 = [SDelete "p"].
Proof.
  split; [|vm_compute; reflexivity].
  assert (NoDup (rl_lease_key <$> cleanup_rows)) as Hnd by (cbn; repeat constructor; set_solver).
  pose proof (cleanup_deletes_replaced_parents cleanup_rows Fleet_new (fleet_world two_shards) Hnd)
    as H. exact H.
Defined.

(** A publication that fails.  [split] was split into [c1] and [c2]; the row of [c2] is
    not written, which the sync does not notice; nor does it look again, once [c1] has a
    row.  When [c1] has been processed the parent is deleted: a child without a row
    holds nothing back. *)
Section refused.
#[local] Instance refusing_leases : AsyncLeaseStore FleetWorld := {|
  get := get (AsyncLeaseStore := fleet_leases);
  list_leases := list_leases (AsyncLeaseStore := fleet_leases);
  acquire := acquire (AsyncLeaseStore := fleet_leases);
  renew := renew (AsyncLeaseStore := fleet_leases);
  heartbeat := heartbeat (AsyncLeaseStore := fleet_leases);
  checkpoint := checkpoint (AsyncLeaseStore := fleet_leases);
  mark_complete := mark_complete (AsyncLeaseStore := fleet_leases);
  release := release (AsyncLeaseStore := fleet_leases);
  delete_lease := delete_lease (AsyncLeaseStore := fleet_leases);
  create_shard_lease k ps cp :=
    if decide (k = "c2") then ret (Err "throttled")
    else create_shard_lease (AsyncLeaseStore := fleet_leases) k ps cp;
  try_acquire_leadership := try_acquire_leadership (AsyncLeaseStore := fleet_leases);
|}.

Definition split_stream : FakeWorld :=
  {| fw_metas := [{| sm_id := "split"; sm_parents := [] |};
                  {| sm_id := "c1"; sm_parents := ["split"] |};
                  {| sm_id := "c2"; sm_parents := ["split"] |}];
     fw_data := ∅; fw_rows := {["split" := fake_row (Some "w0") 9 (Some "5") true []]};
     fw_events := [] |}.

(** The sync and the cleanup of a leader that has seeded. *)
Definition lead (rows : list RawLease) (x : FleetMem * (FleetWorld * list SEvent))
  : FleetMem * (FleetWorld * list SEvent) :=
  (cleanup_completed_leases rows (leader_shard_sync (demo_config InitialTrimHorizon) rows x
    : Result unit WorkerError * _).2 : unit * _).2.

Definition split_row : RawLease := raw "split" (Some "w0") 9 (Some "5") true [].
Definition has_seeded : FleetMem := set_sync {| sy_seeded := true; sy_child_synced := ∅ |} Fleet_new.

Example missing_child_is_not_waited_for :
  let x1 := lead [split_row] (has_seeded, (fleet_world split_stream, [])) in
  let x2 := lead [split_row; raw "c1" (Some "w1") 3 (Some "6") false ["split"]] (x1.1, (x1.2.1, [])) in
  dom (fw_rows (ff_fake x1.2.1)) = {["split"; "c1"]} ∧ x2.2.2 = [SDelete "split"].
Proof. split; vm_compute; reflexivity. Qed.
End refused.

(** The worker holds [s0] with ack 2 kept back, [s1], and its heartbeat row. *)
Definition shutdown_fake : FakeWorld :=
  {| fw_metas := []; fw_data := ∅;
     fw_rows := <["s0" := fake_row (Some "w1") 3 None false []]>
                  (<["s1" := fake_row (Some "w1") 5 (Some "4") false []]>
                  {["__hb__:w1" := fake_row (Some "w1") 8 None false []]});
     fw_events := [] |}.
Definition shutdown_mem : FleetMem :=
  set_defer (Some {| cd_interval := from_millis 10000;
                     cd_state := {["s0" := {| pc_ack := Some "2"; pc_last_persist := 0%N |}]} |})
    Fleet_new.
Definition shutdown_rows : list RawLease :=
  match (list_leases (fleet_world shutdown_fake)).1 with Ok rows => rows | Err _ => [] end.

Lemma shutdown_scan :
  list_leases (fleet_world shutdown_fake) = (Ok shutdown_rows, fleet_world shutdown_fake).
Proof. vm_compute. reflexivity. Qed.

Lemma release_flushes_before_releasing_witness :
  (let '(n, (mem', (_, log))) :=
     (release_owned (demo_config InitialTrimHorizon) (shutdown_mem, (fleet_world shutdown_fake, []))
      : Result nat WorkerError * (FleetMem * (FleetWorld * list SEvent))) in
   let mine := filter (λ r, owns (demo_config InitialTrimHorizon) r = true) shutdown_rows in
   ∃ segs : list (RawLease * bool * list SEvent),
     (λ s, s.1.1) <$> segs = mine ∧
     Forall (λ s, release_trace "w1" (pending_of shutdown_mem (rl_lease_key s.1.1))
                    s.1.1 s.1.2 s.2) segs ∧
     log = segs ≫= snd ∧
     n = Ok (length (filter (λ s, s.1.2 = true) segs)) ∧
     ∀ k, pending_of mem' k =
            if decide (k ∈ rl_lease_key <$> mine) then None else pending_of shutdown_mem k) ∧
  filter (λ e, match e with SCkpt _ _ _ _ _ => true | SRelease k _ _ _ => bool_decide (k = "s0")
               | _ => false end = true)
    (release_owned (demo_config InitialTrimHorizon) (shutdown_mem, (fleet_world shutdown_fake, []))
     : Result nat WorkerError * (FleetMem * (FleetWorld * list SEvent))).2.2.2 =
    [SCkpt "s0" "w1" 3 "2" (Ok 4%N); SRelease "s0" "w1" 4 true].
Proof.
  split; [|vm_compute; reflexivity].
  assert (NoDup (rl_lease_key <$> shutdown_rows)) as Hnd.
  { apply (bool_decide_eq_true_1 _). vm_compute. reflexivity. }
  pose proof (release_flushes_before_releasing (demo_config InitialTrimHorizon) shutdown_rows
                shutdown_mem (fleet_world shutdown_fake) (fleet_world shutdown_fake) shutdown_scan Hnd)
    as H. exact H.
Defined.

Lemma owned_shards_include_own_heartbeat_witness :
  ∃ ks, owned_shards (demo_config InitialTrimHorizon) (shutdown_mem, fleet_world shutdown_fake) =
          (Ok ks, (shutdown_mem, fleet_world shutdown_fake)) ∧ "__hb__:w1" ∈ ks.
Proof.
  destruct (owned_shards_include_own_heartbeat (demo_config InitialTrimHorizon) shutdown_rows
              shutdown_mem (fleet_world shutdown_fake) (fleet_world shutdown_fake) shutdown_scan)
    as (ks & Hks & _ & Hb).
  exists ks. split; [exact Hks|]. apply Hb.
  exists (raw "__hb__:w1" (Some "w1") 8 None false []). split_and!; try reflexivity.
  apply (bool_decide_eq_true_1 _). vm_compute. reflexivity.
Defined.
