(* ===== verification/FleetDrain.v ===== *)
(** * Whole cycles on concrete worlds

    Witnesses for the pool and the cycle, and a parent and its child drained to the
    end by the fleet on the fakes of its own tests. *)

From Stdlib Require Import Lia.
From stdpp Require Import base gmap numbers list strings.
From S2P Require Import Prelude Core Coordinator InMem Interfaces Metrics CkptDefer Tasks.
From S2P Require Import FleetState ShardPass Pool FleetSync Fakes Leader Position LeaderElection.
From S2P Require Import Fleet FleetLive PoolBound FleetFakes FleetDemo.

(** ["c"] is the child of ["p"]; no leases yet. *)
Definition lineage_stream : FakeWorld :=
  {| fw_metas := [{| sm_id := "p"; sm_parents := [] |}; {| sm_id := "c"; sm_parents := ["p"] |}];
     fw_data := <["p" := [demo_rec "p" "1"; demo_rec "p" "2"]]>
                  {["c" := [demo_rec "c" "3"; demo_rec "c" "4"]]};
     fw_rows := ∅; fw_events := [] |}.

Abbreviation drain mem n :=
  (run_until_complete 3 (demo_config InitialTrimHorizon) (λ _, []) n
     (mem, fleet_world lineage_stream)
   : Result (option unit) WorkerError * (FleetMem * FleetWorld)).

(** Every record once and in order, the child after the parent; by the third cycle
    the parent's lease is gone and the child's is complete. *)
Example fleet_drains_lineage :
  (drain Fleet_new 5).1 = Ok (Some tt) ∧
  ff_sink (drain Fleet_new 5).2.2 = <["p" := ["1"; "2"]]> {["c" := ["3"; "4"]]} ∧
  rp_shard <$> ff_procs (drain Fleet_new 5).2.2 = ["p"; "c"] ∧
  fw_rows (ff_fake (drain Fleet_new 5).2.2) !! "p" = None ∧
  fw_rows (ff_fake (drain Fleet_new 5).2.2) !! "c" =
    Some (fake_row (Some "w1") 2 (Some "4") true ["p"]).
Proof. vm_compute. repeat split. Qed.

(** The bounded pool does the same. *)
Example pool_drains_lineage :
  let mem := with_max_processing_concurrency (Some 2) Fleet_new in
  (drain mem 5).1 = Ok (Some tt) ∧
  ff_sink (drain mem 5).2.2 = ff_sink (drain Fleet_new 5).2.2.
Proof. vm_compute. repeat split. Qed.


(** ** The pool *)

Abbreviation pooled_run := ((list bool * (FleetMem * (FleetWorld * PLog)))%type).

(** ["s1"] is backing off until 9 ms; only ["s0"] is passed at 5 ms. *)
Definition backing_off : FleetMem :=
  set_sched {["s1" := {| ss_backoff_ms := 4; ss_due_at := from_millis 9;
                         ss_last_liveness := from_millis 5 |}]}
    (with_max_processing_concurrency (Some 2) Fleet_new).

Lemma pool_passes_witness :
  (let '(bs, (mem', (_, log))) :=
     (run_bounded_pool 3 (demo_config InitialTrimHorizon) [1; 0; 1] two_items 2 (from_millis 5)
        (backing_off, (fleet_world two_shards, [])) : pooled_run) in
   pool_contract (demo_config InitialTrimHorizon) backing_off two_items (from_millis 5) bs mem' log) ∧
  (proj "s1" (run_bounded_pool 3 (demo_config InitialTrimHorizon) [1; 0; 1] two_items 2
      (from_millis 5) (backing_off, (fleet_world two_shards, [])) : pooled_run).2.2.2 = [] ∧
   length (proj "s0" (run_bounded_pool 3 (demo_config InitialTrimHorizon) [1; 0; 1] two_items 2
      (from_millis 5) (backing_off, (fleet_world two_shards, [])) : pooled_run).2.2.2) = 5).
Proof.
  split; [|vm_compute; by split].
  assert (NoDup two_items.*1) as Hnd by (cbn; repeat constructor; set_solver).
  pose proof (pool_passes_each_due_shard_once 3 (demo_config InitialTrimHorizon) [1; 0; 1] two_items
                2 (from_millis 5) backing_off (fleet_world two_shards) Hnd ltac:(lia)) as H.
  exact H.
Defined.

(** At a poll interval of 10 s an idle shard waits 10 s, then 5 s. *)
Lemma idle_backoff_witness :
  Nat.iter 2 (idle_backoff 10000) 0%N = 5000%N ∧ Nat.iter 1 (idle_backoff 10000) 0%N = 10000%N.
Proof.
  split; [|reflexivity].
  pose proof (idle_backoff_doubles_to_ceiling 10000 1 ltac:(lia)) as H. exact H.
Defined.

(** ** The cycle *)

(** The in-memory lease table lists every key once. *)
Lemma fake_scan_nodup (w : FleetWorld) rows w' :
  list_leases w = (Ok rows, w') → NoDup (rl_lease_key <$> rows).
Proof.
  cbn. unfold on_fake, fake_list. cbn. intros [= <- _]. rewrite <- list_fmap_compose.
  change (NoDup (fst <$> hash_order (fw_rows (ff_fake w)))).
  rewrite hash_order_perm. apply NoDup_fst_map_to_list.
Qed.

(** The parent is complete, the child is owned and ready, ["x"] is another
    worker's. *)
Definition mid_stream : FakeWorld :=
  {| fw_metas := fw_metas lineage_stream; fw_data := fw_data lineage_stream;
     fw_rows := <["p" := fake_row (Some "w1") 2 (Some "2") true []]>
       (<["c" := fake_row (Some "w1") 5 (Some "3") false ["p"]]>
       {["x" := fake_row (Some "w2") 1 None false []]});
     fw_events := [] |}.

Definition demo_cycle : Cycle :=
  {| cy_coordinator := LeaseCoordinator_new "w1" 10 30000;
     cy_leadership := Leadership_new "w1" 30000 |}.

Abbreviation cycle_run :=
  ((Result (option bool) WorkerError * (Cycle * (FleetMem * (FleetWorld * PLog))))%type).

Lemma cycle_serves_ready_shards_witness :
  (let '(r, (_, (_, (_, log)))) :=
     (run_cycle 3 (demo_config InitialTrimHorizon) [] 0
        (demo_cycle, (seeded, (fleet_world mid_stream, []))) : cycle_run) in
   match r with
   | Err _ => log = []
   | Ok r => ∃ w1 scan w2, list_leases (w1 : FleetWorld) = (Ok scan, w2) ∧
       (r = Some true ↔ (∃ row, row ∈ scan ∧ is_shard_key (rl_lease_key row) = true) ∧
                        ∀ row, row ∈ scan → is_shard_key (rl_lease_key row) = true →
                          rl_completed row = true) ∧
       (r = Some true → log = []) ∧
       (∀ s, (¬ ∃ row, ready (demo_config InitialTrimHorizon) scan row ∧ rl_lease_key row = s) →
          proj s log = []) ∧
       (r = Some false → ∃ now, ∀ row, ready (demo_config InitialTrimHorizon) scan row →
          passed (demo_config InitialTrimHorizon) seeded now log (item_of row))
   end) ∧
  (run_cycle 3 (demo_config InitialTrimHorizon) [] 0
     (demo_cycle, (seeded, (fleet_world mid_stream, []))) : cycle_run).1 = Ok (Some false).
Proof.
  split; [|vm_compute; reflexivity].
  pose proof (cycle_serves_ready_shards 3 (demo_config InitialTrimHorizon) [] demo_cycle 0 seeded
                (fleet_world mid_stream) fake_scan_nodup) as H.
  exact H.
Defined.

(** Three owned shards and a pool of two. *)
Definition three_shards : FakeWorld :=
  {| fw_metas := (λ s, {| sm_id := s; sm_parents := [] |}) <$> ["s0"; "s1"; "s2"];
     fw_data := <["s0" := [demo_rec "s0" "1"]]> (<["s1" := [demo_rec "s1" "2"]]>
                  {["s2" := [demo_rec "s2" "3"]]});
     fw_rows := <["s0" := fake_row (Some "w1") 1 None false []]>
       (<["s1" := fake_row (Some "w1") 1 None false []]>
       {["s2" := fake_row (Some "w1") 1 None false []]});
     fw_events := [] |}.
Definition pool_of_two : FleetMem := with_max_processing_concurrency (Some 2) Fleet_new.

(** Two passes run side by side, the third starts when one of them is over. *)
Lemma cycle_bounds_concurrency_witness :
  let run := run_cycle 3 (demo_config InitialTrimHorizon) (mjoin (replicate 20 [0; 1])) 0
    (demo_cycle, (pool_of_two, (fleet_world three_shards, []))) : cycle_run in
  (let '(_, (_, (_, (_, log)))) := run in
   ∀ before after, log = before ++ after → ∃ busy, length busy ≤ Nat.max 2 1 ∧
     ∀ s, s ∈ before.*1 → s ∈ after.*1 → s ∈ busy) ∧
  (run.2.2.2.2).*1 = ["s1"; "s2"; "s1"; "s2"; "s1"; "s2"; "s1"; "s2"; "s1"; "s2";
                         "s0"; "s0"; "s0"; "s0"; "s0"].
Proof.
  split; [|vm_compute; reflexivity].
  pose proof (cycle_bounds_concurrency 3 (demo_config InitialTrimHorizon) (mjoin (replicate 20 [0; 1])) 2
                demo_cycle 0 pool_of_two (fleet_world three_shards) eq_refl fake_scan_nodup) as H.
  exact H.
Defined.

(** ** A stream that stays open *)

Definition open_records : list Record_ := [demo_rec "s0" "1"; demo_rec "s0" "2"; demo_rec "s0" "3"].
Definition no_leases : FakeWorld :=
  {| fw_metas := []; fw_data := ∅; fw_rows := ∅; fw_events := [] |}.

Section open_stream.
#[local] Instance demo_open : AsyncStreamSource FleetWorld := open_source open_records.

Abbreviation revisit n :=
  (run_until_complete 3 (demo_config InitialTrimHorizon) (λ _, []) n
     (Fleet_new, fleet_world no_leases)
   : Result (option unit) WorkerError * (FleetMem * FleetWorld)).

(** Over five cycles every record is delivered once: each pass resumes after the
    last ack. *)
Example fleet_resumes_from_checkpoint :
  (revisit 5).1 = Ok (Some tt) ∧ ff_sink (revisit 5).2.2 = {["s0" := ["1"; "2"; "3"]]}.
Proof. vm_compute. by split. Qed.

(** From every position at most three records are left, and every batch takes them
    all. *)
#[local] Program Instance open_backlog : Backlog FleetWorld := {|
  remaining := λ _ _ a, length (rb_records (open_batch open_records a));
|}.
Solve Obligations with try by intros; intros ?.
Next Obligation.
  intros s a w. cbn. intros Hne _. destruct a as [tok|]; [|vm_compute; lia].
  cbn in Hne |- *. repeat case_decide; try done; vm_compute; lia.
Qed.

Lemma cycle_returns_witness :
  (∀ s a, remaining (fleet_world no_leases) s a < 4) ∧
  (run_cycle 4 (demo_config InitialTrimHorizon) [] 0
     (demo_cycle, (Fleet_new, fleet_world no_leases))).1 ≠ Ok None.
Proof.
  assert (∀ s a, remaining (fleet_world no_leases) s a < 4) as Hr.
  { intros s [tok|]; cbn; [|lia]. repeat case_decide; cbn; lia. }
  split; [exact Hr|].
  apply (cycle_returns 4 (demo_config InitialTrimHorizon) [] 0 demo_cycle Fleet_new
           (fleet_world no_leases) Hr).
Defined.
End open_stream.

(** ** Without acks *)

(** Over three cycles the records are delivered three times: the checkpoint never
    advances. *)
Section no_ack.
#[local] Instance demo_open' : AsyncStreamSource FleetWorld := open_source open_records.
#[local] Existing Instance no_ack_factory.

Example fleet_without_ack_redelivers :
  length <$> (ff_sink (run_until_complete 3 (demo_config InitialTrimHorizon) (λ _, []) 3
     (Fleet_new, fleet_world no_leases)
     : Result (option unit) WorkerError * (FleetMem * FleetWorld)).2.2 !! "s0") = Some 9.
Proof. vm_compute. reflexivity. Qed.
End no_ack.
