(* ===== verification/FleetTests.v ===== *)
(** * The fleet's tests, run on the model ([worker/src/fleet.rs], test module)

    Each test is a definition that sets up what the test sets up, runs the model of
    the fleet, and is [true] when all the test asserts holds; the examples evaluate
    them.  Tests that count calls in progress at once are not here: a call is one
    step of the model ([PoolBound] proves the bound for every interleaving). *)

From stdpp Require Import base gmap numbers list strings.
From S2P Require Import Prelude Core Coordinator InMem Interfaces Metrics CkptDefer Tasks Position.
From S2P Require Import Leader LeaderElection FleetState ShardPass Pool FleetSync Fleet.
From S2P Require Import Fakes FleetFakes FleetProbes.

(** ** Set-up *)

Definition test_config (owner : string) (lease_duration_ms poll_interval_ms : N) : FleetConfig :=
  {| fc_owner := owner; fc_max_leases := 100; fc_lease_duration_ms := lease_duration_ms;
     fc_poll_interval_ms := poll_interval_ms; fc_initial_position := InitialPosition_default |}.

Definition shard_meta (id : string) (parents : list string) : ShardMeta :=
  {| sm_id := id; sm_parents := parents |}.

Definition test_world (metas : list ShardMeta) (data : gmap string (list Record_))
    (rows : gmap string FakeLeaseState) : TestWorld :=
  (fleet_world {| fw_metas := metas; fw_data := data; fw_rows := rows; fw_events := [] |}, no_probes).

(** [rec]. *)
Definition recs (shard : string) (seqs : list string) : list Record_ := demo_rec shard <$> seqs.

Definition rows_after (w : TestWorld) : gmap string FakeLeaseState := fw_rows (ff_fake w.1).
Definition sink_after (w : TestWorld) : gmap string (list string) := ff_sink w.1.
Definition row_completed (w : TestWorld) (s : string) : bool :=
  default false (fl_completed <$> rows_after w !! s).
Definition row_checkpoint (w : TestWorld) (s : string) : option string :=
  rows_after w !! s ≫= fl_checkpoint.

Definition test_polls : nat := 30.

(** [run_until_complete(max_cycles).await.unwrap()]; [None] when it fails. *)
Definition drive (src : AsyncStreamSource TestWorld) (leases : AsyncLeaseStore TestWorld)
    (consumers : ShardConsumerFactory TestWorld) (sink : MetricsSink TestWorld)
    (config : FleetConfig) (mem : FleetMem) (max_cycles : nat) (w : TestWorld)
  : option (FleetMem * TestWorld) :=
  let '(r, mw) := run_until_complete test_polls config (λ _, []) max_cycles (mem, w) in
  match r with Ok (Some tt) => Some mw | _ => None end.

Definition holds (r : option (FleetMem * TestWorld)) (asserts : FleetMem → TestWorld → bool) : bool :=
  match r with Some (mem, w) => asserts mem w | None => false end.

(** ** Cleanup, ownership and release *)

(** [fleet.leases.list()] and [cleanup_completed_leases]. *)
Definition cleaned (rows : gmap string FakeLeaseState) : TestWorld :=
  let _ := fake_test_source in let _ := fake_store in
  let w := test_world [] ∅ rows in
  match list_leases w with
  | (Ok raws, w') =>
      (cleanup_completed_leases raws (Fleet_new, w') : unit * (FleetMem * TestWorld)).2.2
  | (Err _, w') => w'
  end.

Definition leader_gcs_completed_parent_once_child_processing : bool :=
  let w := cleaned
    (<["p" := fake_row None 3 (Some "100000000000000000000000001") true []]>
      {["c" := fake_row (Some "w1") 1 (Some "100000000000000000000000009") false ["p"]]}) in
  bool_decide (rows_after w !! "p" = None) && bool_decide (is_Some (rows_after w !! "c")).

Definition leader_retains_completed_parent_while_child_not_started : bool :=
  let w := cleaned
    (<["p" := fake_row None 0 (Some "100000000000000000000000001") true []]>
      {["c" := fake_row None 0 None false ["p"]]}) in
  bool_decide (is_Some (rows_after w !! "p")) && bool_decide (is_Some (rows_after w !! "c")).

Definition owned_shards_excludes_completed_other_owner_released_and_leader_sentinel : bool :=
  let _ := fake_store in
  let rows := <["s0" := fake_row (Some "w1") 0 None false []]>
    (<["s1" := fake_row (Some "w1") 0 None true []]>
    (<["s2" := fake_row (Some "w2") 0 None false []]>
    (<["s3" := fake_row None 0 None false []]>
    {[LEADER_LEASE_KEY := fake_row (Some "w1") 0 None false []]}))) in
  match (owned_shards (test_config "w1" 1000 1) (Fleet_new, test_world [] ∅ rows)
         : Result (list ShardId) WorkerError * (FleetMem * TestWorld)).1 with
  | Ok owned => bool_decide (owned = ["s0"])
  | Err _ => false
  end.

Definition release_owned_clears_our_leases_for_fast_failover : bool :=
  let _ := fake_store in
  let rows := <["mine" := fake_row (Some "w1") 3 None false []]>
    (<["theirs" := fake_row (Some "w2") 1 None false []]>
    {["done" := fake_row (Some "w1") 5 None true []]}) in
  let '(r, (_, w)) := release_owned (test_config "w1" 1000 1) (Fleet_new, test_world [] ∅ rows)
    : Result nat WorkerError * (FleetMem * TestWorld) in
  match r with Ok n => n =? 1 | Err _ => false end &&
  bool_decide (fl_owner <$> rows_after w !! "mine" = Some None) &&
  bool_decide (fl_counter <$> rows_after w !! "mine" = Some 4%N) &&
  bool_decide (rows_after w !! "theirs" ≫= fl_owner = Some "w2") &&
  bool_decide (is_Some (rows_after w !! "done" ≫= fl_owner)).

(** ** Draining *)

Definition fleet_processes_all_shards_concurrently_in_order : bool :=
  let metas := (λ s, shard_meta s []) <$> ["s0"; "s1"; "s2"] in
  let data := <["s0" := recs "s0" ["1"; "2"]]> (<["s1" := recs "s1" ["3"; "4"]]>
                {["s2" := recs "s2" ["5"]]}) in
  holds (drive fake_test_source fake_store recording_consumers noop_sink (test_config "w1" 1000 1)
           Fleet_new 10 (test_world metas data ∅)) (λ _ w,
    bool_decide (sink_after w !! "s0" = Some ["1"; "2"]) &&
    bool_decide (sink_after w !! "s1" = Some ["3"; "4"]) &&
    bool_decide (sink_after w !! "s2" = Some ["5"]) && (size (sink_after w) =? 3)).

Definition fleet_respects_parent_before_child : bool :=
  let metas := [shard_meta "c" ["p"]; shard_meta "p" []] in
  let data := <["p" := recs "p" ["1"]]> {["c" := recs "c" ["2"]]} in
  holds (drive fake_test_source fake_store recording_consumers noop_sink (test_config "w1" 1000 1)
           Fleet_new 10 (test_world metas data ∅)) (λ _ w,
    bool_decide (sink_after w !! "p" = Some ["1"]) && bool_decide (sink_after w !! "c" = Some ["2"])).

Definition three_records : list Record_ := recs "s0" ["1"; "2"; "3"].

Definition fleet_resumes_from_checkpoint_no_redelivery : bool :=
  holds (drive (open_test_source three_records) fake_store recording_consumers noop_sink
           (test_config "w1" 100000 1) Fleet_new 5 (test_world [] ∅ ∅)) (λ _ w,
    bool_decide (sink_after w !! "s0" = Some ["1"; "2"; "3"])).

Definition fleet_without_ack_does_not_advance_checkpoint : bool :=
  holds (drive (open_test_source three_records) fake_store no_ack_consumers noop_sink
           (test_config "w1" 100000 1) Fleet_new 3 (test_world [] ∅ ∅)) (λ _ w,
    bool_decide (length <$> sink_after w !! "s0" = Some 9)).

(** ** Leader and followers *)

Definition follower_does_not_call_describe_stream : bool :=
  let _ := counting_source in let _ := fake_store in let _ := recording_consumers in
  let metas := [shard_meta "s0" []; shard_meta "s1" []] in
  let data := <["s0" := recs "s0" ["1"]]> {["s1" := recs "s1" ["2"]]} in
  let rows := <[LEADER_LEASE_KEY := fake_row (Some "leader-x") 5 None false []]>
    (<["s0" := FakeLeaseState_default]> {["s1" := FakeLeaseState_default]}) in
  let cy := {| cy_coordinator := LeaseCoordinator_new "w2" 100 1000;
               cy_leadership := Leadership_new "w2" 1000 |} in
  let '(r, (_, (_, w))) :=
    run_cycle test_polls (test_config "w2" 1000 1) [] 0 (cy, (Fleet_new, test_world metas data rows))
    : Result (option bool) WorkerError * (Cycle * (FleetMem * TestWorld)) in
  is_ok r && (counter "describe_calls" w.2 =? 0)%N &&
  bool_decide (sink_after w !! "s0" = Some ["1"]) && bool_decide (sink_after w !! "s1" = Some ["2"]).

Definition leader_publishes_shards_and_gates_child_on_parent : bool :=
  let metas := [shard_meta "c" ["p"]; shard_meta "p" []] in
  let data := <["p" := recs "p" ["1"]]> {["c" := recs "c" ["2"]]} in
  holds (drive counting_source fake_store recording_consumers noop_sink (test_config "w1" 1000 1)
           Fleet_new 10 (test_world metas data ∅)) (λ _ w,
    (1 <=? counter "describe_calls" w.2)%N && bool_decide (is_Some (rows_after w !! "c")) &&
    bool_decide (sink_after w !! "p" = Some ["1"]) && bool_decide (sink_after w !! "c" = Some ["2"])).

Definition leader_seeds_once_then_uses_child_shards_filter : bool :=
  let metas := [shard_meta "g0" []; shard_meta "g1" ["g0"]; shard_meta "g2" ["g1"]] in
  let data := <["g0" := recs "g0" ["1"]]> (<["g1" := recs "g1" ["2"]]> {["g2" := recs "g2" ["3"]]}) in
  holds (drive tracking_source fake_store recording_consumers noop_sink (test_config "w1" 1000 1)
           Fleet_new 10 (test_world metas data ∅)) (λ _ w,
    bool_decide (sink_after w !! "g0" = Some ["1"]) && bool_decide (sink_after w !! "g1" = Some ["2"]) &&
    bool_decide (sink_after w !! "g2" = Some ["3"]) &&
    (counter "full_describes" w.2 =? 1)%N && (2 <=? counter "child_describes" w.2)%N).

Definition fleet_emits_metrics_to_sink : bool :=
  holds (drive lag_source fake_store recording_consumers capture_sink (test_config "w1" 1000 1)
           Fleet_new 5 (test_world [] ∅ ∅)) (λ _ w,
    bool_decide (pb_batches w.2 = [("s0", 2%N, 0%N, Some 1234%Z)]) &&
    (1 <=? counter "describes" w.2)%N && (counter "shard_ends" w.2 =? 1)%N).

(** ** The processing pool *)

(** [roots(n)]: [n] root shards with one record each. *)
Definition root_id (i : nat) : string := "s" +:+ u64_to_string (N.of_nat i).
Definition roots (n : nat) : list ShardMeta * gmap string (list Record_) :=
  ((λ i, shard_meta (root_id i) []) <$> seq 0 n,
   list_to_map ((λ i, (root_id i, recs (root_id i) [u64_to_string (N.of_nat i)])) <$> seq 0 n)).

Definition roots_world (n : nat) : TestWorld := test_world (roots n).1 (roots n).2 ∅.

Definition capped (cap : option nat) : FleetMem := with_max_processing_concurrency cap Fleet_new.

(** [conc_fleet(n, cap)] run to completion. *)
Definition conc_run (n : nat) (mem : FleetMem) : option (FleetMem * TestWorld) :=
  drive fake_test_source fake_store conc_factory noop_sink (test_config "w1" 100000 1) mem 10
    (roots_world n).

Definition set_max_processing_concurrency_grows_and_shrinks : bool :=
  let m := capped (Some 2) in
  let m5 := set_max_processing_concurrency 5 m in
  let m1 := set_max_processing_concurrency 1 m5 in
  bool_decide (fm_processing_limit <$> [m; m5; m1] = [Some 2; Some 5; Some 1]).

Definition set_max_processing_concurrency_noop_on_unbounded : bool :=
  bool_decide (fm_processing_limit (capped None) = None) &&
  bool_decide (fm_processing_limit (set_max_processing_concurrency 4 (capped None)) = None).

Definition cap_larger_than_shard_count_is_unbounded_in_effect : bool :=
  holds (conc_run 3 (capped (Some 100))) (λ _ w,
    (length (pb_delivered w.2) =? 3) && (counter "max" w.2 <=? 3)%N).

Definition cap_zero_is_treated_as_unbounded : bool :=
  bool_decide (fm_processing_limit (capped (Some 0)) = None) &&
  holds (conc_run 2 (capped (Some 0))) (λ _ _, true).

Definition cap_no_state_leak_on_ack_path : bool :=
  holds (conc_run 8 (capped (Some 3))) (λ mem w,
    bool_decide (fm_sched mem = ∅) &&
    holds (drive fake_test_source fake_store conc_factory noop_sink (test_config "w1" 100000 1) mem 10 w)
      (λ _ _, true)).

Definition cap_no_state_leak_on_none_ack_path : bool :=
  holds (drive fake_test_source fake_store cap_no_ack_factory noop_sink (test_config "w1" 100000 1)
           (capped (Some 2)) 10 (roots_world 6)) (λ _ _, true).

Definition cap_does_not_gate_idle_shards : bool :=
  let metas := (λ s, shard_meta s []) <$> ["s0"; "s1"; "s2"] in
  holds (drive fake_test_source fake_store conc_factory noop_sink (test_config "w1" 100000 1)
           (capped (Some 1)) 10 (test_world metas {["s0" := recs "s0" ["1"]]} ∅)) (λ _ w,
    forallb (row_completed w) ["s0"; "s1"; "s2"] && bool_decide (pb_delivered w.2 = ["s0"])).

Definition cap_preserves_per_shard_order : bool :=
  let shards := ["s0"; "s1"; "s2"] in
  let metas := (λ s, shard_meta s []) <$> shards in
  let data := list_to_map ((λ s, (s, recs s ["1"; "2"; "3"; "4"])) <$> shards) in
  holds (drive fake_test_source fake_store order_factory noop_sink (test_config "w1" 100000 1)
           (capped (Some 2)) 10 (test_world metas data ∅)) (λ _ w,
    forallb (λ s, bool_decide ((filter (λ e, e.1 = s) (pb_log w.2)).*2 = ["1"; "2"; "3"; "4"])) shards).

Definition cap_preserves_resume_no_redelivery : bool :=
  holds (drive (open_test_source three_records) fake_store order_factory noop_sink
           (test_config "w1" 100000 1) (capped (Some 1)) 4 (test_world [] ∅ ∅)) (λ _ w,
    bool_decide ((pb_log w.2).*2 = ["1"; "2"; "3"])).

Definition cap_emits_slot_wait_and_gauge_metrics : bool :=
  holds (drive fake_test_source fake_store conc_factory capture_sink (test_config "w1" 100000 1)
           (capped (Some 2)) 10 (roots_world 6)) (λ _ w,
    (counter "max_concurrency" w.2 =? 2)%N && (length (pb_slot_waits w.2) =? 6) &&
    (counter "max_queue_depth" w.2 =? 6)%N).

Definition idle_shard_backs_off_across_cycles : bool :=
  holds (drive idle_open_source fake_store cap_no_ack_factory noop_sink (test_config "w1" 100000 40)
           (capped (Some 2)) 12 (test_world [] ∅ ∅)) (λ _ w,
    (1 <=? counter "polls" w.2)%N && (counter "polls" w.2 <=? 6)%N).

Definition queued_shard_keeps_lease_and_counter_coherent_under_strict_locking : bool :=
  holds (drive fake_test_source strict_leases (slow_ack_factory 300) noop_sink (test_config "w1" 600 1)
           (capped (Some 1)) 6 (roots_world 2)) (λ _ w,
    bool_decide (sort_by_key id (pb_delivered w.2) = ["s0"; "s1"]) &&
    forallb (λ kr, bool_decide (kr.1 = LEADER_LEASE_KEY) ||
                   fl_completed kr.2 && bool_decide (is_Some (fl_checkpoint kr.2)))
      (map_to_list (rows_after w))).

(** ** Deferred checkpoints *)

(** [paged_records(n)]: numbered with four digits. *)
Definition four_digits (i : nat) : string :=
  let s := u64_to_string (N.of_nat i) in String.concat EmptyString (replicate (4 - String.length s) "0") +:+ s.
Definition paged_records (n : nat) : list Record_ := recs "s0" (four_digits <$> seq 1 n).

Definition deferring_every (interval_ms : option N) : FleetMem :=
  with_checkpoint_interval interval_ms Fleet_new.

(** [defer_fleet(n_records, interval_ms)] run to completion. *)
Definition defer_run (n_records : nat) (interval_ms : option N) : option (FleetMem * TestWorld) :=
  drive (paged_source (paged_records n_records)) counting_leases ack_all_factory noop_sink
    (test_config "w1" 100000 1) (deferring_every interval_ms) 10 (test_world [] ∅ ∅).

Definition no_interval_checkpoints_every_batch : bool :=
  holds (defer_run 20 None) (λ _ w,
    (counter "checkpoints" w.2 =? 20)%N && row_completed w "s0" &&
    bool_decide (row_checkpoint w "s0" = Some "0020")).

Definition interval_defers_checkpoints_and_flushes_at_shard_end : bool :=
  holds (defer_run 20 (Some 60000%N)) (λ _ w,
    (counter "checkpoints" w.2 =? 1)%N && row_completed w "s0" &&
    bool_decide (row_checkpoint w "s0" = Some "0020")).

Definition interval_elapsed_persists_midstream : bool :=
  holds (drive (slow_paged (paged_records 10)) counting_leases ack_all_factory noop_sink
           (test_config "w1" 100000 1) (deferring_every (Some 1%N)) 10 (test_world [] ∅ ∅)) (λ _ w,
    (2 <=? counter "checkpoints" w.2)%N && (counter "checkpoints" w.2 <=? 10)%N &&
    bool_decide (row_checkpoint w "s0" = Some "0010")).

(** One record is visible at the start. *)
Definition deferred_resume_does_not_redeliver_across_passes : bool :=
  let w := test_world [] ∅ ∅ in
  let w := (w.1, set_counter_to "visible" 1 w.2) in
  holds (drive (trickle_source (paged_records 6)) counting_leases ack_all_factory noop_sink
           (test_config "w1" 100000 1) (deferring_every (Some 60000%N)) 20 w) (λ _ w,
    (length (remove_dups (pb_served w.2)) =? 6) && (length (pb_served w.2) =? 6)).

Definition release_owned_flushes_pending_checkpoint : bool :=
  let _ := counting_leases in
  holds (drive (open_paged (paged_records 5)) counting_leases ack_all_factory noop_sink
           (test_config "w1" 100000 1) (deferring_every (Some 60000%N)) 1 (test_world [] ∅ ∅)) (λ mem w,
    (counter "checkpoints" w.2 =? 0)%N &&
    let '(r, (_, w)) := release_owned (test_config "w1" 100000 1) (mem, w)
      : Result nat WorkerError * (FleetMem * TestWorld) in
    match r with Ok n => 1 <=? n | Err _ => false end &&
    bool_decide (row_checkpoint w "s0" = Some "0005") &&
    bool_decide (rows_after w !! "s0" ≫= fl_owner = None)).

(** ** All of them *)

Definition fleet_tests : list bool :=
  [leader_gcs_completed_parent_once_child_processing;
   leader_retains_completed_parent_while_child_not_started;
   owned_shards_excludes_completed_other_owner_released_and_leader_sentinel;
   fleet_processes_all_shards_concurrently_in_order;
   fleet_respects_parent_before_child;
   fleet_resumes_from_checkpoint_no_redelivery;
   fleet_without_ack_does_not_advance_checkpoint;
   release_owned_clears_our_leases_for_fast_failover;
   follower_does_not_call_describe_stream;
   leader_publishes_shards_and_gates_child_on_parent;
   leader_seeds_once_then_uses_child_shards_filter;
   fleet_emits_metrics_to_sink;
   set_max_processing_concurrency_grows_and_shrinks;
   set_max_processing_concurrency_noop_on_unbounded;
   cap_larger_than_shard_count_is_unbounded_in_effect;
   cap_zero_is_treated_as_unbounded;
   cap_no_state_leak_on_ack_path;
   cap_no_state_leak_on_none_ack_path;
   cap_does_not_gate_idle_shards;
   cap_preserves_per_shard_order;
   cap_preserves_resume_no_redelivery;
   cap_emits_slot_wait_and_gauge_metrics;
   idle_shard_backs_off_across_cycles;
   queued_shard_keeps_lease_and_counter_coherent_under_strict_locking;
   no_interval_checkpoints_every_batch;
   interval_defers_checkpoints_and_flushes_at_shard_end;
   interval_elapsed_persists_midstream;
   deferred_resume_does_not_redeliver_across_passes;
   release_owned_flushes_pending_checkpoint].

Example fleet_tests_hold : Forall (λ passed, passed = true) fleet_tests.
Proof. vm_compute. repeat constructor. Qed.
