(* ===== verification/TelemetryDemo.v ===== *)
(** * The telemetry of a concrete run

    Two shards of the in-memory stream passed side by side, their measurements, and
    the exporter's configuration from two environments. *)

From stdpp Require Import base gmap numbers list strings.
From S2P Require Import Prelude Core Coordinator InMem Interfaces Metrics CkptDefer Tasks.
From S2P Require Import FleetState ShardPass FleetSync Fakes FleetFakes FleetDemo Leader Position Otel Telemetry.

(** An SDK that drops every measurement; the log keeps them. *)
#[local] Instance silent_sdk : OtelSdk FleetWorld unit := {
  exporter_build _ _ := ret (Ok tt);
  provider_build _ _ := ret tt;
  u64_add _ _ _ := ret tt;
  u64_record _ _ _ := ret tt;
  i64_record _ _ _ := ret tt;
  provider_force_flush := ret (Ok tt);
}.

Definition worker_attr : list KeyValue := [{| kv_key := "worker"; kv_value := "w1" |}].

Definition measured_run : list PassResult * (FleetMem * (FleetWorld * list AEvent)) :=
  let _ := telemetry (W := FleetWorld) (Creds := unit) worker_attr in
  process_unbounded (W := FleetWorld * list AEvent) 3 "w1" [1; 0; 0; 1; 1; 0] two_items
    (Fleet_new, (fleet_world two_shards, [])).

Lemma telemetry_counts_deliveries_witness :
  (let '(rs, (_, (_, log))) := measured_run in
   ∀ i item, two_items !! i = Some item → ∃ r missing, rs !! i = Some r ∧ length missing ≤ 1 ∧
     (r ≠ None → r ≠ Some (Ok Stopped) → missing = []) ∧
     record_count <$> delivered_to item.1 log =
       measured "ddbstreams.consumer.records_processed" (shard_attrs (instruments worker_attr) item.1) log ++
       (record_count <$> missing) ∧
     byte_count <$> delivered_to item.1 log =
       measured "ddbstreams.consumer.bytes_processed" (shard_attrs (instruments worker_attr) item.1) log ++
       (byte_count <$> missing)) ∧
  measured "ddbstreams.consumer.records_processed" (shard_attrs (instruments worker_attr) "s0")
    measured_run.2.2.2 = [2%Z] ∧
  measured "ddbstreams.consumer.shard_end.count" (shard_attrs (instruments worker_attr) "s1")
    measured_run.2.2.2 = [1%Z].
Proof.
  split; [|vm_compute; by split].
  assert (NoDup two_items.*1) as Hnd by (cbn; repeat constructor; set_solver).
  pose proof (telemetry_counts_deliveries (Creds := unit) worker_attr 3 "w1" [1; 0; 0; 1; 1; 0] two_items
    Fleet_new (fleet_world two_shards) Hnd) as H.
  exact H.
Defined.

(** ** Configuration *)

Definition env_of (l : list (string * string)) (k : string) : option string :=
  (list_to_map l : gmap string string) !! k.

(** The text between ["//"] and the next ["/"]. *)
Definition host_of (url : string) : option string :=
  match url with
  | String "h"%char (String "t"%char (String "t"%char (String "p"%char (String "s"%char
      (String ":"%char (String "/"%char (String "/"%char rest))))))) =>
      Some ((fix host (s : string) : string :=
               match s with
               | EmptyString => EmptyString
               | String a s' => if bool_decide (a = "/"%char) then EmptyString else String a (host s')
               end) rest)
  | _ => None
  end.

Example exporter_without_environment :
  let env := env_of [] in
  metrics_endpoint env = "http://localhost:4318/v1/metrics" ∧ sign_sigv4 env host_of = false ∧
  export_interval_ms env = 10000%N ∧ base_attrs env = [] ∧
  resource_extra env = [{| kv_key := "service.namespace"; kv_value := "DynamoDBStreamsConsumer" |}].
Proof. vm_compute. by split_and!. Qed.

Example exporter_to_cloudwatch :
  let env := env_of [("OTEL_EXPORTER_OTLP_ENDPOINT", "https://monitoring.eu-west-1.amazonaws.com//");
                     ("OTEL_RESOURCE_ATTRIBUTES", "service.namespace=orders");
                     ("OTEL_METRIC_EXPORT_INTERVAL", "soon"); ("DDB_STREAMS_CONSUMER_OWNER", "w1");
                     ("DDB_STREAMS_CONSUMER_STREAM_ARN", EmptyString)] in
  metrics_endpoint env = "https://monitoring.eu-west-1.amazonaws.com/v1/metrics" ∧
  sign_sigv4 env host_of = true ∧ export_interval_ms env = 10000%N ∧
  base_attrs env = worker_attr ∧ resource_extra env = [].
Proof. vm_compute. by split_and!. Qed.
