(* ===== verification/ServiceTests.v ===== *)
(** * The tests of the source, lease-store and worker crates, run on the model

    [source-ddbstreams/src] ([lib.rs], [aws.rs], [record.rs]), [lease-dynamodb/src]
    ([lib.rs], [dynamodb.rs]) and [worker/src/lib.rs].  Each test is a definition
    that holds (is [true]) when all the test asserts holds; the examples evaluate
    them. *)

From stdpp Require Import base gmap numbers list strings.
From S2P Require Import Prelude Core Coordinator Lineage Metrics StreamsSource DynamoDb.
From S2P Require Import LeaseTable ChangeRecord InMem Interfaces Fakes Worker.

(** ** [source-ddbstreams/src/lib.rs] *)

Definition ids_with_parents (metas : list ShardMeta) : list (string * list string) :=
  (λ m, (sm_id m, sm_parents m)) <$> metas.

Definition split_lineage_single_parent : bool :=
  let pages := [[DdbShard_new "shard-0" None; DdbShard_new "shard-1" (Some "shard-0")]] in
  bool_decide (ids_with_parents (build_shard_graph pages) =
               [("shard-0", []); ("shard-1", ["shard-0"])]).

Definition dedup_across_pages_preserves_first_seen_order : bool :=
  let pages := [[DdbShard_new "a" None; DdbShard_new "b" (Some "a")];
                [DdbShard_new "b" (Some "a"); DdbShard_new "c" (Some "b")]] in
  bool_decide (ids_with_parents (build_shard_graph pages) = [("a", []); ("b", ["a"]); ("c", ["b"])]).

Definition trimmed_parent_is_dropped_so_child_is_not_blocked : bool :=
  let pages := [[DdbShard_new "shard-9" (Some "shard-old-gone")]] in
  bool_decide (ids_with_parents (build_shard_graph pages) = [("shard-9", [])]).

Definition child_shards_filter_targets_parent : bool :=
  let f := child_shards "shard-parent" in
  bool_decide (type_as_string f = "CHILD_SHARDS") &&
  bool_decide (sf_shard_id f = Some "shard-parent").

Definition merge_child_shards_appends_children_of_completed_parent : bool :=
  let existing := build_shard_graph [[DdbShard_closed "p" None "seq-100"]] in
  let discovered := [DdbShard_new "c1" (Some "p"); DdbShard_new "c2" (Some "p")] in
  bool_decide (ids_with_parents (merge_child_shards existing discovered) =
               [("p", []); ("c1", ["p"]); ("c2", ["p"])]).

Definition merge_child_shards_ignores_already_known : bool :=
  let existing := build_shard_graph
    [[DdbShard_closed "p" None "seq-1"; DdbShard_new "c1" (Some "p")]] in
  let discovered := [DdbShard_new "c1" (Some "p"); DdbShard_new "c2" (Some "p")] in
  bool_decide (ids_with_parents (merge_child_shards existing discovered) =
               [("p", []); ("c1", ["p"]); ("c2", ["p"])]).

(** [out.iter().find(|s| s.shard_id == id).unwrap()]. *)
Definition shard_named (id : string) (shards : list DdbShard) : option DdbShard :=
  head (filter (λ s, shard_id s = id) shards).

Definition close_open_parents_closes_a_parent_that_looks_open : bool :=
  let out := close_open_parents [DdbShard_new "p" None; DdbShard_new "c" (Some "p")] in
  match shard_named "p" out, shard_named "c" out with
  | Some p, Some c =>
      negb (is_open p) &&
      bool_decide (ending_sequence_number p = Some CLOSED_BY_SHARD_SYNC) && is_open c
  | _, _ => false
  end.

Definition close_open_parents_leaves_already_closed_parents_untouched : bool :=
  let out := close_open_parents [DdbShard_closed "p" None "seq-real"; DdbShard_new "c" (Some "p")] in
  bool_decide (shard_named "p" out ≫= ending_sequence_number = Some "seq-real").

(** ** [source-ddbstreams/src/aws.rs] *)

Definition max_records_is_clamped_to_streams_valid_range : bool :=
  bool_decide (StreamsSource.clamp_max_records <$> [500; 1; 1000; 0; -7; 5000]%Z =
               [500; 1; 1000; 1; 1; 1000]%Z).

Definition cursor_reused_only_when_it_continues_from_requested_position : bool :=
  let cursor_continues := StreamsSource.cursor_continues in
  cursor_continues (Some "seq-5") (Some "seq-5") && cursor_continues None None &&
  negb (cursor_continues (Some "seq-5") (Some "seq-9")) &&
  negb (cursor_continues (Some "seq-5") None) && negb (cursor_continues None (Some "seq-5")).

Definition cursor_position_advances_to_last_seq_else_holds : bool :=
  let advanced_after := StreamsSource.advanced_after in
  bool_decide (advanced_after (Some "5") (Some "8") = Some "8") &&
  bool_decide (advanced_after None (Some "1") = Some "1") &&
  bool_decide (advanced_after (Some "5") None = Some "5") &&
  bool_decide (advanced_after None None = None).

Definition recoverable_errors_are_classified : bool :=
  let is_recoverable := StreamsSource.is_recoverable in
  is_recoverable "ExpiredIteratorException: iterator expired" &&
  is_recoverable "com.amazonaws...TrimmedDataAccessException" &&
  is_recoverable "ResourceNotFoundException" &&
  negb (is_recoverable "ValidationException: bad input") &&
  negb (is_recoverable "some other service error").

Definition throttling_errors_are_classified : bool :=
  let is_throttling := StreamsSource.is_throttling in
  is_throttling "ProvisionedThroughputExceededException" &&
  is_throttling "ThrottlingException: rate exceeded" &&
  is_throttling "RequestLimitExceeded" && is_throttling "LimitExceededException" &&
  negb (is_throttling "ExpiredIteratorException") &&
  negb (is_throttling "ValidationException: bad input").

(** The retried closure counts its calls in a cell, and the world is that cell: no
    other call reaches the service. *)
Definition cell_streams : StreamsSource.StreamsClient nat := {|
  StreamsSource.sdk_describe_stream _ _ _ := ret (Err "not called");
  StreamsSource.sdk_get_shard_iterator _ _ _ _ := ret (Err "not called");
  StreamsSource.sdk_get_records _ _ := ret (Err "not called");
  StreamsSource.sdk_sleep_ms _ := ret tt;
  StreamsSource.sdk_unix_now_ms := ret None;
|}.

(** A closure that answers [f n] to its call number [n], counted from zero. *)
Definition counted {T E} (f : nat → Result T E) : M nat (Result T E) := λ n, (f n, S n).

Definition throttle_retry_retries_throttles_then_passes_through_others : bool :=
  let _ := cell_streams in
  let '(ok, calls) := StreamsSource.with_throttle_retry
    (counted (λ n, if n <? 2 then Err "ThrottlingException" else Ok 7)) 0 in
  let '(err, calls2) := StreamsSource.with_throttle_retry
    (counted (λ _, Err "ExpiredIteratorException" : Result nat WorkerError)) 0 in
  match ok with Ok v => v =? 7 | Err _ => false end && (calls =? 3) &&
  negb (is_ok err) && (calls2 =? 1).

(** ** [source-ddbstreams/src/record.rs] *)

(** [BTreeMap::get]. *)
Definition item_get (item : Item) (k : string) : option AttrValue :=
  snd <$> head (filter (λ kv, kv.1 = k) item).

Definition all_attributes : list (string * Sdk) :=
  [("s", SdkS "str"); ("n", SdkN "42"); ("bool", SdkBool true); ("null", SdkNull true);
   ("b", SdkB [Byte.x01; Byte.x02; Byte.x03]); ("m", SdkM [("inner", SdkN "7")]);
   ("l", SdkL [SdkS "a"; SdkNull true]); ("ss", SdkSs ["x"; "y"]); ("ns", SdkNs ["1"; "2"]);
   ("bs", SdkBs [[Byte.x09]])].

Definition from_sdk_maps_all_attribute_types_and_images : Prop :=
  let sr := {| ss_sequence_number := Some "100"; ss_size_bytes := Some 64%Z;
               ss_view_type := Some "NEW_AND_OLD_IMAGES"; ss_keys := Some all_attributes;
               ss_new_image := Some [("s", SdkS "str")]; ss_old_image := None;
               ss_created := None |} in
  let out := from_sdk {| sk_event_name := Some "INSERT"; sk_dynamodb := Some sr |} in
  let get := item_get (keys out) in
  event_name out = Some "INSERT" ∧ sequence_number out = Some "100" ∧
  size_bytes out = Some 64%Z ∧ stream_view_type out = Some "NEW_AND_OLD_IMAGES" ∧
  get "s" = Some (S_ "str") ∧ get "n" = Some (N_ "42") ∧ get "bool" = Some (Bool true) ∧
  get "null" = Some Null ∧ get "b" = Some (B [Byte.x01; Byte.x02; Byte.x03]) ∧
  get "ss" = Some (Ss ["x"; "y"]) ∧ get "ns" = Some (Ns ["1"; "2"]) ∧
  get "bs" = Some (Bs [[Byte.x09]]) ∧
  match get "m" with Some (M_ inner) => item_get inner "inner" = Some (N_ "7") | _ => False end ∧
  match get "l" with
  | Some (L items) => items !! 0 = Some (S_ "a") ∧ items !! 1 = Some Null
  | _ => False
  end ∧
  is_Some (new_image out) ∧ old_image out = None.

Definition from_sdk_empty_images_are_none : Prop :=
  let sr := {| ss_sequence_number := Some "1"; ss_size_bytes := None; ss_view_type := None;
               ss_keys := None; ss_new_image := None; ss_old_image := None;
               ss_created := None |} in
  let out := from_sdk {| sk_event_name := None; sk_dynamodb := Some sr |} in
  new_image out = None ∧ old_image out = None ∧ keys out = [].

(** ** [lease-dynamodb/src/lib.rs] *)

Definition single_stream_lease_key_is_shard_id : bool :=
  bool_decide (single_stream_lease_key "shardId-42" = "shardId-42").

Definition lease_of (owner : option string) (counter : N) : Lease :=
  {| l_key := "s"; l_owner := owner; l_counter := counter; l_checkpoint := None;
     l_completed := false; l_parents := [] |}.

Definition unowned_lease_is_takeable : bool :=
  let l := lease_of None 7 in is_takeable l 7 && is_takeable l 0.

Definition owned_lease_takeable_only_if_counter_stalled : bool :=
  let l := lease_of (Some "w1") 5 in is_takeable l 5 && negb (is_takeable l 4).

(** ** [lease-dynamodb/src/dynamodb.rs] *)

(** [FakeErr::with_code]. *)
Definition with_code (code : string) : DynamoDb.SdkError :=
  {| DynamoDb.err_code := Some code; DynamoDb.err_display := code |}.

Definition classify_maps_conditional_throttle_and_other : bool :=
  let classified code := DynamoDb.classify (with_code code) in
  match classified DynamoDb.CONDITIONAL_CHECK_FAILED with DynamoDb.Lost => true | _ => false end &&
  forallb (λ c, match classified c with DynamoDb.Throttled _ => true | _ => false end)
    DynamoDb.THROTTLE_CODES &&
  match classified "ValidationException" with DynamoDb.Aws _ => true | _ => false end.

Definition uncalled (what : string) : DynamoDb.SdkError :=
  {| DynamoDb.err_code := None; DynamoDb.err_display := what |}.

Definition cell_dynamo : DynamoDb.DynamoClient nat := {|
  DynamoDb.describe_table _ := ret (Err (uncalled "describe_table"));
  DynamoDb.create_table _ := ret (Err (uncalled "create_table"));
  DynamoDb.update_continuous_backups _ _ := ret (Err (uncalled "update_continuous_backups"));
  DynamoDb.scan _ _ := ret (Err (uncalled "scan"));
  DynamoDb.get_item _ _ _ := ret (Err (uncalled "get_item"));
  DynamoDb.put_item _ := ret (Err (uncalled "put_item"));
  DynamoDb.update_item _ := ret (Err (uncalled "update_item"));
  DynamoDb.delete_item _ := ret (Err (uncalled "delete_item"));
  DynamoDb.sleep_ms _ := ret tt;
|}.

(** The result of the retried closure, and how often it was called. *)
Definition retried {T} (f : nat → Result T DynamoDb.LeaseError)
  : Result T DynamoDb.LeaseError * nat :=
  let _ := cell_dynamo in DynamoDb.with_throttle_retry (counted f) 0.

Definition throttle_retry_succeeds_after_transient_throttles : bool :=
  let '(out, calls) :=
    retried (λ n, if n + 1 <? 3 then Err (DynamoDb.Throttled "throttled") else Ok 42) in
  match out with Ok v => v =? 42 | Err _ => false end && (calls =? 3).

Definition throttle_retry_does_not_retry_lost : bool :=
  let '(out, calls) := retried (λ _, Err DynamoDb.Lost : Result nat DynamoDb.LeaseError) in
  match out with Err DynamoDb.Lost => true | _ => false end && (calls =? 1).

Definition throttle_retry_gives_up_after_max_attempts : bool :=
  let '(out, calls) :=
    retried (λ _, Err (DynamoDb.Throttled "throttled") : Result nat DynamoDb.LeaseError) in
  match out with Err (DynamoDb.Throttled _) => true | _ => false end && (calls =? 5).

(** ** [worker/src/lib.rs] *)

Definition shard (id : string) (parents : list string) : ShardMeta :=
  {| sm_id := id; sm_parents := parents |}.

Definition set_of (items : list string) : gset string := list_to_set items.

Definition eligible_gates_child_until_parent_complete : bool :=
  let child := shard "c" ["p"] in
  let existing := set_of ["p"; "c"] in
  negb (eligible child (set_of []) existing) && eligible child (set_of ["p"]) existing.

Definition eligible_treats_gcd_parent_as_satisfied : bool :=
  eligible (shard "c" ["p"]) (set_of []) (set_of ["c"]).

Definition eligible_merge_child_needs_all_parents_satisfied : bool :=
  let child := shard "c" ["p1"; "p2"] in
  negb (eligible child (set_of ["p1"]) (set_of ["p1"; "p2"; "c"])) &&
  eligible child (set_of ["p1"]) (set_of ["p2_absent"; "c"]).

(** [worker.run(&mut proc).await.unwrap()]: the processor's events and the rows. *)
Definition worked (metas : list ShardMeta) (data : gmap string (list Record_))
    (rows : gmap string FakeLeaseState) : option (list string * gmap string FakeLeaseState) :=
  let w := {| fw_metas := metas; fw_data := data; fw_rows := rows; fw_events := [] |} in
  match Worker.run "w1" 10 10 w : option (Result unit WorkerError) * FakeWorld with
  | (Some (Ok _), w') => Some (fw_events w', fw_rows w')
  | _ => None
  end.

Definition worker_preserves_parent_before_child_and_checkpoints : bool :=
  let data := <["parent" := demo_rec "parent" <$> ["1"; "2"]]> {["child" := [demo_rec "child" "3"]]} in
  match worked [shard "child" ["parent"]; shard "parent" []] data ∅ with
  | Some (events, rows) =>
      bool_decide (events = ["init:parent"; "rec:parent:1"; "rec:parent:2"; "end:parent";
                             "init:child"; "rec:child:3"; "end:child"]) &&
      bool_decide (rows !! "parent" ≫= fl_checkpoint = Some "2") &&
      bool_decide (fl_completed <$> rows !! "parent" = Some true) &&
      bool_decide (fl_completed <$> rows !! "child" = Some true)
  | None => false
  end.

Definition worker_resumes_from_existing_checkpoint : bool :=
  match worked [shard "s" []] {["s" := demo_rec "s" <$> ["10"; "11"; "12"]]}
          {["s" := fake_row None 3 (Some "11") false []]} with
  | Some (events, _) => bool_decide (events = ["init:s"; "rec:s:12"; "end:s"])
  | None => false
  end.

Definition service_tests : list bool :=
  [split_lineage_single_parent;
   dedup_across_pages_preserves_first_seen_order;
   trimmed_parent_is_dropped_so_child_is_not_blocked;
   child_shards_filter_targets_parent;
   merge_child_shards_appends_children_of_completed_parent;
   merge_child_shards_ignores_already_known;
   close_open_parents_closes_a_parent_that_looks_open;
   close_open_parents_leaves_already_closed_parents_untouched;
   max_records_is_clamped_to_streams_valid_range;
   cursor_reused_only_when_it_continues_from_requested_position;
   cursor_position_advances_to_last_seq_else_holds;
   recoverable_errors_are_classified;
   throttling_errors_are_classified;
   throttle_retry_retries_throttles_then_passes_through_others;
   single_stream_lease_key_is_shard_id;
   unowned_lease_is_takeable;
   owned_lease_takeable_only_if_counter_stalled;
   classify_maps_conditional_throttle_and_other;
   throttle_retry_succeeds_after_transient_throttles;
   throttle_retry_does_not_retry_lost;
   throttle_retry_gives_up_after_max_attempts;
   eligible_gates_child_until_parent_complete;
   eligible_treats_gcd_parent_as_satisfied;
   eligible_merge_child_needs_all_parents_satisfied;
   worker_preserves_parent_before_child_and_checkpoints;
   worker_resumes_from_existing_checkpoint].

Example service_tests_hold : Forall (λ passed, passed = true) service_tests.
Proof. vm_compute. repeat constructor. Qed.

Example sdk_record_tests_hold :
  from_sdk_maps_all_attribute_types_and_images ∧ from_sdk_empty_images_are_none.
Proof. split; vm_compute; split_and!; by try eexists. Qed.
