(* ===== verification/LiveFleet.v ===== *)
(** * Concurrent passes over the live source

    The pass protocol of [ShardPass] and the reads of [StreamsReads] put together:
    what the shard tasks of a cycle hand to their consumers when the stream behind
    them is the live source.  The leases, consumers, metrics and clock are those of a
    world [W] beside the source; they do not touch the stream ([BesideStream]). *)

From Stdlib Require Import Lia.
From stdpp Require Import base functions sorting gmap sets numbers list strings.
From S2P Require Import Prelude Core Position Lineage ChangeRecord Interfaces Metrics CkptDefer Tasks.
From S2P Require Import FleetState ShardPass PassCalls Pool Fleet CycleCalls StreamsSource StreamsReads.

(** ** The rest of the world beside the source *)

Section beside.
Context {W : Type}.

#[export] Instance beside_leases `{AsyncLeaseStore W} : AsyncLeaseStore (Cursors * W) := {|
  get k := lift_m (get k);
  list_leases := lift_m list_leases;
  acquire k o := lift_m (acquire k o);
  renew k o n := lift_m (renew k o n);
  heartbeat w := lift_m (heartbeat w);
  checkpoint k o n q := lift_m (checkpoint k o n q);
  mark_complete k o n := lift_m (mark_complete k o n);
  release k o n := lift_m (release k o n);
  delete_lease k := lift_m (delete_lease k);
  create_shard_lease k ps cp := lift_m (create_shard_lease k ps cp);
  try_acquire_leadership k o e := lift_m (try_acquire_leadership k o e);
|}.
#[export] Instance beside_consumers `{ShardConsumerFactory W} : ShardConsumerFactory (Cursors * W) := {|
  Consumer := Consumer (W := W);
  create s := lift_m (create s);
  deliver c rs := lift_m (deliver c rs);
  consumer_ended c := lift_m (consumer_ended c);
  consumer_lost c := lift_m (consumer_lost c);
|}.
#[export] Instance beside_metrics `{MetricsSink W} : MetricsSink (Cursors * W) := {|
  on_batch m := lift_m (on_batch m);
  on_shard_end s := lift_m (on_shard_end s);
  on_describe_stream := lift_m on_describe_stream;
  on_lease_acquired s := lift_m (on_lease_acquired s);
  on_lease_lost s := lift_m (on_lease_lost s);
  on_leases_held n := lift_m (on_leases_held n);
  on_processing_slot_wait s n := lift_m (on_processing_slot_wait s n);
  on_max_processing_concurrency n := lift_m (on_max_processing_concurrency n);
  on_processing_queue_depth n := lift_m (on_processing_queue_depth n);
|}.
#[export] Instance beside_clock `{Clock W} : Clock (Cursors * W) := {|
  instant_now := lift_m instant_now;
  sleep d := lift_m (sleep d);
|}.
End beside.

(** What a pass calls beside the source lets the stream be. *)
Class BesideStream (W : Type) `{StreamsHistory W, AsyncLeaseStore W, ShardConsumerFactory W,
                                MetricsSink W, Clock W} := {
  beside_checkpoint k o n q : keeps evolves (checkpoint k o n q);
  beside_complete k o n : keeps evolves (mark_complete k o n);
  beside_create s : keeps evolves (create s);
  beside_deliver c rs : keeps evolves (deliver c rs);
  beside_ended c : keeps evolves (consumer_ended c);
  beside_lost c : keeps evolves (consumer_lost c);
  beside_lease_lost s : keeps evolves (on_lease_lost s);
  beside_batch m : keeps evolves (on_batch m);
  beside_shard_end s : keeps evolves (on_shard_end s);
  beside_now : keeps evolves instant_now;
  beside_slot_wait s n : keeps evolves (on_processing_slot_wait s n);
  beside_queue_depth n : keeps evolves (on_processing_queue_depth n);
  beside_sleep d : keeps evolves (sleep d);
}.

(** ** The fetches of an accepted pass *)

Abbreviation Fetch := ((option string * Result RecordBatch WorkerError)%type).

Definition fetches_of (h : list PEvent) : list Fetch :=
  omap (M := list) (λ e, match e with EFetch a r => Some (a, r) | _ => None end) h.

(** Each fetch goes on from what the one before it brought. *)
Fixpoint linked (a : option string) (fs : list Fetch) : Prop :=
  match fs with
  | [] => True
  | (a', r) :: fs' =>
      a' = a ∧ linked (match r with
                       | Ok b => advanced_after a (last_seq (rb_records b))
                       | Err _ => a
                       end) fs'
  end.

Definition brought_records (fs : list Fetch) : list Record_ :=
  mjoin ((λ f : Fetch, match f.2 with Ok b => rb_records b | Err _ => [] end) <$> fs).

(** What was handed to the consumer. *)
Definition handed (h : list PEvent) : list Record_ :=
  mjoin (omap (M := list) (λ e, match e with EDeliver rs _ => Some rs | _ => None end) h).

Definition waiting (p : PassState) : list Record_ :=
  match ps_phase p with PFetched b => rb_records b | _ => [] end.

(** Where the next fetch goes on. *)
Definition next_after (p : PassState) : option string :=
  match ps_phase p with PFetched b => last_seq (rb_records b) | _ => ps_after p end.

Section accepted.
Variables (me : string) (deferred : bool).

Lemma fetch_step p e p' :
  p_step me deferred p e = Some p' →
  waiting p ++ brought_records (fetches_of [e]) = handed [e] ++ waiting p' ∧
  match fetches_of [e] with
  | [] => next_after p' = next_after p
  | (a, r) :: _ => a = next_after p ∧
      (next_after p' = match r with
                       | Ok b => advanced_after (next_after p) (last_seq (rb_records b))
                       | Err _ => next_after p
                       end)
  end.
Proof.
  destruct p as [ph n a u any]. destruct e as [after r|rs r|o c q r| | |o c]; cbn; intros Hs.
  - unfold may_poll in Hs. cbn in Hs. destruct (_ && _) eqn:E; [|done].
    apply andb_true_iff in E as [Hm ->%bool_decide_eq_true_1]. injection Hs as <-.
    unfold waiting, next_after. cbn.
    destruct ph as [|b0|b0| | |]; try discriminate Hm; cbn; destruct r as [b|e]; cbn; try done.
    all: destruct (bool_decide_reflect (rb_records b = [])) as [Hb|Hb]; cbn;
      rewrite ?Hb, ?app_nil_r; split; try done; split; try done.
    all: destruct (last_seq_is_Some _ Hb) as [q Hq]; by rewrite Hq.
  - destruct ph; try discriminate. case_bool_decide as Hb; [|done]. injection Hs as <-. subst rs.
    unfold waiting, next_after. cbn. destruct r; cbn; by rewrite !app_nil_r.
  - destruct ph; try discriminate. destruct (_ && _); [|done]. injection Hs as <-.
    unfold waiting, next_after. by destruct r.
  - destruct ph; try discriminate. destruct (_ && _); [|done]. by injection Hs as <-.
  - destruct ph; try discriminate. by injection Hs as <-.
  - destruct ph; try discriminate. destruct (_ && _); [|done]. by injection Hs as <-.
Qed.

Lemma fetches_app h1 h2 : fetches_of (h1 ++ h2) = fetches_of h1 ++ fetches_of h2.
Proof. apply omap_app. Qed.

Lemma handed_app h1 h2 : handed (h1 ++ h2) = handed h1 ++ handed h2.
Proof. unfold handed. by rewrite omap_app, join_app. Qed.

Lemma brought_app f1 f2 : brought_records (f1 ++ f2) = brought_records f1 ++ brought_records f2.
Proof. unfold brought_records. by rewrite fmap_app, join_app. Qed.

Lemma accepted_fetches p h p' :
  p_run me deferred p h = Some p' →
  linked (next_after p) (fetches_of h) ∧
  waiting p ++ brought_records (fetches_of h) = handed h ++ waiting p'.
Proof.
  revert p. induction h as [|e h IH]; intros p Hrun.
  { apply p_run_nil in Hrun as ->. cbn. by rewrite app_nil_r. }
  change (e :: h) with ([] ++ e :: h) in Hrun.
  apply p_run_split in Hrun as (p1 & p2 & ->%p_run_nil & Hs & Hrun).
  destruct (IH p2 Hrun) as [Hl Hw]. destruct (fetch_step _ _ _ Hs) as [Hw1 Hf].
  change (e :: h) with ([e] ++ h). rewrite fetches_app, brought_app, handed_app. split.
  - destruct (fetches_of [e]) as [|[a r] fs] eqn:He; cbn [app].
    + by rewrite <- Hf.
    + assert (fs = []) as -> by (destruct e; by simplify_eq/=).
      destruct Hf as [-> Hf]. cbn. split; [done|]. by rewrite <- Hf.
  - by rewrite app_assoc, Hw1, <- app_assoc, Hw, app_assoc.
Qed.
End accepted.

Lemma batch_of_fetched h b : batch_of h = Some b → ∃ a, (a, Ok b) ∈ fetches_of h.
Proof.
  unfold batch_of. induction h as [|e h IH] using rev_ind; [done|].
  rewrite foldl_app, fetches_app. cbn. setoid_rewrite elem_of_app. intros Hb.
  destruct e as [a [b'|e]| | | | |]; cbn in Hb; try (destruct (IH Hb) as [a' Ha]; by exists a'; left).
  injection Hb as ->. exists a. right. by left.
Qed.

Lemma ended_fetched me deferred s0 h p' :
  ps_phase s0 = PPoll → (deferred = false → ps_unsaved s0 = None) →
  p_run me deferred s0 h = Some p' → EEnded ∈ h →
  ∃ a b, (a, Ok b) ∈ fetches_of h ∧ rb_shard_end b = true.
Proof.
  intros H0 Hu Hrun (pre & post & ->)%list_elem_of_split.
  pose proof (accepted_calls _ _ _ _ _ _ _ H0 Hu Hrun) as (Hb & _).
  destruct (batch_of pre) as [b|] eqn:Hpre; [|done]. injection Hb as Hb.
  destruct (batch_of_fetched _ _ Hpre) as [a Ha]. exists a, b. split; [|done].
  rewrite fetches_app. apply elem_of_app. by left.
Qed.

(** ** The stream under the passes *)

Section live.
Context `{RecordCodec} {W : Type} `{StreamsLaws W}
  `{!AsyncLeaseStore W, !ShardConsumerFactory W, !MetricsSink W, !Clock W, !BesideStream W}.
Variables (src : DdbStreamsSource) (pages : nat).
Abbreviation V := ((Cursors * W)%type).
Abbreviation World := ((FleetMem * (V * PLog))%type).

#[local] Instance live_source : AsyncStreamSource V := aws_source src pages.

(** A fetch with the world before and after it. *)
Record Snap := {
  sn_shard : ShardId;
  sn_after : option string;
  sn_result : Result RecordBatch WorkerError;
  sn_pre : V;
  sn_post : V;
}.

Definition key_of (s : Snap) : string * Fetch := (sn_shard s, (sn_after s, sn_result s)).

(** What one fetch does, if its position is known and the cursors are good. *)
Definition fetch_ok (s : Snap) : Prop :=
  known (sn_pre s).2 (sn_shard s) (sn_after s) → cursors_ok (sn_pre s) →
  evolves (sn_pre s).2 (sn_post s).2 ∧ cursors_ok (sn_post s) ∧
  match sn_result s with
  | Ok b => polled (sn_post s).2 (sn_shard s) (sn_after s) b
  | Err _ => True
  end.

(** Between fetches the cursors stay and the stream evolves. *)
Definition link (v v' : V) : Prop := v'.1 = v.1 ∧ evolves v.2 v'.2.

#[local] Instance link_preorder : PreOrder link.
Proof.
  split; [by intros v|]. intros v1 v2 v3 [Hc1 ?] [Hc2 ?]. split; [congruence|by etrans].
Qed.

Fixpoint chain (v : V) (ss : list Snap) (v' : V) : Prop :=
  match ss with
  | [] => link v v'
  | s :: ss' => link v (sn_pre s) ∧ fetch_ok s ∧ chain (sn_post s) ss' v'
  end.

Lemma chain_link v v1 ss v' : link v v1 → chain v1 ss v' → chain v ss v'.
Proof. intros Hl. destruct ss as [|s ss]; cbn; [by etrans|]. intros [? ?]. split; [by etrans|done]. Qed.

Lemma chain_app v1 ss1 v2 ss2 v3 : chain v1 ss1 v2 → chain v2 ss2 v3 → chain v1 (ss1 ++ ss2) v3.
Proof.
  revert v1. induction ss1 as [|s ss1 IH]; intros v1; cbn; [apply chain_link|].
  intros (? & ? & ?) ?. split_and!; [done..|]. by apply IH.
Qed.

Definition fetches (l : PLog) : list (string * Fetch) :=
  omap (M := list) (λ e : string * PEvent, match e.2 with EFetch a r => Some (e.1, (a, r)) | _ => None end) l.

Lemma fetches_log_app l1 l2 : fetches (l1 ++ l2) = fetches l1 ++ fetches l2.
Proof. apply omap_app. Qed.

(** The log of a run tells its fetches. *)
Definition moves (x y : World) : Prop :=
  ∃ ss l, y.2.2 = x.2.2 ++ l ∧ fetches l = key_of <$> ss ∧ chain x.2.1 ss y.2.1.

#[local] Instance moves_preorder : PreOrder moves.
Proof.
  split.
  - intros x. exists [], []. split_and!; [by rewrite app_nil_r|done|]. cbn. reflexivity.
  - intros x y z (ss1 & l1 & Hy & Hf1 & Hc1) (ss2 & l2 & Hz & Hf2 & Hc2).
    exists (ss1 ++ ss2), (l1 ++ l2). split_and!; [by rewrite Hz, Hy, app_assoc| |by eapply chain_app].
    by rewrite fetches_log_app, fmap_app, Hf1, Hf2.
Qed.

Lemma moves_memory {A} (m : M World A) : (∀ x, (m x).2.2 = x.2) → keeps moves m.
Proof.
  intros Hm x. exists [], []. rewrite Hm. split_and!; [by rewrite app_nil_r|done|]. cbn. reflexivity.
Qed.

(** A call beside the source. *)
Lemma keeps_beside {A} (m : M W A) (ev : A → PLog) :
  keeps evolves m → (∀ a, fetches (ev a) = []) → keeps moves (lift_m (logged (lift_m m) ev)).
Proof.
  intros Hm Hev [mem [[cs w] l]]. specialize (Hm w). unfold lift_m, logged. cbn.
  destruct (m w) as [a w']. cbn in *. exists [], (ev a). split_and!; [done|apply Hev|by split].
Qed.

Lemma keeps_fetch s a : keeps moves (lift_m (get_records (W := V * PLog) s a)).
Proof.
  intros [mem [v l]]. cbn. unfold lift_m, logged. cbn.
  destruct (src_get_records src s a v) as [r v'] eqn:Hr. cbn.
  exists [{| sn_shard := s; sn_after := a; sn_result := r; sn_pre := v; sn_post := v' |}],
    [(s, EFetch a r)].
  split_and!; [done|done|]. cbn. split_and!; [reflexivity| |reflexivity].
  intros Hk Hc. cbn in *. destruct (poll_ok src v.2 s a Hk v) as [[Hc' He'] Hp].
  { split; [by destruct v|reflexivity]. }
  rewrite Hr in *. cbn in *. done.
Qed.

Lemma keeps_create s : keeps moves (lift_m (create (W := V * PLog) s)).
Proof.
  intros [mem [[cs w] l]]. pose proof (beside_create s w) as Hm.
  unfold lift_m. cbn. unfold bind, unlogged, logged, lift_m. cbn.
  destruct (create s w) as [c w']. cbn in *. exists [], []. split_and!; [done|done|by split].
Qed.

Lemma live_calls t (c : Consumer (W := V * PLog)) : PassCalls moves t c.
Proof.
  split; [split| |]; intros.
  - by apply moves_memory.
  - apply keeps_fetch.
  - by apply (keeps_beside (checkpoint _ _ n q)); [apply beside_checkpoint|].
  - by apply (keeps_beside (mark_complete _ _ n)); [apply beside_complete|].
  - by apply (keeps_beside (consumer_ended (W := W) c.2)); [apply beside_ended|].
  - by apply (keeps_beside (consumer_lost (W := W) c.2)); [apply beside_lost|].
  - by apply (keeps_beside (on_lease_lost (W := W) _) (λ _, [])); [apply beside_lease_lost|].
  - by apply (keeps_beside (on_shard_end (W := W) _) (λ _, [])); [apply beside_shard_end|].
  - by apply (keeps_beside (instant_now (W := W)) (λ _, [])); [apply beside_now|].
  - by apply (keeps_beside (deliver (W := W) c.2 rs)); [apply beside_deliver|].
  - by apply (keeps_beside (on_batch (W := W) _) (λ _, [])); [apply beside_batch|].
Qed.

Lemma moves_unbounded polls me schedule items :
  keeps moves (process_unbounded (W := V * PLog) polls me schedule items).
Proof. apply keeps_unbounded; [apply _|apply keeps_create|]. intros i c _. apply live_calls. Qed.

(** ** What the fetches of a run deliver *)

Definition shard_fetches (sh : string) (l : list (string * Fetch)) : list Fetch :=
  (filter (λ f, f.1 = sh) l).*2.

Lemma shard_fetches_cons sh f l :
  shard_fetches sh (f :: l) = if decide (f.1 = sh) then f.2 :: shard_fetches sh l else shard_fetches sh l.
Proof. unfold shard_fetches. rewrite filter_cons. by case_decide. Qed.

Lemma shard_fetches_app sh l1 l2 :
  shard_fetches sh (l1 ++ l2) = shard_fetches sh l1 ++ shard_fetches sh l2.
Proof. unfold shard_fetches. by rewrite filter_app, fmap_app. Qed.

(** A fetch said that the shard had ended. *)
Definition told_end (fs : list Fetch) : Prop := ∃ a b, (a, Ok b) ∈ fs ∧ rb_shard_end b = true.

Definition fetch_next (pos : option string) (r : Result RecordBatch WorkerError) : option string :=
  match r with Ok b => advanced_after pos (last_seq (rb_records b)) | Err _ => pos end.

(** One fetch, as seen from any shard. *)
Lemma fetch_serves s pos :
  fetch_ok s → cursors_ok (sn_pre s) → (∀ sh, known (sn_pre s).2 sh (pos sh)) →
  sn_after s = pos (sn_shard s) →
  let pos' := <[sn_shard s := fetch_next (sn_after s) (sn_result s)]> pos in
  evolves (sn_pre s).2 (sn_post s).2 ∧ cursors_ok (sn_post s) ∧
  (∀ sh, known (sn_post s).2 sh (pos' sh)) ∧
  ∀ sh n, stands (sn_pre s).2 sh (pos sh) n → ∃ places,
    serves (sn_post s).2 sh n (brought_records (shard_fetches sh [key_of s]))
      (told_end (shard_fetches sh [key_of s])) places ∧
    stands (sn_post s).2 sh (pos' sh) (next_place n places).
Proof.
  destruct s as [sh0 a r v v']. unfold fetch_ok, key_of. cbn -[shard_fetches]. intros Hf Hc Hk ->.
  destruct (Hf (Hk sh0) Hc) as (He & Hc' & Hp). split_and!; [done|done| |].
  - intros sh. destruct (decide (sh = sh0)) as [->|Hne].
    + rewrite fn_lookup_insert. destruct r as [b|e]; [apply Hp|by eapply known_evolves].
    + rewrite fn_lookup_insert_ne by done. by eapply known_evolves.
  - intros sh n Hn. apply (stands_evolves _ _ _ _ _ He) in Hn. rewrite shard_fetches_cons. cbn [fst snd].
    case_decide as Hsh; [subst sh|].
    + rewrite fn_lookup_insert. change (shard_fetches sh0 []) with (@nil Fetch). destruct r as [b|e].
      * destruct Hp as [_ Hp]. destruct (Hp n Hn) as (places & Hpl & Hst). exists places.
        split; [|done]. unfold brought_records. cbn. rewrite app_nil_r.
        eapply serves_end; [|exact Hpl]. intros (a' & b' & Hin & Hb').
        apply list_elem_of_singleton in Hin. by simplify_eq.
      * exists []. split; [|done]. apply serves_nil.
        intros (a' & b' & Hin & _). apply list_elem_of_singleton in Hin. by simplify_eq.
    + exists []. rewrite fn_lookup_insert_ne by done. split; [|done]. apply serves_nil.
      intros (a' & b' & Hin & _). by apply elem_of_nil in Hin.
Qed.

Lemma chain_serves ss v v' pos :
  chain v ss v' → cursors_ok v → (∀ sh, known v.2 sh (pos sh)) →
  (∀ sh, linked (pos sh) (shard_fetches sh (key_of <$> ss))) →
  evolves v.2 v'.2 ∧ ∀ sh n, stands v.2 sh (pos sh) n → ∃ places,
    serves v'.2 sh n (brought_records (shard_fetches sh (key_of <$> ss)))
      (told_end (shard_fetches sh (key_of <$> ss))) places.
Proof.
  revert v pos. induction ss as [|s ss IH]; intros v pos Hch Hc Hk Hl.
  { destruct Hch as [_ He]. split; [done|]. intros sh n Hn. exists []. apply serves_nil.
    by intros (a & b & ?%elem_of_nil & _). }
  destruct Hch as ([Hcs He] & Hf & Hch).
  assert (cursors_ok (sn_pre s)) as Hc1.
  { destruct v as [cs w], (sn_pre s) as [cs1 w1]. cbn in Hcs, He. subst cs1. by eapply cursors_ok_evolves. }
  assert (sn_after s = pos (sn_shard s)) as Hpos.
  { specialize (Hl (sn_shard s)). rewrite fmap_cons, shard_fetches_cons, decide_True in Hl by done.
    by destruct Hl as [? _]. }
  destruct (fetch_serves s pos Hf Hc1 (λ sh, known_evolves _ _ _ _ He (Hk sh)) Hpos)
    as (He1 & Hc2 & Hk2 & Hserve).
  destruct (IH _ _ Hch Hc2 Hk2) as [He2 Hrest].
  { intros sh. specialize (Hl sh). rewrite fmap_cons, shard_fetches_cons in Hl. cbn [fst snd key_of] in Hl.
    case_decide as Hsh; [subst sh|].
    - rewrite fn_lookup_insert. destruct Hl as [-> Hl]. exact Hl.
    - by rewrite fn_lookup_insert_ne. }
  split; [by do 2 (etrans; [eassumption|])|]. intros sh n Hn.
  destruct (Hserve sh n (stands_evolves _ _ _ _ _ He Hn)) as (l1 & Hl1 & Hst).
  destruct (Hrest sh _ Hst) as (l2 & Hl2). exists (l1 ++ l2).
  assert (shard_fetches sh (key_of <$> s :: ss) =
    shard_fetches sh [key_of s] ++ shard_fetches sh (key_of <$> ss)) as ->.
  { by rewrite <- shard_fetches_app. }
  rewrite brought_app. eapply serves_end; [|apply serves_app; [by eapply serves_evolves|exact Hl2]].
  intros (a & b & [Hin|Hin]%elem_of_app & Hb); [left|right]; by exists a, b.
Qed.

Lemma fetches_of_proj_other sh s e :
  fetches_of [e] = [] → fetches_of (proj sh [(s, e)]) = [].
Proof.
  intros He. destruct (decide (s = sh)) as [->|Hne]; [by rewrite proj_one|by rewrite proj_other].
Qed.

(** The fetches of a shard in the log are those its own calls show. *)
Lemma fetches_proj sh l : shard_fetches sh (fetches l) = fetches_of (proj sh l).
Proof.
  induction l as [|[s e] l IH]; [done|].
  change ((s, e) :: l) with ([(s, e)] ++ l). rewrite fetches_log_app, proj_app, fetches_app, <- IH.
  rewrite shard_fetches_app. f_equal.
  destruct e as [a r| | | | |]; try by rewrite fetches_of_proj_other.
  change (fetches [(s, EFetch a r)]) with [(s, (a, r))]. rewrite shard_fetches_cons. cbn [fst snd].
  case_decide as Hs; [by subst s; rewrite proj_one|by rewrite proj_other].
Qed.

(** A prefix of what was brought. *)
Lemma serves_prefix w sh n rs1 rs2 (e : Prop) l :
  serves w sh n (rs1 ++ rs2) e l → ∃ l1, serves w sh n rs1 (e ∧ rs2 = []) l1.
Proof.
  intros (Hs & Hn & HF & Hcov & Hend).
  apply Forall2_app_inv_r in HF as (l1 & l2 & HF1 & HF2 & ->). exists l1.
  apply StronglySorted_app in Hs as (Hlt & Hs1 & Hs2). apply Forall_app in Hn as [Hn1 _].
  split_and!; [done..| |].
  - intros i Hi. unfold next_place in Hi. destruct (last l1) as [j|] eqn:Hj; [|cbn in Hi; lia].
    cbn in Hi. assert (j ∈ l1) as Hin by (by apply list_elem_of_lookup; eexists; rewrite <- last_lookup).
    assert (n ≤ i < next_place n (l1 ++ l2)) as Hi'.
    { split; [lia|]. apply (Nat.lt_le_trans _ (S j)); [lia|].
      apply (next_place_le n (l1 ++ l2) j); [by apply StronglySorted_app|set_solver]. }
    destruct (Hcov i Hi') as [[?|Hl2]%elem_of_app|?]; [by left| |by right].
    specialize (Hlt j i Hin Hl2). lia.
  - intros [He ->]. destruct (Hend He) as [Hse Hall]. split; [done|]. intros i Hi.
    apply Forall2_nil_inv_r in HF2 as ->. rewrite app_nil_r in Hall. by apply Hall.
Qed.

Lemma ended_not_waiting me deferred s0 h p :
  p_run me deferred s0 h = Some p → EEnded ∈ h → waiting p = [].
Proof.
  intros Hrun (pre & post & ->)%list_elem_of_split.
  apply p_run_split in Hrun as (p1 & p2 & _ & Hs & Hpost).
  assert (ps_phase p2 = PClosing) as Hph.
  { cbn in Hs. destruct (ps_phase p1); try discriminate. case_match; [|done]. by injection Hs as <-. }
  destruct (p_run_closing _ _ _ _ _ Hpost Hph) as [->| ->].
  - apply p_run_nil in Hpost as ->. unfold waiting. by rewrite Hph.
  - cbn in Hpost. unfold waiting. rewrite Hph in Hpost. case_match; [|done]. by injection Hpost as <-.
Qed.

(** ** A cycle over the live source *)

Section cycle.
Variables (polls : nat) (me : string) (mem : FleetMem).
Implicit Types (items : list (string * (N * option string))).

(** Where the pass of an item goes on: the ack kept in memory, else the checkpoint. *)
Definition resume_at (item : string * (N * option string)) : option string :=
  ps_after (pass_start mem (task_of me item)).

Definition start_of items (sh : string) : option string :=
  match list_find (λ it, it.1 = sh) items with Some (_, it) => resume_at it | None => None end.

Lemma start_of_item items i item :
  NoDup items.*1 → items !! i = Some item → start_of items item.1 = resume_at item.
Proof.
  intros Hnd Hi. unfold start_of. destruct (list_find _ items) as [[j it]|] eqn:Hf.
  - apply list_find_Some in Hf as (Hj & Heq & _). enough (it = item) as -> by done.
    assert (items.*1 !! j = Some item.1) as Hj1 by (by rewrite list_lookup_fmap, Hj; cbn; f_equal).
    assert (items.*1 !! i = Some item.1) as Hi1 by (by rewrite list_lookup_fmap, Hi).
    pose proof (NoDup_lookup _ _ _ _ Hnd Hj1 Hi1). by simplify_eq.
  - apply list_find_None in Hf. rewrite Forall_forall in Hf. apply list_elem_of_lookup_2 in Hi.
    by destruct (Hf item Hi).
Qed.

Lemma start_known items w sh :
  (∀ it, it ∈ items → known w it.1 (resume_at it)) → known w sh (start_of items sh).
Proof.
  intros Hk. unfold start_of. destruct (list_find _ items) as [[j it]|] eqn:Hf; [|by right; exists 0].
  apply list_find_Some in Hf as (Hj & <- & _). apply Hk. by eapply list_elem_of_lookup_2.
Qed.

(** A run that moves over the stream from an empty log, the calls about every item
    accepted and no other shard touched. *)
Definition run_of items w (y : World) : Prop :=
  moves (mem, ((∅, w), [])) y ∧
  (∀ item, item ∈ items → accepted me mem y.2.2 item) ∧
  (∀ s, s ∉ items.*1 → proj s y.2.2 = []).

Lemma run_linked items w y :
  NoDup items.*1 → run_of items w y →
  ∀ sh, linked (start_of items sh) (shard_fetches sh (fetches y.2.2)).
Proof.
  intros Hnd (_ & Hacc & Hout) sh. rewrite fetches_proj. destruct (decide (sh ∈ items.*1)) as [Hin|Hno].
  - apply list_elem_of_fmap in Hin as (item & -> & Hin). pose proof Hin as [i Hi]%list_elem_of_lookup.
    rewrite (start_of_item _ _ _ Hnd Hi). destruct (Hacc _ Hin) as [p Hp].
    exact (proj1 (accepted_fetches _ _ _ _ _ Hp)).
  - by rewrite Hout.
Qed.

(** What was handed to a shard's consumer, in the shard's log [w']. *)
Definition hands_the_log w' (sh : string) (n : nat) (log : PLog) : Prop :=
  ∃ places,
    StronglySorted lt places ∧
    Forall2 (λ j r, n ≤ j ∧ ∃ s, shard_log w' sh !! j = Some s ∧ to_record sh s = Some r)
      places (handed (proj sh log)) ∧
    (∀ j, n ≤ j → j ∈ places ∨ j < trim_horizon w' sh ∨ Forall (λ k, k < j) places) ∧
    (EEnded ∈ proj sh log → sealed w' sh ∧
      ∀ j, n ≤ j < length (shard_log w' sh) → j ∈ places ∨ j < trim_horizon w' sh).

Lemma run_serves items w y :
  NoDup items.*1 → run_of items w y → (∀ it, it ∈ items → known w it.1 (resume_at it)) →
  evolves w y.2.1.2 ∧ ∀ sh n, stands w sh (start_of items sh) n → ∃ places,
    serves y.2.1.2 sh n (brought_records (fetches_of (proj sh y.2.2)))
      (told_end (fetches_of (proj sh y.2.2))) places.
Proof.
  intros Hnd Hrun Hk. pose proof (run_linked _ _ _ Hnd Hrun) as Hl.
  destruct Hrun as ((ss & l & Hlog & Hss & Hch) & _ & _).
  destruct y as [mem' [[cs' w'] log]]. cbn [fst snd app] in *. subst l.
  setoid_rewrite <- fetches_proj. rewrite Hss in *.
  apply (chain_serves ss _ _ (start_of items) Hch);
    [by intros s c|by intros sh; apply start_known|done].
Qed.

Lemma run_evolves items w y :
  NoDup items.*1 → run_of items w y → (∀ it, it ∈ items → known w it.1 (resume_at it)) →
  evolves w y.2.1.2.
Proof. intros. by eapply run_serves. Qed.

Lemma run_hands_the_log items w y item n :
  NoDup items.*1 → run_of items w y → item ∈ items →
  (∀ it, it ∈ items → known w it.1 (resume_at it)) → stands w item.1 (resume_at item) n →
  hands_the_log y.2.1.2 item.1 n y.2.2.
Proof.
  intros Hnd Hrun Hin Hk Hn. destruct (run_serves _ _ _ Hnd Hrun Hk) as [_ Hserve].
  destruct Hrun as (_ & Hacc & _). destruct (Hacc _ Hin) as [p Hp].
  pose proof Hin as [i Hi]%list_elem_of_lookup. rewrite <- (start_of_item _ _ _ Hnd Hi) in Hn.
  destruct (Hserve item.1 n Hn) as (places0 & Hpl).
  destruct (accepted_fetches _ _ _ _ _ Hp) as [_ Hw]. cbn [waiting ps_phase pass_start app] in Hw.
  rewrite Hw in Hpl. apply serves_prefix in Hpl as [places Hpl].
  apply (serves_end _ _ _ _ _ (EEnded ∈ proj item.1 y.2.2)) in Hpl.
  - exists places. by apply serves_said.
  - intros Hend. split; [|by eapply ended_not_waiting].
    eapply ended_fetched; [| |exact Hp|done]; [done|]. by apply not_deferred_pending.
Qed.

Lemma unbounded_run_of schedule items w :
  NoDup items.*1 →
  run_of items w (process_unbounded (W := V * PLog) polls me schedule items (mem, ((∅, w), []))).2.
Proof.
  intros Hnd. split_and!; [apply moves_unbounded| |intros s; by apply passes_touch_items].
  intros item [i Hi]%list_elem_of_lookup.
  destruct (passes_accepted polls me schedule items mem (∅, w) i item Hnd Hi) as (r & p & _ & Hp & _).
  by exists p.
Qed.

(** The unbounded passes. *)
Lemma unbounded_hands_the_log schedule items w i item n :
  NoDup items.*1 → items !! i = Some item →
  (∀ it, it ∈ items → known w it.1 (resume_at it)) → stands w item.1 (resume_at item) n →
  let '(_, (_, ((_, w'), log))) :=
    (process_unbounded (W := V * PLog) polls me schedule items (mem, ((∅, w), []))
     : list PassResult * World) in
  hands_the_log w' item.1 n log.
Proof.
  intros Hnd Hi%list_elem_of_lookup_2 Hk Hn.
  pose proof (run_hands_the_log _ _ _ _ _ Hnd (unbounded_run_of schedule items w Hnd) Hi Hk Hn) as Hh.
  by destruct (process_unbounded _ _ _ _ _) as [rs [mem' [[cs' w'] log]]].
Qed.
End cycle.

(** ** Properties *)

Lemma cycle_moves me : CycleCalls (W := V * PLog) moves me.
Proof.
  split; intros.
  - apply live_calls.
  - by apply moves_memory.
  - apply keeps_create.
  - by apply (keeps_beside (on_processing_slot_wait (W := W) _ _) (λ _, [])); [apply beside_slot_wait|].
  - by apply (keeps_beside (on_processing_queue_depth (W := W) _) (λ _, [])); [apply beside_queue_depth|].
  - by apply (keeps_beside (instant_now (W := W)) (λ _, [])); [apply beside_now|].
  - by apply (keeps_beside (sleep (W := W) _) (λ _, [])); [apply beside_sleep|].
Qed.

Lemma process_run_of polls config mem schedule items now w :
  NoDup items.*1 →
  run_of (fc_owner config) mem items w
    (process (W := V * PLog) polls config schedule items now (mem, ((∅, w), []))).2.
Proof.
  intros Hnd. split_and!.
  - apply keeps_process; [apply _|apply cycle_moves].
  - intros item Hin. by apply process_accepted.
  - intros s. by apply process_touches_items.
Qed.

(** C5: the whole path from the stream to the processors.  The passes of a cycle,
    one task per shard or taken from the bounded pool, run over the live source,
    interleaved in any way, while records are written, trimmed and shards sealed, and reads, acks, lease writes and deliveries
    may fail.  What a shard's consumer is handed are records of its log from the
    place its pass resumes at (the ack kept in memory, else the lease's checkpoint),
    in order, each once, and none is passed over that is not trimmed away; and its
    consumer is told that the shard has ended only when it was handed every
    untrimmed record there will ever be. *)
Theorem live_passes_lose_nothing polls config mem schedule items now w item n :
  NoDup items.*1 → item ∈ items →
  (∀ it, it ∈ items → known w it.1 (resume_at (fc_owner config) mem it)) →
  stands w item.1 (resume_at (fc_owner config) mem item) n →
  let '(_, (_, ((_, w'), log))) :=
    (process (W := V * PLog) polls config schedule items now (mem, ((∅, w), []))
     : bool * World) in
  ∃ places,
    StronglySorted lt places ∧
    Forall2 (λ j r, n ≤ j ∧ ∃ s, shard_log w' item.1 !! j = Some s ∧ to_record item.1 s = Some r)
      places (handed (proj item.1 log)) ∧
    (∀ j, n ≤ j → j ∈ places ∨ j < trim_horizon w' item.1 ∨ Forall (λ k, k < j) places) ∧
    (EEnded ∈ proj item.1 log → sealed w' item.1 ∧
      ∀ j, n ≤ j < length (shard_log w' item.1) → j ∈ places ∨ j < trim_horizon w' item.1).
Proof.
  intros Hnd Hin Hk Hn.
  pose proof (run_hands_the_log _ _ _ _ _ _ _ Hnd
    (process_run_of polls config mem schedule items now w Hnd) Hin Hk Hn) as Hh.
  by destruct (process _ _ _ _ _ _) as [fin [mem' [[cs' w'] log]]].
Qed.
End live.
