(* ===== verification/LiveDemo.v ===== *)
(** * A cycle over the concrete live source

    [LiveFleet]'s theorem at the stream of [StreamsDemo]: a lease table that takes
    every write, a consumer that acks whatever it is handed, one shard that is
    written, trimmed, expired and sealed while its pass runs, and one the source
    may not read. *)

From stdpp Require Import base functions sorting gmap sets numbers list strings.
From S2P Require Import Prelude Core Position Lineage ChangeRecord Interfaces Metrics CkptDefer Tasks.
From S2P Require Import FleetState ShardPass Pool Fleet StreamsSource StreamsReads StreamsDemo LiveFleet.

#[export] Instance demo_leases : AsyncLeaseStore Demo := {
  get _ := ret (Ok None);
  list_leases := ret (Ok []);
  acquire _ o := ret (Ok {| lh_owner := o; lh_counter := 1; lh_checkpoint := None |});
  renew _ _ n := ret (Ok (n + 1)%N);
  heartbeat _ := ret (Ok 0%N);
  checkpoint _ _ n _ := ret (Ok (n + 1)%N);
  mark_complete _ _ _ := ret (Ok tt);
  release _ _ _ := ret (Ok tt);
  delete_lease _ := ret (Ok tt);
  create_shard_lease _ _ _ := ret (Ok tt);
  try_acquire_leadership _ _ _ := ret (Ok None);
}.
#[export] Instance demo_consumers : ShardConsumerFactory Demo := {
  Consumer := unit;
  create _ := ret tt;
  deliver _ rs := ret (Ok (last_seq rs));
  consumer_ended _ := ret (Ok tt);
  consumer_lost _ := ret (Ok tt);
}.
#[export] Instance demo_clock : Clock Demo := {
  instant_now := ret 0%N;
  sleep _ := ret tt;
}.
#[export] Instance demo_beside : BesideStream Demo.
Proof. by split. Qed.

(** ** One cycle *)

(** The checkpoint of the lease is trimmed away with the record after it; the second
    read finds its iterator expired, then three records are written; before the
    fourth the shard is sealed. *)
Definition live_start : Demo :=
  {| d_len := 4; d_trim := 2; d_sealed := false;
     d_script := [Write 0; Refuse 0 "ExpiredIteratorException"; Write 3; Trim 4; Seal];
     d_derived := 0 |}.

Definition live_items : list (string * (N * option string)) :=
  [("s", (7%N, Some "1")); ("forbidden", (3%N, None))].

Definition live_config : FleetConfig :=
  {| fc_owner := "w1"; fc_max_leases := 4; fc_lease_duration_ms := 30000;
     fc_poll_interval_ms := 50; fc_initial_position := InitialTrimHorizon |}.

(** A pool of two workers: both take a shard from the queue before either reads. *)
Definition live_mem : FleetMem := with_max_processing_concurrency (Some 2) Fleet_new.
Definition live_schedule : list nat := [0; 1; 0; 1; 0; 1; 0; 1; 0; 1; 0; 1; 1; 0; 0; 0; 0; 0; 0; 0].

Definition live_cycle : bool * (FleetMem * ((Cursors * Demo) * PLog)) :=
  let _ := live_source demo_source 4 in
  process (W := (Cursors * Demo) * PLog) 12 live_config live_schedule live_items 0%N
    (live_mem, ((∅, live_start), [])).

(** The second record is trimmed before it is read; the consumer gets every other one
    after its checkpoint, then the end of the shard. *)
Example live_cycle_delivers :
  let log := live_cycle.2.2.2 in
  (rec_seq <$> handed (proj "s" log), existsb (λ e, if e is EEnded then true else false) (proj "s" log), live_cycle.1,
   fetches_of (proj "forbidden" log)) =
  (["111"; "1111"; "11111"; "111111"; "1111111"], true,
   true,
   [(None, Err "AccessDeniedException")]).
Proof. vm_compute. reflexivity. Qed.

Lemma live_passes_lose_nothing_witness :
  let '(_, (_, ((_, w'), log))) := live_cycle in
  ∃ places,
    StronglySorted lt places ∧
    Forall2 (λ j r, 1 ≤ j ∧ ∃ s, shard_log w' "s" !! j = Some s ∧ to_record "s" s = Some r)
      places (handed (proj "s" log)) ∧
    (∀ j, 1 ≤ j → j ∈ places ∨ j < trim_horizon w' "s" ∨ Forall (λ k, k < j) places) ∧
    (EEnded ∈ proj "s" log → sealed w' "s" ∧
      ∀ j, 1 ≤ j < length (shard_log w' "s") → j ∈ places ∨ j < trim_horizon w' "s").
Proof.
  assert (stands live_start "s" (Some "1") 1) as Hn.
  { split; [done|]. exists 0, (demo_record 0). done. }
  pose proof (live_passes_lose_nothing demo_source 4 12 live_config live_mem live_schedule live_items 0%N
    live_start ("s", (7%N, Some "1")) 1) as H.
  apply H; [by apply (bool_decide_unpack _)|by left| |exact Hn].
  intros it Hit. apply elem_of_cons in Hit as [->|Hit]; [right; exists 1; exact Hn|].
  apply list_elem_of_singleton in Hit as ->. right. by exists 0.
Defined.
