(* ===== verification/LiveLeases.v ===== *)
(** * Concurrent passes over the live lease store

    The pass protocol of [ShardPass], the store's adapter of [WorkerAws] and the
    refinement of [LeaseRefine] put together: what the shard tasks of a cycle write
    to the lease table while other workers write to it too.  The stream, the
    consumers, the metrics and the clock are beside the table: during their calls
    other writers may go on ([BesideTable]).  What a call makes of the table is said
    of the call ([one_call]), and the theorem is about the rows that the calls left,
    one after the other ([Film]). *)

From Stdlib Require Import Lia.
From stdpp Require Import base gmap numbers list strings.
From S2P Require Import Prelude Core Coordinator LeaseTable DynamoDb LeaseRefine.
From S2P Require Import Interfaces Metrics CkptDefer Tasks WorkerAws FleetState ShardPass PassCalls.
From S2P Require Import Pool Fleet CycleCalls Film.

Lemma exec_cat ops1 ops2 (A : Table) : LeaseTable.exec (ops1 ++ ops2) A = LeaseTable.exec ops2 (LeaseTable.exec ops1 A).
Proof. apply foldl_app. Qed.

(** ** One row, whatever steps the table takes *)

(** The counter does not go back; while it stays, so do owner and checkpoint; and a
    checkpoint comes from a step that may write it. *)
Definition drifts (s : string) (may : LeaseOp → Prop) (l l' : Lease) : Prop :=
  (l_counter l ≤ l_counter l')%N ∧
  (l_counter l' = l_counter l → l_owner l' = l_owner l ∧ l_checkpoint l' = l_checkpoint l) ∧
  (l_checkpoint l' = l_checkpoint l ∨ ∃ o c q, may (OpCheckpoint s o c q) ∧ l_checkpoint l' = Some q).

Lemma drifts_refl s may l : drifts s may l l.
Proof. split_and!; auto. Qed.

Lemma drifts_trans s may l1 l2 l3 : drifts s may l1 l2 → drifts s may l2 l3 → drifts s may l1 l3.
Proof.
  intros (H12 & Hs12 & Hc12) (H23 & Hs23 & Hc23). split_and!; [lia| |].
  - intros Heq. destruct Hs12 as [<- <-]; [lia|]. apply Hs23. lia.
  - destruct Hc23 as [Hc23|?]; [rewrite Hc23; exact Hc12|by right].
Qed.

(** A row stays as long as nobody deletes it. *)
Lemma drifts_step s may op A l :
  A !! s = Some l → op ≠ OpDelete s → may op → ∃ l', op_exec A op !! s = Some l' ∧ drifts s may l l'.
Proof.
  intros Hl Hd Hmay. unfold op_exec. destruct (op_apply op A) as [A'|] eqn:Ha; cbn.
  2: { exists l. split; [done|apply drifts_refl]. }
  destruct (decide (s = op_key op)) as [->|Hk].
  2: { exists l. rewrite (op_apply_key _ _ _ _ Ha Hk). split; [done|apply drifts_refl]. }
  apply op_apply_row in Ha. rewrite Hl in Ha.
  destruct (A' !! op_key op) as [l'|] eqn:Hl'.
  2: { exfalso. destruct op; cbn in Ha, Hd; repeat case_match; by simplify_eq. }
  exists l'. split; [done|].
  destruct op; cbn in Ha; try done; repeat case_match; simplify_eq/=;
    (split_and!; cbn; [lia|first [by intros; split|intros; lia]|]); eauto 6.
Qed.

Lemma drifts_exec s may ops A l :
  A !! s = Some l → (∀ op, may op → op ≠ OpDelete s) → Forall may ops →
  ∃ l', LeaseTable.exec ops A !! s = Some l' ∧ drifts s may l l'.
Proof.
  intros Hl Hd Hops. revert A l Hl. induction Hops as [|op ops Hop _ IH]; intros A l Hl.
  { exists l. split; [done|apply drifts_refl]. }
  destruct (drifts_step s may op A l Hl (Hd op Hop) Hop) as (l1 & Hl1 & H1).
  destruct (IH _ _ Hl1) as (l2 & Hl2 & H2). exists l2. split; [exact Hl2|by eapply drifts_trans].
Qed.

(** What a stored row says. *)
Lemma lease_item_same l l' : lease_item l = lease_item l' →
  l_owner l = l_owner l' ∧ l_counter l = l_counter l' ∧ l_checkpoint l = l_checkpoint l'.
Proof.
  intros Heq.
  pose proof (lease_item_owner l) as Ho. rewrite Heq, lease_item_owner in Ho.
  pose proof (lease_item_counter l) as Hc. rewrite Heq, lease_item_counter in Hc.
  pose proof (lease_item_checkpoint l) as Hp. rewrite Heq, lease_item_checkpoint in Hp.
  split_and!.
  - destruct (l_owner l), (l_owner l'); by simplify_eq/=.
  - injection Hc as Hc. by apply u64_to_string_inj in Hc.
  - destruct (l_checkpoint l), (l_checkpoint l'); by simplify_eq/=.
Qed.

(** ** What a call of a pass writes *)

(** The step of the table that a call about a shard is. *)
Definition call_op (e : string * PEvent) : option LeaseOp :=
  match e.2 with
  | ECkpt o n q _ => Some (OpCheckpoint e.1 o n q)
  | EComplete o n => Some (OpComplete e.1 o n)
  | _ => None
  end.

(** The table it found and the one it leaves: a checkpoint that went through was taken,
    at the counter it returned; of a call that failed the outcome may be unknown. *)
Definition call_effect (e : option (string * PEvent)) (A A' : Table) : Prop :=
  match e ≫= call_op with
  | Some op =>
      match e with
      | Some (_, ECkpt _ n _ (Ok n')) => op_apply op A = Some A' ∧ n' = u64_add n 1
      | _ => A' = A ∨ op_apply op A = Some A'
      end
  | None => A' = A
  end.

(** The checkpoints of a shard that went through. *)
Definition saves (s : string) (log : PLog) : list (N * string) :=
  omap (M := list) (λ e, match e with ECkpt _ n q (Ok _) => Some (n, q) | _ => None end) (proj s log).

(** ** The table under the passes *)

(** Whatever table the rows are of, they still are one that the steps other writers
    may take reach. *)
Definition lawful {W table} `{DynamoLaws W table} (w w' : W) : Prop :=
  ∀ A, represents (rows (table := table) w) A →
    ∃ ops, Forall (other_op (table := table)) ops ∧
      represents (rows (table := table) w') (LeaseTable.exec ops A).

#[export] Instance lawful_preorder {W table} `{DynamoLaws W table} :
  PreOrder (lawful (W := W) (table := table)).
Proof.
  split; [intros w A HA; by exists []|]. intros w1 w2 w3 H12 H23 A HA.
  destruct (H12 A HA) as (ops1 & Ho1 & H1). destruct (H23 _ H1) as (ops2 & Ho2 & H2).
  exists (ops1 ++ ops2). rewrite exec_cat. split; [by apply Forall_app_2|done].
Qed.

(** During the other calls of a pass the table is left to other writers. *)
Class BesideTable (W : Type) (table : string) `{DynamoLaws W table, AsyncStreamSource W,
    ShardConsumerFactory W, MetricsSink W, Clock W} := {
  table_fetch s a : keeps (lawful (table := table)) (get_records s a);
  table_create s : keeps (lawful (table := table)) (create s);
  table_deliver c rs : keeps (lawful (table := table)) (deliver c rs);
  table_ended c : keeps (lawful (table := table)) (consumer_ended c);
  table_lost c : keeps (lawful (table := table)) (consumer_lost c);
  table_lease_lost s : keeps (lawful (table := table)) (on_lease_lost s);
  table_batch m : keeps (lawful (table := table)) (on_batch m);
  table_shard_end s : keeps (lawful (table := table)) (on_shard_end s);
  table_now : keeps (lawful (table := table)) instant_now;
  table_slot_wait s n : keeps (lawful (table := table)) (on_processing_slot_wait s n);
  table_queue_depth n : keeps (lawful (table := table)) (on_processing_queue_depth n);
  table_sleep d : keeps (lawful (table := table)) (sleep d);
}.

Section live.
Context {W : Type} (st : DynamoDbLeaseStore) (pages : nat)
  `{BesideTable W (ds_table st)}.
Abbreviation Moment := (W * PLog)%type.
Abbreviation rows_of := (rows (table := ds_table st)).
Abbreviation theirs := (other_op (table := ds_table st)).

#[local] Instance live_store : AsyncLeaseStore W := aws_leases st pages.

(** One call: others take steps of the table, and then it takes its own, or none. *)
Definition one_call (x y : Moment) : Prop :=
  ∃ e : option (string * PEvent), y.2 = x.2 ++ option_list e ∧
    ∀ A, represents (rows_of x.1) A → ∃ ops A', Forall theirs ops ∧
      represents (rows_of y.1) A' ∧ call_effect e (LeaseTable.exec ops A) A'.

#[export] Instance one_call_refl : Reflexive one_call.
Proof.
  intros x. exists None. rewrite app_nil_r. split; [done|]. intros A HA. by exists [], A.
Qed.

(** A call that leaves the table to others. *)
Lemma one_call_others {A} (m : M W A) (ev : A → option (string * PEvent)) :
  keeps (lawful (table := ds_table st)) m → (∀ a, ev a ≫= call_op = None) →
  keeps one_call (logged m (λ a, option_list (ev a))).
Proof.
  intros Hm Hev [w l]. specialize (Hm w). unfold logged. cbn. destruct (m w) as [a w']. cbn in *.
  exists (ev a). split; [done|]. intros T HT. destruct (Hm T HT) as (ops & Hops & Hrep).
  exists ops, (LeaseTable.exec ops T). split_and!; [done..|]. unfold call_effect. by rewrite Hev.
Qed.

(** A write of the store. *)
Lemma one_call_write {A} op (m : M W (Result A LeaseError)) ok (ev : Result A WorkerError → string * PEvent) :
  steps (ds_table st) op m (atomic op ok) → (∀ r, call_op (ev r) = Some op) →
  (∀ T T' x, op_apply op T = Some T' → ok T' x → call_effect (Some (ev (Ok x))) T T') →
  (∀ T T' e, T' = T ∨ op_apply op T = Some T' → call_effect (Some (ev (Err e))) T T') →
  keeps one_call (logged (boxed m) (λ r, [ev r])).
Proof.
  intros Hm Hev Hok Herr [w l]. unfold logged, boxed, bind. cbn.
  pose proof (Hm w) as Hw. destruct (m w) as [r w']. cbn in *.
  exists (Some (ev (map_result (λ a, a) box_lease r))). split; [done|].
  intros T HT. destruct (Hw T HT) as (T0 & T' & (ops & Hops & ->) & Hrep & Hat).
  exists ops, T'. split_and!; [done..|]. destruct r as [x|[|e|e]]; cbn in Hat |- *.
  - destruct Hat. by apply Hok.
  - apply Herr. left. by destruct Hat.
  - apply Herr. by left.
  - by apply Herr.
Qed.

Lemma one_call_create s : keeps one_call (create (W := W * PLog) s).
Proof.
  intros [w l]. pose proof (one_call_others (create s) (λ _, None) (table_create s) (λ _, eq_refl) (w, l)) as Hc.
  unfold logged in Hc. cbn in *. unfold bind, ShardPass.unlogged, logged. cbn. by destruct (create s w) as [c w'].
Qed.

Lemma one_call_checkpoint s o n q : keeps one_call (checkpoint (W := W * PLog) s o n q).
Proof.
  apply (one_call_write (OpCheckpoint s o n q) _ _ (λ r, (s, ECkpt o n q r)) (checkpoint_steps st _ _ _ _)); try done.
Qed.

Lemma one_call_complete s o n : keeps one_call (mark_complete (W := W * PLog) s o n).
Proof.
  apply (one_call_write (OpComplete s o n) _ _ (λ r, (s, EComplete o n)) (mark_complete_steps st _ _ _)); try done.
  intros T T' x Ha _. by right.
Qed.

Lemma one_call_pass t (c : Consumer (W := W * PLog)) : PassCalls (under (S := FleetMem) one_call) t c.
Proof.
  assert (∀ A (m : M (W * PLog) A), keeps one_call m → keeps (under (S := FleetMem) one_call) (lift_m m)) as Hu
    by (intros A m; apply keeps_under).
  split; [split| |]; intros; try apply Hu.
  - intros x. unfold under. by match goal with Hx : ∀ x, _ |- _ => rewrite Hx end.
  - apply (one_call_others _ (λ r, Some (st_shard t, EFetch a r))); [apply table_fetch|done].
  - apply one_call_checkpoint.
  - apply one_call_complete.
  - apply (one_call_others _ (λ _, Some (c.1, EEnded))); [apply table_ended|done].
  - apply (one_call_others _ (λ _, Some (c.1, ELost))); [apply table_lost|done].
  - apply (one_call_others _ (λ _, None)); [apply table_lease_lost|done].
  - apply (one_call_others _ (λ _, None)); [apply table_shard_end|done].
  - apply (one_call_others _ (λ _, None)); [apply table_now|done].
  - apply (one_call_others _ (λ r, Some (c.1, EDeliver rs r))); [apply table_deliver|done].
  - apply (one_call_others _ (λ _, None)); [apply table_batch|done].
Qed.

Lemma one_call_cycle me : CycleCalls (W := W * PLog) (under (S := FleetMem) one_call) me.
Proof.
  split; intros; [apply one_call_pass| |apply keeps_under, one_call_create|apply keeps_under..].
  - intros x. unfold under. by match goal with Hx : ∀ x, _ |- _ => rewrite Hx end.
  - apply (one_call_others _ (λ _, None)); [apply table_slot_wait|done].
  - apply (one_call_others _ (λ _, None)); [apply table_queue_depth|done].
  - apply (one_call_others _ (λ _, None)); [apply table_now|done].
  - apply (one_call_others _ (λ _, None)); [apply table_sleep|done].
Qed.

(** ** The row of one shard, from moment to moment *)

Section row.
Variables (me : string) (mem : FleetMem) (item : string * (N * option string)).
Abbreviation shard := item.1.
Hypothesis Hothers : ∀ op, theirs op → op ≠ OpDelete shard.

(** The counter the shard's task holds. *)
Definition held (log : PLog) : N := counter_of item.2.1 (proj shard log).

Lemma accepted_prefix l1 l2 : accepted me mem (l1 ++ l2) item → accepted me mem l1 item.
Proof.
  unfold accepted. intros [p Hp]. rewrite proj_app, p_run_app in Hp.
  destruct (p_run me _ _ (proj shard l1)) as [p1|]; [by exists p1|done].
Qed.

(** The task writes in its worker's name at the counter it holds. *)
Lemma accepted_call log e :
  accepted me mem (log ++ [(shard, e)]) item →
  match e with ECkpt o n _ _ | EComplete o n => o = me ∧ n = held log | _ => True end.
Proof.
  intros [p Hp]. rewrite proj_app, proj_one in Hp.
  pose proof (accepted_calls me _ (pass_start mem (task_of me item)) _ _ _ _ eq_refl
    (not_deferred_pending _ _) Hp) as Hc. unfold held. destruct e; cbn in Hc; naive_solver.
Qed.

(** What a call makes of the row that it found. *)
Definition wrote (log : PLog) (l : Lease) : Prop := l_owner l = Some me ∧ l_counter l = held log.

Definition acts_here (log : PLog) (e : PEvent) (l l' : Lease) : Prop :=
  match e with
  | ECkpt o n q (Ok n') => n' = u64_add (held log) 1 ∧ wrote log l ∧ l' = bump (with_checkpoint q l)
  | ECkpt o n q (Err _) => l' = l ∨ wrote log l ∧ l' = bump (with_checkpoint q l)
  | EComplete o n => l' = l ∨ wrote log l ∧ l' = with_completed l
  | _ => l' = l
  end.

Definition acts (log : PLog) (e : option (string * PEvent)) (l l' : Lease) : Prop :=
  match e with
  | Some (s, e) => if decide (s = shard) then acts_here log e l l' else l' = l
  | None => l' = l
  end.

Lemma acts_at log e l l' : acts_here log e l l' → acts log (Some (shard, e)) l l'.
Proof. cbn. by rewrite decide_True. Qed.

Lemma held_wrote log l : held_at me (held log) l = true → wrote log l.
Proof. intros [Hc%N.eqb_eq Ho%bool_decide_eq_true]%andb_true_iff. by split. Qed.

Lemma effect_acts log e A A' l :
  accepted me mem (log ++ option_list e) item → A !! shard = Some l → call_effect e A A' →
  ∃ l', A' !! shard = Some l' ∧ acts log e l l'.
Proof.
  intros Hacc Hl He. destruct e as [[s e]|]; [|cbn in He; subst; by exists l].
  assert (∀ op, call_op (s, e) = Some op → op_key op = s) as Hkey by (by destruct e; intros ? [= <-]).
  destruct (decide (s = shard)) as [->|Hne].
  - apply accepted_call in Hacc. cut (∃ l', A' !! shard = Some l' ∧ acts_here log e l l').
    { intros (l' & ? & ?). exists l'. split; [done|by apply acts_at]. }
    destruct e as [| |o n q r| | |o n]; cbn in He; try (subst; by exists l); destruct Hacc as [-> ->].
    + assert (∀ T, op_apply (OpCheckpoint shard me (held log) q) A = Some T →
        wrote log l ∧ T !! shard = Some (bump (with_checkpoint q l))) as Hw.
      { intros T Ha%op_apply_row. cbn in Ha. rewrite Hl in Ha. case_match eqn:Hh; [|done].
        injection Ha as Ha. split; [by apply held_wrote|done]. }
      destruct r as [n'|e]; cbn in He.
      * destruct He as [[Hx Ha]%Hw ->]. eexists. split; [exact Ha|done].
      * destruct He as [->|[Hx Ha]%Hw]; [exists l; split; [done|by left]|]. eexists. split; [exact Ha|by right].
    + destruct He as [->|Ha%op_apply_row]; [exists l; split; [done|by left]|]. cbn in Ha. rewrite Hl in Ha.
      case_match eqn:Hh; [|done]. injection Ha as Ha. eexists. split; [symmetry; exact Ha|].
      right. split; [by apply held_wrote|done].
  - exists l. assert (A' !! shard = A !! shard) as ->.
    { unfold call_effect in He. cbn [mbind option_bind] in He.
      destruct (call_op (s, e)) as [op|] eqn:Hop; [|by subst].
      assert (A' = A ∨ op_apply op A = Some A') as [->|Ha]; [|done|].
      { destruct e as [| |? ? ? [|]| | |]; cbn in He; try done; naive_solver. }
      apply (op_apply_key _ _ _ _ Ha). by rewrite (Hkey op). }
    split; [done|]. cbn. by rewrite decide_False.
Qed.

(** From one moment to the next. *)
Lemma call_row x y A l :
  one_call x y → accepted me mem y.2 item → represents (rows_of x.1) A → A !! shard = Some l →
  ∃ e ops A' l1 l', y.2 = x.2 ++ option_list e ∧ Forall theirs ops ∧ represents (rows_of y.1) A' ∧
    call_effect e (LeaseTable.exec ops A) A' ∧ drifts shard theirs l l1 ∧ A' !! shard = Some l' ∧ acts x.2 e l1 l'.
Proof.
  intros (e & Hlog & Hcall) Hacc HA Hl. destruct (Hcall A HA) as (ops & A' & Hops & Hrep & He).
  destruct (drifts_exec shard theirs ops A l Hl Hothers Hops) as (l1 & Hl1 & Hd).
  rewrite Hlog in Hacc. destruct (effect_acts _ _ _ _ _ Hacc Hl1 He) as (l' & Hl' & Ha).
  exists e, ops, A', l1, l'. by split_and!.
Qed.

Lemma held_app log e :
  held (log ++ option_list e) =
    match e with
    | Some (s, ECkpt _ _ _ (Ok n')) => if decide (s = shard) then n' else held log
    | _ => held log
    end.
Proof.
  unfold held. rewrite proj_app. unfold counter_of. rewrite foldl_app. destruct e as [[s e]|]; [|done].
  change (option_list (Some (s, e))) with [(s, e)]. destruct (decide (s = shard)) as [->|Hne].
  - rewrite proj_one. cbn. by destruct e as [| |? ? ? []| | |].
  - rewrite proj_other by done. by destruct e as [| |? ? ? []| | |].
Qed.

Lemma saves_app log e :
  saves shard (log ++ option_list e) = saves shard log ++
    match e with
    | Some (s, ECkpt _ n q (Ok _)) => if decide (s = shard) then [(n, q)] else []
    | _ => []
    end.
Proof.
  unfold saves. rewrite proj_app, omap_app. f_equal. destruct e as [[s e]|]; [|done].
  change (option_list (Some (s, e))) with [(s, e)]. destruct (decide (s = shard)) as [->|Hne].
  - rewrite proj_one. cbn. by destruct e as [| |? ? ? []| | |].
  - rewrite proj_other by done. by destruct e as [| |? ? ? []| | |].
Qed.

(** The row is never behind what the task holds; and whoever looks at it sees that
    somebody else has been there. *)
Definition keeps_up (log : PLog) (l : Lease) : Prop := (held log ≤ l_counter l)%N.
Definition overtaken (log : PLog) (l : Lease) : Prop :=
  l_owner l ≠ Some me ∨ (held log < l_counter l)%N.

Lemma u64_add_le n : (u64_add n 1 ≤ n + 1)%N.
Proof. apply N.Div0.mod_le. Qed.

Lemma acts_keeps_up log e l l1 l' :
  keeps_up log l → drifts shard theirs l l1 → acts log e l1 l' → keeps_up (log ++ option_list e) l'.
Proof.
  intros Hk (Hle & _) Ha. unfold keeps_up in *. rewrite held_app. pose proof (u64_add_le (held log)).
  destruct e as [[s e]|]; cbn in Ha; [|subst; lia]. destruct (decide (s = shard)) as [_|_].
  - destruct e as [| |o n q [n'|]| | |]; cbn in Ha; try (subst; lia).
    + destruct Ha as (-> & [_ Hc] & ->). cbn. lia.
    + destruct Ha as [->|[_ ->]]; cbn; lia.
    + destruct Ha as [->|[_ ->]]; cbn; lia.
  - subst l'. destruct e as [| |o n q [n'|]| | |]; lia.
Qed.

(** Once it is overtaken, no call of the task writes. *)
Lemma overtaken_call log e l l1 l' :
  keeps_up log l → overtaken log l → drifts shard theirs l l1 → acts log e l1 l' →
  overtaken log l1 ∧ l' = l1 ∧ held (log ++ option_list e) = held log ∧
  saves shard (log ++ option_list e) = saves shard log.
Proof.
  unfold keeps_up. intros Hk Ho (Hle & Hsame & _) Ha. assert (overtaken log l1) as Ho1.
  { destruct Ho as [Ho|Ho]; [|right; lia]. destruct (decide (l_counter l1 = l_counter l)) as [Heq|].
    - left. by destruct (Hsame Heq) as [-> _].
    - right. lia. }
  assert (¬ wrote log l1) as Hn. { intros [Hw Hc]. destruct Ho1 as [?|?]; [done|lia]. }
  split; [done|]. rewrite held_app, saves_app.
  destruct e as [[s e]|]; cbn in Ha; [|by rewrite app_nil_r]. destruct (decide (s = shard)) as [_|_].
  - destruct e as [| |o n q [n'|]| | |]; cbn in Ha; rewrite ?app_nil_r; naive_solver.
  - destruct e as [| |o n q [n'|]| | |]; by rewrite app_nil_r.
Qed.

Lemma overtaken_effect log e A A' l' :
  accepted me mem (log ++ option_list e) item → A !! shard = Some l' → overtaken log l' →
  call_effect e A A' → ∃ ops, Forall (λ op, op_key op = shard → theirs op) ops ∧ A' = LeaseTable.exec ops A.
Proof.
  intros Hacc Hl Ho He. destruct e as [[s e]|]; [|by exists []].
  unfold call_effect in He. cbn [mbind option_bind] in He.
  destruct (call_op (s, e)) as [op|] eqn:Hop; [|by exists []].
  assert (A' = A ∨ op_apply op A = Some A') as [->|Ha]; [|by exists []|].
  { destruct e as [| |? ? ? [|]| | |]; cbn in He; try done; naive_solver. }
  exists [op]. cbn. unfold op_exec. rewrite Ha. split; [|done]. apply Forall_singleton. intros Hk. exfalso.
  assert (s = shard) as -> by (by destruct e; cbn in Hop; simplify_eq).
  apply accepted_call in Hacc. apply op_apply_row in Ha. rewrite Hk, Hl in Ha.
  assert (¬ wrote log l') as Hn. { intros [Hw Hc]. destruct Ho as [?|?]; [done|lia]. }
  apply Hn, held_wrote. destruct e; cbn in Hop; simplify_eq; destruct Hacc as [-> ->]; cbn in Ha;
    by destruct (held_at _ _ _).
Qed.

(** *** Along a run *)

Lemma path_log x f y : path one_call x f y → ∃ l, y.2 = x.2 ++ l.
Proof.
  revert x. induction f as [|z f IH]; intros x; cbn [path]; [intros ->; exists []; by rewrite app_nil_r|].
  intros [(e & Hz & _) Hp]. destruct (IH z Hp) as [l Hl]. exists (option_list e ++ l). by rewrite Hl, Hz, app_assoc.
Qed.

Lemma path_accepted x f y : path one_call x f y → accepted me mem y.2 item → accepted me mem x.2 item.
Proof. intros [l Hl]%path_log Hacc. rewrite Hl in Hacc. by apply accepted_prefix in Hacc. Qed.

(** What holds of a moment and is kept by calls holds of the later ones. *)
Lemma path_keeps (P : Moment → Prop) x f y :
  (∀ x y, one_call x y → accepted me mem y.2 item → P x → P y) →
  path one_call x f y → accepted me mem y.2 item → P x → P y.
Proof.
  intros Hstep. revert x. induction f as [|z f IH]; intros x; cbn [path]; [by intros ->|].
  intros [Hz Hp] Hacc Hx. apply (IH z Hp Hacc). apply (Hstep x z Hz); [by eapply path_accepted|done].
Qed.

(** The row of a moment that is not behind. *)
Definition row_kept (x : Moment) : Prop :=
  ∃ A l, represents (rows_of x.1) A ∧ A !! shard = Some l ∧ keeps_up x.2 l.

Lemma row_kept_call x y : one_call x y → accepted me mem y.2 item → row_kept x → row_kept y.
Proof.
  intros Hcall Hacc (A & l & HA & Hl & Hk).
  destruct (call_row x y A l Hcall Hacc HA Hl) as (e & ops & A' & l1 & l' & Hlog & _ & Hrep & _ & Hd & Hl' & Ha).
  exists A', l'. split_and!; [done..|]. rewrite Hlog. by eapply acts_keeps_up.
Qed.

Lemma overtaken_path x f y A l :
  path one_call x f y → accepted me mem y.2 item → represents (rows_of x.1) A → A !! shard = Some l →
  keeps_up x.2 l → overtaken x.2 l →
  saves shard y.2 = saves shard x.2 ∧
  ∃ ops, represents (rows_of y.1) (LeaseTable.exec ops A) ∧ Forall (λ op, op_key op = shard → theirs op) ops.
Proof.
  revert x A l. induction f as [|z f IH]; intros x A l; cbn [path]; [intros -> _ HA; split; [done|by exists []]|].
  intros [Hz Hp] Hacc HA Hl Hk Ho. pose proof (path_accepted _ _ _ Hp Hacc) as Hacc1.
  destruct (call_row x z A l Hz Hacc1 HA Hl) as (e & ops & A' & l1 & l' & Hlog & Hops & Hrep & He & Hd & Hl' & Ha).
  destruct (overtaken_call _ _ _ _ _ Hk Ho Hd Ha) as (Ho1 & -> & Hheld & Hsaves). rewrite Hlog in Hacc1.
  destruct (drifts_exec shard theirs ops A l Hl Hothers Hops) as (l2 & Hl2 & Hd2).
  assert (∃ ops2, Forall (λ op, op_key op = shard → theirs op) ops2 ∧ A' = LeaseTable.exec (ops ++ ops2) A)
    as (ops2 & Hops2 & HA').
  { destruct (effect_acts _ _ _ _ _ Hacc1 Hl2 He) as (l3 & Hl3 & Ha3).
    destruct (overtaken_call _ _ _ _ _ Hk Ho Hd2 Ha3) as (Ho2 & -> & _).
    destruct (overtaken_effect _ _ _ _ _ Hacc1 Hl2 Ho2 He) as (ops2 & Hops2 & ->). exists ops2.
    by rewrite exec_cat. }
  destruct (IH z A' l1 Hp Hacc Hrep Hl') as (Hs & ops3 & Hrep3 & Hops3).
  { rewrite Hlog. exact (acts_keeps_up _ _ _ _ _ Hk Hd Ha). }
  { unfold overtaken. rewrite Hlog, Hheld. exact Ho1. }
  split; [by rewrite Hs, Hlog|]. exists ((ops ++ ops2) ++ ops3). rewrite exec_cat, <- HA'. split; [done|].
  apply Forall_app_2; [apply Forall_app_2; [|done]|done]. eapply Forall_impl; [exact Hops|]. by intros.
Qed.
End row.

(** ** Properties *)

(** C6: fencing, end to end.  The passes of a cycle, one task per shard or taken from
    the bounded pool, run over the live store, interleaved in any way, while other
    workers claim, renew, checkpoint and release leases (but do not delete the shard's).
    Look at the lease table as any call of the run left it.  If the shard's row has
    another owner then, or a counter past the one the shard's task holds, then at no
    later moment has a checkpoint of the task gone through since, whatever the task
    still delivers, and whatever became of the row, no call of this worker had a part
    in it.  The scan the cycle started from may be old, and writes may fail with an
    unknown outcome. *)
Theorem overtaken_passes_write_nothing polls config schedule items now mem (w : W) A item l
    (Hnd : NoDup items.*1) (Hrep : represents (rows_of w) A) (Hitem : item ∈ items)
    (Hl : A !! item.1 = Some l) (Hread : (item.2.1 ≤ l_counter l)%N)
    (Hothers : ∀ op, theirs op → op ≠ OpDelete item.1) :
  let '(_, (_, (_, film))) :=
    (process (W := Moment * list Moment) polls config schedule items now (mem, ((w, []), []))
     : bool * (FleetMem * (Moment * list Moment))) in
  ∀ before x between y after lx, film = before ++ x :: between ++ y :: after →
    rows_of x.1 !! item.1 = Some (lease_item lx) →
    l_owner lx ≠ Some (fc_owner config) ∨ (counter_of item.2.1 (proj item.1 x.2) < l_counter lx)%N →
    saves item.1 y.2 = saves item.1 x.2 ∧
    ∀ Ax, represents (rows_of x.1) Ax → ∃ ops, represents (rows_of y.1) (LeaseTable.exec ops Ax) ∧
      Forall (λ op, op_key op = item.1 → theirs op) ops.
Proof.
  pose proof (process_path polls config schedule one_call items now mem (w, []) (one_call_cycle _)) as Hpath.
  pose proof (process_cut (X := Moment) polls config schedule items now mem (w, []) []) as Hcut.
  pose proof (process_accepted (W := W) polls config schedule items now mem w item Hnd Hitem) as Hacc.
  cbn zeta in Hpath, Hcut. cbn [fst snd] in Hacc. rewrite Hcut in Hacc.
  destruct (process (W := Moment * list Moment) _ _ _ _ _ _) as [fin [mem' [z film]]].
  cbn [fst snd] in *. clear Hcut. intros before x between y after lx -> Hx Ho.
  apply path_mid in Hpath as [Hbx Hpath]. apply path_mid in Hpath as [Hxy Hyz].
  pose proof (path_accepted _ _ _ _ _ _ Hyz Hacc) as Hacc_y.
  pose proof (path_accepted _ _ _ _ _ _ Hxy Hacc_y) as Hacc_x.
  assert (row_kept item (w, [])) as Hstart by (exists A, l; by split_and!).
  destruct (path_keeps _ _ _ (row_kept item) _ _ _ (λ x y, row_kept_call _ _ _ Hothers x y) Hbx Hacc_x Hstart) as (Ax & l' & HA & Hl' & Hk).
  assert (∀ B, represents (rows_of x.1) B → ∃ m, B !! item.1 = Some m ∧ keeps_up item x.2 m ∧
    overtaken (fc_owner config) item x.2 m) as Hrow.
  { intros B HB. rewrite (represents_lookup _ _ _ HB) in Hx.
    pose proof (represents_lookup _ _ item.1 HA) as Heq. rewrite (represents_lookup _ _ _ HB), Hl' in Heq.
    destruct (B !! item.1) as [m|]; [|done]. injection Hx as Hx. injection Heq as Heq. exists m.
    apply lease_item_same in Hx as (Hown & Hc & _). apply lease_item_same in Heq as (_ & Hc' & _).
    split; [done|]. unfold keeps_up, overtaken, held in *. rewrite Hc at 2. rewrite Hown. split; [by rewrite Hc'|exact Ho]. }
  split; [|intros B HB].
  - destruct (Hrow Ax HA) as (m & Hm & Hkm & Hom).
    by apply (overtaken_path _ _ _ Hothers _ _ _ Ax m Hxy Hacc_y).
  - destruct (Hrow B HB) as (m & Hm & Hkm & Hom).
    by apply (overtaken_path _ _ _ Hothers _ _ _ B m Hxy Hacc_y).
Qed.
End live.
