(* ===== verification/LiveLeasesDemo.v ===== *)
(** * A takeover in the middle of a pass

    [LiveLeases]'s theorem on the service of [DynamoSim], now with another worker: it
    claims the lease of the shard while the pass reads its second batch. *)

From stdpp Require Import base gmap numbers list strings.
From S2P Require Import Prelude Core Position Coordinator LeaseTable DynamoDb LeaseRefine DynamoSim.
From S2P Require Import Interfaces Metrics CkptDefer Tasks WorkerAws FleetState ShardPass Pool Fleet.
From S2P Require Import Film LiveLeases.

(** Another worker, ["b"], claims leases. *)
Definition rivals (op : LeaseOp) : Prop :=
  match op with OpClaim _ o _ => o = "b" | _ => False end.

Definition reaches (t t' : Rows) : Prop :=
  ∀ A, represents t A → ∃ ops, Forall rivals ops ∧ represents t' (LeaseTable.exec ops A).

Lemma reaches_same t t' : t = t' → reaches t t'.
Proof. intros <- A HA. by exists []. Qed.

#[local] Program Instance shared_laws (table : string) : DynamoLaws SimDb table := {|
  rows := sim_rows;
  eval_cond := sim_cond;
  eval_update := sim_update;
  others w _ := reaches (sim_rows w);
  other_op := rivals;
|}.
Next Obligation. intros table w w' t A Ho. apply Ho. Qed.
Next Obligation. intros table. apply (@cond_absent _ _ table (sim_laws table)). Qed.
Next Obligation. intros table. apply (@cond_counter _ _ table (sim_laws table)). Qed.
Next Obligation. intros table. apply (@cond_held _ _ table (sim_laws table)). Qed.
Next Obligation. intros table. apply (@cond_completed _ _ table (sim_laws table)). Qed.
Next Obligation. intros table. apply (@upd_claim _ _ table (sim_laws table)). Qed.
Next Obligation. intros table. apply (@upd_renew _ _ table (sim_laws table)). Qed.
Next Obligation. intros table. apply (@upd_checkpoint _ _ table (sim_laws table)). Qed.
Next Obligation. intros table. apply (@upd_complete _ _ table (sim_laws table)). Qed.
Next Obligation. intros table. apply (@upd_release _ _ table (sim_laws table)). Qed.
Next Obligation. intros table. apply (@upd_heartbeat _ _ table (sim_laws table)). Qed.
Next Obligation. intros table ms w. by apply reaches_same. Qed.
Next Obligation. intros table start w. by apply reaches_same. Qed.
Next Obligation. intros table k w r w' [= <- <-]. split; [by apply reaches_same|done]. Qed.
Next Obligation.
  intros table k attrs cond w r w' Hcall Hk.
  destruct (@put_law _ _ table (sim_laws table) _ _ _ _ _ _ Hcall Hk) as (t0 & Ht & Hout).
  exists t0. split; [by apply reaches_same|done].
Qed.
Next Obligation.
  intros table k expr cond vals ret_new w r w' Hcall.
  destruct (@update_law _ _ table (sim_laws table) _ _ _ _ _ _ _ _ Hcall) as (t0 & Ht & Hout).
  exists t0. split; [by apply reaches_same|done].
Qed.
Next Obligation.
  intros table k cond vals w r w' Hcall.
  destruct (@delete_law _ _ table (sim_laws table) _ _ _ _ _ _ Hcall) as (t0 & Ht & Hout).
  exists t0. split; [by apply reaches_same|done].
Qed.

(** The other worker's claim of ["s"], at whatever counter the row has. *)
Definition rival_claim (t : Rows) : Rows :=
  match t !! "s" with
  | Some it => <["s" := <[LEASE_OWNER := AvS "b"]> (sim_bump it)]> t
  | None => t
  end.

Lemma rival_reaches t : reaches t (rival_claim t).
Proof.
  intros A HA. unfold rival_claim. rewrite (represents_lookup _ _ _ HA).
  destruct (A !! "s") as [l|] eqn:Hl; cbn; [|by exists []].
  exists [OpClaim "s" "b" (l_counter l)]. split; [by repeat constructor|]. cbn. unfold op_exec, op_apply. cbn. rewrite Hl. cbn.
  rewrite N.eqb_refl. cbn.
  rewrite (sim_bump_num _ (l_counter l)) by apply lease_item_counter. rewrite lease_item_claim.
  destruct HA as [-> Hk]. split; [by rewrite fmap_insert|].
  intros k l' [[<- <-]|[_ Hk']]%lookup_insert_Some; [exact (Hk _ _ Hl)|by apply Hk].
Qed.

(** ** The rest of the world *)

Definition one_record (q : string) : RecordBatch :=
  {| rb_records := [{| rec_shard := "s"; rec_seq := q; rec_data := [] |}];
     rb_shard_end := false; rb_millis_behind_latest := None |}.

Definition set_db (f : Rows → Rows) : M SimDb unit := λ w, (tt, set_rows (f (sim_rows w)) w).

(** The takeover comes with the second read. *)
#[local] Instance overtaken_source : AsyncStreamSource SimDb := {
  describe_shards := ret (Ok []);
  get_records _ after :=
    if decide (after = Some "seq-3") then ret (Ok (one_record "seq-4"))
    else set_db rival_claim ;;; ret (Ok (one_record "seq-5"));
  describe_child_shards _ := ret (Ok []);
}.
#[local] Instance acking_consumers : ShardConsumerFactory SimDb := {
  Consumer := unit;
  create _ := ret tt;
  deliver _ rs := ret (Ok (last_seq rs));
  consumer_ended _ := ret (Ok tt);
  consumer_lost _ := ret (Ok tt);
}.
#[local] Instance still_clock : Clock SimDb := { instant_now := ret 0%N; sleep _ := ret tt; }.

#[local] Instance beside_demo : BesideTable SimDb (ds_table demo_store).
Proof.
  split; try (intros; intros w; by apply reaches_same).
  intros s a w. cbn. case_decide; [by apply reaches_same|apply rival_reaches].
Qed.

Definition overtaken_items : list (string * (N * option string)) := [("s", (7%N, Some "seq-3"))].

Definition overtaken_config : FleetConfig :=
  {| fc_owner := "a"; fc_max_leases := 4; fc_lease_duration_ms := 30000;
     fc_poll_interval_ms := 50; fc_initial_position := InitialTrimHorizon |}.

(** Over a pool of one worker. *)
Definition overtaken_mem : FleetMem := with_max_processing_concurrency (Some 1) Fleet_new.

Abbreviation Shot := (SimDb * PLog)%type.

#[local] Instance demo_live_store : AsyncLeaseStore SimDb := live_store demo_store 1.

Definition overtaken_film : list Shot :=
  (process (W := Shot * list Shot) 5 overtaken_config [] overtaken_items 0%N
     (overtaken_mem, ((demo_db, []), [])) : bool * (FleetMem * (Shot * list Shot))).2.2.2.

(** Who owns the row, and the checkpoints that went through, moment by moment. *)
Definition owner_of (x : Shot) : option string :=
  (sim_rows x.1 !! "s") ≫= λ it, (it !! LEASE_OWNER) ≫= as_s.

(** The first checkpoint goes through, the second batch is still delivered, its
    checkpoint is refused and the consumer is told; the row is the other worker's,
    with the checkpoint it had at the takeover. *)
Lemma overtaken_passes_write_nothing_witness :
  (∀ before x between y after lx, overtaken_film = before ++ x :: between ++ y :: after →
     sim_rows x.1 !! "s" = Some (lease_item lx) →
     l_owner lx ≠ Some "a" ∨ (counter_of 7 (proj "s" x.2) < l_counter lx)%N →
     saves "s" y.2 = saves "s" x.2 ∧
     ∀ Ax, represents (sim_rows x.1) Ax →
       ∃ ops, represents (sim_rows y.1) (LeaseTable.exec ops Ax) ∧
         Forall (λ op, op_key op = "s" → rivals op) ops) ∧
  (λ x, (owner_of x, saves "s" x.2)) <$> drop 5 overtaken_film =
    (Some "a", []) :: replicate 2 (Some "a", [(7%N, "seq-4")]) ++ replicate 6 (Some "b", [(7%N, "seq-4")]) ∧
  (λ x, drop 3 (proj "s" x.2)) <$> last overtaken_film =
    Some [EFetch (Some "seq-4") (Ok (one_record "seq-5"));
          EDeliver (rb_records (one_record "seq-5")) (Ok (Some "seq-5"));
          ECkpt "a" 8 "seq-5" (Err (box_lease Lost)); ELost] ∧
  (λ x, sim_rows x.1) <$> last overtaken_film =
    Some {["s" := lease_item (fresh_lease "s" (Some "b") 9 (Some "seq-4") ["p"])]}.
Proof.
  split; [|repeat split; vm_compute; reflexivity].
  assert (NoDup overtaken_items.*1) as Hnd by (apply NoDup_singleton).
  assert (∀ op, rivals op → op ≠ OpDelete "s") as Hothers by (by intros [] ?).
  pose proof (overtaken_passes_write_nothing demo_store 1 5 overtaken_config [] overtaken_items 0%N overtaken_mem demo_db
    demo_table ("s", (7%N, Some "seq-3")) demo_lease Hnd demo_represents (list_elem_of_here _ _) eq_refl (N.le_refl 7) Hothers) as H.
  revert H. unfold overtaken_film, demo_live_store. destruct (process _ _ _ _ _ _) as [fin [mem [z film]]].
  intros H. exact H.
Defined.
