(* ===== verification/LiveCheckpoints.v ===== *)
(** * What the durable checkpoints say

    The two live services under the passes of one cycle: the stream of [LiveFleet]
    and the lease table of [LiveLeases].  A checkpoint in the table is where the next
    holder of the lease resumes; here the row of a shard is followed, call by call, and
    its checkpoint back through the pass to the records handed to the consumer. *)

From Stdlib Require Import Lia.
From stdpp Require Import base functions sorting gmap sets numbers list strings.
From S2P Require Import Prelude Core Coordinator Position Lineage ChangeRecord LeaseTable DynamoDb.
From S2P Require Import LeaseRefine Interfaces Metrics CkptDefer Tasks WorkerAws FleetState ShardPass.
From S2P Require Import PassCalls Pool Fleet CycleCalls Film StreamsSource StreamsReads LiveFleet LiveLeases.

(** The checkpoint the cycle's scan read, or the last one that went through since. *)
Definition saved_of (cp : option string) (pre : list PEvent) : option string :=
  foldl (λ cp e, match e with ECkpt _ _ q (Ok _) => Some q | _ => cp end) cp pre.

(** ** In the log of a pass *)

(** Acks of a delivery name a record of its batch. *)
Definition acks_batch (e : PEvent) : Prop :=
  match e with EDeliver rs (Ok (Some q)) => ∃ r, r ∈ rs ∧ rec_seq r = q | _ => True end.

Lemma unsaved_acked u pre q :
  unsaved_of u pre = Some q →
  u = Some q ∨ ∃ rs, EDeliver rs (Ok (Some q)) ∈ pre.
Proof.
  unfold unsaved_of. induction pre as [|e pre IH] using rev_ind; [by left|].
  rewrite foldl_app. cbn. setoid_rewrite elem_of_app.
  destruct e as [|rs [[q'|]|e]| | | |]; cbn; try done;
    try (intros [?|[rs' ?]]%IH; [by left|right; exists rs'; by left]).
  intros [= ->]. right. exists rs. right. by left.
Qed.

Lemma acked_handed u pre q :
  unsaved_of u pre = Some q → Forall acks_batch pre →
  u = Some q ∨ ∃ r, r ∈ handed pre ∧ rec_seq r = q.
Proof.
  intros [Hu|[rs Hin]]%unsaved_acked Hacks; [by left|right].
  rewrite Forall_forall in Hacks. destruct (Hacks _ Hin) as (r & Hr & Hq).
  exists r. split; [|done]. apply list_elem_of_join. exists rs. split; [done|].
  apply list_elem_of_omap. by eexists.
Qed.

Section ahead.
Context `{RecordCodec} {W : Type} `{StreamsLaws W}.

(** Everything from the place [n] up to the record numbered [q] was handed to the
    consumer in [pre], but for what is trimmed away. *)
Definition covers (w : W) (sh : string) (n : nat) (pre : list PEvent) (q : string) : Prop :=
  ∃ k, stands w sh (Some q) k ∧
    ∀ j, n ≤ j < k → (∃ r, r ∈ handed pre ∧ at_place w sh j r) ∨ j < trim_horizon w sh.

(** What is handed in order, up to a record of a prefix, is handed in the prefix. *)
Lemma covers_acked w sh n log pre post r :
  hands_the_log w sh n log → proj sh log = pre ++ post → r ∈ handed pre → covers w sh n pre (rec_seq r).
Proof.
  intros (places & Hs & HF & Hcov & _) Hlog Hr. rewrite Hlog, handed_app in HF.
  apply Forall2_app_inv_r in HF as (pl1 & pl2 & HF1 & HF2 & ->).
  apply list_elem_of_lookup in Hr as [i Hi].
  destruct (Forall2_lookup_r _ _ _ _ _ HF1 Hi) as (k & Hk & Hnk & s & Hat & Hrec).
  destruct (converts w sh k s Hat) as (r' & Hr' & Hseq). rewrite Hrec in Hr'. injection Hr' as <-.
  destruct (log_seq w sh k s Hat) as (q & Hq & Hsent). exists (S k). split.
  { split; [congruence|]. by exists k, s. }
  intros j [Hnj Hj]. destruct (Hcov j Hnj) as [[Hin|Hin]%elem_of_app|[?|Hlt]]; [|exfalso| |exfalso].
  - left. apply list_elem_of_lookup in Hin as [i' Hi'].
    destruct (Forall2_lookup_l _ _ _ _ _ HF1 Hi') as (r2 & Hr2 & _ & Hat2).
    exists r2. split; [by eapply list_elem_of_lookup_2|exact Hat2].
  - apply StronglySorted_app in Hs as (Hlt & _ & _).
    apply list_elem_of_lookup_2 in Hk. specialize (Hlt k j Hk Hin). lia.
  - by right.
  - rewrite Forall_forall in Hlt. apply list_elem_of_lookup_2 in Hk.
    specialize (Hlt k). rewrite elem_of_app in Hlt. specialize (Hlt (or_introl Hk)). lia.
Qed.

Lemma covers_app w sh n pre post q : covers w sh n pre q → covers w sh n (pre ++ post) q.
Proof.
  intros (k & Hk & Hc). exists k. split; [done|]. intros j Hj. destruct (Hc j Hj) as [(r & Hr & Hat)|?]; [left|by right].
  exists r. split; [|done]. rewrite handed_app. apply elem_of_app. by left.
Qed.

Lemma pass_covers me mem w item n log p pre o c q r post :
  p_run me (is_deferred mem) (pass_start mem (task_of me item)) (proj item.1 log) = Some p →
  hands_the_log w item.1 n log → Forall acks_batch (proj item.1 log) →
  stands w item.1 (resume_at me mem item) n →
  proj item.1 log = pre ++ ECkpt o c q r :: post → covers w item.1 n pre q.
Proof.
  intros Hp Hh Hacks Hn Hlog. rewrite Hlog in Hp, Hacks.
  pose proof (accepted_calls me _ (pass_start mem (task_of me item)) _ _ _ _ eq_refl
    (not_deferred_pending _ _) Hp) as (_ & _ & Hu & _).
  apply Forall_app in Hacks as [Hacks _].
  destruct (acked_handed _ _ _ Hu Hacks) as [Hq|(r' & Hr' & <-)].
  - exists n. unfold resume_at in Hn. cbn [pass_start ps_after ps_unsaved st_shard task_of st_checkpoint] in Hn, Hq.
    rewrite Hq in Hn.
    split; [exact Hn|]. lia.
  - by eapply covers_acked.
Qed.
End ahead.

(** ** One world with both services *)

(** Both services go on during a call. *)
Definition both_go_on {W table} `{StreamsHistory W, DynamoLaws W table} {A} (m : M W A) : Prop :=
  keeps evolves m ∧ keeps (lawful (table := table)) m.

(** During each call the other service goes on: records are written while a lease is,
    and other workers write leases while records are read. *)
Class SharedWorld (W : Type) (table : string) `{StreamsClient W, StreamsHistory W, DynamoLaws W table,
    ShardConsumerFactory W, MetricsSink W, Clock W} := {
  shared_iterator arn sh ty q : keeps (lawful (table := table)) (sdk_get_shard_iterator arn sh ty q);
  shared_records it limit : keeps (lawful (table := table)) (sdk_get_records it limit);
  shared_wait ms : keeps (lawful (table := table)) (sdk_sleep_ms ms);
  shared_unix_now : keeps (lawful (table := table)) sdk_unix_now_ms;
  shared_update u : keeps evolves (update_item u);
  shared_sleep_ms ms : keeps evolves (sleep_ms ms);
  shared_create s : both_go_on (table := table) (create s);
  shared_deliver c rs : both_go_on (table := table) (deliver c rs);
  shared_ended c : both_go_on (table := table) (consumer_ended c);
  shared_lost c : both_go_on (table := table) (consumer_lost c);
  shared_lease_lost s : both_go_on (table := table) (on_lease_lost s);
  shared_batch m : both_go_on (table := table) (on_batch m);
  shared_shard_end s : both_go_on (table := table) (on_shard_end s);
  shared_now : both_go_on (table := table) instant_now;
  shared_slot_wait s n : both_go_on (table := table) (on_processing_slot_wait s n);
  shared_queue_depth n : both_go_on (table := table) (on_processing_queue_depth n);
  shared_sleep d : both_go_on (table := table) (sleep d);
}.

(** A consumer acks a record of the batch it was handed. *)
Class AcksDelivered (W : Type) `{ShardConsumerFactory W} :=
  ack_delivered : ∀ c rs w q w', deliver c rs w = (Ok (Some q), w') → ∃ r, r ∈ rs ∧ rec_seq r = q.

Section cycle.
Context `{RecordCodec} {W : Type} (st : DynamoDbLeaseStore) (src : DdbStreamsSource) (pages : nat)
  `{SharedWorld W (ds_table st), !StreamsLaws W, !AcksDelivered W}.
Abbreviation V := (Cursors * W)%type.
Abbreviation World := (FleetMem * (V * PLog))%type.
Abbreviation rows_of := (rows (table := ds_table st)).

#[local] Instance both_source : AsyncStreamSource V := live_source src pages.
#[local] Instance both_store : AsyncLeaseStore W := live_store st pages.

Lemma keeps_throttled {T} (R : relation W) `{!PreOrder R} (op : M W (Result T LeaseError)) :
  keeps R op → (∀ ms, keeps R (sleep_ms ms)) → keeps R (DynamoDb.with_throttle_retry op).
Proof.
  intros Hop Hs. unfold DynamoDb.with_throttle_retry. generalize 4%nat, 50%N. intros retries.
  induction retries as [|retries IH]; intros ms; cbn [DynamoDb.throttle_loop];
    (apply keeps_bind; [done|done|intros [x|[|e|e]]; try by apply keeps_ret]).
  apply keeps_bind; [done|apply Hs|intros _]. apply IH.
Qed.

#[export] Instance both_beside : BesideStream W.
Proof.
  split; intros.
  - apply keeps_bind; [apply _| |intros ?; by apply keeps_ret; apply _].
    apply keeps_throttled; [apply _| |apply shared_sleep_ms].
    apply keeps_bind; [apply _|apply shared_update|intros ?; by apply keeps_ret; apply _].
  - apply keeps_bind; [apply _| |intros ?; by apply keeps_ret; apply _].
    apply keeps_bind; [apply _|apply shared_update|intros ?; by apply keeps_ret; apply _].
  - apply shared_create.
  - apply shared_deliver.
  - apply shared_ended.
  - apply shared_lost.
  - apply shared_lease_lost.
  - apply shared_batch.
  - apply shared_shard_end.
  - apply shared_now.
  - apply shared_slot_wait.
  - apply shared_queue_depth.
  - apply shared_sleep.
Qed.

(** ** What a call makes of the table *)

Abbreviation Shot := (V * PLog)%type.

(** The world without the iterators the source keeps. *)
Definition strip (x : Shot) : W * PLog := (x.1.2, x.2).

Definition both_call (x y : Shot) : Prop :=
  one_call st (strip x) (strip y) ∧ ∃ l, y.2 = x.2 ++ l ∧ Forall (λ e, acks_batch e.2) l.

#[local] Instance both_call_refl : Reflexive both_call.
Proof. intros x. split; [reflexivity|]. exists []. by rewrite app_nil_r. Qed.

(** A call beside the source. *)
Lemma both_beside_call {A} (m : M W A) (ev : A → PLog) :
  keeps (one_call st) (logged m ev) → (∀ w, Forall (λ e, acks_batch e.2) (ev (m w).1)) →
  keeps both_call (logged (lift_m m) ev).
Proof.
  intros Hm Hev [[cs w] l]. specialize (Hm (w, l)). specialize (Hev w).
  unfold lift_m, logged, both_call, strip in *. cbn in *. destruct (m w) as [a w']. cbn in *.
  split; [exact Hm|]. by exists (ev a).
Qed.

Lemma both_others {A} (m : M W A) (ev : A → option (string * PEvent)) :
  both_go_on (table := ds_table st) m → (∀ a, ev a ≫= call_op = None) →
  (∀ w, Forall (λ e, acks_batch e.2) (option_list (ev (m w).1))) →
  keeps both_call (logged (lift_m m) (λ a, option_list (ev a))).
Proof. intros [_ Hm] Hw Ha. apply both_beside_call; [by apply one_call_others|done]. Qed.

(** Reading the stream leaves the table to other writers. *)
Lemma keeps_source_reads s a : keeps (under lawful) (src_get_records (W := W) src s a).
Proof.
  apply keeps_reads; [apply _|]. split; intros;
    [apply shared_iterator|apply shared_records|apply shared_wait|apply shared_unix_now].
Qed.

Lemma both_fetch s a : keeps both_call (get_records (W := V * PLog) s a).
Proof.
  intros [v l]. pose proof (keeps_source_reads s a v) as Hm. cbn. unfold logged. cbn.
  destruct (src_get_records src s a v) as [r v']. unfold under in Hm. cbn [snd] in Hm.
  split; [|exists [(s, EFetch a r)]; split; [done|by apply Forall_singleton]].
  exists (Some (s, EFetch a r)). split; [done|]. intros T HT. destruct (Hm T HT) as (ops & Hops & Hrep).
  by exists ops, (LeaseTable.exec ops T).
Qed.

Lemma both_create s : keeps both_call (create (W := V * PLog) s).
Proof.
  intros x. assert (keeps both_call (logged (lift_m (S := Cursors) (create (W := W) s)) (λ _, option_list None))) as Hc.
  { by apply (both_others _ (λ _, None)); [apply shared_create| |]. }
  specialize (Hc x). destruct x as [[cs w] l]. unfold lift_m, logged in Hc. cbn in Hc.
  cbn. unfold bind, ShardPass.unlogged, logged, lift_m. cbn. by destruct (create (W := W) s w) as [c w'].
Qed.

Lemma deliver_acks (c : Consumer (W := W)) s rs w :
  Forall (λ e : string * PEvent, acks_batch e.2) [(s, EDeliver rs (deliver (W := W) c rs w).1)].
Proof.
  constructor; [|constructor]. cbn. destruct (deliver c rs w) as [[[q|]|e] w'] eqn:Hd; try done.
  by eapply ack_delivered.
Qed.

Ltac uneventful := apply (both_others _ (λ _, None)); [|done|done].

Lemma both_pass t (c : Consumer (W := V * PLog)) : PassCalls (under (S := FleetMem) both_call) t c.
Proof.
  split; [split| |]; intros; try apply keeps_under.
  - intros x. unfold under. by match goal with Hx : ∀ x, _ |- _ => rewrite Hx end.
  - apply both_fetch.
  - apply (both_beside_call (Interfaces.checkpoint (W := W) (st_shard t) (st_owner t) n q)
      (λ r, [(st_shard t, ECkpt (st_owner t) n q r)])); [|by repeat constructor].
    apply (one_call_checkpoint st pages).
  - apply (both_beside_call (Interfaces.mark_complete (W := W) (st_shard t) (st_owner t) n)
      (λ r, [(st_shard t, EComplete (st_owner t) n)])); [|by repeat constructor].
    apply (one_call_complete st pages).
  - apply (both_others (consumer_ended (W := W) c.2) (λ _, Some (c.1, EEnded))); [apply shared_ended|done|by repeat constructor].
  - apply (both_others (consumer_lost (W := W) c.2) (λ _, Some (c.1, ELost))); [apply shared_lost|done|by repeat constructor].
  - uneventful. apply shared_lease_lost.
  - uneventful. apply shared_shard_end.
  - uneventful. apply shared_now.
  - apply (both_others (deliver (W := W) c.2 rs) (λ r, Some (c.1, EDeliver rs r)));
      [apply shared_deliver|done|intros w; apply deliver_acks].
  - uneventful. apply shared_batch.
Qed.

Lemma both_cycle me : CycleCalls (W := V * PLog) (under (S := FleetMem) both_call) me.
Proof.
  split; intros; [apply both_pass| |apply keeps_under..]; [|apply both_create|uneventful..].
  - intros x. unfold under. by match goal with Hx : ∀ x, _ |- _ => rewrite Hx end.
  - apply shared_slot_wait.
  - apply shared_queue_depth.
  - apply shared_now.
  - apply shared_sleep.
Qed.

Lemma both_path x f y : path both_call x f y →
  path (one_call st) (strip x) (strip <$> f) (strip y) ∧ ∃ l, y.2 = x.2 ++ l ∧ Forall (λ e, acks_batch e.2) l.
Proof.
  revert x. induction f as [|z f IH]; intros x; cbn; [intros ->; split; [done|exists []; by rewrite app_nil_r]|].
  intros [[Hc (l1 & Hz & Hl1)] Hp]. destruct (IH z Hp) as (Hp' & l2 & Hy & Hl2). split; [done|].
  exists (l1 ++ l2). rewrite Hy, Hz, app_assoc. split; [done|by apply Forall_app].
Qed.

Lemma acks_proj s l : Forall (λ e : string * PEvent, acks_batch e.2) l → Forall acks_batch (proj s l).
Proof.
  intros Hl. unfold proj. apply Forall_forall. intros e ([s' e'] & Hin & He)%list_elem_of_omap.
  rewrite Forall_forall in Hl. apply Hl in Hin. cbn in *. case_decide; by simplify_eq.
Qed.

(** ** The checkpoint of one row, from moment to moment *)

Section story.
Variables (me : string) (mem : FleetMem) (item : string * (N * option string)) (l0 : Lease).
Abbreviation shard := item.1.
Abbreviation theirs := (other_op (table := ds_table st)).
Hypothesis Hothers : ∀ op, theirs op → op ≠ OpDelete shard.

(** The task called for this checkpoint, with or without success. *)
Definition asked (log : PLog) (q : string) : Prop :=
  ∃ pre o c r post, proj shard log = pre ++ ECkpt o c q r :: post.

(** The checkpoint is the one it began with, one of others, or one the task asked for;
    and as long as the counter is the task's own, it is the last that went through. *)
Definition told (log : PLog) (l : Lease) : Prop :=
  keeps_up item log l ∧
  (∀ q, l_checkpoint l = Some q →
     l_checkpoint l0 = Some q ∨ (∃ o c, theirs (OpCheckpoint shard o c q)) ∨ asked log q) ∧
  (l_counter l = held item log → l_checkpoint l = saved_of item.2.2 (proj shard log)).

Definition story (x : W * PLog) : Prop :=
  ∃ A l, represents (rows_of x.1) A ∧ A !! shard = Some l ∧ told x.2 l.

Lemma asked_app log log' q : asked log q → asked (log ++ log') q.
Proof.
  intros (pre & o & c & r & post & Hq). exists pre, o, c, r, (post ++ proj shard log').
  by rewrite proj_app, Hq, <- app_assoc.
Qed.

Lemma asked_now log o c q r : asked (log ++ [(shard, ECkpt o c q r)]) q.
Proof. exists (proj shard log), o, c, r, []. by rewrite proj_app, proj_one. Qed.

Lemma saved_app log e :
  saved_of item.2.2 (proj shard (log ++ option_list e)) =
    match e with
    | Some (s, ECkpt _ _ q (Ok _)) => if decide (s = shard) then Some q else saved_of item.2.2 (proj shard log)
    | _ => saved_of item.2.2 (proj shard log)
    end.
Proof.
  rewrite proj_app. unfold saved_of. rewrite foldl_app. destruct e as [[s e]|]; [|done].
  change (option_list (Some (s, e))) with [(s, e)]. destruct (decide (s = shard)) as [->|Hne].
  - rewrite proj_one. cbn. by destruct e as [| |? ? ? []| | |].
  - rewrite proj_other by done. by destruct e as [| |? ? ? []| | |].
Qed.

(** Others leave the story true. *)
Lemma told_drifts log l l1 : told log l → drifts shard theirs l l1 → told log l1.
Proof.
  unfold told, keeps_up. intros (Hk & Ho & Hc) (Hle & Hsame & Hcp). split_and!; [lia| |].
  - intros q Hq. destruct Hcp as [Heq|(o & c & q' & Hmay & Hq')].
    + apply Ho. congruence.
    + right; left. exists o, c. congruence.
  - intros Heq. destruct Hsame as [_ ->]; [lia|]. apply Hc. lia.
Qed.

(** A call that leaves the row, and one that checkpoints it. *)
Lemma told_same log e l : told log l → held item (log ++ option_list e) = held item log →
  saved_of item.2.2 (proj shard (log ++ option_list e)) = saved_of item.2.2 (proj shard log) →
  told (log ++ option_list e) l.
Proof.
  unfold told, keeps_up. intros (Hk & Ho & Hc) Hh Hs. rewrite Hh, Hs. split_and!; [done| |done].
  intros q Hq. destruct (Ho q Hq) as [?|[?|?]]; auto using asked_app.
Qed.

Lemma told_acts log e l l' : told log l → acts me item log e l l' → told (log ++ option_list e) l'.
Proof.
  intros Ht Ha. destruct e as [[s e]|]; cbn in Ha; [|subst; by apply told_same; rewrite ?app_nil_r].
  pose proof (held_app item log (Some (s, e))) as Hh. pose proof (saved_app log (Some (s, e))) as Hs.
  destruct (decide (s = shard)) as [->|Hne].
  2: { subst. apply told_same; [done|rewrite Hh|rewrite Hs]; destruct e as [| |? ? ? []| | |]; by rewrite ?decide_False. }
  destruct e as [| |o n q [n'|]| | |o n]; cbn in Ha; cbv beta iota in Hh, Hs; try (subst; by apply told_same).
  - destruct Ha as (-> & [_ Hc] & ->). unfold told, keeps_up. rewrite Hh, Hs, !decide_True by done. cbn. split_and!; [|intros q' [= <-]|done].
    + pose proof (u64_add_le (held item log)). lia.
    + right; right. apply asked_now.
  - destruct Ha as [->|[[_ Hc] ->]]; [by apply told_same|]. unfold told, keeps_up. rewrite Hh. cbn.
    split_and!; [lia|intros q' [= <-]; right; right; apply asked_now|lia].
  - destruct Ha as [->|[_ ->]]; [by apply told_same|]. destruct (told_same _ (Some (shard, EComplete o n)) _ Ht Hh Hs) as (? & ? & ?).
    by split_and!.
Qed.

Lemma story_call x y : one_call st x y → accepted me mem y.2 item → story x → story y.
Proof.
  intros Hcall Hacc (A & l & HA & Hl & Ht).
  destruct (call_row st me mem item Hothers x y A l Hcall Hacc HA Hl)
    as (e & ops & A' & l1 & l' & Hlog & _ & Hrep & _ & Hd & Hl' & Ha).
  exists A', l'. split_and!; [done..|]. rewrite Hlog. eapply told_acts; [|exact Ha]. by eapply told_drifts.
Qed.

(** A checkpoint that goes through is in the table then. *)
Lemma landed x y o c q r :
  one_call st x y → accepted me mem y.2 item → story x → y.2 = x.2 ++ [(shard, ECkpt o c q (Ok r))] →
  ∃ A l, represents (rows_of y.1) A ∧ A !! shard = Some l ∧
    l_owner l = Some me ∧ l_counter l = (c + 1)%N ∧ l_checkpoint l = Some q.
Proof.
  intros Hcall Hacc (A & l & HA & Hl & Ht) Hy.
  destruct (call_row st me mem item Hothers x y A l Hcall Hacc HA Hl)
    as (e & ops & A' & l1 & l' & Hlog & _ & Hrep & _ & Hd & Hl' & Ha).
  rewrite Hlog in Hy. apply app_inv_head in Hy. destruct e as [e|]; [|done]. injection Hy as ->.
  rewrite Hlog in Hacc. apply accepted_call in Hacc as [-> ->].
  cbn in Ha. rewrite decide_True in Ha by done. destruct Ha as (_ & [Ho Hc] & ->).
  eexists A', _. split_and!; [done|exact Hl'|done| |done]. cbn. by rewrite Hc.
Qed.

Lemma story_start w A :
  represents (rows_of w) A → A !! shard = Some l0 → (item.2.1 ≤ l_counter l0)%N →
  (l_counter l0 = item.2.1 → l_checkpoint l0 = item.2.2) → story (w, []).
Proof. intros HA Hl Hread Hcp. exists A, l0. split_and!; [done..|]. split_and!; [done|by left|done]. Qed.

(** Up to a moment and the call that led there. *)
Lemma story_along start before x y : path both_call start (before ++ [x]) y →
  accepted me mem x.2 item → story (strip start) →
  ∃ prev, last (start :: before) = Some prev ∧ one_call st (strip prev) (strip x) ∧ story (strip prev).
Proof.
  intros (prev & Hp & Hx & _)%path_app Hacc Hstart.
  pose proof (path_last _ _ _ _ Hp) as Hlast. apply both_path in Hp as [Hp _]. destruct Hx as [Hcall _].
  assert (story (strip prev)) as Hst.
  { apply (path_keeps _ _ _ _ story _ _ _ (λ x y, story_call x y) Hp); [|done].
    apply (path_accepted st me mem item _ [strip x] (strip x)); [by split|exact Hacc]. }
  by exists prev.
Qed.
End story.

Lemma asked_covers me mem w item n log rest q :
  accepted me mem (log ++ rest) item → hands_the_log w item.1 n (log ++ rest) →
  Forall acks_batch (proj item.1 (log ++ rest)) → stands w item.1 (resume_at me mem item) n →
  asked item log q → covers w item.1 n (proj item.1 log) q.
Proof.
  intros [p Hp] Hh Hacks Hn (pre & o & c & r & post & Hq).
  rewrite Hq. apply covers_app. eapply (pass_covers _ _ _ _ _ _ _ _ o c q r (post ++ proj item.1 rest)); [done..|].
  by rewrite proj_app, Hq, <- app_assoc.
Qed.

(** ** Properties *)

(** C7: the durable checkpoint never runs ahead of the application.  The passes of a
    cycle run over the live stream and the live lease table, interleaved in any way,
    as tasks or from the pool, with checkpoints at once or deferred, while records are
    written and trimmed and other workers write to the table (but do not delete the
    shard's row).  Look at the row as any call of the run left it.  Its checkpoint is
    the one it had before, or one that others may write, or one up to which every
    record from where the pass resumed had by then been handed to the shard's consumer
    or was trimmed.  While the row's counter is the one that the pass holds, it is the
    last checkpoint that the pass saw go through; and a call that sees one go through
    leaves it in the row, in this worker's name and at the next counter. *)
Theorem checkpoints_never_run_ahead polls config mem schedule items now w A item l n
    (Hnd : NoDup items.*1) (Hrep : represents (rows_of w) A)
    (Hknown : ∀ it, it ∈ items → known w it.1 (resume_at (fc_owner config) mem it))
    (Hitem : item ∈ items) (Hl : A !! item.1 = Some l) (Hread : (item.2.1 ≤ l_counter l)%N)
    (Hcp : l_counter l = item.2.1 → l_checkpoint l = item.2.2)
    (Hn : stands w item.1 (resume_at (fc_owner config) mem item) n)
    (Hothers : ∀ op, other_op (table := ds_table st) op → op ≠ OpDelete item.1) :
  let start : Shot := ((∅, w), []) in
  let '(_, (_, (((_, w'), _), film))) :=
    (process (W := Shot * list Shot) polls config schedule items now (mem, (start, []))
     : bool * (FleetMem * (Shot * list Shot))) in
  ∀ before x after, film = before ++ x :: after →
    let calls := proj item.1 x.2 in
    ∃ lx, rows_of x.1.2 !! item.1 = Some (lease_item lx) ∧
      (∀ q, l_checkpoint lx = Some q →
         l_checkpoint l = Some q ∨ (∃ o c, other_op (table := ds_table st) (OpCheckpoint item.1 o c q)) ∨
         covers w' item.1 n calls q) ∧
      (l_counter lx = counter_of item.2.1 calls → l_checkpoint lx = saved_of item.2.2 calls) ∧
      ∀ y o c q r, last (start :: before) = Some y → x.2 = y.2 ++ [(item.1, ECkpt o c q (Ok r))] →
        l_owner lx = Some (fc_owner config) ∧ l_counter lx = (c + 1)%N ∧ l_checkpoint lx = Some q.
Proof.
  pose proof (process_path (X := Shot) polls config schedule both_call items now mem ((∅, w), []) (both_cycle _)) as Hpath.
  pose proof (process_cut (X := Shot) polls config schedule items now mem ((∅, w), []) []) as Hcut.
  pose proof (process_accepted (W := V) polls config schedule items now mem (∅, w) item Hnd Hitem) as Hacc.
  pose proof (process_run_of src pages polls config mem schedule items now w Hnd) as Hrun.
  cbn zeta in *. unfold both_source, both_store in *. rewrite Hcut in Hacc, Hrun.
  destruct (process (W := Shot * list Shot) _ _ _ _ _ _) as [fin [mem' [[[cs' w'] log] film]]].
  cbn [fst snd] in *. clear Hcut. intros before x after ->.
  pose proof (run_hands_the_log _ _ _ _ _ item n Hnd Hrun Hitem Hknown Hn) as Hhand.
  pose proof (run_evolves _ _ _ _ _ Hnd Hrun Hknown) as Hev. cbn [fst snd] in Hhand, Hev.
  apply (stands_evolves _ _ _ _ _ Hev) in Hn as Hn'.
  destruct (both_path _ _ _ Hpath) as (_ & all & Hall & Hacks). cbn in Hall. subst all. apply (acks_proj item.1) in Hacks.
  apply path_mid in Hpath as [Hbx Hpath]. destruct (both_path _ _ _ Hpath) as (Hafter & rest & Hlog & _).
  pose proof (path_accepted st _ _ _ _ _ _ Hafter Hacc) as Hacc_x. cbn [snd strip] in Hacc_x, Hlog. subst log.
  assert (story item l (w, [])) as Hstart by (by eapply story_start).
  destruct (story_along _ _ _ _ Hothers _ _ _ _ Hbx Hacc_x Hstart) as (y & Hlast & Hyx & Hy).
  pose proof (story_call _ _ _ _ Hothers _ _ Hyx Hacc_x Hy) as (Ax & lx & HAx & Hlx & _ & Ho & Hs).
  exists lx. split; [by rewrite (represents_lookup _ _ _ HAx), Hlx|]. split_and!; [|exact Hs|].
  - intros q Hq. destruct (Ho q Hq) as [?|[?|Hask]]; [by left|by right; left|right; right].
    by eapply asked_covers.
  - intros y' o c q r Hy' Hx. rewrite Hlast in Hy'. injection Hy' as <-.
    destruct (landed _ _ _ _ Hothers _ _ _ _ _ _ Hyx Hacc_x Hy Hx) as (B & m & HB & Hm & Hown & Hc & Hq).
    pose proof (represents_lookup _ _ item.1 HAx) as Heq.
    rewrite (represents_lookup _ _ item.1 HB : rows_of (strip x).1 !! item.1 = _), Hlx, Hm in Heq.
    injection Heq as (<- & <- & <-)%lease_item_same. by split_and!.
Qed.
End cycle.
