(* ===== verification/Together.v ===== *)
(** * Two services in one world

    A world with a stream service on the left and a lease table on the right: what
    either side promises on its own it promises in the pair, where a call to one
    leaves the other as it is. *)

From Stdlib Require Import Lia.
From stdpp Require Import base gmap numbers list strings.
From S2P Require Import Prelude Core LeaseTable DynamoDb LeaseRefine Interfaces Tasks.
From S2P Require Import ChangeRecord StreamsSource StreamsReads.

Lemma on_left_run {S D A} (m : M S A) (sd : S * D) a sd' :
  on_left m sd = (a, sd') → m sd.1 = (a, sd'.1) ∧ sd'.2 = sd.2.
Proof. unfold on_left. destruct (m sd.1) as [b s'] eqn:E. by intros [= <- <-]. Qed.

Lemma lift_m_run {S D A} (m : M D A) (sd : S * D) a sd' :
  lift_m m sd = (a, sd') → m sd.2 = (a, sd'.2) ∧ sd'.1 = sd.1.
Proof. unfold lift_m. destruct (m sd.2) as [b d'] eqn:E. by intros [= <- <-]. Qed.

(** ** The stream *)

Section stream.
Context {S D : Type} `{StreamsLaws S}.

#[export] Instance left_client : StreamsClient (S * D) := {|
  sdk_describe_stream arn f start := on_left (sdk_describe_stream arn f start);
  sdk_get_shard_iterator arn sh ty q := on_left (sdk_get_shard_iterator arn sh ty q);
  sdk_get_records it limit := on_left (sdk_get_records it limit);
  sdk_sleep_ms ms := on_left (sdk_sleep_ms ms);
  sdk_unix_now_ms := on_left sdk_unix_now_ms;
|}.

#[export] Instance left_history : StreamsHistory (S * D) := {|
  shard_log w := shard_log w.1;
  trim_horizon w := trim_horizon w.1;
  sealed w := sealed w.1;
  stands_at w := stands_at w.1;
|}.

Lemma keeps_left {A} (m : M S A) : keeps evolves m → keeps evolves (on_left (D := D) m).
Proof. intros Hm [s d]. specialize (Hm s). unfold on_left. cbn. by destruct (m s). Qed.

Lemma keeps_right_of {A} (m : M D A) : keeps evolves (lift_m (S := S) m).
Proof. intros [s d]. unfold lift_m. cbn. destruct (m d). cbn. by split. Qed.

#[export] Instance left_laws : StreamsLaws (S * D).
Proof.
  split.
  - intros w. apply (log_seq w.1).
  - intros w. apply (log_seq_inj w.1).
  - intros. apply keeps_left, evolves_iterator.
  - intros. apply keeps_left, evolves_records.
  - intros. apply keeps_left, evolves_sleep.
  - apply keeps_left, evolves_now.
  - intros arn sh ty q it w w' [Hc _]%on_left_run. by apply iterator_given in Hc.
  - intros arn sh ty q w w' [Hc _]%on_left_run. by apply iterator_none in Hc.
  - intros arn sh q e w w' i r [Hc _]%on_left_run. by apply (iterator_refused _ _ _ _ _ _ i r Hc).
  - intros it limit o w w' sh m [Hc _]%on_left_run. exact (records_given it limit o w.1 w'.1 sh m Hc).
Qed.
End stream.

(** ** The table *)

Section table.
Context {S D : Type} (table : string) `{DynamoLaws D table}.

#[export] Instance right_client : DynamoClient (S * D) := {|
  describe_table t := lift_m (describe_table t);
  create_table c := lift_m (create_table c);
  update_continuous_backups t b := lift_m (update_continuous_backups t b);
  scan t start := lift_m (scan t start);
  get_item t k c := lift_m (get_item t k c);
  put_item p := lift_m (put_item p);
  update_item u := lift_m (update_item u);
  delete_item x := lift_m (delete_item x);
  sleep_ms ms := lift_m (sleep_ms ms);
|}.

#[export] Program Instance right_laws : DynamoLaws (S * D) table := {|
  rows w := rows (table := table) w.2;
  eval_cond := eval_cond (W := D) (table := table);
  eval_update := eval_update (W := D) (table := table);
  others w w' := others (W := D) (table := table) w.2 w'.2;
  other_op := other_op (W := D) (table := table);
|}.
Next Obligation. intros w w' t A Ho. exact (others_lawful D table _ _ _ _ Ho). Qed.
Next Obligation. intros. apply cond_absent. Qed.
Next Obligation. intros. by apply cond_counter. Qed.
Next Obligation. intros. by apply cond_held. Qed.
Next Obligation. intros. by apply cond_completed. Qed.
Next Obligation. intros. by apply upd_claim. Qed.
Next Obligation. intros. by apply upd_renew. Qed.
Next Obligation. intros. by apply upd_checkpoint. Qed.
Next Obligation. intros. by apply upd_complete. Qed.
Next Obligation. intros. by apply upd_release. Qed.
Next Obligation. intros. by apply upd_heartbeat. Qed.
Next Obligation.
  intros ms [s d]. pose proof (sleep_law D table ms d) as Hd. cbn. unfold lift_m. cbn.
  by destruct (sleep_ms ms d).
Qed.
Next Obligation.
  intros start [s d]. pose proof (scan_law D table start d) as Hd. cbn. unfold lift_m. cbn.
  by destruct (scan table start d).
Qed.
Next Obligation. intros k w r w' [Hc _]%lift_m_run. by apply get_law. Qed.
Next Obligation. intros k attrs cond w r w' [Hc _]%lift_m_run. by apply put_law. Qed.
Next Obligation. intros k expr cond vals ret_new w r w' [Hc _]%lift_m_run. exact (update_law D table k expr cond vals ret_new _ _ _ Hc). Qed.
Next Obligation. intros k cond vals w r w' [Hc _]%lift_m_run. exact (delete_law D table k cond vals _ _ _ Hc). Qed.
End table.
