(* ===== verification/LiveCheckpointsDemo.v ===== *)
(** * Checkpoints over a stream and a table, and a takeover

    [LiveCheckpoints]'s theorem on the stream of [StreamsDemo] beside the table of
    [DynamoSim]: the consumer acks every batch, and while it is handed the second one
    another worker takes the lease over. *)

From Stdlib Require Import Lia.
From stdpp Require Import base functions sorting gmap sets numbers list strings.
From S2P Require Import Prelude Core Coordinator Position Lineage ChangeRecord LeaseTable DynamoDb.
From S2P Require Import LeaseRefine DynamoSim Interfaces Metrics CkptDefer Tasks WorkerAws FleetState.
From S2P Require Import ShardPass Pool Fleet StreamsSource StreamsReads StreamsDemo LiveFleet LiveDemo.
From S2P Require Import Film LiveLeases LiveLeasesDemo LiveCheckpoints Together.

Abbreviation Both := (Demo * SimDb)%type.
Abbreviation leases_table := (ds_table demo_store).

#[local] Existing Instance shared_laws.

#[local] Instance acking_both : ShardConsumerFactory Both := {
  Consumer := unit;
  create _ := ret tt;
  deliver _ rs :=
    (if bool_decide (last_seq rs = Some "111111") then lift_m (set_db rival_claim) else ret tt) ;;;
    ret (Ok (last_seq rs));
  consumer_ended _ := ret (Ok tt);
  consumer_lost _ := ret (Ok tt);
}.
#[local] Instance silent_both : MetricsSink Both := {
  on_batch _ := ret tt; on_shard_end _ := ret tt; on_describe_stream := ret tt;
  on_lease_acquired _ := ret tt; on_lease_lost _ := ret tt; on_leases_held _ := ret tt;
  on_processing_slot_wait _ _ := ret tt; on_max_processing_concurrency _ := ret tt;
  on_processing_queue_depth _ := ret tt;
}.
#[local] Instance still_both : Clock Both := { instant_now := ret 0%N; sleep _ := ret tt; }.

Lemma lawful_left {A} (m : M Demo A) : keeps (lawful (table := leases_table)) (on_left (D := SimDb) m).
Proof. intros [s d]. unfold on_left. cbn. destruct (m s). intros T HT. by exists []. Qed.

Lemma ret_goes_on {A} (a : A) : both_go_on (W := Both) (table := leases_table) (ret a).
Proof. split; apply keeps_ret; apply _. Qed.

#[local] Instance acks_both : AcksDelivered Both.
Proof.
  intros c rs w q w'. cbn. unfold bind.
  destruct (bool_decide _); cbn; intros [= Hq _]; unfold last_seq in Hq;
    apply fmap_Some in Hq as (r & Hr & ->); apply last_Some_elem_of in Hr; by exists r.
Qed.

#[local] Instance shared_both : SharedWorld Both leases_table.
Proof.
  split; intros; try apply ret_goes_on; try apply lawful_left; try apply keeps_right_of.
  split; (apply keeps_bind; [apply _| |intros ?; apply keeps_ret; apply _]); cbn;
    case_match; try (apply keeps_ret; apply _); [apply keeps_right_of|].
  intros [s d]. apply rival_reaches.
Qed.

Definition both_lease : Lease := fresh_lease "s" (Some "a") 7 (Some "1") [].
Definition both_table : Table := {["s" := both_lease]}.
Definition both_start : Both :=
  ({| d_len := 6; d_trim := 2; d_sealed := false; d_script := []; d_derived := 0 |},
   {| sim_rows := {["s" := lease_item both_lease]}; sim_status := Some TableActive |}).
Definition both_items : list (string * (N * option string)) := [("s", (7%N, Some "1"))].

Abbreviation Shot := ((Cursors * Both) * PLog)%type.

#[local] Instance demo_both_source : AsyncStreamSource (Cursors * Both) := both_source (W := Both) demo_source 4.
#[local] Instance demo_both_store : AsyncLeaseStore Both := both_store (W := Both) demo_store 1.

Definition both_film : list Shot :=
  (process (W := Shot * list Shot) 12 overtaken_config [] both_items 0%N
    (overtaken_mem, (((∅, both_start), []), [])) : bool * (FleetMem * (Shot * list Shot))).2.2.2.

(** The world at the end. *)
Definition both_final : Both :=
  (process (W := Shot * list Shot) 12 overtaken_config [] both_items 0%N
    (overtaken_mem, (((∅, both_start), []), [])) : bool * (FleetMem * (Shot * list Shot))).2.2.1.1.2.

(** Whose the row is and its checkpoint, moment by moment. *)
Definition row_at (x : Shot) : option (option string * option string) :=
  (λ it : Item, ((it !! LEASE_OWNER) ≫= as_s, (it !! CHECKPOINT) ≫= as_s)) <$> sim_rows x.1.2.2 !! "s".

(** The record after the checkpoint is trimmed away; the first checkpoint names the
    second of the two records handed before it and replaces the one of the scan; the
    takeover comes with the second batch, whose checkpoint is refused. *)
Lemma checkpoints_never_run_ahead_witness :
  (∀ before x after, both_film = before ++ x :: after →
    let calls := proj "s" x.2 in
    ∃ lx, sim_rows x.1.2.2 !! "s" = Some (lease_item lx) ∧
      (∀ q, l_checkpoint lx = Some q →
         Some "1" = Some q ∨ (∃ o c, rivals (OpCheckpoint "s" o c q)) ∨ covers both_final "s" 1 calls q) ∧
      (l_counter lx = counter_of 7 calls → l_checkpoint lx = saved_of (Some "1") calls) ∧
      ∀ y o c q r, last (((∅, both_start), []) :: before) = Some y → x.2 = y.2 ++ [("s", ECkpt o c q (Ok r))] →
        l_owner lx = Some "a" ∧ l_counter lx = (c + 1)%N ∧ l_checkpoint lx = Some q) ∧
  stands both_start "s" (resume_at "a" overtaken_mem ("s", (7%N, Some "1"))) 1 ∧
  (λ x, (row_at x, rec_seq <$> handed (proj "s" x.2))) <$> drop 4 both_film =
    (Some (Some "a", Some "1"), []) :: (Some (Some "a", Some "1"), ["111"; "1111"]) ::
    replicate 3 (Some (Some "a", Some "1111"), ["111"; "1111"]) ++
    replicate 5 (Some (Some "b", Some "1111"), ["111"; "1111"; "11111"; "111111"]) ∧
  sim_rows both_final.2 = {["s" := lease_item (fresh_lease "s" (Some "b") 9 (Some "1111") [])]}.
Proof.
  assert (stands both_start "s" (resume_at "a" overtaken_mem ("s", (7%N, Some "1"))) 1) as Hn.
  { split; [done|]. exists 0, (demo_record 0). done. }
  split; [|split; [exact Hn|repeat split; vm_compute; reflexivity]].
  assert (NoDup both_items.*1) as Hnd by (apply NoDup_singleton).
  assert (represents (rows (W := Both) (table := leases_table) both_start) both_table) as Hrep.
  { split; [unfold both_table; by rewrite map_fmap_singleton|]. intros k l Hl. unfold both_table in Hl.
    by apply lookup_singleton_Some in Hl as [<- <-]. }
  assert (∀ it, it ∈ both_items → known both_start it.1 (resume_at "a" overtaken_mem it)) as Hknown.
  { intros it Hit. apply list_elem_of_singleton in Hit as ->. right. by exists 1. }
  assert (∀ op, rivals op → op ≠ OpDelete "s") as Hothers by (by intros [] ?).
  pose proof (checkpoints_never_run_ahead demo_store demo_source 4 12 overtaken_config overtaken_mem []
    both_items 0%N both_start both_table ("s", (7%N, Some "1")) both_lease 1 Hnd Hrep Hknown
    (list_elem_of_here _ _) eq_refl (N.le_refl 7) (λ _, eq_refl) Hn Hothers) as H.
  revert H. unfold both_film, both_final, demo_both_source, demo_both_store.
  destruct (process _ _ _ _ _ _) as [fin [mem [[[cs w] log] film]]]. intros H. exact H.
Defined.
