(* ===== verification/Protocol.v ===== *)
(** * The wire protocol of the sidecar ([protocol/src/lib.rs])

    The messages between the sidecar and the client library, one JSON object per
    line.  The JSON text of a message belongs to serde and is an interface
    ([Wire]); the framing is the protocol's own. *)

From Stdlib Require Import Lia.
From stdpp Require Import base numbers list strings.
From S2P Require Import Prelude Core ChangeRecord.

Inductive ServerMessage :=
| Records (shard last_seq : string) (records : list StreamRecord)
| ShardComplete (shard : string)
| ShutdownRequested (shard : string)
| LeaseLost (shard : string)
| Shutdown (reason : string).

Inductive ClientMessage :=
| Ready
| Checkpoint (shard seq : string)
| Stop.

(** [serde_json::to_string] and [serde_json::from_str] at a type of messages. *)
Class Wire (Msg : Type) := {
  to_json : Msg → string;
  from_str : string → Result Msg WorkerError;
}.

Definition newline : Ascii.ascii := "010"%char.
Definition carriage_return : Ascii.ascii := "013"%char.

Definition is_eol (c : Ascii.ascii) : bool :=
  bool_decide (c = newline) || bool_decide (c = carriage_return).

(** [line.trim_end_matches(['\n', '\r'])]. *)
Fixpoint trim_eol (s : string) : string :=
  match s with
  | EmptyString => EmptyString
  | String c s' =>
      match trim_eol s' with
      | EmptyString => if is_eol c then EmptyString else String c EmptyString
      | t => String c t
      end
  end.

Section messages.
Context {Msg : Type} `{Wire Msg}.

Definition to_line (m : Msg) : string := String.append (to_json m) (String newline EmptyString).

Definition Protocol_parse (line : string) : Result Msg WorkerError := from_str (trim_eol line).
End messages.

(** ** Framing *)

Definition free_of_eol (s : string) : Prop :=
  str_contains newline s = false ∧ str_contains carriage_return s = false.

(** A message reads back from its JSON text, in which serde escapes every control
    character. *)
Class WireLaws (Msg : Type) `{Wire Msg} := {
  from_to_json : ∀ m, from_str (to_json m) = Ok m;
  json_one_line : ∀ m, free_of_eol (to_json m);
}.

(** The lines of a byte stream, as the reader of the other side gets them. *)
Class LineReader := {
  lines : string → list string;
  lines_empty : lines EmptyString = [];
  lines_cons : ∀ l rest, free_of_eol l →
    lines (String.append l (String newline rest)) = l :: lines rest;
}.

Lemma free_of_eol_cons c s : free_of_eol (String c s) → is_eol c = false ∧ free_of_eol s.
Proof.
  intros [Hn Hr]. cbn in *. apply orb_false_iff in Hn as [Hn ?], Hr as [Hr ?].
  apply bool_decide_eq_false in Hn, Hr. split; [|done]. unfold is_eol.
  by rewrite !bool_decide_eq_false_2.
Qed.

Lemma trim_eol_free s : free_of_eol s → trim_eol s = s.
Proof.
  induction s as [|c s IH]; [done|]. intros [Hc Hs]%free_of_eol_cons. cbn. rewrite IH by done.
  rewrite Hc. by destruct s.
Qed.

Lemma trim_eol_line s : free_of_eol s → trim_eol (String.append s (String newline EmptyString)) = s.
Proof.
  induction s as [|c s IH]; [done|]. intros [Hc Hs]%free_of_eol_cons. change (String.append (String c s) ?t) with (String c (String.append s t)).
  cbn [trim_eol]. rewrite IH by done. rewrite Hc. by destruct s.
Qed.

Definition stream_of {Msg} `{Wire Msg} (ms : list Msg) : string :=
  foldr (λ m s, String.append (to_line m) s) EmptyString ms.

Lemma string_app_assoc s t u : String.append (String.append s t) u = String.append s (String.append t u).
Proof. induction s as [|c s IH]; [done|]. exact (f_equal (String c) IH). Qed.

Section framing.
Context {Msg : Type} `{WireLaws Msg} `{LineReader}.

Lemma lines_stream (ms : list Msg) : lines (stream_of ms) = to_json <$> ms.
Proof.
  induction ms as [|m ms IH]; [apply lines_empty|]. cbn [stream_of foldr].
  unfold to_line. rewrite string_app_assoc.
  change (lines (String.append (to_json m) (String newline (stream_of ms))) = to_json m :: (to_json <$> ms)).
  rewrite lines_cons by apply json_one_line. by rewrite IH.
Qed.

(** C40: the framing is unambiguous: whatever messages one side writes, one line after
    the other, the other side reads as exactly those messages in that order; and a
    line reads the same with or without its line end. *)
Theorem framed_messages_roundtrip (ms : list Msg) :
  Protocol_parse <$> lines (stream_of ms) = Ok <$> ms ∧
  ∀ m : Msg, Protocol_parse (to_line m) = Ok m ∧ Protocol_parse (to_json m) = Ok m.
Proof.
  assert (∀ m : Msg, Protocol_parse (to_json m) = Ok m) as Hp.
  { intros m. unfold Protocol_parse. rewrite trim_eol_free by apply json_one_line. apply from_to_json. }
  split.
  - rewrite lines_stream, <- list_fmap_compose. apply list_fmap_ext. intros i m _. apply Hp.
  - intros m. split; [|apply Hp]. unfold Protocol_parse, to_line.
    rewrite trim_eol_line by apply json_one_line. apply from_to_json.
Qed.
End framing.
