(* ===== verification/Ipc.v ===== *)
(** * The client session of the sidecar ([sidecar/src/ipc.rs])

    A shard task hands a batch to the client and waits for the client's checkpoint
    on that shard; a reader task routes each checkpoint line to the task waiting for
    it.  [Ipc] is what they share: the waiters (one-shot channels) by shard and the
    stop flag.  Their interleavings are a step relation over the operations of the
    code ([step]), with a history of what the client and the fleet saw. *)

From stdpp Require Import base gmap numbers list strings relations.
From S2P Require Import Prelude Core ChangeRecord Protocol Interfaces Tasks.

(** A [oneshot] channel, seen from its receiver. *)
Inductive OneShot := Waiting | Sent (seq : string) | Dropped.

(** [ipc_channels] is the memory the channels live in. *)
Record Ipc := {
  ipc_pending : gmap ShardId nat;
  ipc_stopped : bool;
  ipc_channels : gmap nat OneShot;
}.

Definition Ipc_new : Ipc := {| ipc_pending := ∅; ipc_stopped := false; ipc_channels := ∅ |}.

(** [tx.send(seq)], and the drop of a sender: both do nothing to a channel that is
    resolved already. *)
Definition resolve (ch : nat) (r : OneShot) (i : Ipc) : Ipc :=
  {| ipc_pending := ipc_pending i; ipc_stopped := ipc_stopped i;
     ipc_channels := alter (λ o, match o with Waiting => r | o => o end) ch (ipc_channels i) |}.

Definition set_pending (p : gmap ShardId nat) (i : Ipc) : Ipc :=
  {| ipc_pending := p; ipc_stopped := ipc_stopped i; ipc_channels := ipc_channels i |}.

(** [pending.remove(shard)] with the sender dropped. *)
Definition forget_waiter (shard : ShardId) (i : Ipc) : Ipc :=
  match ipc_pending i !! shard with
  | Some ch => resolve ch Dropped (set_pending (delete shard (ipc_pending i)) i)
  | None => i
  end.

(** [oneshot::channel()] and [pending.insert(shard, tx)]: a sender that was there
    is dropped. *)
Definition register (shard : ShardId) (i : Ipc) : nat * Ipc :=
  let i := forget_waiter shard i in
  let ch := fresh (dom (ipc_channels i)) in
  (ch, {| ipc_pending := <[shard := ch]> (ipc_pending i); ipc_stopped := ipc_stopped i;
          ipc_channels := <[ch := Waiting]> (ipc_channels i) |}).

Definition signal_stop (i : Ipc) : Ipc :=
  {| ipc_pending := ipc_pending i; ipc_stopped := true; ipc_channels := ipc_channels i |}.

Definition request_stop (i : Ipc) : Ipc := signal_stop i.

Definition is_stopped (i : Ipc) : bool := ipc_stopped i.

Definition route_ack (shard : ShardId) (seq : string) (i : Ipc) : Ipc :=
  match ipc_pending i !! shard with
  | Some ch => resolve ch (Sent seq) (set_pending (delete shard (ipc_pending i)) i)
  | None => i
  end.

(** [rx.await.ok()], once the channel is resolved. *)
Definition received (i : Ipc) (ch : nat) : option (option string) :=
  match ipc_channels i !! ch with
  | Some (Sent q) => Some (Some q)
  | Some Dropped => Some None
  | _ => None
  end.

(** What [next_line] gives. *)
Inductive ReadEvent := Line (line : string) | Eof | ReadError.

(** One round of the reader; whether it goes on. *)
Definition reader_round `{Wire ClientMessage} (ev : ReadEvent) (i : Ipc) : bool * Ipc :=
  match ev with
  | Line line =>
      if bool_decide (trim line = EmptyString) then (true, i)
      else
        match Protocol_parse line with
        | Ok (Checkpoint shard seq) => (true, route_ack shard seq i)
        | Ok Ready => (true, i)
        | Ok Stop => (false, signal_stop i)
        | Err _ => (true, i)
        end
  | Eof | ReadError => (false, signal_stop i)
  end.

(** ** Delivery as the shard task runs it *)

(** The client's stream ([write_all] and [flush]), and what the other tasks do while
    this one waits. *)
Class ClientConn (W : Type) := {
  conn_write : string → M W (Result unit WorkerError);
  other_tasks : M (Ipc * W) unit;
}.

Section delivery.
Context `{Wire ServerMessage, RecordCodec} {W : Type} `{ClientConn W}.
Abbreviation I := (M (Ipc * W)).

Definition ipc_do (f : Ipc → Ipc) : I unit := λ iw, (tt, (f iw.1, iw.2)).

Definition send (msg : ServerMessage) : I (Result unit WorkerError) :=
  lift_m (conn_write (to_line msg)).

Definition shutdown (reason : string) : I unit := _ <- send (Shutdown reason) ;; ret tt.

Definition shutdown_requested (shard : string) : I unit :=
  _ <- send (ShutdownRequested shard) ;; ret tt.

(** [rx.await]; [None] when the channel is not resolved after that many turns of the
    other tasks. *)
Fixpoint await_ack (turns : nat) (ch : nat) : I (option (option string)) :=
  r <- (λ iw, (received iw.1 ch, iw)) ;;
  match r, turns with
  | Some ack, _ => ret (Some ack)
  | None, S turns' => other_tasks ;;; await_ack turns' ch
  | None, O => ret None
  end.

Definition deliver_batch (turns : nat) (shard : ShardId) (last_seq : string)
    (records : list StreamRecord) : I (option (option string)) :=
  ch <- (λ iw, let '(ch, i) := register shard iw.1 in (ch, (i, iw.2))) ;;
  r <- send (Records shard last_seq records) ;;
  match r with
  | Err _ => ipc_do (forget_waiter shard) ;;; ret (Some None)
  | Ok _ => await_ack turns ch
  end.

(** A payload that does not decode is left out of the message. *)
Definition decode_payload (r : Record_) : option StreamRecord :=
  match decode (rec_data r) with Ok sr => Some sr | Err _ => None end.

Definition consumer_deliver (turns : nat) (shard : ShardId) (records : list Record_)
  : I (Result (option string) WorkerError) :=
  match last_seq records with
  | None => ret (Ok None)
  | Some last_seq =>
      ack <- deliver_batch turns shard last_seq (omap (M := list) decode_payload records) ;;
      ret (match ack with
           | Some ack => Ok ack
           | None => Err "the delivery is still waiting for the client"
           end)
  end.

Definition consumer_shard_ended (shard : ShardId) : I (Result unit WorkerError) :=
  _ <- send (ShardComplete shard) ;; ret (Ok tt).

Definition consumer_lease_lost (shard : ShardId) : I (Result unit WorkerError) :=
  _ <- send (LeaseLost shard) ;; ret (Ok tt).

(** One consumer per shard; [turns] is how long a delivery may wait. *)
Definition ipc_factory (turns : nat) : ShardConsumerFactory (Ipc * W) := {|
  create := λ shard, ret shard;
  deliver := consumer_deliver turns;
  consumer_ended := consumer_shard_ended;
  consumer_lost := consumer_lease_lost;
|}.
End delivery.

(** ** The session as a state machine *)

(** Where a shard task is in [deliver_batch]. *)
Inductive Delivery :=
| Registered (ch : nat) (msg : ServerMessage)
| Awaiting (ch : nat).

Record Session := {
  ses_ipc : Ipc;
  ses_reading : bool;
  ses_deliveries : gmap ShardId Delivery;
}.

Definition Session_new : Session :=
  {| ses_ipc := Ipc_new; ses_reading := true; ses_deliveries := ∅ |}.

Inductive Event :=
| Handed (shard : ShardId) (last_seq : string) (records : list StreamRecord)
| Wrote (msg : ServerMessage)
| Acked (shard : ShardId) (seq : string)
| Returned (shard : ShardId) (ack : option string).

(** The checkpoint a line carries, if it is one. *)
Definition acks `{Wire ClientMessage} (ev : ReadEvent) : list Event :=
  match ev with
  | Line line =>
      if bool_decide (trim line = EmptyString) then []
      else match Protocol_parse line with Ok (Checkpoint shard seq) => [Acked shard seq] | _ => [] end
  | _ => []
  end.

(** A shard is processed by one task at a time, so a batch is handed over only when
    no other delivery of the shard is under way. *)
Inductive step `{Wire ClientMessage} : Session → list Event → Session → Prop :=
| step_hand i reading ds shard last_seq records ch i' :
    ds !! shard = None → register shard i = (ch, i') →
    step {| ses_ipc := i; ses_reading := reading; ses_deliveries := ds |}
      [Handed shard last_seq records]
      {| ses_ipc := i'; ses_reading := reading;
         ses_deliveries := <[shard := Registered ch (Records shard last_seq records)]> ds |}
| step_wrote i reading ds shard ch msg :
    ds !! shard = Some (Registered ch msg) →
    step {| ses_ipc := i; ses_reading := reading; ses_deliveries := ds |}
      [Wrote msg]
      {| ses_ipc := i; ses_reading := reading; ses_deliveries := <[shard := Awaiting ch]> ds |}
| step_not_written i reading ds shard ch msg :
    ds !! shard = Some (Registered ch msg) →
    step {| ses_ipc := i; ses_reading := reading; ses_deliveries := ds |}
      [Returned shard None]
      {| ses_ipc := forget_waiter shard i; ses_reading := reading; ses_deliveries := delete shard ds |}
| step_wake i reading ds shard ch ack :
    ds !! shard = Some (Awaiting ch) → received i ch = Some ack →
    step {| ses_ipc := i; ses_reading := reading; ses_deliveries := ds |}
      [Returned shard ack]
      {| ses_ipc := i; ses_reading := reading; ses_deliveries := delete shard ds |}
| step_read i ds ev reading' i' :
    reader_round ev i = (reading', i') →
    step {| ses_ipc := i; ses_reading := true; ses_deliveries := ds |}
      (acks ev)
      {| ses_ipc := i'; ses_reading := reading'; ses_deliveries := ds |}
| step_stop i reading ds :
    step {| ses_ipc := i; ses_reading := reading; ses_deliveries := ds |}
      []
      {| ses_ipc := request_stop i; ses_reading := reading; ses_deliveries := ds |}.

Inductive steps `{Wire ClientMessage} : Session → list Event → Session → Prop :=
| steps_refl s : steps s [] s
| steps_step s h s1 evs s2 : steps s h s1 → step s1 evs s2 → steps s (h ++ evs) s2.

(** ** Deliveries are gated on acks *)

(** One shard as the history tells it: no batch is out, or one is (was it written?
    what did the client first answer since it was handed over?). *)
Definition Gate : Type := option (bool * option string).

(** [None] where the code does not go. *)
Definition gate_step (shard : ShardId) (g : Gate) (ev : Event) : option Gate :=
  match ev with
  | Handed s _ _ =>
      if decide (s = shard) then match g with None => Some (Some (false, None)) | Some _ => None end
      else Some g
  | Wrote (Records s _ _) =>
      if decide (s = shard)
      then match g with Some (false, a) => Some (Some (true, a)) | _ => None end
      else Some g
  | Wrote _ => Some g
  | Acked s q =>
      if decide (s = shard)
      then Some (match g with Some (w, None) => Some (w, Some q) | g => g end)
      else Some g
  | Returned s (Some q) =>
      if decide (s = shard)
      then match g with Some (true, Some q') => if decide (q = q') then Some None else None | _ => None end
      else Some g
  | Returned s None =>
      if decide (s = shard) then match g with Some (false, _) => Some None | _ => None end
      else Some g
  end.

Fixpoint gate_run (shard : ShardId) (g : Gate) (h : list Event) : option Gate :=
  match h with
  | [] => Some g
  | ev :: h' => g' ← gate_step shard g ev; gate_run shard g' h'
  end.

Lemma gate_run_app shard g h1 h2 :
  gate_run shard g (h1 ++ h2) = (gate_run shard g h1 ≫= λ g', gate_run shard g' h2).
Proof.
  revert g. induction h1 as [|ev h1 IH]; intros g; cbn; [done|].
  destruct (gate_step shard g ev); cbn; [apply IH|done].
Qed.

Definition channel_of (d : Delivery) : nat :=
  match d with Registered ch _ | Awaiting ch => ch end.

(** The channel of a delivery agrees with what the client has answered. *)
Definition channel_ok (i : Ipc) (shard : ShardId) (ch : nat) (a : option string) : Prop :=
  match a with
  | None => ipc_pending i !! shard = Some ch ∧ ipc_channels i !! ch = Some Waiting
  | Some q => ipc_pending i !! shard = None ∧ ipc_channels i !! ch = Some (Sent q)
  end.

Definition delivery_ok (i : Ipc) (shard : ShardId) (d : option Delivery) (g : Gate) : Prop :=
  match d with
  | None => g = None ∧ ipc_pending i !! shard = None
  | Some (Registered ch msg) =>
      (∃ last records, msg = Records shard last records) ∧ ∃ a, g = Some (false, a) ∧ channel_ok i shard ch a
  | Some (Awaiting ch) => ∃ a, g = Some (true, a) ∧ channel_ok i shard ch a
  end.

Definition distinct_channels (ds : gmap ShardId Delivery) : Prop :=
  ∀ s1 s2 d1 d2, ds !! s1 = Some d1 → ds !! s2 = Some d2 → channel_of d1 = channel_of d2 → s1 = s2.

Definition session_ok (s : Session) (gs : ShardId → Gate) : Prop :=
  distinct_channels (ses_deliveries s) ∧
  ∀ shard, delivery_ok (ses_ipc s) shard (ses_deliveries s !! shard) (gs shard).

Lemma delivery_channel i shard d g :
  delivery_ok i shard (Some d) g → is_Some (ipc_channels i !! channel_of d).
Proof.
  destruct d as [ch msg|ch]; cbn; [intros [_ (a & _ & Hc)]|intros (a & _ & Hc)];
    destruct a; cbn in Hc; destruct Hc as [_ ->]; eauto.
Qed.

(** Another shard's delivery does not see a change to this shard's waiter. *)
Lemma delivery_frame i i' shard d g :
  delivery_ok i shard d g → ipc_pending i' !! shard = ipc_pending i !! shard →
  (∀ d', d = Some d' → ipc_channels i' !! channel_of d' = ipc_channels i !! channel_of d') →
  delivery_ok i' shard d g.
Proof.
  intros Hd Hp Hc. destruct d as [[ch msg|ch]|]; cbn in *; rewrite ?Hp; [| |done];
    specialize (Hc _ eq_refl); cbn in Hc.
  - destruct Hd as [? (a & -> & Ha)]. split; [done|]. exists a. split; [done|].
    destruct a; cbn in *; by rewrite Hp, Hc.
  - destruct Hd as (a & -> & Ha). exists a. split; [done|]. destruct a; cbn in *; by rewrite Hp, Hc.
Qed.

Lemma distinct_insert ds shard d :
  distinct_channels ds → (∀ s d', s ≠ shard → ds !! s = Some d' → channel_of d' ≠ channel_of d) →
  distinct_channels (<[shard := d]> ds).
Proof.
  intros Hds Hd s1 s2 d1 d2 H1 H2 He.
  apply lookup_insert_Some in H1 as [[<- <-]|[Hn1 H1]], H2 as [[<- <-]|[Hn2 H2]]; [done| | |eauto].
  - destruct (Hd s2 d2); congruence.
  - destruct (Hd s1 d1); congruence.
Qed.

Lemma distinct_delete ds shard : distinct_channels ds → distinct_channels (delete shard ds).
Proof.
  intros Hds s1 s2 d1 d2 [_ H1]%lookup_delete_Some [_ H2]%lookup_delete_Some. eauto.
Qed.

Section gated.
Context `{Wire ClientMessage}.

Lemma gate_other shard s evs g :
  Forall (λ ev, match ev with
           | Handed s' _ _ | Wrote (Records s' _ _) | Acked s' _ | Returned s' _ => s' = shard
           | Wrote _ => True end) evs →
  s ≠ shard → gate_run s g evs = Some g.
Proof.
  intros Hall Hne. induction Hall as [|ev evs Hev _ IH]; cbn; [done|].
  assert (gate_step s g ev = Some g) as ->; [|exact IH].
  destruct ev as [s' ? ?|[]|s' ?|s' [?|]]; cbn; try done; subst; by rewrite decide_False.
Qed.

(** A step that changes one shard's delivery only. *)
Lemma one_shard i reading ds gs shard evs i' reading' ds' g' :
  session_ok {| ses_ipc := i; ses_reading := reading; ses_deliveries := ds |} gs →
  Forall (λ ev, match ev with
           | Handed s' _ _ | Wrote (Records s' _ _) | Acked s' _ | Returned s' _ => s' = shard
           | Wrote _ => True end) evs →
  gate_run shard (gs shard) evs = Some g' →
  delivery_ok i' shard (ds' !! shard) g' → distinct_channels ds' →
  (∀ s, s ≠ shard → ds' !! s = ds !! s ∧ ipc_pending i' !! s = ipc_pending i !! s ∧
    ∀ d, ds !! s = Some d → ipc_channels i' !! channel_of d = ipc_channels i !! channel_of d) →
  ∃ gs', (∀ s, gate_run s (gs s) evs = Some (gs' s)) ∧
    session_ok {| ses_ipc := i'; ses_reading := reading'; ses_deliveries := ds' |} gs'.
Proof.
  intros [_ Hok] Hev Hg Hd Hdist Hframe.
  exists (λ s, if decide (s = shard) then g' else gs s). split; [|split; [exact Hdist|]].
  - intros s. case_decide as Hs; [by subst|]. by eapply gate_other.
  - intros s. cbn. case_decide as Hs; [by subst|]. destruct (Hframe s Hs) as (-> & Hp & Hc).
    eapply delivery_frame; [apply Hok|done|]. intros d Hds. by apply Hc.
Qed.

Lemma forget_none shard i : ipc_pending i !! shard = None → forget_waiter shard i = i.
Proof. intros Hp. unfold forget_waiter. by rewrite Hp. Qed.

Lemma resolve_other ch ch' r i : ch' ≠ ch → ipc_channels (resolve ch r i) !! ch' = ipc_channels i !! ch'.
Proof. intros Hne. cbn. by rewrite lookup_alter_ne. Qed.

(** The client's answer reaches the delivery that waits for it. *)
Lemma routed i reading ds gs shard q reading' :
  session_ok {| ses_ipc := i; ses_reading := reading; ses_deliveries := ds |} gs →
  ∃ gs', (∀ s, gate_run s (gs s) [Acked shard q] = Some (gs' s)) ∧
    session_ok {| ses_ipc := route_ack shard q i; ses_reading := reading'; ses_deliveries := ds |} gs'.
Proof.
  intros Hok. pose proof Hok as [Hdist Hd]. cbn in Hdist, Hd. specialize (Hd shard).
  unfold route_ack. destruct (ipc_pending i !! shard) as [ch|] eqn:Hp.
  - assert (∃ d w, ds !! shard = Some d ∧ channel_of d = ch ∧ gs shard = Some (w, None) ∧
      ipc_channels i !! ch = Some Waiting ∧
      (∀ i' a, channel_ok i' shard ch a → delivery_ok i' shard (Some d) (Some (w, a))))
      as (d & w & Hds & Hch & Hg & Hw & Hd').
    { destruct (ds !! shard) as [[ch' msg|ch']|]; cbn in Hd; [| |by destruct Hd; congruence].
      - destruct Hd as [Hm (a & -> & Ha)]. destruct a; cbn in Ha; destruct Ha as [Hp' Hc]; [congruence|].
        exists (Registered ch' msg), false. assert (ch' = ch) as -> by congruence. cbn. eauto 10.
      - destruct Hd as (a & -> & Ha). destruct a; cbn in Ha; destruct Ha as [Hp' Hc]; [congruence|].
        exists (Awaiting ch'), true. assert (ch' = ch) as -> by congruence. cbn. eauto 10. }
    eapply (one_shard i); [exact Hok|by repeat constructor| | |exact Hdist|].
    + cbn. rewrite decide_True by done. by rewrite Hg.
    + rewrite Hds. apply Hd'. cbn. rewrite lookup_delete_eq. split; [done|].
      by rewrite lookup_alter_eq, Hw.
    + intros s Hs. cbn. rewrite lookup_delete_ne by done. split_and!; [done..|].
      intros d' Hs'. rewrite lookup_alter_ne; [done|]. intros He. apply Hs. eapply Hdist; [done..|congruence].
  - eapply (one_shard i) with (g' := gs shard); [exact Hok|by repeat constructor| |done|exact Hdist|done].
    cbn. rewrite decide_True by done. do 2 f_equal.
    destruct (ds !! shard) as [[ch' msg|ch']|]; cbn in Hd.
    + destruct Hd as [_ (a & -> & Ha)]. destruct a; cbn in Ha; [done|destruct Ha; congruence].
    + destruct Hd as (a & -> & Ha). destruct a; cbn in Ha; [done|destruct Ha; congruence].
    + by destruct Hd as [-> _].
Qed.

Lemma session_step s evs s' gs :
  session_ok s gs → step s evs s' →
  ∃ gs', (∀ sh, gate_run sh (gs sh) evs = Some (gs' sh)) ∧ session_ok s' gs'.
Proof.
  intros Hok Hstep. pose proof Hok as [Hdist Hd].
  destruct Hstep as [i reading ds shard last records ch i' Hnone Hreg|i reading ds shard ch msg Hds
    |i reading ds shard ch msg Hds|i reading ds shard ch ack Hds Hrec|i ds ev reading' i' Hrd|i reading ds];
    cbn in Hdist, Hd.
  - (* handed over *)
    pose proof (Hd shard) as Hsh. rewrite Hnone in Hsh. destruct Hsh as [Hg Hp].
    unfold register in Hreg. rewrite forget_none in Hreg by done. injection Hreg as <- <-.
    set (ch := fresh (dom (ipc_channels i))).
    assert (ipc_channels i !! ch = None) as Hfresh.
    { apply not_elem_of_dom. apply is_fresh. }
    assert (∀ s d, ds !! s = Some d → channel_of d ≠ ch) as Hne.
    { intros s d Hs He. specialize (Hd s). rewrite Hs in Hd. apply delivery_channel in Hd as [o Ho].
      congruence. }
    eapply (one_shard i); [exact Hok|by repeat constructor| | | |].
    + cbn. rewrite decide_True by done. by rewrite Hg.
    + rewrite lookup_insert_eq. cbn. split; [eauto|]. exists None. split; [done|]. cbn.
      by rewrite !lookup_insert_eq.
    + apply distinct_insert; [done|]. intros s d _ Hs. by eapply Hne.
    + intros s Hs. cbn. rewrite !lookup_insert_ne by done. split_and!; [done..|].
      intros d Hsd. rewrite lookup_insert_ne; [done|]. intros He. by eapply Hne.
  - (* written *)
    pose proof (Hd shard) as Hsh. rewrite Hds in Hsh. destruct Hsh as [(last & records & ->) (a & Hg & Ha)].
    eapply (one_shard i); [exact Hok|by repeat constructor| | | |].
    + cbn. rewrite decide_True by done. by rewrite Hg.
    + rewrite lookup_insert_eq. exists a. done.
    + apply distinct_insert; [done|]. intros s d Hne Hs He. apply Hne. by eapply Hdist.
    + intros s Hs. by rewrite lookup_insert_ne.
  - (* not written *)
    pose proof (Hd shard) as Hsh. rewrite Hds in Hsh. destruct Hsh as [_ (a & Hg & Ha)].
    eapply (one_shard i); [exact Hok|by repeat constructor| | |by apply distinct_delete|].
    + cbn. rewrite decide_True by done. by rewrite Hg.
    + rewrite lookup_delete_eq. split; [done|]. destruct a as [q|]; cbn in Ha; destruct Ha as [Hp Hc].
      * by rewrite forget_none.
      * unfold forget_waiter. rewrite Hp. cbn. by rewrite lookup_delete_eq.
    + intros s Hs. rewrite lookup_delete_ne by done.
      unfold forget_waiter. destruct (ipc_pending i !! shard) as [ch'|] eqn:Hp; [|done].
      destruct a as [q|]; cbn in Ha; destruct Ha as [Hp' Hc]; [congruence|].
      cbn. rewrite lookup_delete_ne by done. split_and!; [done..|].
      intros d Hsd. rewrite lookup_alter_ne; [done|]. intros He. apply Hs. eapply Hdist; [done..|].
      cbn. congruence.
  - (* woken *)
    pose proof (Hd shard) as Hsh. rewrite Hds in Hsh. destruct Hsh as (a & Hg & Ha).
    assert (∃ q, a = Some q ∧ ack = Some q ∧ ipc_pending i !! shard = None) as (q & -> & -> & Hp).
    { unfold received in Hrec. destruct a as [q|]; cbn in Ha; destruct Ha as [Hp Hc]; rewrite Hc in Hrec;
        [|done]. injection Hrec as <-. eauto. }
    eapply (one_shard i); [exact Hok|by repeat constructor| | |by apply distinct_delete|].
    + cbn. rewrite !decide_True by done. rewrite Hg. by rewrite decide_True.
    + by rewrite lookup_delete_eq.
    + intros s Hs. by rewrite lookup_delete_ne.
  - (* a line was read *)
    assert (∀ i2, ipc_pending i2 = ipc_pending i → ipc_channels i2 = ipc_channels i →
      session_ok {| ses_ipc := i2; ses_reading := reading'; ses_deliveries := ds |} gs) as Hsame.
    { intros i2 Hp Hc. split; [exact Hdist|]. intros s. eapply delivery_frame; [apply Hd|by cbn; rewrite Hp|].
      intros d _. cbn. by rewrite Hc. }
    destruct ev as [line| |]; cbn in Hrd |- *; [|injection Hrd as <- <-; exists gs; by split; [|apply Hsame]..].
    case_bool_decide; [injection Hrd as <- <-; exists gs; by split; [|apply Hsame]|].
    destruct (Protocol_parse line) as [[|shard q|]|e]; injection Hrd as <- <-;
      [exists gs; by split; [|apply Hsame]|by eapply routed|exists gs; by split; [|apply Hsame]..].
  - (* a stop was requested *)
    exists gs. split; [done|]. split; [exact Hdist|]. intros s. by eapply delivery_frame; [apply Hd|..].
Qed.

Lemma session_steps s h s' gs :
  session_ok s gs → steps s h s' →
  ∃ gs', (∀ sh, gate_run sh (gs sh) h = Some (gs' sh)) ∧ session_ok s' gs'.
Proof.
  intros Hok Hs. induction Hs as [s|s h s1 evs s2 _ IH Hstep]; [by exists gs|].
  destruct (IH Hok) as (gs1 & Hg1 & Hok1). destruct (session_step _ _ _ _ Hok1 Hstep) as (gs2 & Hg2 & Hok2).
  exists gs2. split; [|done]. intros sh. rewrite gate_run_app, Hg1. apply Hg2.
Qed.

Lemma session_new_ok : session_ok Session_new (λ _, None).
Proof. split; [|done]. intros s1 s2 d1 d2 H1. cbn in H1. by rewrite lookup_empty in H1. Qed.

(** C14: delivery to the client is gated on its ack, however the shard tasks, the
    reader and the stop requests interleave: of each shard the history is a run of
    the gate, so a batch is handed over only when the last one has returned; a
    delivery that returns a sequence was written, and returns what the client's first
    checkpoint on that shard said since the batch was handed over, each checkpoint
    ending one delivery at most; and it returns nothing only when the batch could not
    be written. *)
Theorem deliveries_are_ack_gated h s shard :
  steps Session_new h s → ∃ g, gate_run shard None h = Some g ∧
    (g = None ↔ ses_deliveries s !! shard = None).
Proof.
  intros Hs. destruct (session_steps _ _ _ _ session_new_ok Hs) as (gs & Hg & _ & Hd).
  exists (gs shard). split; [apply Hg|]. specialize (Hd shard).
  destruct (ses_deliveries s !! shard) as [[ch msg|ch]|]; cbn in Hd.
  - destruct Hd as [_ (a & -> & _)]. done.
  - destruct Hd as (a & -> & _). done.
  - destruct Hd as [-> _]. done.
Qed.

(** A delivery waits for a client that is no longer read. *)
Definition abandoned (shard : ShardId) (ch : nat) (s : Session) : Prop :=
  ses_reading s = false ∧ ses_deliveries s !! shard = Some (Awaiting ch) ∧
  ∃ gs, session_ok s gs ∧ gs shard = Some (true, None).

Lemma abandoned_unresolved shard ch s : abandoned shard ch s → received (ses_ipc s) ch = None.
Proof.
  intros (_ & Hds & gs & [_ Hd] & Hg). specialize (Hd shard). rewrite Hds, Hg in Hd.
  destruct Hd as (a & Ha & Hc). injection Ha as <-. destruct Hc as [_ Hc]. unfold received. by rewrite Hc.
Qed.

Lemma abandoned_step shard ch s evs s' : abandoned shard ch s → step s evs s' → abandoned shard ch s'.
Proof.
  intros Hab Hstep. pose proof (abandoned_unresolved _ _ _ Hab) as Hnone.
  destruct Hab as (Hrd & Hds & gs & Hok & Hg).
  destruct (session_step _ _ _ _ Hok Hstep) as (gs' & Hgs & Hok').
  assert (ses_reading s' = false ∧ ses_deliveries s' !! shard = Some (Awaiting ch) ∧
    gate_run shard (Some (true, None)) evs = Some (Some (true, None))) as (? & ? & Hrun).
  { destruct Hok as [_ Hd].
    destruct Hstep as [i reading ds sh last records ch' i' Hsh|i reading ds sh ch' msg Hsh
      |i reading ds sh ch' msg Hsh|i reading ds sh ch' ack Hsh Hrec|i ds ev reading' i'|];
      cbn in *; simplify_eq; try done; (split; [done|]).
    all: assert (sh ≠ shard) as Hne by (intros ->; congruence).
    all: rewrite ?lookup_insert_ne, ?lookup_delete_ne by done; split; [done|].
    1: by rewrite decide_False.
    1: specialize (Hd sh); rewrite Hsh in Hd; destruct Hd as [(? & ? & ->) _]; by rewrite decide_False.
    1: by rewrite decide_False.
    destruct ack; by rewrite decide_False. }
  split_and!; [done..|]. exists gs'. split; [done|]. specialize (Hgs shard). rewrite Hg, Hrun in Hgs.
  congruence.
Qed.

(** C15: a delivery that is waiting when the client goes away never returns: once the
    reader has seen a stop, the end of the stream or a read error, a delivery whose
    channel is unresolved stays so whatever happens next, although the code says that
    it returns nothing when the client goes away first. *)
Theorem waiting_delivery_outlives_client h0 s h s' shard ch :
  steps Session_new h0 s → ses_reading s = false →
  ses_deliveries s !! shard = Some (Awaiting ch) → received (ses_ipc s) ch = None →
  steps s h s' →
  ses_deliveries s' !! shard = Some (Awaiting ch) ∧ received (ses_ipc s') ch = None.
Proof.
  intros Hs0 Hrd Hds Hnone Hs.
  destruct (session_steps _ _ _ _ session_new_ok Hs0) as (gs & _ & Hok).
  assert (abandoned shard ch s) as Hab.
  { split_and!; [done..|]. exists gs. split; [done|]. destruct Hok as [_ Hd]. specialize (Hd shard).
    rewrite Hds in Hd. destruct Hd as (a & Ha & Hc). destruct a as [q|]; [|done].
    destruct Hc as [_ Hc]. unfold received in Hnone. by rewrite Hc in Hnone. }
  assert (abandoned shard ch s') as Hab'.
  { clear Hrd Hds Hnone Hok Hs0. induction Hs; [done|]. eapply abandoned_step; [|done]. auto. }
  split; [apply Hab'|by eapply abandoned_unresolved].
Qed.
End gated.
