(* ===== verification/Sidecar.v ===== *)
(** * The sidecar process ([sidecar/src/main.rs])

    Its configuration from the environment, the coordination loop over a fleet whose
    consumers are the client session ([Ipc]), and the graceful handoff of the leases
    when it stops.  Signals, process start-up and the SDK's own configuration are not
    modelled. *)

From Stdlib Require Import Lia.
From Stdlib Require Import DecimalString DecimalN DecimalZ.
From stdpp Require Import base gmap numbers list strings.
From S2P Require Import Prelude Core Position Coordinator Leader Interfaces Metrics CkptDefer Tasks.
From S2P Require Import LeaderElection FleetState ShardPass FleetSync Fleet.
From S2P Require Import DynamoDb ChangeRecord StreamsSource Protocol Ipc.

(** ** Configuration *)

Record Config := {
  cfg_stream_arn : string;
  cfg_lease_table : string;
  cfg_owner : string;
  cfg_max_leases : nat;
  cfg_lease_duration_ms : N;
  cfg_poll_interval_ms : N;
  cfg_cycle_interval_ms : N;
  cfg_initial_position : InitialPosition;
  cfg_graceful_shutdown_timeout_ms : N;
  cfg_max_records : option Z;
  cfg_max_processing_concurrency : option nat;
  cfg_checkpoint_interval_ms : option N;
  cfg_lease_table_config : LeaseTableConfig;
}.

(** [str::parse::<i32>]. *)
Definition parse_i32 (s : string) : option Z :=
  match s with
  | String "-"%char s' =>
      d ← NilZero.uint_of_string s';
      let n := Z.of_N (N.of_uint d) in if (n <=? 2 ^ 31)%Z then Some (- n)%Z else None
  | _ =>
      n ← parse_u64 s;
      if (n <? 2 ^ 31)%N then Some (Z.of_N n) else None
  end.

Section from_env.
(** [std::env::var(k).ok()] and the process id. *)
Variables (env : string → option string) (pid : N).

Definition req (k : string) : Result string string :=
  match env k with
  | Some v => Ok v
  | None => Err (String.append "missing required env var " k)
  end.

Definition opt_u64 (k : string) (d : N) : N := default d (env k ≫= parse_u64).

Definition env_owner : string :=
  match env "DDB_STREAMS_CONSUMER_OWNER" with
  | Some v => v
  | None => String.append (default "host" (env "HOSTNAME")) (String.append ":" (u64_to_string pid))
  end.

Definition env_initial_position : Result InitialPosition string :=
  match env "DDB_STREAMS_CONSUMER_INITIAL_POSITION" with
  | Some v =>
      match parse v with
      | Some p => Ok p
      | None => Err (String.append "invalid DDB_STREAMS_CONSUMER_INITIAL_POSITION: " v)
      end
  | None => Ok InitialPosition_default
  end.

Definition env_max_records : option Z :=
  env "DDB_STREAMS_CONSUMER_MAX_RECORDS" ≫= parse_i32.

Definition env_at_least_one (k : string) : option N :=
  n ← env k ≫= parse_u64;
  if (1 <=? n)%N then Some n else None.

Definition env_max_processing_concurrency : option nat :=
  N.to_nat <$> env_at_least_one "DDB_STREAMS_CONSUMER_MAX_PROCESSING_CONCURRENCY".

Definition env_checkpoint_interval_ms : option N :=
  env_at_least_one "DDB_STREAMS_CONSUMER_CHECKPOINT_INTERVAL_MS".

Definition env_billing : LeaseBilling :=
  if bool_decide (to_ascii_uppercase (default EmptyString (env "DDB_STREAMS_CONSUMER_LEASE_BILLING_MODE"))
                  = "PROVISIONED")
  then Provisioned (i64_wrap (Z.of_N (opt_u64 "DDB_STREAMS_CONSUMER_LEASE_READ_CAPACITY" 5)))
                   (i64_wrap (Z.of_N (opt_u64 "DDB_STREAMS_CONSUMER_LEASE_WRITE_CAPACITY" 5)))
  else PayPerRequest.

Definition env_pitr : bool :=
  match env "DDB_STREAMS_CONSUMER_LEASE_PITR" with
  | Some v => bool_decide (to_ascii_lowercase (trim v) ∈ ["1"; "true"; "yes"; "on"])
  | None => false
  end.

Definition from_env : Result Config string :=
  match env_initial_position with
  | Err e => Err e
  | Ok position =>
      match req "DDB_STREAMS_CONSUMER_STREAM_ARN" with
      | Err e => Err e
      | Ok arn =>
          match req "DDB_STREAMS_CONSUMER_LEASE_TABLE" with
          | Err e => Err e
          | Ok table => Ok {|
              cfg_stream_arn := arn;
              cfg_lease_table := table;
              cfg_owner := env_owner;
              cfg_max_leases := N.to_nat (opt_u64 "DDB_STREAMS_CONSUMER_MAX_LEASES" 100);
              cfg_lease_duration_ms := opt_u64 "DDB_STREAMS_CONSUMER_LEASE_DURATION_MS" 10000;
              cfg_poll_interval_ms := opt_u64 "DDB_STREAMS_CONSUMER_POLL_INTERVAL_MS" 1000;
              cfg_cycle_interval_ms := opt_u64 "DDB_STREAMS_CONSUMER_CYCLE_INTERVAL_MS" 1000;
              cfg_initial_position := position;
              cfg_graceful_shutdown_timeout_ms := opt_u64 "DDB_STREAMS_CONSUMER_GRACEFUL_SHUTDOWN_MS" 5000;
              cfg_max_records := env_max_records;
              cfg_max_processing_concurrency := env_max_processing_concurrency;
              cfg_checkpoint_interval_ms := env_checkpoint_interval_ms;
              cfg_lease_table_config := {| billing := env_billing; pitr := env_pitr |} |}
          end
      end
  end.
End from_env.

(** ** Wiring *)

Definition source_of (cfg : Config) : DdbStreamsSource :=
  let source := DdbStreamsSource_new (cfg_stream_arn cfg) in
  match cfg_max_records cfg with Some n => with_max_records n source | None => source end.

Definition leases_of (cfg : Config) : DynamoDbLeaseStore :=
  with_table_config (DynamoDbLeaseStore_new (cfg_lease_table cfg)) (cfg_lease_table_config cfg).

Definition fleet_config_of (cfg : Config) : FleetConfig :=
  {| fc_owner := cfg_owner cfg; fc_max_leases := cfg_max_leases cfg;
     fc_lease_duration_ms := cfg_lease_duration_ms cfg;
     fc_poll_interval_ms := cfg_poll_interval_ms cfg;
     fc_initial_position := cfg_initial_position cfg |}.

Definition fleet_of (cfg : Config) : FleetMem :=
  with_checkpoint_interval (cfg_checkpoint_interval_ms cfg)
    (with_max_processing_concurrency (cfg_max_processing_concurrency cfg) Fleet_new).

(** ** Graceful handoff *)

Class LeaseHandoff (W : Type) := {
  list_owned : M W (Result (list ShardId) WorkerError);
  release_all_owned : M W (Result nat WorkerError);
}.

Class ShutdownNotifier (W : Type) := {
  notify_shutdown : ShardId → M W unit;
}.

Definition graceful_handoff {W} `{LeaseHandoff W, ShutdownNotifier W, Clock W}
    (graceful_shutdown_timeout_ms : N) : M W unit :=
  owned <- list_owned ;;
  match owned with
  | Ok (s :: owned') =>
      for_each notify_shutdown (s :: owned') ;;;
      sleep (from_millis graceful_shutdown_timeout_ms)
  | Ok [] | Err _ => ret tt
  end ;;;
  _ <- release_all_owned ;; ret tt.

Section fleet_handoff.
Context {W : Type} `{AsyncStreamSource W, AsyncLeaseStore W, MetricsSink W}.

(** [impl LeaseHandoff for Fleet]. *)
Definition fleet_handoff (config : FleetConfig) : LeaseHandoff (FleetMem * W) := {|
  list_owned := owned_shards config;
  release_all_owned := release_owned config;
|}.
End fleet_handoff.

(** [impl ShutdownNotifier for Ipc]. *)
Definition ipc_notifier `{Wire ServerMessage} {W} `{ClientConn W} : ShutdownNotifier (Ipc * W) := {|
  notify_shutdown := shutdown_requested;
|}.

(** ** The main loop *)

(** The client session as the loop sees it: the stop flag, the race of the pause
    against a stop (whether the stop came first), and the last message. *)
Class StopSignal (W : Type) := {
  stop_seen : M W bool;
  sleep_or_stopped : Duration → M W bool;
  say_shutdown : string → M W unit;
}.

(** A call on part of a larger world. *)
Definition under_clock {S W} `{Clock W} : Clock (S * W) := {|
  instant_now := lift_m instant_now;
  sleep d := lift_m (sleep d);
|}.
Definition under_notifier {S W} `{ShutdownNotifier W} : ShutdownNotifier (S * W) := {|
  notify_shutdown s := lift_m (notify_shutdown s);
|}.

Section main.
Context `{HashOrder} {W : Type} `{AsyncStreamSource W, AsyncLeaseStore W, ShardConsumerFactory W,
                     MetricsSink W, Clock W, StopSignal W,
                     ShutdownNotifier W}.
Variables (polls : nat) (cfg : Config) (schedules : nat → list nat).

(** [None] when a bound of the model ran out. *)
Fixpoint sidecar_loop (rounds : nat) (start : Instant) : M (Cycle * (FleetMem * W)) (option unit) :=
  match rounds with
  | O => ret None
  | S rounds' =>
      stopped <- outside stop_seen ;;
      if stopped : bool then ret (Some tt)
      else
        t <- outside instant_now ;;
        r <- run_cycle polls (fleet_config_of cfg) (schedules rounds') (as_millis (duration_since t start)) ;;
        match r with
        | Ok (Some true) => ret (Some tt)
        | Ok None => ret None
        | Ok (Some false) | Err _ =>
            stopped <- outside (sleep_or_stopped (from_millis (cfg_cycle_interval_ms cfg))) ;;
            if stopped : bool then ret (Some tt) else sidecar_loop rounds' start
        end
  end.

Definition hand_off : M (FleetMem * W) unit :=
  @graceful_handoff _ (fleet_handoff (fleet_config_of cfg)) under_notifier under_clock
    (cfg_graceful_shutdown_timeout_ms cfg).

Definition sidecar_main (rounds : nat) : M W (option unit) := λ w,
  let config := fleet_config_of cfg in
  let cy := {| cy_coordinator := LeaseCoordinator_new (fc_owner config) (fc_max_leases config)
                 (fc_lease_duration_ms config);
               cy_leadership := Leadership_new (fc_owner config) (fc_lease_duration_ms config) |} in
  let '(start, w) := instant_now w in
  let '(stopped, (_, mw)) := sidecar_loop rounds start (cy, (fleet_of cfg, w)) in
  match stopped with
  | None => (None, mw.2)
  | Some _ =>
      let '(_, (_, w)) := (hand_off ;;; lift_m (say_shutdown "sidecar stopping")) mw in
      (Some tt, w)
  end.
End main.

(** ** What a handoff does, seen from outside *)

Inductive HEvent :=
| HNotify (shard : ShardId)
| HPause (d : Duration)
| HRelease.

Section handoff.
Context {W : Type} `{LeaseHandoff W, ShutdownNotifier W, Clock W}.

#[local] Instance handoff_logged : LeaseHandoff (W * list HEvent) := {|
  list_owned := logged list_owned (λ _, []);
  release_all_owned := logged release_all_owned (λ _, [HRelease]);
|}.
#[local] Instance notifier_logged : ShutdownNotifier (W * list HEvent) := {|
  notify_shutdown s := logged (notify_shutdown s) (λ _, [HNotify s]);
|}.
#[local] Instance pause_logged : Clock (W * list HEvent) := {|
  instant_now := logged instant_now (λ _, []);
  sleep d := logged (sleep d) (λ _, [HPause d]);
|}.

Lemma notify_all owned (w : W) log :
  ∃ w', for_each notify_shutdown owned (w, log) = (tt, (w', log ++ (HNotify <$> owned))).
Proof.
  revert w log. induction owned as [|s owned IH]; intros w log; cbn [for_each].
  { exists w. by rewrite app_nil_r. }
  destruct (notify_shutdown s w) as [[] w1] eqn:Hn.
  assert (notify_shutdown s (w, log) = (tt, (w1, log ++ [HNotify s]))) as Hcall.
  { cbn. unfold logged. cbn. by rewrite Hn. }
  rewrite (bind_run _ _ _ _ _ Hcall). destruct (IH w1 (log ++ [HNotify s])) as [w2 ->].
  exists w2. by rewrite <- app_assoc.
Qed.

(** C16: a graceful handoff releases the leases exactly once and last: when the lookup
    names owned shards, the client is told of each of them, in that order, and gets the
    whole grace period, before anything is released; when it names none or fails,
    the leases are released at once, whatever the notifications and the release
    return. *)
Theorem handoff_notifies_before_releasing ms (w : W) :
  let '(_, (_, log)) := graceful_handoff ms (w, []) in
  log = match (list_owned w).1 with
        | Ok (s :: owned) => (HNotify <$> s :: owned) ++ [HPause (from_millis ms); HRelease]
        | _ => [HRelease]
        end.
Proof.
  unfold graceful_handoff. cbn [list_owned release_all_owned handoff_logged sleep pause_logged].
  unfold bind at 1, logged at 1. cbn [fst snd]. destruct (list_owned w) as [[[|s owned]|e] w1]; cbn [fst].
  2: {
    destruct (notify_all (s :: owned) w1 []) as [w2 Hn]. unfold bind at 1. rewrite app_nil_r.
    rewrite (bind_run _ _ _ _ _ Hn). unfold logged at 1. cbn [fst snd].
    destruct (sleep (from_millis ms) w2) as [[] w3]. unfold bind, logged. cbn [fst snd].
    destruct (release_all_owned w3) as [r w4]. cbn. by rewrite <- app_assoc. }
  all: unfold bind, ret, logged; cbn [fst snd]; destruct (release_all_owned w1) as [r w2]; done.
Qed.
End handoff.

(** ** What the environment can configure *)

Lemma parse_u64_bound s n : parse_u64 s = Some n → (n ≤ u64_max)%N.
Proof.
  unfold parse_u64. destruct (NilZero.uint_of_string _) as [d|]; [|done]. cbv zeta.
  destruct (N.leb_spec (N.of_uint d) u64_max); [|done]. by intros [= <-].
Qed.

Lemma opt_u64_bound env k d : (d ≤ u64_max)%N → (opt_u64 env k d ≤ u64_max)%N.
Proof.
  intros Hd. unfold opt_u64. destruct (env k) as [v|]; [|done]. cbn.
  destruct (parse_u64 v) eqn:Hv; [|done]. by eapply parse_u64_bound.
Qed.

Lemma i64_wrap_bound z : (- 2 ^ 63 ≤ i64_wrap z < 2 ^ 63)%Z.
Proof. unfold i64_wrap. pose proof (Z.mod_pos_bound (z + 2 ^ 63) (2 ^ 64) ltac:(lia)). lia. Qed.

Lemma at_least_one env k n : env_at_least_one env k = Some n → (1 ≤ n)%N.
Proof.
  unfold env_at_least_one. destruct (env k ≫= parse_u64) as [m|]; cbn; [|done].
  destruct (N.leb_spec 1 m); [|done]. by intros [= <-].
Qed.

(** only the stream, the lease table and an unknown start position can keep the
    sidecar from starting: every other setting that is missing or unreadable falls
    back to a usable value.  Whatever was set, [GetRecords] is asked for 1 to 1000
    records, the processing pool and the checkpoint interval are absent or at least
    one and reach the fleet unchanged, times fit their 64 bits, and table capacities
    are the set values reduced to [i64]. *)
Theorem config_from_env env pid :
  (is_ok (from_env env pid) = true ↔
     is_Some (env "DDB_STREAMS_CONSUMER_STREAM_ARN") ∧
     is_Some (env "DDB_STREAMS_CONSUMER_LEASE_TABLE") ∧
     ∀ v, env "DDB_STREAMS_CONSUMER_INITIAL_POSITION" = Some v → is_Some (parse v)) ∧
  ∀ cfg, from_env env pid = Ok cfg →
    (∀ n, src_max_records (source_of cfg) = Some n → 1 ≤ n ≤ 1000)%Z ∧
    fm_processing_limit (fleet_of cfg) = cfg_max_processing_concurrency cfg ∧
    (∀ n, fm_processing_limit (fleet_of cfg) = Some n → 1 ≤ n) ∧
    cd_interval <$> fm_ckpt_defer (fleet_of cfg) = from_millis <$> cfg_checkpoint_interval_ms cfg ∧
    (∀ ms, cfg_checkpoint_interval_ms cfg = Some ms → (1 ≤ ms)%N) ∧
    Forall (λ ms, ms ≤ u64_max)%N
      [cfg_lease_duration_ms cfg; cfg_poll_interval_ms cfg; cfg_cycle_interval_ms cfg;
       cfg_graceful_shutdown_timeout_ms cfg] ∧
    match billing (cfg_lease_table_config cfg) with
    | Provisioned r w => (- 2 ^ 63 ≤ r < 2 ^ 63 ∧ - 2 ^ 63 ≤ w < 2 ^ 63)%Z
    | PayPerRequest => True
    end.
Proof.
  split.
  - unfold from_env, env_initial_position, req.
    destruct (env "DDB_STREAMS_CONSUMER_INITIAL_POSITION") as [v|].
    + destruct (parse v) as [p|] eqn:Hp;
        [|split; [done|intros (_ & _ & Hv); destruct (Hv v eq_refl) as [? ?]; congruence]].
      destruct (env "DDB_STREAMS_CONSUMER_STREAM_ARN"); [|split; [done|by intros [[? ?] _]]].
      destruct (env "DDB_STREAMS_CONSUMER_LEASE_TABLE"); [|split; [done|by intros (_ & [? ?] & _)]].
      split; [|done]. intros _. split_and!; [eauto..|]. intros v' [= <-]. eauto.
    + destruct (env "DDB_STREAMS_CONSUMER_STREAM_ARN"); [|split; [done|by intros [[? ?] _]]].
      destruct (env "DDB_STREAMS_CONSUMER_LEASE_TABLE"); [|split; [done|by intros (_ & [? ?] & _)]].
      split; [|done]. intros _. split_and!; [eauto..|done].
  - intros cfg Hcfg. unfold from_env in Hcfg.
    destruct (env_initial_position env) as [p|e]; [|done].
    destruct (req env _) as [arn|e]; [|done]. destruct (req env _) as [table|e]; [|done].
    injection Hcfg as <-. unfold source_of, fleet_of.
    cbn [cfg_max_records cfg_max_processing_concurrency cfg_checkpoint_interval_ms cfg_stream_arn
         cfg_lease_table_config cfg_lease_duration_ms cfg_poll_interval_ms cfg_cycle_interval_ms
         cfg_graceful_shutdown_timeout_ms billing].
    assert (∀ n, env_max_processing_concurrency env = Some n → 1 ≤ n) as Hconc.
    { unfold env_max_processing_concurrency.
      destruct (env_at_least_one env _) as [m|] eqn:Hm; [|done]. apply at_least_one in Hm.
      intros n [= <-]. lia. }
    split_and!.
    + destruct (env_max_records env) as [n|]; [|done]. cbn. unfold clamp_max_records.
      intros n' [= <-]. lia.
    + unfold with_checkpoint_interval, with_max_processing_concurrency, set_defer, set_limit. cbn.
      destruct (env_max_processing_concurrency env) as [n|]; [|done].
      destruct n; [|done]. specialize (Hconc 0 eq_refl). lia.
    + unfold with_checkpoint_interval, with_max_processing_concurrency, set_defer, set_limit. cbn.
      destruct (env_max_processing_concurrency env) as [n|]; [|done].
      destruct n; [done|]. intros n' [= <-]. lia.
    + unfold with_checkpoint_interval, set_defer. cbn.
      unfold env_checkpoint_interval_ms. destruct (env_at_least_one env _) as [ms|] eqn:Hms; [|done].
      apply at_least_one in Hms. by rewrite (proj2 (N.leb_le 1 ms)).
    + intros ms. exact (at_least_one _ _ ms).
    + repeat constructor; by apply opt_u64_bound.
    + unfold env_billing. case_bool_decide; [|done]. split; apply i64_wrap_bound.
Qed.
