(* ===== verification/RustClient.v ===== *)
(** * The in-process client ([clients/rust/src/lib.rs])

    What an application sees of the consumer: typed records with a JSON view, its
    processor behind the core's processor interface, the builder, and the worker's
    run loop over a fleet.  JSON values and base64 belong to other crates and are an
    interface ([Json]); resolving AWS clients is left out. *)

From Stdlib Require Import Lia.
From stdpp Require Import base gmap numbers list strings sorting.
From S2P Require Import Prelude Core Position Coordinator Interfaces Metrics CkptDefer Tasks.
From S2P Require Import LeaderElection FleetState ShardPass FleetSync Fleet.
From S2P Require Import DynamoDb ChangeRecord StreamsSource.

(** [serde_json::Value] by its constructors (an object by its entries in key order),
    and [base64]'s standard encoding. *)
Class Json := {
  json : Type;
  JNull : json;
  JBool : bool → json;
  JString : string → json;
  JArray : list json → json;
  JObject : list (string * json) → json;
  b64 : list Init.Byte.byte → string;
}.

Inductive RecordFormat := Native | DdbJson.

Definition RecordFormat_default : RecordFormat := Native.

(** ** Records and their JSON view *)

Record ClientRecord := {
  cr_shard_id : string;
  cr_sequence_number : string;
  cr_event_name : option string;
  cr_stream_view_type : option string;
  cr_keys : ChangeRecord.Item;
  cr_new_image : option ChangeRecord.Item;
  cr_old_image : option ChangeRecord.Item;
  cr_format : RecordFormat;
}.

Section views.
Context `{Json}.

Fixpoint to_native_json (av : AttrValue) : json :=
  match av with
  | S_ s => JString s
  | N_ n => JString n
  | Bool b => JBool b
  | Null => JNull
  | B b => JString (b64 b)
  | M_ m => JObject (map (λ kv, (kv.1, to_native_json kv.2)) m)
  | L l => JArray (map to_native_json l)
  | Ss l => JArray (map JString l)
  | Ns l => JArray (map JString l)
  | Bs l => JArray (map (λ x, JString (b64 x)) l)
  end.

Fixpoint to_ddb_json (av : AttrValue) : json :=
  match av with
  | S_ s => JObject [("S", JString s)]
  | N_ n => JObject [("N", JString n)]
  | Bool b => JObject [("BOOL", JBool b)]
  | Null => JObject [("NULL", JBool true)]
  | B b => JObject [("B", JString (b64 b))]
  | M_ m => JObject [("M", JObject (map (λ kv, (kv.1, to_ddb_json kv.2)) m))]
  | L l => JObject [("L", JArray (map to_ddb_json l))]
  | Ss l => JObject [("SS", JArray (map JString l))]
  | Ns l => JObject [("NS", JArray (map JString l))]
  | Bs l => JObject [("BS", JArray (map (λ x, JString (b64 x)) l))]
  end.

Definition item_to_json (item : ChangeRecord.Item) (fmt : RecordFormat) : json :=
  let conv := match fmt with Native => to_native_json | DdbJson => to_ddb_json end in
  JObject (map (λ kv, (kv.1, conv kv.2)) item).

Definition keys_json (r : ClientRecord) : json := item_to_json (cr_keys r) (cr_format r).
Definition new_image_json (r : ClientRecord) : option json :=
  (λ i, item_to_json i (cr_format r)) <$> cr_new_image r.
Definition old_image_json (r : ClientRecord) : option json :=
  (λ i, item_to_json i (cr_format r)) <$> cr_old_image r.
End views.

(** [StreamRecord::default()]. *)
Definition StreamRecord_default : StreamRecord :=
  {| event_name := None; sequence_number := None; size_bytes := None; stream_view_type := None;
     keys := []; new_image := None; old_image := None; approx_creation_time_ms := None |}.

(** A payload that does not decode gives a record without images. *)
Definition decode_record `{RecordCodec} (r : Record_) (format : RecordFormat) : ClientRecord :=
  let sr := match decode (rec_data r) with Ok sr => sr | Err _ => StreamRecord_default end in
  {| cr_shard_id := rec_shard r;
     cr_sequence_number := default (rec_seq r) (sequence_number sr);
     cr_event_name := event_name sr;
     cr_stream_view_type := stream_view_type sr;
     cr_keys := keys sr;
     cr_new_image := new_image sr;
     cr_old_image := old_image sr;
     cr_format := format |}.

(** ** The processor adapter *)

(** The client's [RecordProcessor] and its factory. *)
Class ClientProcessors (W : Type) := {
  ClientProcessor : Type;
  client_create : string → M W ClientProcessor;
  client_initialize : ClientProcessor → string → M W unit;
  client_process : ClientProcessor → list ClientRecord → M W unit;
  client_ended : ClientProcessor → string → M W unit;
  client_lost : ClientProcessor → string → M W unit;
}.

(** [shard] is written and never read. *)
Record Adapter (P : Type) := {
  ad_inner : P;
  ad_format : RecordFormat;
  ad_shard : string;
}.
Arguments ad_inner {P}.
Arguments ad_format {P}.
Arguments ad_shard {P}.

Section adapter.
Context `{RecordCodec} {W : Type} `{ClientProcessors W} (format : RecordFormat).
Abbreviation A := (Adapter ClientProcessor).

Definition adapter_initialize (a : A) (shard : ShardId) : M W unit :=
  client_initialize (ad_inner a) shard.

Definition adapter_process (a : A) (records : list Record_) : M W unit :=
  client_process (ad_inner a) (map (λ r, decode_record r (ad_format a)) records).

Definition adapter_ended (a : A) (shard : ShardId) : M W unit := client_ended (ad_inner a) shard.
Definition adapter_lost (a : A) (shard : ShardId) : M W unit := client_lost (ad_inner a) shard.

Definition adapter_create (shard : ShardId) : M W A :=
  p <- client_create shard ;;
  ret {| ad_inner := p; ad_format := format; ad_shard := shard |}.

Definition FactoryAdapter : RecordProcessorFactory W := {|
  create_processor := adapter_create;
  processor_initialize := adapter_initialize;
  processor_process := adapter_process;
  processor_ended := adapter_ended;
  processor_lost := adapter_lost;
|}.
End adapter.

(** ** The builder *)

(** [F] is the application's factory. *)
Record WorkerBuilder (F : Type) := {
  wb_stream_arn : option string;
  wb_lease_table : option string;
  wb_region : option string;
  wb_owner : option string;
  wb_record_format : RecordFormat;
  wb_max_leases : nat;
  wb_lease_duration_ms : N;
  wb_poll_interval_ms : N;
  wb_initial_position : InitialPosition;
  wb_processor : option F;
  wb_max_processing_concurrency : option nat;
  wb_checkpoint_interval_ms : option N;
}.
Arguments wb_stream_arn {F}.
Arguments wb_lease_table {F}.
Arguments wb_region {F}.
Arguments wb_owner {F}.
Arguments wb_record_format {F}.
Arguments wb_max_leases {F}.
Arguments wb_lease_duration_ms {F}.
Arguments wb_poll_interval_ms {F}.
Arguments wb_initial_position {F}.
Arguments wb_processor {F}.
Arguments wb_max_processing_concurrency {F}.
Arguments wb_checkpoint_interval_ms {F}.

(** What [build] puts together: the worker, and the source, lease store and factory
    its fleet runs on. *)
Record ClientWorker (F : Type) := {
  cw_source : DdbStreamsSource;
  cw_leases : DynamoDbLeaseStore;
  cw_factory : F * RecordFormat;
  cw_config : FleetConfig;
  cw_fleet : FleetMem;
  cw_owner : string;
  cw_lease_duration_ms : N;
  cw_max_leases : nat;
  cw_poll_interval_ms : N;
}.
Arguments cw_source {F}.
Arguments cw_leases {F}.
Arguments cw_factory {F}.
Arguments cw_config {F}.
Arguments cw_fleet {F}.
Arguments cw_owner {F}.
Arguments cw_lease_duration_ms {F}.
Arguments cw_max_leases {F}.
Arguments cw_poll_interval_ms {F}.

Section builder.
Context {F : Type}.

Definition WorkerBuilder_default : WorkerBuilder F :=
  {| wb_stream_arn := None; wb_lease_table := None; wb_region := None; wb_owner := None;
     wb_record_format := RecordFormat_default; wb_max_leases := 100; wb_lease_duration_ms := 60000;
     wb_poll_interval_ms := 1000; wb_initial_position := InitialPosition_default;
     wb_processor := None; wb_max_processing_concurrency := None;
     wb_checkpoint_interval_ms := None |}.

Definition builder_stream_arn (v : string) (b : WorkerBuilder F) : WorkerBuilder F :=
  {| wb_stream_arn := Some v; wb_lease_table := wb_lease_table b; wb_region := wb_region b;
     wb_owner := wb_owner b; wb_record_format := wb_record_format b;
     wb_max_leases := wb_max_leases b; wb_lease_duration_ms := wb_lease_duration_ms b;
     wb_poll_interval_ms := wb_poll_interval_ms b; wb_initial_position := wb_initial_position b;
     wb_processor := wb_processor b;
     wb_max_processing_concurrency := wb_max_processing_concurrency b;
     wb_checkpoint_interval_ms := wb_checkpoint_interval_ms b |}.

Definition builder_lease_table (v : string) (b : WorkerBuilder F) : WorkerBuilder F :=
  {| wb_stream_arn := wb_stream_arn b; wb_lease_table := Some v; wb_region := wb_region b;
     wb_owner := wb_owner b; wb_record_format := wb_record_format b;
     wb_max_leases := wb_max_leases b; wb_lease_duration_ms := wb_lease_duration_ms b;
     wb_poll_interval_ms := wb_poll_interval_ms b; wb_initial_position := wb_initial_position b;
     wb_processor := wb_processor b;
     wb_max_processing_concurrency := wb_max_processing_concurrency b;
     wb_checkpoint_interval_ms := wb_checkpoint_interval_ms b |}.

Definition builder_region (v : string) (b : WorkerBuilder F) : WorkerBuilder F :=
  {| wb_stream_arn := wb_stream_arn b; wb_lease_table := wb_lease_table b; wb_region := Some v;
     wb_owner := wb_owner b; wb_record_format := wb_record_format b;
     wb_max_leases := wb_max_leases b; wb_lease_duration_ms := wb_lease_duration_ms b;
     wb_poll_interval_ms := wb_poll_interval_ms b; wb_initial_position := wb_initial_position b;
     wb_processor := wb_processor b;
     wb_max_processing_concurrency := wb_max_processing_concurrency b;
     wb_checkpoint_interval_ms := wb_checkpoint_interval_ms b |}.

Definition builder_owner (v : string) (b : WorkerBuilder F) : WorkerBuilder F :=
  {| wb_stream_arn := wb_stream_arn b; wb_lease_table := wb_lease_table b;
     wb_region := wb_region b; wb_owner := Some v; wb_record_format := wb_record_format b;
     wb_max_leases := wb_max_leases b; wb_lease_duration_ms := wb_lease_duration_ms b;
     wb_poll_interval_ms := wb_poll_interval_ms b; wb_initial_position := wb_initial_position b;
     wb_processor := wb_processor b;
     wb_max_processing_concurrency := wb_max_processing_concurrency b;
     wb_checkpoint_interval_ms := wb_checkpoint_interval_ms b |}.

Definition builder_record_format (v : RecordFormat) (b : WorkerBuilder F) : WorkerBuilder F :=
  {| wb_stream_arn := wb_stream_arn b; wb_lease_table := wb_lease_table b;
     wb_region := wb_region b; wb_owner := wb_owner b; wb_record_format := v;
     wb_max_leases := wb_max_leases b; wb_lease_duration_ms := wb_lease_duration_ms b;
     wb_poll_interval_ms := wb_poll_interval_ms b; wb_initial_position := wb_initial_position b;
     wb_processor := wb_processor b;
     wb_max_processing_concurrency := wb_max_processing_concurrency b;
     wb_checkpoint_interval_ms := wb_checkpoint_interval_ms b |}.

Definition builder_max_leases (v : nat) (b : WorkerBuilder F) : WorkerBuilder F :=
  {| wb_stream_arn := wb_stream_arn b; wb_lease_table := wb_lease_table b;
     wb_region := wb_region b; wb_owner := wb_owner b; wb_record_format := wb_record_format b;
     wb_max_leases := v; wb_lease_duration_ms := wb_lease_duration_ms b;
     wb_poll_interval_ms := wb_poll_interval_ms b; wb_initial_position := wb_initial_position b;
     wb_processor := wb_processor b;
     wb_max_processing_concurrency := wb_max_processing_concurrency b;
     wb_checkpoint_interval_ms := wb_checkpoint_interval_ms b |}.

Definition builder_lease_duration_ms (v : N) (b : WorkerBuilder F) : WorkerBuilder F :=
  {| wb_stream_arn := wb_stream_arn b; wb_lease_table := wb_lease_table b;
     wb_region := wb_region b; wb_owner := wb_owner b; wb_record_format := wb_record_format b;
     wb_max_leases := wb_max_leases b; wb_lease_duration_ms := v;
     wb_poll_interval_ms := wb_poll_interval_ms b; wb_initial_position := wb_initial_position b;
     wb_processor := wb_processor b;
     wb_max_processing_concurrency := wb_max_processing_concurrency b;
     wb_checkpoint_interval_ms := wb_checkpoint_interval_ms b |}.

Definition builder_poll_interval_ms (v : N) (b : WorkerBuilder F) : WorkerBuilder F :=
  {| wb_stream_arn := wb_stream_arn b; wb_lease_table := wb_lease_table b;
     wb_region := wb_region b; wb_owner := wb_owner b; wb_record_format := wb_record_format b;
     wb_max_leases := wb_max_leases b; wb_lease_duration_ms := wb_lease_duration_ms b;
     wb_poll_interval_ms := v; wb_initial_position := wb_initial_position b;
     wb_processor := wb_processor b;
     wb_max_processing_concurrency := wb_max_processing_concurrency b;
     wb_checkpoint_interval_ms := wb_checkpoint_interval_ms b |}.

Definition builder_initial_position (v : InitialPosition) (b : WorkerBuilder F) : WorkerBuilder F :=
  {| wb_stream_arn := wb_stream_arn b; wb_lease_table := wb_lease_table b;
     wb_region := wb_region b; wb_owner := wb_owner b; wb_record_format := wb_record_format b;
     wb_max_leases := wb_max_leases b; wb_lease_duration_ms := wb_lease_duration_ms b;
     wb_poll_interval_ms := wb_poll_interval_ms b; wb_initial_position := v;
     wb_processor := wb_processor b;
     wb_max_processing_concurrency := wb_max_processing_concurrency b;
     wb_checkpoint_interval_ms := wb_checkpoint_interval_ms b |}.

Definition builder_processor (v : F) (b : WorkerBuilder F) : WorkerBuilder F :=
  {| wb_stream_arn := wb_stream_arn b; wb_lease_table := wb_lease_table b;
     wb_region := wb_region b; wb_owner := wb_owner b; wb_record_format := wb_record_format b;
     wb_max_leases := wb_max_leases b; wb_lease_duration_ms := wb_lease_duration_ms b;
     wb_poll_interval_ms := wb_poll_interval_ms b; wb_initial_position := wb_initial_position b;
     wb_processor := Some v; wb_max_processing_concurrency := wb_max_processing_concurrency b;
     wb_checkpoint_interval_ms := wb_checkpoint_interval_ms b |}.

Definition builder_max_processing_concurrency (v : nat) (b : WorkerBuilder F) : WorkerBuilder F :=
  {| wb_stream_arn := wb_stream_arn b; wb_lease_table := wb_lease_table b;
     wb_region := wb_region b; wb_owner := wb_owner b; wb_record_format := wb_record_format b;
     wb_max_leases := wb_max_leases b; wb_lease_duration_ms := wb_lease_duration_ms b;
     wb_poll_interval_ms := wb_poll_interval_ms b; wb_initial_position := wb_initial_position b;
     wb_processor := wb_processor b; wb_max_processing_concurrency := Some v;
     wb_checkpoint_interval_ms := wb_checkpoint_interval_ms b |}.

Definition builder_checkpoint_interval_ms (v : N) (b : WorkerBuilder F) : WorkerBuilder F :=
  {| wb_stream_arn := wb_stream_arn b; wb_lease_table := wb_lease_table b;
     wb_region := wb_region b; wb_owner := wb_owner b; wb_record_format := wb_record_format b;
     wb_max_leases := wb_max_leases b; wb_lease_duration_ms := wb_lease_duration_ms b;
     wb_poll_interval_ms := wb_poll_interval_ms b; wb_initial_position := wb_initial_position b;
     wb_processor := wb_processor b;
     wb_max_processing_concurrency := wb_max_processing_concurrency b;
     wb_checkpoint_interval_ms := Some v |}.

Definition default_owner (env : string → option string) (pid : N) : string :=
  String.append (default "host" (env "HOSTNAME")) (String.append "-" (u64_to_string pid)).

(** [None]: the lease table did not become active within [polls] descriptions.  The
    region goes to the SDK's own configuration. *)
Definition build {W} `{DynamoClient W} (env : string → option string) (pid : N) (polls : nat)
    (b : WorkerBuilder F) : M W (option (Result (ClientWorker F) WorkerError)) :=
  match wb_stream_arn b, wb_lease_table b, wb_processor b with
  | None, _, _ => ret (Some (Err "stream_arn is required"))
  | _, None, _ => ret (Some (Err "lease_table is required"))
  | _, _, None => ret (Some (Err "processor is required"))
  | Some stream_arn, Some lease_table, Some processor =>
      let owner := default (default_owner env pid) (wb_owner b) in
      let leases := DynamoDbLeaseStore_new lease_table in
      r <- ensure_table leases polls ;;
      ret (match r with
           | None => None
           | Some (Err e) => Some (Err e)
           | Some (Ok _) => Some (Ok {|
               cw_source := DdbStreamsSource_new stream_arn;
               cw_leases := leases;
               cw_factory := (processor, wb_record_format b);
               cw_config := {|
                 fc_owner := owner; fc_max_leases := wb_max_leases b;
                 fc_lease_duration_ms := wb_lease_duration_ms b;
                 fc_poll_interval_ms := wb_poll_interval_ms b;
                 fc_initial_position := wb_initial_position b |};
               cw_fleet :=
                 with_checkpoint_interval (wb_checkpoint_interval_ms b)
                   (with_max_processing_concurrency (wb_max_processing_concurrency b) Fleet_new);
               cw_owner := owner;
               cw_lease_duration_ms := wb_lease_duration_ms b;
               cw_max_leases := wb_max_leases b;
               cw_poll_interval_ms := wb_poll_interval_ms b |})
           end)
  end.
End builder.

(** ** The run loop *)

(** The stop flag shared with the [StopHandle]s, which may set it at any time. *)
Class StopFlag (W : Type) := {
  stop_load : M W bool;
  stop_store : M W unit;
}.

(** [StopHandle::stop]. *)
Definition StopHandle_stop {W} `{StopFlag W} : M W unit := stop_store.

Section run.
Context `{HashOrder} {W : Type} `{AsyncStreamSource W, AsyncLeaseStore W, ShardConsumerFactory W,
                     MetricsSink W, Clock W, StopFlag W}.
Context {F : Type}.
Variables (polls : nat) (worker : ClientWorker F) (schedules : nat → list nat).

(** [Ok None] when a bound of the model ran out. *)
Fixpoint run_loop (rounds : nat) (start : Instant)
  : M (Cycle * (FleetMem * W)) (Result (option unit) WorkerError) :=
  match rounds with
  | O => ret (Ok None)
  | S rounds' =>
      stop <- outside stop_load ;;
      if stop : bool then ret (Ok (Some tt))
      else
        t <- outside instant_now ;;
        complete <-? run_cycle polls (cw_config worker) (schedules rounds')
                       (as_millis (duration_since t start)) ;;
        match complete with
        | None => ret (Ok None)
        | Some true => ret (Ok (Some tt))
        | Some false =>
            outside (sleep (from_millis (cw_poll_interval_ms worker))) ;;;
            run_loop rounds' start
        end
  end.

Definition release_on_stop : M (FleetMem * W) (Result (option unit) WorkerError) :=
  stop <- lift_m stop_load ;;
  if stop : bool
  then _ <- release_owned (cw_config worker) ;; ret (Ok (Some tt))
  else ret (Ok (Some tt)).

Definition client_run (rounds : nat) : M W (Result (option unit) WorkerError) := λ w,
  let cy := {| cy_coordinator := LeaseCoordinator_new (cw_owner worker) (cw_max_leases worker)
                 (cw_lease_duration_ms worker);
               cy_leadership := Leadership_new (cw_owner worker) (cw_lease_duration_ms worker) |} in
  let '(start, w) := instant_now w in
  let '(r, (_, mw)) := run_loop rounds start (cy, (cw_fleet worker, w)) in
  match r with
  | Err e => (Err e, mw.2)
  | Ok None => (Ok None, mw.2)
  | Ok (Some _) => let '(r, (_, w)) := release_on_stop mw in (r, w)
  end.
End run.

(** ** The DynamoDB JSON view loses nothing *)

(** JSON values are free terms, an object being a map; base64 is injective. *)
Class JsonLaws `{Json} := {
  JBool_inj : ∀ a b, JBool a = JBool b → a = b;
  JString_inj : ∀ s t, JString s = JString t → s = t;
  JArray_inj : ∀ l k, JArray l = JArray k → l = k;
  JObject_inj : ∀ l k, map_ok l → map_ok k → JObject l = JObject k → l = k;
  b64_inj : ∀ b c, b64 b = b64 c → b = c;
}.

Section lossless.
Context `{JsonLaws}.

Lemma tagged_inj t u (v w : json) : JObject [(t, v)] = JObject [(u, w)] → t = u ∧ v = w.
Proof.
  intros He. apply JObject_inj in He; [by simplify_eq|..].
  all: split; [repeat constructor|apply NoDup_singleton].
Qed.

Lemma map_inj_on {A B} (f : A → B) l k :
  (∀ x y, x ∈ l → y ∈ k → f x = f y → x = y) → map f l = map f k → l = k.
Proof.
  revert k. induction l as [|x l IH]; intros [|y k] Hf Heq; try done. cbn in Heq. injection Heq as Hxy Heq.
  f_equal; [apply Hf; [set_solver..|done]|]. apply IH; [|done]. intros. apply Hf; set_solver.
Qed.

Lemma map_ok_values {A B} (f : A → B) (m : list (string * A)) :
  map_ok m → map_ok (map (λ kv, (kv.1, f kv.2)) m).
Proof.
  intros [Hs Hnd]. split; [|by rewrite <- list_fmap_compose].
  induction Hs as [|kv m _ IH Hall]; cbn; constructor.
  - apply IH. cbn in Hnd. by apply NoDup_cons in Hnd as [_ ?].
  - apply Forall_fmap. eapply Forall_impl; [exact Hall|]. done.
Qed.

Lemma to_ddb_json_inj : ∀ a b, attr_ok a → attr_ok b → to_ddb_json a = to_ddb_json b → a = b.
Proof.
  fix IH 1. intros a b Ha Hb He.
  destruct a, b; cbn [to_ddb_json] in He; apply tagged_inj in He as [Ht He]; try discriminate Ht.
  - by apply JString_inj in He as ->.
  - by apply JString_inj in He as ->.
  - by apply JBool_inj in He as ->.
  - done.
  - by apply JString_inj, b64_inj in He as ->.
  - f_equal. destruct Ha as [Hm Ha], Hb as [Hm' Hb].
    apply JObject_inj in He; [|by apply map_ok_values..]. clear Hm Hm'.
    revert m0 Hb He. induction m as [|[k v] m IHm]; intros [|[k' v'] m'] Hb He; try done.
    cbn in He. injection He as Hk Hv He. destruct Ha as [Hav Ha], Hb as [Hbv Hb]. subst k'.
    f_equal; [|by apply IHm]. f_equal. by apply IH.
  - f_equal. apply JArray_inj in He. revert l0 Hb He.
    induction l as [|v l IHl]; intros [|v' l'] Hb He; try done.
    cbn in He. injection He as Hv He. destruct Ha as [Hav Ha], Hb as [Hbv Hb].
    f_equal; [by apply IH|by apply IHl].
  - apply JArray_inj, map_inj_on in He as ->; [done|]. intros. by apply JString_inj.
  - apply JArray_inj, map_inj_on in He as ->; [done|]. intros. by apply JString_inj.
  - apply JArray_inj, map_inj_on in He as ->; [done|]. intros. by apply b64_inj, JString_inj.
Qed.
End lossless.

(** C37: the DynamoDB JSON view of an item loses nothing: items with the same view are
    the same item, with every attribute of the same type and value, however deeply
    nested. *)
Theorem ddb_json_view_is_lossless `{JsonLaws} (a b : ChangeRecord.Item)
    (Ha : attr_ok (M_ a)) (Hb : attr_ok (M_ b))
    (Hview : item_to_json a DdbJson = item_to_json b DdbJson) : a = b.
Proof.
  assert (M_ a = M_ b) as He; [|by injection He].
  apply to_ddb_json_inj; [done..|]. cbn [to_ddb_json]. unfold item_to_json in Hview. by rewrite Hview.
Qed.

(** ** From the stream to the application *)

Section delivered.
Context `{RecordCodec}.

(** C36: what the application is handed is what the stream gave: a record that was
    fetched, encoded as payload and decoded again keeps its shard, its sequence
    number (the one that is checkpointed), its event and view type, and every
    attribute of its keys and images up to the order of map entries and the flag of
    a null; an image is absent exactly when the stream gave none or an empty one.  A
    payload that does not decode is still handed over, with its sequence number. *)
Theorem application_sees_the_change shard r sr rec fmt
    (Hr : sk_dynamodb r = Some sr) (Hrec : to_record shard r = Some rec)
    (Hcodec : decode (encode (from_sdk r)) = Ok (from_sdk r)) :
  let cr := decode_record rec fmt in
  let kept m := map (λ kv, (kv.1, sdk_of kv.2)) m in
  let given m := sort_by_key fst (map (λ kv, (kv.1, canonical kv.2)) m) in
  cr_shard_id cr = shard ∧ cr_sequence_number cr = rec_seq rec ∧
  ss_sequence_number sr = Some (rec_seq rec) ∧
  cr_event_name cr = sk_event_name r ∧ cr_stream_view_type cr = ss_view_type sr ∧
  kept (cr_keys cr) = given (default [] (ss_keys sr)) ∧
  (∀ m, ss_new_image sr = Some m → m ≠ [] → kept <$> cr_new_image cr = Some (given m)) ∧
  (∀ m, ss_old_image sr = Some m → m ≠ [] → kept <$> cr_old_image cr = Some (given m)) ∧
  (cr_new_image cr = None ↔ default [] (ss_new_image sr) = []) ∧
  (cr_old_image cr = None ↔ default [] (ss_old_image sr) = []) ∧
  ∀ other e, decode (rec_data other) = Err e →
    cr_sequence_number (decode_record other fmt) = rec_seq other ∧
    cr_keys (decode_record other fmt) = [].
Proof.
  destruct (attributes_are_kept r sr Hr) as (Hk & Hn & Ho & Hn0 & Ho0).
  unfold to_record, sdk_seq in Hrec. rewrite Hr in Hrec. cbn in Hrec.
  destruct (ss_sequence_number sr) as [q|] eqn:Hq; cbn in Hrec; [|done].
  case_bool_decide; [done|]. cbn in Hrec. injection Hrec as <-.
  unfold decode_record. cbn [rec_data rec_seq rec_shard]. rewrite Hcodec.
  cbn [cr_shard_id cr_sequence_number cr_event_name cr_stream_view_type cr_keys cr_new_image cr_old_image].
  split_and!; try done.
  - unfold from_sdk. cbn. rewrite Hr. cbn. by rewrite Hq.
  - unfold from_sdk. cbn. by rewrite Hr.
  - intros other e He. by rewrite He.
Qed.
End delivered.
