(* ===== verification/LiveWorker.v ===== *)
(** * A worker's whole life over the live lease store

    [client_run] of [clients/rust/src/lib.rs]: cycles until all is complete, an error
    or a stop, then the release, over the store of [lease-dynamodb/src] as
    [worker/src/aws.rs] offers it.  Every step the worker makes of the lease table is
    in its own name, whatever the other workers do meanwhile; so a lease's progress
    is written by whoever owns it. *)

From Stdlib Require Import Lia.
From stdpp Require Import base gmap sets numbers list strings.
From S2P Require Import Prelude Core Coordinator Leader LeaseTable DynamoDb LeaseRefine.
From S2P Require Import Interfaces Metrics CkptDefer Tasks WorkerAws LeaderElection FleetState.
From S2P Require Import ShardPass PassCalls Pool FleetSync Fleet CycleCalls WorkerCalls.
From S2P Require Import LiveLeases RustClient.

(** ** Histories of the table *)

(** The steps the table went through; the marked ones are the worker's own. *)
Abbreviation History := (list (LeaseOp * bool)).

(** A marked step found its condition true. *)
Fixpoint applied (A : Table) (h : History) : Prop :=
  match h with
  | [] => True
  | (op, b) :: h' => (b = true → is_Some (op_apply op A)) ∧ applied (op_exec A op) h'
  end.

Definition unmarked (ops : list LeaseOp) : History := (λ op, (op, false)) <$> ops.

Lemma applied_app A h1 h2 :
  applied A (h1 ++ h2) ↔ applied A h1 ∧ applied (LeaseTable.exec h1.*1 A) h2.
Proof.
  revert A. induction h1 as [|[op b] h1 IH]; intros A; cbn [applied app]; [naive_solver|].
  rewrite IH. cbn. tauto.
Qed.

Lemma unmarked_ops ops : (unmarked ops).*1 = ops ∧ ∀ A, applied A (unmarked ops).
Proof.
  induction ops as [|op ops [IH1 IH2]]; [done|]. split.
  - change (op :: (unmarked ops).*1 = op :: ops). by rewrite IH1.
  - intros A. split; [done|apply IH2].
Qed.

(** ** Steps in a worker's name *)

(** Publishing a shard and deleting a completed lease are in nobody's name. *)
Definition signed (me : string) (op : LeaseOp) : bool :=
  match op with
  | OpCreate _ o | OpClaim _ o _ | OpRenew _ o _ | OpCheckpoint _ o _ _ | OpComplete _ o _
  | OpRelease _ o _ | OpHeartbeat o => bool_decide (o = me)
  | OpPublish _ _ _ | OpDelete _ => true
  end.

(** How far a lease has come. *)
Definition progress (l : Lease) : option string * bool := (l_checkpoint l, l_completed l).

(** What a step of [me] may make of a row: it deletes completed leases only, moves the
    counter forward, writes the progress of its own leases only, and takes a lease
    over as it is or gives its own up. *)
Definition own_step (me : string) (l : Lease) (row : option Lease) : Prop :=
  match row with
  | None => l_completed l = true
  | Some l' =>
      (l_counter l ≤ l_counter l')%N ∧ l_parents l' = l_parents l ∧
      (progress l' ≠ progress l → l_owner l = Some me) ∧
      (l_owner l' ≠ l_owner l →
         l_owner l' = Some me ∧ progress l' = progress l ∨ l_owner l = Some me ∧ l_owner l' = None)
  end.

Lemma own_step_refl me l : own_step me l (Some l).
Proof. by split_and!. Qed.

Lemma op_row_own me op l row :
  signed me op = true → op_row op (Some l) = Some row → own_step me l row.
Proof.
  intros Hs Hrow. unfold own_step, progress.
  destruct op as [k o|k ps cp|k o c|k o c|k o c q|k o c|k o c|k|o]; cbn in Hs, Hrow; try done;
    try apply bool_decide_eq_true in Hs as ->; unfold held_at in Hrow;
    repeat (case_match; try done); simplify_eq/=.
  all: try match goal with Hh : _ && _ = true |- _ =>
         apply andb_true_iff in Hh as [_ Hh%bool_decide_eq_true] end.
  all: split_and!; try done; try lia; intros; by auto.
Qed.

Lemma op_exec_own me op (B : Table) k l :
  signed me op = true → B !! k = Some l → own_step me l (op_exec B op !! k).
Proof.
  intros Hs Hl. unfold op_exec. destruct (op_apply op B) as [B'|] eqn:Ha; cbn.
  2: { rewrite Hl. apply own_step_refl. }
  destruct (decide (k = op_key op)) as [->|Hne].
  - apply (op_row_own me op); [done|]. rewrite <- Hl. by apply op_apply_row.
  - rewrite (op_apply_key _ _ _ _ Ha Hne), Hl. apply own_step_refl.
Qed.

(** ** What a worker leaves of the table *)

(** During the other calls of a worker the table is left to other writers. *)
Class BesideWorker (W : Type) (table : string) `{BesideTable W table, StopFlag W} := {
  worker_describe : keeps (lawful (table := table)) describe_shards;
  worker_children p : keeps (lawful (table := table)) (describe_child_shards p);
  worker_on_describe : keeps (lawful (table := table)) on_describe_stream;
  worker_acquired s : keeps (lawful (table := table)) (on_lease_acquired s);
  worker_leases_held n : keeps (lawful (table := table)) (on_leases_held n);
  worker_concurrency n : keeps (lawful (table := table)) (on_max_processing_concurrency n);
  worker_stop : keeps (lawful (table := table)) stop_load;
}.

Section life.
Context {W : Type} (st : DynamoDbLeaseStore) (pages : nat) (me : string)
  `{BesideWorker W (ds_table st)}.
Abbreviation rows_of := (rows (table := ds_table st)).

#[local] Instance worker_store : AsyncLeaseStore W := aws_leases st pages.

(** A step of a history: marked, in the worker's name; or one that others may take. *)
Definition attributed (ob : LeaseOp * bool) : Prop :=
  if ob.2 then signed me ob.1 = true else other_op (table := ds_table st) ob.1.

(** Whatever table the world represents: it went through a history of such steps, of
    which the marked ones applied. *)
Definition signs (w w' : W) : Prop :=
  ∀ A, represents (rows_of w) A → ∃ h, represents (rows_of w') (LeaseTable.exec h.*1 A) ∧
    applied A h ∧ Forall attributed h.

#[export] Instance signs_preorder : PreOrder signs.
Proof.
  split; [intros w A HA; by exists []|]. intros w1 w2 w3 H12 H23 A HA.
  destruct (H12 A HA) as (h1 & Hr1 & Ha1 & Hm1). destruct (H23 _ Hr1) as (h2 & Hr2 & Ha2 & Hm2).
  exists (h1 ++ h2). rewrite fmap_app, exec_cat, applied_app. split_and!; try done.
  by apply Forall_app.
Qed.

Lemma attributed_others ops :
  Forall (other_op (table := ds_table st)) ops → Forall attributed (unmarked ops).
Proof. intros Ho. apply Forall_fmap. by eapply Forall_impl. Qed.

Lemma signs_others {A} (m : M W A) : keeps (lawful (table := ds_table st)) m → keeps signs m.
Proof.
  intros Hm w T HT. destruct (Hm w T HT) as (ops & Hops & Hrep).
  destruct (unmarked_ops ops) as (Ho & Happ). exists (unmarked ops).
  rewrite Ho. split_and!; [done|apply Happ|by apply attributed_others].
Qed.

(** A call that makes at most one step, in the worker's name. *)
Lemma signs_one {A} (m : M W A) :
  (∀ w T, represents (rows_of w) T → ∃ ops T',
     Forall (other_op (table := ds_table st)) ops ∧ represents (rows_of (m w).2) T' ∧
     (T' = LeaseTable.exec ops T ∨
      ∃ op, signed me op = true ∧ op_apply op (LeaseTable.exec ops T) = Some T')) →
  keeps signs m.
Proof.
  intros Hm w T HT. destruct (Hm w T HT) as (ops & T' & Hops & Hrep & Hstep).
  apply attributed_others in Hops. destruct (unmarked_ops ops) as (Ho & Happ).
  destruct Hstep as [->|(op & Hs & Hop)].
  { exists (unmarked ops). rewrite Ho. by split_and!. }
  exists (unmarked ops ++ [(op, true)]). rewrite fmap_app, exec_cat, applied_app, Ho. cbn.
  unfold op_exec. rewrite Hop. split_and!; try done. apply Forall_app. split; [done|].
  by apply Forall_singleton.
Qed.

(** The store's calls: the step they make is the one named. *)
Lemma signs_steps {A} op (m : M W A) P :
  steps (ds_table st) op m P → signed me op = true →
  (∀ T T' r, P T T' r → T' = T ∨ op_apply op T = Some T') → keeps signs m.
Proof.
  intros Hm Hs HP. apply signs_one. intros w T HT. destruct (Hm w T HT) as (T0 & T' & (ops & Hops & ->) & Hrep & Ho).
  exists ops, T'. split_and!; [done|done|]. destruct (HP _ _ _ Ho) as [?|?]; [by left|right; by exists op].
Qed.

(** What is done with the answer writes nothing. *)
Lemma signs_map {A B} (m : M W A) (f : A → B) : keeps signs m → keeps signs (a <- m ;; ret (f a)).
Proof. intros Hm. apply keeps_bind; [apply _|done|intros a]. apply keeps_ret; apply _. Qed.

(** ** The calls *)

Lemma signs_list : keeps signs list_leases.
Proof.
  apply signs_map. unfold list_all. generalize (@None Item), (@nil Lease).
  induction pages as [|n IH]; intros start out; cbn [scan_loop]; [apply keeps_ret; apply _|].
  apply keeps_bind; [apply _| |intros resp].
  { apply signs_others. intros w T HT. eapply others_lawful; [apply scan_law|done]. }
  repeat case_match; first [apply IH | apply keeps_ret; apply _].
Qed.

Lemma signs_acquire k : keeps signs (acquire k me).
Proof.
  apply keeps_bind_ok; [apply _|apply signs_map|intros l; apply keeps_ret; apply _].
  apply signs_one. intros w T HT. destruct (acquire_steps (via := by_others) st k me w T HT) as (T0 & T' & (ops & Hops & ->) & Hrep & Ho).
  exists ops, T'. split_and!; [done|done|].
  assert (∀ op, (op = OpCreate k me ∨ ∃ c, op = OpClaim k me c) → signed me op = true) as Hsign.
  { intros op [->|[c ->]]; by apply bool_decide_eq_true. }
  destruct (DynamoDb.acquire st k me w).1 as [l|[]]; cbn in Ho; try by left.
  - destruct Ho as (op & row & Hop & Ha & _). right. exists op. auto.
  - destruct Ho as [?|(op & Hop & Ha)]; [by left|right]. exists op. auto.
Qed.

Ltac signed_op := by apply bool_decide_eq_true.

Lemma signs_checkpoint k n q : keeps signs (checkpoint k me n q).
Proof.
  apply signs_map. eapply signs_steps; [apply (checkpoint_steps st)|signed_op|intros; by eapply atomic_steps].
Qed.
Lemma signs_complete k n : keeps signs (mark_complete k me n).
Proof.
  apply signs_map. eapply signs_steps; [apply (mark_complete_steps st)|signed_op|intros; by eapply atomic_steps].
Qed.
Lemma signs_release k n : keeps signs (release k me n).
Proof.
  apply signs_map. eapply signs_steps; [apply (release_steps st)|signed_op|intros; by eapply atomic_steps].
Qed.
Lemma signs_renew k n : keeps signs (renew k me n).
Proof.
  apply signs_map. eapply signs_steps; [apply (renew_steps st)|signed_op|intros; by eapply atomic_steps].
Qed.
Lemma signs_heartbeat : keeps signs (heartbeat me).
Proof.
  apply signs_map. eapply signs_steps; [apply (heartbeat_steps st)|signed_op|intros; by eapply atomic_steps].
Qed.
Lemma signs_delete k : keeps signs (delete_lease k).
Proof.
  apply signs_map. eapply signs_steps; [apply (delete_steps' st)|done|intros; by eapply atomic_steps].
Qed.
Lemma signs_bid k e : keeps signs (try_acquire_leadership k me e).
Proof.
  apply signs_map. destruct e as [c|].
  - eapply signs_steps; [apply (bid_claim_steps st)|signed_op|intros; by eapply bid_steps].
  - eapply signs_steps; [apply (bid_create_steps st)|signed_op|intros; by eapply bid_steps].
Qed.
Lemma signs_publish k ps cp : keeps signs (create_shard_lease k ps cp).
Proof.
  apply signs_map. unfold DynamoDb.create_shard_lease.
  apply keeps_bind; [apply _| |intros r; repeat case_match; apply keeps_ret; apply _].
  eapply signs_steps; [apply (publish_steps st)|done|intros; by eapply raw_atomic_steps].
Qed.

(** ** The worker *)

Abbreviation kept := (under (S := FleetMem) signs).

Ltac beside := apply keeps_under, signs_others.

Lemma signing_pass t (c : Consumer (W := W)) : st_owner t = me → PassCalls kept t c.
Proof.
  intros Ho. split; [split| |]; intros; rewrite ?Ho.
  - by apply keeps_state; [apply _|].
  - beside. apply table_fetch.
  - apply keeps_under, signs_checkpoint.
  - apply keeps_under, signs_complete.
  - beside. apply table_ended.
  - beside. apply table_lost.
  - beside. apply table_lease_lost.
  - beside. apply table_shard_end.
  - beside. apply table_now.
  - beside. apply table_deliver.
  - beside. apply table_batch.
Qed.

Lemma signing_cycle : CycleCalls kept me.
Proof.
  split; intros; [by apply signing_pass|by apply keeps_state; [apply _|]|beside..].
  - apply table_create.
  - apply table_slot_wait.
  - apply table_queue_depth.
  - apply table_now.
  - apply table_sleep.
Qed.

Lemma memory_kept {A} (m : M (FleetMem * W) A) : (∀ x, (m x).2.2 = x.2) → keeps kept m.
Proof. apply keeps_state; apply _. Qed.

Lemma signing_leads : LeadCalls kept (λ o, o = me).
Proof.
  split; [intros; by apply memory_kept| |split|..]; intros; subst; apply keeps_under.
  - apply signs_list.
  - apply signs_renew.
  - apply signs_bid.
  - apply signs_others, worker_on_describe.
  - apply signs_others, worker_describe.
  - apply signs_others, worker_children.
  - apply signs_publish.
  - apply signs_delete.
Qed.

Lemma signing_worker config : fc_owner config = me → WorkerCallsKept kept (λ o, o = me) config.
Proof.
  intros Hme. split; rewrite ?Hme; intros.
  - apply signing_cycle.
  - apply signing_leads.
  - split; rewrite ?Hme; intros; apply keeps_under;
      [apply signs_list|apply signs_acquire|apply signs_others, worker_acquired].
  - split; rewrite ?Hme; intros; [by apply memory_kept|apply keeps_under..];
      [apply signs_list|apply signs_checkpoint|apply signs_release].
  - apply keeps_under, signs_heartbeat.
  - beside. apply worker_leases_held.
  - beside. apply worker_concurrency.
Qed.
End life.

(** ** From start to stop *)

Section run.
Context `{HashOrder} {W F : Type} (worker : ClientWorker F) (pages : nat)
  `{BesideWorker W (ds_table (cw_leases worker))}.
Variables (polls : nat) (schedules : nat → list nat).
Abbreviation me := (fc_owner (cw_config worker)).
Abbreviation rows_of := (rows (table := ds_table (cw_leases worker))).
Abbreviation signs_me := (signs (cw_leases worker) me).

#[local] Instance run_store : AsyncLeaseStore W := aws_leases (cw_leases worker) pages.

Lemma signing_loop rounds start :
  keeps (in_office (under signs_me) (λ o, o = me)) (run_loop polls worker schedules rounds start).
Proof.
  assert (∀ A (m : M W A), keeps (lawful (table := ds_table (cw_leases worker))) m →
    keeps (in_office (under signs_me) (λ o, o = me)) (outside m)) as Hout.
  { intros A m Hm. apply keeps_office, keeps_under, signs_others, Hm. }
  induction rounds as [|n IH]; cbn [run_loop]; [apply keeps_ret; apply _|].
  apply keeps_bind; [apply _|apply Hout, worker_stop|intros stop].
  case_match; [apply keeps_ret; apply _|].
  apply keeps_bind; [apply _|apply Hout, table_now|intros t].
  apply keeps_bind_ok; [apply _| |intros complete].
  - apply keeps_run_cycle; [apply _|]. exact (signing_worker (cw_leases worker) pages me (cw_config worker) eq_refl).
  - repeat case_match; try (apply keeps_ret; apply _).
    apply keeps_bind; [apply _|apply Hout, table_sleep|intros _; exact IH].
Qed.

Lemma signing_stop : keeps (under signs_me) (release_on_stop worker).
Proof.
  unfold release_on_stop. apply keeps_bind; [apply _|apply keeps_under, signs_others, worker_stop|intros stop].
  case_match; [|apply keeps_ret; apply _].
  apply keeps_bind; [apply _| |intros r; apply keeps_ret; apply _].
  apply keeps_release_owned; [apply _|].
  exact (worker_releases _ _ _ (signing_worker (cw_leases worker) pages me (cw_config worker) eq_refl)).
Qed.

Lemma signing_run rounds (w : W) :
  cw_owner worker = me → signs_me w (client_run polls worker schedules rounds w).2.
Proof.
  intros Hname. unfold client_run.
  pose proof (signs_others (cw_leases worker) me instant_now table_now w) as Hnow.
  destruct (instant_now w) as [start w1]. cbn [snd] in Hnow. etrans; [exact Hnow|].
  pose proof (signing_loop rounds start) as Hl. unfold keeps in Hl.
  match goal with |- context [run_loop _ _ _ _ _ ?x] => specialize (Hl x) end.
  destruct (run_loop _ _ _ _ _ _) as [r [cy [mem w2]]].
  destruct (Hl Hname) as [_ Hw2]. unfold under in Hw2. cbn [fst snd] in Hw2.
  etrans; [exact Hw2|]. repeat case_match; cbn [snd]; try reflexivity.
  pose proof (signing_stop (mem, w2)) as Hs. unfold under in Hs.
  by destruct (release_on_stop worker (mem, w2)) as [? [? ?]]; simplify_eq/=.
Qed.

Lemma build_names env pid n b (w0 w : W) :
  build env pid n b w0 = (Some (Ok worker), w) → cw_owner worker = me.
Proof.
  unfold build. repeat case_match; try done; unfold bind, ret;
    destruct (ensure_table _ _ _) as [[[]|] ?]; by intros [= <- <-].
Qed.

(** C8: a worker that was built runs from start to stop, over the live lease table,
    while other workers write to it.  The table goes through a history of atomic steps
    that are either taken by others, as far as others take any, or this worker's own
    (leadership, shard sync, cleanup, heartbeats, claims, passes, release).  In an own
    step a lease that exists keeps its parents, its counter does not go back, it is
    deleted only if it is complete, it is taken over with its progress or given up by
    this worker, and its checkpoint and completion change only if this worker owns it.
    When the others write in their own names too, the progress of a lease that this
    worker owns changes by its own steps only. *)
Theorem progress_is_written_by_the_owner env pid n b rounds (w0 w : W) A
    (Hbuild : build env pid n b w0 = (Some (Ok worker), w)) (Hrep : represents (rows_of w) A) :
  let w' := (client_run polls worker schedules rounds w : Result (option unit) WorkerError * W).2 in
  let theirs := other_op (table := ds_table (cw_leases worker)) in
  ∃ history, represents (rows_of w') (LeaseTable.exec history.*1 A) ∧ applied A history ∧
    ∀ before op own after, history = before ++ (op, own) :: after →
      let found := LeaseTable.exec before.*1 A in
      (own = false → theirs op) ∧
      ∀ k l, found !! k = Some l →
        (own = true → own_step me l (op_exec found op !! k)) ∧
        ((∀ op', theirs op' → ∃ o, o ≠ me ∧ signed o op' = true) →
           l_owner l = Some me → ∀ l', op_exec found op !! k = Some l' →
           progress l' ≠ progress l → own = true).
Proof.
  cbn zeta. apply build_names in Hbuild.
  destruct (signing_run rounds w Hbuild A Hrep) as (h & Hrep' & Happ & Hatt).
  exists h. split_and!; [done|done|]. intros before op own after ->.
  rewrite Forall_forall in Hatt. assert (attributed (cw_leases worker) me (op, own)) as Hop.
  { apply Hatt. set_solver. }
  split; [by intros ->|]. intros k l Hl. split.
  - intros ->. by apply (op_exec_own _ op).
  - intros Hothers Ho l' Hl' Hp. destruct own; [done|].
    destruct (Hothers op Hop) as (o & Hne & Hs).
    pose proof (op_exec_own o op _ k l Hs Hl) as Hstep. rewrite Hl' in Hstep.
    destruct Hstep as (_ & _ & Hown & _). specialize (Hown Hp). congruence.
Qed.
End run.
