(* ===== verification/LiveWorkerDemo.v ===== *)
(** * A worker from start to stop, with a takeover

    [LiveWorker]'s theorem on the service of [DynamoSim] with the rival of
    [LiveLeasesDemo]: the worker is built, leads, beats, passes its shard, loses the
    lease in the middle of the pass, is stopped, and releases what it still owns. *)

From stdpp Require Import base gmap numbers list strings.
From S2P Require Import Prelude Core Position Coordinator LeaseTable DynamoDb LeaseRefine DynamoSim.
From S2P Require Import Interfaces Metrics CkptDefer Tasks WorkerAws FleetState ShardPass Pool Fleet.
From S2P Require Import LiveLeases LiveLeasesDemo RustClient LiveWorker.

#[local] Existing Instances shared_laws overtaken_source acking_consumers still_clock beside_demo.

Definition owned_by (o : string) (it : Item) : bool :=
  match it !! LEASE_OWNER with Some (AvS o') => bool_decide (o' = o) | _ => false end.

(** The stop is asked for once the rival owns the lease. *)
#[local] Instance stop_when_overtaken : StopFlag SimDb := {
  stop_load := λ w,
    (match sim_rows w !! "s" with Some it => owned_by "b" it | None => false end, w);
  stop_store := ret tt;
}.

Definition demo_builder : WorkerBuilder unit :=
  builder_owner "a" (builder_stream_arn "arn" (builder_lease_table "leases"
    (builder_processor tt WorkerBuilder_default))).

(** The worker that was built. *)
Definition demo_worker : ClientWorker unit :=
  {| cw_source := StreamsSource.DdbStreamsSource_new "arn";
     cw_leases := demo_store;
     cw_factory := (tt, RecordFormat_default);
     cw_config := {| fc_owner := "a"; fc_max_leases := 100; fc_lease_duration_ms := 60000;
                     fc_poll_interval_ms := 1000; fc_initial_position := InitialPosition_default |};
     cw_fleet := Fleet_new; cw_owner := "a"; cw_lease_duration_ms := 60000; cw_max_leases := 100;
     cw_poll_interval_ms := 1000 |}.

#[local] Instance beside_worker_demo : BesideWorker SimDb (ds_table (cw_leases demo_worker)).
Proof. split; intros; intros w; by apply reaches_same. Qed.

Definition demo_life : Result (option unit) WorkerError * SimDb :=
  let _ := run_store demo_worker 1 in client_run 5 demo_worker (λ _, []) 3 demo_db.

(** The shard's row is the rival's, with the progress it had at the takeover; the
    leadership and the heartbeat row are given up. *)
Lemma progress_is_written_by_the_owner_witness :
  (let theirs := other_op (table := ds_table (cw_leases demo_worker)) in
   ∃ history, represents (sim_rows demo_life.2) (LeaseTable.exec history.*1 demo_table) ∧
     applied demo_table history ∧
     ∀ before op own after, history = before ++ (op, own) :: after →
       let found := LeaseTable.exec before.*1 demo_table in
       (own = false → theirs op) ∧
       ∀ k l, found !! k = Some l →
         (own = true → own_step "a" l (op_exec found op !! k)) ∧
         ((∀ op', theirs op' → ∃ o, o ≠ "a" ∧ signed o op' = true) →
            l_owner l = Some "a" → ∀ l', op_exec found op !! k = Some l' →
            progress l' ≠ progress l → own = true)) ∧
  (∀ op, other_op (table := ds_table (cw_leases demo_worker)) op → ∃ o, o ≠ "a" ∧ signed o op = true) ∧
  is_ok demo_life.1 = true ∧
  sim_rows demo_life.2 !! "s" =
    Some (lease_item (fresh_lease "s" (Some "b") 9 (Some "seq-4") ["p"])) ∧
  dom (sim_rows demo_life.2) = {["s"; heartbeat_key "a"; "__shard_sync_leader__"]} ∧
  filter (λ kv, owned_by "a" kv.2 = true) (sim_rows demo_life.2) = ∅.
Proof.
  split.
  { assert (build (λ _, None) 4711 1 demo_builder demo_db = (Some (Ok demo_worker), demo_db)) as Hbuild
      by (vm_compute; reflexivity).
    pose proof (progress_is_written_by_the_owner demo_worker 1 5 (λ _, []) (λ _, None) 4711 1 demo_builder 3
      demo_db demo_db demo_table Hbuild demo_represents) as H.
    exact H. }
  split.
  { intros [] Hop; try done. cbn in Hop. subst. exists "b". by split. }
  repeat split; vm_compute; reflexivity.
Defined.
