(* ===== verification/Handover.v ===== *)
(** * What a lease says to whoever holds it next

    A checkpoint in the lease table is all that the next holder of a lease is told.
    It says that the records up to it were handed to a consumer of the shard, by this
    worker or another one, or were trimmed before; a completed lease says that of the
    whole shard.  A table of which that is true is [sound].  This file states it, that
    later worlds keep it, and which steps of the table keep it; [Cluster] is what one
    worker relies on of the services, its consumers and the other workers. *)

From Stdlib Require Import Lia.
From stdpp Require Import base gmap numbers list strings.
From S2P Require Import Prelude Core Position Coordinator ChangeRecord LeaseTable DynamoDb LeaseRefine.
From S2P Require Import Interfaces Metrics Tasks WorkerAws Stable StreamsSource StreamsReads RustClient.

(** What was handed to a consumer that took it, of which shard; and for which shard a
    consumer was created. *)
Class HandsOver (W : Type) `{ShardConsumerFactory W} := {
  was_handed : W → string → Record_ → Prop;
  consumer_of : Consumer → string → Prop;
}.

(** The tables that there were, up to some moment: a read that is not a consistent one
    may still see their rows. *)
Class TableHistory (W : Type) := was_table : W → Rows → Prop.

(** ** What is known of a shard *)

Section facts.
Context `{RecordCodec} {W : Type} `{StreamsLaws W, HandsOver W}.

(** What may happen in the world: the stream goes on, and nothing is taken back. *)
Definition grows (w w' : W) : Prop :=
  evolves w w' ∧ ∀ s r, was_handed w s r → was_handed w' s r.

#[export] Instance grows_preorder : PreOrder grows.
Proof.
  split; [intros w; split; [reflexivity|done]|]. intros w1 w2 w3 [H12 Hh] [H23 Hh'].
  split; [by etrans|eauto].
Qed.

(** The record at this place was handed over, or is trimmed. *)
Definition accounted (w : W) (s : string) (j : nat) : Prop :=
  (∃ r, at_place w s j r ∧ was_handed w s r) ∨ j < trim_horizon w s.

Definition covered (w : W) (s : string) (k : nat) : Prop := ∀ j, j < k → accounted w s j.

(** Reading on after this position loses nothing. *)
Definition reached (w : W) (s : string) (after : option string) : Prop :=
  ∃ k, stands w s after k ∧ covered w s k.

(** There will be no more records, and all that there are were handed over. *)
Definition finished (w : W) (s : string) : Prop :=
  sealed w s ∧ covered w s (length (shard_log w s)).

Lemma at_place_grows w w' s j r : grows w w' → at_place w s j r → at_place w' s j r.
Proof.
  intros [[Hs _] _] (sdk & Hj & Hr). exists sdk. split; [|done].
  eapply prefix_lookup_Some; [exact Hj|]. apply Hs.
Qed.

Lemma covered_grows w w' s k : grows w w' → covered w s k → covered w' s k.
Proof.
  intros Hl Hc j Hj. destruct (Hc j Hj) as [(r & Hr & Hh)|Ht].
  - left. exists r. split; [by eapply at_place_grows|by apply Hl].
  - right. destruct Hl as [[Hs _] _]. destruct (Hs s) as (_ & ? & _). lia.
Qed.

Lemma reached_grows w w' s after : grows w w' → reached w s after → reached w' s after.
Proof.
  intros Hl (k & Hk & Hc). exists k. split; [|by eapply covered_grows].
  eapply stands_evolves; [apply Hl|done].
Qed.

Lemma finished_grows w w' s : grows w w' → finished w s → finished w' s.
Proof.
  intros Hl [Hse Hc]. destruct Hl as [[Hs Hi] Hh] eqn:E. destruct (Hs s) as (_ & _ & Hse').
  destruct (Hse' Hse) as [? Hlen]. split; [done|]. rewrite Hlen. by eapply covered_grows.
Qed.

Lemma reached_none w s : reached w s None.
Proof. exists 0. split; [done|]. intros j Hj. lia. Qed.

Lemma reached_known w s after : reached w s after → known w s after.
Proof. intros (k & Hk & _). right. by exists k. Qed.

(** The sentinel marks where reading began, not what was handed over. *)
Lemma reached_not_latest w s : ¬ reached w s (Some SENTINEL_LATEST).
Proof. intros (k & [Hne _] & _). done. Qed.

(** ** A batch that was handed over *)

Lemma serves_covered w s n rs (e : Prop) places :
  serves w s n rs e places → covered w s n → (∀ r, r ∈ rs → was_handed w s r) →
  covered w s (next_place n places) ∧ (e → finished w s).
Proof.
  intros (_ & _ & HF & Hcov & Hend) Hn Hh.
  assert (∀ j, j ∈ places → accounted w s j) as Hin.
  { intros j [i Hi]%list_elem_of_lookup. destruct (Forall2_lookup_l _ _ _ _ _ HF Hi) as (r & Hr & Hat).
    left. exists r. split; [done|]. apply Hh. by eapply list_elem_of_lookup_2. }
  split.
  - intros j Hj. destruct (decide (j < n)) as [|Hge]; [by apply Hn|].
    destruct (Hcov j) as [?|?]; [lia|by apply Hin|by right].
  - intros He. destruct (Hend He) as [Hse Hall]. split; [done|]. intros j Hj.
    destruct (decide (j < n)) as [|Hge]; [by apply Hn|].
    destruct (Hall j) as [?|?]; [lia|by apply Hin|by right].
Qed.

Lemma polled_reached w s after b :
  reached w s after → polled w s after b → (∀ r, r ∈ rb_records b → was_handed w s r) →
  reached w s (advanced_after after (last_seq (rb_records b))) ∧
  (rb_shard_end b = true → finished w s).
Proof.
  intros (n & Hn & Hc) [_ Hp] Hh. destruct (Hp n Hn) as (places & Hserve & Hst).
  destruct (serves_covered _ _ _ _ _ _ Hserve Hc Hh) as [Hc' Hf]. split; [|done]. by eexists.
Qed.

(** An ack of one of its records. *)
Lemma acked_reached w s after b r :
  reached w s after → polled w s after b → (∀ r, r ∈ rb_records b → was_handed w s r) →
  r ∈ rb_records b → reached w s (Some (rec_seq r)).
Proof.
  intros (n & Hn & Hc) [_ Hp] Hh [i Hi]%list_elem_of_lookup. destruct (Hp n Hn) as (places & Hserve & _).
  destruct (serves_covered _ _ _ _ _ _ Hserve Hc Hh) as [Hc' _].
  destruct Hserve as (Hs & _ & HF & _).
  destruct (Forall2_lookup_r _ _ _ _ _ HF Hi) as (j & Hj & sdk & Hat & Hrec).
  destruct (converts w s j sdk Hat) as (r' & Hr' & Hseq). rewrite Hrec in Hr'. injection Hr' as <-.
  destruct (log_seq w s j sdk Hat) as (q & Hq & Hne). exists (S j). split.
  - split; [congruence|]. by exists j, sdk.
  - intros j' Hj'. apply Hc'.
    pose proof (next_place_le n places j Hs (list_elem_of_lookup_2 _ _ _ Hj)). lia.
Qed.

(** ** The table *)

Definition row_sound (w : W) (s : string) (cp : option string) (completed : bool) : Prop :=
  reached w s cp ∧ (completed = true → finished w s).

Definition sound (w : W) (A : Table) : Prop :=
  ∀ s l, A !! s = Some l → row_sound w s (l_checkpoint l) (l_completed l).

(** A step that says something of a shard is taken only when it is so. *)
Definition backed (w : W) (op : LeaseOp) : Prop :=
  match op with
  | OpCheckpoint k _ _ q => reached w k (Some q)
  | OpComplete k _ _ => finished w k
  | OpPublish k _ cp => reached w k cp
  | _ => True
  end.

Lemma backed_grows w w' op : grows w w' → backed w op → backed w' op.
Proof. intros Hl. destruct op; cbn; try done; first [by apply reached_grows|by apply finished_grows]. Qed.

Lemma row_sound_grows w w' s cp d : grows w w' → row_sound w s cp d → row_sound w' s cp d.
Proof. intros Hl [Hr Hf]. split; [by eapply reached_grows|]. intros Hd. by eapply finished_grows, Hf. Qed.

Lemma sound_grows w w' A : grows w w' → sound w A → sound w' A.
Proof. intros Hl Hs s l Hsl. by eapply row_sound_grows, Hs. Qed.

Lemma sound_apply w op A A' : sound w A → backed w op → op_apply op A = Some A' → sound w A'.
Proof.
  intros Hs Hb Ha k l' Hl'. destruct (decide (k = op_key op)) as [->|Hne].
  2: { rewrite (op_apply_key _ _ _ _ Ha Hne) in Hl'. by apply Hs. }
  apply op_apply_row in Ha. rewrite Hl' in Ha.
  pose proof (reached_none w (op_key op)) as Hnone.
  destruct (A !! op_key op) as [l|] eqn:Hl;
    [destruct (Hs _ _ Hl) as [Hr Hf]|]; destruct op; cbn in Ha, Hb, Hl;
    repeat (case_match; try done); simplify_eq/=; by split.
Qed.

Lemma sound_exec w ops A : sound w A → Forall (backed w) ops → sound w (LeaseTable.exec ops A).
Proof.
  intros Hs Hops. revert A Hs. induction Hops as [|op ops Hop _ IH]; intros A Hs; [done|]. cbn.
  apply IH. unfold op_exec. destruct (op_apply op A) as [A'|] eqn:Ha; [|done]. cbn. by eapply sound_apply.
Qed.
End facts.

(** ** What a worker relies on, and what it guarantees *)

Section rely.
Context `{RecordCodec} {W : Type} {table : string} `{StreamsLaws W, HandsOver W, TableHistory W, !DynamoClient W, !DynamoLaws W table}.
Abbreviation rows_of := (rows (table := table)).

(** The table went through steps that are backed. *)
Definition moved (w : W) (t t' : Rows) : Prop :=
  ∀ A, represents t A → ∃ ops, Forall (backed w) ops ∧ represents t' (LeaseTable.exec ops A).

(** So did the tables that there were meanwhile. *)
Definition remembers (w w' : W) (A : Table) : Prop :=
  ∀ t, was_table w' t → was_table w t ∨ ∃ ops, Forall (backed w') ops ∧ represents t (LeaseTable.exec ops A).
Definition recalls (w w' : W) : Prop := ∀ A, represents (rows_of w) A → remembers w w' A.

Definition later (w w' : W) : Prop :=
  grows w w' ∧ moved w' (rows_of w) (rows_of w') ∧ recalls w w'.

(** The table and all that there were before are sound. *)
Definition sound_rows (w : W) (t : Rows) : Prop := ∃ A, represents t A ∧ sound w A.
Definition sound_table (w : W) : Prop :=
  sound_rows w (rows_of w) ∧ ∀ t, was_table w t → sound_rows w t.

(** Between the table before a call and the one it finds. *)
Definition still_backed (w w' : W) (A A' : Table) : Prop :=
  grows w w' ∧ remembers w w' A ∧ ∃ ops, Forall (backed w') ops ∧ A' = LeaseTable.exec ops A.

Lemma backed_all_grows w w' ops : grows w w' → Forall (backed w) ops → Forall (backed w') ops.
Proof. intros Hl Hops. eapply Forall_impl; [exact Hops|]. intros op. by apply backed_grows. Qed.

Lemma moved_trans w w' t1 t2 t3 : grows w w' → moved w t1 t2 → moved w' t2 t3 → moved w' t1 t3.
Proof.
  intros Hl H12 H23 A HA. destruct (H12 A HA) as (ops1 & Hops1 & Hr1).
  destruct (H23 _ Hr1) as (ops2 & Hops2 & Hr2). exists (ops1 ++ ops2). split.
  - apply Forall_app_2; [by eapply backed_all_grows|done].
  - unfold LeaseTable.exec in *. by rewrite foldl_app.
Qed.

Lemma remembers_trans w1 w2 w3 A ops :
  grows w2 w3 → Forall (backed w2) ops → remembers w1 w2 A →
  remembers w2 w3 (LeaseTable.exec ops A) → remembers w1 w3 A.
Proof.
  intros Hg Hops H12 H23 t Ht. destruct (H23 t Ht) as [Ht2|(ops2 & Hops2 & Hrep)].
  - destruct (H12 t Ht2) as [?|(ops1 & Hops1 & Hrep)]; [by left|right]. exists ops1.
    split; [by eapply backed_all_grows|done].
  - right. exists (ops ++ ops2). split; [apply Forall_app_2; [by eapply backed_all_grows|done]|].
    unfold LeaseTable.exec in *. by rewrite foldl_app.
Qed.

#[export] Instance later_preorder : PreOrder later.
Proof.
  split.
  - intros w. split_and!; [reflexivity|by intros A HA; exists []|by intros A HA t Ht; left].
  - intros w1 w2 w3 (H12 & Hm & Hr) (H23 & Hm' & Hr'). split_and!; [by etrans|by eapply moved_trans|].
    intros A HA. destruct (Hm A HA) as (ops & Hops & HB). eapply remembers_trans; eauto.
Qed.

(** What was true stays true. *)
Lemma reached_later w w' s after : later w w' → reached w s after → reached w' s after.
Proof. intros [Hl _]. by apply reached_grows. Qed.
Lemma finished_later w w' s : later w w' → finished w s → finished w' s.
Proof. intros [Hl _]. by apply finished_grows. Qed.
Lemma row_sound_later w w' s cp d : later w w' → row_sound w s cp d → row_sound w' s cp d.
Proof. intros [Hl _]. by apply row_sound_grows. Qed.

Lemma backed_sound w w' A t : grows w w' → sound w A →
  (∃ ops, Forall (backed w') ops ∧ represents t (LeaseTable.exec ops A)) → sound_rows w' t.
Proof.
  intros Hl Hs (ops & Hops & Hrep). eexists. split; [exact Hrep|].
  apply sound_exec; [by eapply sound_grows|done].
Qed.

Lemma moved_sound w w' t t' : grows w w' → moved w' t t' → sound_rows w t → sound_rows w' t'.
Proof. intros Hl Hm (A & HA & Hs). apply (backed_sound w w' A); auto. Qed.

Lemma past_sound w w' t : grows w w' → recalls w w' → sound_table w → was_table w' t → sound_rows w' t.
Proof.
  intros Hg Hr [(A & HA & Hs) Hp] Ht. destruct (Hr A HA t Ht) as [(B & HB & Hs')%Hp|?].
  - exists B. split; [done|by eapply sound_grows].
  - by apply (backed_sound w w' A).
Qed.

Lemma sound_table_later w w' : later w w' → sound_table w → sound_table w'.
Proof.
  intros (Hl & Hm & Hr) Hs. split; [exact (moved_sound _ _ _ _ Hl Hm (proj1 Hs))|]. intros t. by apply (past_sound w).
Qed.

Definition guards : relation W := advances sound_table later.

Lemma calls_guard {A} (m : M W A) : keeps later m → keeps guards m.
Proof. intros Hm w Hs. split; [by eapply sound_table_later, Hs|apply Hm]. Qed.
End rely.
Arguments later {_ W table _ _ _ _ _ _}.
Arguments moved {_ W _ _ _}.
Arguments recalls {_ W table _ _ _ _ _ _}.
Arguments sound_table {_ W table _ _ _ _ _ _}.
Arguments guards {_ W table _ _ _ _ _ _}.

(** The other workers' steps are backed; a scan is not a consistent read, so each row
    that it gives is a row of the table as it is, as it was at some moment during the
    call, or as it was at any moment before; a consumer that takes a batch was handed
    it; and during the other calls, too, no other steps are taken. *)
Class Cluster (W : Type) (table : string) `{RecordCodec, StreamsLaws W, HandsOver W, TableHistory W, DynamoLaws W table,
    MetricsSink W, Clock W, StopFlag W} := {
  cluster_others w w' t : others w w' t →
    grows w w' ∧ moved w' (rows (table := table) w) t ∧ recalls (table := table) w w';
  cluster_scan start w page last w' it : scan table start w = (Ok (page, last), w') → it ∈ page →
    ∃ t k, (was_table w t ∨ others w w' t) ∧ t !! k = Some it;

  cluster_consumer s w : consumer_of (create s w).1 s;
  cluster_handed c s rs ack w w' r :
    consumer_of c s → deliver c rs w = (Ok ack, w') → r ∈ rs → was_handed w' s r;

  later_iterator arn sh ty q : keeps (later (table := table)) (sdk_get_shard_iterator arn sh ty q);
  later_records it limit : keeps (later (table := table)) (sdk_get_records it limit);
  later_describe arn f start : keeps (later (table := table)) (sdk_describe_stream arn f start);
  later_wait ms : keeps (later (table := table)) (sdk_sleep_ms ms);
  later_unix_now : keeps (later (table := table)) sdk_unix_now_ms;
  later_create s : keeps (later (table := table)) (create s);
  later_deliver c rs : keeps (later (table := table)) (deliver c rs);
  later_ended c : keeps (later (table := table)) (consumer_ended c);
  later_lost c : keeps (later (table := table)) (consumer_lost c);
  later_batch m : keeps (later (table := table)) (on_batch m);
  later_shard_end s : keeps (later (table := table)) (on_shard_end s);
  later_describe_count : keeps (later (table := table)) on_describe_stream;
  later_acquired s : keeps (later (table := table)) (on_lease_acquired s);
  later_lease_lost s : keeps (later (table := table)) (on_lease_lost s);
  later_held n : keeps (later (table := table)) (on_leases_held n);
  later_slot_wait s n : keeps (later (table := table)) (on_processing_slot_wait s n);
  later_limit n : keeps (later (table := table)) (on_max_processing_concurrency n);
  later_queue_depth n : keeps (later (table := table)) (on_processing_queue_depth n);
  later_now : keeps (later (table := table)) instant_now;
  later_sleep d : keeps (later (table := table)) (sleep d);
  later_stop : keeps (later (table := table)) stop_load;
}.

(** ** The calls of the lease store *)

Section store.
Context `{Cluster W (ds_table st)} (pages : nat).
Abbreviation guarded := (guards (table := ds_table st)).
Abbreviation all_sound := (sound_table (table := ds_table st)).
Abbreviation rows_of := (rows (table := ds_table st)).

#[local] Instance store_of : AsyncLeaseStore W := aws_leases st pages.

#[export] Instance still_backed_meanwhile : Meanwhile (ds_table st) still_backed.
Proof.
  split.
  - intros w w' t A Ho HA. destruct (cluster_others w w' t Ho) as (Hl & Hm & Hr).
    destruct (Hm A HA) as (ops & Hops & Hrep). eexists. split; [|exact Hrep]. split_and!; [done|by apply Hr|by exists ops].
  - intros w1 w2 w3 A B C (H12 & Hr12 & ops1 & Ho1 & ->) (H23 & Hr23 & ops2 & Ho2 & ->).
    split_and!; [by etrans|by eapply remembers_trans|].
    exists (ops1 ++ ops2). unfold LeaseTable.exec. rewrite foldl_app.
    split; [apply Forall_app_2; [by eapply backed_all_grows|done]|done].
Qed.

(** A call that leaves a table to others, and takes at most one more step. *)
Lemma call_later {A} (m : M W A) (y : W) :
  (∀ B, represents (rows_of y) B → ∃ B0 B', still_backed y (m y).2 B B0 ∧ represents (rows_of (m y).2) B' ∧
     (B' = B0 ∨ ∃ op, backed (m y).2 op ∧ op_apply op B0 = Some B')) →
  all_sound y → all_sound (m y).2 ∧ later y (m y).2.
Proof.
  intros Hm Hs. assert (later y (m y).2) as Hl.
  { pose proof Hs as [(B & HB & _) _]. destruct (Hm B HB) as (? & ? & [Hl _] & _). split_and!; [exact Hl| |]; clear B HB.
    - intros B HB. destruct (Hm B HB) as (B0 & B' & (_ & _ & ops & Hops & ->) & Hrep & [->|(op & Hb & Ha)]); [by exists ops|].
      exists (ops ++ [op]). split; [apply Forall_app_2; [done|by apply Forall_singleton]|].
      unfold LeaseTable.exec in *. rewrite foldl_app. change (represents (rows_of (m y).2) (op_exec (foldl op_exec B ops) op)).
      unfold op_exec at 1. by rewrite Ha.
    - intros B HB. by destruct (Hm B HB) as (B0 & B' & (_ & Hr & _) & _). }
  split; [by eapply sound_table_later|done].
Qed.

(** A step of the store that is backed when it is taken. *)
Lemma steps_guard {A} op (m : M W A) P x :
  steps_via (table := ds_table st) still_backed op m P →
  (∀ T T' r, P T T' r → T' = T ∨ op_apply op T = Some T') → (∀ y, later x y → backed y op) →
  does all_sound later m (λ _ _, True) x.
Proof.
  intros Hm HP Hb y Hxy Hy. destruct (call_later m y) as [Hs Hl]; [|done|done].
  intros B HB. destruct (Hm y B HB) as (B0 & B' & Hvia & Hrep & Ho). exists B0, B'. split_and!; [done..|].
  destruct (HP _ _ _ Ho) as [?|Ha]; [by left|right]. exists op. split; [|done].
  apply (backed_grows y); [apply Hvia|]. by apply Hb.
Qed.

Lemma does_map {A B} (m : M W A) (f : A → B) x :
  does all_sound later m (λ _ _, True) x →
  does all_sound later (a <- m ;; ret (f a)) (λ _ _, True) x.
Proof. intros Hm. eapply does_bind; [apply _|exact Hm|]. intros a y _ _. apply does_ret; [apply _|done]. Qed.

Lemma store_checkpoint k o n q x :
  reached x k (Some q) → does all_sound later (checkpoint k o n q) (λ _ _, True) x.
Proof.
  intros Hr. apply does_map. eapply steps_guard; [apply (checkpoint_steps st)| |].
  - intros T T' r. apply atomic_steps.
  - intros y Hy. by eapply reached_later.
Qed.

Lemma store_complete k o n x :
  finished x k → does all_sound later (mark_complete k o n) (λ _ _, True) x.
Proof.
  intros Hf. apply does_map. eapply steps_guard; [apply (mark_complete_steps st)| |].
  - intros T T' r. apply atomic_steps.
  - intros y Hy. by eapply finished_later.
Qed.

Lemma store_publish k ps x : does all_sound later (create_shard_lease k ps None) (λ _ _, True) x.
Proof.
  apply does_map. eapply steps_guard; [apply (create_shard_steps st)| |].
  - intros T T' [u|[]] Ho; cbn in Ho; try done. subst T'. unfold op_exec.
    destruct (op_apply _ T); auto.
  - intros y _. apply reached_none.
Qed.

(** The other writes say nothing of a shard. *)
Lemma store_step {A B} op (m : M W (Result A LeaseError)) (f : Result A LeaseError → B) P :
  steps_via (table := ds_table st) still_backed op m P →
  (∀ T T' r, P T T' r → T' = T ∨ op_apply op T = Some T') → (∀ y, backed y op) →
  keeps guarded (r <- m ;; ret (f r)).
Proof.
  intros Hm HP Hb. apply does_keeps; [apply _|]. intros x. apply does_map. by eapply steps_guard.
Qed.

Lemma store_renew k o n : keeps guarded (renew k o n).
Proof. eapply store_step; [apply (renew_steps st)|intros ???; apply atomic_steps|done]. Qed.
Lemma store_release k o n : keeps guarded (release k o n).
Proof. eapply store_step; [apply (release_steps st)|intros ???; apply atomic_steps|done]. Qed.
Lemma store_delete k : keeps guarded (delete_lease k).
Proof. eapply store_step; [apply (delete_steps' st)|intros ???; apply atomic_steps|done]. Qed.
Lemma store_heartbeat o : keeps guarded (heartbeat o).
Proof. eapply store_step; [apply (heartbeat_steps st)|intros ???; apply atomic_steps|done]. Qed.
Lemma store_bid k o e : keeps guarded (try_acquire_leadership k o e).
Proof.
  destruct e as [c|].
  - eapply store_step; [apply (bid_claim_steps st)|intros ???; apply bid_steps|done].
  - eapply store_step; [apply (bid_create_steps st)|intros ???; apply bid_steps|done].
Qed.

Lemma store_acquire k o : keeps guarded (acquire k o).
Proof.
  apply does_keeps; [apply _|]. intros x. eapply does_bind_ok with (P := λ _ _, True);
    [apply _|apply does_map|intros a y _ _; apply does_ret; [apply _|done]|done].
  intros y _ Hy. destruct (call_later (DynamoDb.acquire st k o) y) as [Hs Hl]; [|done|done].
  intros B HB. destruct (acquire_steps (via := still_backed) st k o y B HB) as (B0 & B' & Hvia & Hrep & Ho).
  exists B0, B'. split_and!; [done..|].
  assert (∀ op, (op = OpCreate k o ∨ ∃ c, op = OpClaim k o c) → backed (DynamoDb.acquire st k o y).2 op) as Hop
    by (by intros op [->|[c ->]]).
  destruct (DynamoDb.acquire st k o y).1 as [l|[]]; cbn in Ho; try by left.
  - destruct Ho as (op & row & ? & ? & _). right. exists op. auto.
  - destruct Ho as [?|(op & ? & ?)]; [by left|right]. exists op. auto.
Qed.

(** ** A scan *)

Definition raw_sound (w : W) (r : RawLease) : Prop :=
  row_sound w (rl_lease_key r) (rl_checkpoint r) (rl_completed r).

Lemma raw_sound_later w w' rs : later w w' → Forall (raw_sound w) rs → Forall (raw_sound w') rs.
Proof. intros Hl Hrs. eapply Forall_impl; [exact Hrs|]. intros r. by apply row_sound_later. Qed.

Lemma scanned_sound w t it : sound_rows w t → (∃ k, t !! k = Some it) → raw_sound w (to_raw (item_to_lease it)).
Proof.
  intros (A & [-> Hkey] & Hs) [k Hk]. rewrite lookup_fmap in Hk.
  apply fmap_Some in Hk as (l & Hl & ->). unfold raw_sound, to_raw.
  cbn [rl_lease_key rl_checkpoint rl_completed]. destruct (lease_item_read l) as (-> & -> & ->).
  rewrite (Hkey _ _ Hl). by apply Hs.
Qed.

Definition scanned (x : W) {E} (r : Result (list RawLease) E) : Prop :=
  match r with Ok rs => Forall (raw_sound x) rs | Err _ => True end.

Lemma scan_page start x :
  does all_sound later (scan (ds_table st) start)
    (λ r y, match r with
            | Ok (page, _) => Forall (raw_sound y) (to_raw <$> (item_to_lease <$> page))
            | Err _ => True end) x.
Proof.
  intros y _ Hy. pose proof (scan_law W (ds_table st) start y) as Ho. cbn zeta in Ho.
  destruct (scan (ds_table st) start y) as [r z] eqn:Hscan. cbn [fst snd] in *.
  pose proof (cluster_others y z _ Ho) as Hl. assert (all_sound z) as Hz by (by eapply sound_table_later).
  split_and!; [done|exact Hl|].
  - destruct r as [[page last]|e]; [|done]. rewrite <- list_fmap_compose. apply Forall_fmap, Forall_forall.
    intros it Hit. destruct (cluster_scan _ _ _ _ _ _ Hscan Hit) as (t & k & Ht & Hk).
    apply (scanned_sound z t); [|by exists k]. destruct Ht as [(B & HB & Hs)%Hy|Ht].
    + exists B. split; [done|]. eapply sound_grows; [apply Hl|done].
    + destruct (cluster_others _ _ _ Ht) as (Hg & Hm & _). apply (moved_sound y z (rows_of y)); [done..|exact (proj1 Hy)].
Qed.

Lemma store_list x : does all_sound later list_leases (λ r y, scanned y r) x.
Proof.
  eapply does_bind with (P := λ r y, match r with
    | Some (Ok ls) => Forall (raw_sound y) (to_raw <$> ls) | _ => True end); [apply _| |].
  2: { intros [[ls|e]|] y _ Hr; (apply does_ret; [apply _|]); intros z Hyz _; cbn; try done.
       by eapply raw_sound_later. }
  unfold list_all. assert (Forall (raw_sound x) (to_raw <$> [])) as Hout by constructor. revert Hout.
  generalize (@None Item), (@nil Lease). intros start out Hout. revert x start out Hout.
  induction pages as [|n IH]; intros x start out Hout; cbn [scan_loop]; [by apply does_ret; [apply _|]|].
  eapply does_bind; [apply _|apply scan_page|].
  intros [[page [last|]]|e] y Hxy Hp; cbn zeta; [apply IH| |by apply does_ret; [apply _|]].
  - rewrite fmap_app. apply Forall_app. split; [by eapply raw_sound_later|done].
  - apply does_ret; [apply _|]. intros z Hyz _. rewrite fmap_app. apply Forall_app.
    split; [apply (raw_sound_later x)|apply (raw_sound_later y)]; try done. by etrans.
Qed.
End store.
