(* ===== verification/Failover.v ===== *)
(** * No record is lost, whoever holds the leases

    A worker of [clients/rust/src/lib.rs] over the live stream and the live lease
    table, beside other workers ([Cluster] of [Handover]): a sound table before its
    run is a sound table after it, so whoever takes a lease over resumes behind
    nothing but records that were handed to a consumer of the shard, or trimmed.  That
    is also all that the worker asks of the others, so it holds of any number of them.

    The proof is by the rule of [Stable]: what a pass knows (a position it has
    reached, a shard it has finished) survives whatever the other tasks and the other
    workers do. *)

From Stdlib Require Import Lia.
From stdpp Require Import base gmap sets numbers list strings.
From S2P Require Import Prelude Core Position Coordinator Leader LeaseTable DynamoDb LeaseRefine.
From S2P Require Import ChangeRecord Interfaces Metrics CkptDefer Tasks Stable WorkerAws LeaderElection.
From S2P Require Import FleetState ShardPass PassCalls Pool FleetSync Fleet CycleCalls WorkerCalls.
From S2P Require Import StreamsSource StreamsReads LiveFleet LiveCheckpoints RustClient Handover.

#[export] Instance beside_stop {W} `{StopFlag W} : StopFlag (Cursors * W) := {
  stop_load := lift_m stop_load;
  stop_store := lift_m stop_store;
}.

Section worker.
Context `{HashOrder} {W : Type} {st : DynamoDbLeaseStore} `{Cluster W (ds_table st), !AcksDelivered W}.
Variables (src : DdbStreamsSource) (pages : nat).
Abbreviation V := (Cursors * W)%type.
Abbreviation World := (FleetMem * V)%type.
Abbreviation all_sound := (sound_table (table := ds_table st)).
Abbreviation guarded := (guards (table := ds_table st)).
Abbreviation anyway := (λ _ _, True).

#[local] Instance far_store : AsyncLeaseStore W := aws_leases st pages.
#[local] Instance far_source : AsyncStreamSource V := aws_source src pages.

(** ** What holds wherever another task may run *)

(** The source's iterators are good, the table is sound, and an ack that is kept in
    memory is of a position that was reached. *)
Definition source_kept (v : V) : Prop := cursors_ok v ∧ all_sound v.2.

Definition acks_kept (mem : FleetMem) (w : W) : Prop :=
  ∀ s q, pending_of mem s = Some q → reached w s (Some q).

Definition kept (x : World) : Prop := acks_kept x.1 x.2.2 ∧ source_kept x.2.

Definition onward : relation World := under (under later).

#[local] Instance onward_preorder : PreOrder onward.
Proof. apply _. Qed.

Lemma acks_later mem w w' : later w w' → acks_kept mem w → acks_kept mem w'.
Proof. intros Hl Ha s q Hq. by eapply reached_later, Ha. Qed.

Lemma source_later cs w w' : later w w' → source_kept (cs, w) → all_sound w' → source_kept (cs, w').
Proof. intros [[He _] _] [Hc _] Hs. split; [by eapply cursors_ok_evolves|done]. Qed.

(** A call beside the source, and one of the source. *)
Lemma far_call {A} (m : M V A) Q (x : World) :
  does source_kept (under later) m Q x.2 → does kept onward (lift_m m) (λ a y, Q a y.2) x.
Proof.
  destruct x as [mem v]. apply (does_lift source_kept); [by intros [mem' v'] [_ ?]|].
  intros mem' v1 v2 Hl [Ha _] Hs. split; [|done]. eapply acks_later; [exact Hl|done].
Qed.

Lemma beside_call {A} (m : M W A) Q (x : World) :
  does all_sound later m Q x.2.2 → does kept onward (lift_m (lift_m m)) (λ a y, Q a y.2.2) x.
Proof.
  intros Hm. destruct x as [mem [cs w]]. apply (far_call _ (λ a v, Q a v.2)).
  apply (does_lift all_sound); [by intros v [_ ?]| |exact Hm]. intros cs' w1 w2. apply source_later.
Qed.

Lemma outer_call {A} (m : M W A) : keeps guarded m → keeps (advances kept onward) (lift_m (lift_m m)).
Proof.
  intros Hm. apply does_keeps; [apply _|]. intros x. apply (beside_call m anyway). by apply keeps_does; [apply _|].
Qed.

Lemma source_call {A} (m : M V A) :
  keeps (advances source_kept (under later)) m → keeps (advances kept onward) (lift_m m).
Proof. intros Hm. apply does_keeps; [apply _|]. intros x. apply (far_call m anyway). by apply keeps_does; [apply _|]. Qed.

(** Memory. *)
Lemma memory_call {A} (m : M World A) (Q : A → World → Prop) x :
  (∀ y, kept y → (m y).2.2 = y.2 ∧ (onward x y → acks_kept (m y).2.1 y.2.2 ∧ Q (m y).1 (m y).2)) →
  does kept onward m Q x.
Proof.
  intros Hm y Hxy Hy. destruct (Hm y Hy) as [Hv Hq]. destruct (Hq Hxy) as [Ha HQ]. split_and!; [|by unfold onward, under; rewrite Hv|done].
  split; rewrite Hv; [done|apply Hy].
Qed.

(** Operations that forget acks, or none. *)
Lemma forgetting_call (f : CkptDefer → CkptDefer) :
  (∀ d s q, resume_from (f d) s = Some q → resume_from d s = Some q) →
  keeps (advances kept onward) (defer_do (W := V) f).
Proof.
  intros Hf. apply does_keeps; [apply _|]. intros x. apply memory_call. intros [mem v] [Ha _].
  split; [done|]. intros _. split; [|done]. intros s q. unfold pending_of. cbn.
  destruct (fm_ckpt_defer mem) as [d|] eqn:Hd; [|done]. cbn. intros Hq%Hf. apply Ha.
  cbn. unfold pending_of. by rewrite Hd.
Qed.

Lemma get_call {A} (f : FleetMem → A) : keeps (advances kept onward) (mem_get (W := V) f).
Proof. intros x Hx. split; [done|]. change (onward x x). reflexivity. Qed.

Lemma forget_resumes d s s' q : resume_from (forget d s) s' = Some q → resume_from d s' = Some q.
Proof.
  destruct (decide (s' = s)) as [->|Hne]; [by rewrite forget_resume|].
  unfold resume_from. by rewrite (proj2 (proj2 (proj2 (defer_frame d s s' EmptyString 0%N Hne)))).
Qed.

Lemma persisted_resumes d s t s' q :
  resume_from (persisted d s t) s' = Some q → resume_from d s' = Some q.
Proof.
  destruct (decide (s' = s)) as [->|Hne]; [by rewrite persisted_resume|].
  unfold resume_from. by rewrite (proj1 (proj2 (defer_frame d s s' EmptyString t Hne))).
Qed.

Lemma record_call s ack t x :
  reached x.2.2 s (Some ack) →
  does kept onward (defer_call (W := V) (λ d, record_ack d s ack t))
    (λ r y, ∀ q, r = Some (Some q) → reached y.2.2 s (Some q)) x.
Proof.
  intros Hr. apply memory_call. intros [mem v] [Ha _]. unfold defer_call. cbn [fst snd].
  destruct (fm_ckpt_defer mem) as [d|] eqn:Hd; [|split; [done|]; by split].
  destruct (record_ack d s ack t) as [due d'] eqn:Hrec. cbn [fst snd].
  split; [done|]. intros Hxy. assert (reached v.2 s (Some ack)) as Hr' by (by eapply reached_later).
  split.
  - intros s' q. unfold pending_of. cbn. replace d' with (record_ack d s ack t).2 by (by rewrite Hrec).
    destruct (decide (s' = s)) as [->|Hne]; [rewrite record_ack_resume; congruence|]. unfold resume_from.
    rewrite (proj1 (defer_frame d s s' ack t Hne)). intros Hq. apply Ha. unfold pending_of. cbn. by rewrite Hd.
  - intros q [= ->]. by rewrite (record_ack_due d s ack t q) by (by rewrite Hrec).
Qed.

Lemma take_call s x :
  does kept onward (defer_call (W := V) (λ d, take_pending d s))
    (λ r y, ∀ q, r = Some (Some q) → reached y.2.2 s (Some q)) x.
Proof.
  apply memory_call. intros [mem v] [Ha _]. unfold defer_call. cbn [fst snd].
  destruct (fm_ckpt_defer mem) as [d|] eqn:Hd; [|split; [done|]; by split].
  destruct (take_pending_spec d s) as [Hp Hn].
  destruct (take_pending d s) as [p d'] eqn:Ht. cbn [fst snd] in *. split; [done|]. intros _. split.
  - intros s' q. unfold pending_of. cbn. destruct (decide (s' = s)) as [->|Hne]; [by rewrite Hn|].
    replace d' with (take_pending d s).2 by (by rewrite Ht). unfold resume_from.
    rewrite (proj1 (proj2 (proj2 (defer_frame d s s' EmptyString 0%N Hne)))).
    intros Hq. apply Ha. unfold pending_of. cbn. by rewrite Hd.
  - intros q [= Hq]. apply Ha. unfold pending_of. cbn. rewrite Hd. cbn. congruence.
Qed.

(** A poll. *)
Lemma fetch_call s after x :
  reached x.2.2 s after →
  does kept onward (lift_m (get_records s after))
    (λ r y, match r with Ok b => polled y.2.2 s after b | Err _ => True end) x.
Proof.
  intros Hr. apply (far_call _ (λ r v, match r with Ok b => polled v.2 s after b | Err _ => True end)).
  intros [cs w] Hl [Hc Hs]. unfold under in Hl. cbn in Hl.
  assert (keeps (under guarded) (src_get_records src s after)) as Hk.
  { apply keeps_reads; [apply _|]. split; intros; apply calls_guard;
      [apply later_iterator|apply later_records|apply later_wait|apply later_unix_now]. }
  specialize (Hk (cs, w)). unfold under in Hk. cbn [snd] in Hk. destruct (Hk Hs) as [Hs' Hl'].
  assert (known w s after) as Hkn by (eapply reached_known, reached_later; [exact Hl|done]).
  pose proof (poll_ok src w s after Hkn (cs, w) (conj Hc (reflexivity w))) as Hp.
  change (get_records (W := V) s after (cs, w)) with (src_get_records src s after (cs, w)).
  destruct (src_get_records src s after (cs, w)) as [r v]. destruct Hp as [[Hc' _] Hp]. by split_and!.
Qed.

(** ** A pass *)

Section pass.
Variables (t : ShardTask) (c : Consumer (W := W)).
Hypothesis Hc : consumer_of c (st_shard t).
Abbreviation shard := (st_shard t).
Abbreviation reaches x after := (reached (snd (snd x)) shard after).

Lemma reaches_onward (x y : World) after : onward x y → reaches x after → reaches y after.
Proof. intros Hl. by apply reached_later. Qed.

Lemma quiet_step {A B} (m : M World A) (k : A → Task World B) Q x :
  keeps (advances kept onward) m →
  (∀ a y, onward x y → holds kept onward (k a) Q y) → holds kept onward (task_bind (act m) k) Q x.
Proof.
  intros Hm Hk. eapply (holds_step kept onward); [by apply (keeps_does kept onward)|]. intros a y Hxy _. by apply Hk.
Qed.

Lemma forget_step {B} (k : unit → Task World B) Q x :
  (∀ a y, onward x y → holds kept onward (k a) Q y) →
  holds kept onward (task_bind (act (defer_do (W := V) (λ d, forget d shard))) k) Q x.
Proof. intros Hk. apply quiet_step; [|done]. apply forgetting_call. intros d. apply forget_resumes. Qed.

Lemma holds_lost x : holds kept onward (lost (W := V) t c) (λ _, λ _, True) x.
Proof.
  unfold lost, call.
  apply quiet_step; [exact (outer_call (on_lease_lost (W := W) shard) (calls_guard _ (later_lease_lost _)))|intros _ y _].
  apply quiet_step; [exact (outer_call (consumer_lost (W := W) c) (calls_guard _ (later_lost _)))|done].
Qed.

(** A checkpoint of a position that was reached, and what is done with the answer. *)
Lemma checkpoint_step {B} n q (k : Result N WorkerError → Task World B) Q x :
  reaches x (Some q) → (∀ r y, onward x y → holds kept onward (k r) Q y) →
  holds kept onward (task_bind (call (checkpoint (W := V) shard (st_owner t) n q)) k) Q x.
Proof.
  intros Hr Hk. eapply (holds_step kept onward).
  - apply (beside_call (checkpoint (W := W) shard (st_owner t) n q) (λ _ _, True)).
    exact (store_checkpoint pages shard (st_owner t) n q _ Hr).
  - intros r y Hxy _. by apply Hk.
Qed.

Lemma holds_save_ack n ack x :
  reaches x (Some ack) → holds kept onward (save_ack (W := V) t c n ack) (λ _, λ _, True) x.
Proof.
  intros Hr. unfold save_ack. apply quiet_step; [apply get_call|]. intros [|] y Hxy.
  - apply quiet_step; [exact (outer_call (instant_now (W := W)) (calls_guard _ later_now))|intros now z Hyz].
    eapply (holds_step kept onward); [apply record_call; by do 2 (eapply reaches_onward; [eassumption|])|].
    intros [[due|]|] w Hzw Hd; [|done..]. unfold save_due. apply checkpoint_step; [by apply Hd|].
    intros [c'|e] w' _.
    + apply quiet_step; [|done]. apply forgetting_call. intros d s q. apply persisted_resumes.
    + apply forget_step. intros _ w2 _. apply holds_lost.
  - unfold save_now. apply checkpoint_step; [by eapply reaches_onward|].
    intros [c'|e] w' _; [done|apply holds_lost].
Qed.

(** What a delivery that was accepted leaves behind. *)
Definition past (b : RecordBatch) (x : World) : Prop :=
  reaches x (last_seq (rb_records b)) ∧ (rb_shard_end b = true → finished x.2.2 shard).

Lemma past_onward b x y : onward x y → past b x → past b y.
Proof.
  intros Hl [Hr Hf]. split; [by eapply reaches_onward|]. intros He. by eapply finished_later, Hf.
Qed.

Lemma holds_deliver_batch n after b x :
  rb_records b ≠ [] → reaches x after → polled x.2.2 shard after b →
  holds kept onward (deliver_batch (W := V) t c n b) (λ r y, r ≠ None → past b y) x.
Proof.
  intros Hne Hr Hp. unfold deliver_batch.
  eapply (holds_step kept onward) with (P := λ r y, ∀ ack, r = Ok ack → past b y ∧ ∀ q, ack = Some q → reaches y (Some q)).
  { apply (beside_call (deliver (W := W) c (rb_records b)) (λ r w, ∀ ack, r = Ok ack →
      (reached w shard (last_seq (rb_records b)) ∧ (rb_shard_end b = true → finished w shard)) ∧
      ∀ q, ack = Some q → reached w shard (Some q))).
    intros w Hl Hs. destruct (calls_guard _ (later_deliver c (rb_records b)) w Hs) as [Hs' Hl'].
    destruct (deliver c (rb_records b) w) as [r w'] eqn:Hdel. cbn [fst snd] in *. split_and!; [done..|].
    intros ack ->. assert (later x.2.2 w') as Hlw by (by etrans).
    assert (reached w' shard after) as Hr' by (by eapply reached_later).
    assert (polled w' shard after b) as Hp'.
    { apply (polled_evolves x.2.2); [by apply reached_known|apply Hlw|done]. }
    assert (∀ r, r ∈ rb_records b → was_handed w' shard r) as Hh by (intros r Hin; by eapply cluster_handed).
    split.
    - destruct (polled_reached _ _ _ _ Hr' Hp' Hh) as [Hadv Hf]. split; [|done].
      destruct (last_seq_is_Some _ Hne) as [q Hq]. by rewrite Hq in *.
    - intros q ->. destruct (ack_delivered _ _ _ _ _ Hdel) as (r & Hin & <-). by eapply acked_reached. }
  intros [ack|e] y Hxy Hd.
  2: { apply forget_step. intros _ z _ w _ _ Hn. done. }
  destruct (Hd ack eq_refl) as [Hpast Hack]. cbn [task_bind].
  eapply (holds_bind kept onward) with (P := λ _ _, True).
  { destruct ack as [q|]; [|done]. apply holds_save_ack. by apply Hack. }
  intros [n'|] z Hyz _; [|intros w _ _ Hn; done].
  apply quiet_step; [exact (outer_call (on_batch (W := W) _) (calls_guard _ (later_batch _)))|].
  intros _ z' Hzz' w Hzw _ _. do 3 (eapply past_onward; [eassumption|]). done.
Qed.

Lemma holds_end_shard n x : finished x.2.2 shard → holds kept onward (end_shard (W := V) t c n) (λ _, λ _, True) x.
Proof.
  intros Hf. unfold end_shard. eapply (holds_bind kept onward) with (P := λ _ _, True).
  - unfold flush_pending. eapply (holds_step kept onward); [apply take_call|]. intros p y Hxy Hp.
    eapply (holds_bind kept onward) with (P := λ _ _, True).
    + destruct p as [[q|]|]; [|done..]. apply checkpoint_step; [by apply Hp|].
      intros [c'|e] z _; [done|]. apply forget_step. intros _ w _. apply holds_lost.
    + intros [c'|] z _ _; [|done]. by apply forget_step.
  - intros [c'|] y Hxy _; [|done].
    apply quiet_step; [exact (outer_call (consumer_ended (W := W) c) (calls_guard _ (later_ended _)))|intros _ z Hyz].
    eapply (holds_step kept onward).
    + apply (beside_call (mark_complete (W := W) shard (st_owner t) c') (λ _ _, True)).
      apply (store_complete pages shard (st_owner t) c'). by do 2 (eapply finished_later; [eassumption|]).
    + intros _ w _ _. apply quiet_step;
        [exact (outer_call (on_shard_end (W := W) _) (calls_guard _ (later_shard_end _)))|done].
Qed.

Lemma holds_pass_loop polls n after any x :
  reaches x after → holds kept onward (pass_loop (W := V) t c polls n after any) (λ _, λ _, True) x.
Proof.
  revert n after any x. induction polls as [|polls IH]; intros n after any x Hr; cbn [pass_loop]; [done|].
  eapply (holds_step kept onward); [by apply fetch_call|]. intros [b|e] y Hxy Hp; [|done].
  assert (reaches y after) as Hry by (by eapply reaches_onward).
  destruct (bool_decide_reflect (rb_records b = [])) as [Hnil|Hne]; cbn zeta iota.
  - cbn [task_bind]. destruct (polled_reached _ _ _ _ Hry Hp) as [Hadv Hf].
    { rewrite Hnil. by intros r ?%elem_of_nil. }
    destruct (rb_shard_end b); [|by destruct any].
    eapply (holds_bind kept onward); [by apply holds_end_shard, Hf|done].
  - eapply (holds_bind kept onward); [by eapply holds_deliver_batch|]. intros [n'|] z Hyz Hz; [|done].
    destruct (Hz ltac:(done)) as [Hrz Hf].
    destruct (rb_shard_end b); [|by apply IH].
    eapply (holds_bind kept onward); [by apply holds_end_shard, Hf|done].
Qed.

Lemma holds_process_shard polls x :
  reaches x (st_checkpoint t) → holds kept onward (process_shard (W := V) t c polls) (λ _, λ _, True) x.
Proof.
  intros Hr. unfold process_shard.
  eapply (holds_step kept onward) with (P := λ p y, ∀ q, p = Some q → reaches y (Some q)).
  { apply memory_call. intros [mem v] Hk. split; [done|]. intros _. split; [apply Hk|]. intros q. apply Hk. }
  intros [q|] y Hxy Hp; apply holds_pass_loop; [by apply Hp|by eapply reaches_onward].
Qed.
End pass.

(** ** The passes of a cycle *)

(** What is told of a shard that a worker is to pass. *)
Definition item_reached (x : World) (item : string * (N * option string)) : Prop :=
  reached x.2.2 item.1 item.2.2.

Lemma items_onward x y items : onward x y → Forall (item_reached x) items → Forall (item_reached y) items.
Proof. intros Hl HF. eapply Forall_impl; [exact HF|]. intros it. by apply reached_later. Qed.

Lemma create_call s x : does kept onward (lift_m (create (W := V) s)) (λ c _, consumer_of (W := W) c s) x.
Proof.
  apply (beside_call (create (W := W) s) (λ c _, consumer_of c s)). intros w _ Hs.
  pose proof (cluster_consumer s w) as Hc. destruct (calls_guard _ (later_create s) w Hs) as [Hs' Hl].
  by destruct (create s w).
Qed.

Lemma does_spawn polls me items x :
  Forall (item_reached x) items →
  does kept onward (spawn_all (W := V) polls me items)
    (λ ts y, Forall (λ t, holds kept onward t (λ _ _, True) y) ts) x.
Proof.
  revert x. induction items as [|i items IH]; intros x Hitems; cbn [spawn_all].
  { apply (does_ret kept onward). constructor. }
  apply Forall_cons in Hitems as [Hi Hitems].
  eapply (does_bind kept onward); [apply create_call|]. intros c y Hxy Hc.
  eapply (does_bind kept onward); [apply IH; eapply items_onward; [exact Hxy|done]|]. intros ts z Hyz Hts.
  apply (does_ret kept onward). intros w Hzw _. constructor.
  - apply holds_process_shard; [exact Hc|]. cbn. by do 3 (eapply reached_later; [eassumption|]).
  - eapply Forall_impl; [exact Hts|]. intros t. by apply (holds_later kept onward).
Qed.

Lemma does_unbounded polls me schedule items x :
  Forall (item_reached x) items →
  does kept onward (process_unbounded (W := V) polls me schedule items) (λ _ _, True) x.
Proof.
  intros Hitems. unfold process_unbounded. eapply (does_bind kept onward); [by apply does_spawn|].
  intros ts y _ Hts. exact (does_join kept onward schedule ts _ y Hts).
Qed.

(** The bounded pool: the shards in the queue, too, are read on from where they were
    handed over. *)
Definition queue_reached (w : W) (q : list PoolItem) : Prop :=
  Forall (λ it, reached w (pi_shard it) (pi_checkpoint it)) q.

Definition pool_kept (px : PoolMem * World) : Prop := queue_reached px.2.2.2 (pm_queue px.1) ∧ kept px.2.

Lemma queue_later w w' q : later w w' → queue_reached w q → queue_reached w' q.
Proof. intros Hl HF. eapply Forall_impl; [exact HF|]. intros it. by apply reached_later. Qed.

Lemma pool_outer pm (x y : World) : onward x y → pool_kept (pm, x) → kept y → pool_kept (pm, y).
Proof. intros Hl [Hq _] Hy. split; [|done]. by eapply queue_later. Qed.

Lemma pool_call {A} (m : M World A) Q pm x :
  does kept onward m Q x → does pool_kept (under onward) (lift_m m) (λ a y, Q a y.2) (pm, x).
Proof. apply (does_lift kept); [by intros px [_ ?]|apply pool_outer]. Qed.

Lemma holds_worker polls config claims px :
  holds pool_kept (under onward) (pool_worker (W := V) polls config claims) (λ _ _, True) px.
Proof.
  revert px. induction claims as [|n IH]; intros px; cbn [pool_worker]; [done|].
  eapply (holds_step pool_kept (under onward)) with
    (P := λ item y, ∀ it, item = Some it → reached y.2.2.2 (pi_shard it) (pi_checkpoint it)).
  { intros [pm x] _ [Hq Hx]. unfold pop_front. cbn [fst snd].
    destruct (pm_queue pm) as [|it q] eqn:E; cbn in Hq |- *.
    { split_and!; [split; [cbn; rewrite E; constructor|exact Hx]|change (onward x x); reflexivity|done]. }
    rewrite E in Hq. apply Forall_cons in Hq as [Hit Hq].
    split_and!; [by split|change (onward x x); reflexivity|by intros it' [= <-]]. }
  intros [it|] [pm x] _ Hit; [|done]. specialize (Hit it eq_refl). cbn in Hit.
  eapply (holds_step pool_kept (under onward));
    [apply pool_call, (keeps_does kept onward); exact (outer_call (instant_now (W := W)) (calls_guard _ later_now))|].
  intros now [pm1 x1] Hl1 _.
  eapply (holds_step pool_kept (under onward));
    [apply pool_call, (keeps_does kept onward);
     exact (outer_call (on_processing_slot_wait (W := W) _ _) (calls_guard _ (later_slot_wait _ _)))|].
  intros _ [pm2 x2] Hl2 _.
  eapply (holds_step pool_kept (under onward)); [apply pool_call, create_call|].
  intros c [pm3 x3] Hl3 Hc.
  eapply (holds_bind pool_kept (under onward)) with (P := λ _ _, True).
  - apply (holds_lift kept onward pool_kept) with (Q := λ _ _, True);
      [by intros py [_ ?]|apply pool_outer|]. apply holds_process_shard; [exact Hc|]. cbn.
    by do 3 (eapply reached_later; [eassumption|]).
  - intros [r|] y _ _; [|done]. eapply (holds_step pool_kept (under onward)) with (P := λ _ _, True).
    + intros [pm4 x4] _ Hx. split_and!; [exact Hx|change (onward x4 x4); reflexivity|done].
    + intros _ z _ _. apply IH.
Qed.

Lemma does_workers polls config schedule k due x :
  queue_reached x.2.2 due →
  does kept onward (run_workers (W := V) polls config schedule k due) (λ _ _, True) x.
Proof.
  intros Hq y Hxy Hy. unfold run_workers.
  set (ts := replicate k _). set (pm := {| pm_queue := due; pm_outcomes := [] |}).
  assert (does pool_kept (under onward) (join_all schedule ts) (λ _ _, True) (pm, y)) as Hj.
  { eapply (does_join pool_kept (under onward)). apply Forall_replicate, holds_worker. }
  destruct (Hj (pm, y) ltac:(reflexivity)) as ([_ Hk] & Hl & _); [split; [by eapply queue_later|done]|].
  destruct (join_all schedule ts (pm, y)) as [bs [pm' z]]. cbn [fst snd] in *. by split_and!.
Qed.

Lemma refresh_reached w now items sched :
  Forall (λ item, reached w item.1 item.2.2) items → queue_reached w (refresh_sched now items sched).2.
Proof.
  intros Hitems. unfold refresh_sched.
  assert (∀ s0, queue_reached w s0.2 → queue_reached w (foldl (enqueue_due now) s0 items).2) as Hgen.
  { induction Hitems as [|it items Hit _ IH]; intros s0 Hs0; cbn [foldl]; [done|]. apply IH. cbn.
    case_match; [|done]. apply Forall_app. split; [done|]. by apply Forall_singleton. }
  apply Hgen. constructor.
Qed.

Lemma set_sched_call {A} (m : M World A) (Q : A → World → Prop) x :
  (∀ y, (m y).2.2 = y.2 ∧ (∃ s, (m y).2.1 = set_sched s y.1) ∧ (onward x y → Q (m y).1 (m y).2)) →
  does kept onward m Q x.
Proof.
  intros Hm. apply memory_call. intros y [Ha _]. destruct (Hm y) as (Hv & [s Hs] & HQ).
  split; [done|]. intros Hxy. split; [|by apply HQ]. by rewrite Hs.
Qed.

Lemma does_pool polls config schedule items k now x :
  Forall (item_reached x) items →
  does kept onward (run_bounded_pool (W := V) polls config schedule items k now) (λ _ _, True) x.
Proof.
  intros Hitems. unfold run_bounded_pool.
  assert (∀ n z, does kept onward (lift_m (on_processing_queue_depth (W := V) n)) (λ _ _, True) z) as Hdepth.
  { intros n z. apply (keeps_does kept onward).
    exact (outer_call (on_processing_queue_depth (W := W) n) (calls_guard _ (later_queue_depth n))). }
  assert (∀ z, does kept onward (lift_m (instant_now (W := V))) (λ _ _, True) z) as Hnow.
  { intros z. apply (keeps_does kept onward). exact (outer_call (instant_now (W := W)) (calls_guard _ later_now)). }
  eapply (does_bind kept onward) with (P := λ due y, queue_reached y.2.2 due).
  { apply set_sched_call. intros [mem v]. cbn.
    destruct (refresh_sched now items (fm_sched mem)) as [s due] eqn:E. cbn.
    split_and!; [done|by exists s|]. intros Hxy. replace due with (refresh_sched now items (fm_sched mem)).2 by (by rewrite E).
    apply refresh_reached. exact (items_onward _ _ _ Hxy Hitems). }
  intros due y Hxy Hdue. case_bool_decide.
  - eapply (does_bind kept onward); [apply Hdepth|]. intros _ z1 _ _.
    eapply (does_bind kept onward); [apply (keeps_does kept onward), get_call|]. intros [next|] z2 _ _;
      [|by apply (does_ret kept onward)].
    eapply (does_bind kept onward); [apply Hnow|]. intros t z3 _ _.
    eapply (does_bind kept onward); [apply (keeps_does kept onward); exact (outer_call (sleep (W := W) _) (calls_guard _ (later_sleep _)))|].
    intros _ z4 _ _. by apply (does_ret kept onward).
  - eapply (does_bind kept onward); [apply Hdepth|]. intros _ z1 Hl1 _.
    eapply (does_bind kept onward); [apply does_workers; by eapply queue_later|]. intros r z2 _ _.
    eapply (does_bind kept onward); [apply Hnow|]. intros t z3 _ _.
    eapply (does_bind kept onward) with (P := λ _ _, True); [|intros _ z4 _ _; by apply (does_ret kept onward)].
    apply set_sched_call. intros [mem v]. split_and!; [done|by eexists|done].
Qed.

Lemma does_process polls config schedule items now x :
  Forall (item_reached x) items →
  does kept onward (process (W := V) polls config schedule items now) (λ _ _, True) x.
Proof.
  intros Hitems. unfold process.
  eapply (does_bind kept onward); [apply (keeps_does kept onward), get_call|]. intros [max|] y Hxy _.
  - eapply (does_bind kept onward); [apply does_pool; eapply items_onward; [exact Hxy|done]|].
    intros bs z _ _. by apply (does_ret kept onward).
  - eapply (does_bind kept onward); [apply does_unbounded; eapply items_onward; [exact Hxy|done]|].
    intros bs z _ _. by apply (does_ret kept onward).
Qed.

(** ** A cycle *)

Definition rows_sound (x : World) (rows : list RawLease) : Prop := Forall (raw_sound x.2.2) rows.

Lemma rows_onward x y rows : onward x y → rows_sound x rows → rows_sound y rows.
Proof. intros Hl. by apply raw_sound_later. Qed.

Lemma list_call x :
  does kept onward (lift_m (list_leases (W := V)))
    (λ r y, match r with Ok rows => rows_sound y rows | Err _ => True end) x.
Proof.
  apply (beside_call (list_leases (W := W)) (λ r w, scanned w r)). apply (store_list pages).
Qed.

Lemma eligible_reached config rows x :
  rows_sound x rows → Forall (item_reached x) (eligible_owned config rows).
Proof.
  intros Hrows. apply Forall_forall. intros item (m & _ & Hm)%list_elem_of_omap.
  apply bind_Some in Hm as (nc & Ho & Hm). case_match; simplify_eq.
  apply collect_elem in Ho as (r & Hr & Hk & ->). apply list_elem_of_filter in Hr as [_ Hr].
  unfold rows_sound in Hrows. rewrite Forall_forall in Hrows. destruct (Hrows r Hr) as [Hre _].
  unfold item_reached. cbn. by rewrite <- Hk.
Qed.

Lemma retain_resumes owned d s q : resume_from (retain_owned owned d) s = Some q → resume_from d s = Some q.
Proof.
  unfold resume_from. intros (e & He & Hq)%bind_Some. cbn in He.
  apply map_lookup_filter_Some in He as [-> _]. exact Hq.
Qed.

Lemma does_serve polls config schedule rows x :
  rows_sound x rows → does kept onward (serve (W := V) polls config schedule rows) (λ _ _, True) x.
Proof.
  intros Hrows. unfold serve. eapply (does_bind kept onward) with (P := λ _ _, True).
  - unfold settle. apply (keeps_does kept onward).
    apply keeps_bind; [apply _|exact (outer_call (on_leases_held (W := W) _) (calls_guard _ (later_held _)))|intros _].
    apply keeps_bind; [apply _|apply forgetting_call; intros d s q; apply retain_resumes|intros _].
    apply keeps_bind; [apply _|apply get_call|intros [max|]]; [|apply keeps_ret; apply _].
    exact (outer_call (on_max_processing_concurrency (W := W) _) (calls_guard _ (later_limit _))).
  - intros _ y Hxy _. case_match; [by apply (does_ret kept onward)|].
    eapply (does_bind kept onward);
      [apply (keeps_does kept onward); exact (outer_call (instant_now (W := W)) (calls_guard _ later_now))|].
    intros now z Hyz _. eapply (does_bind kept onward).
    + apply does_process, eligible_reached. by do 2 (eapply rows_onward; [eassumption|]).
    + intros b w _ _. by apply (does_ret kept onward).
Qed.

(** Children of shards that were read from the start are read from the start. *)
Lemma child_cp_none rows ps x : rows_sound x rows → child_cp rows ps = None.
Proof.
  intros Hrows. destruct (child_cp rows ps) as [cp|] eqn:Hcp; [exfalso|done].
  unfold child_cp in Hcp. destruct ps as [|p ps]; [done|].
  change (child_seed_loop None (checkpoint_in rows <$> p :: ps) = Some cp) in Hcp.
  apply child_seed_loop_spec in Hcp as (_ & _ & Hall); [|by left].
  assert (checkpoint_in rows p = Some SENTINEL_LATEST) as Hp by (apply Hall; left).
  unfold checkpoint_in in Hp. apply bind_Some in Hp as (r & Hr & Hcp).
  apply find_some in Hr as [Hr _]. apply list_elem_of_In in Hr.
  unfold rows_sound in Hrows. rewrite Forall_forall in Hrows. destruct (Hrows r Hr) as [Hre _].
  rewrite Hcp in Hre. by eapply reached_not_latest.
Qed.

Lemma publish_call m x : does kept onward (publish (W := V) m None) (λ _ _, True) x.
Proof.
  unfold publish. eapply (does_bind kept onward).
  - apply (beside_call (create_shard_lease (W := W) (sm_id m) (sm_parents m) None) (λ _ _, True)).
    apply (store_publish pages).
  - intros _ y _ _. by apply (does_ret kept onward).
Qed.

Lemma publish_all (test : ShardMeta → bool) (cp : ShardMeta → option string) ms x :
  (∀ m, cp m = None) →
  does kept onward (for_each (λ m, if test m then publish (W := V) m (cp m) else ret tt) ms) (λ _ _, True) x.
Proof.
  intros Hcp. apply (does_for_each kept onward). intros m _. rewrite Hcp.
  case_match; [apply publish_call|by apply (does_ret kept onward)].
Qed.

Lemma source_beside {A} (m : M W A) : keeps guarded m → keeps (advances source_kept (under later)) (lift_m m).
Proof.
  intros Hm. apply (does_keeps source_kept (under later)). intros [cs w].
  apply (does_lift all_sound later source_kept) with (Q := λ _ _, True); [by intros v [_ ?]| |].
  - intros cs' w1 w2. apply source_later.
  - by apply (keeps_does all_sound later).
Qed.

Lemma described_call {A} (m : M W (option (Result A WorkerError))) :
  keeps guarded m → keeps (advances kept onward) (lift_m (StreamsSource.unbounded m)).
Proof.
  intros Hm. apply source_call. apply keeps_bind; [apply _|by apply source_beside|].
  intros r. apply keeps_ret; apply _.
Qed.

Lemma describe_call : keeps (advances kept onward) (lift_m (describe_shards (W := V))).
Proof. apply described_call, keeps_describe; [apply _|intros; apply calls_guard, later_describe]. Qed.

Lemma children_call p : keeps (advances kept onward) (lift_m (describe_child_shards (W := V) p)).
Proof. apply described_call, keeps_describe_children; [apply _|intros; apply calls_guard, later_describe]. Qed.

Lemma does_sync_parent rows p x :
  rows_sound x rows → does kept onward (sync_parent (W := V) rows p) (λ _ _, True) x.
Proof.
  intros Hrows. unfold sync_parent.
  assert (∀ ps, child_cp rows ps = None) as Hcp by (intros ps; by eapply child_cp_none).
  assert (keeps (advances kept onward) (lift_m (on_describe_stream (W := V)))) as Hcount
    by exact (outer_call (on_describe_stream (W := W)) (calls_guard _ later_describe_count)).
  eapply (does_bind kept onward); [by apply (keeps_does kept onward)|]. intros _ y1 _ _.
  eapply (does_bind kept onward); [apply (keeps_does kept onward), children_call|]. intros [cs|e] y2 _ _.
  - eapply (does_bind kept onward); [apply (publish_all (λ c, _) (λ c, child_cp rows (sm_parents c))); by intros m|].
    intros _ y3 _ _. by apply (does_ret kept onward).
  - eapply (does_bind kept onward); [by apply (keeps_does kept onward)|]. intros _ y3 _ _.
    eapply (does_bind kept onward); [apply (keeps_does kept onward), describe_call|]. intros r y4 _ _.
    eapply (does_bind kept onward) with (P := λ _ _, True);
      [|intros _ y5 _ _; by apply (does_ret kept onward)].
    destruct r as [metas|e']; [|by apply (does_ret kept onward)].
    apply (publish_all (publishable rows) (λ c, child_cp rows (sm_parents c))). by intros m.
Qed.

Lemma sync_state_call (f : FleetMem → SyncState) :
  keeps (advances kept onward) (mem_set (W := V) (λ mem, set_sync (f mem) mem)).
Proof.
  apply (does_keeps kept onward). intros x. apply memory_call. intros y [Ha _]. split; [done|]. by intros _.
Qed.

Lemma does_sync config rows x :
  fc_initial_position config = InitialTrimHorizon → rows_sound x rows →
  does kept onward (leader_shard_sync (W := V) config rows) (λ _ _, True) x.
Proof.
  intros Hpos Hrows. unfold leader_shard_sync.
  eapply (does_bind kept onward); [apply (keeps_does kept onward), get_call|]. intros s y Hxy _.
  case_match.
  - unfold seed_roots. rewrite Hpos.
    eapply (does_bind kept onward);
      [apply (keeps_does kept onward); exact (outer_call (on_describe_stream (W := W)) (calls_guard _ later_describe_count))|].
    intros _ y1 _ _.
    eapply (does_bind_ok kept onward); [apply (keeps_does kept onward), describe_call| |done]. intros ms y2 _ _.
    eapply (does_bind kept onward); [by apply (publish_all (publishable rows) (λ _, None))|]. intros _ y3 _ _.
    eapply (does_bind kept onward); [apply (keeps_does kept onward), sync_state_call|].
    intros _ y4 _ _. by apply (does_ret kept onward).
  - eapply (does_bind kept onward) with (P := λ _ _, True).
    + assert (rows_sound y rows) as Hy by (by eapply rows_onward). clear Hrows Hxy.
      generalize (hash_set_order (completed_keys rows)) as ps. intros ps. revert y Hy.
      induction ps as [|p ps IH]; intros y Hy; cbn [sync_parents]; [by apply (does_ret kept onward)|].
      case_match; [|by apply IH].
      eapply (does_bind kept onward); [by apply does_sync_parent|]. intros ok z Hyz _.
      eapply (does_bind kept onward); [apply IH; by eapply rows_onward|]. intros l z' _ _.
      by apply (does_ret kept onward).
    + intros newly z _ _. eapply (does_bind kept onward); [apply (keeps_does kept onward), sync_state_call|].
      intros _ z' _ _. by apply (does_ret kept onward).
Qed.

Lemma cleanup_call rows : keeps (advances kept onward) (cleanup_completed_leases (W := V) rows).
Proof.
  apply keeps_for_each; [apply _|]. intros k.
  apply keeps_bind; [apply _|exact (outer_call (delete_lease (W := W) k) (store_delete pages k))|].
  intros r. apply keeps_ret; apply _.
Qed.

(** The coordinator and the bid for leadership are not looked at. *)
Definition cycle_kept (cx : Cycle * World) : Prop := kept cx.2.

Lemma cycle_call {A} (m : M World A) Q cx :
  does kept onward m Q cx.2 → does cycle_kept (under onward) (lift_m m) (λ a y, Q a y.2) cx.
Proof. destruct cx as [cy x]. by apply (does_lift kept). Qed.

Lemma cycle_calm {A} (m : M World A) cx :
  keeps (advances kept onward) m → does cycle_kept (under onward) (lift_m m) (λ _ _, True) cx.
Proof. intros Hm. apply (cycle_call m (λ _ _, True)). by apply (keeps_does kept onward). Qed.

Lemma cycle_office {A} (m : M (Cycle * World) A) cx :
  keeps (in_office (advances kept onward) (λ _, True)) m → does cycle_kept (under onward) m (λ _ _, True) cx.
Proof. intros Hm. apply (keeps_does cycle_kept (under onward)). exact (keeps_any_name _ _ Hm). Qed.

Lemma cycle_list cx :
  does cycle_kept (under onward) (outside (list_leases (W := V)))
    (λ r y, match r with Ok rows => rows_sound y.2 rows | Err _ => True end) cx.
Proof. apply (cycle_call _ (λ r x, match r with Ok rows => rows_sound x rows | Err _ => True end)), list_call. Qed.

Lemma list_calm : keeps (advances kept onward) (lift_m (list_leases (W := V))).
Proof. apply (does_keeps kept onward). intros x. eapply (does_true kept onward), list_call. Qed.

Lemma bids_kept : BidCalls (W := V) (advances kept onward) (λ _, True).
Proof.
  split; intros.
  - exact (outer_call (renew (W := W) _ _ _) (store_renew pages _ _ _)).
  - exact (outer_call (try_acquire_leadership (W := W) _ _ _) (store_bid pages _ _ _)).
Qed.

Lemma does_run_cycle polls config schedule now_ms cx :
  fc_initial_position config = InitialTrimHorizon →
  does cycle_kept (under onward) (run_cycle (W := V) polls config schedule now_ms) (λ _ _, True) cx.
Proof.
  intros Hpos. unfold run_cycle, coordinate.
  eapply (does_bind_ok cycle_kept (under onward)) with (P := λ _ _, True); [| |done].
  - eapply (does_bind_ok cycle_kept (under onward)) with (P := λ _ _, True); [| |done].
    + unfold lead_and_sync. eapply (does_bind_ok cycle_kept (under onward)); [apply cycle_list| |done].
      intros rows y Hxy Hrows. eapply (does_bind cycle_kept (under onward)).
      { apply cycle_office, keeps_lead; [apply _|apply bids_kept]. }
      intros [|] z Hyz _; [|by apply (does_ret cycle_kept (under onward))]. unfold sync_as_leader.
      eapply (does_bind_ok cycle_kept (under onward)) with (P := λ _ _, True); [| |done].
      * apply (cycle_call _ (λ _ _, True)), does_sync; [done|]. by eapply rows_onward.
      * intros _ z1 _ _. eapply (does_bind cycle_kept (under onward)); [apply cycle_calm, cleanup_call|].
        intros _ z2 _ _. by apply (does_ret cycle_kept (under onward)).
    + intros _ y _ _. eapply (does_bind cycle_kept (under onward)).
      { apply cycle_calm. exact (outer_call (heartbeat (W := W) _) (store_heartbeat pages _)). }
      intros _ z _ _. apply cycle_office, keeps_claim_share; [apply _|]. split; intros.
      * apply list_calm.
      * exact (outer_call (acquire (W := W) _ _) (store_acquire pages _ _)).
      * exact (outer_call (on_lease_acquired (W := W) _) (calls_guard _ (later_acquired _))).
  - intros _ y _ _. eapply (does_bind_ok cycle_kept (under onward)); [apply cycle_list| |done].
    intros rows z Hyz Hrows. eapply (does_bind cycle_kept (under onward)).
    + apply (cycle_call _ (λ _ _, True)), does_serve. unfold only_shards, rows_sound.
      apply Forall_forall. intros r [_ Hr]%list_elem_of_filter. unfold rows_sound in Hrows.
      rewrite Forall_forall in Hrows. by apply Hrows.
    + intros r w _ _. by apply (does_ret cycle_kept (under onward)).
Qed.

(** ** The release *)

Lemma does_release config x :
  does kept onward (release_owned (W := V) config) (λ _ _, True) x.
Proof.
  unfold release_owned. eapply (does_bind_ok kept onward); [apply list_call| |done].
  intros rows y _ _. eapply (does_bind kept onward) with (P := λ _ _, True);
    [|intros n z _ _; by apply (does_ret kept onward)].
  generalize 0 as n. revert y. induction rows as [|r rows IH]; intros y n; cbn [release_rows];
    [by apply (does_ret kept onward)|].
  case_match; [|apply IH].
  eapply (does_bind kept onward) with (P := λ _ _, True); [|intros ok z _ _; apply IH].
  unfold release_row, flush_for_release.
  eapply (does_bind kept onward) with (P := λ _ _, True).
  - eapply (does_bind kept onward); [apply take_call|]. intros p z Hyz Hp.
    eapply (does_bind kept onward) with (P := λ _ _, True).
    + destruct p as [[q|]|]; try by apply (does_ret kept onward).
      eapply (does_bind kept onward); [|intros r' w _ _; by apply (does_ret kept onward)].
      apply (beside_call (checkpoint (W := W) _ _ _ _) (λ _ _, True)).
      apply (store_checkpoint pages). by apply Hp.
    + intros c w _ _. eapply (does_bind kept onward); [apply (keeps_does kept onward), forgetting_call|].
      * intros d s q. apply forget_resumes.
      * intros _ w' _ _. by apply (does_ret kept onward).
  - intros c z _ _. eapply (does_bind kept onward); [apply (keeps_does kept onward)|].
    + exact (outer_call (release (W := W) _ _ _) (store_release pages _ _ _)).
    + intros o w _ _. by apply (does_ret kept onward).
Qed.

(** ** From start to stop *)

Section run.
Context {F : Type} (worker : ClientWorker F).
Variables (polls : nat) (schedules : nat → list nat).
Hypothesis Hpos : fc_initial_position (cw_config worker) = InitialTrimHorizon.

Lemma does_run_loop rounds start cx :
  does cycle_kept (under onward) (run_loop (W := V) polls worker schedules rounds start) (λ _ _, True) cx.
Proof.
  revert cx. induction rounds as [|n IH]; intros cx; cbn [run_loop];
    [by apply (does_ret cycle_kept (under onward))|].
  eapply (does_bind cycle_kept (under onward));
    [apply cycle_calm; exact (outer_call (stop_load (W := W)) (calls_guard _ later_stop))|].
  intros [|] y1 _ _; [by apply (does_ret cycle_kept (under onward))|].
  eapply (does_bind cycle_kept (under onward));
    [apply cycle_calm; exact (outer_call (instant_now (W := W)) (calls_guard _ later_now))|]. intros t y2 _ _.
  eapply (does_bind_ok cycle_kept (under onward)); [by apply does_run_cycle| |done].
  intros [[|]|] y3 _ _; try by apply (does_ret cycle_kept (under onward)).
  eapply (does_bind cycle_kept (under onward));
    [apply cycle_calm; exact (outer_call (sleep (W := W) _) (calls_guard _ (later_sleep _)))|]. intros _ y4 _ _. apply IH.
Qed.

Lemma does_release_on_stop x : does kept onward (release_on_stop (W := V) worker) (λ _ _, True) x.
Proof.
  unfold release_on_stop. eapply (does_bind kept onward);
    [apply (keeps_does kept onward); exact (outer_call (stop_load (W := W)) (calls_guard _ later_stop))|].
  intros [|] y _ _; [|by apply (does_ret kept onward)].
  eapply (does_bind kept onward); [apply does_release|]. intros r z _ _. by apply (does_ret kept onward).
Qed.

Lemma run_guards rounds (w : W) :
  (∀ s, pending_of (cw_fleet worker) s = None) →
  guarded w (client_run (W := V) polls worker schedules rounds (∅, w)).2.2.
Proof.
  intros Hfresh Hs. unfold client_run.
  pose proof (source_beside instant_now (calls_guard _ later_now) (∅, w)) as Hnow.
  change (instant_now (W := V) (∅, w)) with (lift_m (S := Cursors) (instant_now (W := W)) (∅, w)).
  destruct (lift_m instant_now (∅, w)) as [start v1]. cbn [snd] in Hnow.
  destruct Hnow as [Hk1 Hl1]; [split; [by intros s c|exact Hs]|].
  assert (cycle_kept ({| cy_coordinator := LeaseCoordinator_new (cw_owner worker) (cw_max_leases worker)
                 (cw_lease_duration_ms worker);
               cy_leadership := Leadership_new (cw_owner worker) (cw_lease_duration_ms worker) |},
               (cw_fleet worker, v1))) as Hk.
  { split; [|done]. intros s q Hq. cbn in Hq. by rewrite Hfresh in Hq. }
  destruct (does_run_loop rounds start _ _ ltac:(reflexivity) Hk) as (Hk2 & Hl2 & _).
  destruct (run_loop _ _ _ _ _ _) as [r [cy x2]]. cbn [fst snd] in *.
  assert (later w x2.2.2) as Hl by (etrans; [exact Hl1|exact Hl2]).
  destruct r as [[[]|]|e]; try (split; [apply Hk2|exact Hl]).
  destruct (does_release_on_stop x2 x2 ltac:(reflexivity) Hk2) as (Hk3 & Hl3 & _).
  destruct (release_on_stop worker x2) as [r [mem v3]]. cbn [fst snd] in *.
  split; [apply Hk3|]. etrans; [exact Hl|exact Hl3].
Qed.
End run.
End worker.

(** ** Properties *)

(** A worker that was just built keeps no acks. *)
Lemma built_fresh interval max s :
  pending_of (with_checkpoint_interval interval (with_max_processing_concurrency max Fleet_new)) s = None.
Proof. destruct interval as [ms|]; [|done]. unfold with_checkpoint_interval. by destruct (1 <=? ms)%N. Qed.

Section properties.
Context `{HashOrder} {F W : Type} (worker : ClientWorker F)
  `{Cluster W (ds_table (cw_leases worker)), !AcksDelivered W}.
Variables (pages polls : nat) (schedules : nat → list nat).
Abbreviation V := (Cursors * W)%type.
Abbreviation rows_of := (rows (table := ds_table (cw_leases worker))).

#[local] Instance cluster_store : AsyncLeaseStore W := aws_leases (cw_leases worker) pages.
#[local] Instance cluster_source : AsyncStreamSource V := aws_source (cw_source worker) pages.

Lemma build_spec env pid n b (w0 w : W) :
  build env pid n b w0 = (Some (Ok worker), w) →
  fc_initial_position (cw_config worker) = wb_initial_position b ∧
  ∀ s, pending_of (cw_fleet worker) s = None.
Proof.
  unfold build. repeat case_match; try done; unfold bind, ret;
    destruct (ensure_table _ _ _) as [[[]|] ?]; intros [= <- _]; split; try done; intros ?; apply built_fresh.
Qed.

(** C1: no record is lost, whoever holds the leases.  A worker that was built to start
    at the trim horizon runs from start to stop over the live stream and the live lease
    table, while records are written, trimmed and shards sealed, calls fail, and other
    workers hold and take over leases.  Its scans of the table need not be consistent:
    a row may be as it was at any moment before.  Its consumers ack records of the batch
    they are handed.  The other workers are relied on to take backed steps of the table
    only: a checkpoint names a record up to which everything was handed to a consumer of
    the shard, by whichever worker, or trimmed, and a shard is completed when that is
    true of all it will ever hold.  The worker's own run keeps to that, too: from a
    table of which that is true, now and before, it takes the table, with the others,
    through backed steps to one of which that is true, now and before.  So a worker that
    takes a lease over and resumes at its checkpoint passes over no record that no
    consumer was handed. *)
Theorem no_record_is_lost_across_workers env pid n b rounds (w0 w : W) A
    (Hbuild : build env pid n b w0 = (Some (Ok worker), w))
    (Hposition : wb_initial_position b = InitialTrimHorizon)
    (Hrep : represents (rows_of w) A) (Hsound : sound w A)
    (Hpast : ∀ t, was_table w t → sound_rows w t) :
  let '(_, (_, w')) := (client_run (W := V) polls worker schedules rounds (∅, w)
    : Result (option unit) WorkerError * V) in
  let handed s j := (∃ r, at_place w' s j r ∧ was_handed w' s r) ∨ j < trim_horizon w' s in
  evolves w w' ∧ (∀ t, was_table w' t → sound_rows w' t) ∧
  ∃ ops, Forall (backed w') ops ∧ represents (rows_of w') (LeaseTable.exec ops A) ∧
    ∀ s l, LeaseTable.exec ops A !! s = Some l →
      (∀ q, l_checkpoint l = Some q →
         ∃ i r, shard_log w' s !! i = Some r ∧ sdk_seq r = Some q ∧ ∀ j, j ≤ i → handed s j) ∧
      (l_completed l = true →
         sealed w' s ∧ ∀ j, j < length (shard_log w' s) → handed s j).
Proof.
  destruct (build_spec _ _ _ _ _ _ Hbuild) as [Hpos Hfresh]. rewrite Hposition in Hpos.
  pose proof (run_guards (st := cw_leases worker) (cw_source worker) pages worker polls schedules Hpos
    rounds w Hfresh (conj (ex_intro _ A (conj Hrep Hsound)) Hpast)) as [Hsnd (Hg & Hm & _)].
  destruct (client_run _ _ _ _ _) as [r [cs w']]. cbn zeta. cbn [snd] in *.
  split; [apply Hg|]. split; [exact (proj2 Hsnd)|]. destruct (Hm A Hrep) as (ops & Hops & Hrep').
  exists ops. split_and!; [done..|]. intros s l Hs.
  destruct (sound_exec w' ops A (sound_grows _ _ _ Hg Hsound) Hops s l Hs) as [(k & Hk & Hc) Hf]. split.
  - intros q Hq. rewrite Hq in Hk. destruct Hk as (_ & i & sdk & Hi & Hseq & ->).
    exists i, sdk. split_and!; [done..|]. intros j Hj. apply Hc. lia.
  - intros Hd. destruct (Hf Hd) as [Hse Hall]. by split.
Qed.
End properties.
