(* ===== verification/FailoverDemo.v ===== *)
(** * A shard that goes from one worker to another and back

    [Failover]'s theorem on the stream of [StreamsDemo] beside the table of
    [DynamoSim].  The worker publishes the shard, takes it and passes it; while its
    consumer is handed the third record another worker takes the lease over, is handed
    that record and a fourth one, checkpoints and gives the lease up; the worker's own
    checkpoint is refused.  In the next cycle it takes the lease again, reads on behind
    the other worker's checkpoint, and completes the shard.  Every scan answers from the table as it was at the
  scan before. *)

From Stdlib Require Import Lia.
From stdpp Require Import base functions gmap sets numbers list strings.
From S2P Require Import Prelude Core Coordinator Position ChangeRecord LeaseTable DynamoDb.
From S2P Require Import LeaseRefine DynamoSim Interfaces Metrics CkptDefer Tasks WorkerAws FleetState.
From S2P Require Import ShardPass Pool Fleet StreamsSource StreamsReads StreamsDemo LiveFleet LiveCheckpoints.
From S2P Require Import Together RustClient Stable Handover Failover.

(** A stream, what was handed of it, the table that the last scan was about, and the
    table. *)
Abbreviation Side := ((Demo * Rows) * list (string * Record_))%type.
Abbreviation Place := (Side * SimDb)%type.
Abbreviation leases_table := (ds_table demo_store).

Definition hand (s : string) (rs : list Record_) (w : Place) : Place :=
  ((w.1.1, w.1.2 ++ (pair s <$> rs)), w.2).

(** A scan answers from the table as it was at the scan before. *)
#[local] Instance stale_client : DynamoClient Place := {|
  describe_table t := lift_m (describe_table t);
  create_table c := lift_m (create_table c);
  update_continuous_backups t b := lift_m (update_continuous_backups t b);
  scan _ _ := λ w, (Ok ((map_to_list w.1.1.2).*2, None), (((w.1.1.1, sim_rows w.2), w.1.2), w.2));
  get_item t k c := lift_m (get_item t k c);
  put_item p := lift_m (put_item p);
  update_item u := lift_m (update_item u);
  delete_item x := lift_m (delete_item x);
  sleep_ms ms := lift_m (sleep_ms ms);
|}.
#[local] Instance last_scan : TableHistory Place := λ w t, t = w.1.1.2.

(** The [i]th record as it is handed over. *)
Definition record_at (i : nat) : Record_ :=
  {| rec_shard := "s"; rec_seq := digits (S i); rec_data := encode (from_sdk (demo_record i)) |}.

(** ** The other worker *)

Definition relayed_item (it : Item) : Item :=
  delete LEASE_OWNER (sim_bump
    (<[CHECKPOINT := AvS "1111"]> (sim_bump (<[LEASE_OWNER := AvS "b"]> (sim_bump it))))).

(** It comes when three records are written and the first two were handed over. *)
Definition relay_due (w : Place) : bool :=
  bool_decide (d_len w.1.1.1 = 3 ∧ d_sealed w.1.1.1 = false ∧
    ("s", record_at 0) ∈ w.1.2 ∧ ("s", record_at 1) ∈ w.1.2).

Definition relay (w : Place) : Place :=
  let d := w.1.1.1 in
  hand "s" [record_at 2; record_at 3]
    ((({| d_len := 4; d_trim := d_trim d; d_sealed := d_sealed d; d_script := d_script d;
          d_derived := d_derived d |}, w.1.1.2), w.1.2),
     match sim_rows w.2 !! "s" with
     | Some it => set_rows (<["s" := relayed_item it]> (sim_rows w.2)) w.2
     | None => w.2
     end).

(** ** The rest of the world *)

#[local] Instance relay_consumers : ShardConsumerFactory Place := {
  Consumer := string;
  create s := ret s;
  deliver c rs :=
    (λ w, (tt, hand c rs w)) ;;; (λ w, (tt, if relay_due w then relay w else w)) ;;;
    ret (Ok (last_seq rs));
  consumer_ended _ := ret (Ok tt);
  consumer_lost _ := ret (Ok tt);
}.
#[local] Instance relay_handed : HandsOver Place := {
  was_handed w s r := (s, r) ∈ w.1.2;
  consumer_of c s := c = s;
}.
#[local] Instance silent_place : MetricsSink Place := {
  on_batch _ := ret tt; on_shard_end _ := ret tt; on_describe_stream := ret tt;
  on_lease_acquired _ := ret tt; on_lease_lost _ := ret tt; on_leases_held _ := ret tt;
  on_processing_slot_wait _ _ := ret tt; on_max_processing_concurrency _ := ret tt;
  on_processing_queue_depth _ := ret tt;
}.
#[local] Instance still_place : Clock Place := { instant_now := ret 0%N; sleep _ := ret tt; }.
#[local] Instance running_place : StopFlag Place := { stop_load := ret false; stop_store := ret tt; }.

Definition relay_builder : WorkerBuilder unit :=
  builder_owner "a" (builder_stream_arn "arn" (builder_lease_table "leases"
    (builder_processor tt WorkerBuilder_default))).

Definition relay_worker : ClientWorker unit :=
  {| cw_source := DdbStreamsSource_new "arn";
     cw_leases := demo_store;
     cw_factory := (tt, RecordFormat_default);
     cw_config := {| fc_owner := "a"; fc_max_leases := 100; fc_lease_duration_ms := 60000;
                     fc_poll_interval_ms := 1000; fc_initial_position := InitialPosition_default |};
     cw_fleet := Fleet_new; cw_owner := "a"; cw_lease_duration_ms := 60000; cw_max_leases := 100;
     cw_poll_interval_ms := 1000 |}.

Definition relay_start : Place :=
  ((({| d_len := 2; d_trim := 0; d_sealed := false; d_script := [Write 0; Write 1; Write 1; Seal]; d_derived := 0 |}, ∅), []),
   {| sim_rows := ∅; sim_status := Some TableActive |}).

Definition relay_life : Result (option unit) WorkerError * (Cursors * Place) :=
  let _ := cluster_store relay_worker 4 in
  let _ := cluster_source (W := Place) relay_worker 4 in
  client_run (W := Cursors * Place) 12 relay_worker (λ _, []) 6 (∅, relay_start).

(** ** Whatever other workers may do *)

Lemma grows_aside (w w' : Place) : w'.1.1.1 = w.1.1.1 → w'.1.2 = w.1.2 → grows w w'.
Proof. destruct w as [[[d o] h] t], w' as [[[d' o'] h'] t']. cbn. intros -> ->. split; [by split|done]. Qed.

Lemma moved_same (w : Place) t : moved w t t.
Proof. intros A HA. by exists []. Qed.

(** A scan remembers the table as it is; nothing else remembers more. *)
Definition remembered (w w' : Place) : Prop :=
  ∀ A, represents (sim_rows w.2) A → remembers w w' A.

Lemma remembered_same (w w' : Place) : w'.1.1.2 = w.1.1.2 → remembered w w'.
Proof. intros Hw A _ t Ht. left. unfold was_table, last_scan in *. congruence. Qed.

(** The others may take any steps that are backed. *)
Definition relied (w w' : Place) (t : Rows) : Prop :=
  grows w w' ∧ moved w' (sim_rows w.2) t ∧ remembered w w'.

Lemma relied_aside (w w' : Place) : w'.1 = w.1 → relied w w' (sim_rows w.2).
Proof.
  intros Hw. split_and!; [apply grows_aside; by rewrite Hw|apply moved_same|apply remembered_same; by rewrite Hw].
Qed.

Lemma relied_scan start (w : Place) : relied w (scan leases_table start w).2 (sim_rows w.2).
Proof.
  split_and!; [by apply grows_aside|apply moved_same|]. intros A HA t Ht. right. exists [].
  split; [done|]. unfold was_table, last_scan in Ht. rewrite Ht. exact HA.
Qed.

#[local] Program Instance relay_laws : DynamoLaws Place leases_table := {|
  rows w := sim_rows w.2;
  eval_cond := sim_cond;
  eval_update := sim_update;
  others := relied;
  other_op _ := True;
|}.
Next Obligation.
  intros w w' t A (_ & Hm & _) HA. destruct (Hm A HA) as (ops & _ & Hrep). exists ops. split; [by apply Forall_true|done].
Qed.
Next Obligation. apply (@cond_absent _ _ leases_table (sim_laws leases_table)). Qed.
Next Obligation. apply (@cond_counter _ _ leases_table (sim_laws leases_table)). Qed.
Next Obligation. apply (@cond_held _ _ leases_table (sim_laws leases_table)). Qed.
Next Obligation. apply (@cond_completed _ _ leases_table (sim_laws leases_table)). Qed.
Next Obligation. apply (@upd_claim _ _ leases_table (sim_laws leases_table)). Qed.
Next Obligation. apply (@upd_renew _ _ leases_table (sim_laws leases_table)). Qed.
Next Obligation. apply (@upd_checkpoint _ _ leases_table (sim_laws leases_table)). Qed.
Next Obligation. apply (@upd_complete _ _ leases_table (sim_laws leases_table)). Qed.
Next Obligation. apply (@upd_release _ _ leases_table (sim_laws leases_table)). Qed.
Next Obligation. apply (@upd_heartbeat _ _ leases_table (sim_laws leases_table)). Qed.
Next Obligation. intros ms [s d]. by apply relied_aside. Qed.
Next Obligation. apply relied_scan. Qed.
Next Obligation.
  intros k w r w' [Hc Hw]%lift_m_run. apply (@get_law _ _ leases_table (sim_laws leases_table)) in Hc as [Ht Hr].
  split; [|exact Hr]. cbn in Ht. rewrite Ht. by apply relied_aside.
Qed.
Next Obligation.
  intros k attrs cond w r w' [Hc Hw]%lift_m_run Hk.
  destruct (@put_law _ _ leases_table (sim_laws leases_table) _ _ _ _ _ _ Hc Hk) as (t0 & -> & Hout).
  exists (sim_rows w.2). split; [by apply relied_aside|done].
Qed.
Next Obligation.
  intros k expr cond vals ret_new w r w' [Hc Hw]%lift_m_run.
  destruct (@update_law _ _ leases_table (sim_laws leases_table) _ _ _ _ _ _ _ _ Hc) as (t0 & -> & Hout).
  exists (sim_rows w.2). split; [by apply relied_aside|done].
Qed.
Next Obligation.
  intros k cond vals w r w' [Hc Hw]%lift_m_run.
  destruct (@delete_law _ _ leases_table (sim_laws leases_table) _ _ _ _ _ _ Hc) as (t0 & -> & Hout).
  exists (sim_rows w.2). split; [by apply relied_aside|done].
Qed.

(** ** The other worker's steps are backed *)

#[local] Arguments relayed_item : simpl never.

Lemma relayed_lease l :
  relayed_item (lease_item l) =
  lease_item (bump (with_owner None (bump (with_checkpoint "1111" (bump (with_owner (Some "b") l)))))).
Proof.
  assert (∀ l, sim_bump (lease_item l) = <[LEASE_COUNTER := num (l_counter l + 1)]> (lease_item l)) as Hb
    by (intros l'; apply sim_bump_num, lease_item_counter).
  unfold relayed_item. by rewrite Hb, lease_item_claim, Hb, lease_item_with_checkpoint, Hb, lease_item_release.
Qed.

Lemma relay_grows w : relay_due w = true → grows w (relay w).
Proof.
  unfold relay_due. intros (Hlen & Hse & _)%bool_decide_eq_true. destruct w as [[[d o] h] t]. cbn in *.
  split; [|intros s r Hr; cbn; set_solver]. split; [|done]. intros sh.
  destruct (demo_evolves d {| d_len := 4; d_trim := d_trim d; d_sealed := d_sealed d;
    d_script := d_script d; d_derived := d_derived d |}) as [He _]; cbn; [lia|lia|congruence|]. apply (He sh).
Qed.

Lemma relay_reached w : relay_due w = true → reached (relay w) "s" (Some "1111").
Proof.
  unfold relay_due. intros (Hlen & _ & H0 & H1)%bool_decide_eq_true. exists 4. split.
  - split; [done|]. by exists 3, (demo_record 3).
  - intros j Hj. left. exists (record_at j). split.
    + exists (demo_record j). assert (j ∈ seq 0 4) as Hin by (apply elem_of_seq; lia). clear Hlen.
      cbn in Hin. repeat (apply elem_of_cons in Hin as [->|Hin]; [done|]). by apply elem_of_nil in Hin.
    + cbn. apply elem_of_app. destruct j as [|[|[|[|j]]]]; [by left|by left|right; set_solver|right; set_solver|lia].
Qed.

Lemma relay_moved w : relay_due w = true → moved (relay w) (sim_rows w.2) (sim_rows (relay w).2).
Proof.
  intros Hdue A HA. unfold relay. cbn. rewrite (represents_lookup _ _ _ HA).
  destruct (A !! "s") as [l|] eqn:Hl; cbn; [|by exists []].
  exists [OpClaim "s" "b" (l_counter l); OpCheckpoint "s" "b" (l_counter l + 1) "1111";
          OpRelease "s" "b" (l_counter l + 1 + 1)]. split.
  { constructor; [done|]. constructor; [|by repeat constructor]. by apply relay_reached. }
  rewrite relayed_lease. cbn [LeaseTable.exec foldl].
  set (l1 := bump (with_owner (Some "b") l)). set (l2 := bump (with_checkpoint "1111" l1)).
  assert (op_exec A (OpClaim "s" "b" (l_counter l)) = <["s" := l1]> A) as ->.
  { unfold op_exec, op_apply. cbn. by rewrite Hl, N.eqb_refl. }
  assert (op_exec (<["s" := l1]> A) (OpCheckpoint "s" "b" (l_counter l + 1) "1111") = <["s" := l2]> A) as ->.
  { unfold op_exec, op_apply. cbn. rewrite lookup_insert_eq. unfold held_at. cbn. rewrite N.eqb_refl, bool_decide_eq_true_2 by done.
    cbn. by rewrite insert_insert_eq. }
  assert (op_exec (<["s" := l2]> A) (OpRelease "s" "b" (l_counter l + 1 + 1)) = <["s" := bump (with_owner None l2)]> A) as ->.
  { unfold op_exec, op_apply. cbn. rewrite lookup_insert_eq. unfold held_at. cbn. rewrite N.eqb_refl, bool_decide_eq_true_2 by done.
    cbn. by rewrite insert_insert_eq. }
  destruct HA as [-> Hk]. split; [by rewrite fmap_insert|].
  intros k l' [[<- <-]|[_ Hk']]%lookup_insert_Some; [exact (Hk _ _ Hl)|by apply Hk].
Qed.

Lemma relay_later w : later (table := leases_table) w (if relay_due w then relay w else w).
Proof.
  destruct (relay_due w) eqn:Hd; [|reflexivity]. split_and!; [by apply relay_grows|by apply relay_moved|].
  intros A HA t. by apply (remembered_same w (relay w)).
Qed.

Lemma hand_later c rs w : later (table := leases_table) w (hand c rs w).
Proof.
  destruct w as [[[d o] h] t]. split_and!; [split; [by split|]|apply moved_same|].
  - intros s r Hr. cbn in *. set_solver.
  - intros A HA t' Ht. by left.
Qed.

Lemma later_stream {A} (m : M Demo A) :
  keeps evolves m → keeps (later (table := leases_table)) (on_left (on_left (on_left m))).
Proof.
  intros Hm [[[d o] h] t]. specialize (Hm d). unfold on_left. cbn. destruct (m d) as [a d']. cbn in *.
  split_and!; [split; [exact Hm|done]|apply moved_same|]. intros B HB t' Ht. by left.
Qed.

Lemma delivered c rs w :
  deliver (W := Place) c rs w =
  (Ok (last_seq rs), if relay_due (hand c rs w) then relay (hand c rs w) else hand c rs w).
Proof. done. Qed.

#[local] Instance relay_cluster : Cluster Place leases_table.
Proof.
  split; intros. 10, 12-25: by apply keeps_ret; apply _. 5-9: apply later_stream.
  - done.
  - match goal with Hs : scan _ _ _ = _ |- _ => cbn in Hs; injection Hs as <- <- <- end.
    match goal with Hin : it ∈ _ |- _ => apply list_elem_of_fmap in Hin as ([k it'] & -> & Hk%elem_of_map_to_list) end.
    exists w.1.1.2, k. split; [by left|done].
  - done.
  - match goal with Hd : deliver _ _ _ = _ |- _ => rewrite delivered in Hd; injection Hd as _ <- end.
    assert (was_handed (hand c rs w) s r) as Hh.
    { match goal with Hc : consumer_of _ _ |- _ => cbn in Hc; subst s end. cbn. apply elem_of_app. right.
      apply list_elem_of_fmap. by exists r. }
    case_match; [|done]. by apply (relay_later (hand c rs w)) in Hh; case_match.
  - apply evolves_iterator.
  - apply evolves_records.
  - apply keeps_ret; apply _.
  - apply evolves_sleep.
  - apply evolves_now.
  - intros w. rewrite delivered. cbn [snd]. etrans; [apply hand_later|apply relay_later].
Qed.

#[local] Instance relay_acks : AcksDelivered Place.
Proof.
  intros c rs w q w'. rewrite delivered. intros [= Hq _].
  unfold last_seq in Hq. apply fmap_Some in Hq as (r & Hr & ->). apply last_Some_elem_of in Hr. by exists r.
Qed.

(** ** The run *)

(** Everything was handed over, by one worker or the other; nothing is read twice but
    what the other worker took over unacknowledged; and the shard is completed at its
    last record. *)
Lemma no_record_is_lost_across_workers_witness :
  (let '(_, (_, w')) := relay_life in
   let handed s j := (∃ r, at_place w' s j r ∧ was_handed w' s r) ∨ j < trim_horizon w' s in
   evolves relay_start w' ∧ (∀ t, was_table w' t → sound_rows w' t) ∧
   ∃ ops, Forall (backed w') ops ∧ represents (sim_rows w'.2) (LeaseTable.exec ops ∅) ∧
     ∀ s l, LeaseTable.exec ops ∅ !! s = Some l →
       (∀ q, l_checkpoint l = Some q →
          ∃ i r, shard_log w' s !! i = Some r ∧ sdk_seq r = Some q ∧ ∀ j, j ≤ i → handed s j) ∧
       (l_completed l = true → sealed w' s ∧ ∀ j, j < length (shard_log w' s) → handed s j)) ∧
  relay_life.1 = Ok (Some tt) ∧
  rec_seq <$> relay_life.2.2.1.2.*2 = ["1"; "11"; "111"; "111"; "1111"; "11111"] ∧
  sim_rows relay_life.2.2.2 !! "s" =
    Some (lease_item (with_completed (fresh_lease "s" (Some "a") 7 (Some "11111") []))).
Proof.
  split; [|repeat split; vm_compute; reflexivity].
  assert (build (λ _, None) 4711 1 relay_builder relay_start = (Some (Ok relay_worker), relay_start)) as Hbuild
    by (vm_compute; reflexivity).
  assert (represents (rows (W := Place) (table := leases_table) relay_start) ∅) as Hrep.
  { split; [by rewrite fmap_empty|]. intros k l Hl. by rewrite lookup_empty in Hl. }
  assert (sound relay_start ∅) as Hsound by (intros s l Hl; by rewrite lookup_empty in Hl).
  assert (∀ t, was_table relay_start t → sound_rows relay_start t) as Hpast by (intros t ->; by exists ∅).
  pose proof (no_record_is_lost_across_workers relay_worker 4 12 (λ _, []) (λ _, None) 4711 1 relay_builder 6
    relay_start relay_start ∅ Hbuild eq_refl Hrep Hsound Hpast) as H.
  exact H.
Defined.
