(* ===== verification/ClientDemo.v ===== *)
(** * The client side on concrete codecs

    A text form of the client's messages that spells every character in bits, a line
    reader, JSON values as terms and a record codec, and the theorems of [Protocol],
    [Ipc] and [RustClient] at them. *)

From Stdlib Require Import Lia.
From stdpp Require Import base gmap sorting numbers list strings.
From S2P Require Import Prelude Core ChangeRecord StreamsSource Protocol Interfaces Ipc RustClient.

(** ** Messages *)

Definition bit_char (b : bool) : Ascii.ascii := if b then "1"%char else "0"%char.
Definition char_bit (c : Ascii.ascii) : option bool :=
  if bool_decide (c = "1"%char) then Some true
  else if bool_decide (c = "0"%char) then Some false else None.

Fixpoint spell (s : string) (rest : string) : string :=
  match s with
  | EmptyString => rest
  | String (Ascii.Ascii b0 b1 b2 b3 b4 b5 b6 b7) s' =>
      String (bit_char b0) (String (bit_char b1) (String (bit_char b2) (String (bit_char b3)
        (String (bit_char b4) (String (bit_char b5) (String (bit_char b6) (String (bit_char b7)
          (spell s' rest))))))))
  end.

(** What was spelled at the front, and the rest. *)
Fixpoint unspell (s : string) : string * string :=
  match s with
  | String c0 (String c1 (String c2 (String c3 (String c4 (String c5 (String c6 (String c7 s'))))))) =>
      match char_bit c0, char_bit c1, char_bit c2, char_bit c3,
            char_bit c4, char_bit c5, char_bit c6, char_bit c7 with
      | Some b0, Some b1, Some b2, Some b3, Some b4, Some b5, Some b6, Some b7 =>
          let '(t, rest) := unspell s' in (String (Ascii.Ascii b0 b1 b2 b3 b4 b5 b6 b7) t, rest)
      | _, _, _, _, _, _, _, _ => (EmptyString, s)
      end
  | _ => (EmptyString, s)
  end.

Lemma char_bit_char b : char_bit (bit_char b) = Some b.
Proof. by destruct b. Qed.

Lemma unspell_spell s rest : unspell rest = (EmptyString, rest) → unspell (spell s rest) = (s, rest).
Proof.
  intros Hrest. induction s as [|[b0 b1 b2 b3 b4 b5 b6 b7] s IH]; [exact Hrest|].
  cbn [spell unspell]. rewrite !char_bit_char. by rewrite IH.
Qed.

Definition client_text (m : ClientMessage) : string :=
  match m with
  | Ready => "ready"
  | Stop => "stop"
  | Checkpoint shard seq => String "c" (spell shard (String "," (spell seq EmptyString)))
  end.

Definition client_of_text (s : string) : Result ClientMessage WorkerError :=
  if bool_decide (s = "ready") then Ok Ready
  else if bool_decide (s = "stop") then Ok Stop
  else
    match s with
    | String "c"%char s' =>
        match unspell s' with
        | (shard, String ","%char s'') =>
            match unspell s'' with
            | (seq, EmptyString) => Ok (Checkpoint shard seq)
            | _ => Err "expected the end of the line"
            end
        | _ => Err "expected a comma"
        end
    | _ => Err "unknown message"
    end.

#[export] Instance client_wire : Wire ClientMessage := {|
  to_json := client_text;
  from_str := client_of_text;
|}.

Lemma unspell_comma s : unspell (String "," s) = (EmptyString, String "," s).
Proof. by do 7 (destruct s as [|? s]; [done|]). Qed.

Lemma spell_free s rest : free_of_eol rest → free_of_eol (spell s rest).
Proof.
  intros Hr. induction s as [|[b0 b1 b2 b3 b4 b5 b6 b7] s [IHn IHr]]; [done|].
  split; cbn [spell str_contains]; rewrite ?IHn, ?IHr; by destruct b0, b1, b2, b3, b4, b5, b6, b7.
Qed.

#[export] Instance client_wire_laws : WireLaws ClientMessage.
Proof.
  split.
  - intros [|shard seq|]; [done| |done]. cbn [from_str client_wire to_json client_text].
    unfold client_of_text. rewrite !bool_decide_eq_false_2 by done.
    rewrite unspell_spell by apply unspell_comma. by rewrite unspell_spell.
  - intros [|shard seq|]; [done| |done]. cbn [to_json client_wire client_text].
    assert (free_of_eol (spell shard (String "," (spell seq EmptyString)))) as [Hn Hr].
    { apply spell_free. destruct (spell_free seq EmptyString) as [Hn Hr]; [done|].
      split; cbn; by rewrite ?Hn, ?Hr. }
    split; cbn; by rewrite ?Hn, ?Hr.
Qed.

Fixpoint split_lines (s : string) : list string :=
  match s with
  | EmptyString => []
  | String c s' =>
      if bool_decide (c = newline) then EmptyString :: split_lines s'
      else match split_lines s' with [] => [String c EmptyString] | l :: ls => String c l :: ls end
  end.

#[export] Program Instance line_reader : LineReader := {| lines := split_lines |}.
Next Obligation. done. Qed.
Next Obligation.
  intros l rest. induction l as [|c l IH]; [done|].
  intros [Hc Hl]%free_of_eol_cons.
  change (split_lines (String c (String.append l (String newline rest))) = String c l :: split_lines rest).
  cbn [split_lines]. rewrite IH by done. rewrite bool_decide_eq_false_2; [done|].
  intros ->. done.
Qed.

Definition some_messages : list ClientMessage := [Ready; Checkpoint "s0" "17"; Stop].

Lemma framed_messages_roundtrip_witness :
  Protocol_parse <$> lines (stream_of some_messages) = Ok <$> some_messages ∧
  ∀ m : ClientMessage, Protocol_parse (to_line m) = Ok m ∧ Protocol_parse (to_json m) = Ok m.
Proof. pose proof (framed_messages_roundtrip some_messages) as H. exact H. Defined.

(** ** A session *)

Definition batch_msg (shard last : string) : ServerMessage := Records shard last [].

(** The batch of ["s0"] is handed over, and out. *)
Definition ses_handed : Session :=
  {| ses_ipc := (register "s0" Ipc_new).2; ses_reading := true;
     ses_deliveries := <["s0" := Registered (register "s0" Ipc_new).1 (batch_msg "s0" "17")]> ∅ |}.
Definition ses_out : Session :=
  {| ses_ipc := ses_ipc ses_handed; ses_reading := true;
     ses_deliveries := <["s0" := Awaiting (register "s0" Ipc_new).1]> (ses_deliveries ses_handed) |}.

Lemma steps_out : steps Session_new [Handed "s0" "17" []; Wrote (batch_msg "s0" "17")] ses_out.
Proof.
  apply (steps_step _ [Handed "s0" "17" []] ses_handed [Wrote (batch_msg "s0" "17")]).
  - apply (steps_step _ [] Session_new [Handed "s0" "17" []]); [apply steps_refl|].
    apply step_hand; reflexivity.
  - apply step_wrote. reflexivity.
Qed.

Definition ack_line : ReadEvent := Line (to_line (Checkpoint "s0" "17")).

(** The client acks the batch, and the delivery returns. *)
Definition ses_done : Session :=
  {| ses_ipc := (reader_round ack_line (ses_ipc ses_out)).2; ses_reading := true;
     ses_deliveries := delete "s0" (ses_deliveries ses_out) |}.

Definition acked_history : list Event :=
  [Handed "s0" "17" []; Wrote (batch_msg "s0" "17"); Acked "s0" "17"; Returned "s0" (Some "17")].

Lemma steps_done : steps Session_new acked_history ses_done.
Proof.
  apply (steps_step _ [Handed "s0" "17" []; Wrote (batch_msg "s0" "17"); Acked "s0" "17"]
    {| ses_ipc := ses_ipc ses_done; ses_reading := true; ses_deliveries := ses_deliveries ses_out |}
    [Returned "s0" (Some "17")]).
  - assert (acks ack_line = [Acked "s0" "17"]) as Hack by (vm_compute; reflexivity).
    change [Handed "s0" "17" []; Wrote (batch_msg "s0" "17"); Acked "s0" "17"]
      with ([Handed "s0" "17" []; Wrote (batch_msg "s0" "17")] ++ [Acked "s0" "17"]).
    rewrite <- Hack. eapply steps_step; [apply steps_out|]. apply step_read. vm_compute. reflexivity.
  - apply (step_wake _ _ _ "s0" (register "s0" Ipc_new).1); vm_compute; reflexivity.
Qed.

Lemma deliveries_are_ack_gated_witness :
  steps Session_new acked_history ses_done ∧
  ∃ g, gate_run "s0" None acked_history = Some g ∧ (g = None ↔ ses_deliveries ses_done !! "s0" = None).
Proof.
  split; [apply steps_done|].
  pose proof (deliveries_are_ack_gated acked_history ses_done "s0" steps_done) as H. exact H.
Defined.

(** The client's stream ends while the delivery waits. *)
Definition ses_gone : Session :=
  {| ses_ipc := signal_stop (ses_ipc ses_out); ses_reading := false;
     ses_deliveries := ses_deliveries ses_out |}.

Lemma steps_gone : steps Session_new [Handed "s0" "17" []; Wrote (batch_msg "s0" "17")] ses_gone.
Proof.
  apply (steps_step _ [Handed "s0" "17" []; Wrote (batch_msg "s0" "17")] ses_out (acks Eof));
    [apply steps_out|]. apply step_read. reflexivity.
Qed.

(** Afterwards a batch of another shard is handed over, and cannot be written. *)
Definition ses_later : Session :=
  {| ses_ipc := (register "s1" (ses_ipc ses_gone)).2; ses_reading := false;
     ses_deliveries := <["s1" := Registered (register "s1" (ses_ipc ses_gone)).1 (batch_msg "s1" "3")]>
                         (ses_deliveries ses_gone) |}.

Lemma steps_later : steps ses_gone [Handed "s1" "3" []] ses_later.
Proof.
  apply (steps_step _ [] ses_gone [Handed "s1" "3" []]); [apply steps_refl|].
  apply step_hand; reflexivity.
Qed.

Lemma waiting_delivery_outlives_client_witness :
  ses_deliveries ses_later !! "s0" = Some (Awaiting (register "s0" Ipc_new).1) ∧
  received (ses_ipc ses_later) (register "s0" Ipc_new).1 = None.
Proof.
  pose proof (waiting_delivery_outlives_client _ ses_gone _ ses_later "s0" (register "s0" Ipc_new).1
    steps_gone eq_refl eq_refl eq_refl steps_later) as H.
  exact H.
Defined.

(** ** JSON views *)

Inductive Term :=
| TNull | TBool (b : bool) | TString (s : string) | TArray (l : list Term)
| TObject (m : list (string * Term)).

#[export] Instance term_json : Json := {|
  json := Term; JNull := TNull; JBool := TBool; JString := TString; JArray := TArray;
  JObject := TObject; b64 := String.string_of_list_byte;
|}.

#[export] Instance term_json_laws : JsonLaws.
Proof.
  split; cbn; try by intros ? ? [= ->].
  - by intros l k _ _ [= ->].
  - intros b c He. by rewrite <- (String.list_byte_of_string_of_list_byte b), He,
      String.list_byte_of_string_of_list_byte.
Qed.

Definition nested_item : ChangeRecord.Item :=
  [("a", N_ "42"); ("m", M_ [("k", L [Null; S_ "x"]); ("set", Ss ["p"; "q"])])].

Lemma ddb_json_view_is_lossless_witness :
  attr_ok (M_ nested_item) ∧ nested_item = nested_item.
Proof.
  assert (attr_ok (M_ nested_item)) as Hok.
  { cbn. split_and!; try done; unfold map_ok; split; cbn.
    all: try (apply NoDup_cons; split; [set_solver|apply NoDup_singleton]).
    all: repeat constructor. }
  split; [exact Hok|].
  pose proof (ddb_json_view_is_lossless nested_item nested_item Hok Hok eq_refl) as H. exact H.
Defined.

(** ** A change on its way to the application *)

Definition change : SdkRecord :=
  {| sk_event_name := Some "MODIFY";
     sk_dynamodb := Some {| ss_sequence_number := Some "17"; ss_size_bytes := Some 26%Z;
       ss_view_type := Some "NEW_AND_OLD_IMAGES";
       ss_keys := Some [("pk", SdkS "k1")];
       ss_new_image := Some [("tags", SdkL [SdkNull true; SdkN "7"]); ("pk", SdkS "k1")];
       ss_old_image := Some [];
       ss_created := Some {| dt_millis := Some 1700000000000%Z; dt_secs := 1700000000%Z |} |} |}.

(** A codec that names a record by its sequence number and knows this one. *)
#[export] Instance change_codec : RecordCodec := {|
  encode sr := String.list_byte_of_string (default EmptyString (sequence_number sr));
  decode bs :=
    if bool_decide (String.string_of_list_byte bs = "17") then Ok (from_sdk change)
    else Err "unknown record";
|}.

Definition change_record : Record_ :=
  {| rec_shard := "s0"; rec_seq := "17"; rec_data := encode (from_sdk change) |}.

Lemma application_sees_the_change_witness :
  let cr := decode_record change_record Native in
  let kept m := map (λ kv, (kv.1, sdk_of kv.2)) m in
  let given m := sort_by_key fst (map (λ kv, (kv.1, canonical kv.2)) m) in
  (cr_shard_id cr = "s0" ∧ cr_sequence_number cr = "17" ∧ Some "17" = Some "17" ∧
   cr_event_name cr = Some "MODIFY" ∧ cr_stream_view_type cr = Some "NEW_AND_OLD_IMAGES" ∧
   kept (cr_keys cr) = given [("pk", SdkS "k1")] ∧
   (∀ m, Some [("tags", SdkL [SdkNull true; SdkN "7"]); ("pk", SdkS "k1")] = Some m → m ≠ [] →
      kept <$> cr_new_image cr = Some (given m)) ∧
   (∀ m, Some [] = Some m → m ≠ [] → kept <$> cr_old_image cr = Some (given m)) ∧
   (cr_new_image cr = None ↔
      [("tags", SdkL [SdkNull true; SdkN "7"]); ("pk", SdkS "k1")] = []) ∧
   (cr_old_image cr = None ↔ ([] : list (string * Sdk)) = []) ∧
   ∀ other e, decode (rec_data other) = Err e →
     cr_sequence_number (decode_record other Native) = rec_seq other ∧
     cr_keys (decode_record other Native) = []) ∧
  cr_new_image cr = Some [("pk", S_ "k1"); ("tags", L [Null; N_ "7"])].
Proof.
  split; [|vm_compute; reflexivity].
  pose proof (application_sees_the_change "s0" change _ change_record Native eq_refl eq_refl eq_refl) as H.
  exact H.
Defined.

(** The same change, with the new image in another order, the null as a type that the
    SDK does not know, and no old image. *)
Definition same_change_again : SdkRecord :=
  {| sk_event_name := Some "MODIFY";
     sk_dynamodb := Some {| ss_sequence_number := Some "17"; ss_size_bytes := Some 26%Z;
       ss_view_type := Some "NEW_AND_OLD_IMAGES";
       ss_keys := Some [("pk", SdkS "k1")];
       ss_new_image := Some [("pk", SdkS "k1"); ("tags", SdkL [SdkUnknown; SdkN "7"])];
       ss_old_image := None;
       ss_created := Some {| dt_millis := None; dt_secs := 1700000000%Z |} |} |}.

Lemma conversion_keeps_the_change_witness :
  (from_sdk change = from_sdk same_change_again ↔ same_change change same_change_again) ∧
  from_sdk change = from_sdk same_change_again.
Proof.
  split; [|vm_compute; reflexivity]. apply (conversion_keeps_the_change change).
  intros sr m [= <-] [[= <-]|[[= <-]|[= <-]]]; cbn; split_and!; try done.
  - apply NoDup_singleton.
  - apply NoDup_cons. split; [set_solver|apply NoDup_singleton].
  - apply NoDup_nil_2.
Defined.
