(* ===== verification/ClientTests.v ===== *)
(** * The tests of the sidecar and of the Rust client, run on the model

    [sidecar/src/main.rs], [sidecar/src/ipc.rs] and [clients/rust/src/lib.rs].  The
    codecs the tests take from serde and base64 are concrete functions here.  The
    round trips of [protocol/src/lib.rs] are [Protocol]'s framing theorem. *)

From stdpp Require Import base gmap numbers list strings.
From S2P Require Import Prelude Core Metrics DynamoDb ChangeRecord Protocol.
From S2P Require Import Interfaces Ipc Sidecar RustClient ClientDemo.

(** ** [sidecar/src/main.rs]: the configuration *)

Definition Env : Type := list (string * string).

(** [std::env::var]: what was set last, in an environment that starts empty
    ([clear]). *)
Definition env_get (e : Env) (k : string) : option string :=
  snd <$> head (filter (λ kv, kv.1 = k) e).

Definition config_of (e : Env) : Result Config string := from_env (env_get e) 4711.

Definition required_env : Env :=
  [("DDB_STREAMS_CONSUMER_STREAM_ARN", "arn"); ("DDB_STREAMS_CONSUMER_LEASE_TABLE", "leases")].

Definition missing_required_is_an_error : bool :=
  negb (is_ok (config_of [])) &&
  negb (is_ok (config_of [("DDB_STREAMS_CONSUMER_STREAM_ARN", "arn")])).

Definition defaults_and_owner_fallback : bool :=
  match config_of (("HOSTNAME", "host7") :: required_env) with
  | Ok c =>
      (cfg_max_leases c =? 100) && (cfg_lease_duration_ms c =? 10000)%N &&
      (cfg_poll_interval_ms c =? 1000)%N && (cfg_cycle_interval_ms c =? 1000)%N &&
      starts_with (cfg_owner c) "host7:" && bool_decide (cfg_max_records c = None) &&
      bool_decide (cfg_max_processing_concurrency c = None) &&
      bool_decide (cfg_checkpoint_interval_ms c = None) &&
      match billing (cfg_lease_table_config c) with PayPerRequest => true | _ => false end &&
      negb (pitr (cfg_lease_table_config c))
  | Err _ => false
  end.

Definition explicit_env : Env :=
  [("DDB_STREAMS_CONSUMER_OWNER", "worker-9"); ("DDB_STREAMS_CONSUMER_MAX_LEASES", "5");
   ("DDB_STREAMS_CONSUMER_LEASE_DURATION_MS", "3000");
   ("DDB_STREAMS_CONSUMER_POLL_INTERVAL_MS", "200");
   ("DDB_STREAMS_CONSUMER_CYCLE_INTERVAL_MS", "250");
   ("DDB_STREAMS_CONSUMER_MAX_RECORDS", "250");
   ("DDB_STREAMS_CONSUMER_MAX_PROCESSING_CONCURRENCY", "4");
   ("DDB_STREAMS_CONSUMER_CHECKPOINT_INTERVAL_MS", "5000");
   ("DDB_STREAMS_CONSUMER_LEASE_BILLING_MODE", "provisioned");
   ("DDB_STREAMS_CONSUMER_LEASE_READ_CAPACITY", "7");
   ("DDB_STREAMS_CONSUMER_LEASE_WRITE_CAPACITY", "9");
   ("DDB_STREAMS_CONSUMER_LEASE_PITR", "true")] ++ required_env.

Definition explicit_values_are_parsed : bool :=
  match config_of explicit_env with
  | Ok c =>
      bool_decide (cfg_owner c = "worker-9") && (cfg_max_leases c =? 5) &&
      bool_decide (cfg_max_processing_concurrency c = Some 4) &&
      bool_decide (cfg_checkpoint_interval_ms c = Some 5000%N) &&
      (cfg_lease_duration_ms c =? 3000)%N && (cfg_poll_interval_ms c =? 200)%N &&
      (cfg_cycle_interval_ms c =? 250)%N && bool_decide (cfg_max_records c = Some 250%Z) &&
      match billing (cfg_lease_table_config c) with
      | Provisioned r w => (r =? 7)%Z && (w =? 9)%Z
      | PayPerRequest => false
      end && pitr (cfg_lease_table_config c)
  | Err _ => false
  end.

(** ** [sidecar/src/main.rs]: the handoff *)

Inductive Ev := Notify (shard : string) | Released.

#[export] Instance Ev_eq_dec : EqDecision Ev.
Proof. solve_decision. Defined.

Record FakeHandoff := { owned : list ShardId; fail_lookup : bool; ev_log : list Ev }.

Definition push_ev (e : Ev) (h : FakeHandoff) : FakeHandoff :=
  {| owned := owned h; fail_lookup := fail_lookup h; ev_log := ev_log h ++ [e] |}.

Definition fake_handoff : LeaseHandoff FakeHandoff := {|
  list_owned := λ h,
    (if fail_lookup h then Err "owned-shards lookup failed" else Ok (owned h), h);
  release_all_owned := λ h, (Ok (length (owned h)), push_ev Released h);
|}.

Definition fake_notifier : ShutdownNotifier FakeHandoff := {|
  notify_shutdown shard := λ h, (tt, push_ev (Notify shard) h);
|}.

(** The log of [graceful_handoff(&h, &n, 0)]; a pause of no length. *)
Definition handed_off (shards : list ShardId) (fails : bool) : list Ev :=
  let _ := fake_handoff in let _ := fake_notifier in
  let _ : Clock FakeHandoff := {| instant_now := ret 0%N; sleep _ := ret tt |} in
  ev_log (graceful_handoff 0 {| owned := shards; fail_lookup := fails; ev_log := [] |}).2.

Definition handoff_notifies_every_owned_shard_before_release : bool :=
  bool_decide (handed_off ["s0"; "s1"; "s2"] false =
               [Notify "s0"; Notify "s1"; Notify "s2"; Released]).

Definition handoff_releases_without_notifying_when_no_shards_owned : bool :=
  bool_decide (handed_off [] false = [Released]).

Definition handoff_still_releases_when_owned_lookup_fails : bool :=
  bool_decide (handed_off ["s0"] true = [Released]).

(** ** [sidecar/src/ipc.rs] *)

(** [StreamRecord { event_name: Some("INSERT"), sequence_number: Some(seq), keys: {pk}, .. }]. *)
Definition pk_record (seq : string) : StreamRecord :=
  {| event_name := Some "INSERT"; sequence_number := Some seq; size_bytes := None;
     stream_view_type := None; keys := [("pk", S_ "k")]; new_image := None; old_image := None;
     approx_creation_time_ms := None |}.

(** A codec for those records. *)
Definition pk_codec : RecordCodec := {|
  encode sr := String.list_byte_of_string (default EmptyString (sequence_number sr));
  decode bs := Ok (pk_record (String.string_of_list_byte bs));
|}.

Definition pk_rec (shard seq : string) : Record_ :=
  {| rec_shard := shard; rec_seq := seq; rec_data := encode (RecordCodec := pk_codec) (pk_record seq) |}.

(** A batch as text: the shard, the last sequence number and those of the records. *)
Fixpoint spell_all (l : list string) : string :=
  match l with [] => EmptyString | s :: l' => String "," (spell s (spell_all l')) end.

Fixpoint unspell_all (fuel : nat) (s : string) : list string :=
  match fuel, s with
  | S fuel', String ","%char s' => let '(t, rest) := unspell s' in t :: unspell_all fuel' rest
  | _, _ => []
  end.

Definition batch_wire : Wire ServerMessage := {|
  to_json m :=
    match m with
    | Records shard last rs =>
        spell_all (shard :: last :: (default EmptyString ∘ sequence_number <$> rs))
    | _ => "other"
    end;
  from_str s :=
    match unspell_all (String.length s) s with
    | shard :: last :: seqs => Ok (Records shard last (pk_record <$> seqs))
    | _ => Err "not a batch"
    end;
|}.

(** The client: the line it was sent, and what it saw of it. *)
Record TestClient := {
  inbox : option string;
  seen : option (string * nat * bool);
}.

(** The client reads one message, decodes it and acks [last_seq]; the session's
    reader takes the ack. *)
Definition client_turn : M (Ipc * TestClient) unit := λ iw,
  let _ := batch_wire in
  match inbox iw.2 with
  | Some line =>
      match Protocol_parse line with
      | Ok (Records shard last records) =>
          let has_pk := match records with
                        | r :: _ => bool_decide ("pk" ∈ fst <$> keys r)
                        | [] => false
                        end in
          let ack := Line (to_line (Checkpoint shard last)) in
          (tt, ((reader_round ack iw.1).2,
                {| inbox := None; seen := Some (last, length records, has_pk) |}))
      | _ => (tt, iw)
      end
  | None => (tt, iw)
  end.

Definition test_conn : ClientConn TestClient := {|
  conn_write line := λ c, (Ok tt, {| inbox := Some line; seen := seen c |});
  other_tasks := client_turn;
|}.

Definition deliver_is_gated_on_the_client_checkpoint_ack : bool :=
  let _ := pk_codec in let _ := batch_wire in let _ := test_conn in
  let batch := [pk_rec "s0" "100000000000000000001"; pk_rec "s0" "100000000000000000002"] in
  let '(ack, (_, c)) :=
    consumer_deliver 1 "s0" batch (Ipc_new, {| inbox := None; seen := None |}) in
  match ack with
  | Ok ack => bool_decide (ack = Some "100000000000000000002")
  | Err _ => false
  end && bool_decide (seen c = Some ("100000000000000000002", 2, true)).

(** The client's writer is dropped; the delivery then waits for as many turns as it
    likes, and the stop that was signalled is what ends the wait. *)
Definition client_disconnect_signals_stop_and_unblocks_delivery : bool :=
  let _ := pk_codec in let _ := batch_wire in
  let _ : ClientConn TestClient := {|
    conn_write line := λ c, (Ok tt, {| inbox := Some line; seen := seen c |});
    other_tasks := ret tt |} in
  let '(goes_on, i) := reader_round Eof Ipc_new in
  let '(ack, (i', _)) :=
    deliver_batch 10 "s0" "1" [pk_record "1"] (i, {| inbox := None; seen := None |}) in
  negb goes_on && is_stopped i && bool_decide (ack = None) && is_stopped i'.

(** ** [clients/rust/src/lib.rs] *)

Definition sextets (bits : list bool) : list N :=
  let fix go (fuel : nat) (bs : list bool) : list N :=
    match fuel, bs with
    | O, _ | _, [] => []
    | S fuel', _ =>
        let six := take 6 (bs ++ replicate 5 false) in
        foldl (λ n (b : bool), (2 * n + (if b then 1 else 0))%N) 0%N six :: go fuel' (drop 6 bs)
    end in
  go (length bits) bits.

Definition base64_alphabet : string :=
  "ABCDEFGHIJKLMNOPQRSTUVWXYZabcdefghijklmnopqrstuvwxyz0123456789+/".

(** The standard encoding, padded. *)
Definition base64 (bs : list Init.Byte.byte) : string :=
  let bits := mjoin ((λ b, (λ k, N.testbit (Byte.to_N b) k) <$> [7; 6; 5; 4; 3; 2; 1; 0]%N) <$> bs) in
  let text := foldr (λ n s,
    String (default "="%char (String.get (N.to_nat n) base64_alphabet)) s) EmptyString (sextets bits) in
  let pad := match length bs mod 3 with 1 => "==" | 2 => "=" | _ => EmptyString end in
  String.append text pad.

Definition base64_json : Json := {|
  json := Term; JNull := TNull; JBool := TBool; JString := TString; JArray := TArray;
  JObject := TObject; b64 := base64;
|}.

(** [v[k]]. *)
Definition at_key (v : Term) (k : string) : Term :=
  match v with
  | TObject m => default TNull (snd <$> head (filter (λ kv, kv.1 = k) m))
  | _ => TNull
  end.

Definition sample_item : ChangeRecord.Item := sort_by_key fst
  [("id", N_ "42"); ("name", S_ "widget"); ("active", Bool true); ("deleted", Null);
   ("blob", B [Byte.x01; Byte.x02; Byte.x03]); ("tags", Ss ["a"; "b"]); ("scores", Ns ["1"; "2.5"]);
   ("meta", M_ [("k", S_ "v")]); ("list", L [N_ "7"; Null])].

Definition native_json_has_no_type_wrappers_and_keeps_numbers_as_strings : Prop :=
  let v := at_key (item_to_json (H := base64_json) sample_item Native) in
  v "id" = TString "42" ∧ v "name" = TString "widget" ∧ v "active" = TBool true ∧
  v "deleted" = TNull ∧ v "blob" = TString "AQID" ∧
  v "tags" = TArray [TString "a"; TString "b"] ∧
  v "scores" = TArray [TString "1"; TString "2.5"] ∧
  v "meta" = TObject [("k", TString "v")] ∧ v "list" = TArray [TString "7"; TNull].

Definition ddb_json_is_canonical_typed_form : Prop :=
  let v := at_key (item_to_json (H := base64_json) sample_item DdbJson) in
  v "id" = TObject [("N", TString "42")] ∧ v "name" = TObject [("S", TString "widget")] ∧
  v "active" = TObject [("BOOL", TBool true)] ∧ v "deleted" = TObject [("NULL", TBool true)] ∧
  v "blob" = TObject [("B", TString "AQID")] ∧
  v "tags" = TObject [("SS", TArray [TString "a"; TString "b"])] ∧
  v "scores" = TObject [("NS", TArray [TString "1"; TString "2.5"])] ∧
  v "meta" = TObject [("M", TObject [("k", TObject [("S", TString "v")])])] ∧
  v "list" = TObject [("L", TArray [TObject [("N", TString "7")]; TObject [("NULL", TBool true)]])].

Definition sample_change : StreamRecord :=
  {| event_name := Some "INSERT"; sequence_number := Some "100"; size_bytes := None;
     stream_view_type := Some "NEW_IMAGE"; keys := [("pk", S_ "k1")];
     new_image := Some [("n", N_ "5"); ("pk", S_ "k1")]; old_image := None;
     approx_creation_time_ms := None |}.

(** A codec that knows this change and rejects every other payload. *)
Definition sample_codec : RecordCodec := {|
  encode _ := String.list_byte_of_string "change";
  decode bs :=
    if bool_decide (String.string_of_list_byte bs = "change") then Ok sample_change
    else Err "expected value";
|}.

Definition decode_record_populates_typed_and_json_views : Prop :=
  let core := {| rec_shard := "shard-1"; rec_seq := "100";
                 rec_data := encode (RecordCodec := sample_codec) sample_change |} in
  let view r := (λ v, at_key v "n") <$> new_image_json (H := base64_json) r in
  let rec1 := decode_record (H := sample_codec) core Native in
  let rec2 := decode_record (H := sample_codec) core DdbJson in
  cr_shard_id rec1 = "shard-1" ∧ cr_sequence_number rec1 = "100" ∧
  cr_event_name rec1 = Some "INSERT" ∧
  snd <$> head (filter (λ kv, kv.1 = "pk") (cr_keys rec1)) = Some (S_ "k1") ∧
  view rec1 = Some (TString "5") ∧ view rec2 = Some (TObject [("N", TString "5")]).

Definition undecodable_payload_yields_empty_images_not_panic : Prop :=
  let core := {| rec_shard := "s"; rec_seq := "1";
                 rec_data := String.list_byte_of_string "not json" |} in
  let rec := decode_record (H := sample_codec) core Native in
  cr_sequence_number rec = "1" ∧ cr_keys rec = [] ∧ cr_new_image rec = None.

Definition client_tests : list bool :=
  [missing_required_is_an_error;
   defaults_and_owner_fallback;
   explicit_values_are_parsed;
   handoff_notifies_every_owned_shard_before_release;
   handoff_releases_without_notifying_when_no_shards_owned;
   handoff_still_releases_when_owned_lookup_fails;
   deliver_is_gated_on_the_client_checkpoint_ack;
   client_disconnect_signals_stop_and_unblocks_delivery].

Example client_tests_hold : Forall (λ passed, passed = true) client_tests.
Proof. vm_compute. repeat constructor. Qed.

Example client_record_tests_hold :
  native_json_has_no_type_wrappers_and_keeps_numbers_as_strings ∧
  ddb_json_is_canonical_typed_form ∧
  decode_record_populates_typed_and_json_views ∧
  undecodable_payload_yields_empty_images_not_panic.
Proof. vm_compute. by split_and!. Qed.
